(* ===== verification/_CoqProject ===== *)
-Q . S2P
Prelude.v
Identity.v
HashCache.v
Sha256.v
Json.v
Redact.v
JsonText.v
JsonPatch.v
Regex.v
GoHeap.v
Normalize.v
Pipeline.v
Process.v
Registry.v
Interest.v
WatchManager.v
ScopeRecorder.v
Warm.v
Driver.v
ScopeWriter.v
CHWriter.v
CHReader.v
CHSql.v
SinkManager.v
CHSchema.v
Resolver.v
Conditions.v
ApiTypes.v
DeepCopy.v
RuleReconciler.v
SinkReconciler.v
ApiSamples.v
WatchLoop.v
RecorderLoop.v
ProcessFacts.v
Workers.v
Metrics.v
GoFlags.v
Admission.v
Operator.v
ProcessSpec.v
ProcessProps.v
Replay.v
WarmProps.v
BootLoop.v
CHWriterProps.v
CHHistory.v
SinkManagerProps.v
RuleProps.v
RuleRedaction.v
AdmissionProps.v
SinkReconcilerProps.v
WatchLoopProps.v
WorkersProps.v
MetricsProps.v
OperatorProps.v
EndToEnd.v
