(* ===== verification/Prelude.v ===== *)
(** * kuberecord: a verification development

    kuberecord is a Kubernetes operator that streams the state changes of
    cluster objects into ClickHouse. Sinks name a database and its credentials,
    rules say which kinds go to which sink. The rule reconciler checks a rule
    against its sink's policy, discovery and the operator's own permissions and
    puts the surviving targets in the registry; the registry merges the rules into
    watch targets; the watch manager keeps one informer per (resource, namespace)
    and turns informer events into work items, one per interested sink; the
    pipeline reads the object behind an item back from the watch cache, redacts and
    normalizes it, compares it with what the sink last stored and hands the sink at
    most one row; the sink's writer batches and retries rows and confirms or refuses
    each one later, and the pipeline's cache moves only on confirmation. The sink
    reconciler declares sinks to the sink manager, which runs one writer per sink
    and probes it; the warm-up coordinator seeds a starting scope from the rows the
    sink already holds, and the scope recorder logs which scopes were watched when.

    ** The files, in dependency order

    - [Prelude] (this file): Go's string and sorting helpers, [result], 64-bit
      counters, the development's tactics, lemmas shared by all components.
    - [Identity]: [internal/pipeline/identity.go], [special_kinds.go]. Work keys,
      scopes and the text keys of the cache.
    - [HashCache]: [internal/pipeline/hashcache.go]. The deduplication cache as a
      map of versioned entries; every operation is a function on it. Zstandard is
      the class [ZstdCodec] with its round-trip law.
    - [Sha256], [Json]: the content hash (the algorithm, run on the standard's
      test vectors) and JSON values as [encoding/json] prints them, with
      apimachinery's accessors for unstructured objects ([UnstructuredAPI]).
    - [Redact]: [internal/pipeline/redact.go]. The path grammar, its parser, policy
      compilation and merging, and the copy-on-write application, against a plain
      reference semantics ([redact], [redact_all]).
    - [JsonText], [JsonPatch]: reading JSON texts, with the round trip through
      [Marshal], and the contract of the diff library ([JsonDiff], called by the
      program, [PatchReader], the history's reader, and [JsonDiffLaws], RFC 6902 on
      JSON values), kept by a concrete implementation.
    - [Regex]: what the code uses of Go's [regexp]: the syntax of the patterns, read
      from their text, and matching, by derivatives, against the usual meaning.
    - [GoHeap]: Go's memory, for the copies: pointers, what a structure stands for
      and what it reaches, and the shapes copying code is made of.
    - [Normalize]: [actors.go], [TransformObject] of [internal/watch/pool.go], and
      the normalization half of [process.go].
    - [Pipeline], [Process]: [pipeline.go] and [process.go]. The state of the
      pipeline is [pstate]: a heap of per-sink states reached by name (so that a
      removed sink's state stays reachable from commits in flight), the rows
      handed to each sink, the queue calls, the counters. [Process] is a function
      in a state monad over an environment [env] that answers what the outside
      answers: the watch cache, the sink's readiness, the clock. A commit callback
      is data ([commit]) that [run_commit] executes, at any later time and in any
      order.
    - [Registry]: [internal/plan/registry.go]. Rules in, merged targets out, with
      an abstract specification and a refinement theorem.
    - [Interest], [WatchManager]: [internal/watch/interest.go], [manager.go],
      [pool.go]. Interests and their table, one reconcile pass, the pool diff, the
      lookups the pipeline makes and the event fan-out.
    - [ScopeRecorder]: [internal/watch/scope_recorder.go]. Interest transitions to
      scope epochs, the queue of scope-log rows and its flush.
    - [Warm]: [internal/pipeline/warm.go]. Seeding a scope from history, the zombie
      sweep, close-outs, the coordinator's bookkeeping and boot reconciliation. A
      retried operation takes the list of environments of its attempts.
    - [Driver]: what the operator uses of the ClickHouse driver: values, rows,
      results of a query, answers of one insert.
    - [ScopeWriter], [CHWriter]: [clickhouse/scopewriter.go], [clickhouse/writer.go].
      Producers, workers, retries, row isolation and the shutdown sequence as steps
      of one state; a step is enabled or not, and any interleaving is a run.
    - [CHReader]: [clickhouse/statereader.go]. The queries and the row scans.
    - [CHSql]: the fragment of ClickHouse SQL those queries are written in: its
      parser, and what a query may answer over the rows of a table.
    - [SinkManager]: [internal/sink/manager.go]. The routing table, the instances and
      the background goroutines that drain and delete them.
    - [CHSchema]: [clickhouse/schema.go], [clickhouse/instance.go]. Required columns,
      schema check and creation, the probe and the configuration fingerprint.
    - [Resolver]: [internal/watch/resolver.go]. Kinds to resources through the REST
      mapper, with the retry gate per kind.
    - [Conditions]: [internal/controller/conditions.go], [metrics.go]. Conditions and
      their roll-up, status updates, events, rule keys, the rules gauge.
    - [ApiTypes]: [api/v1alpha1]. The custom resources' fields, and admission of
      redaction entries.
    - [DeepCopy]: [zz_generated.deepcopy.go], [groupversion_info.go]. The custom
      resources as they lie in memory, a function per generated one, and the
      registration of the types. The metadata is apimachinery's (class [MetaCopy]).
    - [RuleReconciler]: [internal/controller/streamrule_controller.go],
      [redaction.go]. One pass of either rule kind, gate by gate; the parker.
    - [SinkReconciler]: [internal/controller/sink_controller.go], and the
      configuration builder of [cmd/main.go]. One pass of a sink, the probe store.
      The runtime it talks to is the class [SinkRuntime], implemented by the sink
      manager.
    - [ApiSamples]: instances of the classes that stand for apimachinery.
    - [WatchLoop]: [Start] and [debounce] of [internal/watch/manager.go] and the
      informer pool of [pool.go] with its goroutines. The loop is a state machine of
      its timers, the registry's notification channel and the passes, cut where it
      waits; an informer goroutine is an entry of a list, so that one nobody holds
      is visible.
    - [RecorderLoop]: [Start] and [signal] of [scope_recorder.go]. The flush loop
      with its wake-up channel, between transitions, and the drain on the way out.
    - [Workers]: [Start] and the worker loop of [pipeline.go]. The work queue is the
      class [WorkQueue] with client-go's contract (one holder per key, keys added
      while held come back); [list_queue] is an instance.
    - [Metrics]: [internal/pipeline/metrics.go]. Every collector with its labels, its
      registration, the views of the sinks and what they report. Vectors, metrics and
      registries are client_golang's: the class [PromClient] with its contract
      [PromLaws]; [LocalClient] is an instance.
    - [GoFlags]: what [cmd/main.go] uses of Go's [flag], [strconv] and [time]:
      integers, booleans, durations, the parse of a command line.
    - [Admission]: the markers of [api/v1alpha1]. What an author submits, with absent
      fields, goes through the defaults and the validation of its schema, the
      transition rule of an update, and decoding into the types of [ApiTypes].
    - [Operator]: [cmd/main.go], the [SetupWithManager] methods and the option checks
      of the constructors. [main] is a function of the command line, the environment
      and the manager's answers; it returns how the process ends.
    - [ProcessFacts], [ProcessSpec]: a small program logic ([keeps], [hoare]), the
      step relation and [reachable]; the equations that give the outcome of one
      work item as a function of its cache entry and observation.
    - [ProcessProps], [Replay], [WarmProps], [CHWriterProps], [CHHistory],
      [SinkManagerProps], [RuleProps], [RuleRedaction], [SinkReconcilerProps],
      [WatchLoopProps], [WorkersProps], [MetricsProps], [OperatorProps],
      [AdmissionProps]: the properties of the pipeline, the warm-up coordinator, the
      ClickHouse writer and reader, the sink manager, the two reconcilers, the
      loops, the metrics, the entry point and admission.
    - [BootLoop]: [Start] and [reconcileEpochsUntilDone] of [warm.go], the
      coordinator's own goroutine, and what it writes.
    - [EndToEnd]: rule passes, watch passes, work items, commits and warm-up writes
      as one system, joined through the bound data plane.

    ** What the theorems show

    - Replay ([Replay]): the rows a sink accepted for one identity, replayed the
      documented way (full states and patches), reproduce the object's last
      observed state as a JSON value, with numbers as the diff library reads them,
      and a reader needs a bounded number of them.
    - Rows and items ([ProcessProps]): every row ever produced is well formed, a
      diff row carrying the patch to the document whose hash it carries;
      items of one identity leave every other identity and sink alone; settled
      items are idempotent; one Deleted row per disappearance; refused writes,
      stopped scopes, evicted scopes and removed sinks behave as documented.
    - Confidentiality ([Redact], [Normalize], [WatchManager]): what a policy path
      reaches is replaced, cannot influence the row or its hash, and a path any
      rule asks for is in force for every object that rule's target covers.
    - Cache protocol ([HashCache]): version-gated commits and exclusive delete
      claims under interleaving with every other operation.
    - Control plane ([Registry]): the snapshot is exactly the merge of what the
      rules ask for; failed updates change nothing.
    - Watching ([WatchManager]): the delete trigger is answered only when every
      covering informer runs and holds nothing; starts and stops are reported
      exactly; fan-out reaches every interested sink.
    - Scope log ([ScopeRecorder]): composed with the watch manager, a scope is open
      in the log exactly when an installed interest in it has its informer running;
      rows reach the sink in order.
    - Warm-up ([WarmProps]): no deletion is fabricated, live state is never
      overwritten by history, the reading of history does not depend on its order,
      orphaned scopes are closed exactly, one warm runs per scope.
    - Delivery ([CHWriterProps], [ScopeWriter]): every row the writer accepts is
      settled exactly once, as committed only if it was stored; shutdown completes;
      scope events are conserved up to the documented drops.
    - History ([CHHistory]): by the meaning of the query texts, what the warm-up
      reads back is what was written, also while ClickHouse merges duplicate rows in
      the background.
    - Sinks ([SinkManagerProps], [SinkReconcilerProps], [CHSchema]): routing follows
      what was declared; no instance is lost; the pipeline forgets a sink only
      after its writer stopped; reported health is that of the credential and the
      last probe recorded, unless a result of a deleted sink is recorded late; instances run with credentials that were read; changed settings
      replace an instance and unchanged ones do not; a schema that passes takes
      every row.
    - Loops ([WatchLoopProps], [WorkersProps], [RecorderLoop], [BootLoop]): every
      change of the rules is taken up by a later pass, whatever the timers do; no
      informer goroutine is left running without an owner; no work item is lost,
      none is held by two workers, and the pool drains on shutdown; epoch edges
      reach the scope log in order and none waits unnoticed; the boot pass closes
      orphaned scopes only.
    - Metrics ([MetricsProps]): the write-path series of a sink are an account of
      its current life.
    - Entry point ([OperatorProps]): flag over environment over default, except for
      the writer's fallbacks, which no flag reaches; the wiring
      makes its calls in order and stops at the first refusal; a Secret is read only
      in the operator's namespace; nothing is written before the plane is bound.
    - Admission ([AdmissionProps]): the API server's redaction patterns and the
      pipeline's parser accept the same texts; through every admitted version of a
      rule its targets name one sink and kinds whose cache keys are unambiguous; an
      admitted sink runs its writer within the documented bounds.
    - Copies ([DeepCopy]): a copied resource stands for what the original stands for
      and shares no memory with it.
    - The system ([EndToEnd]): every row goes back to a target a rule asked for,
      no row is of a core Secret, and a namespaced rule stays in its namespace.
    - Rules ([RuleProps], [RuleRedaction], [Resolver], [Conditions]): rules stay in
      their namespace and off Secrets; a rule that reports Ready streams; a pass
      touches no other rule; a sink's redaction floor holds from the custom
      resource to the rows; discovery is asked at a bounded rate and a kind that
      appears is picked up; the gauge counts the rules.
    - Some theorems and samples state behaviour that differs from what the code's
      comments promise: [unread_sink_reports_streaming],
      [overlapping_failure_breaks_replay], [failed_reincarnation_becomes_snapshot],
      [stale_commit_after_removal], [unlabelled_exit_missed],
      [scope_evicted_while_watched], [closeout_erases_last_row],
      [scope_order_inverted], [recreated_sink_inherits_baselines],
      [deletion_parks_live_sink], [late_verdict_outlives_sink],
      [settled_with_change_pending], [settled_early], [late_delete_republishes],
      [mark_outlives_sink], [environment_reads_decimal], [fallback_shadowed],
      [undecodable_sink_admitted], [writer_flags_ignored].

    ** Conventions

    Go maps are [gmap]; where Go ranges over a map in unspecified order, either
    the result does not depend on it or the lemmas take an arbitrary enumeration.
    Strings are byte strings. Errors are their text in [result]. Counters are [Z],
    wrapped where they are machine integers. Time is [Z] nanoseconds. A library the
    code calls is a class with its documented laws ([ZstdCodec], [JsonDiff],
    [PromClient], [SelectorAPI], [LabelSelectorAPI], [ConditionAPI], [SchemaAPI], [WorkQueue], [MetaCopy]); the
    answers of the API server, the driver, the mapper and the manager are arguments. Fuel: the
    redaction-path parser and the quoted-string decoder take the length of their
    input, and every turn consumes a byte ([parse_loop_fuel]); the JSON reader takes two
    units per byte ([Unmarshal_Marshal]), the SQL parser the number of tokens.

    ** What is not modelled

    Goroutines, locks and channels as such: each operation that holds a lock is one
    atomic step, an operation that waits is cut where it waits, and the theorems
    quantify over sequences of steps. Logging, listing and watching inside an
    informer, the work queue behind its class, leader election, the servers of the
    controller manager and zap's own flags are calls into client-go and
    controller-runtime and outside. So are the harness and load generator under
    [test/]. That the API server applies the markers of a custom resource, and how, is
    its documented behaviour; printer columns and the marker of a list's merge key
    concern its clients and are left out. *)

From Stdlib Require Import ZArith Lia.
From Stdlib Require Ascii.
From stdpp Require Import base gmap strings list sorting.
Export (notations) Stdlib.Strings.Ascii.

Declare Scope kube_scope.
Delimit Scope kube_scope with kube.

(** Let [simpl] push appends through string constructors. *)
#[global] Arguments String.append !_ _ / : simpl nomatch.

(** * Machine integers *)

(** [uint64] arithmetic: [hashCache] versions are Go [uint64]s, so an
    increment wraps at [2^64]. *)
Definition u64_max : Z := 2 ^ 64.
Definition wrap64 (z : Z) : Z := z mod u64_max.
Definition u64_succ (z : Z) : Z := wrap64 (z + 1).

(** [if v <= 0 { v = def }], the way the constructors default their settings. *)
Definition or_default (def v : Z) : Z := if Z.leb v 0 then def else v.

(** [time.Second], in nanoseconds. *)
Definition second : Z := 1000000000.

(** * The parts of Go's [strings] and [slices] packages the program uses *)

(** [strings.HasPrefix(s, p)] (argument order as in [String.prefix]). *)
Definition has_prefix (p s : string) : bool := String.prefix p s.

(** Does the byte [c] occur in [s]? *)
Fixpoint has_char (c : Ascii.ascii) (s : string) : bool :=
  match s with
  | EmptyString => false
  | String a s' => Ascii.eqb a c || has_char c s'
  end.

(** [strings.Index(s, string(c))] as a split: what precedes the first [c] and
    what follows it. *)
Fixpoint cut_char (c : Ascii.ascii) (s : string) : option (string * string) :=
  match s with
  | EmptyString => None
  | String a s' =>
      if Ascii.eqb a c then Some (EmptyString, s')
      else match cut_char c s' with
           | Some (l, r) => Some (String a l, r)
           | None => None
           end
  end.

(** [strings.Split(s, string(c))]: always at least one part. *)
Fixpoint split_char (c : Ascii.ascii) (s : string) : list string :=
  match s with
  | EmptyString => [EmptyString]
  | String a s' =>
      if Ascii.eqb a c then EmptyString :: split_char c s'
      else match split_char c s' with
           | [] => [String a EmptyString]
           | p :: ps => String a p :: ps
           end
  end.

(** [strings.Join(parts, sep)]. *)
Fixpoint join (sep : string) (parts : list string) : string :=
  match parts with
  | [] => EmptyString
  | [p] => p
  | p :: ps => p +:+ sep +:+ join sep ps
  end.

(** [slices.Sort] on strings: Go compares strings bytewise, which is
    [String.le]. *)
Definition sort_strings (l : list string) : list string := merge_sort String.le l.

(** The keys of a Go map in the order [slices.Sorted(maps.Keys(m))] yields. *)
Definition sorted_keys {V} (m : gmap string V) : list string :=
  sort_strings (map fst (map_to_list m)).

(** First-occurrence deduplication, as the [seen] loops of the program do it. *)
Fixpoint dedup_by {A B} `{EqDecision B} (f : A -> B) (seen : list B) (l : list A) : list A :=
  match l with
  | [] => []
  | x :: l' =>
      if decide (f x ∈ seen) then dedup_by f seen l'
      else x :: dedup_by f (f x :: seen) l'
  end.

(** * Errors *)

(** A Go [error] value is represented by its text. *)
Definition error : Type := string.

(** A call that returns [(value, error)] and whose value is only meaningful
    when the error is nil. *)
Inductive result (A : Type) : Type :=
| Ok (a : A)
| Err (e : error).
Arguments Ok {A} a.
Arguments Err {A} e.

Notation "x <-r c ;; k" := (match c with Ok x => k | Err e => Err e end)
  (at level 60, c at next level, right associativity) : kube_scope.

(** * Automation *)

Create HintDb kube.

(** Case analysis on every [match] and [if] of the goal and the hypotheses,
    then the usual clean-up. *)
Ltac split_cases :=
  repeat (case_match || case_decide || case_bool_decide);
  simplify_eq/=; try done.

(** Turn boolean tests into propositions. *)
Ltac bools :=
  repeat match goal with
  | H : Ascii.eqb _ _ = true |- _ => apply Ascii.eqb_eq in H
  | H : Ascii.eqb _ _ = false |- _ => apply Ascii.eqb_neq in H
  | H : String.eqb _ _ = true |- _ => apply String.eqb_eq in H
  | H : String.eqb _ _ = false |- _ => apply String.eqb_neq in H
  | H : (_ || _)%bool = true |- _ => apply orb_true_iff in H
  | H : (_ || _)%bool = false |- _ => apply orb_false_iff in H; destruct H
  | H : (_ && _)%bool = true |- _ => apply andb_true_iff in H; destruct H
  | H : negb _ = true |- _ => apply negb_true_iff in H
  | H : negb _ = false |- _ => apply negb_false_iff in H
  | H : bool_decide _ = true |- _ => apply bool_decide_eq_true_1 in H
  | H : bool_decide _ = false |- _ => apply bool_decide_eq_false_1 in H
  end.

(** * Lemmas *)

Lemma u64_succ_bound z : (0 <= u64_succ z < u64_max)%Z.
Proof. unfold u64_succ, wrap64. apply Z.mod_pos_bound. reflexivity. Qed.

Lemma u64_succ_small z : (0 <= z < u64_max - 1)%Z -> u64_succ z = (z + 1)%Z.
Proof. intros. unfold u64_succ, wrap64. apply Z.mod_small. lia. Qed.

Lemma u64_succ_ne z : (0 <= z < u64_max)%Z -> u64_succ z <> z.
Proof.
  intros Hz. destruct (decide (z = u64_max - 1)%Z) as [->|].
  - done.
  - rewrite u64_succ_small by lia. lia.
Qed.

Lemma string_app_nil_r s : s +:+ "" = s.
Proof. induction s; simpl; congruence. Qed.

Lemma string_app_assoc a b c : (a +:+ b) +:+ c = a +:+ (b +:+ c).
Proof. induction a; simpl; congruence. Qed.

(** Right-nest every append and push literals through. *)
Ltac app_norm :=
  repeat first [ progress simpl | rewrite string_app_assoc
               | match goal with H : context [ (_ +:+ _) +:+ _ ] |- _ =>
                   rewrite string_app_assoc in H; simpl in H end ].

Lemma has_char_app c a b : has_char c (a +:+ b) = has_char c a || has_char c b.
Proof. induction a as [|x a IH]; simpl; [done|]. by rewrite IH, orb_assoc. Qed.

(** Text up to the first occurrence of a separator is determined: the fact
    every delimiter-built key of the program rests on. *)
Lemma first_sep_inj c a b a' b' :
  has_char c a = false -> has_char c a' = false ->
  a +:+ String c b = a' +:+ String c b' -> a = a' /\ b = b'.
Proof.
  revert a'. induction a as [|x a IH]; intros [|x' a'] Ha Ha' H; simplify_eq/=.
  - done.
  - bools. done.
  - bools. done.
  - bools. destruct (IH a') as [-> ->]; done.
Qed.

Lemma cut_char_spec c a b :
  has_char c a = false -> cut_char c (a +:+ String c b) = Some (a, b).
Proof.
  induction a as [|x a IH]; simpl; intros Ha.
  - by rewrite Ascii.eqb_refl.
  - bools. rewrite (proj2 (Ascii.eqb_neq x c)) by done. by rewrite IH.
Qed.

Lemma cut_char_Some c s l r :
  cut_char c s = Some (l, r) -> s = l +:+ String c r /\ has_char c l = false.
Proof.
  revert l r. induction s as [|x s IH]; simpl; [done|]. intros l r H.
  destruct (Ascii.eqb x c) eqn:E; bools; simplify_eq/=; [done|].
  destruct (cut_char c s) as [[l' r']|] eqn:Hc; simplify_eq/=.
  destruct (IH l' r) as [-> ?]; [done|]. split; [done|].
  by rewrite (proj2 (Ascii.eqb_neq x c)).
Qed.

Lemma cut_char_None c s : cut_char c s = None <-> has_char c s = false.
Proof.
  induction s as [|x s IH]; simpl; [done|].
  destruct (Ascii.eqb x c); simpl; [done|]. destruct (cut_char c s) as [[]|]; by rewrite <- IH.
Qed.

Lemma prefix_iff p s : String.prefix p s = true <-> exists r, s = p +:+ r.
Proof.
  revert s. induction p as [|a p IH]; intros s; simpl.
  - split; [by exists s|by destruct s].
  - destruct s as [|b s]; simpl; [naive_solver|].
    destruct (Ascii.ascii_dec a b) as [->|Hne].
    + rewrite IH. split; intros [r Hr]; exists r; simplify_eq/=; congruence.
    + split; [done|]. intros [r Hr]. simplify_eq.
Qed.

Lemma prefix_app p s : String.prefix p (p +:+ s) = true.
Proof. apply prefix_iff. by exists s. Qed.

Lemma split_char_cons c s : exists p ps, split_char c s = p :: ps.
Proof.
  induction s as [|x s [p [ps IH]]]; simpl; [eauto|].
  rewrite IH. destruct (Ascii.eqb x c); eauto.
Qed.

Lemma split_char_app c a b :
  has_char c a = false -> split_char c (a +:+ String c b) = a :: split_char c b.
Proof.
  induction a as [|x a IH]; simpl; intros Ha.
  - by rewrite Ascii.eqb_refl.
  - bools. rewrite (proj2 (Ascii.eqb_neq x c)) by done. by rewrite IH.
Qed.

Lemma split_char_single c a : has_char c a = false -> split_char c a = [a].
Proof.
  induction a as [|x a IH]; simpl; intros Ha; [done|].
  bools. rewrite (proj2 (Ascii.eqb_neq x c)) by done. by rewrite IH.
Qed.

(** [Join] then [Split] on the separator gives the parts back. *)
Lemma split_join c parts :
  parts <> [] -> Forall (fun p => has_char c p = false) parts ->
  split_char c (join (String c "") parts) = parts.
Proof.
  induction parts as [|p [|q ps] IH]; [done| |]; intros _ HF.
  - apply split_char_single. by inversion HF.
  - inversion HF as [|? ? Hp HF']; subst.
    change (join (String c "") (p :: q :: ps)) with
      (p +:+ String c (join (String c "") (q :: ps))).
    rewrite split_char_app by done. by rewrite IH.
Qed.

Lemma sort_strings_perm l : sort_strings l ≡ₚ l.
Proof. apply merge_sort_Permutation. Qed.

Lemma sort_strings_sorted l : Sorted String.le (sort_strings l).
Proof. apply Sorted_merge_sort. apply _. Qed.

(** Sorting is canonical: permuted lists sort to the same list. *)
Lemma sort_strings_ext l1 l2 : l1 ≡ₚ l2 -> sort_strings l1 = sort_strings l2.
Proof.
  intros Hp. apply (Sorted_unique String.le); try apply sort_strings_sorted.
  by rewrite !sort_strings_perm.
Qed.

Lemma elem_of_sort_strings x l : x ∈ sort_strings l <-> x ∈ l.
Proof. by rewrite sort_strings_perm. Qed.

Lemma elem_of_sorted_keys {V} (m : gmap string V) k :
  k ∈ sorted_keys m <-> is_Some (m !! k).
Proof.
  unfold sorted_keys. rewrite elem_of_sort_strings, list_elem_of_fmap. split.
  - intros [[k' v] [-> H]]. apply elem_of_map_to_list in H. by exists v.
  - intros [v Hv]. exists (k, v). split; [done|]. by apply elem_of_map_to_list.
Qed.

Lemma NoDup_sorted_keys {V} (m : gmap string V) : NoDup (sorted_keys m).
Proof.
  unfold sorted_keys. rewrite sort_strings_perm. apply NoDup_fst_map_to_list.
Qed.

Lemma elem_of_insert_inv {A} (l : list A) i x y : x ∈ <[i := y]> l -> x = y \/ x ∈ l.
Proof.
  intros Hx. apply list_elem_of_lookup_1 in Hx as [j Hj].
  apply list_lookup_insert_Some in Hj as [(_ & -> & _)|(_ & Hj)]; [by left|right].
  by apply list_elem_of_lookup_2 in Hj.
Qed.

Lemma elem_of_dedup_by {A B} `{EqDecision B} (f : A -> B) seen l x :
  x ∈ dedup_by f seen l -> x ∈ l /\ f x ∉ seen.
Proof.
  revert seen. induction l as [|y l IH]; intros seen; simpl; [by rewrite elem_of_nil|].
  case_decide.
  - intros Hx. apply IH in Hx. set_solver.
  - rewrite !elem_of_cons. intros [->|Hx]; [set_solver|]. apply IH in Hx. set_solver.
Qed.

(** Deduplication keeps a representative of every class not seen before. *)
Lemma dedup_by_complete {A B} `{EqDecision B} (f : A -> B) seen l x :
  x ∈ l -> f x ∉ seen -> exists y, y ∈ dedup_by f seen l /\ f y = f x.
Proof.
  revert seen. induction l as [|y l IH]; intros seen Hx Hs; simpl; [by apply not_elem_of_nil in Hx|].
  apply elem_of_cons in Hx. case_decide as Hy.
  - destruct Hx as [->|Hx]; [done|]. by apply IH.
  - destruct (decide (f y = f x)) as [E|NE].
    + exists y. split; [apply elem_of_cons; by left|done].
    + destruct Hx as [->|Hx]; [done|].
      destruct (IH (f y :: seen)) as [z [Hz1 Hz2]]; [done|set_solver|].
      exists z. split; [apply elem_of_cons; by right|done].
Qed.

Lemma NoDup_dedup_by {A B} `{EqDecision B} (f : A -> B) seen l :
  NoDup (f <$> dedup_by f seen l).
Proof.
  revert seen. induction l as [|y l IH]; intros seen; simpl; [constructor|].
  case_decide; [done|]. simpl. constructor; [|done].
  rewrite list_elem_of_fmap. intros [z [Hz1 Hz2]].
  apply elem_of_dedup_by in Hz2. set_solver.
Qed.

(** A boolean test on keys splits a map's size. *)
Lemma size_filter_split {V} (f : string -> bool) (m : gmap string V) :
  size m = (size (filter (fun kv : string * V => f kv.1 = false) m) +
            size (filter (fun kv : string * V => f kv.1 = true) m))%nat.
Proof.
  induction m as [|k x m Hk IH] using map_ind; [done|].
  assert (Hn : forall b, filter (fun kv : string * V => f kv.1 = b) m !! k = None).
  { intros b. by rewrite map_lookup_filter, Hk. }
  rewrite map_size_insert_None, IH by done. destruct (f k) eqn:E.
  - rewrite map_filter_insert_False by (simpl; congruence).
    rewrite delete_id by done.
    rewrite (map_filter_insert_True (fun kv : string * V => f kv.1 = true)) by done.
    rewrite map_size_insert_None by done. lia.
  - rewrite (map_filter_insert_False (fun kv : string * V => f kv.1 = true)) by (simpl; congruence).
    rewrite delete_id by done.
    rewrite map_filter_insert_True by done.
    rewrite map_size_insert_None by done. lia.
Qed.

#[export] Hint Resolve sort_strings_sorted prefix_app : kube.
