(* ===== verification/Identity.v ===== *)
(** * Identity: work-item keys, watch scopes and the ephemeral kinds

    Models [internal/pipeline/identity.go] and
    [internal/pipeline/special_kinds.go]: the queue key, the one canonical
    cache-key builder, the scope a key belongs to, the prefix that selects a
    whole scope in a cache, and the Kubernetes-Event predicate.

    The separators of the cache key are only unambiguous because of what the
    API server admits in the parts; [wf_key] and [wf_scope] state exactly what
    is needed (no ['|'] in a group or a kind, no ['/'] in a namespace). *)

From stdpp Require Import base gmap strings list.
From S2P Require Import Prelude.

(** ** Data *)

Record Key := mkKey {
  k_Sink : string;
  k_Group : string;
  k_Kind : string;
  k_Namespace : string;
  k_Name : string;
}.

Record ScopeKey := mkScopeKey {
  s_Group : string;
  s_Kind : string;
  s_Namespace : string;
}.

#[export] Instance Key_eq_dec : EqDecision Key.
Proof. solve_decision. Defined.
#[export] Instance ScopeKey_eq_dec : EqDecision ScopeKey.
Proof. solve_decision. Defined.

#[export] Program Instance Key_countable : Countable Key :=
  inj_countable' (fun k => (k_Sink k, k_Group k, k_Kind k, k_Namespace k, k_Name k))
    (fun t => let '(a, b, c, d, e) := t in mkKey a b c d e) _.
Next Obligation. by intros []. Qed.

#[export] Program Instance ScopeKey_countable : Countable ScopeKey :=
  inj_countable' (fun s => (s_Group s, s_Kind s, s_Namespace s))
    (fun t => let '(a, b, c) := t in mkScopeKey a b c) _.
Next Obligation. by intros []. Qed.

(** ** Operations *)

(** [Key.cacheKey]: ["group|Kind|namespace/name"]. *)
Definition cacheKey (k : Key) : string :=
  k_Group k +:+ "|" +:+ k_Kind k +:+ "|" +:+ k_Namespace k +:+ "/" +:+ k_Name k.

(** [Key.Scope]. *)
Definition Scope (k : Key) : ScopeKey := mkScopeKey (k_Group k) (k_Kind k) (k_Namespace k).

(** [Key.String]. *)
Definition Key_String (k : Key) : string := k_Sink k +:+ "/" +:+ cacheKey k.

(** [ScopeKey.scopeKeyPrefix]. *)
Definition scopeKeyPrefix (s : ScopeKey) : string :=
  let prefix := s_Group s +:+ "|" +:+ s_Kind s +:+ "|" in
  if String.eqb (s_Namespace s) "" then prefix
  else prefix +:+ s_Namespace s +:+ "/".

Definition eventKind : string := "Event".
Definition coreGroup : string := "".
Definition eventsGroup : string := "events.k8s.io".

Definition ephemeralKind (group kind : string) : bool :=
  if negb (String.eqb kind eventKind) then false
  else String.eqb group coreGroup || String.eqb group eventsGroup.

(** [Key.ephemeral] and [ScopeKey.ephemeral]. *)
Definition key_ephemeral (k : Key) : bool := ephemeralKind (k_Group k) (k_Kind k).
Definition scope_ephemeral (s : ScopeKey) : bool := ephemeralKind (s_Group s) (s_Kind s).

(** ** Well-formedness and scope membership *)

Definition wf_key (k : Key) : bool :=
  negb (has_char "|"%char (k_Group k)) && negb (has_char "|"%char (k_Kind k)) &&
  negb (has_char "/"%char (k_Namespace k)).

Definition wf_scope (s : ScopeKey) : bool :=
  negb (has_char "|"%char (s_Group s)) && negb (has_char "|"%char (s_Kind s)) &&
  negb (has_char "/"%char (s_Namespace s)).

(** A scope covers a key when group and kind agree and the scope either spans
    every namespace or names the key's. *)
Definition scope_covers (s : ScopeKey) (k : Key) : bool :=
  String.eqb (s_Group s) (k_Group k) && String.eqb (s_Kind s) (k_Kind k) &&
  (String.eqb (s_Namespace s) "" || String.eqb (s_Namespace s) (k_Namespace k)).

(** ** Lemmas *)

Lemma cacheKey_parts k :
  cacheKey k =
    k_Group k +:+ String "|"%char (k_Kind k +:+ String "|"%char (k_Namespace k +:+ String "/"%char (k_Name k))).
Proof. reflexivity. Qed.

Lemma wf_key_parts k :
  wf_key k = true ->
  has_char "|"%char (k_Group k) = false /\ has_char "|"%char (k_Kind k) = false /\
  has_char "/"%char (k_Namespace k) = false.
Proof. unfold wf_key. intros. by bools. Qed.

Lemma wf_scope_parts s :
  wf_scope s = true ->
  has_char "|"%char (s_Group s) = false /\ has_char "|"%char (s_Kind s) = false /\
  has_char "/"%char (s_Namespace s) = false.
Proof. unfold wf_scope. intros. by bools. Qed.

Lemma scope_covers_own k : scope_covers (Scope k) k = true.
Proof. unfold scope_covers. simpl. by rewrite !String.eqb_refl, orb_true_r. Qed.

(** ** Properties *)

(** on well-formed identities the cache key is injective: two work items
    share a [hashCache] entry exactly when group, kind, namespace and name all
    agree (the sink and the API version are not part of the key). *)
Lemma cacheKey_injective (k1 k2 : Key) :
  wf_key k1 = true -> wf_key k2 = true ->
  cacheKey k1 = cacheKey k2 <->
  (k_Group k1 = k_Group k2 /\ k_Kind k1 = k_Kind k2 /\
   k_Namespace k1 = k_Namespace k2 /\ k_Name k1 = k_Name k2).
Proof.
  intros (G1 & K1 & N1)%wf_key_parts (G2 & K2 & N2)%wf_key_parts.
  split; [|by destruct k1, k2; simpl; intros (-> & -> & -> & ->)].
  rewrite !cacheKey_parts. intros H.
  apply first_sep_inj in H as [? H]; [|done..].
  apply first_sep_inj in H as [? H]; [|done..].
  by apply first_sep_inj in H as [? H].
Qed.

Definition key_deploy : Key := mkKey "s1" "apps" "Deployment" "foo" "web".
Definition key_deploy_s2 : Key := mkKey "s2" "apps" "Deployment" "foo" "web".

Lemma cacheKey_injective_witness :
  cacheKey key_deploy = cacheKey key_deploy_s2.
Proof. apply (cacheKey_injective key_deploy key_deploy_s2); done. Defined.

(** Prefix matching on cache keys selects exactly a watch scope: the
    prefix [EvictScope] deletes by matches a key's cache entry if and only if
    the scope covers the key, so namespace ["foo"] never matches ["foobar"] and
    an all-namespaces scope matches every namespace of its kind. *)
Lemma scopeKeyPrefix_exact (s : ScopeKey) (k : Key) :
  wf_scope s = true -> wf_key k = true ->
  has_prefix (scopeKeyPrefix s) (cacheKey k) = scope_covers s k.
Proof.
  intros (G1 & K1 & N1)%wf_scope_parts (G2 & K2 & N2)%wf_key_parts.
  unfold has_prefix. apply eq_true_iff_eq. rewrite prefix_iff, cacheKey_parts.
  unfold scope_covers, scopeKeyPrefix. rewrite !andb_true_iff, orb_true_iff, !String.eqb_eq.
  destruct (String.eqb (s_Namespace s) "") eqn:E; bools; split.
  - intros [r H]. app_norm.
    apply first_sep_inj in H as [-> H]; [|done..].
    apply first_sep_inj in H as [-> H]; [|done..]. auto.
  - intros [[-> ->] _]. eexists. app_norm. reflexivity.
  - intros [r H]. app_norm.
    apply first_sep_inj in H as [-> H]; [|done..].
    apply first_sep_inj in H as [-> H]; [|done..].
    apply first_sep_inj in H as [-> H]; [|done..]. auto.
  - intros [[-> ->] [?| ->]]; [done|]. eexists. app_norm. reflexivity.
Qed.
