(* ===== verification/HashCache.v ===== *)
(** * HashCache: the version-gated dedup cache

    Models [internal/pipeline/hashcache.go]: the entry type, every operation of
    [hashCache] as a function from the map before to the map after (each one
    runs under the cache's mutex, so it is one atomic step), the delete-claim
    outcomes, and the compression of diff baselines.

    A [hashCache] is the [gmap string CacheEntry] behind its mutex; a nil Go map
    reads as the empty map. [Version] is a [uint64] and keeps its wrap-around
    ([u64_succ]). The zstd codec is a third-party package: the two process-wide
    singletons are the fields of the class [ZstdCodec] ([None] is a nil codec),
    and [ZstdLaws] states what RFC 8878 and the package document. *)

From Stdlib Require Import ZArith Lia.
From stdpp Require Import base gmap strings list.
From S2P Require Import Prelude.

(** ** The zstd codec *)

Class ZstdCodec := {
  zstdEncoder : option (string -> string);
  zstdDecoder : option (string -> result string);
}.

(** [zstdMagic]: the four bytes that open every frame. *)
Definition zstdMagic : string :=
  String (Ascii.ascii_of_nat 40) (String (Ascii.ascii_of_nat 181)
    (String (Ascii.ascii_of_nat 47) (String (Ascii.ascii_of_nat 253) ""))).

Class ZstdLaws (C : ZstdCodec) : Prop := {
  zstd_magic : forall enc raw, zstdEncoder = Some enc -> has_prefix zstdMagic (enc raw) = true;
  zstd_roundtrip : forall enc dec raw,
    zstdEncoder = Some enc -> zstdDecoder = Some dec -> dec (enc raw) = Ok raw;
}.

(** ** Data *)

(** [entryEncoding] is a [uint8]; the two named values are 0 and 1. *)
Definition entryEncoding : Type := Z.
Definition encodingRaw : entryEncoding := 0%Z.
Definition encodingZstd : entryEncoding := 1%Z.

(** [CacheEntry]. [JSON] is [None] for Go's nil slice. *)
Record CacheEntry := mkEntry {
  Hash : string;
  JSON : option string;
  Encoding : entryEncoding;
  UID : string;
  APIVersion : string;
  ModifiedSinceCheckpoint : Z;
  Version : Z;
  PendingDelete : bool;
}.

Definition zeroEntry : CacheEntry := mkEntry "" None encodingRaw "" "" 0 0 false.

Definition set_Version (v : Z) (e : CacheEntry) : CacheEntry :=
  mkEntry (Hash e) (JSON e) (Encoding e) (UID e) (APIVersion e)
    (ModifiedSinceCheckpoint e) v (PendingDelete e).

Definition set_PendingDelete (b : bool) (e : CacheEntry) : CacheEntry :=
  mkEntry (Hash e) (JSON e) (Encoding e) (UID e) (APIVersion e)
    (ModifiedSinceCheckpoint e) (Version e) b.

Abbreviation hashCache := (gmap string CacheEntry).

Inductive deleteClaimOutcome :=
| deleteClaimed
| deleteClaimAbsent
| deleteClaimInFlight
| deleteClaimUIDMismatch.

#[export] Instance outcome_eq_dec : EqDecision deleteClaimOutcome.
Proof. solve_decision. Defined.

Definition outcome_String (o : deleteClaimOutcome) : string :=
  match o with
  | deleteClaimed => "claimed"
  | deleteClaimAbsent => "absent"
  | deleteClaimInFlight => "in-flight"
  | deleteClaimUIDMismatch => "uid-mismatch"
  end.

(** ** Operations *)

Definition Len (c : hashCache) : nat := size c.

Definition Load (key : string) (c : hashCache) : option CacheEntry := c !! key.

(** [c.data[key].Version], the zero value when the key is absent. *)
Definition versionOf (key : string) (c : hashCache) : Z :=
  match c !! key with Some e => Version e | None => 0%Z end.

Definition Reserve (key : string) (entry : CacheEntry) (c : hashCache) : hashCache * Z :=
  let v := u64_succ (versionOf key c) in
  (<[key := set_Version v entry]> c, v).

Definition CommitIfCurrent (key : string) (expectedVersion : Z) (entry : CacheEntry)
    (c : hashCache) : hashCache * bool :=
  match c !! key with
  | Some cur =>
      if Z.eqb (Version cur) expectedVersion
      then (<[key := set_Version expectedVersion entry]> c, true)
      else (c, false)
  | None =>
      if Z.eqb expectedVersion 0
      then (<[key := set_Version expectedVersion entry]> c, true)
      else (c, false)
  end.

Definition DeleteIfCurrent (key : string) (expectedVersion : Z) (c : hashCache)
    : hashCache * bool :=
  match c !! key with
  | Some cur =>
      if Z.eqb (Version cur) expectedVersion then (delete key c, true) else (c, false)
  | None => (c, false)
  end.

Definition ReserveDelete (key expectedUID : string) (c : hashCache)
    : hashCache * (CacheEntry * Z * deleteClaimOutcome) :=
  match c !! key with
  | None => (c, (zeroEntry, 0%Z, deleteClaimAbsent))
  | Some cur =>
      if PendingDelete cur then (c, (zeroEntry, 0%Z, deleteClaimInFlight))
      else if negb (String.eqb expectedUID "") && negb (String.eqb (UID cur) expectedUID)
      then (c, (zeroEntry, 0%Z, deleteClaimUIDMismatch))
      else
        let v := u64_succ (Version cur) in
        (<[key := set_PendingDelete true (set_Version v cur)]> c, (cur, v, deleteClaimed))
  end.

Definition UnclaimDelete (key : string) (expectedVersion : Z) (c : hashCache) : hashCache :=
  match c !! key with
  | Some cur =>
      if Z.eqb (Version cur) expectedVersion
      then <[key := set_PendingDelete false cur]> c else c
  | None => c
  end.

Definition StoreIfAbsent (key : string) (entry : CacheEntry) (c : hashCache) : hashCache :=
  match c !! key with
  | Some _ => c
  | None => <[key := set_Version 1 entry]> c
  end.

Definition DeletePrefix (prefix : string) (c : hashCache) : hashCache * nat :=
  let keep := filter (fun kv => has_prefix prefix kv.1 = false) c in
  (keep, size c - size keep).

(** ** Baseline compression *)

Section Baseline.
Context `{ZstdCodec}.

(** [compressBaseline]: the stored bytes, their encoding, and whether
    compression happened. *)
Definition compressBaseline (raw : string) : string * entryEncoding * bool :=
  match zstdEncoder with
  | None => (raw, encodingRaw, false)
  | Some enc =>
      if String.eqb raw "" then (raw, encodingRaw, false)
      else (enc raw, encodingZstd, true)
  end.

(** [CacheEntry.decodeBaseline]. *)
Definition decodeBaseline (e : CacheEntry) : result (option string) :=
  match JSON e with
  | None => Ok None
  | Some stored =>
      if Z.eqb (Encoding e) encodingRaw then Ok (Some stored)
      else if Z.eqb (Encoding e) encodingZstd then
        if negb (has_prefix zstdMagic stored)
        then Err "compressed baseline missing zstd magic bytes"
        else match zstdDecoder with
             | None => Err "zstd decoder unavailable"
             | Some dec =>
                 match dec stored with
                 | Ok raw => Ok (Some raw)
                 | Err err => Err err
                 end
             end
      else Err "unknown cache entry encoding"
  end.
End Baseline.

(** ** Traces of cache operations

    Process calls, sink-worker commit callbacks, the GC pass, warm-up and scope
    eviction all mutate one cache concurrently; each operation holds the mutex,
    so any concurrent execution is a sequence of these steps. *)

Inductive cacheOp :=
| OpReserve (key : string) (entry : CacheEntry)
| OpCommit (key : string) (v : Z) (entry : CacheEntry)
| OpDelete (key : string) (v : Z)
| OpReserveDelete (key uid : string)
| OpUnclaim (key : string) (v : Z)
| OpStore (key : string) (entry : CacheEntry)
| OpEvict (prefix : string).

Definition run_op (op : cacheOp) (c : hashCache) : hashCache :=
  match op with
  | OpReserve key entry => (Reserve key entry c).1
  | OpCommit key v entry => (CommitIfCurrent key v entry c).1
  | OpDelete key v => (DeleteIfCurrent key v c).1
  | OpReserveDelete key uid => (ReserveDelete key uid c).1
  | OpUnclaim key v => UnclaimDelete key v c
  | OpStore key entry => StoreIfAbsent key entry c
  | OpEvict prefix => (DeletePrefix prefix c).1
  end.

Fixpoint run_ops (ops : list cacheOp) (c : hashCache) : hashCache :=
  match ops with
  | [] => c
  | op :: ops' => run_ops ops' (run_op op c)
  end.

(** Does [op] issue a new version for [key] in [c]? *)
Definition issues (key : string) (op : cacheOp) (c : hashCache) : bool :=
  match op with
  | OpReserve k _ => String.eqb k key
  | OpReserveDelete k uid =>
      String.eqb k key && bool_decide ((ReserveDelete k uid c).2.2 = deleteClaimed)
  | _ => false
  end.

Fixpoint issued (key : string) (ops : list cacheOp) (c : hashCache) : Z :=
  match ops with
  | [] => 0
  | op :: ops' => Z.b2z (issues key op c) + issued key ops' (run_op op c)
  end.

(** Is [key] present after every step of the trace? *)
Fixpoint never_removed (key : string) (ops : list cacheOp) (c : hashCache) : bool :=
  match ops with
  | [] => true
  | op :: ops' =>
      bool_decide (is_Some (run_op op c !! key)) && never_removed key ops' (run_op op c)
  end.

(** ** Lemmas *)

(** Every operation on one key leaves the others alone. *)
Lemma Reserve_ne k k' e c : k <> k' -> (Reserve k e c).1 !! k' = c !! k'.
Proof. intros. unfold Reserve. simpl. by rewrite lookup_insert_ne. Qed.

Lemma Commit_ne k k' v e c : k <> k' -> (CommitIfCurrent k v e c).1 !! k' = c !! k'.
Proof. intros. unfold CommitIfCurrent. by repeat case_match; simpl; rewrite ?lookup_insert_ne. Qed.

Lemma Delete_ne k k' v c : k <> k' -> (DeleteIfCurrent k v c).1 !! k' = c !! k'.
Proof. intros. unfold DeleteIfCurrent. by repeat case_match; simpl; rewrite ?lookup_delete_ne. Qed.

Lemma ReserveDelete_ne k k' u c : k <> k' -> (ReserveDelete k u c).1 !! k' = c !! k'.
Proof. intros. unfold ReserveDelete. by repeat case_match; simpl; rewrite ?lookup_insert_ne. Qed.

Lemma Unclaim_ne k k' v c : k <> k' -> UnclaimDelete k v c !! k' = c !! k'.
Proof. intros. unfold UnclaimDelete. by repeat case_match; simpl; rewrite ?lookup_insert_ne. Qed.

Lemma Store_ne k k' e c : k <> k' -> StoreIfAbsent k e c !! k' = c !! k'.
Proof. intros. unfold StoreIfAbsent. by case_match; rewrite ?lookup_insert_ne. Qed.

Lemma DeletePrefix_lookup p c k :
  (DeletePrefix p c).1 !! k = if has_prefix p k then None else c !! k.
Proof.
  unfold DeletePrefix. simpl. rewrite map_lookup_filter.
  destruct (c !! k) as [e|] eqn:E; simpl; [|by destruct (has_prefix p k)].
  destruct (has_prefix p k) eqn:H; by case_guard.
Qed.

Create Rewrite HintDb cache_frame.
#[export] Hint Rewrite Reserve_ne Commit_ne Delete_ne ReserveDelete_ne Unclaim_ne Store_ne
  using done : cache_frame.

(** Outcome of each settlement on the entry it names. *)
Lemma Commit_current k v e cur c :
  c !! k = Some cur ->
  CommitIfCurrent k v e c =
    if Z.eqb (Version cur) v then (<[k := set_Version v e]> c, true) else (c, false).
Proof. intros Hk. unfold CommitIfCurrent. by rewrite Hk. Qed.

Lemma Delete_current k v cur c :
  c !! k = Some cur ->
  DeleteIfCurrent k v c = if Z.eqb (Version cur) v then (delete k c, true) else (c, false).
Proof. intros Hk. unfold DeleteIfCurrent. by rewrite Hk. Qed.

Lemma Unclaim_current k v cur c :
  c !! k = Some cur ->
  UnclaimDelete k v c = if Z.eqb (Version cur) v then <[k := set_PendingDelete false cur]> c else c.
Proof. intros Hk. unfold UnclaimDelete. by rewrite Hk. Qed.

Lemma ReserveDelete_current k u cur c :
  c !! k = Some cur ->
  ReserveDelete k u c =
    if PendingDelete cur then (c, (zeroEntry, 0%Z, deleteClaimInFlight))
    else if negb (String.eqb u "") && negb (String.eqb (UID cur) u)
    then (c, (zeroEntry, 0%Z, deleteClaimUIDMismatch))
    else (<[k := set_PendingDelete true (set_Version (u64_succ (Version cur)) cur)]> c,
          (cur, u64_succ (Version cur), deleteClaimed)).
Proof. intros Hk. unfold ReserveDelete. by rewrite Hk. Qed.

Lemma Store_present k e cur c : c !! k = Some cur -> StoreIfAbsent k e c = c.
Proof. intros Hk. unfold StoreIfAbsent. by rewrite Hk. Qed.

(** One step: while the key stays present its version moves exactly when the
    step issues one. *)
Lemma run_op_version key op c cur cur' :
  c !! key = Some cur -> run_op op c !! key = Some cur' ->
  Version cur' = if issues key op c then u64_succ (Version cur) else Version cur.
Proof.
  intros Hc Hc'. destruct op as [k e|k v e|k v|k u|k v|k e|p];
    cbn [run_op issues] in *;
    try (destruct (decide (k = key)) as [->|Hne];
         [rewrite ?String.eqb_refl
         |rewrite ?(proj2 (String.eqb_neq k key) Hne); autorewrite with cache_frame in Hc'; simpl; congruence]).
  - unfold Reserve, versionOf in Hc'. simpl in Hc'.
    rewrite Hc, lookup_insert_eq in Hc'. by simplify_eq.
  - rewrite (Commit_current _ _ _ _ _ Hc) in Hc'. case_match eqn:E; simpl in Hc'.
    + rewrite lookup_insert_eq in Hc'. simplify_eq/=. by apply Z.eqb_eq in E.
    + congruence.
  - rewrite (Delete_current _ _ _ _ Hc) in Hc'. case_match; simpl in Hc'.
    + by rewrite lookup_delete_eq in Hc'.
    + congruence.
  - rewrite (ReserveDelete_current _ _ _ _ Hc) in Hc' |- *. simpl.
    repeat case_match; simplify_eq/=; try case_bool_decide; simplify_map_eq; done.
  - rewrite (Unclaim_current _ _ _ _ Hc) in Hc'. case_match; [rewrite lookup_insert_eq in Hc'|];
      simplify_eq/=; congruence.
  - rewrite (Store_present _ _ _ _ Hc) in Hc'. congruence.
  - rewrite DeletePrefix_lookup in Hc'. case_match; congruence.
Qed.

Lemma u64_succ_add v n : (0 <= v)%Z -> wrap64 (u64_succ v + n) = wrap64 (v + 1 + n).
Proof. intros. unfold u64_succ, wrap64. by rewrite Zplus_mod_idemp_l. Qed.

Lemma wrap64_small v : (0 <= v < u64_max)%Z -> wrap64 v = v.
Proof. apply Z.mod_small. Qed.

Lemma issued_nonneg key ops c : (0 <= issued key ops c)%Z.
Proof.
  revert c. induction ops as [|op ops IH]; intros c; simpl; [lia|].
  specialize (IH (run_op op c)). destruct (issues key op c); simpl; lia.
Qed.

(** Along a trace that never removes the key, the version counts the issues. *)
Lemma run_ops_version key ops c cur :
  c !! key = Some cur -> (0 <= Version cur < u64_max)%Z -> never_removed key ops c = true ->
  exists cur', run_ops ops c !! key = Some cur' /\
    Version cur' = wrap64 (Version cur + issued key ops c).
Proof.
  revert c cur. induction ops as [|op ops IH]; intros c cur Hc Hv Hn; simpl in *.
  - exists cur. split; [done|]. by rewrite Z.add_0_r, wrap64_small.
  - bools. match goal with H : is_Some _ |- _ => destruct H as [mid Hmid] end.
    pose proof (run_op_version _ _ _ _ _ Hc Hmid) as Hver.
    destruct (IH (run_op op c) mid) as [cur' [Hcur' Hv']]; [done| |done|].
    { rewrite Hver. case_match; [apply u64_succ_bound|done]. }
    exists cur'. split; [done|]. rewrite Hv', Hver.
    destruct (issues key op c); simpl.
    + rewrite u64_succ_add by lia. f_equal. lia.
    + by rewrite Z.add_0_l.
Qed.

(** A version is current again only after [2^64] issues. *)
Lemma wrap64_same v n :
  (0 <= v < u64_max)%Z -> (0 <= n < u64_max)%Z -> (wrap64 (v + n) =? v)%Z = (n =? 0)%Z.
Proof.
  intros Hv Hn. apply eq_true_iff_eq. rewrite !Z.eqb_eq. split; intros H.
  - unfold wrap64 in H. destruct (decide (v + n < u64_max)%Z).
    + rewrite Z.mod_small in H; lia.
    + rewrite <- (Z_mod_plus_full (v + n) (-1) u64_max), Z.mod_small in H; lia.
  - subst n. by rewrite Z.add_0_r, wrap64_small.
Qed.

(** The operations another actor may run while a delete claim on [key] at
    version [v] is open, without settling or superseding that claim. *)
Definition respects_claim (key : string) (v : Z) (op : cacheOp) : bool :=
  match op with
  | OpReserve k _ => negb (String.eqb k key)
  | OpCommit k v' _ | OpDelete k v' | OpUnclaim k v' =>
      negb (String.eqb k key) || negb (Z.eqb v' v)
  | OpReserveDelete _ _ | OpStore _ _ => true
  | OpEvict p => negb (has_prefix p key)
  end.

Lemma run_op_claimed key v op c cur :
  c !! key = Some cur -> PendingDelete cur = true -> Version cur = v ->
  respects_claim key v op = true -> run_op op c !! key = Some cur.
Proof.
  intros Hc Hp <- Hr. destruct op as [k e|k v' e|k v'|k u|k v'|k e|p];
    cbn [run_op respects_claim] in *;
    try (destruct (decide (k = key)) as [->|Hne];
         [|by autorewrite with cache_frame]);
    rewrite ?String.eqb_refl in Hr; simpl in Hr; bools; try done.
  - rewrite (Commit_current _ _ _ _ _ Hc). rewrite Z.eqb_sym. by rewrite Hr.
  - rewrite (Delete_current _ _ _ _ Hc). rewrite Z.eqb_sym. by rewrite Hr.
  - by rewrite (ReserveDelete_current _ _ _ _ Hc), Hp.
  - rewrite (Unclaim_current _ _ _ _ Hc). rewrite Z.eqb_sym. by rewrite Hr.
  - by rewrite (Store_present _ _ _ _ Hc).
  - by rewrite DeletePrefix_lookup, Hr.
Qed.

Lemma run_ops_claimed key v ops c cur :
  c !! key = Some cur -> PendingDelete cur = true -> Version cur = v ->
  forallb (respects_claim key v) ops = true -> run_ops ops c !! key = Some cur.
Proof.
  revert c. induction ops as [|op ops IH]; intros c Hc Hp Hv Hr; simpl in *; [done|].
  bools. apply IH; [|done..]. by eapply run_op_claimed.
Qed.

(** ** Properties *)

(** C16. version gating. After a write was issued for [key] (its entry is
    present at version [v]), run any interleaving of cache operations that never
    removes the entry and issues fewer than [2^64] versions for it: the write's
    commit then applies exactly when no newer version was issued for the key,
    and a commit that does not apply leaves the cache as it is. *)
Theorem commit_applies_iff_current (key : string) (v : Z) (entry cur : CacheEntry)
    (ops : list cacheOp) (c : hashCache) :
  c !! key = Some cur -> Version cur = v -> (0 <= v < u64_max)%Z ->
  never_removed key ops c = true -> (issued key ops c < u64_max)%Z ->
  let settled := CommitIfCurrent key v entry (run_ops ops c) in
  settled.2 = (issued key ops c =? 0)%Z /\
  (settled.2 = true -> settled.1 !! key = Some (set_Version v entry)) /\
  (settled.2 = false -> settled.1 = run_ops ops c).
Proof.
  intros Hc <- Hv Hn Hi settled. subst settled.
  destruct (run_ops_version key ops c cur Hc Hv Hn) as [cur' [Hcur' Hver]].
  rewrite (Commit_current _ _ _ _ _ Hcur'), Hver.
  pose proof (issued_nonneg key ops c).
  rewrite (wrap64_same (Version cur) (issued key ops c)) by lia.
  destruct (issued key ops c =? 0)%Z; simpl; repeat split; intros; try done.
  by rewrite lookup_insert_eq.
Qed.

Definition entry_a : CacheEntry := mkEntry "h1" (Some "{}") encodingRaw "u1" "v1" 0 0 false.
Definition entry_b : CacheEntry := mkEntry "h2" (Some "[]") encodingRaw "u1" "v1" 0 0 false.

(** An in-flight write overtaken by a newer one: its late commit is dropped. *)
Lemma commit_applies_iff_current_witness :
  (CommitIfCurrent "k" 1 entry_a
     (run_ops [OpReserve "k" entry_b; OpReserveDelete "j" ""] (Reserve "k" entry_a ∅).1)).2 = false.
Proof.
  apply (commit_applies_iff_current "k" 1 entry_a (set_Version 1 entry_a)
           [OpReserve "k" entry_b; OpReserveDelete "j" ""] (Reserve "k" entry_a ∅).1);
    [reflexivity | reflexivity | unfold u64_max; lia | reflexivity | reflexivity].
Defined.

(** a delete claim is exclusive and survives everyone else. Once
    [ReserveDelete] has claimed [key] at version [v], whatever other claims, warm
    seeds, stale settlements and operations on other keys run, every further
    claim on the key is refused as in flight without touching the cache, and the
    claim's own settlement still finds itself current. *)
Lemma delete_claim_exclusive (key uid uid' : string) (entry : CacheEntry) (v : Z)
    (ops : list cacheOp) (c c1 : hashCache) :
  ReserveDelete key uid c = (c1, (entry, v, deleteClaimed)) ->
  forallb (respects_claim key v) ops = true ->
  let c2 := run_ops ops c1 in
  ReserveDelete key uid' c2 = (c2, (zeroEntry, 0%Z, deleteClaimInFlight)) /\
  DeleteIfCurrent key v c2 = (delete key c2, true) /\
  UnclaimDelete key v c2 !! key = Some (set_Version v entry).
Proof.
  intros Hr Hops c2. unfold ReserveDelete in Hr.
  destruct (c !! key) as [cur|] eqn:Hc; [|done]. repeat case_match; simplify_eq.
  set (claimed := set_PendingDelete true (set_Version (u64_succ (Version entry)) entry)) in *.
  assert (H2 : c2 !! key = Some claimed).
  { apply (run_ops_claimed key (u64_succ (Version entry))); [|done..].
    by rewrite lookup_insert_eq. }
  rewrite (ReserveDelete_current _ _ _ _ H2), (Delete_current _ _ _ _ H2),
    (Unclaim_current _ _ _ _ H2). simpl. rewrite Z.eqb_refl, lookup_insert_eq.
  repeat split. unfold claimed, set_PendingDelete, set_Version. simpl. by repeat f_equal.
Qed.

Lemma delete_claim_exclusive_witness :
  let c1 := (ReserveDelete "k" "" (Reserve "k" entry_a ∅).1).1 in
  (ReserveDelete "k" "u1" (run_ops [OpReserveDelete "k" "u9"; OpDelete "k" 1] c1)).2.2 =
    deleteClaimInFlight.
Proof.
  intros c1.
  destruct (delete_claim_exclusive "k" "" "u1" (set_Version 1 entry_a) 2
              [OpReserveDelete "k" "u9"; OpDelete "k" 1] (Reserve "k" entry_a ∅).1 c1)
    as [H _]; [vm_compute; reflexivity | reflexivity |].
  by rewrite H.
Defined.

(** the claim is decided by presence, claim state and UID, and a refusal
    changes nothing: absent keys, keys with a claim in flight and (when the caller
    names a UID) keys now held by another incarnation are refused with that
    reason; any other claim bumps the version, marks the entry and hands back the
    entry as it was. *)
Lemma ReserveDelete_spec (key uid : string) (c : hashCache) :
  let '(c', (entry, v, outcome)) := ReserveDelete key uid c in
  match outcome with
  | deleteClaimAbsent => c !! key = None /\ c' = c
  | deleteClaimInFlight =>
      (exists cur, c !! key = Some cur /\ PendingDelete cur = true) /\ c' = c
  | deleteClaimUIDMismatch =>
      (exists cur, c !! key = Some cur /\ PendingDelete cur = false /\ uid <> "" /\ UID cur <> uid)
      /\ c' = c
  | deleteClaimed =>
      c !! key = Some entry /\ PendingDelete entry = false /\ (uid = "" \/ UID entry = uid) /\
      v = u64_succ (Version entry) /\
      c' = <[key := set_PendingDelete true (set_Version v entry)]> c
  end.
Proof.
  unfold ReserveDelete. destruct (c !! key) as [cur|] eqn:Hc; [|done].
  destruct (PendingDelete cur) eqn:Hp; [eauto|].
  destruct (String.eqb uid "") eqn:Hu; destruct (String.eqb (UID cur) uid) eqn:Hcu;
    simpl; bools; repeat split; eauto.
Qed.

(** a stored baseline decodes to the bytes it was built from, whether the
    codec compressed it, passed an empty input through, or was unavailable. *)
Lemma baseline_roundtrip `{C : ZstdCodec, !ZstdLaws C} (raw : string) (e : CacheEntry) :
  is_Some zstdDecoder ->
  JSON e = Some (compressBaseline raw).1.1 -> Encoding e = (compressBaseline raw).1.2 ->
  decodeBaseline e = Ok (Some raw).
Proof.
  intros [dec Hdec] HJ HE. unfold decodeBaseline, compressBaseline in *.
  destruct zstdEncoder as [enc|] eqn:Henc; simpl in *; [|by rewrite HJ, HE].
  destruct (String.eqb raw ""); simpl in *; rewrite HJ, HE; [done|]. simpl.
  rewrite (zstd_magic enc raw Henc). simpl.
  by rewrite Hdec, (zstd_roundtrip enc dec raw Henc Hdec).
Qed.

(** Whatever a stored baseline decodes to is what it was built from, decoder or
    not. *)
Lemma baseline_sound `{C : ZstdCodec, !ZstdLaws C} (raw b : string) (e : CacheEntry) :
  JSON e = Some (compressBaseline raw).1.1 -> Encoding e = (compressBaseline raw).1.2 ->
  decodeBaseline e = Ok (Some b) -> b = raw.
Proof.
  intros HJ HE. unfold decodeBaseline, compressBaseline in *.
  destruct zstdEncoder as [enc|] eqn:Henc; simpl in *; [|by rewrite HJ, HE; intros [= ->]].
  destruct (String.eqb raw ""); simpl in *; rewrite HJ, HE; [by intros [= ->]|]. simpl.
  rewrite (zstd_magic enc raw Henc). simpl.
  destruct zstdDecoder as [dec|] eqn:Hdec; [|done].
  rewrite (zstd_roundtrip enc dec raw Henc Hdec). by intros [= ->].
Qed.

(** A codec that stores frames uncompressed behind the magic number. *)
Definition store_decode (s : string) : result string :=
  match s with
  | String _ (String _ (String _ (String _ raw))) => Ok raw
  | _ => Err "truncated frame"
  end.

#[export] Instance StoreCodec : ZstdCodec := {
  zstdEncoder := Some (fun raw => zstdMagic +:+ raw);
  zstdDecoder := Some store_decode;
}.

#[export] Instance StoreCodec_laws : ZstdLaws StoreCodec.
Proof.
  split.
  - intros enc raw [= <-]. apply (prefix_app zstdMagic).
  - by intros enc dec raw [= <-] [= <-].
Qed.

Lemma baseline_roundtrip_witness :
  decodeBaseline (mkEntry "h" (Some (zstdMagic +:+ "{}")) encodingZstd "" "" 0 1 false) =
    Ok (Some "{}").
Proof. apply (baseline_roundtrip "{}"); [by eexists | reflexivity | reflexivity]. Defined.

(** Scope eviction removes exactly the entries under the prefix, reports how
    many it removed, and keeps every other entry with its version and claim. *)
Lemma DeletePrefix_exact (prefix : string) (c : hashCache) :
  let '(c', removed) := DeletePrefix prefix c in
  (forall k, c' !! k = if has_prefix prefix k then None else c !! k) /\
  removed = size (filter (fun kv : string * CacheEntry => has_prefix prefix kv.1 = true) c) /\
  Len c = (Len c' + removed)%nat.
Proof.
  simpl. pose proof (size_filter_split (has_prefix prefix) c) as Hsz. split; [|split].
  - intros k. apply (DeletePrefix_lookup prefix c k).
  - lia.
  - unfold Len. lia.
Qed.

(** the gate has no memory across removals. Once an entry was removed, the
    next reservation of the key starts again at version 1, so a write still in
    flight from before the removal is current again: its late success overwrites
    the newer entry, and its late failure removes it. *)
Lemma stale_commit_after_removal (key : string) (old new : CacheEntry) (c : hashCache) :
  c !! key = None -> PendingDelete old = false ->
  let '(c1, v1) := Reserve key old c in
  let '(c2, (_, v2, _)) := ReserveDelete key "" c1 in
  let '(c3, removed) := DeleteIfCurrent key v2 c2 in
  let '(c4, v4) := Reserve key new c3 in
  removed = true /\ v4 = v1 /\
  (CommitIfCurrent key v1 old c4).1 !! key = Some (set_Version v1 old) /\
  (DeleteIfCurrent key v1 c4).1 !! key = None.
Proof.
  intros Hc Hp. unfold Reserve at 1, versionOf. rewrite Hc.
  set (v1 := u64_succ 0).
  assert (H1 : <[key:=set_Version v1 old]> c !! key = Some (set_Version v1 old))
    by by rewrite lookup_insert_eq.
  rewrite (ReserveDelete_current _ _ _ _ H1). simpl. rewrite Hp. simpl.
  set (v2 := u64_succ v1). set (e2 := set_PendingDelete true _).
  assert (H2 : <[key:=e2]> (<[key:=set_Version v1 old]> c) !! key = Some e2)
    by by rewrite lookup_insert_eq.
  rewrite (Delete_current _ _ _ _ H2). simpl.
  unfold versionOf. rewrite lookup_delete_eq. fold v1.
  set (c4 := <[key:=set_Version v1 new]> _).
  assert (H4 : c4 !! key = Some (set_Version v1 new)) by by unfold c4; rewrite lookup_insert_eq.
  rewrite (Commit_current _ _ _ _ _ H4), (Delete_current _ _ _ _ H4). simpl.
  by rewrite lookup_insert_eq, lookup_delete_eq.
Qed.

Lemma stale_commit_after_removal_witness :
  let '(c1, v1) := Reserve "k" entry_a ∅ in
  let '(c2, (_, v2, _)) := ReserveDelete "k" "" c1 in
  let '(c3, removed) := DeleteIfCurrent "k" v2 c2 in
  let '(c4, v4) := Reserve "k" entry_b c3 in
  removed = true /\ v4 = v1 /\
  (CommitIfCurrent "k" v1 entry_a c4).1 !! "k" = Some (set_Version v1 entry_a) /\
  (DeleteIfCurrent "k" v1 c4).1 !! "k" = None.
Proof. apply (stale_commit_after_removal "k" entry_a entry_b ∅); reflexivity. Defined.
