(* ===== verification/Json.v ===== *)
(** * Json: dynamic Go values, their encoding, and unstructured objects

    Kubernetes objects reach the pipeline as [map[string]any] trees. [json] is
    the type of the values such a tree holds: the JSON kinds plus [JOther] for a
    Go value [encoding/json] cannot encode. A Go map is a [gmap], so two maps
    with the same bindings are equal whatever order they were built in. A number
    is the text [json.Marshal] renders it as (the shortest rendering identifies
    an [int64] or [float64] uniquely).

    [Marshal] is [json.Marshal] on these values: object keys sorted bytewise,
    HTML-escaping on, U+2028/U+2029 escaped. Strings are valid UTF-8, as they
    come from the API server's own JSON.

    The typed accessors of [unstructured.Unstructured] belong to
    k8s.io/apimachinery and are the fields of the class [UnstructuredAPI];
    [UnstructuredLaws] states their documented behaviour. *)

From Stdlib Require Import ZArith.
From stdpp Require Import base gmap strings list.
From S2P Require Import Prelude.

(** ** Values *)

Inductive json :=
| JNull
| JBool (b : bool)
| JNum (text : string)
| JStr (s : string)
| JArr (items : list json)
| JObj (fields : gmap string json)
| JOther (goType : string).

(** [obj.Object]. *)
Abbreviation object := (gmap string json).

(** ** [json.Marshal] *)

Definition hex4 (n : nat) : Ascii.ascii :=
  Ascii.ascii_of_nat (if Nat.ltb n 10 then 48 + n else 87 + n).

Definition u00 (a : Ascii.ascii) : string :=
  let n := Ascii.nat_of_ascii a in
  "\u00" +:+ String (hex4 (Nat.div n 16)) (String (hex4 (Nat.modulo n 16)) "").

(** One byte below 0x80 inside an encoded string. *)
Definition escape_byte (a : Ascii.ascii) : string :=
  match Ascii.nat_of_ascii a with
  | 34 => String "\"%char (String a "")
  | 92 => "\\"
  | 8 => "\b" | 9 => "\t" | 10 => "\n" | 12 => "\f" | 13 => "\r"
  | 38 | 60 | 62 => u00 a
  | n => if Nat.ltb n 32 then u00 a else String a ""
  end.

Fixpoint escape (s : string) : string :=
  match s with
  | EmptyString => ""
  | String a rest =>
      match rest with
      | String b (String c rest') =>
          if (Nat.eqb (Ascii.nat_of_ascii a) 226 && Nat.eqb (Ascii.nat_of_ascii b) 128 &&
              (Nat.eqb (Ascii.nat_of_ascii c) 168 || Nat.eqb (Ascii.nat_of_ascii c) 169))%bool
          then (if Nat.eqb (Ascii.nat_of_ascii c) 168 then "\u2028" else "\u2029") +:+ escape rest'
          else escape_byte a +:+ escape rest
      | _ => escape_byte a +:+ escape rest
      end
  end.

Definition dquote : Ascii.ascii := Ascii.ascii_of_nat 34.

Definition marshal_string (s : string) : string :=
  String dquote (escape s +:+ String dquote "").

Definition errUnsupported : error := "json: unsupported type".

Fixpoint sequence {A} (l : list (result A)) : result (list A) :=
  match l with
  | [] => Ok []
  | Ok a :: l' => match sequence l' with Ok r => Ok (a :: r) | Err e => Err e end
  | Err e :: _ => Err e
  end.

(** Encoded members in key order. *)
Definition members (m : gmap string (result string)) : list (result string) :=
  map (fun k => match m !! k with
                | Some (Ok v) => Ok (marshal_string k +:+ ":" +:+ v)
                | Some (Err e) => Err e
                | None => Err errUnsupported
                end) (sorted_keys m).

Fixpoint Marshal (v : json) : result string :=
  match v with
  | JNull => Ok "null"
  | JBool b => Ok (if b then "true" else "false")
  | JNum text => Ok text
  | JStr s => Ok (marshal_string s)
  | JArr items =>
      match sequence (map Marshal items) with
      | Ok parts => Ok ("[" +:+ join "," parts +:+ "]")
      | Err e => Err e
      end
  | JObj fields =>
      match sequence (members (Marshal <$> fields)) with
      | Ok parts => Ok ("{" +:+ join "," parts +:+ "}")
      | Err e => Err e
      end
  | JOther _ => Err errUnsupported
  end.

(** ** Unstructured objects *)

(** The fields of [obj.Object] the accessors read. *)
Class UnstructuredAPI := {
  GetUID : object -> string;
  GetResourceVersion : object -> string;
  (** [obj.GroupVersionKind().Version] *)
  GVKVersion : object -> string;
  (** [None] is the nil map: no labels, or a map with a non-string value. *)
  GetLabels : object -> option (gmap string string);
  GetAnnotations : object -> option (gmap string string);
  (** [unstructured.NestedFieldNoCopy(obj, "metadata", "managedFields")]:
      [None] covers both not-found and the error of a non-map on the way. *)
  NestedManagedFields : object -> option json;
  (** [obj.SetAnnotations], of a non-nil map. *)
  SetAnnotations : object -> gmap string string -> object;
  (** [unstructured.RemoveNestedField(obj, "metadata", "managedFields")] *)
  RemoveManagedFields : object -> object;
}.

(** The field [f] of [metadata], when [metadata] is a map. *)
Definition meta_field (f : string) (obj : object) : option json :=
  match obj !! "metadata" with
  | Some (JObj m) => m !! f
  | _ => None
  end.

#[export] Instance str_dec (x : json) : Decision (match x with JStr _ => True | _ => False end).
Proof. destruct x; apply _. Defined.

(** A map all of whose values are strings, as a string map. *)
Definition string_map (v : option json) : option (gmap string string) :=
  match v with
  | Some (JObj m) =>
      if decide (map_Forall (fun _ x => match x with JStr _ => True | _ => False end) m)
      then Some (omap (fun x => match x with JStr s => Some s | _ => None end) m)
      else None
  | _ => None
  end.

Definition string_at (v : option json) : string :=
  match v with Some (JStr s) => s | _ => "" end.

Class UnstructuredLaws (U : UnstructuredAPI) : Prop := {
  GetUID_spec : forall obj, GetUID obj = string_at (meta_field "uid" obj);
  GetResourceVersion_spec : forall obj,
    GetResourceVersion obj = string_at (meta_field "resourceVersion" obj);
  GVKVersion_spec : forall obj obj', obj !! "apiVersion" = obj' !! "apiVersion" ->
    GVKVersion obj = GVKVersion obj';
  GetLabels_spec : forall obj, GetLabels obj = string_map (meta_field "labels" obj);
  GetAnnotations_spec : forall obj, GetAnnotations obj = string_map (meta_field "annotations" obj);
  NestedManagedFields_spec : forall obj, NestedManagedFields obj = meta_field "managedFields" obj;
  SetAnnotations_spec : forall obj m a, obj !! "metadata" = Some (JObj m) ->
    SetAnnotations obj a = <["metadata" := JObj (<["annotations" := JObj (JStr <$> a)]> m)]> obj;
  RemoveManagedFields_spec : forall obj m, obj !! "metadata" = Some (JObj m) ->
    RemoveManagedFields obj = <["metadata" := JObj (delete "managedFields" m)]> obj;
}.

(** ** Lemmas *)

Lemma sequence_Ok {A} (l : list (result A)) r :
  sequence l = Ok r -> l = map Ok r.
Proof.
  revert r. induction l as [|[a|e] l IH]; intros r H; simpl in *; simplify_eq; [done|].
  destruct (sequence l) eqn:E; simplify_eq. simpl. by rewrite <- IH.
Qed.

(** ** A concrete reading of the accessors *)

Definition version_of_apiVersion (s : string) : string :=
  match split_char "/"%char s with
  | [v] => v
  | [_; v] => v
  | _ => ""
  end.

#[export] Instance PlainUnstructured : UnstructuredAPI := {
  GetUID obj := string_at (meta_field "uid" obj);
  GetResourceVersion obj := string_at (meta_field "resourceVersion" obj);
  GVKVersion obj := version_of_apiVersion (string_at (obj !! "apiVersion"));
  GetLabels obj := string_map (meta_field "labels" obj);
  GetAnnotations obj := string_map (meta_field "annotations" obj);
  NestedManagedFields obj := meta_field "managedFields" obj;
  SetAnnotations obj a :=
    let m := match obj !! "metadata" with Some (JObj m) => m | _ => ∅ end in
    <["metadata" := JObj (<["annotations" := JObj (JStr <$> a)]> m)]> obj;
  RemoveManagedFields obj :=
    match obj !! "metadata" with
    | Some (JObj m) => <["metadata" := JObj (delete "managedFields" m)]> obj
    | _ => obj
    end;
}.

#[export] Instance PlainUnstructured_laws : UnstructuredLaws PlainUnstructured.
Proof.
  split; try done; [intros obj obj' H|intros obj m a H|intros obj m H]; simpl; by rewrite H.
Qed.
