(* ===== verification/Redact.v ===== *)
(** * Redact: redaction paths and policies

    Models [internal/pipeline/redact.go]: the path grammar and its parser, the
    compiled policy with its always-on built-in scrub, the merge of policies, and
    the copy-on-write application of a policy to an object.

    [redactValue] keeps the source's [(value, changed)] result: [changed = false]
    is what stops a copy from propagating up a path that matched nothing. The Go
    code shares unchanged subtrees by reference and never writes into its
    argument, so values are the model; the sharing itself is not represented.

    [strconv.Quote] and [strconv.Unquote] are modelled on printable text: bytes
    from 0x80 up stand for printable UTF-8 and pass through. *)

From Stdlib Require Import ZArith Lia.
From stdpp Require Import base gmap strings list sorting.
From S2P Require Import Prelude Json.

(** ** Data *)

Definition RedactionSentinel : string := "[REDACTED]".
Definition LastAppliedConfigAnnotation : string :=
  "kubectl.kubernetes.io/last-applied-configuration".

Record redactionSegment := mkSegment {
  seg_name : string;
  seg_wildcard : bool;
}.

Record redactionPath := mkPath {
  path_raw : string;
  path_segments : list redactionSegment;
}.

(** A compiled policy is its list of paths; a nil [*RedactionPolicy] is [None]
    of [option RedactionPolicy]. *)
Record RedactionPolicy := mkPolicy { policy_paths : list redactionPath }.

(** ** Applying a policy *)

Definition sentinel : json := JStr RedactionSentinel.

(** The loop of [redactElements]: the rewritten elements, and whether any
    element changed. *)
Fixpoint elements_loop (redact : json -> json * bool) (items : list json) : list json * bool :=
  match items with
  | [] => ([], false)
  | item :: rest =>
      let '(replacement, itemChanged) := redact item in
      let '(out, changed) := elements_loop redact rest in
      ((if itemChanged then replacement else item) :: out, itemChanged || changed)
  end.

Definition redactElements (redact : json -> json * bool) (value : json) : json * bool :=
  match value with
  | JArr items =>
      let '(out, changed) := elements_loop redact items in
      if changed then (JArr out, true) else (value, false)
  | _ => (value, false)
  end.

Fixpoint redactValue (value : json) (segments : list redactionSegment) {struct segments}
    : json * bool :=
  match segments with
  | [] =>
      match value with
      | JStr existing =>
          if String.eqb existing RedactionSentinel then (value, false) else (sentinel, true)
      | _ => (sentinel, true)
      end
  | segment :: rest =>
      match value with
      | JObj object =>
          match object !! seg_name segment with
          | None => (value, false)
          | Some child =>
              let '(replacement, changed) :=
                if seg_wildcard segment
                then redactElements (fun v => redactValue v rest) child
                else redactValue child rest in
              if changed then (JObj (<[seg_name segment := replacement]> object), true)
              else (value, false)
          end
      | _ => (value, false)
      end
  end.

Definition errPanicNotMap : error := "panic: interface conversion: not map[string]interface {}".

(** The loop of [Apply]; the type assertion on a changed root is a panic when
    the root stopped being a map. *)
Fixpoint apply_paths (paths : list redactionPath) (current : object) : result object :=
  match paths with
  | [] => Ok current
  | path :: rest =>
      match redactValue (JObj current) (path_segments path) with
      | (next, true) =>
          match next with
          | JObj m => apply_paths rest m
          | _ => Err errPanicNotMap
          end
      | (_, false) => apply_paths rest current
      end
  end.

(** ** Parsing paths *)

Definition is_letter (a : Ascii.ascii) : bool :=
  let n := Ascii.nat_of_ascii a in
  (Nat.leb 65 n && Nat.leb n 90) || (Nat.leb 97 n && Nat.leb n 122).
Definition is_digit (a : Ascii.ascii) : bool :=
  let n := Ascii.nat_of_ascii a in Nat.leb 48 n && Nat.leb n 57.
Definition seg_start (a : Ascii.ascii) : bool := is_letter a || Ascii.eqb a "_"%char.
Definition seg_char (a : Ascii.ascii) : bool :=
  is_letter a || is_digit a || Ascii.eqb a "_"%char || Ascii.eqb a "-"%char.

Fixpoint string_forall (f : Ascii.ascii -> bool) (s : string) : bool :=
  match s with
  | EmptyString => true
  | String a s' => f a && string_forall f s'
  end.

(** [redactionSegmentPattern.MatchString]. *)
Definition segment_pattern (s : string) : bool :=
  match s with
  | EmptyString => false
  | String a s' => seg_start a && string_forall seg_char s'
  end.

(** [strings.IndexAny(rest, ".[")] as a cut: the name and the remainder, which
    keeps its first byte. *)
Fixpoint cut_name (s : string) : string * string :=
  match s with
  | EmptyString => ("", "")
  | String a s' =>
      if Ascii.eqb a "."%char || Ascii.eqb a "["%char then ("", s)
      else let '(n, r) := cut_name s' in (String a n, r)
  end.

Definition errEmptyRedactionPath : error := "redaction path is empty".
Definition errInvalidName : error := "is not a valid field name".
Definition errUnterminated : error := "unterminated subscript".
Definition errNotQuoted : error := "is not a quoted key".
Definition errEmptyKey : error := "quoted key is empty".
Definition errSubscript : error := "subscript must be [*] or a quoted key".
Definition errTrailingDot : error := "trailing dot".
Definition errExpectedDot : error := "expected dot or end of path".
Definition errFuel : error := "parser out of fuel".

(** [parseSegmentName]. *)
Definition parseSegmentName (rest : string) : result (string * string) :=
  let '(name, remainder) := cut_name rest in
  if segment_pattern name then Ok (name, remainder) else Err errInvalidName.

(** [strconv.Quote]. *)
Definition quote_byte (a : Ascii.ascii) : string :=
  match Ascii.nat_of_ascii a with
  | 34 => String "\"%char (String a "")
  | 92 => "\\"
  | 7 => "\a" | 8 => "\b" | 12 => "\f" | 10 => "\n" | 13 => "\r" | 9 => "\t" | 11 => "\v"
  | n => if Nat.ltb n 32 || Nat.eqb n 127
         then "\x" +:+ String (hex4 (Nat.div n 16)) (String (hex4 (Nat.modulo n 16)) "")
         else String a ""
  end.

Fixpoint quote_body (s : string) : string :=
  match s with
  | EmptyString => ""
  | String a s' => quote_byte a +:+ quote_body s'
  end.

Definition Quote (s : string) : string := String dquote (quote_body s +:+ String dquote "").

Definition hex_value (a : Ascii.ascii) : option nat :=
  let n := Ascii.nat_of_ascii a in
  if Nat.leb 48 n && Nat.leb n 57 then Some (n - 48)
  else if Nat.leb 97 n && Nat.leb n 102 then Some (n - 87)
  else if Nat.leb 65 n && Nat.leb n 70 then Some (n - 55)
  else None.

Definition octal_value (a : Ascii.ascii) : option nat :=
  let n := Ascii.nat_of_ascii a in
  if Nat.leb 48 n && Nat.leb n 55 then Some (n - 48) else None.

(** Read [count] hex digits. *)
Fixpoint take_hex (count : nat) (acc : N) (s : string) : option (N * string) :=
  match count with
  | O => Some (acc, s)
  | S count' =>
      match s with
      | String a s' =>
          match hex_value a with
          | Some d => take_hex count' (acc * 16 + N.of_nat d)%N s'
          | None => None
          end
      | EmptyString => None
      end
  end.

Definition byte_of (n : N) : Ascii.ascii := Ascii.ascii_of_N n.

(** UTF-8 encoding of a code point; [None] for a surrogate or out of range. *)
Definition utf8 (r : N) : option string :=
  (if r <? 128 then Some (String (byte_of r) "")
   else if r <? 2048 then
     Some (String (byte_of (192 + r / 64)) (String (byte_of (128 + r mod 64)) ""))
   else if (55296 <=? r) && (r <? 57344) then None
   else if r <? 65536 then
     Some (String (byte_of (224 + r / 4096)) (String (byte_of (128 + (r / 64) mod 64))
       (String (byte_of (128 + r mod 64)) "")))
   else if r <? 1114112 then
     Some (String (byte_of (240 + r / 262144)) (String (byte_of (128 + (r / 4096) mod 64))
       (String (byte_of (128 + (r / 64) mod 64)) (String (byte_of (128 + r mod 64)) ""))))
   else None)%N.

(** One escape sequence, after the backslash: what it denotes and what
    follows. *)
Definition unescape (s : string) : option (string * string) :=
  match s with
  | EmptyString => None
  | String a s' =>
      match Ascii.nat_of_ascii a with
      | 97 => Some (String (Ascii.ascii_of_nat 7) "", s')
      | 98 => Some (String (Ascii.ascii_of_nat 8) "", s')
      | 102 => Some (String (Ascii.ascii_of_nat 12) "", s')
      | 110 => Some (String (Ascii.ascii_of_nat 10) "", s')
      | 114 => Some (String (Ascii.ascii_of_nat 13) "", s')
      | 116 => Some (String (Ascii.ascii_of_nat 9) "", s')
      | 118 => Some (String (Ascii.ascii_of_nat 11) "", s')
      | 92 | 34 => Some (String a "", s')
      | 120 => match take_hex 2 0 s' with
               | Some (n, r) => Some (String (byte_of n) "", r) | None => None end
      | 117 => match take_hex 4 0 s' with
               | Some (n, r) => match utf8 n with Some u => Some (u, r) | None => None end
               | None => None end
      | 85 => match take_hex 8 0 s' with
              | Some (n, r) => match utf8 n with Some u => Some (u, r) | None => None end
              | None => None end
      | _ =>
          match octal_value a, s' with
          | Some x, String b (String c r) =>
              match octal_value b, octal_value c with
              | Some y, Some z =>
                  let n := (x * 64 + y * 8 + z)%nat in
                  if Nat.leb n 255 then Some (String (Ascii.ascii_of_nat n) "", r) else None
              | _, _ => None
              end
          | _, _ => None
          end
      end
  end.

(** The body of a quoted string up to its closing quote, which must end the
    text. Every step consumes at least one byte, so the length is enough fuel. *)
Fixpoint unquote_body (fuel : nat) (s : string) : option string :=
  match fuel with
  | O => None
  | S fuel' =>
      match s with
      | EmptyString => None
      | String a s' =>
          if Ascii.eqb a dquote then (if String.eqb s' "" then Some "" else None)
          else if Nat.eqb (Ascii.nat_of_ascii a) 10 then None
          else if Ascii.eqb a "\"%char then
            match unescape s' with
            | Some (c, r) =>
                match unquote_body fuel' r with Some t => Some (c +:+ t) | None => None end
            | None => None
            end
          else match unquote_body fuel' s' with Some t => Some (String a t) | None => None end
      end
  end.

(** [strconv.Unquote] on text that starts with a double quote. *)
Definition Unquote (s : string) : option string :=
  match s with
  | String a s' => if Ascii.eqb a dquote then unquote_body (String.length s) s' else None
  | EmptyString => None
  end.

(** One turn of [parseRedactionPath]'s loop up to the trailing switch: the
    segments it appends and what is left. *)
Definition parse_step (rest : string) : result (list redactionSegment * string) :=
  match parseSegmentName rest with
  | Err e => Err e
  | Ok (name, rest1) =>
      if has_prefix "[" rest1 then
        match cut_char "]"%char rest1 with
        | None => Err errUnterminated
        | Some (opened, rest2) =>
            let subscript := String.substring 1 (String.length opened) opened in
            if String.eqb subscript "*" then Ok ([mkSegment name true], rest2)
            else if has_prefix (String dquote "") subscript then
              match Unquote subscript with
              | None => Err errNotQuoted
              | Some key =>
                  if String.eqb key "" then Err errEmptyKey
                  else Ok ([mkSegment name false; mkSegment key false], rest2)
              end
            else Err errSubscript
        end
      else Ok ([mkSegment name false], rest1)
  end.

Fixpoint parse_loop (fuel : nat) (segments : list redactionSegment) (rest : string)
    : result (list redactionSegment) :=
  match fuel with
  | O => Err errFuel
  | S fuel' =>
      match parse_step rest with
      | Err e => Err e
      | Ok (segs, rest') =>
          let segments' := segments ++ segs in
          match rest' with
          | EmptyString => Ok segments'
          | String a rest'' =>
              if Ascii.eqb a "."%char then
                if String.eqb rest'' "" then Err errTrailingDot
                else parse_loop fuel' segments' rest''
              else Err errExpectedDot
          end
      end
  end.

(** [parseRedactionPath]. Every turn consumes at least one byte of the path. *)
Definition parseRedactionPath (raw : string) : result redactionPath :=
  if String.eqb raw "" then Err errEmptyRedactionPath
  else match parse_loop (String.length raw) [] raw with
       | Ok segments => Ok (mkPath raw segments)
       | Err e => Err e
       end.

(** ** Policies *)

Definition AnnotationRedactionPath (key : string) : string :=
  "metadata.annotations[" +:+ Quote key +:+ "]".

Definition builtinPaths : list string := [AnnotationRedactionPath LastAppliedConfigAnnotation].

Definition path_le (a b : redactionPath) : Prop := String.le (path_raw a) (path_raw b).
#[export] Instance path_le_dec : RelDecision path_le.
Proof. intros a b. apply String.le_dec. Defined.

(** The loop of [CompileRedaction]: [seen] is the set of raw texts compiled so
    far; an unparseable path fails the whole call. *)
Fixpoint compile_loop (seen : list string) (raws : list string) : result (list redactionPath) :=
  match raws with
  | [] => Ok []
  | raw :: rest =>
      if decide (raw ∈ seen) then compile_loop seen rest
      else match parseRedactionPath raw with
           | Err e => Err e
           | Ok path =>
               match compile_loop (raw :: seen) rest with
               | Ok paths => Ok (path :: paths)
               | Err e => Err e
               end
           end
  end.

Definition CompileRedaction (paths : list string) : result RedactionPolicy :=
  match compile_loop [] (paths ++ builtinPaths) with
  | Ok compiled => Ok (mkPolicy (merge_sort path_le compiled))
  | Err e => Err e
  end.

(** [builtinRedaction] ([mustCompileRedaction] panics on failure; see
    [builtin_compiles]). *)
Definition builtinRedaction : RedactionPolicy :=
  match CompileRedaction [] with
  | Ok p => p
  | Err _ => mkPolicy []
  end.

Definition MergeRedaction (policies : list (option RedactionPolicy)) : option RedactionPolicy :=
  let all := mjoin ((fun p => match p with Some q => policy_paths q | None => [] end) <$> policies) in
  let merged := dedup_by path_raw [] all in
  match merged with
  | [] => None
  | _ => Some (mkPolicy (merge_sort path_le merged))
  end.

Definition Paths (p : option RedactionPolicy) : list string :=
  map path_raw (policy_paths (default builtinRedaction p)).

(** [RedactionPolicy.Apply]. *)
Definition Apply (p : option RedactionPolicy) (obj : object) : result object :=
  apply_paths (policy_paths (default builtinRedaction p)) obj.

(** ** The reference semantics

    What a path means, without the copy-on-write bookkeeping. *)

Fixpoint redact (segments : list redactionSegment) (v : json) : json :=
  match segments with
  | [] => sentinel
  | s :: rest =>
      match v with
      | JObj m =>
          match m !! seg_name s with
          | Some child =>
              JObj (<[seg_name s :=
                if seg_wildcard s
                then match child with JArr items => JArr (map (redact rest) items) | _ => child end
                else redact rest child]> m)
          | None => v
          end
      | _ => v
      end
  end.

Definition redact_all (paths : list (list redactionSegment)) (v : json) : json :=
  foldl (fun v p => redact p v) v paths.

(** The values a path reaches in a tree. *)
Fixpoint reached (segments : list redactionSegment) (v : json) : list json :=
  match segments with
  | [] => [v]
  | s :: rest =>
      match v with
      | JObj m =>
          match m !! seg_name s with
          | Some child =>
              if seg_wildcard s
              then match child with JArr items => mjoin (map (reached rest) items) | _ => [] end
              else reached rest child
          | None => []
          end
      | _ => []
      end
  end.

(** Rewrite every value a path reaches. *)
Fixpoint rewrite_at (segments : list redactionSegment) (f : json -> json) (v : json) : json :=
  match segments with
  | [] => f v
  | s :: rest =>
      match v with
      | JObj m =>
          match m !! seg_name s with
          | Some child =>
              JObj (<[seg_name s :=
                if seg_wildcard s
                then match child with JArr items => JArr (map (rewrite_at rest f) items) | _ => child end
                else rewrite_at rest f child]> m)
          | None => v
          end
      | _ => v
      end
  end.

(** ** Lemmas: the code against the reference *)

(** A step agrees with its reference: the value, and a truthful flag. *)
Definition step_agrees (step : json -> json * bool) (ref : json -> json) : Prop :=
  forall v, (step v).1 = ref v /\ (if (step v).2 then ref v <> v else ref v = v).

Lemma elements_loop_spec step ref items :
  step_agrees step ref ->
  (elements_loop step items).1 = map ref items /\
  (if (elements_loop step items).2 then map ref items <> items else map ref items = items).
Proof.
  intros Hstep. induction items as [|x items [IH1 IH2]]; simpl; [done|].
  destruct (Hstep x) as [H1 H2]. destruct (step x) as [r ch]. simpl in *.
  destruct (elements_loop step items) as [out chs]. simpl in *. subst.
  destruct ch, chs; simpl; split; rewrite ?H2, ?IH2; try done; naive_solver.
Qed.

Lemma redactElements_spec step ref :
  step_agrees step ref ->
  step_agrees (redactElements step)
    (fun v => match v with JArr items => JArr (map ref items) | _ => v end).
Proof.
  intros Hstep v. unfold redactElements. destruct v as [| | | |items| |]; try done.
  destruct (elements_loop_spec step ref items Hstep) as [H1 H2].
  destruct (elements_loop step items) as [out ch]. simpl in *. subst.
  destruct ch; simpl; split; congruence.
Qed.

Lemma redactValue_spec segments :
  step_agrees (fun v => redactValue v segments) (redact segments).
Proof.
  induction segments as [|s rest IH]; intros v; simpl.
  - destruct v as [| | |t| | |]; try done.
    destruct (String.eqb t RedactionSentinel) eqn:E; bools; simpl; split; unfold sentinel; congruence.
  - destruct v as [| | | | |m|]; try done.
    destruct (m !! seg_name s) as [child|] eqn:Hm; [|done].
    set (ref := if seg_wildcard s
      then match child with JArr items => JArr (map (redact rest) items) | _ => child end
      else redact rest child).
    set (run := if seg_wildcard s then redactElements (fun v => redactValue v rest) child
                else redactValue child rest).
    assert (Hc : run.1 = ref /\ (if run.2 then ref <> child else ref = child)).
    { subst ref run. destruct (seg_wildcard s); [|apply IH].
      apply (redactElements_spec _ _ IH child). }
    destruct run as [r ch]. simpl in Hc. destruct Hc as [-> Hc].
    destruct ch; simpl; split; try done.
    + intros [= Heq]. apply Hc. apply (f_equal (lookup (seg_name s))) in Heq.
      rewrite lookup_insert_eq, Hm in Heq. congruence.
    + by rewrite Hc, insert_id.
    + by rewrite Hc, insert_id.
Qed.

Lemma redactValue_fst segments v : (redactValue v segments).1 = redact segments v.
Proof. apply (redactValue_spec segments v). Qed.

(** ** Lemmas: the algebra of redaction *)

Lemma redact_sentinel segments : redact segments sentinel = sentinel.
Proof. by destruct segments. Qed.

Lemma redact_idemp segments v : redact segments (redact segments v) = redact segments v.
Proof.
  revert v. induction segments as [|s rest IH]; intros v; simpl; [done|].
  destruct v as [| | | | |m|]; try done.
  destruct (m !! seg_name s) as [child|] eqn:Hm; [|by rewrite Hm].
  rewrite lookup_insert_eq, insert_insert_eq. do 2 f_equal.
  destruct (seg_wildcard s); [|apply IH]. destruct child; try done.
  rewrite map_map. f_equal. apply map_ext. done.
Qed.

(** Redactions commute, however the two paths overlap. *)
Lemma redact_comm p q v : redact p (redact q v) = redact q (redact p v).
Proof.
  revert q v. induction p as [|s p IH]; intros [|t q] v; try done.
  - cbn [redact]. destruct v as [| | | | |m|]; try done.
    destruct (decide (seg_name s = seg_name t)) as [E|NE].
    + rewrite E. destruct (m !! seg_name t) as [child|] eqn:Hm; [|by rewrite Hm].
      rewrite !lookup_insert_eq, !insert_insert_eq. do 2 f_equal.
      destruct (seg_wildcard s), (seg_wildcard t).
      * destruct child; try done. rewrite !map_map. f_equal. apply map_ext. intros x. apply IH.
      * destruct q as [|t' q]; [by destruct child|].
        destruct child as [| | | | |c|]; try done; simpl; by destruct (c !! _).
      * destruct p as [|s' p]; [by destruct child|].
        destruct child as [| | | | |c|]; try done; simpl; by destruct (c !! _).
      * apply IH.
    + destruct (m !! seg_name s) as [cs|] eqn:Hs, (m !! seg_name t) as [ct|] eqn:Ht;
        rewrite ?lookup_insert_ne, ?Hs, ?Ht by done; try done.
      by rewrite insert_insert_ne.
Qed.

Lemma redact_obj s rest m : exists m', redact (s :: rest) (JObj m) = JObj m'.
Proof. simpl. case_match; eauto. Qed.

Lemma redact_all_comm ps q v : redact_all ps (redact q v) = redact q (redact_all ps v).
Proof.
  revert v. unfold redact_all. induction ps as [|p ps IH]; intros v; simpl; [done|].
  rewrite redact_comm. apply IH.
Qed.

Lemma redact_all_perm ps qs v : ps ≡ₚ qs -> redact_all ps v = redact_all qs v.
Proof.
  unfold redact_all. intros Hp. revert v.
  induction Hp as [|p ps qs _ IH|p q ps|ps qs rs _ IH1 _ IH2]; intros v; simpl.
  - done.
  - apply IH.
  - by rewrite redact_comm.
  - by rewrite IH1, IH2.
Qed.

Lemma redact_all_elem ps q v : q ∈ ps -> redact_all ps v = redact_all ps (redact q v).
Proof.
  intros Hq. rewrite redact_all_comm.
  apply elem_of_Permutation in Hq as [rest Hr].
  rewrite (redact_all_perm ps (q :: rest) v Hr). unfold redact_all. simpl.
  fold (redact_all rest (redact q v)). rewrite redact_all_comm. by rewrite redact_idemp.
Qed.

(** Redacting with a superset absorbs: what one policy already scrubbed is not
    changed by scrubbing it again. *)
Lemma redact_all_absorb ps qs v :
  (forall p, p ∈ qs -> p ∈ ps) -> redact_all ps (redact_all qs v) = redact_all ps v.
Proof.
  revert v. induction qs as [|q qs IH]; intros v H; [done|].
  change (redact_all (q :: qs) v) with (redact_all qs (redact q v)).
  rewrite IH by (intros; apply H; by right). symmetry. apply redact_all_elem, H. by left.
Qed.

Lemma redact_all_app ps qs v : redact_all (ps ++ qs) v = redact_all qs (redact_all ps v).
Proof. unfold redact_all. by rewrite foldl_app. Qed.

(** Only the set of paths matters. *)
Lemma redact_all_ext ps qs v :
  (forall p, p ∈ ps <-> p ∈ qs) -> redact_all ps v = redact_all qs v.
Proof.
  intros H. rewrite <- (redact_all_absorb ps qs v) by naive_solver.
  rewrite <- redact_all_app, (redact_all_perm (qs ++ ps) (ps ++ qs)), redact_all_app by
    apply Permutation_app_comm.
  apply redact_all_absorb. naive_solver.
Qed.

Lemma reached_redact p v x : x ∈ reached p (redact p v) -> x = sentinel.
Proof.
  revert v. induction p as [|s p IH]; intros v; simpl; [by rewrite list_elem_of_singleton|].
  destruct v as [| | | | |m|]; simpl; try by rewrite elem_of_nil.
  destruct (m !! seg_name s) as [child|] eqn:Hm; [|by rewrite Hm, elem_of_nil].
  rewrite lookup_insert_eq. destruct (seg_wildcard s); [|apply IH].
  destruct child; simpl; try by rewrite elem_of_nil.
  rewrite list_elem_of_join. intros [l [Hx Hl]].
  rewrite map_map in Hl. apply list_elem_of_fmap in Hl as [y [-> _]]. by eapply IH.
Qed.

Lemma redact_rewrite_at p f v : redact p (rewrite_at p f v) = redact p v.
Proof.
  revert v. induction p as [|s p IH]; intros v; simpl; [done|].
  destruct v as [| | | | |m|]; try done.
  destruct (m !! seg_name s) as [child|] eqn:Hm; [|by rewrite Hm].
  rewrite lookup_insert_eq, insert_insert_eq. do 2 f_equal.
  destruct (seg_wildcard s); [|apply IH]. destruct child; try done.
  rewrite map_map. f_equal. apply map_ext. done.
Qed.

(** ** Lemmas: compiled policies *)

Lemma string_length_app a b :
  String.length (a +:+ b) = (String.length a + String.length b)%nat.
Proof. induction a; simpl; congruence. Qed.

Lemma cut_name_app s : (cut_name s).1 +:+ (cut_name s).2 = s.
Proof.
  induction s as [|a s IH]; simpl; [done|].
  destruct (_ || _); [done|]. destruct (cut_name s). simpl in *. congruence.
Qed.

(** A turn of the parser consumes input and produces a segment. *)
Lemma parse_step_progress rest segs rest' :
  parse_step rest = Ok (segs, rest') ->
  (String.length rest' < String.length rest)%nat /\ segs <> [].
Proof.
  unfold parse_step, parseSegmentName. pose proof (cut_name_app rest) as Hc.
  destruct (cut_name rest) as [name r1]. simpl in Hc. subst rest.
  destruct (segment_pattern name) eqn:Hp; [|done].
  assert (0 < String.length name)%nat by (destruct name; simpl in *; [done|lia]).
  rewrite string_length_app.
  destruct (has_prefix "[" r1); [|intros [= <- <-]; split; [lia|done]].
  destruct (cut_char "]"%char r1) as [[o r2]|] eqn:Ho; [|done].
  apply cut_char_Some in Ho as [-> _]. rewrite string_length_app. simpl.
  repeat case_match; intros; simplify_eq; split; try done; lia.
Qed.

Lemma parse_loop_fuel fuel segments rest :
  (String.length rest <= fuel)%nat -> rest <> "" ->
  parse_loop fuel segments rest <> Err errFuel.
Proof.
  revert segments rest. induction fuel as [|fuel IH]; intros segments rest Hf Hr.
  - by destruct rest; simpl in *; [|lia].
  - simpl. destruct (parse_step rest) as [[segs rest']|e] eqn:Hs.
    + apply parse_step_progress in Hs as [Hlt _].
      destruct rest' as [|a r]; [done|]. simpl in Hlt.
      destruct (Ascii.eqb a "."%char); [|done].
      destruct (String.eqb r "") eqn:E; [done|]. bools. apply IH; [lia|done].
    + intros [= ->]. unfold parse_step, parseSegmentName in Hs.
      repeat case_match; simplify_eq; try done;
        match goal with H : Err _ = Err _ |- _ => by apply (f_equal (fun r : result (list redactionSegment * string) => match r with Err e => String.length e | _ => O end)) in H end.
Qed.

Lemma parse_loop_nonempty fuel segments rest out :
  parse_loop fuel segments rest = Ok out -> out <> [].
Proof.
  revert segments rest. induction fuel as [|fuel IH]; intros segments rest; [done|]. simpl.
  destruct (parse_step rest) as [[segs rest']|e] eqn:Hs; [|done].
  apply parse_step_progress in Hs as [_ Hne].
  destruct rest' as [|a r].
  - intros [= <-] Hnil. by apply app_eq_nil in Hnil as [_ ?].
  - repeat case_match; try done. apply IH.
Qed.

Lemma parseRedactionPath_nonempty raw p :
  parseRedactionPath raw = Ok p -> path_segments p <> [] /\ path_raw p = raw.
Proof.
  unfold parseRedactionPath. repeat case_match; try done. intros [= <-]. simpl.
  split; [|done]. by eapply parse_loop_nonempty.
Qed.

(** Every path of the policy is what its raw text parses to. *)
Definition policy_ok (p : RedactionPolicy) : Prop :=
  Forall (fun q => parseRedactionPath (path_raw q) = Ok q) (policy_paths p).

Lemma compile_loop_spec seen raws out :
  compile_loop seen raws = Ok out ->
  Forall (fun q => parseRedactionPath (path_raw q) = Ok q) out /\
  forall raw, raw ∈ map path_raw out <-> raw ∈ raws /\ raw ∉ seen.
Proof.
  revert seen out. induction raws as [|raw raws IH]; intros seen out; simpl.
  - intros [= <-]. split; [constructor|]. intros r. simpl. rewrite !elem_of_nil. tauto.
  - case_decide as Hseen.
    + intros H. apply IH in H as [H1 H2]. split; [done|]. intros r. rewrite H2, elem_of_cons. naive_solver.
    + destruct (parseRedactionPath raw) as [path|] eqn:Hp; [|done].
      destruct (compile_loop (raw :: seen) raws) as [paths|] eqn:Hc; [|done].
      intros [= <-]. apply IH in Hc as [H1 H2].
      destruct (parseRedactionPath_nonempty _ _ Hp) as [_ Hraw]. split.
      * constructor; [by rewrite Hraw|done].
      * intros r. simpl. rewrite elem_of_cons, H2, Hraw, !elem_of_cons.
        destruct (decide (r = raw)); naive_solver.
Qed.

Lemma CompileRedaction_ok raws p :
  CompileRedaction raws = Ok p ->
  policy_ok p /\ forall raw, raw ∈ map path_raw (policy_paths p) <-> raw ∈ raws ++ builtinPaths.
Proof.
  unfold CompileRedaction. destruct (compile_loop [] _) as [c|] eqn:Hc; [|done].
  intros [= <-]. apply compile_loop_spec in Hc as [H1 H2]. split.
  - unfold policy_ok. simpl. by rewrite merge_sort_Permutation.
  - intros raw. simpl. rewrite merge_sort_Permutation, H2, elem_of_nil. tauto.
Qed.

Lemma builtin_compiles : CompileRedaction [] = Ok builtinRedaction.
Proof. reflexivity. Qed.

Lemma default_policy_ok p :
  (forall q, p = Some q -> policy_ok q) -> policy_ok (default builtinRedaction p).
Proof.
  destruct p as [q|]; intros H; [by apply H|]. by apply (CompileRedaction_ok [] builtinRedaction).
Qed.

(** The segment lists of a policy. *)
Definition segments_of (p : option RedactionPolicy) : list (list redactionSegment) :=
  map path_segments (policy_paths (default builtinRedaction p)).

Lemma apply_paths_spec paths m :
  Forall (fun q => path_segments q <> []) paths ->
  exists out, apply_paths paths m = Ok out /\
    JObj out = redact_all (map path_segments paths) (JObj m).
Proof.
  intros HF. revert m. induction HF as [|p paths Hp HF IH]; intros m; simpl; [eauto|].
  destruct (redactValue_spec (path_segments p) (JObj m)) as [H1 H2].
  change (redact_all (path_segments p :: map path_segments paths) (JObj m)) with
    (redact_all (map path_segments paths) (redact (path_segments p) (JObj m))).
  destruct (redactValue (JObj m) (path_segments p)) as [next ch]. simpl in *.
  destruct (path_segments p) as [|s rest]; [done|].
  destruct (redact_obj s rest m) as [m' Hm']. rewrite Hm' in *. subst next.
  destruct ch; [apply IH|]. injection H2 as ->. apply IH.
Qed.

Lemma Apply_redact_all p m :
  (forall q, p = Some q -> policy_ok q) ->
  exists out, Apply p m = Ok out /\ JObj out = redact_all (segments_of p) (JObj m).
Proof.
  intros Hok. apply apply_paths_spec.
  eapply Forall_impl; [apply default_policy_ok, Hok|].
  intros q Hq. by apply parseRedactionPath_nonempty in Hq as [? _].
Qed.

(** Values a policy path reaches do not influence the redacted object. *)
Lemma Apply_rewrite_at p path f m m' :
  (forall q, p = Some q -> policy_ok q) ->
  path ∈ policy_paths (default builtinRedaction p) ->
  rewrite_at (path_segments path) f (JObj m) = JObj m' ->
  Apply p m' = Apply p m.
Proof.
  intros Hok Hin Hr.
  destruct (Apply_redact_all p m Hok) as [o1 [-> E1]].
  destruct (Apply_redact_all p m' Hok) as [o2 [-> E2]].
  assert (Hs : path_segments path ∈ segments_of p) by (apply list_elem_of_fmap; by exists path).
  rewrite (redact_all_elem _ _ _ Hs) in E1. rewrite (redact_all_elem _ _ _ Hs) in E2.
  rewrite <- Hr, redact_rewrite_at, <- E1 in E2. congruence.
Qed.

(** What a policy path reaches in the redacted object is the sentinel. *)
Lemma Apply_reached p m out raw path x :
  policy_ok p -> raw ∈ map path_raw (policy_paths p) -> parseRedactionPath raw = Ok path ->
  Apply (Some p) m = Ok out -> x ∈ reached (path_segments path) (JObj out) -> x = sentinel.
Proof.
  intros Hok Hraw Hpath Happ Hx.
  destruct (Apply_redact_all (Some p) m) as [out' [E1 E2]]; [by intros q [= <-]|].
  rewrite E1 in Happ. injection Happ as ->.
  assert (Hin : path_segments path ∈ segments_of (Some p)).
  { apply list_elem_of_fmap in Hraw as [q [-> Hq]]. unfold policy_ok in Hok.
    rewrite Forall_forall in Hok. rewrite (Hok q Hq) in Hpath. injection Hpath as <-.
    apply list_elem_of_fmap. by exists q. }
  rewrite E2, (redact_all_elem _ _ _ Hin), redact_all_comm in Hx.
  by apply reached_redact in Hx.
Qed.

(** ** Lemmas: merging *)

(** A policy [CompileRedaction] returns. *)
Definition compiled (p : RedactionPolicy) : Prop := exists raws, CompileRedaction raws = Ok p.

Lemma compiled_ok p : compiled p -> policy_ok p.
Proof. intros [raws H]. by apply CompileRedaction_ok in H as [? _]. Qed.

Lemma compiled_builtin p raw :
  compiled p -> raw ∈ builtinPaths -> raw ∈ map path_raw (policy_paths p).
Proof.
  intros [raws H] Hraw. apply CompileRedaction_ok in H as [_ H]. apply H.
  apply elem_of_app. by right.
Qed.

Definition all_paths (policies : list (option RedactionPolicy)) : list redactionPath :=
  mjoin ((fun p => match p with Some q => policy_paths q | None => [] end) <$> policies).

Lemma elem_of_all_paths policies q :
  q ∈ all_paths policies <-> exists p, Some p ∈ policies /\ q ∈ policy_paths p.
Proof.
  unfold all_paths. rewrite list_elem_of_join. split.
  - intros [l [Hq Hl]]. apply list_elem_of_fmap in Hl as [[p|] [-> Hp]].
    + eauto.
    + by apply elem_of_nil in Hq.
  - intros [p [Hp Hq]]. exists (policy_paths p). split; [done|].
    apply list_elem_of_fmap. by exists (Some p).
Qed.

(** Equal raw texts are equal paths, when both are what their text parses to. *)
Lemma parsed_inj (q1 q2 : redactionPath) :
  parseRedactionPath (path_raw q1) = Ok q1 -> parseRedactionPath (path_raw q2) = Ok q2 ->
  path_raw q1 = path_raw q2 -> q1 = q2.
Proof. intros H1 H2 E. rewrite E in H1. congruence. Qed.

Lemma elem_of_merged paths q :
  Forall (fun q => parseRedactionPath (path_raw q) = Ok q) paths ->
  q ∈ merge_sort path_le (dedup_by path_raw [] paths) <-> q ∈ paths.
Proof.
  intros HF. rewrite Forall_forall in HF. rewrite merge_sort_Permutation. split.
  - intros H. by apply elem_of_dedup_by in H as [? _].
  - intros H. destruct (dedup_by_complete path_raw [] paths q H (not_elem_of_nil _)) as [y [Hy E]].
    assert (y = q) as ->; [|done].
    apply parsed_inj; [|by apply HF|done]. apply HF. by apply elem_of_dedup_by in Hy as [? _].
Qed.

Lemma MergeRedaction_elem policies :
  (forall p, Some p ∈ policies -> policy_ok p) ->
  match MergeRedaction policies with
  | Some m => policy_ok m /\ forall q, q ∈ policy_paths m <-> q ∈ all_paths policies
  | None => all_paths policies = []
  end.
Proof.
  intros Hok.
  assert (HF : Forall (fun q => parseRedactionPath (path_raw q) = Ok q) (all_paths policies)).
  { apply Forall_forall. intros q Hq. apply elem_of_all_paths in Hq as [p [Hp Hq]].
    specialize (Hok p Hp). unfold policy_ok in Hok. rewrite Forall_forall in Hok. by apply Hok. }
  unfold MergeRedaction. fold (all_paths policies).
  destruct (dedup_by path_raw [] (all_paths policies)) as [|x l] eqn:Hd.
  - destruct (all_paths policies) as [|y l] eqn:Ha; [done|].
    destruct (dedup_by_complete path_raw [] (y :: l) y) as [z [Hz _]]; [by left|by apply not_elem_of_nil|].
    rewrite Hd in Hz. by apply elem_of_nil in Hz.
  - rewrite <- Hd. split.
    + apply Forall_forall. intros q Hq. simpl in Hq. rewrite elem_of_merged in Hq by done.
      rewrite Forall_forall in HF. by apply HF.
    + intros q. by apply elem_of_merged.
Qed.

(** Apply policies one after another. *)
Definition apply_each (ps : list RedactionPolicy) (m : object) : result object :=
  foldl (fun r p => match r with Ok m => Apply (Some p) m | Err e => Err e end) (Ok m) ps.

Lemma apply_each_spec ps m :
  Forall policy_ok ps ->
  exists out, apply_each ps m = Ok out /\
    JObj out = redact_all (map path_segments (all_paths (Some <$> ps))) (JObj m).
Proof.
  intros HF. revert m. unfold apply_each, all_paths.
  induction HF as [|p ps Hp HF IH]; intros m; simpl; [eauto|].
  destruct (Apply_redact_all (Some p) m) as [m' [E1 E2]]; [by intros q [= <-]|].
  rewrite E1, map_app, redact_all_app. unfold segments_of in E2. simpl in E2.
  rewrite <- E2. apply IH.
Qed.

Lemma all_paths_omap policies :
  all_paths (Some <$> omap id policies) = all_paths policies.
Proof.
  unfold all_paths. induction policies as [|[p|] ps IH]; simpl; [done| |done]. f_equal. apply IH.
Qed.

(** ** Lemmas: quoting *)

(** Text [strconv.Quote] handles byte by byte: below 0x80. *)
Definition ascii_text (s : string) : bool :=
  string_forall (fun a => Nat.ltb (Ascii.nat_of_ascii a) 128) s.

Definition byte_all (f : Ascii.ascii -> bool) : bool :=
  forallb (fun n => f (Ascii.ascii_of_nat n)) (seq 0 256).

Lemma byte_all_spec f : byte_all f = true -> forall a, f a = true.
Proof.
  intros H a. unfold byte_all in H. rewrite forallb_forall in H.
  rewrite <- (Ascii.ascii_nat_embedding a). apply H. apply in_seq.
  pose proof (Ascii.nat_ascii_bounded a). lia.
Qed.

(** What a quoted byte looks like: itself when plain, and otherwise a backslash
    and an escape that [unescape] reads back. *)
Definition quoted_ok (a : Ascii.ascii) : bool :=
  match quote_byte a with
  | String b EmptyString =>
      Ascii.eqb a b && negb (Ascii.eqb a dquote) && negb (Ascii.eqb a "\"%char)
        && negb (Nat.eqb (Ascii.nat_of_ascii a) 10)
  | String b _ => Ascii.eqb b "\"%char && negb (Ascii.eqb b dquote)
  | EmptyString => false
  end.

Lemma quoted_bytes a : quoted_ok a = true.
Proof. apply (byte_all_spec quoted_ok). vm_compute. reflexivity. Qed.

Lemma unescape_quoted a e rest :
  quote_byte a = String "\"%char e -> e <> "" -> unescape (e +:+ rest) = Some (String a "", rest).
Proof.
  intros E He. destruct a as [[] [] [] [] [] [] [] []]; vm_compute in E;
    first [discriminate E | injection E as <-; (reflexivity || congruence)].
Qed.

Lemma unquote_body_quoted s fuel :
  (String.length (quote_body s) < fuel)%nat ->
  unquote_body fuel (quote_body s +:+ String dquote "") = Some s.
Proof.
  revert fuel. induction s as [|a s IH]; intros [|fuel] Hf; simpl in Hf; try lia; [done|].
  simpl. rewrite string_length_app in Hf. pose proof (quoted_bytes a) as Hq. unfold quoted_ok in Hq.
  destruct (quote_byte a) as [|b [|c e]] eqn:Ea; [done| |].
  - bools. subst b. simpl in *.
    repeat match goal with H : a <> _ |- _ => apply Ascii.eqb_neq in H; rewrite H; clear H end.
    match goal with H : (_ =? 10)%nat = false |- _ => rewrite H end.
    by rewrite IH by lia.
  - bools. subst b. simpl in Hf. rewrite string_app_assoc. simpl.
    pose proof (unescape_quoted a _ (quote_body s +:+ String dquote "") Ea ltac:(done)) as Hu.
    simpl in Hu. rewrite Hu. simpl.
    by rewrite IH by lia.
Qed.

Lemma Unquote_Quote s : Unquote (Quote s) = Some s.
Proof.
  unfold Unquote, Quote. rewrite Ascii.eqb_refl. apply unquote_body_quoted.
  simpl. rewrite string_length_app. simpl. lia.
Qed.

Lemma quote_body_no_bracket s : has_char "]"%char s = false -> has_char "]"%char (quote_body s) = false.
Proof.
  assert (Hb : forall a, (Ascii.eqb a "]"%char || negb (has_char "]"%char (quote_byte a))) = true).
  { apply byte_all_spec. vm_compute. reflexivity. }
  induction s as [|a s IH]; simpl; [done|]. intros H. bools.
  rewrite has_char_app, IH, orb_false_r by done.
  specialize (Hb a). rewrite (proj2 (Ascii.eqb_neq _ _)) in Hb by done. simpl in Hb. by bools.
Qed.

(** ** Lemmas: the path grammar

    The grammar the parser accepts, as a syntax tree with its printer. *)

Inductive subscript := NoSubscript | Wildcard | QuotedKey (key : string).

Definition pathElem : Type := string * subscript.

Definition print_elem (e : pathElem) : string :=
  e.1 +:+ match e.2 with
          | NoSubscript => ""
          | Wildcard => "[*]"
          | QuotedKey key => "[" +:+ Quote key +:+ "]"
          end.

Definition print_path (es : list pathElem) : string := join "." (map print_elem es).

Definition elem_segments (e : pathElem) : list redactionSegment :=
  match e.2 with
  | NoSubscript => [mkSegment e.1 false]
  | Wildcard => [mkSegment e.1 true]
  | QuotedKey key => [mkSegment e.1 false; mkSegment key false]
  end.

Definition wf_elem (e : pathElem) : Prop :=
  segment_pattern e.1 = true /\
  match e.2 with QuotedKey key => key <> "" /\ has_char "]"%char key = false | _ => True end.

(** What may follow a name. *)
Definition stops (r : string) : bool :=
  match r with
  | EmptyString => true
  | String a _ => Ascii.eqb a "."%char || Ascii.eqb a "["%char
  end.

Lemma seg_char_plain a :
  seg_start a || seg_char a = true -> Ascii.eqb a "."%char || Ascii.eqb a "["%char = false.
Proof.
  assert (H : forall a, implb (seg_start a || seg_char a)
                          (negb (Ascii.eqb a "."%char || Ascii.eqb a "["%char)) = true).
  { apply byte_all_spec. vm_compute. reflexivity. }
  intros Ha. specialize (H a). rewrite Ha in H. simpl in H. by apply negb_true_iff in H.
Qed.

Lemma string_forall_has f c s : f c = false -> string_forall f s = true -> has_char c s = false.
Proof.
  intros Hf. induction s as [|a s IH]; simpl; [done|]. intros Ha. bools.
  destruct (Ascii.eqb_spec a c) as [->|Hne]; [congruence|]. simpl. by apply IH.
Qed.

Lemma cut_name_spec name r :
  segment_pattern name = true -> stops r = true -> cut_name (name +:+ r) = (name, r).
Proof.
  assert (Haux : forall n, string_forall seg_char n = true -> stops r = true ->
            cut_name (n +:+ r) = (n, r)).
  { induction n as [|a n IH]; simpl; intros Hn Hr.
    - destruct r as [|a r]; [done|]. simpl in *. by rewrite Hr.
    - apply andb_true_iff in Hn as [Ha Hn].
      rewrite seg_char_plain by (by rewrite Ha, orb_true_r). by rewrite IH. }
  destruct name as [|a n]; [done|]. simpl. intros H Hr. apply andb_true_iff in H as [Ha Hn].
  rewrite seg_char_plain by (by rewrite Ha). by rewrite Haux.
Qed.

Lemma substring_all s n : (String.length s <= n)%nat -> String.substring 0 n s = s.
Proof.
  revert n. induction s as [|a s IH]; intros [|n] Hn; simpl in *; try lia; try done.
  by rewrite IH by lia.
Qed.

Definition dotted (r : string) : bool :=
  match r with EmptyString => true | String a _ => Ascii.eqb a "."%char end.

Lemma parse_step_print e tail :
  wf_elem e -> dotted tail = true ->
  parse_step (print_elem e +:+ tail) = Ok (elem_segments e, tail).
Proof.
  destruct e as [name sub]. intros [Hn Hk] Ht. simpl in *.
  unfold parse_step, parseSegmentName, print_elem. simpl. rewrite string_app_assoc.
  destruct sub as [| |key].
  - simpl. rewrite cut_name_spec, Hn by (done || by destruct tail; simpl in *; rewrite ?Ht).
    destruct tail as [|a tail]; [done|]. simpl in Ht. bools. by subst a.
  - rewrite cut_name_spec, Hn by done. by destruct tail.
  - destruct Hk as [Hne Hb]. rewrite cut_name_spec, Hn by done.
    assert (Hq : cut_char "]"%char (("[" +:+ Quote key +:+ "]") +:+ tail)
                 = Some ("[" +:+ Quote key, tail)).
    { replace (("[" +:+ Quote key +:+ "]") +:+ tail)
        with (("[" +:+ Quote key) +:+ String "]"%char tail) by (app_norm; done).
      apply cut_char_spec. unfold Quote. simpl. rewrite has_char_app.
      by rewrite quote_body_no_bracket. }
    match goal with |- context [cut_char "]"%char ?s] =>
      change (cut_char "]"%char s) with
        (cut_char "]"%char (("[" +:+ Quote key +:+ "]") +:+ tail)) end.
    rewrite Hq. cbn [has_prefix String.prefix String.append].
    change (String.substring 1 ?n (String "["%char ?s)) with (String.substring 0 n s).
    rewrite substring_all by (simpl; lia).
    rewrite Unquote_Quote. simpl. rewrite (proj2 (String.eqb_neq _ _) Hne).
    by destruct (quote_body key +:+ _).
Qed.

Lemma parse_loop_print es fuel segments :
  es <> [] -> Forall wf_elem es -> (String.length (print_path es) <= fuel)%nat ->
  parse_loop fuel segments (print_path es) = Ok (segments ++ mjoin (map elem_segments es)).
Proof.
  revert fuel segments. induction es as [|e es IH]; [done|]. intros fuel segments _ HF Hl.
  inversion HF as [|? ? He HF']; subst.
  assert (Hpos : forall e', wf_elem e' -> exists a s, print_elem e' = String a s).
  { intros [[|a n] sub] [Hp _]; [done|]. unfold print_elem. simpl. eauto. }
  destruct (Hpos e He) as [a [s Ha]].
  assert (exists f, fuel = S f) as [f ->].
  { destruct fuel as [|f]; [|eauto]. unfold print_path in Hl. simpl in Hl. rewrite Ha in Hl.
    destruct (map print_elem es); simpl in Hl; lia. }
  destruct es as [|e' es].
  - unfold print_path in *. simpl in *. rewrite <- (string_app_nil_r (print_elem e)).
    rewrite parse_step_print by done. by rewrite app_nil_r.
  - change (print_path (e :: e' :: es)) with
      (print_elem e +:+ String "."%char (print_path (e' :: es))) in *.
    cbn [parse_loop]. rewrite parse_step_print by done. rewrite Ascii.eqb_refl.
    destruct (Hpos e') as [a' [s' Ha']]; [by inversion HF'|].
    assert (String.eqb (print_path (e' :: es)) "" = false) as ->.
    { unfold print_path. simpl. rewrite Ha'. by destruct (map print_elem es). }
    rewrite IH; [|done|done|].
    + by rewrite <- app_assoc.
    + rewrite string_length_app, Ha in Hl. simpl in Hl. lia.
Qed.

(** ** Properties *)

Definition policy_of (raws : list string) : RedactionPolicy :=
  match CompileRedaction raws with Ok p => p | Err _ => builtinRedaction end.

Definition sample_obj : object :=
  {[ "spec" := JObj {[ "env" := JArr [JObj {[ "value" := JStr "hunter2" ]};
                                      JObj {[ "value" := JStr "swordfish" ]}] ]};
     "kind" := JStr "Pod" ]}.

(** [RedactionPolicy.Apply] never panics on a compiled policy (or on nil,
    which means the built-in policy), and its copy-on-write walk computes exactly
    the reference redaction of every path of the policy. *)
Lemma Apply_correct (p : option RedactionPolicy) (m : object) :
  (forall q, p = Some q -> compiled q) ->
  exists out, Apply p m = Ok out /\ JObj out = redact_all (segments_of p) (JObj m).
Proof. intros H. apply Apply_redact_all. intros q Hq. by apply compiled_ok, H. Qed.

Lemma Apply_correct_witness :
  exists out, Apply (Some (policy_of ["spec.env[*].value"])) sample_obj = Ok out /\
    JObj out = redact_all (segments_of (Some (policy_of ["spec.env[*].value"]))) (JObj sample_obj).
Proof.
  apply Apply_correct. intros q [= <-]. exists ["spec.env[*].value"]. vm_compute. reflexivity.
Defined.

(** No leak: after [Apply], everything a requested path or the built-in
    last-applied-configuration path reaches is the sentinel, whatever the other
    paths of the policy are. *)
Lemma Apply_no_leak (raws : list string) (p : RedactionPolicy) (m out : object)
    (raw : string) (path : redactionPath) (x : json) :
  CompileRedaction raws = Ok p ->
  raw ∈ raws ++ builtinPaths -> parseRedactionPath raw = Ok path ->
  Apply (Some p) m = Ok out ->
  x ∈ reached (path_segments path) (JObj out) -> x = sentinel.
Proof.
  intros Hc Hraw Hpath Happ. apply CompileRedaction_ok in Hc as [Hok Hpaths].
  apply (Apply_reached p m out raw path x Hok); [by apply Hpaths|done..].
Qed.

Definition applied (r : result object) : object := match r with Ok m => m | Err _ => ∅ end.

Definition value_path : redactionPath :=
  mkPath "spec.env[*].value"
    [mkSegment "spec" false; mkSegment "env" true; mkSegment "value" false].

Lemma Apply_no_leak_witness :
  hd JNull (reached (path_segments value_path)
    (JObj (applied (Apply (Some (policy_of ["spec.env[*].value"])) sample_obj)))) = sentinel.
Proof.
  apply (Apply_no_leak ["spec.env[*].value"] (policy_of ["spec.env[*].value"]) sample_obj
    (applied (Apply (Some (policy_of ["spec.env[*].value"])) sample_obj)) "spec.env[*].value"
    value_path).
  - vm_compute. reflexivity.
  - by left.
  - vm_compute. reflexivity.
  - vm_compute. reflexivity.
  - vm_compute. by left.
Defined.

(** Non-interference: rewriting the values a policy path reaches, however
    they are rewritten, cannot be observed in the redacted object. *)
Lemma Apply_noninterference (p : option RedactionPolicy) (path : redactionPath)
    (f : json -> json) (m m' : object) :
  (forall q, p = Some q -> compiled q) ->
  path ∈ policy_paths (default builtinRedaction p) ->
  rewrite_at (path_segments path) f (JObj m) = JObj m' ->
  Apply p m' = Apply p m.
Proof. intros Hc. apply Apply_rewrite_at. intros q Hq. by apply compiled_ok, Hc. Qed.

Definition last_applied : object :=
  {[ "metadata" := JObj {[ "annotations" :=
       JObj {[ LastAppliedConfigAnnotation := JStr "password=1" ]} ]} ]}.
Definition last_applied' : object :=
  {[ "metadata" := JObj {[ "annotations" :=
       JObj {[ LastAppliedConfigAnnotation := JNull ]} ]} ]}.

Lemma Apply_noninterference_witness : Apply None last_applied' = Apply None last_applied.
Proof.
  apply (Apply_noninterference None
    (mkPath (AnnotationRedactionPath LastAppliedConfigAnnotation)
      [mkSegment "metadata" false; mkSegment "annotations" false;
       mkSegment LastAppliedConfigAnnotation false]) (fun _ => JNull)).
  - done.
  - vm_compute. by left.
  - vm_compute. reflexivity.
Defined.

(** [MergeRedaction] is the union of its policies: applying the merged
    policy is applying the non-nil ones one after another, so the order in which
    rules are merged does not matter, and merging only nils leaves the built-in
    policy. *)
Lemma MergeRedaction_composes (policies : list (option RedactionPolicy)) (m : object) :
  (forall p, Some p ∈ policies -> compiled p) ->
  Apply (MergeRedaction policies) m =
    match omap id policies with
    | [] => Apply None m
    | ps => apply_each ps m
    end.
Proof.
  intros Hc.
  assert (Hok : forall p, Some p ∈ policies -> policy_ok p) by (intros; by apply compiled_ok, Hc).
  pose proof (MergeRedaction_elem policies Hok) as HM.
  assert (Hsome : forall p, p ∈ omap id policies -> Some p ∈ policies).
  { intros p Hp. apply list_elem_of_omap in Hp as [x [Hx E]]. by rewrite <- E. }
  destruct (omap id policies) as [|p0 ps] eqn:Eps.
  - assert (all_paths policies = []) as Hnil by (by rewrite <- all_paths_omap, Eps).
    destruct (MergeRedaction policies) as [mp|] eqn:EM; [|done]. exfalso.
    unfold MergeRedaction in EM. fold (all_paths policies) in EM. by rewrite Hnil in EM.
  - destruct (apply_each_spec (p0 :: ps) m) as [o1 [-> E1]].
    { apply Forall_forall. intros p Hp. by apply Hok, Hsome. }
    rewrite <- Eps, all_paths_omap in E1.
    destruct (MergeRedaction policies) as [mp|].
    + destruct HM as [Hmp Hel].
      destruct (Apply_redact_all (Some mp) m) as [o2 [-> E2]]; [by intros q [= <-]|].
      rewrite (redact_all_ext _ (map path_segments (all_paths policies))), <- E1 in E2; [congruence|].
      intros s. unfold segments_of. simpl. rewrite !list_elem_of_fmap.
      split; intros [q [-> Hq]]; exists q; (split; [done|]); by apply Hel.
    + exfalso. assert (Hp0 : Some p0 ∈ policies) by (apply Hsome; by left).
      destruct (list_elem_of_fmap path_raw (policy_paths p0) (AnnotationRedactionPath LastAppliedConfigAnnotation))
        as [Hf _]. destruct Hf as [q [_ Hq]]; [apply (compiled_builtin p0); [by apply Hc|by left]|].
      assert (q ∈ all_paths policies) as Hin by (apply elem_of_all_paths; eauto).
      rewrite HM in Hin. by apply elem_of_nil in Hin.
Qed.

Lemma MergeRedaction_composes_witness :
  Apply (MergeRedaction [None; Some (policy_of ["spec.env[*].value"]); Some (policy_of ["kind"])])
    sample_obj =
  apply_each [policy_of ["spec.env[*].value"]; policy_of ["kind"]] sample_obj.
Proof.
  apply (MergeRedaction_composes
    [None; Some (policy_of ["spec.env[*].value"]); Some (policy_of ["kind"])]).
  intros p Hp. repeat (apply elem_of_cons in Hp as [Hp|Hp]); [done| | |by apply elem_of_nil in Hp].
  - injection Hp as ->. exists ["spec.env[*].value"]. vm_compute. reflexivity.
  - injection Hp as ->. exists ["kind"]. vm_compute. reflexivity.
Defined.

(** Parsing inverts printing: for every path built from valid field names,
    wildcards and non-empty quoted keys without a closing bracket (so, every
    annotation key), [parseRedactionPath] returns exactly its segments. *)
Lemma parse_print_path (es : list pathElem) :
  es <> [] -> Forall wf_elem es ->
  parseRedactionPath (print_path es) = Ok (mkPath (print_path es) (mjoin (map elem_segments es))).
Proof.
  intros Hne HF. unfold parseRedactionPath. rewrite parse_loop_print by done. simpl.
  destruct (String.eqb (print_path es) "") eqn:E; [|done]. bools. exfalso.
  destruct es as [|[[|a n] sub] es]; [done| |].
  - inversion HF as [|? ? [H _]]; done.
  - unfold print_path in E. simpl in E. by destruct (map print_elem es).
Qed.

Lemma parse_print_path_witness :
  parseRedactionPath (AnnotationRedactionPath "example.com/token") =
  Ok (mkPath (AnnotationRedactionPath "example.com/token")
    [mkSegment "metadata" false; mkSegment "annotations" false; mkSegment "example.com/token" false]).
Proof.
  apply (parse_print_path [("metadata", NoSubscript); ("annotations", QuotedKey "example.com/token")]).
  - done.
  - repeat constructor; vm_compute; done.
Defined.

(** The parser terminates: every turn of its loop consumes a byte, so the
    loop bound never decides the result. *)
Lemma parseRedactionPath_terminates (raw : string) : parseRedactionPath raw <> Err errFuel.
Proof.
  unfold parseRedactionPath. destruct (String.eqb raw "") eqn:E.
  - intros H. by apply (f_equal (fun r : result redactionPath => match r with Err e => String.length e | _ => O end)) in H.
  - bools. pose proof (parse_loop_fuel (String.length raw) [] raw (le_n _) E) as H.
    destruct (parse_loop _ _ raw); congruence.
Qed.
