(* ===== verification/JsonText.v ===== *)
(** * JsonText: reading JSON documents

    The rows of the sink carry documents and patches as JSON texts; what a text
    says is the value it reads as. [Unmarshal] is the reader: the JSON grammar,
    without insignificant white space (none of the texts here has any) and with
    numbers kept as they are written. [wf_json] are the values that have a text at
    all, and on them reading is the inverse of [Marshal] ([Unmarshal_Marshal]); what
    is read is such a value again ([Unmarshal_wf]).

    Reading is by fuel: between two nested calls at least one byte is read, so two
    units per byte of the text are enough. *)

From Stdlib Require Import ZArith Lia.
From stdpp Require Import base gmap strings list.
From S2P Require Import Prelude Json Redact.

(** ** Tokens *)

(** What follows [p], when the text starts with it. *)
Fixpoint after (p s : string) : option string :=
  match p, s with
  | EmptyString, _ => Some s
  | String a p', String b s' => if Ascii.eqb a b then after p' s' else None
  | String _ _, EmptyString => None
  end.

(** The body of a string, up to the quote that ends it. *)
Fixpoint read_string (s : string) : option (string * string) :=
  match s with
  | EmptyString => None
  | String a r =>
      if Ascii.eqb a dquote then Some ("", r)
      else if Ascii.eqb a "\"%char then
        match r with
        | EmptyString => None
        | String e r1 =>
            if Ascii.eqb e "u"%char then
              match r1 with
              | String h1 (String h2 (String h3 (String h4 r2))) =>
                  match take_hex 4 0 (String h1 (String h2 (String h3 (String h4 "")))) with
                  | Some (code, _) =>
                      match utf8 code, read_string r2 with
                      | Some u, Some (t, r') => Some (u +:+ t, r')
                      | _, _ => None
                      end
                  | None => None
                  end
              | _ => None
              end
            else
              match (match Ascii.nat_of_ascii e with
                     | 34 | 92 | 47 => Some e
                     | 98 => Some (Ascii.ascii_of_nat 8) | 102 => Some (Ascii.ascii_of_nat 12)
                     | 110 => Some (Ascii.ascii_of_nat 10) | 114 => Some (Ascii.ascii_of_nat 13)
                     | 116 => Some (Ascii.ascii_of_nat 9)
                     | _ => None
                     end), read_string r1 with
              | Some b, Some (t, r') => Some (String b t, r')
              | _, _ => None
              end
        end
      else if Nat.ltb (Ascii.nat_of_ascii a) 32 then None
      else match read_string r with Some (t, r') => Some (String a t, r') | None => None end
  end.

Fixpoint skip_digits (s : string) : string :=
  match s with
  | String a r => if is_digit a then skip_digits r else s
  | EmptyString => s
  end.

Definition some_digits (s : string) : option string :=
  match s with
  | String a r => if is_digit a then Some (skip_digits r) else None
  | EmptyString => None
  end.

Definition skip_char (p : Ascii.ascii -> bool) (s : string) : string :=
  match s with
  | String a r => if p a then r else s
  | EmptyString => s
  end.

Definition num_char (a : Ascii.ascii) : bool :=
  is_digit a || Ascii.eqb a "-"%char || Ascii.eqb a "+"%char || Ascii.eqb a "."%char ||
  Ascii.eqb a "e"%char || Ascii.eqb a "E"%char.

Definition integer_part (s : string) : option string :=
  match s with
  | String a r => if Ascii.eqb a "0"%char then Some r else some_digits s
  | EmptyString => None
  end.

Definition fraction_part (s : string) : option string :=
  match s with
  | String a r => if Ascii.eqb a "."%char then some_digits r else Some s
  | EmptyString => Some s
  end.

Definition exponent_part (s : string) : option string :=
  match s with
  | String a r =>
      if Ascii.eqb a "e"%char || Ascii.eqb a "E"%char
      then some_digits (skip_char (fun b => Ascii.eqb b "+"%char || Ascii.eqb b "-"%char) r)
      else Some s
  | EmptyString => Some s
  end.

(** The grammar of numbers. *)
Definition number_text (s : string) : bool :=
  string_forall num_char s &&
  match integer_part (skip_char (fun a => Ascii.eqb a "-"%char) s) with
  | Some s1 =>
      match fraction_part s1 with
      | Some s2 => match exponent_part s2 with Some s3 => String.eqb s3 "" | None => false end
      | None => false
      end
  | None => false
  end.

Fixpoint span_num (s : string) : string * string :=
  match s with
  | String a r => if num_char a then let '(t, r') := span_num r in (String a t, r') else ("", s)
  | EmptyString => ("", "")
  end.

Definition read_number_token (s : string) : option (json * string) :=
  let '(t, r) := span_num s in if number_text t then Some (JNum t, r) else None.

(** [null], [true], [false] or a number. *)
Definition read_scalar (s : string) : option (json * string) :=
  match after "null" s with
  | Some r => Some (JNull, r)
  | None =>
      match after "true" s with
      | Some r => Some (JBool true, r)
      | None =>
          match after "false" s with
          | Some r => Some (JBool false, r)
          | None => read_number_token s
          end
      end
  end.

(** ** Values *)

(** A key that comes twice keeps the value that comes last. *)
Definition object_of (ms : list (string * json)) : json := JObj (list_to_map (reverse ms)).

Definition closes_with (c : Ascii.ascii) (s : string) : option string := after (String c "") s.

Fixpoint read_value (fuel : nat) (s : string) : option (json * string) :=
  match fuel with
  | O => None
  | S n =>
      match s with
      | EmptyString => None
      | String a r =>
          if Ascii.eqb a "{"%char then
            match closes_with "}"%char r with
            | Some r' => Some (JObj ∅, r')
            | None => match read_members n r with Some (ms, r') => Some (object_of ms, r') | None => None end
            end
          else if Ascii.eqb a "["%char then
            match closes_with "]"%char r with
            | Some r' => Some (JArr [], r')
            | None => match read_items n r with Some (vs, r') => Some (JArr vs, r') | None => None end
            end
          else if Ascii.eqb a dquote then
            match read_string r with Some (t, r') => Some (JStr t, r') | None => None end
          else read_scalar s
      end
  end
with read_items (fuel : nat) (s : string) : option (list json * string) :=
  match fuel with
  | O => None
  | S n =>
      match read_value n s with
      | None => None
      | Some (v, r) =>
          match closes_with "]"%char r with
          | Some r' => Some ([v], r')
          | None =>
              match closes_with ","%char r with
              | Some r' => match read_items n r' with Some (vs, r'') => Some (v :: vs, r'') | None => None end
              | None => None
              end
          end
      end
  end
with read_members (fuel : nat) (s : string) : option (list (string * json) * string) :=
  match fuel with
  | O => None
  | S n =>
      match closes_with dquote s with
      | None => None
      | Some r0 =>
          match read_string r0 with
          | None => None
          | Some (k, r1) =>
              match closes_with ":"%char r1 with
              | None => None
              | Some r2 =>
                  match read_value n r2 with
                  | None => None
                  | Some (v, r) =>
                      match closes_with "}"%char r with
                      | Some r' => Some ([(k, v)], r')
                      | None =>
                          match closes_with ","%char r with
                          | Some r' =>
                              match read_members n r' with Some (ms, r'') => Some ((k, v) :: ms, r'') | None => None end
                          | None => None
                          end
                      end
                  end
              end
          end
      end
  end.

(** The value a text reads as, when it is one JSON value and nothing else. *)
Definition Unmarshal (s : string) : option json :=
  match read_value (S (2 * String.length s)) s with
  | Some (v, EmptyString) => Some v
  | _ => None
  end.

(** ** Values with a text *)

Fixpoint wf_json (v : json) : bool :=
  match v with
  | JNum text => number_text text
  | JArr items => forallb wf_json items
  | JObj fields => bool_decide (map_Forall (fun _ b => b = true) (wf_json <$> fields))
  | JOther _ => false
  | _ => true
  end.

Lemma wf_obj m : wf_json (JObj m) = true <-> map_Forall (fun _ v => wf_json v = true) m.
Proof.
  cbn [wf_json]. rewrite bool_decide_eq_true. split.
  - intros H k v Hv. apply (H k). by rewrite lookup_fmap, Hv.
  - intros H k b. rewrite lookup_fmap, fmap_Some. intros (v & Hv & ->). by apply (H k).
Qed.

Lemma wf_arr items : wf_json (JArr items) = true <-> Forall (fun v => wf_json v = true) items.
Proof. cbn [wf_json]. rewrite forallb_forall, Forall_forall. by setoid_rewrite list_elem_of_In. Qed.

(** ** Induction on values *)

Fixpoint json_size (v : json) : nat :=
  match v with
  | JArr items => S (sum_list (map json_size items))
  | JObj fields => S (sum_list (map snd (map_to_list (json_size <$> fields))))
  | _ => 1
  end.

Lemma sum_list_elem (l : list nat) n : n ∈ l -> n <= sum_list l.
Proof. induction l as [|m l IH]; intros H; [by apply elem_of_nil in H|]. apply elem_of_cons in H as [->|H]; simpl; [lia|apply IH in H; lia]. Qed.

Lemma json_nested_ind (P : json -> Prop) :
  P JNull -> (forall b, P (JBool b)) -> (forall t, P (JNum t)) -> (forall s, P (JStr s)) ->
  (forall items, Forall P items -> P (JArr items)) -> (forall m, map_Forall (fun _ => P) m -> P (JObj m)) ->
  (forall t, P (JOther t)) -> forall v, P v.
Proof.
  intros Hnull Hbool Hnum Hstr Harr Hobj Hother v.
  induction v as [v IH] using (induction_ltof1 _ json_size). unfold ltof in IH.
  destruct v as [|b|t|s|items|m|t]; auto.
  - apply Harr, Forall_forall. intros x Hx. apply IH. cbn [json_size].
    assert (json_size x <= sum_list (map json_size items)); [|lia]. apply sum_list_elem, list_elem_of_fmap. by exists x.
  - apply Hobj. intros k x Hx. apply IH. cbn [json_size].
    assert (json_size x <= sum_list (map snd (map_to_list (json_size <$> m)))); [|lia].
    apply sum_list_elem, list_elem_of_fmap. exists (k, json_size x). split; [done|].
    apply elem_of_map_to_list. by rewrite lookup_fmap, Hx.
Qed.

(** ** Reading what was written *)

Lemma after_app p s : after p (p +:+ s) = Some s.
Proof. induction p as [|a p IH]; simpl; [done|]. by rewrite Ascii.eqb_refl. Qed.

Lemma closes_with_eq c r : closes_with c (String c r) = Some r.
Proof. apply (after_app (String c "") r). Qed.

Lemma closes_with_ne c a r : a <> c -> closes_with c (String a r) = None.
Proof. intros H. unfold closes_with. simpl. by rewrite (proj2 (Ascii.eqb_neq _ _)) by done. Qed.

Lemma read_escape_byte a s t r :
  read_string s = Some (t, r) -> read_string (escape_byte a +:+ s) = Some (String a t, r).
Proof. intros E. destruct a as [[] [] [] [] [] [] [] []]; simpl; by rewrite E. Qed.

Lemma read_string_escape s r : read_string (escape s +:+ String dquote r) = Some (s, r).
Proof.
  induction s as [s IH] using (induction_ltof1 _ String.length). unfold ltof in IH.
  destruct s as [|a s]; [done|].
  assert (Hplain : read_string ((escape_byte a +:+ escape s) +:+ String dquote r) = Some (String a s, r)).
  { rewrite string_app_assoc. apply read_escape_byte, IH. simpl. lia. }
  cbn [escape]. destruct s as [|b [|c s]]; [done|done|].
  case_match eqn:E; [|done]. rewrite !andb_true_iff, !orb_true_iff, !Nat.eqb_eq in E. destruct E as ((Ea & Eb) & Ec).
  rewrite string_app_assoc.
  assert (Hs : read_string (escape s +:+ String dquote r) = Some (s, r)) by (apply IH; simpl; lia).
  apply (f_equal Ascii.ascii_of_nat) in Ea, Eb. rewrite Ascii.ascii_nat_embedding in Ea, Eb. subst a b.
  destruct Ec as [Ec|Ec]; rewrite Ec; apply (f_equal Ascii.ascii_of_nat) in Ec;
    rewrite Ascii.ascii_nat_embedding in Ec; subst c; simpl; by rewrite Hs.
Qed.

(** A number ends where its bytes end. *)
Definition stops_number (r : string) : Prop :=
  match r with String a _ => num_char a = false | EmptyString => True end.

Lemma span_num_app t r : string_forall num_char t = true -> stops_number r -> span_num (t +:+ r) = (t, r).
Proof.
  intros Ht Hr. induction t as [|a t IH]; simpl in *.
  - destruct r as [|b r]; simpl in *; [done|]. by rewrite Hr.
  - apply andb_true_iff in Ht as [-> Ht]. by rewrite IH.
Qed.

(** No bracket, quote, or first letter of a literal is part of a number. *)
Definition opening (a : Ascii.ascii) : bool :=
  Ascii.eqb a "{"%char || Ascii.eqb a "["%char || Ascii.eqb a dquote || Ascii.eqb a "n"%char ||
  Ascii.eqb a "t"%char || Ascii.eqb a "f"%char.

Lemma num_char_opening a : num_char a = true -> opening a = false.
Proof.
  intros H. assert (E : negb (num_char a) || negb (opening a) = true)
    by (apply (byte_all_spec (fun a => negb (num_char a) || negb (opening a))); vm_compute; reflexivity).
  rewrite H in E. by destruct (opening a).
Qed.

Lemma number_text_first t : number_text t = true -> exists a t', t = String a t' /\ num_char a = true.
Proof. unfold number_text. destruct t as [|a t]; [done|]. cbn [string_forall]. intros H. exists a, t. by bools. Qed.

Lemma read_number t r fuel :
  number_text t = true -> stops_number r -> read_value (S fuel) (t +:+ r) = Some (JNum t, r).
Proof.
  intros Ht Hr. destruct (number_text_first t Ht) as (a & t' & -> & Ha).
  pose proof (num_char_opening a Ha) as Ho. unfold opening in Ho. rewrite !orb_false_iff in Ho.
  destruct Ho as (((((E1 & E2) & E3) & E4) & E5) & E6).
  cbn [String.append read_value]. rewrite E1, E2, E3. unfold read_scalar. cbn [after].
  rewrite (Ascii.eqb_sym "n"), (Ascii.eqb_sym "t"), (Ascii.eqb_sym "f"), E4, E5, E6. unfold read_number_token.
  change (String a (t' +:+ r)) with (String a t' +:+ r). rewrite span_num_app; [by rewrite Ht| |done].
  unfold number_text in Ht. by apply andb_true_iff in Ht as [? _].
Qed.

(** [v] is read back from the text [t], whatever follows it. *)
Definition reads_back (v : json) (t : string) : Prop :=
  t <> "" /\ closes_with "]"%char t = None /\ forall r fuel,
    stops_number r -> (2 * String.length (t +:+ r) < fuel)%nat -> read_value fuel (t +:+ r) = Some (v, r).

Lemma reads_back_at v t r n :
  reads_back v t -> stops_number r -> (2 * String.length (t +:+ r) < n)%nat -> read_value n (t +:+ r) = Some (v, r).
Proof. intros (_ & _ & H). apply H. Qed.

Lemma read_items_back items parts r fuel :
  Forall2 reads_back items parts -> items <> [] ->
  (2 * String.length (join "," parts +:+ String "]" r) + 1 < fuel)%nat ->
  read_items fuel (join "," parts +:+ String "]" r) = Some (items, r).
Proof.
  intros H. revert fuel. induction H as [|v t items parts Hv HF IH]; intros [|n] Hne Hf; [done|done|lia|].
  destruct HF as [|v' t' items parts Hv' HF].
  - cbn [join read_items] in *. rewrite reads_back_at with (v := v); [|done|done|lia]. by rewrite closes_with_eq.
  - change (join "," (t :: t' :: parts)) with (t +:+ String "," (join "," (t' :: parts))) in *.
    rewrite string_app_assoc in *. cbn [String.append] in *. rewrite string_length_app in Hf. cbn [String.length] in Hf.
    cbn [read_items]. rewrite reads_back_at with (v := v); [|done|done|rewrite string_length_app; cbn [String.length]; lia].
    rewrite closes_with_ne, closes_with_eq by done.
    by rewrite IH by (done || lia).
Qed.

Definition member_text (kv : string * json) (t : string) : Prop :=
  exists tv, t = marshal_string kv.1 +:+ ":" +:+ tv /\ reads_back kv.2 tv.

Lemma member_head k tv r : (marshal_string k +:+ ":" +:+ tv) +:+ r = String dquote (escape k +:+ String dquote (String ":" (tv +:+ r))).
Proof. unfold marshal_string. cbn [String.append]. by rewrite !string_app_assoc. Qed.

Lemma read_members_back ms parts r fuel :
  Forall2 member_text ms parts -> ms <> [] ->
  (2 * String.length (join "," parts +:+ String "}" r) + 1 < fuel)%nat ->
  read_members fuel (join "," parts +:+ String "}" r) = Some (ms, r).
Proof.
  intros H. revert fuel. induction H as [|[k v] t ms parts Hv HF IH]; intros [|n] Hne Hf; [done|done|lia|].
  destruct Hv as (tv & -> & Hv). cbn [fst snd] in *. destruct HF as [|kv' t' ms parts Hv' HF].
  - cbn [join] in *. rewrite member_head in *. cbn [String.length] in Hf. rewrite string_length_app in Hf. cbn [String.length] in Hf.
    cbn [read_members]. rewrite closes_with_eq, read_string_escape, closes_with_eq.
    rewrite reads_back_at with (v := v); [|done|done|lia]. by rewrite closes_with_eq.
  - set (m := marshal_string k +:+ ":" +:+ tv) in *.
    change (join "," (m :: t' :: parts)) with (m +:+ String "," (join "," (t' :: parts))) in *. subst m.
    rewrite string_app_assoc in *. rewrite member_head in *. cbn [String.append] in *.
    cbn [String.length] in Hf. rewrite string_length_app in Hf. cbn [String.length] in Hf. rewrite string_length_app in Hf. cbn [String.length] in Hf.
    cbn [read_members]. rewrite closes_with_eq, read_string_escape, closes_with_eq.
    rewrite reads_back_at with (v := v); [|done|done|rewrite string_length_app; cbn [String.length]; lia].
    rewrite closes_with_ne, closes_with_eq by done.
    by rewrite IH by (done || lia).
Qed.

Lemma member_parts (m : object) parts :
  map_Forall (fun _ v => wf_json v = true /\ (wf_json v = true -> forall t, Marshal v = Ok t -> reads_back v t)) m ->
  sequence (members (Marshal <$> m)) = Ok parts ->
  exists ms, Forall2 member_text ms parts /\ list_to_map (reverse ms) = m.
Proof.
  intros Hm Hs. apply sequence_Ok in Hs. unfold members in Hs.
  set (f := fun k => (k, default JNull (m !! k))). exists (map f (sorted_keys (Marshal <$> m))).
  assert (Hin : forall k, k ∈ sorted_keys (Marshal <$> m) -> exists v, m !! k = Some v).
  { intros k Hk. apply elem_of_sorted_keys in Hk as [x Hx]. rewrite lookup_fmap, fmap_Some in Hx.
    destruct Hx as (v & Hv & _). by exists v. }
  split.
  - clear -Hm Hs Hin. revert parts Hs Hin. generalize (sorted_keys (Marshal <$> m)) as keys.
    intros keys. induction keys as [|k keys IH]; intros [|p parts] Hs Hin; try done.
    cbn [map] in *. injection Hs as Hk Hs. destruct (Hin k (list_elem_of_here _ _)) as [v Hv].
    rewrite lookup_fmap, Hv in Hk. cbn [fmap option_fmap option_map] in Hk.
    destruct (Marshal v) as [t|] eqn:Ht; [|done]. injection Hk as <-. constructor.
    + exists t. unfold f. cbn [fst snd]. rewrite Hv. split; [done|]. destruct (Hm k v Hv) as [Hw H]. by apply H.
    + apply IH; [done|]. intros k' Hk'. apply Hin. by right.
  - assert (Hnd : NoDup (map f (sorted_keys (Marshal <$> m))).*1).
    { rewrite <- list_fmap_compose. simpl. rewrite list_fmap_id. apply NoDup_sorted_keys. }
    apply map_eq. intros k. apply option_eq. intros v.
    rewrite <- elem_of_list_to_map by (by rewrite fmap_reverse, reverse_Permutation).
    rewrite elem_of_reverse, list_elem_of_fmap. split.
    + intros (k' & [= -> ->] & Hk). destruct (Hin k' Hk) as [x Hx]. by rewrite Hx.
    + intros Hv. exists k. unfold f. rewrite Hv. split; [done|]. apply elem_of_sorted_keys.
      rewrite lookup_fmap, Hv. by eexists.
Qed.

Lemma reads_back_intro v a t :
  a <> "]"%char -> (forall r n, stops_number r -> (2 * String.length (String a t +:+ r) < S n)%nat ->
    read_value (S n) (String a t +:+ r) = Some (v, r)) -> reads_back v (String a t).
Proof.
  intros Ha H. split; [done|]. split; [by apply closes_with_ne|]. intros r [|n] Hr Hf; [lia|]. by apply H.
Qed.

Lemma read_value_array items parts :
  Forall2 reads_back items parts -> reads_back (JArr items) (String "[" (join "," parts +:+ "]")).
Proof.
  intros HF. apply reads_back_intro; [done|]. intros r n Hr Hf. cbn [String.append] in *.
  rewrite string_app_assoc in *. cbn [String.append String.length] in *. cbn [read_value]. 
  destruct HF as [|v t items parts Hv HF]; [done|].
  assert (Hc : closes_with "]" (join "," (t :: parts) +:+ String "]" r) = None).
  { destruct Hv as (Ht & Hc & _). destruct t as [|a t]; [done|]. unfold closes_with in *. cbn [after] in Hc.
    destruct (Ascii.eqb "]" a) eqn:Ea; [done|]. destruct parts; cbn [join String.append after]; by rewrite Ea. }
  change (Ascii.eqb "[" "{") with false. change (Ascii.eqb "[" "[") with true. cbv iota. rewrite Hc.
  rewrite (read_items_back (v :: items)); [done|by constructor|done|lia].
Qed.

Lemma read_value_object m ms parts :
  Forall2 member_text ms parts -> list_to_map (reverse ms) = m -> reads_back (JObj m) (String "{" (join "," parts +:+ "}")).
Proof.
  intros HF <-. apply reads_back_intro; [done|]. intros r n Hr Hf. cbn [String.append] in *.
  rewrite string_app_assoc in *. cbn [String.append String.length] in *. cbn [read_value].
  destruct HF as [|kv t ms parts Hv HF]; [done|].
  assert (Hc : closes_with "}" (join "," (t :: parts) +:+ String "}" r) = None).
  { destruct Hv as (tv & -> & _). unfold marshal_string. destruct parts; done. }
  change (Ascii.eqb "{" "{") with true. cbv iota. rewrite Hc.
  rewrite (read_members_back (kv :: ms)); [done|by constructor|done|lia].
Qed.

Lemma Marshal_reads_back v : wf_json v = true -> forall t, Marshal v = Ok t -> reads_back v t.
Proof.
  induction v as [|b|t|s|items IH|m IH|g] using json_nested_ind; intros Hw text Hm; cbn [Marshal] in Hm; try done.
  - injection Hm as <-. by apply reads_back_intro.
  - injection Hm as <-. by destruct b; apply reads_back_intro.
  - injection Hm as <-. destruct (number_text_first t Hw) as (a & t' & -> & Ha). apply reads_back_intro.
    + by intros ->.
    + intros r n Hr _. by apply read_number.
  - injection Hm as <-. unfold marshal_string. apply reads_back_intro; [done|]. intros r n _ _.
    cbn [String.append read_value]. rewrite string_app_assoc. cbn [String.append]. by rewrite read_string_escape.
  - destruct (sequence (map Marshal items)) as [parts|] eqn:Hs; [|done]. injection Hm as <-. apply read_value_array.
    apply sequence_Ok in Hs. apply wf_arr in Hw. clear -IH Hs Hw.
    revert parts Hs. induction items as [|v items IHi]; intros [|p parts] Hs; try done.
    inversion IH; inversion Hw; subst. cbn [map] in Hs. injection Hs as Hp Hs. constructor; auto.
  - destruct (sequence (members (Marshal <$> m))) as [parts|] eqn:Hs; [|done]. injection Hm as <-.
    destruct (member_parts m parts) as (ms & HF & E); [|done|by apply (read_value_object m ms)].
    intros k v Hv. split; [|by apply (IH k)]. apply wf_obj in Hw. by apply (Hw k).
Qed.

(** Reading is the inverse of writing. *)
Lemma Unmarshal_Marshal v t : wf_json v = true -> Marshal v = Ok t -> Unmarshal t = Some v.
Proof.
  intros Hw Hm. destruct (Marshal_reads_back v Hw t Hm) as (_ & _ & H). unfold Unmarshal.
  specialize (H "" (S (2 * String.length t)) I). rewrite string_app_nil_r in H. rewrite H by lia. done.
Qed.

(** ** What is read has a text *)

Lemma read_scalar_wf s v r : read_scalar s = Some (v, r) -> wf_json v = true.
Proof.
  unfold read_scalar, read_number_token. intros H. repeat case_match; by simplify_eq/=.
Qed.

Lemma object_of_wf ms : Forall (fun kv => wf_json kv.2 = true) ms -> wf_json (object_of ms) = true.
Proof.
  intros H. apply wf_obj. intros k v Hv. apply elem_of_list_to_map_2 in Hv. rewrite elem_of_reverse in Hv.
  rewrite Forall_forall in H. by apply (H (k, v)).
Qed.

Lemma read_wf fuel :
  (forall s v r, read_value fuel s = Some (v, r) -> wf_json v = true) /\
  (forall s vs r, read_items fuel s = Some (vs, r) -> Forall (fun v => wf_json v = true) vs) /\
  (forall s ms r, read_members fuel s = Some (ms, r) -> Forall (fun kv => wf_json kv.2 = true) ms).
Proof.
  induction fuel as [|n (IHv & IHi & IHm)]; [done|]. split_and!.
  - intros [|a s] v r H; [done|]. cbn [read_value] in H.
    destruct (Ascii.eqb a "{"); [|destruct (Ascii.eqb a "["); [|destruct (Ascii.eqb a dquote)]].
    + destruct (closes_with _ _); [by simplify_eq|].
      destruct (read_members n s) as [[ms r']|] eqn:E; [|done]. injection H as <- <-. by eapply object_of_wf, IHm.
    + destruct (closes_with _ _); [by simplify_eq|].
      destruct (read_items n s) as [[vs r']|] eqn:E; [|done]. injection H as <- <-. by eapply wf_arr, IHi.
    + destruct (read_string s) as [[t r']|]; by simplify_eq.
    + by eapply read_scalar_wf.
  - intros s vs r H. cbn [read_items] in H. destruct (read_value n s) as [[v r0]|] eqn:E; [|done]. apply IHv in E.
    destruct (closes_with _ r0); [simplify_eq; by repeat constructor|]. destruct (closes_with _ r0) as [r1|]; [|done].
    destruct (read_items n r1) as [[vs' r2]|] eqn:E'; [|done]. injection H as <- <-. constructor; [done|]. by eapply IHi.
  - intros s ms r H. cbn [read_members] in H. destruct (closes_with _ s) as [s0|]; [|done].
    destruct (read_string s0) as [[k s1]|]; [|done]. destruct (closes_with _ s1) as [s2|]; [|done].
    destruct (read_value n s2) as [[v r0]|] eqn:E; [|done]. apply IHv in E.
    destruct (closes_with _ r0); [simplify_eq; by repeat constructor|]. destruct (closes_with _ r0) as [r1|]; [|done].
    destruct (read_members n r1) as [[ms' r2]|] eqn:E'; [|done]. injection H as <- <-. constructor; [done|]. by eapply IHm.
Qed.

Lemma Unmarshal_wf s v : Unmarshal s = Some v -> wf_json v = true.
Proof.
  unfold Unmarshal. destruct (read_value _ s) as [[v' [|]]|] eqn:E; intros [= <-]. by apply (proj1 (read_wf _) _ _ _ E).
Qed.

Example unmarshal_samples :
  Unmarshal "01" = None /\ Unmarshal "{}" = Some (JObj ∅) /\
  Unmarshal "[-1.5e+3,true,null,[]]" = Some (JArr [JNum "-1.5e+3"; JBool true; JNull; JArr []]).
Proof. vm_compute. repeat split; reflexivity. Qed.
