(* ===== verification/JsonPatch.v ===== *)
(** * JsonPatch: diffs between JSON documents

    The pipeline calls [jsondiff.CompareJSON] on two JSON texts and marshals the
    patch it returns; whoever reads the history applies such patches. Both sides are
    third-party code: the class [JsonDiff] is what the program calls, [PatchReader]
    is the reader's side, and [JsonDiffLaws] is their contract, RFC 6902: the patch
    between two documents, applied to the first one's value, gives the second one's.

    The contract is about values, not about texts, and about numbers as the libraries
    read them: decoding a document into Go's [any] turns a number into a [float64],
    so two numerals that differ in the digits a [float64] does not keep are one value.
    [number_value] is that reading, and [same_value] compares documents up to it.

    [MemberDiff] and [MemberReader] are an implementation of the contract: patches of
    add, remove and replace operations on the members of the document, in the JSON
    text of RFC 6902 with its JSON pointers, and a reader of such texts. *)

From Stdlib Require Import ZArith Lia.
From stdpp Require Import base gmap strings list.
From S2P Require Import Prelude Json Redact JsonText.

(** ** The contract *)

Class JsonDiff := {
  Patch : Type;
  CompareJSON : string -> string -> result Patch;
  MarshalPatch : Patch -> result string;
}.

Class PatchReader := {
  (** The number a numeral stands for, as a numeral. *)
  number_value : string -> string;
  (** Apply a patch, given as its text, to a document. *)
  ApplyPatch : string -> json -> option json;
}.

(** The document with its numbers as the libraries read them. *)
Fixpoint as_numbers `{R : PatchReader} (v : json) : json :=
  match v with
  | JNum text => JNum (number_value text)
  | JArr items => JArr (map as_numbers items)
  | JObj fields => JObj (as_numbers <$> fields)
  | _ => v
  end.

Definition same_value `{R : PatchReader} (v w : json) : Prop := as_numbers v = as_numbers w.

Class JsonDiffLaws (D : JsonDiff) (R : PatchReader) : Prop := {
  patch_applies : forall ta tb a b p sp a',
    Unmarshal ta = Some a -> Unmarshal tb = Some b ->
    CompareJSON ta tb = Ok p -> MarshalPatch p = Ok sp -> same_value a' a ->
    exists b', ApplyPatch sp a' = Some b' /\ same_value b' b;
}.

(** ** JSON pointers *)

(** In a reference token [~] is written [~0] and [/] is written [~1]. *)
Fixpoint escape_token (s : string) : string :=
  match s with
  | EmptyString => ""
  | String a r =>
      if Ascii.eqb a "~"%char then "~0" +:+ escape_token r
      else if Ascii.eqb a "/"%char then "~1" +:+ escape_token r
      else String a (escape_token r)
  end.

Fixpoint unescape_token (s : string) : option string :=
  match s with
  | EmptyString => Some ""
  | String a r =>
      if Ascii.eqb a "~"%char then
        match r with
        | String b r' =>
            if Ascii.eqb b "0"%char then String "~"%char <$> unescape_token r'
            else if Ascii.eqb b "1"%char then String "/"%char <$> unescape_token r'
            else None
        | EmptyString => None
        end
      else String a <$> unescape_token r
  end.

Definition pointer (path : list string) : string :=
  match path with
  | [] => ""
  | _ => "/" +:+ join "/" (map escape_token path)
  end.

Definition read_pointer (s : string) : option (list string) :=
  match s with
  | EmptyString => Some []
  | String a r => if Ascii.eqb a "/"%char then mapM unescape_token (split_char "/"%char r) else None
  end.

Lemma unescape_escape_token s : unescape_token (escape_token s) = Some s.
Proof.
  induction s as [|a s IH]; [done|]. cbn [escape_token].
  destruct (Ascii.eqb a "~") eqn:E1; [bools; subst a; cbn; by rewrite IH|].
  destruct (Ascii.eqb a "/") eqn:E2; [bools; subst a; cbn; by rewrite IH|].
  cbn [unescape_token]. by rewrite E1, IH.
Qed.

Lemma escape_token_no_slash s : has_char "/"%char (escape_token s) = false.
Proof.
  induction s as [|a s IH]; [done|]. cbn [escape_token].
  destruct (Ascii.eqb a "~"); [done|]. destruct (Ascii.eqb a "/") eqn:E; [done|]. cbn [has_char]. by rewrite E.
Qed.

Lemma read_pointer_pointer path : read_pointer (pointer path) = Some path.
Proof.
  destruct path as [|k path]; [done|]. unfold pointer, read_pointer. cbn [String.append].
  change (Ascii.eqb "/" "/") with true. cbv iota. rewrite split_join; [|done|].
  - apply mapM_Some. apply Forall2_fmap_l. apply Forall_Forall2_diag, Forall_forall. intros s _. apply unescape_escape_token.
  - apply Forall_fmap, Forall_forall. intros s _. apply escape_token_no_slash.
Qed.

(** ** Operations *)

Inductive operation :=
| OpAdd (path : list string) (value : json)
| OpRemove (path : list string)
| OpReplace (path : list string) (value : json).

Definition op_json (op : operation) : json :=
  match op with
  | OpAdd path value => JObj (<["op" := JStr "add"]> (<["path" := JStr (pointer path)]> {[ "value" := value ]}))
  | OpRemove path => JObj (<["op" := JStr "remove"]> {[ "path" := JStr (pointer path) ]})
  | OpReplace path value => JObj (<["op" := JStr "replace"]> (<["path" := JStr (pointer path)]> {[ "value" := value ]}))
  end.

Definition read_op (v : json) : option operation :=
  match v with
  | JObj m =>
      match m !! "op", m !! "path" with
      | Some (JStr name), Some (JStr p) =>
          match read_pointer p with
          | Some path =>
              if String.eqb name "add" then OpAdd path <$> m !! "value"
              else if String.eqb name "remove" then Some (OpRemove path)
              else if String.eqb name "replace" then OpReplace path <$> m !! "value"
              else None
          | None => None
          end
      | _, _ => None
      end
  | _ => None
  end.

(** An operation at a path through the members of objects. *)
Fixpoint apply_at (path : list string) (f : option json -> option (option json)) (doc : option json) : option (option json) :=
  match path with
  | [] => f doc
  | k :: rest =>
      match doc with
      | Some (JObj m) =>
          match apply_at rest f (m !! k) with
          | Some (Some v) => Some (Some (JObj (<[k := v]> m)))
          | Some None => Some (Some (JObj (delete k m)))
          | None => None
          end
      | _ => None
      end
  end.

Definition apply_op (op : operation) (doc : json) : option json :=
  match op with
  | OpAdd path value => apply_at path (fun _ => Some (Some value)) (Some doc)
  | OpRemove path => apply_at path (fun old => match old with Some _ => Some None | None => None end) (Some doc)
  | OpReplace path value => apply_at path (fun old => match old with Some _ => Some (Some value) | None => None end) (Some doc)
  end ≫= id.

Fixpoint apply_ops (ops : list operation) (doc : json) : option json :=
  match ops with
  | [] => Some doc
  | op :: rest => match apply_op op doc with Some doc' => apply_ops rest doc' | None => None end
  end.

(** ** The diff of two documents, member by member *)

Definition same_text (v w : json) : bool :=
  match Marshal v, Marshal w with
  | Ok s, Ok t => String.eqb s t
  | _, _ => false
  end.

Definition member_op (a b : object) (k : string) : option operation :=
  match a !! k, b !! k with
  | Some v, Some w => if same_text v w then None else Some (OpReplace [k] w)
  | None, Some w => Some (OpAdd [k] w)
  | Some _, None => Some (OpRemove [k])
  | None, None => None
  end.

Definition compare_values (a b : json) : list operation :=
  match a, b with
  | JObj m, JObj m' => omap (member_op m m') (sorted_keys (m ∪ m'))
  | _, _ => [OpReplace [] b]
  end.

#[export] Instance MemberDiff : JsonDiff := {
  Patch := list operation;
  CompareJSON a b :=
    match Unmarshal a, Unmarshal b with
    | Some v, Some w => Ok (compare_values v w)
    | _, _ => Err "invalid JSON"
    end;
  MarshalPatch p := Marshal (JArr (map op_json p));
}.

#[export] Instance MemberReader : PatchReader := {
  number_value text := text;
  ApplyPatch s doc :=
    match Unmarshal s with
    | Some (JArr items) => match mapM read_op items with Some ops => apply_ops ops doc | None => None end
    | _ => None
    end;
}.

(** ** The implementation keeps the contract *)

Lemma same_text_eq v w : wf_json v = true -> wf_json w = true -> same_text v w = true -> v = w.
Proof.
  intros Hv Hw H. unfold same_text in H. destruct (Marshal v) as [s|] eqn:Ev; [|done].
  destruct (Marshal w) as [t|] eqn:Ew; [|done]. bools. subst t.
  apply Unmarshal_Marshal in Ev, Ew; [|done|done]. congruence.
Qed.

Definition op_wf (op : operation) : Prop :=
  match op with
  | OpAdd _ value | OpReplace _ value => wf_json value = true
  | OpRemove _ => True
  end.

Lemma op_json_wf op : op_wf op -> wf_json (op_json op) = true.
Proof.
  destruct op; intros H; apply wf_obj; repeat (apply map_Forall_insert_2; [done|]); apply map_Forall_empty.
Qed.

Lemma read_op_json op : read_op (op_json op) = Some op.
Proof.
  destruct op as [path v|path|path v]; unfold read_op, op_json; simplify_map_eq; rewrite read_pointer_pointer; cbn; by simplify_map_eq.
Qed.

(** The operation of a member sets that member, and no other. *)
Lemma member_op_applies m m' c k op :
  member_op m m' k = Some op -> c !! k = m !! k ->
  exists c', apply_op op (JObj c) = Some (JObj c') /\ c' !! k = m' !! k /\ forall k', k' <> k -> c' !! k' = c !! k'.
Proof.
  unfold member_op. intros Ho Hc. destruct (m !! k) as [v|] eqn:Ev, (m' !! k) as [w|] eqn:Ew.
  - destruct (same_text v w); [done|]. injection Ho as <-. cbn. rewrite Hc. cbn. eexists. split; [done|].
    split; [by rewrite lookup_insert_eq|]. intros k' Hk. by rewrite lookup_insert_ne.
  - injection Ho as <-. cbn. rewrite Hc. cbn. eexists. split; [done|].
    split; [by rewrite lookup_delete_eq|]. intros k' Hk. by rewrite lookup_delete_ne.
  - injection Ho as <-. cbn. eexists. split; [done|].
    split; [by rewrite lookup_insert_eq|]. intros k' Hk. by rewrite lookup_insert_ne.
  - done.
Qed.

Lemma member_op_none m m' k :
  wf_json (JObj m) = true -> wf_json (JObj m') = true -> member_op m m' k = None -> m !! k = m' !! k.
Proof.
  intros Hm Hm' H. apply wf_obj in Hm, Hm'. unfold member_op in H.
  destruct (m !! k) as [v|] eqn:Ev, (m' !! k) as [w|] eqn:Ew; try done.
  destruct (same_text v w) eqn:E; [|done]. f_equal. apply same_text_eq; [by apply (Hm k)|by apply (Hm' k)|done].
Qed.

Lemma member_ops_apply m m' keys c :
  wf_json (JObj m) = true -> wf_json (JObj m') = true -> NoDup keys ->
  (forall k, k ∈ keys -> c !! k = m !! k) ->
  exists c', apply_ops (omap (member_op m m') keys) (JObj c) = Some (JObj c') /\
    forall k, c' !! k = if decide (k ∈ keys) then m' !! k else c !! k.
Proof.
  intros Hm Hm'. revert c. induction keys as [|k keys IH]; intros c Hnd Hc.
  { exists c. split; [done|]. intros k. by rewrite decide_False by (by apply not_elem_of_nil). }
  apply NoDup_cons in Hnd as [Hk Hnd].
  assert (Hstep : forall c1, c1 !! k = m' !! k -> (forall k', k' <> k -> c1 !! k' = c !! k') ->
    exists c', apply_ops (omap (member_op m m') keys) (JObj c1) = Some (JObj c') /\
      forall k0, c' !! k0 = if decide (k0 ∈ k :: keys) then m' !! k0 else c !! k0).
  { intros c1 H1 H2. destruct (IH c1 Hnd) as (c' & Ha & Hl).
    { intros k' Hk'. rewrite H2 by (by intros ->). apply Hc. by right. }
    exists c'. split; [done|]. intros k0. rewrite Hl. destruct (decide (k0 = k)) as [->|Hne].
    - rewrite decide_False by done. rewrite decide_True by (by left). done.
    - destruct (decide (k0 ∈ keys)); [rewrite decide_True by (by right); done|].
      rewrite decide_False by (by intros [?|?]%elem_of_cons). by apply H2. }
  cbn [omap list_omap]. destruct (member_op m m' k) as [op|] eqn:Eo.
  - destruct (member_op_applies m m' c k op Eo) as (c1 & Ha & H1 & H2); [apply Hc; by left|].
    cbn [apply_ops]. rewrite Ha. by apply Hstep.
  - apply Hstep; [|done]. rewrite Hc by (by left). by apply member_op_none.
Qed.

Lemma compare_values_applies v w :
  wf_json v = true -> wf_json w = true -> apply_ops (compare_values v w) v = Some w.
Proof.
  intros Hv Hw. destruct v as [|b|t|s|items|m|g], w as [|b'|t'|s'|items'|m'|g']; try done.
  cbn [compare_values].
  destruct (member_ops_apply m m' (sorted_keys (m ∪ m')) m Hv Hw (NoDup_sorted_keys _)) as (c & -> & Hc); [done|].
  do 2 f_equal. apply map_eq. intros k. rewrite Hc. case_decide as E; [done|].
  rewrite elem_of_sorted_keys in E. assert ((m ∪ m') !! k = None) as [-> ->]%lookup_union_None; [|done].
  by apply eq_None_not_Some.
Qed.

Lemma compare_values_wf v w : wf_json v = true -> wf_json w = true -> Forall op_wf (compare_values v w).
Proof.
  intros Hv Hw. assert (Hone : Forall op_wf [OpReplace [] w]) by (by repeat constructor).
  destruct v as [|b|t|s|items|m|g], w as [|b'|t'|s'|items'|m'|g']; try done. cbn [compare_values].
  apply Forall_forall. intros op (k & _ & Ho)%list_elem_of_omap. unfold member_op in Ho. apply wf_obj in Hw.
  destruct (m !! k), (m' !! k) as [x|] eqn:E; [destruct (same_text _ x)| | |]; simplify_eq; try done; by apply (Hw k).
Qed.

Lemma as_numbers_exact v : as_numbers (R := MemberReader) v = v.
Proof.
  induction v as [|b|t|s|items IH|m IH|g] using json_nested_ind; cbn; try done; f_equal.
  - induction IH as [|x items Hx _ IHi]; cbn; [done|]. by rewrite Hx, IHi.
  - apply map_eq. intros k. rewrite lookup_fmap. destruct (m !! k) as [x|] eqn:E; [|done]. cbn. f_equal. by apply (IH k).
Qed.

#[export] Instance MemberDiff_laws : JsonDiffLaws MemberDiff MemberReader.
Proof.
  split. intros ta tb a b p sp a' Ha Hb Hp Hs E. unfold same_value in *. rewrite !as_numbers_exact in E. subst a'.
  cbn in Hp. rewrite Ha, Hb in Hp. injection Hp as <-. exists b. split; [|done].
  pose proof (Unmarshal_wf _ _ Ha) as Hwa. pose proof (Unmarshal_wf _ _ Hb) as Hwb.
  pose proof (compare_values_wf a b Hwa Hwb) as Hops.
  unfold ApplyPatch, MemberReader. rewrite (Unmarshal_Marshal (JArr (map op_json (compare_values a b)))); [| |exact Hs].
  - assert (mapM read_op (map op_json (compare_values a b)) = Some (compare_values a b)) as ->.
    { apply mapM_Some, Forall2_fmap_l, Forall_Forall2_diag, Forall_forall. intros op _. apply read_op_json. }
    by apply compare_values_applies.
  - apply wf_arr, Forall_fmap. eapply Forall_impl; [exact Hops|]. intros op. apply op_json_wf.
Qed.
