(* ===== verification/Regex.v ===== *)
(** * Regex: the patterns of the custom resources

    The subset of Go's regular-expression syntax the patterns of [api/v1alpha1] are
    written in: a syntax tree, what it matches, a matcher by derivatives that decides
    it, and a parser from the pattern text, so that the patterns are transcribed as
    the source has them. Every branch of a pattern is anchored at both ends. *)

From Stdlib Require Import ZArith Lia.
From Stdlib Require Ascii.
From stdpp Require Import base strings list.
From S2P Require Import Prelude.

(** ** Expressions *)

(** A class is a list of ranges of bytes, ends included. *)
Abbreviation charClass := (list (Ascii.ascii * Ascii.ascii)).

Inductive regex :=
| RVoid
| REps
| RClass (cls : charClass)
| RSeq (r1 r2 : regex)
| RAlt (r1 r2 : regex)
| RStar (r : regex).

Definition in_class (cls : charClass) (a : Ascii.ascii) : bool :=
  existsb (fun '(lo, hi) => Nat.leb (Ascii.nat_of_ascii lo) (Ascii.nat_of_ascii a) &&
                            Nat.leb (Ascii.nat_of_ascii a) (Ascii.nat_of_ascii hi)) cls.

(** The texts an expression stands for. *)
Inductive rmatches : regex -> string -> Prop :=
| m_eps : rmatches REps ""
| m_class cls a : in_class cls a = true -> rmatches (RClass cls) (String a "")
| m_seq r1 r2 s1 s2 : rmatches r1 s1 -> rmatches r2 s2 -> rmatches (RSeq r1 r2) (s1 +:+ s2)
| m_alt_l r1 r2 s : rmatches r1 s -> rmatches (RAlt r1 r2) s
| m_alt_r r1 r2 s : rmatches r2 s -> rmatches (RAlt r1 r2) s
| m_star_nil r : rmatches (RStar r) ""
| m_star_cons r s1 s2 : rmatches r s1 -> rmatches (RStar r) s2 -> rmatches (RStar r) (s1 +:+ s2).

Create HintDb regex.
#[export] Hint Constructors rmatches : regex.

(** ** Deciding *)

Fixpoint nullable (r : regex) : bool :=
  match r with
  | RVoid | RClass _ => false
  | REps | RStar _ => true
  | RSeq r1 r2 => nullable r1 && nullable r2
  | RAlt r1 r2 => nullable r1 || nullable r2
  end.

(** Sequence and choice that drop what cannot match, so that derivatives of a counted
    repetition stay small. *)
Definition seq_ (r1 r2 : regex) : regex :=
  match r1, r2 with RVoid, _ | _, RVoid => RVoid | REps, r | r, REps => r | _, _ => RSeq r1 r2 end.

Definition alt_ (r1 r2 : regex) : regex := match r1, r2 with RVoid, r | r, RVoid => r | _, _ => RAlt r1 r2 end.

Fixpoint deriv (a : Ascii.ascii) (r : regex) : regex :=
  match r with
  | RVoid | REps => RVoid
  | RClass cls => if in_class cls a then REps else RVoid
  | RSeq r1 r2 => if nullable r1 then alt_ (seq_ (deriv a r1) r2) (deriv a r2) else seq_ (deriv a r1) r2
  | RAlt r1 r2 => alt_ (deriv a r1) (deriv a r2)
  | RStar r1 => seq_ (deriv a r1) (RStar r1)
  end.

Fixpoint re_match (r : regex) (s : string) : bool :=
  match s with
  | EmptyString => nullable r
  | String a s' => re_match (deriv a r) s'
  end.

(** ** The matcher is right *)

Lemma seq_inv r1 r2 s : rmatches (RSeq r1 r2) s <-> exists s1 s2, s = s1 +:+ s2 /\ rmatches r1 s1 /\ rmatches r2 s2.
Proof.
  split.
  - inversion 1; subst. eauto.
  - intros (s1 & s2 & -> & H1 & H2). by constructor.
Qed.

Lemma alt_inv r1 r2 s : rmatches (RAlt r1 r2) s <-> rmatches r1 s \/ rmatches r2 s.
Proof. split; [inversion 1; subst; auto|]. intros [H|H]; auto with regex. Qed.

Lemma class_inv cls s : rmatches (RClass cls) s <-> exists a, s = String a "" /\ in_class cls a = true.
Proof. split; [inversion 1; subst; eauto|]. intros (a & -> & H). by constructor. Qed.

Lemma eps_inv s : rmatches REps s <-> s = "".
Proof. split; [by inversion 1|]. intros ->. constructor. Qed.

Lemma void_inv s : ~ rmatches RVoid s.
Proof. inversion 1. Qed.

Lemma seq_eps_l r s : rmatches (RSeq REps r) s <-> rmatches r s.
Proof.
  rewrite seq_inv. split; [intros (s1 & s2 & -> & ->%eps_inv & H); exact H|]. intros H. exists "", s. by repeat constructor.
Qed.

Lemma seq_eps_r r s : rmatches (RSeq r REps) s <-> rmatches r s.
Proof.
  rewrite seq_inv. split.
  - intros (s1 & s2 & -> & H & ->%eps_inv). by rewrite string_app_nil_r.
  - intros H. exists s, "". rewrite string_app_nil_r. by repeat constructor.
Qed.

Lemma seq_void_l r s : rmatches (RSeq RVoid r) s <-> rmatches RVoid s.
Proof. rewrite seq_inv. split; [intros (s1 & s2 & _ & []%void_inv & _)|by intros ?%void_inv]. Qed.

Lemma seq_void_r r s : rmatches (RSeq r RVoid) s <-> rmatches RVoid s.
Proof. rewrite seq_inv. split; [intros (s1 & s2 & _ & _ & []%void_inv)|by intros ?%void_inv]. Qed.

Lemma seq_matches r1 r2 s : rmatches (seq_ r1 r2) s <-> rmatches (RSeq r1 r2) s.
Proof.
  destruct r1, r2; cbn [seq_]; rewrite ?seq_void_l, ?seq_void_r, ?seq_eps_l, ?seq_eps_r; reflexivity.
Qed.

Lemma alt_matches r1 r2 s : rmatches (alt_ r1 r2) s <-> rmatches (RAlt r1 r2) s.
Proof.
  rewrite alt_inv. destruct r1, r2; cbn [alt_]; rewrite ?alt_inv; split; auto; intros [H|H]; auto; by apply void_inv in H.
Qed.

Lemma nullable_matches r : nullable r = true <-> rmatches r "".
Proof.
  induction r as [| |cls|r1 IH1 r2 IH2|r1 IH1 r2 IH2|r IH]; cbn.
  - split; [done|]. by intros ?%void_inv.
  - split; [constructor|done].
  - split; [done|]. by intros (a & Ha & _)%class_inv.
  - rewrite andb_true_iff, IH1, IH2, seq_inv. split; [intros []; by exists "", ""|].
    intros (s1 & s2 & Hs & H1 & H2). destruct s1, s2; by try discriminate Hs.
  - by rewrite orb_true_iff, IH1, IH2, alt_inv.
  - split; [constructor|done].
Qed.

Lemma star_cons_inv r a s :
  rmatches (RStar r) (String a s) <-> exists s1 s2, s = s1 +:+ s2 /\ rmatches r (String a s1) /\ rmatches (RStar r) s2.
Proof.
  split.
  - remember (RStar r) as r' eqn:Er. remember (String a s) as t eqn:Et. intros H. revert a s Et.
    induction H as [| | | | | |r0 s1 s2 H1 _ H2 IH]; intros b0 t Et; try discriminate Er; try discriminate Et.
    injection Er as ->. destruct s1 as [|b s1]; [by apply IH|]. cbn in Et. injection Et as -> <-. eauto.
  - intros (s1 & s2 & -> & H1 & H2). exact (m_star_cons r (String a s1) s2 H1 H2).
Qed.

Lemma deriv_matches a r s : rmatches (deriv a r) s <-> rmatches r (String a s).
Proof.
  revert s. induction r as [| |cls|r1 IH1 r2 IH2|r1 IH1 r2 IH2|r IH]; intros s; cbn [deriv].
  - split; by intros ?%void_inv.
  - split; [by intros ?%void_inv|]. by intros ?%eps_inv.
  - rewrite class_inv. destruct (in_class cls a) eqn:E.
    + rewrite eps_inv. split; [intros ->; eauto|]. intros (b & [= <- ->] & _). done.
    + split; [by intros ?%void_inv|]. intros (b & [= <- ->] & H). congruence.
  - assert (Hs : rmatches (RSeq r1 r2) (String a s) <->
      (rmatches r1 "" /\ rmatches r2 (String a s)) \/ exists s1 s2, s = s1 +:+ s2 /\ rmatches r1 (String a s1) /\ rmatches r2 s2).
    { rewrite seq_inv. split.
      - intros ([|b s1] & s2 & Hs & H1 & H2); cbn in Hs; [subst; by left|]. injection Hs as <- ->. right. eauto.
      - intros [[H1 H2]|(s1 & s2 & -> & H1 & H2)]; [by exists "", (String a s)|]. by exists (String a s1), s2. }
    rewrite Hs, <- nullable_matches.
    assert (Hd : rmatches (seq_ (deriv a r1) r2) s <-> exists s1 s2, s = s1 +:+ s2 /\ rmatches r1 (String a s1) /\ rmatches r2 s2).
    { rewrite seq_matches, seq_inv. split; intros (s1 & s2 & E & H1 & H2); exists s1, s2; (split; [done|]); (split; [by apply IH1|done]). }
    destruct (nullable r1).
    + rewrite alt_matches, alt_inv, Hd, IH2. split; [intros [H|H]; auto|]. intros [[_ H]|H]; auto.
    + rewrite Hd. split; [by right|]. intros [[? _]|H]; done.
  - rewrite alt_matches, !alt_inv. by rewrite IH1, IH2.
  - rewrite star_cons_inv, seq_matches, seq_inv.
    split; intros (s1 & s2 & E & H1 & H2); exists s1, s2; (split; [done|]); (split; [by apply IH|done]).
Qed.

(** The matcher decides. *)
Lemma re_match_correct r s : re_match r s = true <-> rmatches r s.
Proof. revert r. induction s as [|a s IH]; intros r; cbn [re_match]; [apply nullable_matches|]. by rewrite IH, deriv_matches. Qed.

(** ** Pattern text *)

(** A decimal number and what follows it. *)
Fixpoint scan_number (acc : nat) (s : string) : nat * string :=
  match s with
  | String a s' =>
      let n := Ascii.nat_of_ascii a in
      if Nat.leb 48 n && Nat.leb n 57 then scan_number (acc * 10 + (n - 48)) s' else (acc, s)
  | EmptyString => (acc, s)
  end.

(** The ranges of a class, up to its closing bracket. *)
Fixpoint scan_class (s : string) : option (charClass * string) :=
  match s with
  | String "]" s' => Some ([], s')
  | String a (String "-" (String b s') as s1) =>
      if Ascii.eqb b "]" then match scan_class s1 with Some (cls, r) => Some ((a, a) :: cls, r) | None => None end
      else match scan_class s' with Some (cls, r) => Some ((a, b) :: cls, r) | None => None end
  | String a s' => match scan_class s' with Some (cls, r) => Some ((a, a) :: cls, r) | None => None end
  | EmptyString => None
  end.

(** At most [k] times. *)
Fixpoint at_most (k : nat) (r : regex) : regex :=
  match k with O => REps | S k' => RAlt REps (RSeq r (at_most k' r)) end.

Fixpoint exactly (k : nat) (r : regex) : regex := match k with O => REps | S k' => RSeq r (exactly k' r) end.

(** The repetition written behind an atom. *)
Definition scan_postfix (r : regex) (s : string) : option (regex * string) :=
  match s with
  | String "*" s' => Some (RStar r, s')
  | String "+" s' => Some (RSeq r (RStar r), s')
  | String "?" s' => Some (RAlt r REps, s')
  | String "{" s' =>
      let '(m, s1) := scan_number 0 s' in
      match s1 with
      | String "," s2 =>
          match scan_number 0 s2 with
          | (n, String "}" s3) => Some (seq_ (exactly m r) (at_most (n - m) r), s3)
          | _ => None
          end
      | _ => None
      end
  | _ => Some (r, s)
  end.

Definition meta_char (a : Ascii.ascii) : bool :=
  existsb (Ascii.eqb a) ["*"; "+"; "?"; "{"; "}"; "^"; "]"; "."]%char.

(** Choices inside a group, and the atoms of one of them; the fuel is the length of the
    text, and every turn consumes a byte. *)
Fixpoint parse_choice (fuel : nat) (s : string) : option (regex * string) :=
  match fuel with
  | O => None
  | S fuel' =>
      match parse_atoms fuel' s with
      | Some (r, String "|" s') => match parse_choice fuel' s' with Some (r', s1) => Some (RAlt r r', s1) | None => None end
      | other => other
      end
  end
with parse_atoms (fuel : nat) (s : string) : option (regex * string) :=
  match fuel with
  | O => None
  | S fuel' =>
      let more (atom : option (regex * string)) :=
        '(r, s1) ← atom; '(r1, s2) ← scan_postfix r s1; '(r2, s3) ← parse_atoms fuel' s2; Some (seq_ r1 r2, s3) in
      match s with
      | EmptyString | String ")" _ | String "|" _ | String "$" _ => Some (REps, s)
      | String "(" s' => more ('(r, s1) ← parse_choice fuel' s'; match s1 with String ")" s2 => Some (r, s2) | _ => None end)
      | String "[" s' => more ('(cls, s1) ← scan_class s'; Some (RClass cls, s1))
      | String "\" (String a s') => more (Some (RClass [(a, a)], s'))
      | String a s' => if meta_char a then None else more (Some (RClass [(a, a)], s'))
      end
  end.

(** Anchored branches. *)
Fixpoint parse_branches (fuel : nat) (s : string) : option regex :=
  match fuel, s with
  | S fuel', String "^" s' =>
      '(r, s1) ← parse_atoms (String.length s) s';
      match s1 with
      | String "$" EmptyString => Some r
      | String "$" (String "|" s2) => r' ← parse_branches fuel' s2; Some (RAlt r r')
      | _ => None
      end
  | _, _ => None
  end.

Definition regexp_MustCompile (pattern : string) : regex := default RVoid (parse_branches (String.length pattern) pattern).

(** [regexp.MatchString] of a compiled pattern. *)
Definition MatchString (pattern s : string) : bool := re_match (regexp_MustCompile pattern) s.
