(* ===== verification/GoHeap.v ===== *)
(** * GoHeap: pointers, slices and deep copies

    Memory as Go code sees it: a finite map of locations to cells, typed pointers, and
    what a structure with pointers stands for ([denote]) and reaches ([footprint]). A
    copy is deep ([deep_copies]) when it stands for the same value, leaves the cells
    that were there, and reaches only new ones. The combinators are the shapes the
    copying code is made of: values, pointers, slices, structures. *)

From stdpp Require Import base gmap list fin_sets.
From S2P Require Import Prelude.

#[local] Obligation Tactic := idtac.
#[local] Unset Program Cases.

Section heap.
Context {cell : Type}.

Abbreviation heap := (gmap nat cell).

(** A computation on memory; reading a cell at the wrong type is [None]. *)
Definition H (A : Type) : Type := heap -> option (heap * A).

#[global] Instance H_ret : MRet H := fun A a h => Some (h, a).
#[global] Instance H_bind : MBind H := fun A B f m h => match m h with Some (h', a) => f a h' | None => None end.

(** The types a cell can hold. *)
Class Cell (A : Type) := {
  to_cell : A -> cell;
  of_cell : cell -> option A;
  of_to : forall a, of_cell (to_cell a) = Some a;
}.

Record ptr (A : Type) := Ptr { addr : nat }.
#[global] Arguments Ptr {A} addr.
#[global] Arguments addr {A} p.

Definition alloc `{Cell A} (a : A) : H (ptr A) :=
  fun h => let l := fresh (dom h) in Some (<[l := to_cell a]> h, Ptr l).

Definition load `{Cell A} (p : ptr A) : H A :=
  fun h => match h !! addr p ≫= of_cell with Some a => Some (h, a) | None => None end.

(** ** Structures in memory *)

Class Deep (A V : Type) := {
  denote : heap -> A -> option V;
  footprint : heap -> A -> gset nat;
  deep_frame : forall h h' a v, denote h a = Some v -> (forall l, l ∈ footprint h a -> h' !! l = h !! l) ->
    denote h' a = Some v /\ footprint h' a = footprint h a;
  deep_dom : forall h a v, denote h a = Some v -> footprint h a ⊆ dom h;
}.

(** Larger memory changes nothing for what was there. *)
Lemma deep_grow `{Deep A V} (h h' : heap) a v :
  denote h a = Some v -> h ⊆ h' -> denote h' a = Some v /\ footprint h' a = footprint h a.
Proof.
  intros Hd Hs. eapply deep_frame; [done|]. intros l Hl%(deep_dom _ _ _ Hd). apply elem_of_dom in Hl as [c Hc].
  rewrite Hc. by eapply lookup_weaken.
Qed.

(** Values without pointers. *)
Program Definition plain (A : Type) : Deep A A := {| denote _ a := Some a; footprint _ _ := ∅ |}.
Next Obligation. by intros. Qed.
Next Obligation. intros. set_solver. Qed.

#[global] Program Instance Deep_prod `{DA : Deep A V} `{DB : Deep B W} : Deep (A * B) (V * W) := {|
  denote h p := match denote h p.1, denote h p.2 with Some v, Some w => Some (v, w) | _, _ => None end;
  footprint h p := footprint h p.1 ∪ footprint h p.2;
|}.
Next Obligation.
  intros A V DA B W DB h h' [a b] [v w]. cbn. destruct (denote h a) as [v'|] eqn:Ea; [|done].
  destruct (denote h b) as [w'|] eqn:Eb; [|done]. intros [= -> ->] Hl.
  destruct (deep_frame h h' a v Ea) as [-> ->]; [intros; apply Hl; set_solver|].
  destruct (deep_frame h h' b w Eb) as [-> ->]; [intros; apply Hl; set_solver|]. done.
Qed.
Next Obligation.
  intros A V DA B W DB h [a b] [v w]. cbn. destruct (denote h a) as [v'|] eqn:Ea; [|done].
  destruct (denote h b) as [w'|] eqn:Eb; [|done]. intros _. apply deep_dom in Ea, Eb. set_solver.
Qed.

#[global] Program Instance Deep_option `{DA : Deep A V} : Deep (option A) (option V) := {|
  denote h o := match o with Some a => Some <$> denote h a | None => Some None end;
  footprint h o := match o with Some a => footprint h a | None => ∅ end;
|}.
Next Obligation.
  intros A V DA h h' [a|] v; cbn; [|done]. intros (v' & Ea & ->)%fmap_Some Hl.
  by destruct (deep_frame h h' a v' Ea Hl) as [-> ->].
Qed.
Next Obligation. intros A V DA h [a|] v; cbn; [|set_solver]. intros (v' & Ea & _)%fmap_Some. by eapply deep_dom. Qed.

#[global] Program Instance Deep_list `{DA : Deep A V} : Deep (list A) (list V) := {|
  denote h l := mapM (denote h) l;
  footprint h l := ⋃ (map (footprint h) l);
|}.
Next Obligation.
  intros A V DA h h' l vs Hd Hl. apply mapM_Some in Hd. revert Hl. induction Hd as [|a v l vs Ea HF IH]; cbn; intros Hl; [done|].
  destruct (deep_frame h h' a v Ea) as [-> ->]; [intros; apply Hl; set_solver|]. cbn.
  destruct IH as [IH ->]; [intros; apply Hl; set_solver|]. by rewrite IH.
Qed.
Next Obligation.
  intros A V DA h l vs Hd%mapM_Some. induction Hd as [|a v l vs Ea HF IH]; cbn; [set_solver|]. apply deep_dom in Ea. set_solver.
Qed.

#[global] Program Instance Deep_ptr `{CA : Cell A} `{DA : Deep A V} : Deep (ptr A) V := {|
  denote h p := match h !! addr p ≫= of_cell with Some a => denote h a | None => None end;
  footprint h p := {[ addr p ]} ∪ match h !! addr p ≫= of_cell with Some a => footprint h a | None => ∅ end;
|}.
Next Obligation.
  intros A CA V DA h h' p v. cbn. destruct (h !! addr p ≫= of_cell) as [a|] eqn:E; [|done]. intros Hd Hl.
  rewrite (Hl (addr p)) by set_solver. rewrite E.
  destruct (deep_frame h h' a v Hd) as [-> ->]; [intros; apply Hl; set_solver|]. done.
Qed.
Next Obligation.
  intros A CA V DA h p v. cbn. destruct (h !! addr p ≫= of_cell) as [a|] eqn:E; [|done]. intros Hd%deep_dom.
  apply bind_Some in E as (c & Ec & _). apply elem_of_dom_2 in Ec. set_solver.
Qed.

(** A structure by its fields, and a value seen differently. *)
Program Definition Deep_via {A B V W : Type} (fields : A -> B) (value : V -> W) (D : Deep B V) : Deep A W := {|
  denote h a := value <$> denote h (fields a);
  footprint h a := footprint h (fields a);
|}.
Next Obligation.
  intros A B V W fields value D h h' a w. cbn. intros (v & E & ->)%fmap_Some Hl. by destruct (deep_frame h h' _ v E Hl) as [-> ->].
Qed.
Next Obligation. intros A B V W fields value D h a w. cbn. intros (v & E & _)%fmap_Some. by eapply deep_dom. Qed.

(** ** Deep copies *)

Definition deep_copies `{Deep A V} (copy : A -> H A) : Prop :=
  forall h a v, denote h a = Some v ->
    exists h' a', copy a h = Some (h', a') /\ h ⊆ h' /\ denote h' a' = Some v /\ footprint h' a' ## dom h.

Lemma copies_plain (A : Type) : @deep_copies A A (plain A) mret.
Proof. intros h a v [= <-]. exists h, a. split_and!; done. Qed.

Definition copy_pair {A B} (f : A -> H A) (g : B -> H B) (p : A * B) : H (A * B) := a ← f p.1; b ← g p.2; mret (a, b).

Lemma copies_pair `{Deep A V} `{Deep B W} (f : A -> H A) (g : B -> H B) :
  deep_copies f -> deep_copies g -> deep_copies (copy_pair f g).
Proof.
  intros Hf Hg h [a b] [v w] Hd. cbn in Hd. destruct (denote h a) as [v'|] eqn:Ea; [|done].
  destruct (denote h b) as [w'|] eqn:Eb; [|done]. injection Hd as -> ->.
  destruct (Hf h a v Ea) as (h1 & a1 & E1 & Hs1 & D1 & F1). destruct (deep_grow h h1 b w Eb Hs1) as [Eb1 _].
  destruct (Hg h1 b w Eb1) as (h2 & b1 & E2 & Hs2 & D2 & F2). exists h2, (a1, b1).
  unfold copy_pair, mbind, H_bind. cbn. rewrite E1, E2. split; [done|]. split; [by transitivity h1|].
  destruct (deep_grow h1 h2 a1 v D1 Hs2) as [-> ->]. rewrite D2. split; [done|].
  apply subseteq_dom in Hs1. set_solver.
Qed.

Definition copy_option {A} (f : A -> H A) (o : option A) : H (option A) :=
  match o with Some a => b ← f a; mret (Some b) | None => mret None end.

Lemma copies_option `{Deep A V} (f : A -> H A) : deep_copies f -> deep_copies (copy_option f).
Proof.
  intros Hf h [a|] v; cbn.
  - intros (v' & Ea & ->)%fmap_Some. destruct (Hf h a v' Ea) as (h1 & a1 & E1 & Hs & D1 & F1).
    exists h1, (Some a1). unfold mbind, H_bind. rewrite E1. cbn. by rewrite D1.
  - intros [= <-]. exists h, None. split_and!; done.
Qed.

(** The elements of a slice, in order. *)
Fixpoint copy_elements {A} (f : A -> H A) (l : list A) : H (list A) :=
  match l with [] => mret [] | a :: rest => b ← f a; bs ← copy_elements f rest; mret (b :: bs) end.

Lemma copies_elements `{Deep A V} (f : A -> H A) : deep_copies f -> deep_copies (copy_elements f).
Proof.
  intros Hf h l vs Hd%mapM_Some. revert h Hd. induction l as [|a l IH] in vs |- *; intros h Hd.
  - apply Forall2_nil_inv_l in Hd as ->. exists h, []. split_and!; done.
  - apply Forall2_cons_inv_l in Hd as (v & vs' & Ea & HF & ->).
    destruct (Hf h a v Ea) as (h1 & a1 & E1 & Hs1 & D1 & F1).
    assert (HF1 : Forall2 (fun x y => denote h1 x = Some y) l vs').
    { eapply Forall2_impl; [exact HF|]. intros x y Hx. by apply (deep_grow h h1 x y Hx Hs1). }
    destruct (IH vs' h1 HF1) as (h2 & l1 & E2 & Hs2 & D2 & F2). exists h2, (a1 :: l1).
    cbn [copy_elements]. unfold mbind, H_bind. rewrite E1, E2. split; [done|]. split; [by transitivity h1|].
    destruct (deep_grow h1 h2 a1 v D1 Hs2) as [G1 G2]. cbn in D2, F2 |- *. rewrite G1. cbn. rewrite D2. split; [done|].
    rewrite G2. apply subseteq_dom in Hs1. set_solver.
Qed.

(** What is pointed to, in a new cell; where a cell is taken from does not matter, so
    it is taken when its contents are known. *)
Definition copy_ptr `{Cell A} (f : A -> H A) (p : ptr A) : H (ptr A) := a ← load p; b ← f a; alloc b.

Lemma copies_ptr `{CA : Cell A} `{DA : Deep A V} (f : A -> H A) : deep_copies f -> deep_copies (copy_ptr f).
Proof.
  intros Hf h p v. cbn. destruct (h !! addr p ≫= of_cell) as [a|] eqn:E; [|done]. intros Ea.
  destruct (Hf h a v Ea) as (h1 & a1 & E1 & Hs1 & D1 & F1). set (l := fresh (dom h1)).
  assert (Hl : l ∉ dom h1) by apply is_fresh. exists (<[l := to_cell a1]> h1), (Ptr l).
  assert (El : load p h = Some (h, a)) by (unfold load; by rewrite E).
  unfold copy_ptr, mbind, H_bind. rewrite El, E1. split; [done|].
  assert (Hs2 : h1 ⊆ <[l := to_cell a1]> h1) by (by apply insert_subseteq, not_elem_of_dom).
  split; [by transitivity h1|]. cbn. rewrite lookup_insert_eq. cbn. rewrite of_to.
  destruct (deep_grow h1 _ a1 v D1 Hs2) as [-> ->]. split; [done|]. apply subseteq_dom in Hs1. set_solver.
Qed.

(** A structure copied field by field. *)
Lemma copies_via {A B V W} (D : Deep B V) (fields : A -> B) (build : B -> A) (value : V -> W) (copy : A -> H A) (copyB : B -> H B) :
  (forall b, fields (build b) = b) -> @deep_copies B V D copyB ->
  (forall a h, copy a h = match copyB (fields a) h with Some (h', b) => Some (h', build b) | None => None end) ->
  @deep_copies A W (Deep_via fields value D) copy.
Proof.
  intros Hfb HB Hc h a w. cbn. intros (v & E & ->)%fmap_Some. destruct (HB h (fields a) v E) as (h' & b & E1 & Hs & Db & Fb).
  exists h', (build b). rewrite Hc, E1. split; [done|]. split; [done|]. by rewrite Hfb, Db.
Qed.

(** ** Separation *)

(** Memory changed at will in the cells [f], and grown, but not otherwise. *)
Definition changed_within (f : gset nat) (h h' : heap) : Prop := forall l, l ∈ dom h -> l ∉ f -> h' !! l = h !! l.

Lemma deep_changed `{Deep A V} (h h' : heap) a v f :
  denote h a = Some v -> footprint h a ## f -> changed_within f h h' -> denote h' a = Some v.
Proof.
  intros Hd Hf Hc. eapply deep_frame; [done|]. intros l Hl. apply Hc; [by eapply deep_dom|]. set_solver.
Qed.

(** Two structures stand for the same value, and whatever is then done to what one of
    them reaches, the other still stands for it. *)
Definition apart `{Deep A V} (h : heap) (a a' : A) (v : V) : Prop :=
  denote h a = Some v /\ denote h a' = Some v /\
  (forall h', changed_within (footprint h a') h h' -> denote h' a = Some v) /\
  (forall h', changed_within (footprint h a) h h' -> denote h' a' = Some v).

Lemma copies_apart `{Deep A V} (copy : A -> H A) (h : heap) a v :
  deep_copies copy -> denote h a = Some v -> exists h' a', copy a h = Some (h', a') /\ apart h' a a' v.
Proof.
  intros Hc Hd. destruct (Hc h a v Hd) as (h' & a' & E & Hs & Hd' & Hf). exists h', a'.
  destruct (deep_grow h h' a v Hd Hs) as [Ha Hfa]. pose proof (deep_dom h a v Hd) as Hdom. split; [done|].
  split_and!; try done; intros h'' Hw; eapply deep_changed; try done; set_solver.
Qed.
End heap.
#[global] Arguments H : clear implicits.
#[global] Arguments Cell : clear implicits.
#[global] Arguments Deep : clear implicits.
