(* ===== verification/Normalize.v ===== *)
(** * Normalize: from a live object to the bytes that are hashed and diffed

    Models [internal/pipeline/actors.go], the normalization half of
    [internal/pipeline/process.go] ([stripVolatileFields], [normalizeObject],
    [ObjectHash], [NormalizedJSON]) and the informer transform of
    [internal/watch/pool.go] ([TransformObject]), whose annotation the
    normalization reads back and strips.

    The [unstructured] accessors are third-party code: the development sees them
    through [UnstructuredAPI] and its documented laws ([Json]). Log calls are not
    modelled. *)

From Stdlib Require Import ZArith Lia.
From stdpp Require Import base gmap strings list sorting.
From S2P Require Import Prelude Sha256 Json Redact.

(** ** Actors *)

Definition ActorsAnnotation : string := "internal.kuberecord.io/actors".

Definition actorsSeparator : string := ",".

Definition EncodeActors (actors : list string) : string := join actorsSeparator actors.

(** [decodeActors] skips the empty segments. *)
Definition decodeActors (value : string) : list string :=
  filter (fun part => part <> "") (split_char ","%char value).

(** The manager of one managedFields entry; [None] for a malformed entry. *)
Definition entry_manager (entry : json) : option string :=
  match entry with
  | JObj m =>
      let manager := string_at (m !! "manager") in
      Some (if String.eqb manager "" then "unknown" else manager)
  | _ => None
  end.

(** The [seen] set after the loop. *)
Definition seen_managers (managedFields : list json) : gmap string unit :=
  foldl (fun seen entry =>
    match entry_manager entry with
    | Some manager => <[manager := tt]> seen
    | None => seen
    end) ∅ managedFields.

Section normalize.
Context `{U : UnstructuredAPI}.

Definition ExtractActors (obj : object) : list string :=
  match NestedManagedFields obj with
  | Some (JArr managedFields) =>
      match managedFields with
      | [] => []
      | _ => let seen := seen_managers managedFields in
             if decide (seen = ∅) then [] else sorted_keys seen
      end
  | _ => []
  end.

(** [TransformObject] on an [*unstructured.Unstructured]; anything else is
    returned as it is. *)
Definition TransformObject (u : object) : object :=
  match NestedManagedFields u with
  | None => u
  | Some _ =>
      let actors := ExtractActors u in
      let u1 :=
        match actors with
        | [] => u
        | _ =>
            let annotations := default ∅ (GetAnnotations u) in
            SetAnnotations u (<[ActorsAnnotation := EncodeActors actors]> annotations)
        end in
      RemoveManagedFields u1
  end.

(** ** Normalization *)

Record normalizedObject := mkNormalized {
  n_JSON : string;
  n_Hash : string;
  n_UID : string;
  n_ResourceVersion : string;
  n_APIVersion : string;
  n_Labels : gmap string string;
  n_Actors : list string;
}.

Definition volatile (field : string) : bool :=
  bool_decide (field ∈ ["managedFields"; "resourceVersion"; "generation"]).

(** What the loop over [metadata] does with one field: [None] drops it. *)
Definition strip_field (stripActorsAnnotation : bool) (field : string) (value : json) : option json :=
  if volatile field then None
  else if String.eqb field "annotations" then
    if negb stripActorsAnnotation then Some value
    else match value with
         | JObj existing =>
             if decide (size existing = 1%nat) then None
             else Some (JObj (delete ActorsAnnotation existing))
         | _ => Some value
         end
  else Some value.

Definition strip_metadata (stripActorsAnnotation : bool) (metadata : object) : object :=
  map_imap (strip_field stripActorsAnnotation) metadata.

Definition stripVolatileFields (obj : object) (stripActorsAnnotation : bool) : object :=
  match obj !! "metadata" with
  | Some (JObj metadata) =>
      <["metadata" := JObj (strip_metadata stripActorsAnnotation metadata)]> obj
  | _ => obj
  end.

(** The actors annotation as the typed accessor reports it. *)
Definition actors_annotation (obj : object) : option string :=
  match GetAnnotations obj with
  | Some annotations => annotations !! ActorsAnnotation
  | None => None
  end.

(** The bytes [normalizeObject] marshals. *)
Definition normalized_json (obj : object) (policy : option RedactionPolicy) : result string :=
  let hasActorsAnnotation := bool_decide (is_Some (actors_annotation obj)) in
  match Apply policy (stripVolatileFields obj hasActorsAnnotation) with
  | Ok redacted => Marshal (JObj redacted)
  | Err e => Err e
  end.

Definition normalizeObject (obj : object) (policy : option RedactionPolicy) : result normalizedObject :=
  let actors := match actors_annotation obj with
                | Some value => decodeActors value
                | None => ExtractActors obj
                end in
  match normalized_json obj policy with
  | Err e => Err e
  | Ok objJSON =>
      Ok (mkNormalized objJSON (sha256_hex objJSON) (GetUID obj) (GetResourceVersion obj)
            (GVKVersion obj) (default ∅ (GetLabels obj)) actors)
  end.

Definition ObjectHash (obj : object) (policy : option RedactionPolicy) : result string :=
  match normalizeObject obj policy with
  | Ok norm => Ok (n_Hash norm)
  | Err e => Err e
  end.

Definition NormalizedJSON (obj : object) (policy : option RedactionPolicy) : result string :=
  match normalizeObject obj policy with
  | Ok norm => Ok (n_JSON norm)
  | Err e => Err e
  end.

End normalize.

(** ** Lemmas *)

Lemma seen_managers_lookup items (seen : gmap string unit) k :
  is_Some (foldl (fun seen entry =>
    match entry_manager entry with
    | Some manager => <[manager := tt]> seen
    | None => seen
    end) seen items !! k) <-> is_Some (seen !! k) \/ Some k ∈ map entry_manager items.
Proof.
  revert seen. induction items as [|x items IH]; intros seen; simpl.
  - rewrite elem_of_nil. tauto.
  - rewrite IH, elem_of_cons. destruct (entry_manager x) as [mgr|]; [|naive_solver].
    destruct (decide (mgr = k)) as [->|Hne].
    + rewrite lookup_insert_eq. naive_solver.
    + rewrite lookup_insert_ne by done. naive_solver.
Qed.

Lemma elem_of_seen_managers items k :
  k ∈ sorted_keys (seen_managers items) <-> Some k ∈ map entry_manager items.
Proof.
  rewrite elem_of_sorted_keys. unfold seen_managers. rewrite seen_managers_lookup, lookup_empty.
  split; [intros [[? [=]]|]|]; tauto.
Qed.

Lemma sorted_keys_empty {V} : sorted_keys (∅ : gmap string V) = [].
Proof. unfold sorted_keys. by rewrite map_to_list_empty. Qed.

Section lemmas.
Context `{U : UnstructuredAPI} `{L : !UnstructuredLaws U}.

Lemma ExtractActors_eq obj :
  ExtractActors obj =
  match meta_field "managedFields" obj with
  | Some (JArr items) => sorted_keys (seen_managers items)
  | _ => []
  end.
Proof.
  unfold ExtractActors. rewrite NestedManagedFields_spec.
  destruct (meta_field "managedFields" obj) as [[| | | |items| |]|]; try done.
  destruct items as [|x items]; [symmetry; apply (sorted_keys_empty (V:=unit))|].
  case_decide as E; [|done]. symmetry. rewrite E. apply sorted_keys_empty.
Qed.

(** Every harvested actor is a non-empty name. *)
Lemma ExtractActors_elem obj a :
  a ∈ ExtractActors obj ->
  exists items e, meta_field "managedFields" obj = Some (JArr items) /\ e ∈ items /\
    entry_manager e = Some a.
Proof.
  rewrite ExtractActors_eq.
  destruct (meta_field "managedFields" obj) as [[| | | |items| |]|]; try by rewrite elem_of_nil.
  rewrite elem_of_seen_managers, list_elem_of_fmap. intros [e [He Hin]]. naive_solver.
Qed.

Lemma entry_manager_nonempty e a : entry_manager e = Some a -> a <> "".
Proof.
  destruct e; simpl; try done. destruct (String.eqb _ "") eqn:E; intros [= <-]; [done|]. by bools.
Qed.

Lemma decode_encode actors :
  Forall (fun a => a <> "" /\ has_char ","%char a = false) actors ->
  decodeActors (EncodeActors actors) = actors.
Proof.
  intros HF. unfold decodeActors, EncodeActors, actorsSeparator.
  destruct actors as [|a l]; [done|].
  change "," with (String ","%char ""). rewrite split_join; [|done|].
  - assert (HF' : Forall (fun a => a <> "") (a :: l)) by (eapply Forall_impl; [done|]; naive_solver).
    revert HF'. generalize (a :: l). induction 1 as [|x l' Hx _ IH]; [done|].
    rewrite filter_cons_True by done. by rewrite IH.
  - eapply Forall_impl; [done|]. naive_solver.
Qed.

Lemma NormalizedJSON_eq obj p : NormalizedJSON obj p = normalized_json obj p.
Proof. unfold NormalizedJSON, normalizeObject. by destruct (normalized_json obj p). Qed.

Lemma ObjectHash_eq obj p :
  ObjectHash obj p = match normalized_json obj p with Ok j => Ok (sha256_hex j) | Err e => Err e end.
Proof. unfold ObjectHash, normalizeObject. by destruct (normalized_json obj p). Qed.

Lemma meta_field_eq obj m f : obj !! "metadata" = Some (JObj m) -> meta_field f obj = m !! f.
Proof. unfold meta_field. by intros ->. Qed.

Lemma actors_annotation_eq obj obj' :
  meta_field "annotations" obj = meta_field "annotations" obj' ->
  actors_annotation obj = actors_annotation obj'.
Proof. unfold actors_annotation. rewrite !GetAnnotations_spec. by intros ->. Qed.

Lemma strip_metadata_lookup b m f :
  strip_metadata b m !! f = m !! f ≫= strip_field b f.
Proof. unfold strip_metadata. by rewrite map_lookup_imap. Qed.

Lemma strip_field_volatile b f v : volatile f = true -> strip_field b f v = None.
Proof. unfold strip_field. by intros ->. Qed.

Lemma strip_metadata_ext b m m' :
  (forall f, volatile f = false -> m !! f = m' !! f) -> strip_metadata b m = strip_metadata b m'.
Proof.
  intros H. apply map_eq. intros f. rewrite !strip_metadata_lookup.
  destruct (volatile f) eqn:E.
  - destruct (m !! f), (m' !! f); simpl; by rewrite ?strip_field_volatile.
  - by rewrite H.
Qed.

(** Stripping and an edit outside [metadata] commute. *)
Lemma strip_insert b obj k v :
  k <> "metadata" ->
  stripVolatileFields (<[k := v]> obj) b = <[k := v]> (stripVolatileFields obj b).
Proof.
  intros Hk. unfold stripVolatileFields. rewrite lookup_insert_ne by done.
  destruct (obj !! "metadata") as [[| | | | |m|]|]; try done. by rewrite insert_insert_ne.
Qed.

Lemma strip_lookup b obj k :
  k <> "metadata" -> stripVolatileFields obj b !! k = obj !! k.
Proof.
  intros Hk. unfold stripVolatileFields.
  destruct (obj !! "metadata") as [[| | | | |m|]|]; try done. by rewrite lookup_insert_ne.
Qed.

Lemma rewrite_at_strip s rest f obj obj' b :
  seg_name s <> "metadata" -> rewrite_at (s :: rest) f (JObj obj) = JObj obj' ->
  rewrite_at (s :: rest) f (JObj (stripVolatileFields obj b)) = JObj (stripVolatileFields obj' b) /\
  obj' !! "metadata" = obj !! "metadata".
Proof.
  intros Hs. cbn [rewrite_at]. rewrite strip_lookup by done.
  destruct (obj !! seg_name s) as [child|]; intros [= <-]; [|done].
  rewrite strip_insert by done. by rewrite lookup_insert_ne.
Qed.
Lemma string_map_JStr (x : gmap string string) : string_map (Some (JObj (JStr <$> x))) = Some x.
Proof.
  unfold string_map. rewrite decide_True.
  - f_equal. apply map_eq. intros k. rewrite lookup_omap, lookup_fmap. by destruct (x !! k).
  - intros k v. rewrite lookup_fmap. destruct (x !! k); intros [= <-]. done.
Qed.

Lemma string_map_inv a x : string_map (Some (JObj a)) = Some x -> a = JStr <$> x.
Proof.
  unfold string_map. case_decide as H; intros [= <-]. apply map_eq. intros k.
  rewrite lookup_fmap, lookup_omap. specialize (H k).
  destruct (a !! k) as [v|]; [|done]. simpl. specialize (H v eq_refl). by destruct v.
Qed.

(** What the API server guarantees of annotations: absent, or a non-empty map of
    strings; and the operator's own annotation is not on the object. *)
Definition plain_annotations (m : object) : Prop :=
  match m !! "annotations" with
  | None => True
  | Some v => exists x, v = JObj (JStr <$> x) /\ x <> ∅ /\ x !! ActorsAnnotation = None
  end.

Definition with_actors (value : string) (m : object) : object :=
  <["annotations" := JObj (JStr <$> <[ActorsAnnotation := value]>
      (default ∅ (string_map (m !! "annotations"))))]> m.

Lemma plain_actors_annotation obj m :
  obj !! "metadata" = Some (JObj m) -> plain_annotations m -> actors_annotation obj = None.
Proof.
  intros Hm Hp. unfold actors_annotation. rewrite GetAnnotations_spec, (meta_field_eq _ _ _ Hm).
  unfold plain_annotations in Hp. destruct (m !! "annotations") as [v|]; [|done].
  destruct Hp as [x [-> [_ Hx]]]. by rewrite string_map_JStr.
Qed.

(** Stripping undoes what the transform stashed. *)
Lemma strip_with_actors value m :
  plain_annotations m ->
  strip_metadata true (with_actors value m) = strip_metadata false m.
Proof.
  intros Hp. apply map_eq. intros f. rewrite !strip_metadata_lookup. unfold with_actors.
  destruct (decide (f = "annotations")) as [->|Hf].
  - rewrite lookup_insert_eq. cbn [mbind option_bind]. unfold strip_field.
    change (volatile "annotations") with false. cbn -[size delete].
    unfold plain_annotations in Hp. destruct (m !! "annotations") as [v|].
    + destruct Hp as [x [-> [Hne Hx]]]. rewrite string_map_JStr. cbn -[size delete].
      rewrite map_size_fmap, map_size_insert_None by done.
      assert (size x <> 0%nat) by (by rewrite map_size_empty_iff).
      rewrite decide_False by lia.
      by rewrite fmap_insert, delete_insert_id by (by rewrite lookup_fmap, Hx).
    + cbn -[size delete]. by rewrite map_size_fmap, map_size_insert_None.
  - rewrite lookup_insert_ne by done. destruct (m !! f); [|done]. simpl. unfold strip_field.
    by rewrite (proj2 (String.eqb_neq _ _) Hf).
Qed.

Lemma strip_delete_managedFields b m :
  strip_metadata b (delete "managedFields" m) = strip_metadata b m.
Proof.
  apply strip_metadata_ext. intros f Hf. apply lookup_delete_ne. by intros <-.
Qed.

Definition has_actors_annotation (obj : object) : bool :=
  bool_decide (is_Some (actors_annotation obj)).

Definition actors_of (obj : object) : list string :=
  match actors_annotation obj with Some v => decodeActors v | None => ExtractActors obj end.

(** When an edit of [metadata] is invisible to normalization. *)
Lemma normalizeObject_metadata obj m m' p :
  obj !! "metadata" = Some (JObj m) ->
  let obj' := <["metadata" := JObj m']> obj in
  strip_metadata (has_actors_annotation obj') m' = strip_metadata (has_actors_annotation obj) m ->
  (forall f, f ∈ ["uid"; "resourceVersion"; "labels"] -> m' !! f = m !! f) ->
  actors_of obj' = actors_of obj ->
  normalizeObject obj' p = normalizeObject obj p.
Proof.
  intros Hm obj' Hs Hf Ha.
  assert (Hm' : obj' !! "metadata" = Some (JObj m')) by apply lookup_insert_eq.
  assert (Hj : normalized_json obj' p = normalized_json obj p).
  { unfold normalized_json, stripVolatileFields. rewrite Hm, Hm'.
    fold (has_actors_annotation obj) (has_actors_annotation obj'). rewrite Hs.
    unfold obj'. by rewrite insert_insert_eq. }
  unfold normalizeObject. fold (actors_of obj) (actors_of obj'). rewrite Hj, Ha.
  rewrite !GetUID_spec, !GetResourceVersion_spec, !GetLabels_spec.
  rewrite (GVKVersion_spec obj' obj) by (unfold obj'; by rewrite lookup_insert_ne).
  rewrite !(meta_field_eq _ _ _ Hm), !(meta_field_eq _ _ _ Hm'). by rewrite !Hf by compute_done.
Qed.

Lemma transform_without_actors obj m p :
  obj !! "metadata" = Some (JObj m) -> plain_annotations m -> ExtractActors obj = [] ->
  normalizeObject (<["metadata" := JObj (delete "managedFields" m)]> obj) p = normalizeObject obj p.
Proof.
  intros Hm Hp Hnil. set (obj' := <["metadata" := _]> obj).
  assert (Hm' : obj' !! "metadata" = Some (JObj (delete "managedFields" m))) by apply lookup_insert_eq.
  assert (Hann : actors_annotation obj' = actors_annotation obj).
  { apply actors_annotation_eq.
    by rewrite (meta_field_eq _ _ _ Hm), (meta_field_eq _ _ _ Hm'), lookup_delete_ne. }
  apply (normalizeObject_metadata obj m); [done| | |].
  - fold obj'. unfold has_actors_annotation. rewrite Hann. apply strip_delete_managedFields.
  - intros f Hf. apply lookup_delete_ne. intros <-. by apply (bool_decide_eq_true_2 _) in Hf.
  - fold obj'. unfold actors_of. rewrite Hann, (plain_actors_annotation _ _ Hm Hp), Hnil.
    by rewrite ExtractActors_eq, (meta_field_eq _ _ _ Hm'), lookup_delete_eq.
Qed.

Lemma transform_with_actors obj m actors p :
  obj !! "metadata" = Some (JObj m) -> plain_annotations m ->
  ExtractActors obj = actors ->
  Forall (fun a => a <> "" /\ has_char ","%char a = false) actors ->
  normalizeObject
    (<["metadata" := JObj (delete "managedFields" (with_actors (EncodeActors actors) m))]> obj) p =
  normalizeObject obj p.
Proof.
  intros Hm Hp Hacts HF. set (obj' := <["metadata" := _]> obj).
  pose proof (plain_actors_annotation _ _ Hm Hp) as Hnone.
  assert (Hsome : actors_annotation obj' = Some (EncodeActors actors)).
  { unfold actors_annotation. rewrite GetAnnotations_spec.
    rewrite (meta_field_eq obj' _ _ (lookup_insert_eq _ _ _)), lookup_delete_ne by done.
    unfold with_actors. rewrite lookup_insert_eq, string_map_JStr. apply lookup_insert_eq. }
  apply (normalizeObject_metadata obj m); [done| | |].
  - fold obj'. unfold has_actors_annotation. rewrite Hnone, Hsome, strip_delete_managedFields.
    rewrite bool_decide_true, bool_decide_false by (done || by intros [? [=]]).
    by apply strip_with_actors.
  - intros f Hf. unfold with_actors. rewrite lookup_delete_ne, lookup_insert_ne; [done| |];
      intros <-; by apply (bool_decide_eq_true_2 _) in Hf.
  - fold obj'. unfold actors_of. rewrite Hnone, Hsome, Hacts. by apply decode_encode.
Qed.

(** Stripping keeps an annotation other than the operator's own. *)
Lemma strip_annotations b x k v :
  k <> ActorsAnnotation -> x !! k = Some v ->
  (b = true -> is_Some (x !! ActorsAnnotation)) ->
  strip_field b "annotations" (JObj (JStr <$> x)) =
    Some (JObj (JStr <$> if b then delete ActorsAnnotation x else x)).
Proof.
  intros Hk Hv Hb. unfold strip_field. change (volatile "annotations") with false.
  destruct b; [|done]. cbn -[size delete]. destruct (Hb eq_refl) as [w Hw].
  rewrite map_size_fmap, decide_False; [by rewrite fmap_delete|].
  intros H1.
  rewrite <- (insert_delete_id x _ w Hw), map_size_insert_None in H1 by apply lookup_delete_eq.
  assert (delete ActorsAnnotation x = ∅) as H0 by (apply map_size_empty_inv; lia).
  apply (f_equal (lookup k)) in H0. by rewrite lookup_delete_ne, Hv in H0.
Qed.

Lemma rewrite_at_annotation obj m x k v v' b :
  k <> ActorsAnnotation -> x !! k = Some v -> b = bool_decide (is_Some (x !! ActorsAnnotation)) ->
  obj !! "metadata" = Some (JObj m) -> m !! "annotations" = Some (JObj (JStr <$> x)) ->
  rewrite_at [mkSegment "metadata" false; mkSegment "annotations" false; mkSegment k false]
    (fun _ => JStr v') (JObj (stripVolatileFields obj b)) =
  JObj (stripVolatileFields
    (<["metadata" := JObj (<["annotations" := JObj (JStr <$> <[k := v']> x)]> m)]> obj) b).
Proof.
  intros Hk Hv Hb Hm Ha.
  assert (Hb' : b = true -> is_Some (x !! ActorsAnnotation)) by (intros ->; symmetry in Hb; by bools).
  unfold stripVolatileFields. rewrite Hm, lookup_insert_eq, insert_insert_eq.
  cbn [rewrite_at seg_name seg_wildcard]. rewrite lookup_insert_eq, insert_insert_eq.
  rewrite strip_metadata_lookup, Ha. cbn [mbind option_bind].
  rewrite (strip_annotations b x k v) by done. do 2 f_equal. f_equal.
  rewrite lookup_fmap. set (y := if b then _ else x).
  assert (Hy : y !! k = Some v) by (unfold y; destruct b; [by rewrite lookup_delete_ne|done]).
  rewrite Hy. cbn [fmap option_fmap option_map]. apply map_eq. intros f.
  rewrite strip_metadata_lookup. destruct (decide (f = "annotations")) as [->|Hf].
  - rewrite !lookup_insert_eq. cbn [mbind option_bind].
    rewrite (strip_annotations b (<[k := v']> x) k v').
    + rewrite <- fmap_insert. do 3 f_equal. unfold y. destruct b; [|done]. by rewrite delete_insert_ne.
    + done.
    + apply lookup_insert_eq.
    + by rewrite lookup_insert_ne.
  - by rewrite !lookup_insert_ne, strip_metadata_lookup by done.
Qed.
End lemmas.

(** ** Properties *)

Section properties.
Context `{U : UnstructuredAPI} `{L : !UnstructuredLaws U}.

(** Volatile fields are invisible: two versions of an object that differ
    only in managedFields, resourceVersion and generation have the same
    normalized JSON and the same content hash, under every policy. *)
Lemma volatile_fields_invisible (obj : object) (m m' : object) (p : option RedactionPolicy) :
  obj !! "metadata" = Some (JObj m) ->
  (forall f, f ∉ ["managedFields"; "resourceVersion"; "generation"] -> m !! f = m' !! f) ->
  let obj' := <["metadata" := JObj m']> obj in
  NormalizedJSON obj' p = NormalizedJSON obj p /\ ObjectHash obj' p = ObjectHash obj p.
Proof.
  intros Hm Hagree obj'. rewrite !NormalizedJSON_eq, !ObjectHash_eq.
  assert (Hm' : obj' !! "metadata" = Some (JObj m')) by apply lookup_insert_eq.
  assert (E : normalized_json obj' p = normalized_json obj p); [|by rewrite E].
  unfold normalized_json. rewrite (actors_annotation_eq obj' obj).
  - unfold stripVolatileFields. rewrite Hm, Hm'. unfold obj'. rewrite insert_insert_eq.
    rewrite (strip_metadata_ext _ m' m); [done|].
    intros f Hf. symmetry. apply Hagree. intros Hin. unfold volatile in Hf. by bools.
  - rewrite (meta_field_eq _ _ _ Hm), (meta_field_eq _ _ _ Hm'). symmetry. apply Hagree. compute_done.
Qed.

(** C32. Redaction happens before hashing: rewriting the values a policy path
    reaches outside [metadata] leaves the normalized JSON and the hash unchanged,
    so a scrubbed value leaks neither through a diff nor through a hash. *)
Theorem redacted_values_invisible (obj obj' : object) (p : option RedactionPolicy)
    (path : redactionPath) (f : json -> json) (s : redactionSegment) (rest : list redactionSegment) :
  (forall q, p = Some q -> compiled q) ->
  path ∈ policy_paths (default builtinRedaction p) ->
  path_segments path = s :: rest -> seg_name s <> "metadata" ->
  rewrite_at (path_segments path) f (JObj obj) = JObj obj' ->
  NormalizedJSON obj' p = NormalizedJSON obj p /\ ObjectHash obj' p = ObjectHash obj p.
Proof.
  intros Hc Hin Hp Hs Hr. rewrite !NormalizedJSON_eq, !ObjectHash_eq. rewrite Hp in Hr.
  assert (E : normalized_json obj' p = normalized_json obj p); [|by rewrite E].
  unfold normalized_json.
  destruct (rewrite_at_strip s rest f obj obj' (bool_decide (is_Some (actors_annotation obj))) Hs Hr)
    as [Hstrip Hmeta].
  rewrite (actors_annotation_eq obj' obj) by (unfold meta_field; by rewrite Hmeta).
  rewrite <- Hp in Hstrip.
  rewrite (Apply_rewrite_at p path f _ _ ltac:(intros; by apply compiled_ok, Hc) Hin Hstrip).
  done.
Qed.

(** The informer transform is transparent: harvesting the actors into the
    internal annotation and dropping managedFields changes nothing of what the
    pipeline derives from the object (JSON, hash, uid, labels, actors), provided
    field-manager names hold no comma and annotations are as the API server
    stores them. *)
Lemma TransformObject_transparent (obj m : object) (p : option RedactionPolicy) :
  obj !! "metadata" = Some (JObj m) -> plain_annotations m ->
  Forall (fun a => has_char ","%char a = false) (ExtractActors obj) ->
  normalizeObject (TransformObject obj) p = normalizeObject obj p.
Proof.
  intros Hm Hp Hc. unfold TransformObject. rewrite NestedManagedFields_spec.
  destruct (meta_field "managedFields" obj) as [mf|] eqn:Hmf; [|done].
  assert (Hacts : Forall (fun a => a <> "" /\ has_char ","%char a = false) (ExtractActors obj)).
  { rewrite Forall_forall in Hc |- *. intros a Ha. split; [|by apply Hc].
    apply ExtractActors_elem in Ha as (items & e & _ & _ & He). by eapply entry_manager_nonempty. }
  destruct (ExtractActors obj) as [|a l] eqn:E.
  - rewrite (RemoveManagedFields_spec _ _ Hm). by apply transform_without_actors.
  - rewrite GetAnnotations_spec, (meta_field_eq _ _ _ Hm), (SetAnnotations_spec _ _ _ Hm).
    rewrite (RemoveManagedFields_spec _ (with_actors (EncodeActors (a :: l)) m))
      by apply lookup_insert_eq.
    rewrite insert_insert_eq. by apply transform_with_actors.
Qed.

(** The built-in scrub covers annotations end to end: changing the text of
    an annotation the policy redacts (for instance
    kubectl.kubernetes.io/last-applied-configuration, always redacted) leaves the
    normalized JSON and the hash unchanged. *)
Lemma redacted_annotation_invisible (obj m : object) (x : gmap string string)
    (k v v' : string) (p : option RedactionPolicy) (path : redactionPath) :
  (forall q, p = Some q -> compiled q) ->
  path ∈ policy_paths (default builtinRedaction p) ->
  path_segments path = [mkSegment "metadata" false; mkSegment "annotations" false; mkSegment k false] ->
  k <> ActorsAnnotation -> x !! k = Some v ->
  obj !! "metadata" = Some (JObj m) -> m !! "annotations" = Some (JObj (JStr <$> x)) ->
  let obj' := <["metadata" := JObj (<["annotations" := JObj (JStr <$> <[k := v']> x)]> m)]> obj in
  NormalizedJSON obj' p = NormalizedJSON obj p /\ ObjectHash obj' p = ObjectHash obj p.
Proof.
  intros Hc Hin Hseg Hk Hv Hm Ha obj'. rewrite !NormalizedJSON_eq, !ObjectHash_eq.
  assert (E : normalized_json obj' p = normalized_json obj p); [|by rewrite E].
  unfold normalized_json.
  assert (Hann : actors_annotation obj' = x !! ActorsAnnotation).
  { unfold actors_annotation. rewrite GetAnnotations_spec.
    rewrite (meta_field_eq obj' _ _ (lookup_insert_eq _ _ _)), lookup_insert_eq, string_map_JStr.
    by apply lookup_insert_ne. }
  assert (Hann' : actors_annotation obj = x !! ActorsAnnotation).
  { unfold actors_annotation. by rewrite GetAnnotations_spec, (meta_field_eq _ _ _ Hm), Ha, string_map_JStr. }
  rewrite Hann, Hann'. set (b := bool_decide _).
  rewrite (Apply_rewrite_at p path (fun _ => JStr v') (stripVolatileFields obj b)
    (stripVolatileFields obj' b)); [done|intros; by apply compiled_ok, Hc|done|].
  rewrite Hseg. by apply (rewrite_at_annotation obj m x k v v').
Qed.

End properties.

(** ** Witnesses *)

Definition manager_entry (name : string) : json := JObj {[ "manager" := JStr name ]}.

Definition deploy_meta (rv : string) : object :=
  list_to_map [("uid", JStr "u-1"); ("resourceVersion", JStr rv); ("generation", JNum "3");
    ("annotations", JObj {[ "team" := JStr "core" ]});
    ("managedFields", JArr [manager_entry "kubectl"; manager_entry "argocd"; JNull; manager_entry ""])].

Definition deploy_obj : object :=
  list_to_map [("apiVersion", JStr "apps/v1"); ("kind", JStr "Deployment");
    ("metadata", JObj (deploy_meta "41")); ("spec", JObj {[ "token" := JStr "s3cr3t" ]})].

Definition deploy_obj' : object :=
  <["spec" := JObj {[ "token" := JStr "rotated" ]}]> deploy_obj.

Example deploy_actors : ExtractActors deploy_obj = ["argocd"; "kubectl"; "unknown"].
Proof. vm_compute. reflexivity. Qed.

Example deploy_json :
  NormalizedJSON (TransformObject deploy_obj) (Some (policy_of ["spec.token"])) =
  Ok (String.concat (String dquote "") [
    "{"; "apiVersion"; ":"; "apps/v1"; ","; "kind"; ":"; "Deployment"; ","; "metadata"; ":{";
    "annotations"; ":{"; "team"; ":"; "core"; "},"; "uid"; ":"; "u-1"; "},"; "spec"; ":{";
    "token"; ":"; "[REDACTED]"; "}}"]).
Proof. vm_compute. reflexivity. Qed.

Lemma volatile_fields_invisible_witness :
  NormalizedJSON (<["metadata" := JObj (deploy_meta "42")]> deploy_obj) None =
    NormalizedJSON deploy_obj None /\
  ObjectHash (<["metadata" := JObj (deploy_meta "42")]> deploy_obj) None = ObjectHash deploy_obj None.
Proof.
  apply (volatile_fields_invisible deploy_obj (deploy_meta "41") (deploy_meta "42") None).
  - vm_compute. reflexivity.
  - intros f Hf. unfold deploy_meta. simpl.
    destruct (decide (f = "resourceVersion")) as [->|Hne].
    + destruct Hf. apply elem_of_cons. right. apply elem_of_cons. by left.
    + destruct (decide (f = "uid")) as [->|Hu]; [done|].
      by rewrite !(lookup_insert_ne _ "uid"), !(lookup_insert_ne _ "resourceVersion") by done.
Defined.

Definition token_policy : option RedactionPolicy := Some (policy_of ["spec.token"]).

Lemma token_policy_compiled q : token_policy = Some q -> compiled q.
Proof. intros [= <-]. exists ["spec.token"]. vm_compute. reflexivity. Qed.

Lemma redacted_values_invisible_witness :
  NormalizedJSON deploy_obj' token_policy = NormalizedJSON deploy_obj token_policy /\
  ObjectHash deploy_obj' token_policy = ObjectHash deploy_obj token_policy.
Proof.
  apply (redacted_values_invisible deploy_obj deploy_obj' token_policy
    (mkPath "spec.token" [mkSegment "spec" false; mkSegment "token" false])
    (fun _ => JStr "rotated") (mkSegment "spec" false) [mkSegment "token" false]).
  - apply token_policy_compiled.
  - vm_compute. right. by left.
  - reflexivity.
  - done.
  - vm_compute. reflexivity.
Defined.

Lemma TransformObject_transparent_witness :
  normalizeObject (TransformObject deploy_obj) None = normalizeObject deploy_obj None.
Proof.
  apply (TransformObject_transparent deploy_obj (deploy_meta "41")).
  - vm_compute. reflexivity.
  - exists {[ "team" := "core" ]}. split; [|done]. vm_compute. reflexivity.
  - vm_compute. repeat constructor.
Defined.

Definition kubectl_meta (text : string) : object :=
  list_to_map [("uid", JStr "u-1");
    ("annotations", JObj (JStr <$> ({[ LastAppliedConfigAnnotation := text ]} : gmap string string)))].

Definition kubectl_obj : object :=
  list_to_map [("kind", JStr "Secretish"); ("metadata", JObj (kubectl_meta "password=1"))].

Lemma redacted_annotation_invisible_witness :
  let obj' := <["metadata" := JObj (<["annotations" := JObj (JStr <$>
    <[LastAppliedConfigAnnotation := "password=2"]>
      ({[ LastAppliedConfigAnnotation := "password=1" ]} : gmap string string))]>
    (kubectl_meta "password=1"))]> kubectl_obj in
  NormalizedJSON obj' None = NormalizedJSON kubectl_obj None /\
  ObjectHash obj' None = ObjectHash kubectl_obj None.
Proof.
  apply (redacted_annotation_invisible kubectl_obj (kubectl_meta "password=1")
    {[ LastAppliedConfigAnnotation := "password=1" ]} LastAppliedConfigAnnotation
    "password=1" "password=2" None
    (mkPath (AnnotationRedactionPath LastAppliedConfigAnnotation)
      [mkSegment "metadata" false; mkSegment "annotations" false;
       mkSegment LastAppliedConfigAnnotation false])).
  - done.
  - vm_compute. by left.
  - reflexivity.
  - done.
  - vm_compute. reflexivity.
  - vm_compute. reflexivity.
  - vm_compute. reflexivity.
Defined.
