(* ===== verification/Pipeline.v ===== *)
(** * Pipeline: the data plane's state

    Models [internal/sink/record.go], the job half of [internal/sink/sink.go],
    and the state of [internal/pipeline/pipeline.go]: the per-sink state with its
    dedup cache, pending close-outs and warm scopes, the registry of sink states,
    the lifecycle hooks ([RemoveSink], [EvictScope], [MarkScopeWarm]), the metrics
    the pipeline publishes and the log throttle.

    A [*sinkState] is a heap location: a commit callback keeps the pointer it
    captured, so after [RemoveSink] it settles into the discarded state and not
    into the one a later work item creates under the same name.

    A commit callback is a closure in Go; here it is a [commit] value that names
    the closure and holds what it captured, run by [run_commit].

    Handlers are computations of the state monad [M]; the two interfaces the
    pipeline does not implement (lister, router), the redaction registry, the
    clock and the sinks' answers are the [env]. Logging is not modelled, except
    for the throttle's state. *)

From Stdlib Require Import ZArith Lia.
From stdpp Require Import base gmap strings list.
From S2P Require Import Prelude Identity HashCache Json Redact.

(** ** Records and jobs *)

Record Record_ := mkRecord {
  Timestamp : Z;
  ClusterID : string;
  EventType : string;
  r_APIGroup : string;
  r_APIVersion : string;
  r_Kind : string;
  r_Namespace : string;
  r_Name : string;
  r_UID : string;
  ResourceVersion : string;
  Labels : gmap string string;
  Actors : list string;
  Data : string;
  Diff : string;
  SHA256 : string;
}.

(** The commit callbacks [Process] builds, with their captured variables; [loc]
    is the captured [*sinkState]. *)
Inductive commit :=
| CommitUpsert (key : Key) (loc : nat) (objectKey : string) (version : Z)
    (confirmedEntry : CacheEntry) (revertEntry : option CacheEntry)
| CommitDelete (key : Key) (loc : nat) (objectKey : string) (version : Z)
| CommitCloseOut (key : Key) (loc : nat) (objectKey : string) (record : Record_).

Record Job := mkJob { j_Record : Record_; j_Commit : commit }.

(** ** State *)

Record sinkState := mkSinkState {
  cache : hashCache;
  closeOuts : gmap string (list Record_);
  warm : gset ScopeKey;
}.

Definition newSinkState : sinkState := mkSinkState ∅ ∅ ∅.

Record pipelineMetrics := mkMetrics {
  dedupSkips : Z;
  dropped : gmap string Z;
  hashcacheEntries : gmap string Z;
  safeMode : gmap (string * ScopeKey) Z;
}.

(** Calls on the workqueue, a third-party component, in order. *)
Inductive queueCall :=
| QAdd (key : Key)
| QAddRateLimited (key : Key)
| QForget (key : Key)
| QDone (key : Key).

Record pstate := mkState {
  heap : gmap nat sinkState;
  nextLoc : nat;
  states : gmap string nat;
  queue : list queueCall;
  sent : list (string * Job);
  attempts : nat;
  ticks : nat;
  metrics : pipelineMetrics;
  unavailableSinkLog : gmap string Z;
}.

(** What a sink's [Writer] is to the pipeline: its checkpoint policy, when it
    declares one, and its answer to the [n]-th enqueue. *)
Record Writer := mkWriter {
  w_CheckpointEvery : option Z;
  w_Enqueue : nat -> Job -> option error;
}.

Record env := mkEnv {
  clusterID : string;
  (** [Get]: the object when found, and [scopeActive]. *)
  lister : Key -> result (option object * bool);
  router : string -> option Writer;
  (** [None]: no registry is wired. *)
  redactions : option (Key -> option (option RedactionPolicy));
  clock : nat -> Z;
}.

(** ** The monad *)

Definition M (A : Type) : Type := pstate -> pstate * A.

#[export] Instance M_ret : MRet M := fun A a s => (s, a).
#[export] Instance M_bind : MBind M := fun A B f m s => let '(s', a) := m s in f a s'.

Definition modify (f : pstate -> pstate) : M unit := fun s => (f s, tt).

Definition when (b : bool) (m : M unit) : M unit := if b then m else mret tt.

(** ** Heap access *)

Definition deref (s : pstate) (loc : nat) : sinkState := default newSinkState (heap s !! loc).

Definition set_heap (h : gmap nat sinkState) (s : pstate) : pstate :=
  mkState h (nextLoc s) (states s) (queue s) (sent s) (attempts s) (ticks s) (metrics s)
    (unavailableSinkLog s).

Definition store (loc : nat) (st : sinkState) (s : pstate) : pstate :=
  set_heap (<[loc := st]> (heap s)) s.

Definition set_cache (c : hashCache) (st : sinkState) : sinkState :=
  mkSinkState c (closeOuts st) (warm st).

(** Run a cache operation on the sink state at [loc]. *)
Definition on_cache {A} (loc : nat) (op : hashCache -> hashCache * A) : M A := fun s =>
  let st := deref s loc in
  let '(c, a) := op (cache st) in
  (store loc (set_cache c st) s, a).

Definition set_metrics (m : pipelineMetrics) (s : pstate) : pstate :=
  mkState (heap s) (nextLoc s) (states s) (queue s) (sent s) (attempts s) (ticks s) m
    (unavailableSinkLog s).

Definition inc_dedupSkips : M unit := modify (fun s =>
  let m := metrics s in
  set_metrics (mkMetrics (dedupSkips m + 1) (dropped m) (hashcacheEntries m) (safeMode m)) s).

Definition inc_dropped (reason : string) : M unit := modify (fun s =>
  let m := metrics s in
  set_metrics (mkMetrics (dedupSkips m) (<[reason := (default 0 (dropped m !! reason) + 1)%Z]> (dropped m))
    (hashcacheEntries m) (safeMode m)) s).

Definition set_entries (sink : string) (n : option Z) (m : pipelineMetrics) : pipelineMetrics :=
  mkMetrics (dedupSkips m) (dropped m) (partial_alter (fun _ => n) sink (hashcacheEntries m)) (safeMode m).

Definition set_safeMode (sink : string) (scope : ScopeKey) (n : option Z) (m : pipelineMetrics) :
    pipelineMetrics :=
  mkMetrics (dedupSkips m) (dropped m) (hashcacheEntries m)
    (partial_alter (fun _ => n) (sink, scope) (safeMode m)).

Definition DropReasonScopeStopped : string := "scope_stopped".
Definition DropReasonEphemeralDelete : string := "ephemeral_delete".

(** [recordCacheEntries]. *)
Definition recordCacheEntries (sinkName : string) (loc : nat) : M unit := modify (fun s =>
  set_metrics (set_entries sinkName (Some (Z.of_nat (Len (cache (deref s loc))))) (metrics s)) s).

(** [recordScopeUnwarmed]. *)
Definition recordScopeUnwarmed (key : Key) : M unit := modify (fun s =>
  set_metrics (set_safeMode (k_Sink key) (Scope key) (Some 1%Z) (metrics s)) s).

(** ** The queue, the clock and the sinks *)

Definition queue_call (c : queueCall) : M unit := modify (fun s =>
  mkState (heap s) (nextLoc s) (states s) (queue s ++ [c]) (sent s) (attempts s) (ticks s)
    (metrics s) (unavailableSinkLog s)).

(** [Pipeline.Add]. *)
Definition Add (key : Key) : M unit := queue_call (QAdd key).

(** [time.Now()]. *)
Definition now (e : env) : M Z := fun s =>
  (mkState (heap s) (nextLoc s) (states s) (queue s) (sent s) (attempts s) (S (ticks s))
     (metrics s) (unavailableSinkLog s), clock e (ticks s)).

(** [writer.Enqueue]: an accepted job is handed to the sink and its callback will
    run later; a refused one is gone. *)
Definition Enqueue (writer : Writer) (sinkName : string) (job : Job) : M (option error) := fun s =>
  match w_Enqueue writer (attempts s) job with
  | None => (mkState (heap s) (nextLoc s) (states s) (queue s) (sent s ++ [(sinkName, job)])
               (S (attempts s)) (ticks s) (metrics s) (unavailableSinkLog s), None)
  | Some err => (mkState (heap s) (nextLoc s) (states s) (queue s) (sent s)
               (S (attempts s)) (ticks s) (metrics s) (unavailableSinkLog s), Some err)
  end.

(** ** The registry of sink states *)

(** [sinkStateRegistry.get]. *)
Definition registry_get (name : string) : M nat := fun s =>
  match states s !! name with
  | Some loc => (s, loc)
  | None =>
      let loc := nextLoc s in
      (mkState (<[loc := newSinkState]> (heap s)) (S loc) (<[name := loc]> (states s)) (queue s)
         (sent s) (attempts s) (ticks s) (metrics s) (unavailableSinkLog s), loc)
  end.

(** [sinkStateRegistry.lookup]. *)
Definition registry_lookup (name : string) (s : pstate) : option nat := states s !! name.

Definition set_states (m : gmap string nat) (s : pstate) : pstate :=
  mkState (heap s) (nextLoc s) m (queue s) (sent s) (attempts s) (ticks s) (metrics s)
    (unavailableSinkLog s).

(** [deleteSinkSeries]: of the series it drops, the modelled one is safe_mode,
    matched on the sink label alone. *)
Definition deleteSinkSeries (name : string) (m : pipelineMetrics) : pipelineMetrics :=
  mkMetrics (dedupSkips m) (dropped m) (hashcacheEntries m)
    (filter (fun kv => kv.1.1 <> name) (safeMode m)).

(** [sinkStateRegistry.remove]. *)
Definition registry_remove (name : string) : M unit := modify (fun s =>
  let s1 := set_states (delete name (states s)) s in
  set_metrics (deleteSinkSeries name (set_entries name None (metrics s1))) s1).

(** [sinkStateRegistry.evictScope]. *)
Definition registry_evictScope (name : string) (scope : ScopeKey) : M unit := fun s =>
  match registry_lookup name s with
  | None => (s, tt)
  | Some loc =>
      let st := deref s loc in
      let s1 := store loc (mkSinkState (cache st) (closeOuts st) (warm st ∖ {[ scope ]})) s in
      let s2 := set_metrics (set_safeMode name scope None (metrics s1)) s1 in
      let st2 := deref s2 loc in
      let '(c, _) := DeletePrefix (scopeKeyPrefix scope) (cache st2) in
      let s3 := store loc (set_cache c st2) s2 in
      (set_metrics (set_entries name (Some (Z.of_nat (Len (cache (deref s3 loc))))) (metrics s3)) s3, tt)
  end.

(** [sinkStateRegistry.markScopeWarm]. *)
Definition registry_markScopeWarm (name : string) (scope : ScopeKey) : M unit :=
  loc ← registry_get name;
  modify (fun s =>
    let st := deref s loc in
    let s1 := store loc (mkSinkState (cache st) (closeOuts st) ({[ scope ]} ∪ warm st)) s in
    set_metrics (set_safeMode name scope (Some 0%Z) (metrics s1)) s1).

Definition RemoveSink (name : string) : M unit := registry_remove name.
Definition EvictScope (sinkName : string) (scope : ScopeKey) : M unit :=
  registry_evictScope sinkName scope.
Definition MarkScopeWarm (sinkName : string) (scope : ScopeKey) : M unit :=
  registry_markScopeWarm sinkName scope.

(** [sinkState.scopeWarm]: the exact scope, then the all-namespaces scope. *)
Definition scopeWarm (st : sinkState) (key : Key) : bool :=
  bool_decide (Scope key ∈ warm st) ||
  bool_decide (mkScopeKey (s_Group (Scope key)) (s_Kind (Scope key)) "" ∈ warm st).

(** [redactionFor]: [None] is [ok = false]. *)
Definition redactionFor (e : env) (key : Key) : option (option RedactionPolicy) :=
  match redactions e with
  | None => Some None
  | Some registry => registry key
  end.

(** ** Log throttle *)

(** [logThrottle.allow] with the instant it reads; times are nanoseconds. *)
Definition unavailableSinkLogInterval : Z := 30 * 1000000000.

Definition throttle_allow (interval : Z) (key : string) (now : Z) (last : gmap string Z) :
    gmap string Z * bool :=
  match last !! key with
  | Some t => if Z.ltb (now - t) interval then (last, false) else (<[key := now]> last, true)
  | None => (<[key := now]> last, true)
  end.

Definition allow (e : env) (key : string) : M bool :=
  t ← now e;
  ((fun s =>
    let '(last, ok) := throttle_allow unavailableSinkLogInterval key t (unavailableSinkLog s) in
    (mkState (heap s) (nextLoc s) (states s) (queue s) (sent s) (attempts s) (ticks s) (metrics s) last,
     ok)) : M bool).

(** ** Close-out retry queue *)

Definition closeOuts_Add (key : string) (record : Record_) (q : gmap string (list Record_)) :
    gmap string (list Record_) :=
  <[key := default [] (q !! key) ++ [record]]> q.

Definition closeOuts_TakeAll (key : string) (q : gmap string (list Record_)) :
    gmap string (list Record_) * list Record_ :=
  (delete key q, default [] (q !! key)).

Definition on_closeOuts {A} (loc : nat)
    (op : gmap string (list Record_) -> gmap string (list Record_) * A) : M A := fun s =>
  let st := deref s loc in
  let '(q, a) := op (closeOuts st) in
  (store loc (mkSinkState (cache st) q (warm st)) s, a).

Definition remember_closeOut (loc : nat) (objectKey : string) (record : Record_) : M unit :=
  on_closeOuts loc (fun q => (closeOuts_Add objectKey record q, tt)).
