(* ===== verification/Process.v ===== *)
(** * Process: settling one work item

    Models the second half of [internal/pipeline/process.go]: the checkpoint
    policy, [Process], [processUpsert], [emitDelete], [forgetEphemeral], the
    close-out writes and their retries, the commit callbacks, and [processNext]
    of [internal/pipeline/pipeline.go].

    [processUpsert] reads the cached entry and then decides; the decision is a
    function of the entry, the normalized object, and the sink's checkpoint
    cadence, so it is a definition of its own ([decide_write]). [jsondiff] is
    third-party code: the class [JsonDiff]. *)

From Stdlib Require Import ZArith Lia.
From stdpp Require Import base gmap strings list.
From S2P Require Import Prelude Identity HashCache Sha256 Json Redact JsonPatch Normalize Pipeline.

(** ** Checkpoints *)

Definition checkpointEveryFor (writer : Writer) : Z :=
  match w_CheckpointEvery writer with
  | Some every => every
  | None => 0
  end.

Inductive checkpointReason := checkpointReasonCount | checkpointReasonSize.

Definition checkpointDue (every modifiedRun : Z) (diffBytes fullJSON : string) :
    option checkpointReason :=
  if Z.leb every 0 then None
  else if Z.leb every modifiedRun then Some checkpointReasonCount
  else if Nat.ltb (String.length fullJSON) (String.length diffBytes) then Some checkpointReasonSize
  else None.

Definition errSinkUnavailable : error := "sink is not currently available".
Definition errRedactionUnavailable : error := "no redaction policy is installed for this scope".

Section process.
Context `{C : ZstdCodec} `{U : UnstructuredAPI} `{D : JsonDiff}.

(** ** The decision *)

Inductive decision :=
| Duplicate
| Write (eventType diff : string) (carriesFullState : bool) (modifiedRun : Z)
    (revertEntry : option CacheEntry).

(** The diff against a cached baseline, when every step of producing one
    succeeds. *)
Definition diff_against (cached : CacheEntry) (json : string) : option string :=
  match JSON cached, decodeBaseline cached with
  | Some _, Ok (Some baseline) =>
      match CompareJSON baseline json with
      | Ok patch => match MarshalPatch patch with Ok s => Some s | Err _ => None end
      | Err _ => None
      end
  | _, _ => None
  end.

(** Same name, different incarnation. *)
Definition reincarnated (cached : CacheEntry) (uid : string) : bool :=
  negb (String.eqb (UID cached) "") && negb (String.eqb (UID cached) uid).

(** The deduplication and reincarnation block, less its close-out write and the
    Snapshot tag. *)
Definition decide_write (cached : option CacheEntry) (hash uid json : string) (ephemeral : bool)
    (every : Z) : decision :=
  match cached with
  | None => Write "Added" "" true 0 None
  | Some e =>
      if reincarnated e uid then Write "Added" "" true 0 None
      else if String.eqb (Hash e) hash then Duplicate
      else if ephemeral then Write "Modified" "" true 0 (Some e)
      else match diff_against e json with
           | None => Write "Modified" "" true 0 (Some e)
           | Some patchBytes =>
               match checkpointDue every (ModifiedSinceCheckpoint e + 1) patchBytes json with
               | Some _ => Write "Checkpoint" patchBytes true 0 (Some e)
               | None => Write "Modified" patchBytes false (ModifiedSinceCheckpoint e + 1) (Some e)
               end
           end
  end.

(** ** Close-outs *)

Definition deletedRecord (e : env) (ts : Z) (key : Key) (entry : CacheEntry) : Record_ :=
  mkRecord ts (clusterID e) "Deleted" (k_Group key) (APIVersion entry) (k_Kind key)
    (k_Namespace key) (k_Name key) (UID entry) "" ∅ [] "" "" "".

Definition enqueueCloseOut (key : Key) (loc : nat) (writer : Writer) (objectKey : string)
    (record : Record_) : M unit :=
  enqueueErr ← Enqueue writer (k_Sink key)
    (mkJob record (CommitCloseOut key loc objectKey record));
  match enqueueErr with
  | Some _ => _ ← remember_closeOut loc objectKey record; queue_call (QAddRateLimited key)
  | None => mret tt
  end.

Fixpoint enqueueCloseOuts (key : Key) (loc : nat) (writer : Writer) (objectKey : string)
    (records : list Record_) : M unit :=
  match records with
  | [] => mret tt
  | record :: rest =>
      _ ← enqueueCloseOut key loc writer objectKey record;
      enqueueCloseOuts key loc writer objectKey rest
  end.

Definition retryPendingCloseOuts (key : Key) (loc : nat) (writer : Writer) (objectKey : string) :
    M unit :=
  records ← on_closeOuts loc (closeOuts_TakeAll objectKey);
  enqueueCloseOuts key loc writer objectKey records.

(** ** Upserts *)

(** [revertVersion]. *)
Definition revertVersion (loc : nat) (objectKey : string) (version : Z)
    (revertEntry : option CacheEntry) : M bool :=
  match revertEntry with
  | Some e => on_cache loc (CommitIfCurrent objectKey version e)
  | None => on_cache loc (DeleteIfCurrent objectKey version)
  end.

(** The reincarnation branch's close-out: claim the old incarnation and enqueue
    its Deleted row, unless the deletion is already claimed. *)
Definition closeOutOld (e : env) (key : Key) (loc : nat) (writer : Writer) (objectKey : string)
    (cached : CacheEntry) : M unit :=
  claim ← on_cache loc (ReserveDelete objectKey (UID cached));
  match claim with
  | (claimedEntry, _, deleteClaimed) =>
      ts ← now e;
      enqueueCloseOut key loc writer objectKey (deletedRecord e ts key claimedEntry)
  | _ => mret tt
  end.

(** The cache entry a write stores: its diff baseline is compressed, and Events
    store none. *)
Definition confirmed_entry (norm : normalizedObject) (ephemeral : bool) (modifiedRun : Z) :
    CacheEntry :=
  let '(json, enc) :=
    if ephemeral then (None, encodingRaw)
    else let '(data, enc, _) := compressBaseline (n_JSON norm) in (Some data, enc) in
  mkEntry (n_Hash norm) json enc (n_UID norm) (n_APIVersion norm) modifiedRun 0 false.

Definition upsertRecord (e : env) (ts : Z) (key : Key) (norm : normalizedObject)
    (eventType diff : string) (carriesFullState : bool) : Record_ :=
  mkRecord ts (clusterID e) eventType (k_Group key) (n_APIVersion norm) (k_Kind key)
    (k_Namespace key) (k_Name key) (n_UID norm) (n_ResourceVersion norm) (n_Labels norm)
    (n_Actors norm) (if carriesFullState then n_JSON norm else "") diff (n_Hash norm).

(** From [Reserve] to the end of [processUpsert]. *)
Definition export (e : env) (key : Key) (loc : nat) (writer : Writer) (objectKey : string)
    (norm : normalizedObject) (eventType diff : string) (carriesFullState : bool) (modifiedRun : Z)
    (revertEntry : option CacheEntry) : M (option error) :=
  let confirmedEntry := confirmed_entry norm (key_ephemeral key) modifiedRun in
  version ← on_cache loc (Reserve objectKey confirmedEntry);
  _ ← recordCacheEntries (k_Sink key) loc;
  ts ← now e;
  enqueueErr ← Enqueue writer (k_Sink key)
    (mkJob (upsertRecord e ts key norm eventType diff carriesFullState)
       (CommitUpsert key loc objectKey version confirmedEntry revertEntry));
  match enqueueErr with
  | Some err => _ ← revertVersion loc objectKey version revertEntry; mret (Some err)
  | None => mret None
  end.

Definition load (loc : nat) (objectKey : string) : M (option CacheEntry) := fun s =>
  (s, Load objectKey (cache (deref s loc))).

Definition is_warm (loc : nat) (key : Key) : M bool := fun s => (s, scopeWarm (deref s loc) key).

Definition processUpsert (e : env) (key : Key) (loc : nat) (writer : Writer) (obj : object)
    (objectKey : string) : M (option error) :=
  match redactionFor e key with
  | None => mret (Some errRedactionUnavailable)
  | Some policy =>
      match normalizeObject obj policy with
      | Err err => mret (Some err)
      | Ok norm =>
          let ephemeral := key_ephemeral key in
          cached ← load loc objectKey;
          match decide_write cached (n_Hash norm) (n_UID norm) (n_JSON norm) ephemeral
                  (checkpointEveryFor writer) with
          | Duplicate => _ ← inc_dedupSkips; mret None
          | Write eventType diff carriesFullState modifiedRun revertEntry =>
              _ ← match cached with
                  | Some entry =>
                      when (reincarnated entry (n_UID norm) && negb ephemeral)
                        (closeOutOld e key loc writer objectKey entry)
                  | None => mret tt
                  end;
              scopeIsWarm ← is_warm loc key;
              let snapshot := bool_decide (cached = None) && negb ephemeral && negb scopeIsWarm in
              _ ← when snapshot (recordScopeUnwarmed key);
              export e key loc writer objectKey norm
                (if snapshot then "Snapshot" else eventType) diff carriesFullState modifiedRun revertEntry
          end
      end
  end.

(** ** Deletions *)

Definition emitDelete (e : env) (key : Key) (loc : nat) (writer : Writer) (expectedUID : string) :
    M (deleteClaimOutcome * option error) :=
  let objectKey := cacheKey key in
  claim ← on_cache loc (ReserveDelete objectKey expectedUID);
  match claim with
  | (entry, version, deleteClaimed) =>
      ts ← now e;
      enqueueErr ← Enqueue writer (k_Sink key)
        (mkJob (deletedRecord e ts key entry) (CommitDelete key loc objectKey version));
      match enqueueErr with
      | Some err =>
          _ ← on_cache loc (fun c => (UnclaimDelete objectKey version c, tt));
          mret (deleteClaimed, Some err)
      | None => mret (deleteClaimed, None)
      end
  | (_, _, outcome) => mret (outcome, None)
  end.

Definition forgetEphemeral (key : Key) (loc : nat) : M unit :=
  let objectKey := cacheKey key in
  claim ← on_cache loc (ReserveDelete objectKey "");
  match claim with
  | (_, version, deleteClaimed) =>
      removed ← on_cache loc (DeleteIfCurrent objectKey version);
      when removed (recordCacheEntries (k_Sink key) loc)
  | _ => mret tt
  end.

(** ** Process *)

Definition Process (e : env) (key : Key) : M (option error) :=
  match lister e key with
  | Err err => mret (Some err)
  | Ok (obj, scopeActive) =>
      if negb scopeActive then
        _ ← inc_dropped DropReasonScopeStopped; mret None
      else if bool_decide (obj = None) && key_ephemeral key then
        _ ← inc_dropped DropReasonEphemeralDelete;
        loc ← registry_get (k_Sink key);
        _ ← forgetEphemeral key loc;
        mret None
      else
        match router e (k_Sink key) with
        | None => _ ← allow e (k_Sink key); mret (Some errSinkUnavailable)
        | Some writer =>
            loc ← registry_get (k_Sink key);
            let objectKey := cacheKey key in
            _ ← retryPendingCloseOuts key loc writer objectKey;
            match obj with
            | None => r ← emitDelete e key loc writer ""; mret r.2
            | Some o => processUpsert e key loc writer o objectKey
            end
        end
  end.

(** [processNext] on the item the queue handed out. *)
Definition processNext (e : env) (key : Key) : M unit :=
  err ← Process e key;
  _ ← match err with
      | Some _ => queue_call (QAddRateLimited key)
      | None => queue_call (QForget key)
      end;
  queue_call (QDone key).

(** ** Commit callbacks *)

Definition run_commit (c : commit) (ok : bool) : M unit :=
  match c with
  | CommitUpsert key loc objectKey version confirmedEntry revertEntry =>
      if ok then _ ← on_cache loc (CommitIfCurrent objectKey version confirmedEntry); mret tt
      else _ ← revertVersion loc objectKey version revertEntry; queue_call (QAddRateLimited key)
  | CommitDelete key loc objectKey version =>
      if ok then
        _ ← on_cache loc (DeleteIfCurrent objectKey version);
        recordCacheEntries (k_Sink key) loc
      else
        _ ← on_cache loc (fun c => (UnclaimDelete objectKey version c, tt));
        queue_call (QAddRateLimited key)
  | CommitCloseOut key loc objectKey record =>
      if ok then mret tt
      else _ ← remember_closeOut loc objectKey record; queue_call (QAddRateLimited key)
  end.

End process.
