(* ===== verification/Registry.v ===== *)
(** * Registry: the desired-state registry between control plane and data plane

    Models [internal/plan/registry.go]: rule keys in, merged watch targets out.
    The registry keeps two indexes, each rule's target set and a reference-counted
    merge per target key, and updates the second by deltas. The abstract
    specification keeps only the first; the refinement shows that the merged view
    is always exactly what the rules ask for.

    Go ranges over its maps in an unspecified order; the lemmas hold for every
    order ([add_all_inv] and [drop_all_inv] take an arbitrary enumeration). The label-selector parser
    is k8s.io/apimachinery's: the class [SelectorAPI]. The capacity-1 channel of
    [Changes] is a flag: a wake-up is pending or not. *)

From Stdlib Require Import ZArith Lia.
From stdpp Require Import base gmap strings list sorting.
From S2P Require Import Prelude.

(** [labels.Parse(s)] followed by [String()], on non-empty text. *)
Class SelectorAPI := { ParseSelector : string -> result string }.

(** ** Data *)

Record GroupVersionKind := mkGVK { g_Group : string; g_Version : string; g_Kind : string }.

Record WatchTarget := mkTarget {
  t_Sink : string;
  t_GVK : GroupVersionKind;
  t_Namespace : string;
  t_Selector : string;
  t_Redaction : string;
}.

Record TargetKey := mkTargetKey {
  tk_Sink : string;
  tk_GVK : GroupVersionKind;
  tk_Namespace : string;
}.

#[export] Instance GVK_eq_dec : EqDecision GroupVersionKind.
Proof. solve_decision. Defined.
#[export] Instance WatchTarget_eq_dec : EqDecision WatchTarget.
Proof. solve_decision. Defined.
#[export] Instance TargetKey_eq_dec : EqDecision TargetKey.
Proof. solve_decision. Defined.

#[export] Program Instance GVK_countable : Countable GroupVersionKind :=
  inj_countable' (fun g => (g_Group g, g_Version g, g_Kind g))
    (fun t => let '(a, b, c) := t in mkGVK a b c) _.
Next Obligation. by intros []. Qed.

#[export] Program Instance WatchTarget_countable : Countable WatchTarget :=
  inj_countable' (fun t => (t_Sink t, t_GVK t, t_Namespace t, t_Selector t, t_Redaction t))
    (fun t => let '(a, b, c, d, e) := t in mkTarget a b c d e) _.
Next Obligation. by intros []. Qed.

#[export] Program Instance TargetKey_countable : Countable TargetKey :=
  inj_countable' (fun k => (tk_Sink k, tk_GVK k, tk_Namespace k))
    (fun t => let '(a, b, c) := t in mkTargetKey a b c) _.
Next Obligation. by intros []. Qed.

(** [WatchTarget.Key]. *)
Definition target_Key (t : WatchTarget) : TargetKey :=
  mkTargetKey (t_Sink t) (t_GVK t) (t_Namespace t).

Record TargetState := mkTargetState {
  ts_Key : TargetKey;
  RuleKeys : list string;
  Selectors : list string;
  Redactions : list string;
}.

Record targetEntry := mkTargetEntry {
  te_rules : gmap string Z;
  te_selectors : gmap string Z;
  te_redactions : gmap string Z;
}.

Record Registry := mkRegistry {
  rules : gmap string (gset WatchTarget);
  targets : gmap TargetKey targetEntry;
  changes : bool;
}.

Definition New : Registry := mkRegistry ∅ ∅ false.

(** ** Operations *)

Section registry.
Context `{SelectorAPI}.

Definition canonicalizeSelectorString (s : string) : result string :=
  if String.eqb s "" then Ok "" else ParseSelector s.

(** [m[k]++] and [if m[k]--; m[k] <= 0 { delete(m, k) }]. *)
Definition incr (k : string) (m : gmap string Z) : gmap string Z :=
  <[k := (default 0 (m !! k) + 1)%Z]> m.
Definition decr (k : string) (m : gmap string Z) : gmap string Z :=
  let n := (default 0 (m !! k) - 1)%Z in
  if Z.leb n 0 then delete k m else <[k := n]> m.

Definition addRefLocked (ruleKey : string) (t : WatchTarget) (ts : gmap TargetKey targetEntry) :
    gmap TargetKey targetEntry :=
  let key := target_Key t in
  let entry := default (mkTargetEntry ∅ ∅ ∅) (ts !! key) in
  <[key := mkTargetEntry (incr ruleKey (te_rules entry)) (incr (t_Selector t) (te_selectors entry))
             (if String.eqb (t_Redaction t) "" then te_redactions entry
              else incr (t_Redaction t) (te_redactions entry))]> ts.

Definition dropRefLocked (ruleKey : string) (t : WatchTarget) (ts : gmap TargetKey targetEntry) :
    gmap TargetKey targetEntry :=
  let key := target_Key t in
  match ts !! key with
  | None => ts
  | Some entry =>
      let entry' := mkTargetEntry (decr ruleKey (te_rules entry)) (decr (t_Selector t) (te_selectors entry))
             (if String.eqb (t_Redaction t) "" then te_redactions entry
              else decr (t_Redaction t) (te_redactions entry)) in
      if decide (te_rules entry' = ∅) then delete key ts else <[key := entry']> ts
  end.

(** The canonicalized argument set; a selector that does not parse fails the
    whole call. *)
Fixpoint canonicalize (targets : list WatchTarget) : result (gset WatchTarget) :=
  match targets with
  | [] => Ok ∅
  | t :: rest =>
      match canonicalizeSelectorString (t_Selector t) with
      | Err e => Err e
      | Ok sel =>
          match canonicalize rest with
          | Ok desired =>
              Ok ({[ mkTarget (t_Sink t) (t_GVK t) (t_Namespace t) sel (t_Redaction t) ]} ∪ desired)
          | Err e => Err e
          end
      end
  end.

Definition add_all (ruleKey : string) (l : list WatchTarget) (ts : gmap TargetKey targetEntry) :
    gmap TargetKey targetEntry := foldl (fun ts t => addRefLocked ruleKey t ts) ts l.
Definition drop_all (ruleKey : string) (l : list WatchTarget) (ts : gmap TargetKey targetEntry) :
    gmap TargetKey targetEntry := foldl (fun ts t => dropRefLocked ruleKey t ts) ts l.

(** [notifyLocked]: a non-blocking send on a channel of capacity one. *)
Definition notifyLocked (pending : bool) : bool := true.

Definition Upsert (ruleKey : string) (ts : list WatchTarget) (r : Registry) : Registry * option error :=
  match canonicalize ts with
  | Err e => (r, Some e)
  | Ok desired =>
      let current := default ∅ (rules r !! ruleKey) in
      let added := elements (desired ∖ current) in
      let removed := elements (current ∖ desired) in
      let targets' := drop_all ruleKey removed (add_all ruleKey added (targets r)) in
      let changed := negb (bool_decide (added = [])) || negb (bool_decide (removed = [])) in
      let rules' := if decide (desired = ∅) then delete ruleKey (rules r)
                    else <[ruleKey := desired]> (rules r) in
      (mkRegistry rules' targets' (if changed then notifyLocked (changes r) else changes r), None)
  end.

Definition Remove (ruleKey : string) (r : Registry) : Registry :=
  match rules r !! ruleKey with
  | None => r
  | Some current =>
      mkRegistry (delete ruleKey (rules r)) (drop_all ruleKey (elements current) (targets r))
        (notifyLocked (changes r))
  end.

(** The reader's receive on [Changes]. *)
Definition take_change (r : Registry) : Registry * bool :=
  (mkRegistry (rules r) (targets r) false, changes r).

Definition state_of (key : TargetKey) (entry : targetEntry) : TargetState :=
  mkTargetState key (sorted_keys (te_rules entry)) (sorted_keys (te_selectors entry))
    (sorted_keys (te_redactions entry)).

Definition Snapshot (r : Registry) : gmap TargetKey TargetState :=
  map_imap (fun key entry => Some (state_of key entry)) (targets r).

Definition RulesForSink (sinkName : string) (r : Registry) : list string :=
  sorted_keys (map_fold (fun key entry acc =>
    if String.eqb (tk_Sink key) sinkName
    then map_fold (fun ruleKey _ acc => <[ruleKey := tt]> acc) acc (te_rules entry)
    else acc) (∅ : gmap string unit) (targets r)).

Definition TargetCountForRule (ruleKey : string) (r : Registry) : nat :=
  size (set_map target_Key (default ∅ (rules r !! ruleKey)) : gset TargetKey).

End registry.

(** ** The reference counts

    A contribution is a pair of a rule and one of its targets; the merged view
    counts contributions. *)

Abbreviation contribution := (string * WatchTarget)%type.

Definition nz (n : nat) : option Z := match n with O => None | S _ => Some (Z.of_nat n) end.

Definition cnt (f : contribution -> bool) (G : gset contribution) : nat :=
  size (filter (fun p => f p = true) G).

(** Contributions to [key] whose index (rule, selector or redaction) is [k]. *)
Definition hits (key : TargetKey) (ix : contribution -> option string) (k : string) (p : contribution) : bool :=
  bool_decide (target_Key p.2 = key) && bool_decide (ix p = Some k).

Definition ix_rule (p : contribution) : option string := Some p.1.
Definition ix_selector (p : contribution) : option string := Some (t_Selector p.2).
Definition ix_redaction (p : contribution) : option string :=
  if String.eqb (t_Redaction p.2) "" then None else Some (t_Redaction p.2).

Definition map_ok (key : TargetKey) (ix : contribution -> option string) (m : gmap string Z)
    (G : gset contribution) : Prop :=
  forall k, m !! k = nz (cnt (hits key ix k) G).

Definition entry_ok (key : TargetKey) (oe : option targetEntry) (G : gset contribution) : Prop :=
  match oe with
  | None => forall p, p ∈ G -> target_Key p.2 <> key
  | Some en =>
      (exists p, p ∈ G /\ target_Key p.2 = key) /\ map_ok key ix_rule (te_rules en) G /\
      map_ok key ix_selector (te_selectors en) G /\ map_ok key ix_redaction (te_redactions en) G
  end.

Definition refs_ok (ts : gmap TargetKey targetEntry) (G : gset contribution) : Prop :=
  forall key, entry_ok key (ts !! key) G.

Lemma cnt_add f x G : x ∉ G -> cnt f ({[ x ]} ∪ G) = ((if f x then 1 else 0) + cnt f G)%nat.
Proof.
  intros Hx. unfold cnt. rewrite filter_union_L by apply _. destruct (f x) eqn:E.
  - rewrite filter_singleton_True_L by (apply _ || done). rewrite size_union by set_solver. by rewrite size_singleton.
  - rewrite filter_singleton_False_L by (apply _ || congruence). by rewrite union_empty_l_L.
Qed.

Lemma cnt_drop f x G : x ∈ G -> cnt f G = ((if f x then 1 else 0) + cnt f (G ∖ {[ x ]}))%nat.
Proof.
  intros Hx. rewrite <- cnt_add by set_solver. f_equal. apply set_eq. intros y.
  destruct (decide (y = x)); set_solver.
Qed.

Lemma cnt_pos f G : (0 < cnt f G)%nat <-> exists p, p ∈ G /\ f p = true.
Proof.
  unfold cnt. split.
  - intros H. destruct (set_choose_or_empty (filter (fun p => f p = true) G)) as [[p Hp]|He].
    + apply elem_of_filter in Hp. naive_solver.
    + rewrite He, size_empty in H. lia.
  - intros [p [Hp Hf]]. destruct (size (filter (fun p => f p = true) G)) eqn:E; [|lia].
    apply size_empty_inv in E. assert (p ∈ filter (fun p => f p = true) G) by (by apply elem_of_filter).
    set_solver.
Qed.

Lemma nz_some n : is_Some (nz n) <-> (0 < n)%nat.
Proof. destruct n; simpl; split; try lia; [by intros [? [=]]|by eexists]. Qed.

Lemma map_ok_add key ix m G x :
  x ∉ G -> target_Key x.2 = key -> map_ok key ix m G ->
  map_ok key ix (match ix x with Some k => incr k m | None => m end) ({[ x ]} ∪ G).
Proof.
  intros Hx Hk Hm k. rewrite cnt_add by done. unfold hits at 1. rewrite bool_decide_true by done. simpl.
  destruct (ix x) as [k0|]; [|by rewrite bool_decide_false].
  unfold incr. destruct (decide (k0 = k)) as [->|Hne].
  - rewrite lookup_insert_eq, bool_decide_true by done. rewrite Hm.
    destruct (cnt (hits key ix k) G); simpl; f_equal; lia.
  - rewrite lookup_insert_ne by done. rewrite bool_decide_false by congruence. apply Hm.
Qed.

Lemma map_ok_drop key ix m G x :
  x ∈ G -> target_Key x.2 = key -> map_ok key ix m G ->
  map_ok key ix (match ix x with Some k => decr k m | None => m end) (G ∖ {[ x ]}).
Proof.
  intros Hx Hk Hm k. pose proof (cnt_drop (hits key ix k) x G Hx) as Hc. unfold hits at 2 in Hc.
  rewrite bool_decide_true in Hc by done. simpl in Hc.
  destruct (ix x) as [k0|]; [|rewrite bool_decide_false in Hc by done; by rewrite Hm, Hc].
  unfold decr. destruct (decide (k0 = k)) as [->|Hne].
  - rewrite bool_decide_true in Hc by done. rewrite Hm, Hc.
    destruct (cnt (hits key ix k) (G ∖ {[ x ]})) as [|n]; [simpl; by rewrite lookup_delete_eq|].
    assert (E : (default 0 (nz (1 + S n)) - 1 = Z.of_nat (S n))%Z)
      by (change (Z.of_nat (S (S n)) - 1 = Z.of_nat (S n))%Z; lia).
    rewrite E. destruct (Z.leb_spec (Z.of_nat (S n)) 0); [lia|]. by rewrite lookup_insert_eq, Hm, Hc, E.
  - rewrite bool_decide_false in Hc by congruence. simpl in Hc.
    case_match; [rewrite lookup_delete_ne by done|rewrite lookup_insert_ne by done]; by rewrite Hm, Hc.
Qed.

(** Contributions to other keys do not count. *)
Lemma map_ok_ext key ix m G G' :
  (forall p, target_Key p.2 = key -> p ∈ G <-> p ∈ G') -> map_ok key ix m G -> map_ok key ix m G'.
Proof.
  intros HG Hm k. rewrite Hm. f_equal. unfold cnt. f_equal. apply set_eq. intros p.
  rewrite !elem_of_filter. unfold hits. rewrite andb_true_iff, !bool_decide_eq_true. naive_solver.
Qed.

Lemma map_ok_none key ix G :
  (forall p, p ∈ G -> target_Key p.2 <> key) -> map_ok key ix ∅ G.
Proof.
  intros HG k. rewrite lookup_empty. destruct (cnt (hits key ix k) G) eqn:E; [done|].
  assert (0 < cnt (hits key ix k) G)%nat as H by lia. apply cnt_pos in H as [p [Hp Hf]].
  unfold hits in Hf. rewrite andb_true_iff, !bool_decide_eq_true in Hf. destruct Hf. by destruct (HG p Hp).
Qed.

Lemma entry_ok_ext key oe G G' :
  (forall p, target_Key p.2 = key -> p ∈ G <-> p ∈ G') -> entry_ok key oe G -> entry_ok key oe G'.
Proof.
  intros HG. destruct oe as [en|]; simpl.
  - intros ((p & Hp & Hk) & H1 & H2 & H3). split; [exists p; naive_solver|].
    repeat split; by apply (map_ok_ext _ _ _ G).
  - naive_solver.
Qed.

Lemma addRef_ok rk t ts G :
  (rk, t) ∉ G -> refs_ok ts G -> refs_ok (addRefLocked rk t ts) ({[ (rk, t) ]} ∪ G).
Proof.
  intros Hx Hr key. unfold addRefLocked. destruct (decide (target_Key t = key)) as [<-|Hne].
  - rewrite lookup_insert_eq. specialize (Hr (target_Key t)).
    set (en := default (mkTargetEntry ∅ ∅ ∅) (ts !! target_Key t)).
    assert (Hen : map_ok (target_Key t) ix_rule (te_rules en) G /\
      map_ok (target_Key t) ix_selector (te_selectors en) G /\
      map_ok (target_Key t) ix_redaction (te_redactions en) G).
    { subst en. destruct (ts !! target_Key t) as [en|]; simpl in *; [by destruct Hr|].
      repeat split; by apply map_ok_none. }
    destruct Hen as (H1 & H2 & H3). split; [exists (rk, t); set_solver|].
    split; [|split].
    + by apply (map_ok_add _ ix_rule _ _ (rk, t)).
    + by apply (map_ok_add _ ix_selector _ _ (rk, t)).
    + pose proof (map_ok_add _ ix_redaction _ _ (rk, t) Hx eq_refl H3) as H. unfold ix_redaction in H at 2.
      simpl in *. by destruct (String.eqb (t_Redaction t) "").
  - rewrite lookup_insert_ne by done. apply (entry_ok_ext key _ G); [|apply Hr].
    intros p Hp. rewrite elem_of_union, elem_of_singleton. split; [by right|]. intros [->|?]; done.
Qed.

Lemma dropRef_ok rk t ts G :
  (rk, t) ∈ G -> refs_ok ts G -> refs_ok (dropRefLocked rk t ts) (G ∖ {[ (rk, t) ]}).
Proof.
  intros Hx Hr. unfold dropRefLocked. pose proof (Hr (target_Key t)) as He.
  destruct (ts !! target_Key t) as [en|] eqn:Hts; simpl in He; [|by destruct (He _ Hx)].
  destruct He as (_ & H1 & H2 & H3).
  apply (map_ok_drop _ _ _ _ (rk, t) Hx eq_refl) in H1, H2, H3.
  set (en' := mkTargetEntry _ _ _).
  assert (Hen' : map_ok (target_Key t) ix_rule (te_rules en') (G ∖ {[ (rk, t) ]}) /\
    map_ok (target_Key t) ix_selector (te_selectors en') (G ∖ {[ (rk, t) ]}) /\
    map_ok (target_Key t) ix_redaction (te_redactions en') (G ∖ {[ (rk, t) ]})).
  { split; [done|]. split; [done|]. unfold ix_redaction in H3 at 2. subst en'. simpl in *.
    by destruct (String.eqb (t_Redaction t) ""). }
  clearbody en'. clear H1 H2 H3. intros key. destruct (decide (target_Key t = key)) as [<-|Hne].
  - destruct Hen' as (H1 & H2 & H3). case_decide as Hem.
    + rewrite lookup_delete_eq. intros p Hp Hk. specialize (H1 p.1). rewrite Hem, lookup_empty in H1.
      destruct (cnt (hits (target_Key t) ix_rule p.1) (G ∖ {[ (rk, t) ]})) eqn:E; [|done].
      assert (0 < cnt (hits (target_Key t) ix_rule p.1) (G ∖ {[ (rk, t) ]}))%nat; [|lia].
      apply cnt_pos. exists p. split; [done|]. unfold hits, ix_rule. by rewrite !bool_decide_true.
    + rewrite lookup_insert_eq. split; [|done].
      apply map_choose in Hem as (k & z & Hk). assert (is_Some (te_rules en' !! k)) as Hs by (by exists z).
      rewrite H1, nz_some in Hs. apply cnt_pos in Hs as [p [Hp Hh]].
      unfold hits in Hh. rewrite andb_true_iff, !bool_decide_eq_true in Hh. destruct Hh. by exists p.
  - assert (Hl : (if decide (te_rules en' = ∅) then delete (target_Key t) ts
                 else <[target_Key t := en']> ts) !! key = ts !! key).
    { case_decide; [by rewrite lookup_delete_ne|by rewrite lookup_insert_ne]. }
    rewrite Hl. apply (entry_ok_ext key _ G); [|apply Hr].
    intros p Hp. rewrite elem_of_difference, elem_of_singleton. split; [|naive_solver].
    intros ?. split; [done|]. by intros ->.
Qed.

Lemma add_all_inv rk l ts G :
  NoDup l -> (forall t, t ∈ l -> (rk, t) ∉ G) -> refs_ok ts G ->
  refs_ok (add_all rk l ts) (list_to_set (pair rk <$> l) ∪ G).
Proof.
  intros Hnd. revert ts G. induction Hnd as [|t l Ht Hnd IH]; intros ts G HG Hr.
  - replace (list_to_set (pair rk <$> []) ∪ G) with G by set_solver. done.
  - change (add_all rk (t :: l) ts) with (add_all rk l (addRefLocked rk t ts)).
    rewrite fmap_cons, list_to_set_cons.
    replace ({[ (rk, t) ]} ∪ list_to_set (pair rk <$> l) ∪ G)
      with (list_to_set (pair rk <$> l) ∪ ({[ (rk, t) ]} ∪ G)) by set_solver.
    apply IH; [|apply addRef_ok; [|done]].
    + intros t' Ht' [Hin|Hin]%elem_of_union; [|by apply (HG t'); [right|]].
      apply elem_of_singleton in Hin. by simplify_eq.
    + apply HG. by left.
Qed.

Lemma drop_all_inv rk l ts G :
  NoDup l -> (forall t, t ∈ l -> (rk, t) ∈ G) -> refs_ok ts G ->
  refs_ok (drop_all rk l ts) (G ∖ list_to_set (pair rk <$> l)).
Proof.
  intros Hnd. revert ts G. induction Hnd as [|t l Ht Hnd IH]; intros ts G HG Hr.
  - replace (G ∖ list_to_set (pair rk <$> [])) with G by set_solver. done.
  - change (drop_all rk (t :: l) ts) with (drop_all rk l (dropRefLocked rk t ts)).
    rewrite fmap_cons, list_to_set_cons.
    replace (G ∖ ({[ (rk, t) ]} ∪ list_to_set (pair rk <$> l)))
      with ((G ∖ {[ (rk, t) ]}) ∖ list_to_set (pair rk <$> l)) by set_solver.
    apply IH; [|apply dropRef_ok; [|done]].
    + intros t' Ht'. apply elem_of_difference. split; [apply HG; by right|].
      rewrite elem_of_singleton. intros E. by simplify_eq.
    + apply HG. by left.
Qed.

(** ** The abstract specification

    What the rules ask for, and nothing else. *)

Abbreviation desires := (gmap string (gset WatchTarget)).

Definition wants (A : desires) (rk : string) (t : WatchTarget) : Prop :=
  t ∈ default ∅ (A !! rk).

(** The merged view the rules ask for. *)
Definition merged (A : desires) (key : TargetKey) (st : option TargetState) : Prop :=
  match st with
  | None => forall rk t, wants A rk t -> target_Key t <> key
  | Some st =>
      ts_Key st = key /\
      (exists rk t, wants A rk t /\ target_Key t = key) /\
      (Sorted String.le (RuleKeys st) /\ NoDup (RuleKeys st) /\
       forall rk, rk ∈ RuleKeys st <-> exists t, wants A rk t /\ target_Key t = key) /\
      (Sorted String.le (Selectors st) /\ NoDup (Selectors st) /\
       forall s, s ∈ Selectors st <-> exists rk t, wants A rk t /\ target_Key t = key /\ t_Selector t = s) /\
      (Sorted String.le (Redactions st) /\ NoDup (Redactions st) /\
       forall p, p ∈ Redactions st <->
         p <> "" /\ exists rk t, wants A rk t /\ target_Key t = key /\ t_Redaction t = p)
  end.

Section refinement.
Context `{SelectorAPI}.

Definition spec_set (rk : string) (desired : gset WatchTarget) (A : desires) : desires :=
  if decide (desired = ∅) then delete rk A else <[rk := desired]> A.

(** The operations on desires. *)
Inductive regOp := OpUpsert (ruleKey : string) (ts : list WatchTarget) | OpRemove (ruleKey : string).

Definition spec_op (op : regOp) (A : desires) : desires :=
  match op with
  | OpUpsert rk ts => match canonicalize ts with Ok desired => spec_set rk desired A | Err _ => A end
  | OpRemove rk => delete rk A
  end.

Definition run_regOp (op : regOp) (r : Registry) : Registry :=
  match op with
  | OpUpsert rk ts => (Upsert rk ts r).1
  | OpRemove rk => Remove rk r
  end.

Definition consistent (r : Registry) : Prop :=
  exists G, refs_ok (targets r) G /\ forall rk t, (rk, t) ∈ G <-> wants (rules r) rk t.

Lemma wants_set rk desired A rk' t :
  wants (spec_set rk desired A) rk' t <-> if decide (rk = rk') then t ∈ desired else wants A rk' t.
Proof.
  unfold spec_set, wants. repeat case_decide; subst.
  - rewrite lookup_delete_eq. done.
  - by rewrite lookup_delete_ne.
  - by rewrite lookup_insert_eq.
  - by rewrite lookup_insert_ne.
Qed.

Lemma elem_of_pairs rk (l : list WatchTarget) rk' t :
  (rk', t) ∈ (list_to_set (pair rk <$> l) : gset contribution) <-> rk' = rk /\ t ∈ l.
Proof.
  rewrite elem_of_list_to_set, list_elem_of_fmap. split.
  - intros [t' [[= -> ->] ?]]. done.
  - intros [-> ?]. by exists t.
Qed.

Lemma Upsert_consistent rk ts r : consistent r -> consistent (Upsert rk ts r).1.
Proof.
  intros (G & Hr & HG). unfold Upsert. destruct (canonicalize ts) as [desired|e]; [|by exists G].
  simpl. set (current := default ∅ (rules r !! rk)).
  eexists. split.
  - apply drop_all_inv; [apply NoDup_elements| |apply add_all_inv; [apply NoDup_elements| |exact Hr]].
    + intros t. rewrite elem_of_elements. intros Ht. apply elem_of_union. right. apply HG.
      unfold wants. fold current. set_solver.
    + intros t. rewrite elem_of_elements. intros Ht Hin. apply HG in Hin. unfold wants in Hin.
      fold current in Hin. set_solver.
  - intros rk' t. cbn [rules].
    change (if decide (desired = ∅) then _ else _) with (spec_set rk desired (rules r)). rewrite wants_set.
    rewrite elem_of_difference, elem_of_union, !elem_of_pairs, !elem_of_elements, HG.
    unfold wants. case_decide as E; [subst rk'; fold current|].
    + destruct (decide (t ∈ desired)), (decide (t ∈ current)); set_solver.
    + set_solver.
Qed.

Lemma Remove_consistent rk r : consistent r -> consistent (Remove rk r).
Proof.
  intros (G & Hr & HG). unfold Remove. destruct (rules r !! rk) as [current|] eqn:Hc; [|by exists G].
  eexists. split.
  - apply drop_all_inv; [apply NoDup_elements| |exact Hr]. intros t. rewrite elem_of_elements. intros Ht.
    apply HG. unfold wants. by rewrite Hc.
  - intros rk' t. simpl. rewrite elem_of_difference, elem_of_pairs, elem_of_elements, HG. unfold wants.
    destruct (decide (rk' = rk)) as [->|Hne].
    + rewrite lookup_delete_eq, Hc. simpl. set_solver.
    + rewrite lookup_delete_ne by done. naive_solver.
Qed.

Lemma run_rules op r : rules (run_regOp op r) = spec_op op (rules r).
Proof.
  destruct op as [rk ts|rk]; simpl.
  - unfold Upsert. by destruct (canonicalize ts).
  - unfold Remove. destruct (rules r !! rk) eqn:E; [done|]. by rewrite delete_id.
Qed.

Lemma run_consistent ops r :
  consistent r -> consistent (foldl (fun r op => run_regOp op r) r ops) /\
  rules (foldl (fun r op => run_regOp op r) r ops) = foldl (fun A op => spec_op op A) (rules r) ops.
Proof.
  revert r. induction ops as [|op ops IH]; intros r Hr; simpl; [done|].
  rewrite <- run_rules. apply IH. destruct op; [by apply Upsert_consistent|by apply Remove_consistent].
Qed.

Lemma map_ok_elem key ix m G k :
  map_ok key ix m G -> k ∈ sorted_keys m <-> exists p, p ∈ G /\ target_Key p.2 = key /\ ix p = Some k.
Proof.
  intros Hm. rewrite elem_of_sorted_keys, Hm, nz_some, cnt_pos. unfold hits.
  split; intros [p Hp]; exists p; rewrite andb_true_iff, !bool_decide_eq_true in *; naive_solver.
Qed.

Lemma sorted_keys_sorted {V} (m : gmap string V) : Sorted String.le (sorted_keys m).
Proof. apply sort_strings_sorted. Qed.

Lemma consistent_merged r key : consistent r -> merged (rules r) key (Snapshot r !! key).
Proof.
  intros (G & Hr & HG). unfold Snapshot. rewrite map_lookup_imap. specialize (Hr key).
  destruct (targets r !! key) as [en|]; simpl in *.
  - destruct Hr as ((p & Hp & Hk) & H1 & H2 & H3). destruct p as [rk t].
    split; [done|]. split; [exists rk, t; by rewrite <- HG|].
    split; [|split]; (split; [apply sorted_keys_sorted|]; split; [apply NoDup_sorted_keys|]).
    + intros rk'. rewrite (map_ok_elem _ _ _ _ _ H1). unfold ix_rule. split.
      * intros ([rk0 t0] & Hin & Hk0 & [= ->]). exists t0. by rewrite <- HG.
      * intros (t0 & Hw & Hk0). exists (rk', t0). by rewrite HG.
    + intros s. rewrite (map_ok_elem _ _ _ _ _ H2). unfold ix_selector. split.
      * intros ([rk0 t0] & Hin & Hk0 & [= <-]). exists rk0, t0. by rewrite <- HG.
      * intros (rk0 & t0 & Hw & Hk0 & <-). exists (rk0, t0). by rewrite HG.
    + intros q. rewrite (map_ok_elem _ _ _ _ _ H3). unfold ix_redaction. split.
      * intros ([rk0 t0] & Hin & Hk0 & Hq). simpl in Hq.
        destruct (String.eqb (t_Redaction t0) "") eqn:E; [done|]. bools. injection Hq as <-.
        split; [done|]. exists rk0, t0. by rewrite <- HG.
      * intros (Hne & rk0 & t0 & Hw & Hk0 & <-). exists (rk0, t0). rewrite HG. simpl.
        by rewrite (proj2 (String.eqb_neq _ _) Hne).
  - intros rk t Hw. apply (Hr (rk, t)). by apply HG.
Qed.

Lemma New_consistent : consistent New.
Proof.
  exists ∅. split; [intros key; simpl; rewrite lookup_empty; intros p Hp; set_solver|]. intros rk t. unfold wants. simpl.
  rewrite lookup_empty. set_solver.
Qed.

Lemma mark_rules_lookup (m : gmap string Z) (acc : gmap string unit) rk :
  is_Some (map_fold (fun ruleKey _ acc => <[ruleKey := tt]> acc) acc m !! rk) <->
  is_Some (acc !! rk) \/ is_Some (m !! rk).
Proof.
  apply (map_fold_weak_ind (fun r m => is_Some (r !! rk) <-> is_Some (acc !! rk) \/ is_Some (m !! rk))).
  - rewrite lookup_empty. split; [by left|]. by intros [?|[? [=]]].
  - intros k z m' r _ IH. destruct (decide (k = rk)) as [->|Hne].
    + rewrite !lookup_insert_eq. split; [right; by eexists|by eexists].
    + by rewrite !lookup_insert_ne by done.
Qed.

Lemma sink_rules_lookup (ts : gmap TargetKey targetEntry) sinkName rk :
  is_Some (map_fold (fun key entry acc =>
    if String.eqb (tk_Sink key) sinkName
    then map_fold (fun ruleKey _ acc => <[ruleKey := tt]> acc) acc (te_rules entry)
    else acc) (∅ : gmap string unit) ts !! rk) <->
  exists key en, ts !! key = Some en /\ tk_Sink key = sinkName /\ is_Some (te_rules en !! rk).
Proof.
  apply (map_fold_weak_ind (fun (r : gmap string unit) ts => is_Some (r !! rk) <->
    exists key en, ts !! key = Some en /\ tk_Sink key = sinkName /\ is_Some (te_rules en !! rk))).
  - rewrite lookup_empty. split; [by intros [? [=]]|]. intros (key & en & H1 & _). by rewrite lookup_empty in H1.
  - intros k en m r Hk IH. destruct (String.eqb (tk_Sink k) sinkName) eqn:E; bools.
    + rewrite mark_rules_lookup, IH. split.
      * intros [(k' & en' & H1 & H2 & H3)|H1]; [exists k', en'|exists k, en].
        -- rewrite lookup_insert_ne by congruence. done.
        -- by rewrite lookup_insert_eq.
      * intros (k' & en' & H1 & H2 & H3). apply lookup_insert_Some in H1 as [[-> ->]|[_ H1]]; [by right|].
        left. by exists k', en'.
    + rewrite IH. split; intros (k' & en' & H1 & H2 & H3); exists k', en'.
      * rewrite lookup_insert_ne by congruence. done.
      * apply lookup_insert_Some in H1 as [[-> ->]|[_ H1]]; done.
Qed.

Lemma RulesForSink_wants r sinkName rk :
  consistent r ->
  rk ∈ RulesForSink sinkName r <-> exists t, wants (rules r) rk t /\ t_Sink t = sinkName.
Proof.
  intros (G & Hr & HG). unfold RulesForSink. rewrite elem_of_sorted_keys, sink_rules_lookup. split.
  - intros (key & en & Hk & Hs & Hrk). pose proof (Hr key) as He. rewrite Hk in He.
    destruct He as (_ & H1 & _). rewrite H1, nz_some, cnt_pos in Hrk. destruct Hrk as ([rk0 t] & Hp & Hh).
    unfold hits, ix_rule in Hh. rewrite andb_true_iff, !bool_decide_eq_true in Hh. simpl in Hh.
    destruct Hh as [<- [= ->]]. exists t. by rewrite <- HG.
  - intros (t & Hw & Hs). apply HG in Hw. pose proof (Hr (target_Key t)) as He.
    destruct (targets r !! target_Key t) as [en|] eqn:Hk; simpl in He; [|by destruct (He _ Hw)].
    exists (target_Key t), en. split; [done|]. split; [done|]. destruct He as (_ & H1 & _).
    rewrite H1, nz_some, cnt_pos. exists (rk, t). split; [done|]. unfold hits, ix_rule.
    by rewrite !bool_decide_true.
Qed.

Lemma count_listed r rk :
  consistent r ->
  TargetCountForRule rk r =
    size (filter (fun kv : TargetKey * TargetState => rk ∈ RuleKeys kv.2) (Snapshot r)).
Proof.
  intros Hc. unfold TargetCountForRule. rewrite <- (size_dom (D := gset TargetKey)). f_equal.
  apply set_eq. intros key. rewrite elem_of_map, elem_of_dom.
  pose proof (consistent_merged r key Hc) as Hm. split.
  - intros (t & -> & Ht). rewrite map_lookup_filter.
    destruct (Snapshot r !! target_Key t) as [st|]; simpl in *.
    + destruct Hm as (_ & _ & (_ & _ & Hrk) & _). rewrite option_guard_True; [by eexists|].
      apply Hrk. by exists t.
    + by destruct (Hm rk t).
  - intros [st Hst]. apply map_lookup_filter_Some in Hst as [Hst Hin]. rewrite Hst in Hm. simpl in *.
    destruct Hm as (_ & _ & (_ & _ & Hrk) & _). apply Hrk in Hin as (t & Hw & <-). by exists t.
Qed.
End refinement.

(** ** Properties *)

Section properties.
Context `{SelectorAPI}.

(** C17. The registry refines its specification: after any sequence of upserts
    (failing ones included) and removals, the snapshot the data plane reads is
    exactly the merge of what the rules currently ask for. A target is present if
    and only if some rule wants it, with exactly the rules that want it, the union
    of their selectors and the union of their non-empty redactions, each sorted
    without duplicates. *)
Theorem Snapshot_refines (ops : list regOp) (key : TargetKey) :
  merged (foldl (fun A op => spec_op op A) ∅ ops) key
    (Snapshot (foldl (fun r op => run_regOp op r) New ops) !! key).
Proof.
  destruct (run_consistent ops New New_consistent) as [Hc Hr]. change ∅ with (rules New).
  rewrite <- Hr. by apply consistent_merged.
Qed.

(** [Upsert] is all-or-nothing and notifies exactly on change: it fails if and
    only if a selector does not parse, and then nothing changed; otherwise it
    installs the canonical target set, and wakes the reader up if and only if that
    set differs from what the rule asked for before. *)
Lemma Upsert_atomic (ruleKey : string) (ts : list WatchTarget) (r : Registry) :
  match canonicalize ts with
  | Err e => Upsert ruleKey ts r = (r, Some e)
  | Ok desired =>
      (Upsert ruleKey ts r).2 = None /\
      rules (Upsert ruleKey ts r).1 = spec_set ruleKey desired (rules r) /\
      changes (Upsert ruleKey ts r).1 =
        changes r || negb (bool_decide (desired = default ∅ (rules r !! ruleKey)))
  end.
Proof.
  unfold Upsert. destruct (canonicalize ts) as [desired|e]; [|done]. split; [done|]. split; [done|].
  simpl. set (current := default ∅ (rules r !! ruleKey)). unfold notifyLocked.
  assert (Hiff : (elements (desired ∖ current) = [] /\ elements (current ∖ desired) = []) <-> desired = current).
  { rewrite !elements_empty_iff. split; [|set_solver].
    intros [H1 H2]. apply set_eq. intros t.
    destruct (decide (t ∈ desired)), (decide (t ∈ current)); set_solver. }
  repeat case_bool_decide; destruct (changes r); simpl; try done; naive_solver.
Qed.

(** [RulesForSink] names exactly the rules that currently contribute a target
    streaming to the sink. *)
Lemma RulesForSink_exact (ops : list regOp) (sinkName ruleKey : string) :
  let r := foldl (fun r op => run_regOp op r) New ops in
  ruleKey ∈ RulesForSink sinkName r <->
  exists t, wants (foldl (fun A op => spec_op op A) ∅ ops) ruleKey t /\ t_Sink t = sinkName.
Proof.
  intros r. destruct (run_consistent ops New New_consistent) as [Hc Hr]. fold r in Hc, Hr.
  change ∅ with (rules New) at 1. rewrite <- Hr. by apply RulesForSink_wants.
Qed.

(** [TargetCountForRule] is the number of snapshot targets the rule is listed
    on: the status counts installed scopes, not requested entries. *)
Lemma TargetCountForRule_exact (ops : list regOp) (ruleKey : string) :
  let r := foldl (fun r op => run_regOp op r) New ops in
  TargetCountForRule ruleKey r =
    size (filter (fun kv : TargetKey * TargetState => ruleKey ∈ RuleKeys kv.2) (Snapshot r)).
Proof.
  intros r. destruct (run_consistent ops New New_consistent) as [Hc _]. by apply count_listed.
Qed.
End properties.
