(* ===== verification/Interest.v ===== *)
(** * Interest: which sink wants what an informer sees

    Models [internal/watch/interest.go]: an interest binds one informer (GVR and
    namespace) to one sink, with the union of the selectors and of the redaction
    paths of the rules behind it; the interest table indexes the installed
    interests by informer (for event fan-out) and by version-agnostic identity
    (for the pipeline's lookups), and is replaced wholesale on every pool diff.

    Label selectors are k8s.io/apimachinery's: the class [LabelSelectors]. Go maps
    are ranged over in an unspecified order; the model enumerates them in one, and
    the properties speak of membership only. *)

From Stdlib Require Import ZArith Lia.
From stdpp Require Import base gmap strings list sorting.
From S2P Require Import Prelude Identity Json Redact Registry.

Class LabelSelectors := {
  Selector : Type;
  ParseLabels : string -> result Selector;
  (** [sel.Matches(labels.Set(m))]; a nil map is an empty set of labels. *)
  SelectorMatches : Selector -> gmap string string -> bool;
}.

(** ** Data *)

Record GroupVersionResource := mkGVR { gvr_Group : string; gvr_Version : string; gvr_Resource : string }.

Record informerKey := mkInformerKey { ik_GVR : GroupVersionResource; ik_Namespace : string }.

Record interestID := mkInterestID { id_informer : informerKey; id_sink : string }.

Record identityKey := mkIdentityKey {
  idk_Group : string;
  idk_Kind : string;
  idk_Namespace : string;
  idk_Sink : string;
}.

#[export] Instance GVR_eq_dec : EqDecision GroupVersionResource.
Proof. solve_decision. Defined.
#[export] Instance informerKey_eq_dec : EqDecision informerKey.
Proof. solve_decision. Defined.
#[export] Instance interestID_eq_dec : EqDecision interestID.
Proof. solve_decision. Defined.
#[export] Instance identityKey_eq_dec : EqDecision identityKey.
Proof. solve_decision. Defined.

#[export] Program Instance GVR_countable : Countable GroupVersionResource :=
  inj_countable' (fun g => (gvr_Group g, gvr_Version g, gvr_Resource g))
    (fun t => let '(a, b, c) := t in mkGVR a b c) _.
Next Obligation. by intros []. Qed.
#[export] Program Instance informerKey_countable : Countable informerKey :=
  inj_countable' (fun k => (ik_GVR k, ik_Namespace k)) (fun t => mkInformerKey t.1 t.2) _.
Next Obligation. by intros []. Qed.
#[export] Program Instance interestID_countable : Countable interestID :=
  inj_countable' (fun k => (id_informer k, id_sink k)) (fun t => mkInterestID t.1 t.2) _.
Next Obligation. by intros []. Qed.
#[export] Program Instance identityKey_countable : Countable identityKey :=
  inj_countable' (fun k => (idk_Group k, idk_Kind k, idk_Namespace k, idk_Sink k))
    (fun t => let '(a, b, c, d) := t in mkIdentityKey a b c d) _.
Next Obligation. by intros []. Qed.

Section interest.
Context `{LS : LabelSelectors}.

Record scopeInterest := mkInterest {
  in_informer : informerKey;
  in_gvk : GroupVersionKind;
  in_sink : string;
  in_scope : ScopeKey;
  in_ruleKeys : list string;
  in_selectors : list Selector;
  in_matchAll : bool;
  in_redaction : option RedactionPolicy;
}.

Record interestTable := mkTable {
  current : gmap interestID scopeInterest;
  byInformer : gmap informerKey (list scopeInterest);
  byIdentity : gmap identityKey (list scopeInterest);
}.

(** ** Building interests *)

(** The selector loop of [newScopeInterest]: the parsed selectors, and whether
    the empty selector was among them. *)
Fixpoint parse_selectors (raws : list string) : result (list Selector * bool) :=
  match raws with
  | [] => Ok ([], false)
  | raw :: rest =>
      if String.eqb raw "" then
        match parse_selectors rest with
        | Ok (sels, _) => Ok (sels, true)
        | Err e => Err e
        end
      else
        match ParseLabels raw with
        | Err e => Err e
        | Ok sel =>
            match parse_selectors rest with
            | Ok (sels, all) => Ok (sel :: sels, all)
            | Err e => Err e
            end
        end
  end.

Definition newline : Ascii.ascii := Ascii.ascii_of_nat 10.

Definition redactionPaths (redactions : list string) : list string :=
  sort_strings (dedup_by id []
    (filter (fun path => path <> "") (mjoin (map (split_char newline) redactions)))).

Definition newScopeInterest (key : TargetKey) (informer : informerKey)
    (selectors redactions ruleKeys : list string) : result scopeInterest :=
  match parse_selectors selectors with
  | Err e => Err e
  | Ok (sels, all) =>
      let matchAll := all || bool_decide (length sels = 0%nat) in
      let scope := mkScopeKey (g_Group (tk_GVK key)) (g_Kind (tk_GVK key)) (tk_Namespace key) in
      let paths := redactionPaths redactions in
      match paths with
      | [] => Ok (mkInterest informer (tk_GVK key) (tk_Sink key) scope ruleKeys sels matchAll None)
      | _ =>
          match CompileRedaction paths with
          | Err e => Err e
          | Ok policy =>
              Ok (mkInterest informer (tk_GVK key) (tk_Sink key) scope ruleKeys sels matchAll (Some policy))
          end
      end
  end.

Definition interest_id (i : scopeInterest) : interestID := mkInterestID (in_informer i) (in_sink i).

Definition interest_identity (i : scopeInterest) : identityKey :=
  mkIdentityKey (g_Group (in_gvk i)) (g_Kind (in_gvk i)) (ik_Namespace (in_informer i)) (in_sink i).

Definition keyFor (i : scopeInterest) (namespace name : string) : Key :=
  mkKey (in_sink i) (g_Group (in_gvk i)) (g_Kind (in_gvk i)) namespace name.

(** Labels are a Go map: [None] is nil. *)
Definition matches (i : scopeInterest) (objLabels : option (gmap string string)) : bool :=
  in_matchAll i || existsb (fun sel => SelectorMatches sel (default ∅ objLabels)) (in_selectors i).

Definition matchesEither (i : scopeInterest) (cur previous : option (gmap string string)) : bool :=
  matches i cur || match previous with Some _ => matches i previous | None => false end.

(** ** The table *)

Definition newInterestTable : interestTable := mkTable ∅ ∅ ∅.

Definition sink_le (a b : scopeInterest) : Prop := String.le (in_sink a) (in_sink b).
#[export] Instance sink_le_dec : RelDecision sink_le.
Proof. intros a b. apply String.le_dec. Defined.

(** [sortInterests]: by sink, then group, kind and namespace. *)
Definition interest_le (a b : scopeInterest) : Prop :=
  if decide (in_sink a = in_sink b) then
    if decide (s_Group (in_scope a) = s_Group (in_scope b)) then
      if decide (s_Kind (in_scope a) = s_Kind (in_scope b)) then
        String.le (s_Namespace (in_scope a)) (s_Namespace (in_scope b))
      else String.le (s_Kind (in_scope a)) (s_Kind (in_scope b))
    else String.le (s_Group (in_scope a)) (s_Group (in_scope b))
  else String.le (in_sink a) (in_sink b).
#[export] Instance interest_le_dec : RelDecision interest_le.
Proof. intros a b. unfold interest_le. repeat case_decide; apply String.le_dec. Defined.

Definition sortInterests (l : list scopeInterest) : list scopeInterest := merge_sort interest_le l.

(** [m[k] = append(m[k], v)]. *)
Definition push {K V} `{Countable K} (k : K) (v : V) (m : gmap K (list V)) : gmap K (list V) :=
  <[k := default [] (m !! k) ++ [v]]> m.

Definition index_by {K} `{Countable K} (f : scopeInterest -> K) (l : list scopeInterest) :
    gmap K (list scopeInterest) :=
  foldl (fun m i => push (f i) i m) ∅ l.

Definition values (m : gmap interestID scopeInterest) : list scopeInterest := map snd (map_to_list m).

Definition replace (desired : gmap interestID scopeInterest) (t : interestTable) :
    interestTable * list scopeInterest :=
  let removed := map snd (filter (fun kv => desired !! kv.1 = None) (map_to_list (current t))) in
  (mkTable desired (merge_sort sink_le <$> index_by in_informer (values desired))
     (index_by interest_identity (values desired)),
   sortInterests removed).

Definition interestsFor (key : informerKey) (t : interestTable) : list scopeInterest :=
  default [] (byInformer t !! key).

Definition lookupIdentity (ref : Key) (t : interestTable) : list scopeInterest :=
  let exact := mkIdentityKey (k_Group ref) (k_Kind ref) (k_Namespace ref) (k_Sink ref) in
  let clusterWide := mkIdentityKey (k_Group ref) (k_Kind ref) "" (k_Sink ref) in
  let interests := default [] (byIdentity t !! exact) in
  if decide (exact = clusterWide) then interests
  else
    let wide := default [] (byIdentity t !! clusterWide) in
    match interests, wide with
    | [], _ => wide
    | _, [] => interests
    | _, _ => interests ++ wide
    end.

Definition interestsForScope (sinkName : string) (scope : ScopeKey) (t : interestTable) :
    list scopeInterest :=
  default [] (byIdentity t !! mkIdentityKey (s_Group scope) (s_Kind scope) (s_Namespace scope) sinkName).

Definition table_size (t : interestTable) : nat := size (current t).

(** ** Lemmas: the indexes *)

Lemma elem_of_index {K} `{Countable K} (f : scopeInterest -> K) l m k i :
  i ∈ default [] (foldl (fun m i => push (f i) i m) m l !! k) <->
  i ∈ default [] (m !! k) \/ (i ∈ l /\ f i = k).
Proof.
  revert m. induction l as [|x l IH]; intros m; simpl.
  - rewrite elem_of_nil. tauto.
  - rewrite IH, elem_of_cons. unfold push. destruct (decide (f x = k)) as [<-|Hne].
    + rewrite lookup_insert_eq. simpl. rewrite elem_of_app, list_elem_of_singleton. naive_solver.
    + rewrite lookup_insert_ne by done. naive_solver.
Qed.

Lemma elem_of_index_by {K} `{Countable K} (f : scopeInterest -> K) l k i :
  i ∈ default [] (index_by f l !! k) <-> i ∈ l /\ f i = k.
Proof. unfold index_by. rewrite elem_of_index, lookup_empty. simpl. rewrite elem_of_nil. tauto. Qed.

Lemma elem_of_values m i : i ∈ values m <-> exists id, m !! id = Some i.
Proof.
  unfold values. rewrite list_elem_of_fmap. split.
  - intros [[id i'] [-> Hin]]. exists id. by apply elem_of_map_to_list in Hin.
  - intros [id Hid]. exists (id, i). split; [done|]. by apply elem_of_map_to_list.
Qed.

(** A table as [replace] builds it. *)
Definition indexed (t : interestTable) : Prop :=
  byInformer t = (merge_sort sink_le <$> index_by in_informer (values (current t))) /\
  byIdentity t = index_by interest_identity (values (current t)).

Lemma replace_indexed desired t : indexed (replace desired t).1 /\ current (replace desired t).1 = desired.
Proof. done. Qed.

Lemma elem_of_interestsFor t k i :
  indexed t -> i ∈ interestsFor k t <-> (exists id, current t !! id = Some i) /\ in_informer i = k.
Proof.
  intros [H1 _]. unfold interestsFor. rewrite H1, lookup_fmap, <- elem_of_values, <- elem_of_index_by.
  destruct (index_by in_informer (values (current t)) !! k) as [l|]; simpl; [|done].
  by rewrite merge_sort_Permutation.
Qed.

(** The interests that answer for an identity: those of its kind and sink that
    watch its namespace or every namespace. *)
Definition covers (i : scopeInterest) (ref : Key) : Prop :=
  g_Group (in_gvk i) = k_Group ref /\ g_Kind (in_gvk i) = k_Kind ref /\ in_sink i = k_Sink ref /\
  (ik_Namespace (in_informer i) = k_Namespace ref \/ ik_Namespace (in_informer i) = "").

Lemma elem_of_byIdentity t k i :
  indexed t -> i ∈ default [] (byIdentity t !! k) <->
  (exists id, current t !! id = Some i) /\ interest_identity i = k.
Proof. intros [_ ->]. by rewrite elem_of_index_by, elem_of_values. Qed.

Lemma elem_of_lookupIdentity t ref i :
  indexed t -> i ∈ lookupIdentity ref t <-> (exists id, current t !! id = Some i) /\ covers i ref.
Proof.
  intros Hi.
  assert (Hall : i ∈ lookupIdentity ref t <->
    i ∈ default [] (byIdentity t !! mkIdentityKey (k_Group ref) (k_Kind ref) (k_Namespace ref) (k_Sink ref)) \/
    i ∈ default [] (byIdentity t !! mkIdentityKey (k_Group ref) (k_Kind ref) "" (k_Sink ref))).
  { unfold lookupIdentity. case_decide as E; [rewrite E; tauto|].
    destruct (default [] (byIdentity t !! mkIdentityKey _ _ (k_Namespace ref) _)) as [|x l].
    - rewrite elem_of_nil. tauto.
    - destruct (default [] (byIdentity t !! mkIdentityKey _ _ "" _)) as [|y l'].
      + rewrite elem_of_nil. tauto.
      + by rewrite elem_of_app. }
  rewrite Hall, !elem_of_byIdentity by done. unfold covers, interest_identity.
  split.
  - intros [[Hid [= H1 H2 H3 H4]]|[Hid [= H1 H2 H3 H4]]]; auto 10.
  - intros (Hid & -> & -> & -> & [-> | ->]); auto.
Qed.
End interest.
