(* ===== verification/WatchManager.v ===== *)
(** * WatchManager: from the desired state to the pipeline's view of the cluster

    Models the deciding parts of [internal/watch/manager.go] and
    [internal/watch/pool.go]: the translation of a registry snapshot into
    interests, one level-triggering pass, the lookups the pipeline makes
    ([Get], [RedactionFor], [ScopeDesired], [ScopeSynced]) and the fan-out of an
    informer event to the interested sinks.

    An informer is what the code reads of it: its indexer and whether it synced.
    Starting one, resolving a kind against discovery and the clock are outside:
    arguments of the definitions that use them. *)

From Stdlib Require Import ZArith Lia.
From stdpp Require Import base gmap strings list sorting.
From S2P Require Import Prelude Identity Json Redact Registry Interest.

(** ** The pool *)

(** What an indexer holds under a key: an object of the expected type, or
    something else. *)
Inductive cached := Unstructured (u : object) | Foreign.

Record informer := mkInformer {
  GetByKey : string -> result (option cached);
  HasSynced : bool;
}.

Abbreviation pool := (gmap informerKey informer).

Section manager.
Context `{LS : LabelSelectors} `{SA : SelectorAPI}.

Definition entryFor (key : informerKey) (p : pool) : option informer := p !! key.

Section pool_ops.
(** [start] builds and runs an informer; it may fail. *)
Variable start : informerKey -> GroupVersionKind -> result informer.

(** [pool.stop]: cancelled and forgotten; a goroutine that outlives the timeout
    is abandoned. *)
Definition stop (key : informerKey) (p : pool) : pool := delete key p.

(** [pool.start] as [retain] calls it: a failure is logged and left for the next
    pass. *)
Definition start_missing (p : pool) (kv : informerKey * GroupVersionKind) : pool :=
  match entryFor kv.1 p with
  | Some _ => p
  | None => match start kv.1 kv.2 with Ok inf => <[kv.1 := inf]> p | Err _ => p end
  end.

(** [pool.retain]: stop what nobody wants, then start what is missing. *)
Definition retain (wanted : gmap informerKey GroupVersionKind) (p : pool) : pool :=
  let kept := foldl (fun p key => match wanted !! key with Some _ => p | None => stop key p end)
                p (map fst (map_to_list p)) in
  foldl start_missing kept (map_to_list wanted).
End pool_ops.

(** ** Lookups *)

Definition errInformerNotRunning : error := "watch scope is registered but its informer is not running".
Definition errNotUnstructured : error := "the watch cache holds something that is not an object".

Fixpoint get_loop (p : pool) (cacheKey : string) (interests : list scopeInterest) (missing : bool) :
    result (option object * bool) :=
  match interests with
  | [] => if missing then Err errInformerNotRunning else Ok (None, true)
  | i :: rest =>
      match entryFor (in_informer i) p with
      | None => get_loop p cacheKey rest true
      | Some inf =>
          match GetByKey inf cacheKey with
          | Err e => Err e
          | Ok None => get_loop p cacheKey rest missing
          | Ok (Some (Unstructured u)) => Ok (Some u, true)
          | Ok (Some Foreign) => Err errNotUnstructured
          end
      end
  end.

Definition indexer_key (ref : Key) : string :=
  if String.eqb (k_Namespace ref) "" then k_Name ref else k_Namespace ref +:+ "/" +:+ k_Name ref.

(** [WatchManager.Get]: the object when found, and [scopeActive]. *)
Definition Get (t : interestTable) (p : pool) (ref : Key) : result (option object * bool) :=
  match lookupIdentity ref t with
  | [] => Ok (None, false)
  | interests => get_loop p (indexer_key ref) interests false
  end.

Definition RedactionFor (t : interestTable) (ref : Key) : option (option RedactionPolicy) :=
  match lookupIdentity ref t with
  | [] => None
  | [i] => Some (in_redaction i)
  | interests => Some (MergeRedaction (map in_redaction interests))
  end.

Definition ScopeDesired (t : interestTable) (sinkName : string) (scope : ScopeKey) : bool :=
  Nat.ltb 0 (length (interestsForScope sinkName scope t)).

Definition ScopeSynced (t : interestTable) (p : pool) (sinkName : string) (scope : ScopeKey) : bool :=
  match interestsForScope sinkName scope t with
  | [] => false
  | interests => forallb (fun i => match entryFor (in_informer i) p with
                                   | Some inf => HasSynced inf
                                   | None => false
                                   end) interests
  end.

(** ** Translation *)

(** One target of the snapshot; [None] skips it. *)
Definition translate_target (resolve : GroupVersionKind -> result (GroupVersionResource * bool))
    (key : TargetKey) (state : TargetState) : option scopeInterest :=
  match resolve (tk_GVK key) with
  | Err _ => None
  | Ok (gvr, namespaced) =>
      if negb (String.eqb (tk_Namespace key) "") && negb namespaced then None
      else
        match newScopeInterest key (mkInformerKey gvr (tk_Namespace key)) (Selectors state)
                (Redactions state) (RuleKeys state) with
        | Ok i => Some i
        | Err _ => None
        end
  end.

Definition translate (resolve : GroupVersionKind -> result (GroupVersionResource * bool))
    (snapshot : gmap TargetKey TargetState) :
    gmap interestID scopeInterest * gmap informerKey GroupVersionKind :=
  foldl (fun acc kv =>
    match translate_target resolve kv.1 kv.2 with
    | Some i => (<[interest_id i := i]> acc.1, <[in_informer i := tk_GVK kv.1]> acc.2)
    | None => acc
    end) (∅, ∅) (map_to_list snapshot).

(** ** A reconcile pass *)

Record manager := mkManager {
  table : interestTable;
  m_pool : pool;
  startedTargets : gset interestID;
}.

(** The calls a pass makes on the recorder and the pipeline, in order. *)
Inductive effect :=
| ScopeStopped (i : scopeInterest)
| CallEvictScope (sinkName : string) (scope : ScopeKey)
| ScopeStarted (i : scopeInterest).

Definition newlyServing (desired : gmap interestID scopeInterest) (started : gset interestID) (p : pool) :
    list scopeInterest :=
  sortInterests (map snd (filter (fun kv => (kv.1 ∉ started) /\ is_Some (entryFor (in_informer kv.2) p))
    (map_to_list desired))).

Definition reconcilePool (resolve : GroupVersionKind -> result (GroupVersionResource * bool))
    (start : informerKey -> GroupVersionKind -> result informer) (snapshot : gmap TargetKey TargetState) (m : manager) :
    manager * list effect :=
  let '(desired, wanted) := translate resolve snapshot in
  let '(table', removed) := replace desired (table m) in
  let started1 := foldl (fun s i => s ∖ {[ interest_id i ]}) (startedTargets m) removed in
  let stops := mjoin (map (fun i => [ScopeStopped i; CallEvictScope (in_sink i) (in_scope i)]) removed) in
  let pool' := retain start wanted (m_pool m) in
  let serving := newlyServing desired started1 pool' in
  (mkManager table' pool' (started1 ∪ list_to_set (map interest_id serving)),
   stops ++ map ScopeStarted serving).

(** ** Fan-out *)

(** What an event carries: an object with its namespace, name and labels (the Go
    map [GetLabels] returns: [None] is nil), or a value of another type; and a
    tombstone around one, whose object may be lost. *)
Record objMeta := mkMeta { o_Namespace : string; o_Name : string; o_Labels : option (gmap string string) }.

Inductive payload := UnstructuredObj (o : objMeta) | OtherType.

Inductive eventObj :=
| Direct (obj : payload)
| DeletedFinalStateUnknown (key : string) (obj : option payload).

Record eventTarget := mkEventTarget {
  et_namespace : string;
  et_name : string;
  et_obj : option objMeta;
}.

(** [cache.SplitMetaNamespaceKey]. *)
Definition SplitMetaNamespaceKey (key : string) : result (string * string) :=
  match split_char "/"%char key with
  | [name] => Ok ("", name)
  | [namespace; name] => Ok (namespace, name)
  | _ => Err "unexpected key format"
  end.

Definition payloadTarget (obj : payload) : result eventTarget :=
  match obj with
  | UnstructuredObj o => Ok (mkEventTarget (o_Namespace o) (o_Name o) (Some o))
  | OtherType => Err "informer delivered an unexpected type"
  end.

Definition eventTargetOf (obj : eventObj) : result eventTarget :=
  match obj with
  | DeletedFinalStateUnknown key None =>
      match SplitMetaNamespaceKey key with
      | Ok (namespace, name) => Ok (mkEventTarget namespace name None)
      | Err e => Err e
      end
  | DeletedFinalStateUnknown _ (Some obj) => payloadTarget obj
  | Direct obj => payloadTarget obj
  end.

Definition labelsKnown (t : eventTarget) : bool := bool_decide (is_Some (et_obj t)).
Definition labelsOf (t : eventTarget) : option (gmap string string) :=
  match et_obj t with Some o => o_Labels o | None => None end.

Definition previousLabels (previous : option eventObj) : option (gmap string string) :=
  match previous with
  | Some prev => match eventTargetOf prev with Ok t => labelsOf t | Err _ => None end
  | None => None
  end.

(** The keys [fanOut] adds to the queue, in order. *)
Definition fanOut (t : interestTable) (entry : informerKey) (obj : eventObj) (previous : option eventObj) :
    list Key :=
  match eventTargetOf obj with
  | Err _ => []
  | Ok target =>
      map (fun i => keyFor i (et_namespace target) (et_name target))
        (filter (fun i => in_matchAll i || negb (labelsKnown target) ||
                          matchesEither i (labelsOf target) (previousLabels previous) = true)
          (interestsFor entry t))
  end.

(** ** Lemmas: the pool *)

Lemma stop_fold_lookup (wanted : gmap informerKey GroupVersionKind) l (p : pool) key :
  foldl (fun p key => match wanted !! key with Some _ => p | None => stop key p end) p l !! key =
  if decide (is_Some (wanted !! key) \/ key ∉ l) then p !! key else None.
Proof.
  revert p. induction l as [|k l IH]; intros p; simpl; [by rewrite decide_True by set_solver|].
  rewrite IH. destruct (decide (k = key)) as [->|Hne].
  - destruct (wanted !! key) eqn:Hw; [by rewrite !decide_True by eauto|].
    unfold stop. rewrite lookup_delete_eq, (decide_False (P := is_Some None \/ key ∉ key :: l))
      by (intros [[? [=]]|Hn]; apply Hn; by left).
    by case_decide.
  - assert (E : forall q : pool, stop k q !! key = q !! key) by (intros; by apply lookup_delete_ne).
    replace ((match wanted !! k with Some _ => p | None => stop k p end) !! key) with (p !! key)
      by (destruct (wanted !! k); [done|by rewrite E]).
    apply decide_ext. rewrite not_elem_of_cons. naive_solver.
Qed.

Lemma start_fold_lookup start l (p : pool) key :
  NoDup l.*1 ->
  foldl (start_missing start) p l !! key =
  match p !! key with
  | Some i => Some i
  | None => list_to_map (M := gmap informerKey GroupVersionKind) l !! key ≫= fun gvk =>
      match start key gvk with Ok i => Some i | Err _ => None end
  end.
Proof.
  revert p. induction l as [|[k gvk] l IH]; intros p Hnd; simpl.
  - rewrite lookup_empty. by destruct (p !! key).
  - apply NoDup_cons in Hnd as [Hk Hnd]. rewrite IH by done. unfold start_missing, entryFor. simpl.
    destruct (decide (k = key)) as [->|Hne].
    + rewrite lookup_insert_eq. simpl. destruct (p !! key) as [i|] eqn:Hp; [by rewrite Hp|].
      rewrite (not_elem_of_list_to_map_1 l key) by done. simpl.
      destruct (start key gvk); [by rewrite lookup_insert_eq|by rewrite Hp].
    + rewrite lookup_insert_ne by done.
      destruct (p !! k); [done|]. destruct (start k gvk); [|done]. by rewrite lookup_insert_ne.
Qed.

(** After a pass, an informer runs exactly if it is wanted and either ran before
    or could be started; one that ran is kept, not restarted. *)
Lemma retain_lookup start wanted p key :
  retain start wanted p !! key = wanted !! key ≫= fun gvk =>
    match p !! key with
    | Some i => Some i
    | None => match start key gvk with Ok i => Some i | Err _ => None end
    end.
Proof.
  unfold retain. rewrite start_fold_lookup by apply NoDup_fst_map_to_list.
  rewrite stop_fold_lookup, list_to_map_to_list.
  destruct (wanted !! key) as [gvk|] eqn:Hw.
  - by rewrite decide_True by eauto.
  - case_decide as Hd; [|done]. destruct Hd as [[? [=]]|Hn].
    destruct (p !! key) as [i|] eqn:Hp; [|done]. destruct Hn.
    apply list_elem_of_fmap. exists (key, i). split; [done|]. by apply elem_of_map_to_list.
Qed.

(** ** Lemmas: translation *)

Lemma newScopeInterest_inv key informer sels reds rks i :
  newScopeInterest key informer sels reds rks = Ok i ->
  in_informer i = informer /\ in_gvk i = tk_GVK key /\ in_sink i = tk_Sink key /\
  in_scope i = mkScopeKey (g_Group (tk_GVK key)) (g_Kind (tk_GVK key)) (tk_Namespace key) /\
  match in_redaction i with
  | None => redactionPaths reds = []
  | Some policy => CompileRedaction (redactionPaths reds) = Ok policy
  end.
Proof.
  unfold newScopeInterest. destruct (parse_selectors sels) as [[ss all]|e]; [|done].
  destruct (redactionPaths reds) as [|q qs] eqn:Hp; [by intros [= <-]|].
  destruct (CompileRedaction (q :: qs)) as [policy|e] eqn:Hc; [|done]. by intros [= <-].
Qed.

Lemma elem_of_redactionPaths reds path :
  path ∈ redactionPaths reds <->
  path <> "" /\ exists set, set ∈ reds /\ path ∈ split_char newline set.
Proof.
  unfold redactionPaths. rewrite elem_of_sort_strings.
  assert (Hd : forall l : list string, path ∈ dedup_by id [] l <-> path ∈ l).
  { intros l. split; [intros H; by apply elem_of_dedup_by in H as [? _]|]. intros H.
    destruct (dedup_by_complete id [] l path H (not_elem_of_nil _)) as [y [Hy E]]. unfold id in E. by subst y. }
  rewrite Hd, list_elem_of_filter, list_elem_of_join. split.
  - intros (Hne & l & Hl & (set & -> & Hset)%list_elem_of_fmap). eauto.
  - intros (Hne & set & Hset & Hin). split; [done|]. exists (split_char newline set). split; [done|].
    apply list_elem_of_fmap. eauto.
Qed.

Section translation.
Variable resolve : GroupVersionKind -> result (GroupVersionResource * bool).

Lemma translate_target_inv key st i :
  translate_target resolve key st = Some i ->
  exists gvr namespaced, resolve (tk_GVK key) = Ok (gvr, namespaced) /\
    newScopeInterest key (mkInformerKey gvr (tk_Namespace key)) (Selectors st) (Redactions st)
      (RuleKeys st) = Ok i.
Proof.
  unfold translate_target. destruct (resolve (tk_GVK key)) as [[gvr ns]|e]; [|done].
  destruct (negb (String.eqb (tk_Namespace key) "") && negb ns); [done|].
  destruct (newScopeInterest _ _ _ _ _) as [j|e] eqn:Hn; [|done]. intros [= <-]. eauto.
Qed.

(** What a pass wants, read off the snapshot. *)
Definition produced (l : list (TargetKey * TargetState)) (i : scopeInterest) : Prop :=
  exists key st, (key, st) ∈ l /\ translate_target resolve key st = Some i.

Definition translated (l : list (TargetKey * TargetState)) :=
  foldl (fun acc kv =>
    match translate_target resolve kv.1 kv.2 with
    | Some i => (<[interest_id i := i]> acc.1, <[in_informer i := tk_GVK kv.1]> acc.2)
    | None => acc
    end) (∅ : gmap interestID scopeInterest, ∅ : gmap informerKey GroupVersionKind) l.

Lemma translated_snoc l kv :
  translated (l ++ [kv]) =
  match translate_target resolve kv.1 kv.2 with
  | Some i => (<[interest_id i := i]> (translated l).1, <[in_informer i := tk_GVK kv.1]> (translated l).2)
  | None => translated l
  end.
Proof. unfold translated. by rewrite foldl_app. Qed.

Lemma produced_snoc l kv i :
  produced (l ++ [kv]) i <-> produced l i \/ translate_target resolve kv.1 kv.2 = Some i.
Proof.
  unfold produced. destruct kv as [key st]. simpl. setoid_rewrite elem_of_app.
  setoid_rewrite list_elem_of_singleton. naive_solver.
Qed.

Lemma translated_desired l id i :
  (translated l).1 !! id = Some i -> produced l i /\ interest_id i = id.
Proof.
  revert id i. induction l as [|kv l IH] using rev_ind; intros id i; [simpl; by rewrite lookup_empty|].
  rewrite translated_snoc, produced_snoc. destruct (translate_target resolve kv.1 kv.2) as [j|].
  - simpl. intros [[<- <-]|[_ H]]%lookup_insert_Some; [by auto|]. apply IH in H. naive_solver.
  - intros H. apply IH in H. naive_solver.
Qed.

Lemma translated_installs l i : produced l i -> is_Some ((translated l).1 !! interest_id i).
Proof.
  induction l as [|kv l IH] using rev_ind; [intros (? & ? & []%elem_of_nil & _)|].
  rewrite translated_snoc, produced_snoc. destruct (translate_target resolve kv.1 kv.2) as [j|].
  - simpl. intros H. apply lookup_insert_is_Some.
    destruct (decide (interest_id j = interest_id i)) as [E|E]; [by left|]. right. split; [done|].
    apply IH. destruct H as [H|[= ->]]; done.
  - intros [H|[=]]. by apply IH.
Qed.

Lemma translated_wanted l ik :
  is_Some ((translated l).2 !! ik) <-> exists i, produced l i /\ in_informer i = ik.
Proof.
  induction l as [|kv l IH] using rev_ind.
  - simpl. rewrite lookup_empty. split; [by intros [? [=]]|]. intros (i & (? & ? & []%elem_of_nil & _) & _).
  - rewrite translated_snoc. setoid_rewrite produced_snoc.
    destruct (translate_target resolve kv.1 kv.2) as [j|]; [|naive_solver].
    simpl. rewrite lookup_insert_is_Some, IH. split.
    + intros [<-|[_ H]]; naive_solver.
    + intros (i & [H|[= <-]] & Hi); [|by left].
      destruct (decide (in_informer j = ik)); [by left|right; naive_solver].
Qed.

Lemma translate_lookup snapshot id i :
  (translate resolve snapshot).1 !! id = Some i ->
  interest_id i = id /\
  exists key st, snapshot !! key = Some st /\ translate_target resolve key st = Some i.
Proof.
  intros H. apply translated_desired in H as [(key & st & Hin & Ht) Hid]. split; [done|].
  exists key, st. by rewrite <- elem_of_map_to_list.
Qed.

(** Every interest of a pass has its informer wanted, and nothing else is. *)
Lemma translate_wanted snapshot ik :
  is_Some ((translate resolve snapshot).2 !! ik) <->
  exists id i, (translate resolve snapshot).1 !! id = Some i /\ in_informer i = ik.
Proof.
  change (translate resolve snapshot) with (translated (map_to_list snapshot)).
  rewrite translated_wanted. split.
  - intros (i & Hp & Hi). destruct (translated_installs _ _ Hp) as [i' Hi'].
    exists (interest_id i), i'. split; [done|]. apply translated_desired in Hi' as [_ Hid].
    apply (f_equal id_informer) in Hid. simpl in Hid. congruence.
  - intros (id & i & H & Hi). apply translated_desired in H as [Hp _]. eauto.
Qed.
End translation.

(** ** Lemmas: lookups *)

(** [i] is installed and answers for [ref]. *)
Definition answers (desired : gmap interestID scopeInterest) (ref : Key) (i : scopeInterest) : Prop :=
  (exists id, desired !! id = Some i) /\ covers i ref.

Lemma lookup_replaced desired t0 ref i :
  i ∈ lookupIdentity ref (replace desired t0).1 <-> answers desired ref i.
Proof. by apply elem_of_lookupIdentity. Qed.

Lemma no_answers desired t0 ref :
  lookupIdentity ref (replace desired t0).1 = [] <-> ~ exists i, answers desired ref i.
Proof.
  split.
  - intros E [i Hi]. apply (lookup_replaced _ t0) in Hi. rewrite E in Hi. by apply elem_of_nil in Hi.
  - intros Hn. apply elem_of_nil_inv. intros i Hi. apply lookup_replaced in Hi. eauto.
Qed.

(** The informer of [i] runs and holds nothing under the key. *)
Definition holds_nothing (p : pool) (key : string) (i : scopeInterest) : Prop :=
  exists inf, p !! in_informer i = Some inf /\ GetByKey inf key = Ok None.

Lemma get_loop_absent p key l missing :
  get_loop p key l missing = Ok (None, true) <-> missing = false /\ Forall (holds_nothing p key) l.
Proof.
  revert missing. induction l as [|i l IH]; intros missing; simpl.
  - destruct missing; naive_solver.
  - rewrite Forall_cons. unfold holds_nothing at 1, entryFor.
    destruct (p !! in_informer i) as [inf|]; [|rewrite IH; naive_solver].
    assert (E : (exists inf0, Some inf = Some inf0 /\ GetByKey inf0 key = Ok None) <-> GetByKey inf key = Ok None)
      by (split; [by intros (? & [= <-] & ?)|eauto]).
    rewrite E. destruct (GetByKey inf key) as [[[u|]|]|e]; try rewrite IH; intuition congruence.
Qed.

Lemma get_loop_found p key l missing u b :
  get_loop p key l missing = Ok (Some u, b) ->
  b = true /\ exists i inf, i ∈ l /\ p !! in_informer i = Some inf /\ GetByKey inf key = Ok (Some (Unstructured u)).
Proof.
  revert missing. induction l as [|i l IH]; intros missing; simpl; [by destruct missing|].
  assert (Hrest : forall ms, get_loop p key l ms = Ok (Some u, b) -> b = true /\ exists i' inf,
    i' ∈ i :: l /\ p !! in_informer i' = Some inf /\ GetByKey inf key = Ok (Some (Unstructured u))).
  { intros ms H. apply IH in H as (-> & i' & inf & Hi & H). split; [done|]. exists i', inf.
    split; [by right|done]. }
  unfold entryFor. destruct (p !! in_informer i) as [inf|] eqn:Hp; [|apply Hrest].
  destruct (GetByKey inf key) as [[[u'|]|]|e] eqn:Hg; try done; [|apply Hrest].
  intros [= -> <-]. split; [done|]. exists i, inf. split; [by left|done].
Qed.

Lemma get_loop_active p key l missing o : get_loop p key l missing <> Ok (o, false).
Proof.
  revert missing. induction l as [|i l IH]; intros missing; simpl; [by destruct missing|].
  repeat case_match; try done.
Qed.

Lemma Get_inactive t p ref : Get t p ref = Ok (None, false) <-> lookupIdentity ref t = [].
Proof.
  unfold Get. destruct (lookupIdentity ref t) as [|i l]; [done|].
  split; [|done]. intros H. by apply get_loop_active in H.
Qed.

Lemma RedactionFor_inactive t ref : RedactionFor t ref = None <-> lookupIdentity ref t = [].
Proof. unfold RedactionFor. by destruct (lookupIdentity ref t) as [|i [|j l]]. Qed.

(** The policy answered for [ref] contains every path of every interest that
    answers for it. *)
Lemma RedactionFor_includes t ref i pi raw :
  (forall j q, j ∈ lookupIdentity ref t -> in_redaction j = Some q -> policy_ok q) ->
  i ∈ lookupIdentity ref t -> in_redaction i = Some pi -> raw ∈ map path_raw (policy_paths pi) ->
  exists policy, RedactionFor t ref = Some (Some policy) /\ policy_ok policy /\
    raw ∈ map path_raw (policy_paths policy).
Proof.
  intros Hok Hi Hpi Hraw. unfold RedactionFor.
  destruct (lookupIdentity ref t) as [|j l] eqn:El; [by apply elem_of_nil in Hi|].
  assert (Hm : forall p, Some p ∈ map in_redaction (j :: l) -> policy_ok p).
  { intros p (k & Hk & Hin)%list_elem_of_fmap. by apply (Hok k). }
  pose proof (MergeRedaction_elem _ Hm) as HM. destruct l as [|j' l].
  - apply list_elem_of_singleton in Hi as ->. rewrite Hpi. exists pi. split; [done|]. split; [|done].
    apply (Hok j); [by left|done].
  - apply list_elem_of_fmap in Hraw as (q & -> & Hq).
    assert (Hq' : q ∈ all_paths (map in_redaction (j :: j' :: l))).
    { apply elem_of_all_paths. exists pi. split; [|done]. rewrite <- Hpi. by apply list_elem_of_fmap_2. }
    destruct (MergeRedaction (map in_redaction (j :: j' :: l))) as [m|] eqn:EM.
    + destruct HM as [Hmo Hme]. exists m. split; [done|]. split; [done|].
      apply list_elem_of_fmap_2. by apply Hme.
    + rewrite HM in Hq'. by apply elem_of_nil in Hq'.
Qed.

(** ** Lemmas: passes *)

Definition installed_of (desired : gmap interestID scopeInterest) : Prop :=
  forall id i, desired !! id = Some i -> interest_id i = id.

Lemma reconcilePool_table resolve start snapshot m :
  table (reconcilePool resolve start snapshot m).1 =
    (replace (translate resolve snapshot).1 (table m)).1 /\
  m_pool (reconcilePool resolve start snapshot m).1 = retain start (translate resolve snapshot).2 (m_pool m).
Proof. unfold reconcilePool. by destruct (translate resolve snapshot) as [d w]. Qed.

Lemma translate_policies_ok resolve snapshot id i q :
  (translate resolve snapshot).1 !! id = Some i -> in_redaction i = Some q -> policy_ok q.
Proof.
  intros H Hq. apply translate_lookup in H as (_ & key & st & _ & Ht).
  apply translate_target_inv in Ht as (gvr & ns & _ & Hn).
  apply newScopeInterest_inv in Hn as (_ & _ & _ & _ & Hr). rewrite Hq in Hr.
  by apply CompileRedaction_ok in Hr as [? _].
Qed.

Lemma split_char_empty c path : path ∈ split_char c "" -> path = "".
Proof. intros H. by apply list_elem_of_singleton in H. Qed.

(** ** Lemmas: the recorder's view *)

Definition live_step (s : gset interestID) (e : effect) : gset interestID :=
  match e with
  | ScopeStarted i => s ∪ {[ interest_id i ]}
  | ScopeStopped i => s ∖ {[ interest_id i ]}
  | CallEvictScope _ _ => s
  end.

(** No interest is reported started while it is live. *)
Fixpoint no_restart (s : gset interestID) (tr : list effect) : Prop :=
  match tr with
  | [] => True
  | e :: tr' => match e with ScopeStarted i => interest_id i ∉ s | _ => True end /\
                no_restart (live_step s e) tr'
  end.

Lemma no_restart_app s a b :
  no_restart s (a ++ b) <-> no_restart s a /\ no_restart (foldl live_step s a) b.
Proof. revert s. induction a as [|e a IH]; intros s; simpl; [tauto|]. rewrite IH. tauto. Qed.

Abbreviation stops_of l := (mjoin (map (fun i => [ScopeStopped i; CallEvictScope (in_sink i) (in_scope i)]) l)).

Lemma stops_live s l :
  foldl live_step s (stops_of l) = foldl (fun s i => s ∖ {[ interest_id i ]}) s l /\ no_restart s (stops_of l).
Proof. revert s. induction l as [|i l IH]; intros s; simpl; [done|]. destruct (IH (s ∖ {[ interest_id i ]})). auto. Qed.

Lemma foldl_drop (s : gset interestID) l id :
  id ∈ foldl (fun s i => s ∖ {[ interest_id i ]}) s l <-> id ∈ s /\ id ∉ map interest_id l.
Proof.
  revert s. induction l as [|i l IH]; intros s; simpl; [set_solver|]. rewrite IH. set_solver.
Qed.

Lemma starts_live s l :
  NoDup (map interest_id l) -> (forall i, i ∈ l -> interest_id i ∉ s) ->
  foldl live_step s (map ScopeStarted l) = s ∪ list_to_set (map interest_id l) /\
  no_restart s (map ScopeStarted l).
Proof.
  revert s. induction l as [|i l IH]; intros s Hnd Hs; simpl; [split; [set_solver|done]|].
  apply NoDup_cons in Hnd as [Hi Hnd]. destruct (IH (s ∪ {[ interest_id i ]})) as [E Hn]; [done| |].
  - intros j Hj. assert (interest_id j <> interest_id i).
    { intros E. apply Hi. rewrite <- E. by apply list_elem_of_fmap_2. }
    specialize (Hs j). set_solver.
  - rewrite E. split; [set_solver|]. split; [|done]. apply Hs. by left.
Qed.

Lemma elem_of_removed desired t i :
  i ∈ (replace desired t).2 <-> exists id, current t !! id = Some i /\ desired !! id = None.
Proof.
  unfold replace, sortInterests. simpl. rewrite merge_sort_Permutation, list_elem_of_fmap. split.
  - intros ([id j] & -> & (Hd & Hin)%list_elem_of_filter). exists id. by rewrite <- elem_of_map_to_list.
  - intros (id & Hc & Hd). exists (id, i). split; [done|]. apply list_elem_of_filter.
    by rewrite elem_of_map_to_list.
Qed.

Lemma removed_ids desired t id :
  installed_of (current t) ->
  id ∈ map interest_id (replace desired t).2 <-> is_Some (current t !! id) /\ desired !! id = None.
Proof.
  intros Hids. rewrite list_elem_of_fmap. split.
  - intros (i & -> & (id' & Hc & Hd)%elem_of_removed). rewrite (Hids _ _ Hc). eauto.
  - intros ((i & Hc) & Hd). exists i. rewrite (Hids _ _ Hc). split; [done|]. apply elem_of_removed. eauto.
Qed.

Lemma elem_of_serving desired started p i :
  i ∈ newlyServing desired started p <->
  exists id, desired !! id = Some i /\ (id ∉ started) /\ is_Some (p !! in_informer i).
Proof.
  unfold newlyServing, sortInterests. rewrite merge_sort_Permutation, list_elem_of_fmap. split.
  - intros ([id j] & -> & ((Hs & Hr) & Hin)%list_elem_of_filter). exists id. by rewrite <- elem_of_map_to_list.
  - intros (id & Hd & Hs & Hr). exists (id, i). split; [done|]. apply list_elem_of_filter.
    by rewrite elem_of_map_to_list.
Qed.

Lemma serving_nodup desired started p :
  installed_of desired -> NoDup (map interest_id (newlyServing desired started p)).
Proof.
  intros Hids. unfold newlyServing, sortInterests. rewrite merge_sort_Permutation, map_map.
  apply NoDup_fmap_2_strong; [|apply NoDup_filter, NoDup_map_to_list].
  intros [id1 i1] [id2 i2] [_ H1]%list_elem_of_filter [_ H2]%list_elem_of_filter E.
  apply elem_of_map_to_list in H1, H2. simpl in E. rewrite (Hids _ _ H1), (Hids _ _ H2) in E. congruence.
Qed.

Lemma translate_installed resolve snapshot : installed_of (translate resolve snapshot).1.
Proof. intros id i H. by apply translate_lookup in H as [? _]. Qed.

(** What holds between passes: the reported starts are exactly the installed
    interests whose informer runs. *)
Definition started_ok (m : manager) : Prop :=
  installed_of (current (table m)) /\
  forall id, id ∈ startedTargets m <->
    exists i, current (table m) !! id = Some i /\ is_Some (m_pool m !! in_informer i).

Lemma pass_started resolve start snapshot m :
  started_ok m ->
  let '(m', tr) := reconcilePool resolve start snapshot m in
  started_ok m' /\ no_restart (startedTargets m) tr /\ startedTargets m' = foldl live_step (startedTargets m) tr.
Proof.
  intros [Hids Hst]. pose proof (reconcilePool_table resolve start snapshot m) as [Et Ep].
  pose proof (translate_installed resolve snapshot) as Hd.
  pose proof (translate_wanted resolve snapshot) as Hw.
  unfold reconcilePool in *. destruct (translate resolve snapshot) as [desired wanted].
  pose proof (fun id => removed_ids desired (table m) id Hids) as Hrem.
  destruct (replace desired (table m)) as [t' removed] eqn:Er. simpl in *.
  set (s1 := foldl _ (startedTargets m) removed). set (pool' := retain start wanted (m_pool m)).
  set (l := newlyServing desired s1 pool').
  assert (Hcur : current t' = desired) by (unfold replace in Er; by injection Er as <- <-).
  destruct (stops_live (startedTargets m) removed) as [E1 N1]. fold s1 in E1.
  destruct (starts_live s1 l) as [E2 N2].
  { by apply serving_nodup. }
  { intros i (id & Hi & Hn & _)%elem_of_serving. by rewrite (Hd _ _ Hi). }
  rewrite no_restart_app, foldl_app, E1, E2. split; [|done].
  split; [simpl; by rewrite Hcur|]. simpl. rewrite Hcur. intros id.
  rewrite elem_of_union, elem_of_list_to_set, list_elem_of_fmap. split.
  - intros [[Hs Hn]%foldl_drop|(i & -> & (id' & Hi & _ & Hr)%elem_of_serving)].
    + apply Hst in Hs as (i0 & Hc0 & [inf Hr0]). rewrite Hrem in Hn.
      destruct (desired !! id) as [i|] eqn:Hdi; [|by destruct Hn; eauto]. exists i. split; [done|].
      assert (Hinf : in_informer i = in_informer i0).
      { apply Hd in Hdi as Hid. apply Hids in Hc0.
        change (id_informer (interest_id i) = id_informer (interest_id i0)). congruence. }
      destruct (proj2 (Hw (in_informer i))) as [gvk Hgvk]; [eauto|].
      unfold pool'. rewrite retain_lookup, Hgvk. simpl. rewrite Hinf, Hr0. eauto.
    + exists i. by rewrite (Hd _ _ Hi).
  - intros (i & Hi & Hr). destruct (decide (id ∈ s1)) as [Hs|Hs]; [by left|right].
    exists i. rewrite (Hd _ _ Hi). split; [done|]. apply elem_of_serving. eauto.
Qed.

(** A run of the reconcile loop: what each pass sees of the outside. *)
Record pass := mkPass {
  p_resolve : GroupVersionKind -> result (GroupVersionResource * bool);
  p_start : informerKey -> GroupVersionKind -> result informer;
  p_snapshot : gmap TargetKey TargetState;
}.

Definition new_manager : manager := mkManager newInterestTable ∅ ∅.

Definition run_pass (st : manager * list effect) (p : pass) : manager * list effect :=
  let '(m, tr) := reconcilePool (p_resolve p) (p_start p) (p_snapshot p) st.1 in (m, st.2 ++ tr).

Definition run_passes (ps : list pass) : manager * list effect := foldl run_pass (new_manager, []) ps.

Lemma run_passes_started ps :
  started_ok (run_passes ps).1 /\ no_restart ∅ (run_passes ps).2 /\
  startedTargets (run_passes ps).1 = foldl live_step ∅ (run_passes ps).2.
Proof.
  unfold run_passes. induction ps as [|p ps IH] using rev_ind.
  - simpl. split; [|done]. split; [intros id i; simpl; by rewrite lookup_empty|].
    intros id. simpl. rewrite elem_of_empty. split; [done|]. intros (i & Hi & _). by rewrite lookup_empty in Hi.
  - rewrite foldl_app. simpl. destruct (foldl run_pass (new_manager, []) ps) as [m tr].
    simpl in IH. destruct IH as (Hok & Hn & Hs). unfold run_pass. simpl.
    pose proof (pass_started (p_resolve p) (p_start p) (p_snapshot p) m Hok) as Hp.
    destruct (reconcilePool _ _ _ m) as [m' tr']. simpl. rewrite no_restart_app, foldl_app, <- Hs. tauto.
Qed.

End manager.

(** ** Properties *)

Section properties.
Context `{LS : LabelSelectors} `{SA : SelectorAPI}.

(** C18. The pipeline's lookup is right about absence: [Get] answers "not found,
    scope active", the delete trigger, exactly when some interest answers for the
    identity and the informer of every one that does is running and holds nothing;
    it answers "scope inactive" exactly when no interest answers, which is also
    exactly when [RedactionFor] has no policy; and what it finds was in the cache
    of an informer that serves the identity. *)
Theorem Get_correct (desired : gmap interestID scopeInterest) (t0 : interestTable) (p : pool) (ref : Key) :
  let t := (replace desired t0).1 in
  (Get t p ref = Ok (None, true) <->
     (exists i, answers desired ref i) /\
     forall i, answers desired ref i -> holds_nothing p (indexer_key ref) i) /\
  (Get t p ref = Ok (None, false) <-> ~ exists i, answers desired ref i) /\
  (RedactionFor t ref = None <-> ~ exists i, answers desired ref i) /\
  (forall u active, Get t p ref = Ok (Some u, active) -> active = true /\
     exists i inf, answers desired ref i /\ p !! in_informer i = Some inf /\
       GetByKey inf (indexer_key ref) = Ok (Some (Unstructured u))).
Proof.
  intros t. rewrite Get_inactive, RedactionFor_inactive, <- (no_answers desired t0 ref). fold t.
  pose proof (lookup_replaced desired t0 ref) as Hl. fold t in Hl. repeat split.
  - destruct (Get_inactive t p ref) as [_ Hg]. destruct (lookupIdentity ref t) as [|i l].
    + by rewrite Hg in H by done.
    + exists i. apply Hl. by left.
  - intros i Hi. apply Hl in Hi. unfold Get in H. destruct (lookupIdentity ref t) as [|j l]; [done|].
    apply get_loop_absent in H as [_ HF]. rewrite Forall_forall in HF. by apply HF.
  - intros [[i Hi] Hall]. unfold Get. apply Hl in Hi.
    destruct (lookupIdentity ref t) as [|j l]; [by apply elem_of_nil in Hi|].
    apply get_loop_absent. split; [done|]. apply Forall_forall. intros k Hk. by apply Hall, Hl.
  - done.
  - done.
  - done.
  - done.
  - unfold Get in H. destruct (lookupIdentity ref t); [done|]. by apply get_loop_found in H as [-> _].
  - unfold Get in H. destruct (lookupIdentity ref t) as [|j l]; [done|].
    apply get_loop_found in H as [_ (i & inf & Hi & H)]. exists i, inf. by rewrite <- Hl.
Qed.

(** A rule's target covers an object. *)
Definition target_covers (t : WatchTarget) (ref : Key) : Prop :=
  g_Group (t_GVK t) = k_Group ref /\ g_Kind (t_GVK t) = k_Kind ref /\ t_Sink t = k_Sink ref /\
  (t_Namespace t = k_Namespace ref \/ t_Namespace t = "").

(** A rule's redaction reaches the pipeline: after any history of rule edits
    and one pool diff, if a rule wants a target, its redaction names a path, and
    the target's interest is installed, then the policy [RedactionFor] answers for
    every object the target covers, merged with whatever other rules ask for,
    leaves nothing but the sentinel at that path. Discovery must not serve two
    kinds as one resource. *)
Lemma rule_redaction_enforced (ops : list regOp)
    (resolve : GroupVersionKind -> result (GroupVersionResource * bool))
    (start : informerKey -> GroupVersionKind -> result informer) (m0 : manager)
    (rk : string) (t : WatchTarget) (path : string) (gvr : GroupVersionResource) (namespaced : bool)
    (ref : Key) :
  (forall g1 g2 r b1 b2, resolve g1 = Ok (r, b1) -> resolve g2 = Ok (r, b2) -> g1 = g2) ->
  wants (foldl (fun A op => spec_op op A) ∅ ops) rk t ->
  path <> "" -> path ∈ split_char newline (t_Redaction t) ->
  resolve (t_GVK t) = Ok (gvr, namespaced) ->
  target_covers t ref ->
  let m := (reconcilePool resolve start (Snapshot (foldl (fun r op => run_regOp op r) New ops)) m0).1 in
  is_Some (current (table m) !! mkInterestID (mkInformerKey gvr (t_Namespace t)) (t_Sink t)) ->
  exists policy p, RedactionFor (table m) ref = Some (Some policy) /\ parseRedactionPath path = Ok p /\
    forall obj, exists out, Apply (Some policy) obj = Ok out /\
      forall x, x ∈ reached (path_segments p) (JObj out) -> x = sentinel.
Proof.
  intros Hinj Hw Hne Hpath Hres Hcov m [i Hi].
  set (r := foldl (fun r op => run_regOp op r) New ops) in m.
  destruct (run_consistent ops New New_consistent) as [Hc Hr]. fold r in Hc, Hr.
  change ∅ with (rules New) in Hw. rewrite <- Hr in Hw.
  destruct (reconcilePool_table resolve start (Snapshot r) m0) as [Et _]. fold m in Et. rewrite Et in Hi.
  apply translate_lookup in Hi as Hl. destruct Hl as (Hid & key & st & Hst & Ht).
  apply translate_target_inv in Ht as (gvr' & ns' & Hres' & Hn).
  apply newScopeInterest_inv in Hn as (Hinf & Hgvk & Hsink & _ & Hred).
  unfold interest_id in Hid. rewrite Hinf, Hsink in Hid. injection Hid as -> Hns Hs.
  assert (Hg : tk_GVK key = t_GVK t) by eauto.
  assert (key = target_Key t) as -> by (destruct key; unfold target_Key; simpl in *; congruence).
  pose proof (consistent_merged r (target_Key t) Hc) as Hm. rewrite Hst in Hm. simpl in Hm.
  destruct Hm as (_ & _ & _ & _ & (_ & _ & Hreds)).
  assert (Hin : path ∈ redactionPaths (Redactions st)).
  { apply elem_of_redactionPaths. split; [done|]. exists (t_Redaction t). split; [|done]. apply Hreds.
    split; [|by eauto]. intros E. rewrite E in Hpath. by apply split_char_empty in Hpath. }
  destruct (in_redaction i) as [pi|] eqn:Hpi; [|rewrite Hred in Hin; by apply elem_of_nil in Hin].
  apply CompileRedaction_ok in Hred as [_ Hpaths].
  destruct (RedactionFor_includes (table m) ref i pi path) as (policy & Hpol & Hok & Hraw).
  - intros j q Hj. rewrite Et in Hj. apply lookup_replaced in Hj as [[id Hj] _].
    by apply (translate_policies_ok resolve (Snapshot r) id).
  - rewrite Et. apply lookup_replaced. split; [by eexists|]. unfold covers. rewrite Hgvk, Hsink, Hinf. exact Hcov.
  - done.
  - apply Hpaths, elem_of_app. by left.
  - apply list_elem_of_fmap in Hraw as Hq. destruct Hq as (q & Eq & Hq). rewrite Eq in *.
    pose proof Hok as HF. unfold policy_ok in HF. rewrite Forall_forall in HF.
    exists policy, q. split; [done|]. split; [by apply HF|]. intros obj.
    destruct (Apply_redact_all (Some policy) obj) as [out [Hout _]]; [by intros ? [= <-]|].
    exists out. split; [done|]. intros x. apply (Apply_reached policy obj out (path_raw q)); auto.
Qed.

(** Scope transitions are reported exactly: over any sequence of pool diffs,
    whatever discovery and the informers do, no interest is reported started while
    it is live, and the interests reported started and not stopped are at every
    moment between passes exactly the installed ones whose informer is running. *)
Lemma scope_transitions_exact (ps : list pass) :
  no_restart ∅ (run_passes ps).2 /\
  startedTargets (run_passes ps).1 = foldl live_step ∅ (run_passes ps).2 /\
  forall id, id ∈ foldl live_step ∅ (run_passes ps).2 <->
    exists i, current (table (run_passes ps).1) !! id = Some i /\
      is_Some (m_pool (run_passes ps).1 !! in_informer i).
Proof.
  destruct (run_passes_started ps) as ([_ Hst] & Hn & Hs). rewrite <- Hs. auto.
Qed.

(** C37. Fan-out reaches every sink that cares and only live scopes: for a usable
    event of an informer, every installed interest of that informer gets the
    object's key when it selects everything, when the event has no labels to read,
    when the current labels match, or when the labels before the update were
    present and match; and every enqueued key has its scope active. *)
Theorem fanOut_correct (desired : gmap interestID scopeInterest) (t0 : interestTable) (p : pool)
    (entry : informerKey) (obj : eventObj) (previous : option eventObj) (target : eventTarget) :
  eventTargetOf obj = Ok target ->
  et_namespace target = ik_Namespace entry \/ ik_Namespace entry = "" ->
  let t := (replace desired t0).1 in
  (forall id i, desired !! id = Some i -> in_informer i = entry ->
     in_matchAll i = true \/ et_obj target = None \/ matches i (labelsOf target) = true \/
     (exists ls, previousLabels previous = Some ls /\ matches i (Some ls) = true) ->
     keyFor i (et_namespace target) (et_name target) ∈ fanOut t entry obj previous) /\
  (forall ref, ref ∈ fanOut t entry obj previous -> Get t p ref <> Ok (None, false)).
Proof.
  intros Ht Hns t. unfold fanOut. rewrite Ht.
  assert (Hidx : indexed t) by apply replace_indexed. split.
  - intros id i Hi Hinf Hm. apply list_elem_of_fmap. exists i. split; [done|]. apply list_elem_of_filter.
    split; [|apply elem_of_interestsFor; [done|]; split; [by exists id|done]].
    rewrite !orb_true_iff. unfold labelsKnown, matchesEither.
    destruct Hm as [Hm|[Hm|[Hm|(ls & -> & Hm)]]]; rewrite ?Hm; rewrite ?orb_true_r; auto.
  - intros ref (i & -> & Hi)%list_elem_of_fmap Hg. apply list_elem_of_filter in Hi as [_ Hi].
    apply elem_of_interestsFor in Hi as [[id Hid] Hinf]; [|done].
    apply Get_inactive, (no_answers desired t0) in Hg. apply Hg. exists i. split; [by exists id|].
    unfold covers, keyFor. simpl. rewrite Hinf. naive_solver.
Qed.
End properties.

(** ** Concrete inputs

    Existence selectors, ["key"] and ["!key"], as a label-selector parser. *)
Module Samples.
#[local] Instance existence_selectors : LabelSelectors := {|
  Selector := bool * string;
  ParseLabels s := match s with
                   | String "!"%char key => Ok (false, key)
                   | key => Ok (true, key)
                   end;
  SelectorMatches sel labels := Bool.eqb (bool_decide (is_Some (labels !! sel.2))) sel.1;
|}.
#[local] Instance verbatim_selectors : SelectorAPI := {| ParseSelector s := Ok s |}.

Definition discover (g : GroupVersionKind) : result (GroupVersionResource * bool) :=
  Ok (mkGVR (g_Group g) (g_Version g) (g_Kind g), true).
Definition empty_cache (_ : informerKey) (_ : GroupVersionKind) : result informer :=
  Ok (mkInformer (fun _ => Ok None) true).

Definition secrets : GroupVersionKind := mkGVK "" "v1" "Secret".
Definition secret_target : WatchTarget :=
  mkTarget "ch" secrets "prod" "" ("data.password" +:+ String newline "data.token").
Definition everything : WatchTarget := mkTarget "ch" secrets "" "" "".
Definition secret_ref : Key := mkKey "ch" "" "Secret" "prod" "db".
Definition secret_ops : list regOp := [OpUpsert "r1" [secret_target]; OpUpsert "r2" [everything]].
Definition secret_manager : manager :=
  (reconcilePool discover empty_cache
    (Snapshot (foldl (fun r op => run_regOp op r) New secret_ops)) new_manager).1.

Lemma rule_redaction_enforced_witness :
  exists policy p, RedactionFor (table secret_manager) secret_ref = Some (Some policy) /\
    parseRedactionPath "data.token" = Ok p /\
    forall obj, exists out, Apply (Some policy) obj = Ok out /\
      forall x, x ∈ reached (path_segments p) (JObj out) -> x = sentinel.
Proof.
  apply (rule_redaction_enforced secret_ops discover empty_cache new_manager "r1" secret_target "data.token"
    (mkGVR "" "v1" "Secret") true secret_ref).
  - intros [] [] r b1 b2 [= <- <-] [= <- <- <-]. reflexivity.
  - unfold wants. apply (bool_decide_unpack _). vm_compute. exact I.
  - discriminate.
  - apply (bool_decide_unpack _). vm_compute. exact I.
  - reflexivity.
  - repeat split. by left.
  - vm_compute. eexists. reflexivity.
Defined.

Definition pods : informerKey := mkInformerKey (mkGVR "" "v1" "pods") "".
Definition unlabelled_env : scopeInterest :=
  mkInterest pods (mkGVK "" "v1" "Pod") "ch" (mkScopeKey "" "Pod" "") ["r1"] [(false, "env")] false None.
Definition pod_interests : gmap interestID scopeInterest :=
  {[ interest_id unlabelled_env := unlabelled_env ]}.
Definition pod_event (labels : option (gmap string string)) : eventObj :=
  Direct (UnstructuredObj (mkMeta "prod" "web" labels)).

Lemma fanOut_correct_witness :
  mkKey "ch" "" "Pod" "prod" "web" ∈
    fanOut (replace pod_interests newInterestTable).1 pods (pod_event (Some {[ "app" := "web" ]})) None.
Proof.
  apply (proj1 (fanOut_correct pod_interests newInterestTable ∅ pods
    (pod_event (Some {[ "app" := "web" ]})) None
    (mkEventTarget "prod" "web" (Some (mkMeta "prod" "web" (Some {[ "app" := "web" ]}))))
    eq_refl (or_intror eq_refl)) (interest_id unlabelled_env) unlabelled_env).
  - reflexivity.
  - reflexivity.
  - right. right. left. vm_compute. reflexivity.
Defined.

(** An object that leaves a selector's scope can be missed: a pod without any
    labels is in the scope of the selector [!env]; the update that labels it
    [env=prod] takes it out, and nothing is enqueued, so the sink keeps the
    unlabelled state. With one unrelated label before the update the final work
    item is enqueued. [matchesEither] takes the nil map of an unlabelled object
    for the absence of a previous object. *)
Lemma unlabelled_exit_missed :
  let t := (replace pod_interests newInterestTable).1 in
  matches unlabelled_env None = true /\
  matches unlabelled_env (Some {[ "env" := "prod" ]}) = false /\
  fanOut t pods (pod_event (Some {[ "env" := "prod" ]})) (Some (pod_event None)) = [] /\
  fanOut t pods (pod_event (Some {[ "app" := "web"; "env" := "prod" ]}))
    (Some (pod_event (Some {[ "app" := "web" ]}))) = [mkKey "ch" "" "Pod" "prod" "web"].
Proof. vm_compute. repeat split. Qed.

Definition deployments (version : string) : WatchTarget :=
  mkTarget "ch" (mkGVK "apps" version "Deployment") "prod" "" "".
Definition deployment_scope : ScopeKey := mkScopeKey "apps" "Deployment" "prod".
Definition two_versions : gmap TargetKey TargetState :=
  Snapshot (Upsert "r2" [deployments "v1beta1"] (Upsert "r1" [deployments "v1"] New).1).1.
Definition one_version : gmap TargetKey TargetState := Snapshot (Upsert "r1" [deployments "v1"] New).1.

(** A scope can be evicted while it is still watched: two rules watch two
    versions of one kind, which is one version-agnostic scope; when the rule for
    one version goes away, the pass evicts the scope although the other version's
    interest keeps it desired and synced, and no start is reported that would warm
    it again. *)
Lemma scope_evicted_while_watched :
  let pass snapshot := mkPass discover empty_cache snapshot in
  let before := run_passes [pass two_versions] in
  let after := run_passes [pass two_versions; pass one_version] in
  ScopeDesired (table after.1) "ch" deployment_scope = true /\
  ScopeSynced (table after.1) (m_pool after.1) "ch" deployment_scope = true /\
  exists stopped, after.2 = before.2 ++ [ScopeStopped stopped; CallEvictScope "ch" deployment_scope].
Proof. vm_compute. repeat split. eexists. reflexivity. Qed.
End Samples.
