(* ===== verification/ScopeRecorder.v ===== *)
(** * ScopeRecorder: the scope log

    Models [internal/watch/scope_recorder.go]: interest-level starts and stops
    become scope-level epochs, by keeping the set of interests that hold a scope;
    each epoch edge queues one row for the sink's scope log and drives the warm-up
    coordinator; a flush loop hands queued rows over in order. Rendering an
    interest as a transition is [transition] of [interest.go].

    The rendering of a resource name is k8s.io/apimachinery's: the class
    [ResourceNames]. *)

From Stdlib Require Import ZArith Lia.
From stdpp Require Import base gmap strings list sorting.
From S2P Require Import Prelude Identity Json Redact Registry Interest WatchManager.

(** [GroupVersionResource.String]; on well-formed names, what is rendered before
    a space determines the resource. *)
Class ResourceNames := { GVR_String : GroupVersionResource -> string }.

Definition wf_gvr (g : GroupVersionResource) : bool :=
  negb (has_char "/"%char (gvr_Group g)) && negb (has_char ","%char (gvr_Version g)) &&
  negb (has_char " "%char (gvr_Resource g)).

Class ResourceNamesLaws (RN : ResourceNames) : Prop := {
  GVR_String_inj : forall g g' a b, wf_gvr g = true -> wf_gvr g' = true ->
    GVR_String g +:+ String " " a = GVR_String g' +:+ String " " b -> g = g' /\ a = b;
}.

(** ** Data *)

Record ScopeTransition := mkTransition {
  tr_Sink : string;
  tr_Scope : ScopeKey;
  tr_Target : string;
  tr_APIVersion : string;
  tr_RuleKeys : list string;
  tr_At : Z;
}.

Inductive ScopeAction := ScopeActionStarted | ScopeActionStopped.

Record ScopeFilter := mkScopeFilter {
  sf_ClusterID : string;
  sf_APIGroup : string;
  sf_Kind : string;
  sf_Namespace : string;
}.

Record ScopeEvent := mkScopeEvent {
  se_Action : ScopeAction;
  se_Scope : ScopeFilter;
  se_APIVersion : string;
  se_RuleRef : string;
  se_TS : Z;
}.

Record pendingScopeEvent := mkPending { pe_sink : string; pe_event : ScopeEvent }.

#[export] Instance ScopeAction_eq_dec : EqDecision ScopeAction.
Proof. solve_decision. Defined.
#[export] Instance ScopeFilter_eq_dec : EqDecision ScopeFilter.
Proof. solve_decision. Defined.
#[export] Instance ScopeEvent_eq_dec : EqDecision ScopeEvent.
Proof. solve_decision. Defined.
#[export] Instance pendingScopeEvent_eq_dec : EqDecision pendingScopeEvent.
Proof. solve_decision. Defined.

(** [scopeKey]: a (sink, scope) pair. *)
Abbreviation scopeKey := (string * ScopeKey)%type.

Record ScopeEpochRecorder := mkRecorder {
  active : gmap scopeKey (gset string);
  pending : list pendingScopeEvent;
  r_dropped : nat;
}.

Definition NewScopeEpochRecorder : ScopeEpochRecorder := mkRecorder ∅ [] 0.

(** The calls on the warm-up coordinator. *)
Inductive warmCall :=
| CallWarmScope (sinkName : string) (scope : ScopeKey) (epochStart : Z)
| CallStopScope (sinkName : string) (scope : ScopeKey).

Section recorder.
Context `{LS : LabelSelectors} `{RN : ResourceNames}.
Variable clusterID : string.
Variable queueLimit : nat.

(** ** Rendering *)

Definition informerKey_String (k : informerKey) : string :=
  if String.eqb (ik_Namespace k) "" then GVR_String (ik_GVR k) +:+ " (cluster-wide)"
  else GVR_String (ik_GVR k) +:+ " in namespace " +:+ ik_Namespace k.

Definition transition (i : scopeInterest) (at_ : Z) : ScopeTransition :=
  mkTransition (in_sink i) (in_scope i) (informerKey_String (in_informer i)) (g_Version (in_gvk i))
    (in_ruleKeys i) at_.

Definition triggeringRule (ruleKeys : list string) : string := hd "" ruleKeys.

Definition eventFor (tr : ScopeTransition) (action : ScopeAction) : ScopeEvent :=
  mkScopeEvent action
    (mkScopeFilter clusterID (s_Group (tr_Scope tr)) (s_Kind (tr_Scope tr)) (s_Namespace (tr_Scope tr)))
    (tr_APIVersion tr) (triggeringRule (tr_RuleKeys tr)) (tr_At tr).

(** ** Transitions *)

Definition enqueueLocked (sinkName : string) (event : ScopeEvent) (r : ScopeEpochRecorder) :
    ScopeEpochRecorder :=
  let queued := pending r ++ [mkPending sinkName event] in
  let overflow := (length queued - queueLimit)%nat in
  if Nat.ltb 0 overflow then mkRecorder (active r) (drop overflow queued) (r_dropped r + overflow)
  else mkRecorder (active r) queued (r_dropped r).

Definition set_active (key : scopeKey) (targets : option (gset string)) (r : ScopeEpochRecorder) :
    ScopeEpochRecorder :=
  mkRecorder (partial_alter (fun _ => targets) key (active r)) (pending r) (r_dropped r).

(** Both return the epoch edge they queued, if any, and their calls on the
    warmer. *)
Definition ScopeStarted_ (tr : ScopeTransition) (r : ScopeEpochRecorder) :
    ScopeEpochRecorder * option pendingScopeEvent * list warmCall :=
  let key := (tr_Sink tr, tr_Scope tr) in
  let targets := default ∅ (active r !! key) in
  let held := bool_decide (tr_Target tr ∈ targets) in
  let targets' := {[ tr_Target tr ]} ∪ targets in
  let r1 := set_active key (Some targets') r in
  if negb held && Nat.eqb (size targets') 1 then
    let event := eventFor tr ScopeActionStarted in
    (enqueueLocked (tr_Sink tr) event r1, Some (mkPending (tr_Sink tr) event),
     [CallWarmScope (tr_Sink tr) (tr_Scope tr) (tr_At tr)])
  else (r1, None, []).

Definition ScopeStopped_ (tr : ScopeTransition) (r : ScopeEpochRecorder) :
    ScopeEpochRecorder * option pendingScopeEvent * list warmCall :=
  let key := (tr_Sink tr, tr_Scope tr) in
  let targets := default ∅ (active r !! key) in
  if negb (bool_decide (tr_Target tr ∈ targets)) then (r, None, [])
  else
    let targets' := targets ∖ {[ tr_Target tr ]} in
    if Nat.eqb (size targets') 0 then
      let event := eventFor tr ScopeActionStopped in
      (enqueueLocked (tr_Sink tr) event (set_active key None r), Some (mkPending (tr_Sink tr) event),
       [CallStopScope (tr_Sink tr) (tr_Scope tr)])
    else (set_active key (Some targets') r, None, []).

(** ** Flushing *)

(** The router: the live writer of a sink's scope log, and its answer. *)
Abbreviation eventRouter := (string -> option (ScopeEvent -> option error)).

(** One turn of the loop up to the hand-off: the event at the front, when a
    writer accepted it. *)
Definition handOff (events : eventRouter) (r : ScopeEpochRecorder) : option pendingScopeEvent :=
  match pending r with
  | [] => None
  | next :: _ =>
      match events (pe_sink next) with
      | None => None
      | Some enqueue => match enqueue (pe_event next) with None => Some next | Some _ => None end
      end
  end.

(** The pop after it, which re-reads the queue. *)
Definition popIfFront (next : pendingScopeEvent) (r : ScopeEpochRecorder) : ScopeEpochRecorder :=
  match pending r with
  | first :: rest => if decide (first = next) then mkRecorder (active r) rest (r_dropped r) else r
  | [] => r
  end.

Definition reportDrops (r : ScopeEpochRecorder) : ScopeEpochRecorder := mkRecorder (active r) (pending r) 0.

(** [flush] with nothing interleaved; every turn shortens the queue. *)
Fixpoint flush_loop (fuel : nat) (events : eventRouter) (r : ScopeEpochRecorder) :
    ScopeEpochRecorder * list pendingScopeEvent :=
  match fuel with
  | O => (r, [])
  | S fuel' =>
      match handOff events r with
      | None => (r, [])
      | Some next =>
          let '(r', accepted) := flush_loop fuel' events (popIfFront next r) in (r', next :: accepted)
      end
  end.

Definition flush (events : eventRouter) (r : ScopeEpochRecorder) :
    ScopeEpochRecorder * list pendingScopeEvent :=
  flush_loop (length (pending r)) events (reportDrops r).

(** ** Lemmas: rendering *)

Lemma informerKey_String_inj `{!ResourceNamesLaws RN} k k' :
  wf_gvr (ik_GVR k) = true -> wf_gvr (ik_GVR k') = true ->
  informerKey_String k = informerKey_String k' -> k = k'.
Proof.
  intros H1 H2. destruct k as [g n], k' as [g' n']. unfold informerKey_String. simpl in *.
  destruct (String.eqb n "") eqn:E, (String.eqb n' "") eqn:E'; intros H; bools;
    apply GVR_String_inj in H as [-> H]; congruence.
Qed.

(** ** Lemmas: the queue

    The recorder with its history: every event queued, every event a sink
    accepted, the hand-off in flight, and how many events overflow dropped. *)

Record history := mkHistory {
  h_rec : ScopeEpochRecorder;
  h_emitted : list pendingScopeEvent;
  h_accepted : list pendingScopeEvent;
  h_inflight : option pendingScopeEvent;
  h_lost : nat;
}.

(** How many events a queued edge pushes out. *)
Definition overflowed (edge : option pendingScopeEvent) (r : ScopeEpochRecorder) : nat :=
  match edge with Some _ => length (pending r) + 1 - queueLimit | None => 0 end.

(** Transitions interleave with the turns of a flush anywhere: also between an
    accepted hand-off and its pop. *)
Inductive history_step : history -> history -> Prop :=
| hs_started tr r em ac fl lost r' edge calls :
    ScopeStarted_ tr r = (r', edge, calls) ->
    history_step (mkHistory r em ac fl lost)
      (mkHistory r' (em ++ option_list edge) ac fl (lost + overflowed edge r))
| hs_stopped tr r em ac fl lost r' edge calls :
    ScopeStopped_ tr r = (r', edge, calls) ->
    history_step (mkHistory r em ac fl lost)
      (mkHistory r' (em ++ option_list edge) ac fl (lost + overflowed edge r))
| hs_report r em ac fl lost :
    history_step (mkHistory r em ac fl lost) (mkHistory (reportDrops r) em ac fl lost)
| hs_handoff events r next em ac lost :
    handOff events r = Some next ->
    history_step (mkHistory r em ac None lost) (mkHistory r em (ac ++ [next]) (Some next) lost)
| hs_pop r next em ac lost :
    history_step (mkHistory r em ac (Some next) lost) (mkHistory (popIfFront next r) em ac None lost).

Definition history_start : history := mkHistory NewScopeEpochRecorder [] [] None 0.

Lemma enqueueLocked_pending sinkName event r :
  pending (enqueueLocked sinkName event r) =
  drop (length (pending r) + 1 - queueLimit) (pending r ++ [mkPending sinkName event]).
Proof.
  unfold enqueueLocked. rewrite length_app. simpl.
  destruct (Nat.ltb_spec 0 (length (pending r) + 1 - queueLimit)) as [H|H]; [done|].
  replace (length (pending r) + 1 - queueLimit)%nat with O by lia. done.
Qed.

Lemma transition_queue tr r r' edge calls :
  ScopeStarted_ tr r = (r', edge, calls) \/ ScopeStopped_ tr r = (r', edge, calls) ->
  pending r' = drop (overflowed edge r) (pending r ++ option_list edge).
Proof.
  unfold ScopeStarted_, ScopeStopped_.
  intros [H|H]; repeat case_match; simplify_eq; simpl;
    rewrite ?enqueueLocked_pending; simpl; by rewrite ?drop_0, ?app_nil_r.
Qed.

(** What is accepted and what is still queued, in order, against everything
    queued. *)
Definition in_order (ac q em : list pendingScopeEvent) (lost : nat) : Prop :=
  sublist (ac ++ q) em /\ (lost = O -> ac ++ q = em).

Definition history_ok (h : history) : Prop :=
  match h_inflight h with
  | None => in_order (h_accepted h) (pending (h_rec h)) (h_emitted h) (h_lost h)
  | Some next =>
      (exists rest, pending (h_rec h) = next :: rest /\ in_order (h_accepted h) rest (h_emitted h) (h_lost h)) \/
      (h_lost h <> O /\ in_order (h_accepted h) (pending (h_rec h)) (h_emitted h) (h_lost h))
  end.

Lemma in_order_enqueue ac q em lost n xs :
  in_order ac q em lost -> in_order ac (drop n (q ++ xs)) (em ++ xs) (lost + n).
Proof.
  intros [Hs He]. split.
  - transitivity (ac ++ q ++ xs).
    + apply sublist_app; [done|]. apply sublist_drop.
    + rewrite app_assoc. by apply sublist_app.
  - intros Hn. assert (lost = O) as -> by lia. assert (n = O) as -> by lia.
    rewrite drop_0, app_assoc. f_equal. by apply He.
Qed.

Lemma in_order_tail ac x q em lost : lost <> O -> in_order ac (x :: q) em lost -> in_order ac q em lost.
Proof.
  intros Hl [Hs _]. split; [|lia]. etransitivity; [|exact Hs]. apply sublist_app; [done|].
  by apply sublist_cons.
Qed.

Lemma transition_ok r r' edge em ac fl lost :
  pending r' = drop (overflowed edge r) (pending r ++ option_list edge) ->
  history_ok (mkHistory r em ac fl lost) ->
  history_ok (mkHistory r' (em ++ option_list edge) ac fl (lost + overflowed edge r)).
Proof.
  unfold history_ok. simpl. intros ->. destruct fl as [next|]; [|apply in_order_enqueue].
  intros [(rest & Hp & Hi)|[Hl Hi]]; [|right; split; [lia|by apply in_order_enqueue]].
  rewrite Hp. simpl. destruct (overflowed edge r) as [|n].
  - left. exists (rest ++ option_list edge). split; [done|]. by apply (in_order_enqueue _ _ _ _ 0).
  - right. split; [lia|]. simpl.
    pose proof (in_order_enqueue ac rest em lost n (option_list edge) Hi) as [H1 _]. split; [done|lia].
Qed.

Lemma history_step_ok h h' : history_step h h' -> history_ok h -> history_ok h'.
Proof.
  intros [tr r em ac fl lost r' edge calls Ht|tr r em ac fl lost r' edge calls Ht|r em ac fl lost
    |events r next em ac lost Hh|r next em ac lost].
  - apply transition_ok. apply (transition_queue tr r r' edge calls). by left.
  - apply transition_ok. apply (transition_queue tr r r' edge calls). by right.
  - done.
  - unfold history_ok. simpl. intros [Hs He]. unfold handOff in Hh.
    destruct (pending r) as [|first rest]; [done|].
    destruct (events (pe_sink first)); [|done]. case_match; [done|]. injection Hh as ->.
    left. exists rest. split; [done|]. unfold in_order. by rewrite <- app_assoc.
  - unfold history_ok, popIfFront. simpl. intros [(rest & Hp & Hi)|[Hl Hi]].
    + rewrite Hp. by rewrite decide_True by done.
    + destruct (pending r) as [|first rest] eqn:Hp; [by rewrite Hp|].
      case_decide; [|by rewrite Hp]. by apply (in_order_tail _ first).
Qed.

Lemma flush_loop_spec fuel events r :
  (length (pending r) <= fuel)%nat ->
  let '(r', accepted) := flush_loop fuel events r in
  pending r = accepted ++ pending r' /\ handOff events r' = None.
Proof.
  revert r. induction fuel as [|fuel IH]; intros r Hf; simpl.
  - split; [done|]. unfold handOff. destruct (pending r); simpl in Hf; [done|lia].
  - destruct (handOff events r) as [next|] eqn:Hh; [|done].
    assert (Hp : exists rest, pending r = next :: rest).
    { unfold handOff in Hh. destruct (pending r) as [|first rest]; [done|].
      destruct (events (pe_sink first)); [|done]. case_match; [done|]. injection Hh as ->. eauto. }
    destruct Hp as [rest Hp]. specialize (IH (popIfFront next r)).
    assert (Hq : pending (popIfFront next r) = rest)
      by (unfold popIfFront; by rewrite Hp, decide_True by done).
    rewrite Hq in IH. rewrite Hp in Hf. simpl in Hf.
    destruct (flush_loop fuel events (popIfFront next r)) as [r' accepted].
    destruct IH as [IH1 IH2]; [lia|]. split; [|done]. rewrite Hp. simpl. by f_equal.
Qed.

(** ** Lemmas: epochs *)

(** The recorder as the watch manager drives it: its state, the epoch edges it
    queued and its calls on the warmer. *)
Record recording := mkRecording {
  rec_state : ScopeEpochRecorder;
  rec_edges : list pendingScopeEvent;
  rec_calls : list warmCall;
}.

Definition new_recording : recording := mkRecording NewScopeEpochRecorder [] [].

Definition recorded (c : recording)
    (out : ScopeEpochRecorder * option pendingScopeEvent * list warmCall) : recording :=
  let '(r, edge, calls) := out in mkRecording r (rec_edges c ++ option_list edge) (rec_calls c ++ calls).

Definition record_effect (at_ : Z) (c : recording) (e : effect) : recording :=
  match e with
  | ScopeStarted i => recorded c (ScopeStarted_ (transition i at_) (rec_state c))
  | ScopeStopped i => recorded c (ScopeStopped_ (transition i at_) (rec_state c))
  | CallEvictScope _ _ => c
  end.

(** A reconcile pass at an instant, with the recorder attached. *)
Definition recorded_pass (st : manager * recording) (p : pass * Z) : manager * recording :=
  let '(m, effects) := reconcilePool (p_resolve p.1) (p_start p.1) (p_snapshot p.1) st.1 in
  (m, foldl (record_effect p.2) st.2 effects).

Definition recorded_passes (ps : list (pass * Z)) : manager * recording :=
  foldl recorded_pass (new_manager, new_recording) ps.

Definition event_key (e : pendingScopeEvent) : scopeKey :=
  let f := se_Scope (pe_event e) in
  (pe_sink e, mkScopeKey (sf_APIGroup f) (sf_Kind f) (sf_Namespace f)).

(** The scopes a scope log shows as open. *)
Definition epoch_step (open : gset scopeKey) (e : pendingScopeEvent) : gset scopeKey :=
  match se_Action (pe_event e) with
  | ScopeActionStarted => open ∪ {[ event_key e ]}
  | ScopeActionStopped => open ∖ {[ event_key e ]}
  end.

(** Starts and stops of a scope alternate, a start first. *)
Fixpoint epochs_ok (open : gset scopeKey) (l : list pendingScopeEvent) : Prop :=
  match l with
  | [] => True
  | e :: l' =>
      match se_Action (pe_event e) with
      | ScopeActionStarted => event_key e ∉ open
      | ScopeActionStopped => event_key e ∈ open
      end /\ epochs_ok (epoch_step open e) l'
  end.

Definition warm_call_of (e : pendingScopeEvent) : warmCall :=
  match se_Action (pe_event e) with
  | ScopeActionStarted => CallWarmScope (event_key e).1 (event_key e).2 (se_TS (pe_event e))
  | ScopeActionStopped => CallStopScope (event_key e).1 (event_key e).2
  end.

Lemma epochs_ok_snoc open l e :
  epochs_ok open (l ++ [e]) <->
  epochs_ok open l /\ epochs_ok (foldl epoch_step open l) [e].
Proof. revert open. induction l as [|x l IH]; intros open; simpl; [tauto|]. rewrite IH. simpl. tauto. Qed.

Section epochs.
Context `{!ResourceNamesLaws RN}.
(** The kind discovery serves a resource under. *)
Variable kind_of : GroupVersionResource -> GroupVersionKind.

(** The scope an interest id belongs to. *)
Definition scope_of (id : interestID) : scopeKey :=
  (id_sink id, mkScopeKey (g_Group (kind_of (ik_GVR (id_informer id))))
    (g_Kind (kind_of (ik_GVR (id_informer id)))) (ik_Namespace (id_informer id))).

Definition wf_id (id : interestID) : Prop := wf_gvr (ik_GVR (id_informer id)) = true.

Definition named (i : scopeInterest) : Prop :=
  wf_id (interest_id i) /\ (in_sink i, in_scope i) = scope_of (interest_id i).

Abbreviation target_of id := (informerKey_String (id_informer id)).

(** The recorder's sets are the names of the live interests, per scope. *)
Definition tracks (s : gset interestID) (act : gmap scopeKey (gset string)) : Prop :=
  (forall id, id ∈ s -> wf_id id) /\
  (forall k, act !! k <> Some ∅) /\
  (forall k t, t ∈ default ∅ (act !! k) <-> exists id, id ∈ s /\ scope_of id = k /\ target_of id = t).

Lemma target_inj id id' :
  wf_id id -> wf_id id' -> id_sink id = id_sink id' -> target_of id = target_of id' -> id = id'.
Proof.
  intros H1 H2 Hs Ht. apply informerKey_String_inj in Ht; [|done..]. destruct id, id'. simpl in *. congruence.
Qed.

Lemma tracks_held s act id :
  tracks s act -> wf_id id -> target_of id ∈ default ∅ (act !! scope_of id) <-> id ∈ s.
Proof.
  intros (Hwf & _ & Ht) Hid. rewrite Ht. split; [|eauto]. intros (id' & Hin & Hk & E).
  assert (id' = id) as <-; [|done]. apply target_inj; auto. by injection Hk.
Qed.

Lemma tracks_open s act k :
  tracks s act -> is_Some (act !! k) <-> exists id, id ∈ s /\ scope_of id = k.
Proof.
  intros (_ & Hne & Ht). specialize (Ht k). split.
  - intros [T HT]. rewrite HT in Ht. simpl in Ht.
    destruct (set_choose_L T) as [t Hin]; [intros ->; by destruct (Hne k)|].
    apply Ht in Hin as (id & ? & ? & _). eauto.
  - intros (id & Hin & Hk). destruct (act !! k) as [T|]; [done|]. simpl in Ht.
    assert (target_of id ∈ (∅ : gset string)) by (apply Ht; eauto). set_solver.
Qed.

Lemma tracks_add s act id :
  tracks s act -> wf_id id ->
  tracks (s ∪ {[ id ]}) (<[scope_of id := {[ target_of id ]} ∪ default ∅ (act !! scope_of id)]> act).
Proof.
  intros (Hwf & Hne & Ht) Hid. split; [set_solver|]. split.
  - intros k. rewrite lookup_insert. case_decide; [|apply Hne]. intros [= E].
    assert (Hin : target_of id ∈ (∅ : gset string))
      by (rewrite <- E; apply elem_of_union; left; by apply elem_of_singleton).
    by apply not_elem_of_empty in Hin.
  - intros k t. rewrite lookup_insert. case_decide as E; simpl.
    + subst k. rewrite elem_of_union, elem_of_singleton, Ht. split.
      * intros [->|(id' & Hi & ? & ?)]; [exists id|exists id']; (split; [|done]); apply elem_of_union;
          [right; by apply elem_of_singleton|by left].
      * intros (id' & [Hi| ->%elem_of_singleton]%elem_of_union & Hk & <-); [right|by left]. by exists id'.
    + rewrite Ht. split.
      * intros (id' & ? & ? & ?). exists id'. split; [|done]. apply elem_of_union. by left.
      * intros (id' & [Hi| ->%elem_of_singleton]%elem_of_union & Hk & Et); [by exists id'|done].
Qed.

Lemma tracks_drop s act id :
  tracks s act -> id ∈ s ->
  let targets := default ∅ (act !! scope_of id) ∖ {[ target_of id ]} in
  tracks (s ∖ {[ id ]})
    (partial_alter (fun _ => if Nat.eqb (size targets) 0 then None else Some targets) (scope_of id) act).
Proof.
  intros (Hwf & Hne & Ht) Hin targets. split; [set_solver|].
  assert (Hdef : default ∅ (if Nat.eqb (size targets) 0 then None else Some targets) = targets).
  { destruct (Nat.eqb_spec (size targets) 0) as [E|E]; [|done]. simpl. symmetry. by apply size_empty_inv, leibniz_equiv in E. }
  split.
  - intros k. destruct (decide (scope_of id = k)) as [<-|E].
    + rewrite lookup_partial_alter_eq. destruct (Nat.eqb_spec (size targets) 0) as [Es|Es]; [done|].
      intros [= ->]. by rewrite size_empty in Es.
    + by rewrite lookup_partial_alter_ne.
  - intros k t. destruct (decide (scope_of id = k)) as [<-|E].
    + rewrite lookup_partial_alter_eq, Hdef. unfold targets.
      rewrite elem_of_difference, elem_of_singleton, Ht. split.
      * intros [(id' & Hi & Hk & <-) Hne']. exists id'. split; [|done]. apply elem_of_difference.
        split; [done|]. rewrite elem_of_singleton. congruence.
      * intros (id' & [Hi Hn]%elem_of_difference & Hk & <-). split; [by exists id'|]. intros Et.
        apply Hn, elem_of_singleton. apply target_inj; auto. by injection Hk.
    + rewrite lookup_partial_alter_ne by done. rewrite Ht. split.
      * intros (id' & Hi & Hk & Et). exists id'. split; [|done]. apply elem_of_difference.
        split; [done|]. rewrite elem_of_singleton. congruence.
      * intros (id' & [Hi _]%elem_of_difference & Hk & Et). by exists id'.
Qed.

Definition log_ok (c : recording) (s : gset interestID) : Prop :=
  tracks s (active (rec_state c)) /\ epochs_ok ∅ (rec_edges c) /\
  (forall k, k ∈ foldl epoch_step ∅ (rec_edges c) <-> is_Some (active (rec_state c) !! k)) /\
  rec_calls c = map warm_call_of (rec_edges c).

Lemma enqueueLocked_active sinkName event r : active (enqueueLocked sinkName event r) = active r.
Proof. unfold enqueueLocked. by case_match. Qed.

Lemma event_key_of i at_ action :
  event_key (mkPending (in_sink i) (eventFor (transition i at_) action)) = (in_sink i, in_scope i).
Proof. unfold event_key. simpl. by destruct (in_scope i). Qed.

(** A queued edge extends the log. *)
Lemma log_edge c s r tr action calls :
  let e := mkPending (tr_Sink tr) (eventFor tr action) in
  tracks s (active r) -> epochs_ok ∅ (rec_edges c) ->
  epochs_ok (foldl epoch_step ∅ (rec_edges c)) [e] ->
  (forall k, k ∈ epoch_step (foldl epoch_step ∅ (rec_edges c)) e <-> is_Some (active r !! k)) ->
  rec_calls c = map warm_call_of (rec_edges c) -> calls = [warm_call_of e] ->
  log_ok (recorded c (enqueueLocked (tr_Sink tr) (eventFor tr action) r, Some e, calls)) s.
Proof.
  intros e Ht He He1 Ho Hc ->. unfold log_ok, recorded. simpl. rewrite enqueueLocked_active.
  split; [done|]. split; [by apply epochs_ok_snoc|]. rewrite foldl_app, map_app, Hc. done.
Qed.

(** A transition that is no edge. *)
Lemma log_quiet c s r :
  tracks s (active r) -> (forall k, is_Some (active r !! k) <-> is_Some (active (rec_state c) !! k)) ->
  log_ok c s \/ (exists s', log_ok c s') -> log_ok (recorded c (r, None, [])) s.
Proof.
  intros Ht Hk [(_ & He & Ho & Hc)|(s' & _ & He & Ho & Hc)]; unfold log_ok, recorded; simpl;
    rewrite !app_nil_r; (split; [done|]; split; [done|]; split; [|done]); intros k; by rewrite Ho, Hk.
Qed.

Lemma log_started at_ c s i :
  log_ok c s -> named i -> interest_id i ∉ s ->
  log_ok (record_effect at_ c (ScopeStarted i)) (s ∪ {[ interest_id i ]}).
Proof.
  intros Hlog [Hwf Hk] Hn. pose proof Hlog as (Ht & He & Ho & Hc). simpl.
  pose proof (tracks_add _ _ _ Ht Hwf) as Ht'. pose proof (tracks_held _ _ _ Ht Hwf) as Hheld.
  unfold ScopeStarted_. simpl. rewrite Hk. change (in_informer i) with (id_informer (interest_id i)).
  set (id := interest_id i) in *. set (act := active (rec_state c)) in *.
  rewrite bool_decide_false by (by rewrite Hheld). simpl.
  destruct (act !! scope_of id) as [T|] eqn:Hact; simpl in *.
  - assert (T <> ∅) as HT by (intros ->; destruct Ht as (_ & Hne & _); by destruct (Hne (scope_of id))).
    assert (Hsz : size ({[ target_of id ]} ∪ T) <> 1%nat).
    { rewrite size_union by (apply disjoint_singleton_l; intros Hx; by apply Hn, Hheld). rewrite size_singleton.
      intros E. apply HT. apply leibniz_equiv, size_empty_inv. lia. }
    destruct (Nat.eqb _ 1) eqn:E; [apply Nat.eqb_eq in E; by destruct Hsz|]. apply log_quiet; [done| |eauto].
    intros k. simpl. destruct (decide (scope_of id = k)) as [<-|Ek].
    + rewrite lookup_partial_alter_eq. fold act. rewrite Hact. split; by eexists.
    + by rewrite lookup_partial_alter_ne.
  - assert (Hsz : Nat.eqb (size ({[ target_of id ]} ∪ (∅ : gset string))) 1 = true)
      by by rewrite union_empty_r_L, size_singleton.
    destruct (Nat.eqb _ 1) eqn:E; [|exfalso; change (Nat.eqb (size ({[ target_of id ]} ∪ (∅ : gset string))) 1 = false) in E; congruence].
    rewrite union_empty_r_L.
    apply (log_edge c _ (set_active (scope_of id) (Some {[ target_of id ]}) (rec_state c)) (transition i at_)); try done.
    + by rewrite union_empty_r_L in Ht'.
    + simpl. rewrite event_key_of. simpl. rewrite Hk. split; [|done]. rewrite Ho, Hact. by intros [? [=]].
    + intros k. unfold epoch_step. simpl. rewrite event_key_of. simpl. rewrite Hk, elem_of_union, elem_of_singleton, Ho.
      destruct (decide (scope_of id = k)) as [<-|Ek].
      * rewrite lookup_partial_alter_eq. split; [by eexists|by right].
      * rewrite lookup_partial_alter_ne by done. fold act. split; [by intros [?|?]|by left].
    + unfold warm_call_of. simpl. by destruct (in_scope i).
Qed.

Lemma log_stopped at_ c s i :
  log_ok c s -> named i -> log_ok (record_effect at_ c (ScopeStopped i)) (s ∖ {[ interest_id i ]}).
Proof.
  intros Hlog [Hwf Hk]. pose proof Hlog as (Ht & He & Ho & Hc). cbn [record_effect].
  pose proof (tracks_held _ _ _ Ht Hwf) as Hheld. unfold ScopeStopped_.
  cbn [tr_Sink tr_Scope tr_Target transition]. cbv zeta. rewrite Hk.
  change (in_informer i) with (id_informer (interest_id i)).
  set (id := interest_id i) in *. set (act := active (rec_state c)) in *.
  destruct (decide (id ∈ s)) as [Hin|Hn].
  - rewrite bool_decide_true by (by rewrite Hheld). cbn [negb].
    pose proof (tracks_drop _ _ _ Ht Hin) as Ht'. cbv zeta in Ht'.
    assert (Hopen : is_Some (act !! scope_of id)) by (apply (tracks_open s); eauto).
    destruct (Nat.eqb (size (default ∅ (act !! scope_of id) ∖ {[ target_of id ]})) 0).
    + apply (log_edge c _ (set_active (scope_of id) None (rec_state c)) (transition i at_)); try done.
      * simpl. rewrite event_key_of. simpl. rewrite Hk. split; [|done]. by rewrite Ho.
      * intros k. unfold epoch_step. simpl. rewrite event_key_of. simpl.
        rewrite Hk, elem_of_difference, elem_of_singleton, Ho. destruct (decide (scope_of id = k)) as [<-|E].
        -- rewrite lookup_partial_alter_eq. split; [by intros [_ []]|by intros [? [=]]].
        -- rewrite lookup_partial_alter_ne by done. fold act. naive_solver.
      * unfold warm_call_of. simpl. by destruct (in_scope i).
    + apply log_quiet; [done| |eauto]. intros k. simpl. destruct (decide (scope_of id = k)) as [<-|E].
      * rewrite lookup_partial_alter_eq. fold act. split; [done|by eexists].
      * by rewrite lookup_partial_alter_ne.
  - rewrite bool_decide_false by (by rewrite Hheld). simpl.
    replace (s ∖ {[ id ]}) with s by set_solver. by apply log_quiet; [| |left].
Qed.

Lemma log_effects at_ effs c s :
  no_restart s effs -> (forall i, ScopeStarted i ∈ effs \/ ScopeStopped i ∈ effs -> named i) ->
  log_ok c s -> log_ok (foldl (record_effect at_) c effs) (foldl live_step s effs).
Proof.
  revert c s. induction effs as [|e effs IH]; intros c s; simpl; [done|]. intros [Hn Hr] Hnamed Hlog.
  apply IH; [done|intros i Hi; apply Hnamed; rewrite !elem_of_cons; tauto|].
  destruct e as [i|sinkName scope|i].
  - apply log_stopped; [done|]. apply Hnamed. right. by left.
  - done.
  - apply log_started; [done| |done]. apply Hnamed. left. by left.
Qed.

(** Discovery serves each resource under one kind, with a well-formed name. *)
Definition discovers (resolve : GroupVersionKind -> result (GroupVersionResource * bool)) : Prop :=
  forall g r b, resolve g = Ok (r, b) -> kind_of r = g /\ wf_gvr r = true.

Definition all_named (desired : gmap interestID scopeInterest) : Prop :=
  forall id i, desired !! id = Some i -> named i.

Lemma translate_named resolve snapshot : discovers resolve -> all_named (translate resolve snapshot).1.
Proof.
  intros Hd id i H. apply translate_lookup in H as (_ & key & st & _ & Ht).
  apply translate_target_inv in Ht as (gvr & ns & Hres & Hn).
  apply newScopeInterest_inv in Hn as (Hinf & _ & Hsink & Hscope & _).
  apply Hd in Hres as [Hk Hwf]. unfold named, wf_id, scope_of. simpl. rewrite Hinf, Hscope. simpl.
  split; [done|]. by rewrite Hk.
Qed.

Lemma pass_effects resolve start snapshot m i :
  (ScopeStarted i ∈ (reconcilePool resolve start snapshot m).2 \/
   ScopeStopped i ∈ (reconcilePool resolve start snapshot m).2) ->
  exists id, (translate resolve snapshot).1 !! id = Some i \/ current (table m) !! id = Some i.
Proof.
  unfold reconcilePool. destruct (translate resolve snapshot) as [desired wanted].
  destruct (replace desired (table m)) as [t' removed] eqn:Er. cbn [fst snd].
  assert (Hrem : removed = (replace desired (table m)).2) by by rewrite Er.
  rewrite !elem_of_app, !list_elem_of_join. intros H.
  assert (Hstop : forall e, (exists l, e ∈ l /\
    l ∈ map (fun i => [ScopeStopped i; CallEvictScope (in_sink i) (in_scope i)]) removed) ->
    e = ScopeStopped i \/ e = ScopeStarted i -> exists id, current (table m) !! id = Some i).
  { intros e (l & He & (j & -> & Hj)%list_elem_of_fmap) Ee. rewrite Hrem in Hj.
    apply elem_of_removed in Hj as (id & Hc & _). rewrite !elem_of_cons in He. exists id.
    destruct He as [->|[->|[]%elem_of_nil]], Ee as [Ee|Ee]; congruence. }
  assert (Hstart : forall e, e ∈ map ScopeStarted (newlyServing desired
      (foldl (fun s i => s ∖ {[ interest_id i ]}) (startedTargets m) removed) (retain start wanted (m_pool m))) ->
    e = ScopeStarted i \/ e = ScopeStopped i -> exists id, desired !! id = Some i).
  { intros e (j & -> & (id & Hd & _)%elem_of_serving)%list_elem_of_fmap Ee. exists id.
    destruct Ee as [Ee|Ee]; congruence. }
  destruct H as [[H|H]|[H|H]].
  - destruct (Hstop _ H) as [id ?]; eauto.
  - destruct (Hstart _ H) as [id ?]; eauto.
  - destruct (Hstop _ H) as [id ?]; eauto.
  - destruct (Hstart _ H) as [id ?]; eauto.
Qed.

Lemma recorded_passes_log ps :
  (forall p, p ∈ ps -> discovers (p_resolve p.1)) ->
  let '(m, c) := recorded_passes ps in
  started_ok m /\ all_named (current (table m)) /\ log_ok c (startedTargets m).
Proof.
  unfold recorded_passes. induction ps as [|p ps IH] using rev_ind; intros Hd.
  - simpl. split; [|split].
    + apply (run_passes_started []).
    + intros id i. simpl. by rewrite lookup_empty.
    + split; [|split; [done|split; [|done]]].
      * split; [by intros id Hid%elem_of_empty|]. split; [intros k; simpl; by rewrite lookup_empty|].
        intros k t. simpl. rewrite lookup_empty. simpl. rewrite elem_of_empty. split; [done|].
        by intros (id & []%elem_of_empty & _).
      * intros k. simpl. rewrite lookup_empty, elem_of_empty. split; [done|by intros [? [=]]].
  - rewrite foldl_app. simpl. destruct (foldl recorded_pass (new_manager, new_recording) ps) as [m c].
    destruct IH as (Hok & Hn & Hlog); [intros q Hq; apply Hd; set_solver|].
    assert (Hp : discovers (p_resolve p.1)) by (apply Hd; set_solver).
    unfold recorded_pass. simpl.
    pose proof (pass_started (p_resolve p.1) (p_start p.1) (p_snapshot p.1) m Hok) as Hs.
    pose proof (pass_effects (p_resolve p.1) (p_start p.1) (p_snapshot p.1) m) as He.
    pose proof (reconcilePool_table (p_resolve p.1) (p_start p.1) (p_snapshot p.1) m) as [Et _].
    destruct (reconcilePool _ _ _ m) as [m' effs]. simpl in *. destruct Hs as (Hok' & Hnr & Hst).
    pose proof (translate_named _ (p_snapshot p.1) Hp) as Hnd.
    split; [done|]. split; [by rewrite Et|]. rewrite Hst. apply log_effects; [done| |done].
    intros i Hi. apply He in Hi as [id [Hi|Hi]]; eauto.
Qed.
End epochs.
End recorder.

(** ** Properties *)

Section properties.
Context `{LS : LabelSelectors} `{RN : ResourceNames} `{!ResourceNamesLaws RN}.

(** C33. The scope log tells the truth: over any sequence of pool diffs, the rows
    queued for a scope alternate start and stop, a start first; a scope is open in
    the log exactly when some installed interest in it has its informer running,
    however many rules and versions share the scope; and warm-ups are requested
    and abandoned exactly at these edges, at the instants the rows carry.
    Discovery must serve each resource under one kind throughout. *)
Theorem scope_log_exact (clusterID : string) (queueLimit : nat)
    (kind_of : GroupVersionResource -> GroupVersionKind) (ps : list (pass * Z)) :
  (forall p, p ∈ ps -> discovers kind_of (p_resolve p.1)) ->
  let '(m, c) := recorded_passes clusterID queueLimit ps in
  epochs_ok ∅ (rec_edges c) /\
  (forall sinkName scope, (sinkName, scope) ∈ foldl epoch_step ∅ (rec_edges c) <->
     exists id i, current (table m) !! id = Some i /\ in_sink i = sinkName /\ in_scope i = scope /\
       is_Some (m_pool m !! in_informer i)) /\
  rec_calls c = map warm_call_of (rec_edges c).
Proof.
  intros Hd. pose proof (recorded_passes_log clusterID queueLimit kind_of ps Hd) as H.
  destruct (recorded_passes clusterID queueLimit ps) as [m c].
  destruct H as ([Hids Hst] & Hn & Ht & He & Ho & Hc). split; [done|]. split; [|done].
  intros sinkName scope. rewrite Ho, (tracks_open kind_of _ _ _ Ht). split.
  - intros (id & Hin & Hk). apply Hst in Hin as (i & Hi & Hr). exists id, i.
    destruct (Hn _ _ Hi) as [_ Hs]. rewrite (Hids _ _ Hi), Hk in Hs. by injection Hs as <- <-.
  - intros (id & i & Hi & <- & <- & Hr). exists id. split; [apply Hst; eauto|].
    destruct (Hn _ _ Hi) as [_ Hs]. by rewrite (Hids _ _ Hi) in Hs.
Qed.

(** Scope rows reach the sinks in order: however transitions interleave with
    the turns of a flush, the rows the sinks accepted are, in order, among the rows
    queued, and as long as the queue never overflowed they are exactly the first
    ones queued: none is lost, duplicated or overtaken. A flush with nothing
    interleaved stops only when the queue is empty or its front is refused. *)
Lemma scope_rows_in_order (clusterID : string) (queueLimit : nat) (h : history) :
  rtc (history_step clusterID queueLimit) history_start h ->
  sublist (h_accepted h) (h_emitted h) /\
  (h_lost h = O -> exists rest, h_emitted h = h_accepted h ++ rest) /\
  forall events, let '(r', accepted) := flush events (h_rec h) in
    pending (h_rec h) = accepted ++ pending r' /\ handOff events r' = None.
Proof.
  intros Hr.
  assert (Hok : history_ok h).
  { assert (Hind : forall x, rtc (history_step clusterID queueLimit) x h -> history_ok x -> history_ok h).
    { intros x Hx. induction Hx as [|x y z Hs _ IH]; [done|]. intros Hk. apply IH; [done|].
      by apply (history_step_ok clusterID queueLimit x y). }
    apply (Hind _ Hr). split; [done|done]. }
  assert (Hio : exists q, in_order (h_accepted h) q (h_emitted h) (h_lost h)).
  { unfold history_ok in Hok. destruct (h_inflight h); [|eauto].
    destruct Hok as [(rest & _ & Hi)|[_ Hi]]; eauto. }
  destruct Hio as [q [Hs He]]. split; [|split].
  - etransitivity; [|exact Hs]. by apply sublist_inserts_r.
  - intros Hl. exists q. symmetry. by apply He.
  - intros events. unfold flush. by apply (flush_loop_spec _ _ (reportDrops (h_rec h))).
Qed.
End properties.

(** ** Concrete inputs *)
Module Samples.
Import WatchManager.Samples.

(** The usual rendering: [group/version, Resource=resource]. *)
#[local] Instance k8s_names : ResourceNames := {|
  GVR_String g := gvr_Group g +:+ "/" +:+ gvr_Version g +:+ ", Resource=" +:+ gvr_Resource g;
|}.

#[local] Instance k8s_names_laws : ResourceNamesLaws k8s_names.
Proof.
  constructor. intros [g v r] [g' v' r'] a b. unfold wf_gvr. simpl. intros H1 H2 H. bools.
  rewrite !string_app_assoc in H. simpl in H.
  apply first_sep_inj in H as [-> H]; [|done..]. rewrite !string_app_assoc in H. simpl in H.
  apply first_sep_inj in H as [-> H]; [|done..]. injection H as H.
  apply first_sep_inj in H as [-> ->]; done.
Defined.

#[local] Instance selectors : LabelSelectors := existence_selectors.

Definition kind_served (r : GroupVersionResource) : GroupVersionKind :=
  mkGVK (gvr_Group r) (gvr_Version r) (gvr_Resource r).

(** Discovery of the two sample kinds, by name. *)
Definition discover_apps (g : GroupVersionKind) : result (GroupVersionResource * bool) :=
  if String.eqb (g_Group g) "apps" && String.eqb (g_Kind g) "Deployment" && negb (has_char "," (g_Version g))
  then Ok (mkGVR (g_Group g) (g_Version g) (g_Kind g), true) else Err "not found".

Definition deployment_passes : list (pass * Z) :=
  [(mkPass discover_apps empty_cache two_versions, 10%Z); (mkPass discover_apps empty_cache one_version, 20%Z)].

Lemma discover_apps_ok : discovers kind_served discover_apps.
Proof.
  intros [gr ver k] r b. unfold discover_apps. simpl.
  destruct (String.eqb gr "apps") eqn:E1; [|done]. destruct (String.eqb k "Deployment") eqn:E2; [|done].
  destruct (has_char "," ver) eqn:E3; [done|]. simpl. intros [= <- <-]. bools. subst. split; [done|].
  unfold wf_gvr. simpl. by rewrite E3.
Qed.

Definition v1_interest : scopeInterest :=
  mkInterest (mkInformerKey (mkGVR "apps" "v1" "Deployment") "prod") (mkGVK "apps" "v1" "Deployment") "ch"
    deployment_scope ["r1"] [] true None.

Lemma scope_log_exact_witness :
  ("ch", deployment_scope) ∈ foldl epoch_step ∅ (rec_edges (recorded_passes "c1" 16 deployment_passes).2).
Proof.
  assert (Hd : forall p, p ∈ deployment_passes -> discovers kind_served (p_resolve p.1)).
  { intros p Hp. repeat (apply elem_of_cons in Hp as [->|Hp]); try apply discover_apps_ok.
    by apply elem_of_nil in Hp. }
  pose proof (scope_log_exact "c1" 16 kind_served deployment_passes Hd) as H.
  rewrite (surjective_pairing (recorded_passes "c1" 16 deployment_passes)) in H.
  apply H. exists (interest_id v1_interest), v1_interest.
  split; [vm_compute; reflexivity|]. split; [reflexivity|]. split; [reflexivity|].
  vm_compute. eexists. reflexivity.
Defined.

Definition sample_transition (target : string) : ScopeTransition :=
  mkTransition "ch" deployment_scope target "v1" ["r1"] 10.

Definition started_recorder : ScopeEpochRecorder :=
  (ScopeStarted_ "c1" 16 (sample_transition "a") NewScopeEpochRecorder).1.1.
Definition started_event : pendingScopeEvent :=
  mkPending "ch" (eventFor "c1" (sample_transition "a") ScopeActionStarted).

Lemma scope_rows_in_order_witness :
  sublist [started_event] [started_event] /\ exists rest, [started_event] = [started_event] ++ rest.
Proof.
  destruct (scope_rows_in_order "c1" 16
    (mkHistory started_recorder [started_event] [started_event] (Some started_event) 0)) as (H1 & H2 & _).
  - eapply rtc_l.
    + exact (hs_started "c1" 16 (sample_transition "a") NewScopeEpochRecorder [] [] None 0
        started_recorder (Some started_event) [CallWarmScope "ch" deployment_scope 10] eq_refl).
    + eapply rtc_l; [|apply rtc_refl].
      exact (hs_handoff "c1" 16 (fun _ => Some (fun _ => None)) started_recorder started_event
        [started_event] [] 0 eq_refl).
  - split; [exact H1|]. apply H2. reflexivity.
Defined.
End Samples.
