(* ===== verification/Warm.v ===== *)
(** * Warm: seeding from history, zombie collection, boot reconciliation

    Models [internal/pipeline/warm.go] on top of the pipeline's state: one warm of
    a scope (seed the deduplication cache from the sink's history, then reconcile
    that history with what is live), the coordinator's bookkeeping of warms, and
    the pass that closes scopes an earlier process left open.

    What a warm sees of the outside at one attempt is a [warmEnv]: the pipeline's
    environment at that moment, the sink's history reader and scope-log writer,
    and the watch layer's answers about scopes. [backoff.Retry] is a list of
    attempts: the operation runs under each until it succeeds or fails for good;
    when the list ends, the context was cancelled. *)

From Stdlib Require Import ZArith Lia.
From stdpp Require Import base gmap strings list sorting.
From S2P Require Import Prelude Identity HashCache Sha256 Json Redact Normalize Pipeline JsonPatch Process.
From S2P Require Import ScopeRecorder.

(** ** Data *)

Record KnownState := mkKnownState {
  ks_Namespace : string;
  ks_Name : string;
  ks_UID : string;
  ks_SHA256 : string;
  ks_APIVersion : string;
  ks_TS : Z;
}.

Record WarmTarget := mkWarmTarget { wt_Sink : string; wt_Scope : ScopeKey; wt_EpochStart : Z }.

Record scopeRef := mkScopeRef { sr_sink : string; sr_scope : ScopeKey }.

Record gcTarget := mkGcTarget { gt_namespace : string; gt_name : string; gt_uid : string }.

Record reincarnation := mkReincarnation {
  ri_namespace : string;
  ri_name : string;
  ri_uid : string;
  ri_apiVersion : string;
  ri_ts : Z;
}.

Record identity := mkIdentity { id_namespace : string; id_name : string }.

#[export] Instance KnownState_eq_dec : EqDecision KnownState.
Proof. solve_decision. Defined.
#[export] Instance scopeRef_eq_dec : EqDecision scopeRef.
Proof. solve_decision. Defined.
#[export] Instance gcTarget_eq_dec : EqDecision gcTarget.
Proof. solve_decision. Defined.
#[export] Instance identity_eq_dec : EqDecision identity.
Proof. solve_decision. Defined.
#[export] Program Instance scopeRef_countable : Countable scopeRef :=
  inj_countable' (fun r => (sr_sink r, sr_scope r)) (fun t => mkScopeRef t.1 t.2) _.
Next Obligation. by intros []. Qed.
#[export] Program Instance gcTarget_countable : Countable gcTarget :=
  inj_countable' (fun t => (gt_namespace t, gt_name t, gt_uid t))
    (fun t => let '(a, b, c) := t in mkGcTarget a b c) _.
Next Obligation. by intros []. Qed.
#[export] Program Instance identity_countable : Countable identity :=
  inj_countable' (fun t => (id_namespace t, id_name t)) (fun t => mkIdentity t.1 t.2) _.
Next Obligation. by intros []. Qed.

Definition ref_key (r : scopeRef) (namespace name : string) : Key :=
  mkKey (sr_sink r) (s_Group (sr_scope r)) (s_Kind (sr_scope r)) namespace name.

Definition ref_filter (r : scopeRef) (cluster : string) : ScopeFilter :=
  mkScopeFilter cluster (s_Group (sr_scope r)) (s_Kind (sr_scope r)) (s_Namespace (sr_scope r)).

Definition closeOutRecord (r : reincarnation) (cluster : string) (key : Key) : Record_ :=
  mkRecord (ri_ts r) cluster "Deleted" (k_Group key) (ri_apiVersion r) (k_Kind key) (k_Namespace key)
    (k_Name key) (ri_uid r) "" ∅ [] "" "" "".

(** ** History *)

Definition state_identity (s : KnownState) : identity := mkIdentity (ks_Namespace s) (ks_Name s).

(** The index map and the buckets of [groupByIdentity]. *)
Definition group_step (acc : gmap identity nat * list (list KnownState)) (state : KnownState) :
    gmap identity nat * list (list KnownState) :=
  let '(groups, out) := acc in
  match groups !! state_identity state with
  | Some idx => (groups, alter (fun group => group ++ [state]) idx out)
  | None => (<[state_identity state := length out]> groups, out ++ [[state]])
  end.

Definition groupByIdentity (states : list KnownState) : list (list KnownState) :=
  (foldl group_step (∅, []) states).2.

(** [state.TS.After(current.TS) || (state.TS.Equal(current.TS) && state.UID > current.UID)] *)
Definition newer (state current : KnownState) : bool :=
  Z.ltb (ks_TS current) (ks_TS state) ||
  (Z.eqb (ks_TS state) (ks_TS current) && negb (bool_decide (String.le (ks_UID state) (ks_UID current)))).

Definition newest (first : KnownState) (rest : list KnownState) : KnownState :=
  foldl (fun current state => if newer state current then state else current) first rest.

(** [None] is the index panic on an empty group. *)
Definition splitIncarnations (group : list KnownState) : option (KnownState * list KnownState) :=
  match group with
  | [] => None
  | first :: rest =>
      let current := newest first rest in
      Some (current, filter (fun state => ks_UID state <> ks_UID current) group)
  end.

Definition target_of_state (s : KnownState) : gcTarget :=
  mkGcTarget (ks_Namespace s) (ks_Name s) (ks_UID s).

Definition prior_of_state (s : KnownState) : reincarnation :=
  mkReincarnation (ks_Namespace s) (ks_Name s) (ks_UID s) (ks_APIVersion s) (ks_TS s).

Definition indexIncarnations (states : list KnownState) : gmap gcTarget KnownState * gmap identity string :=
  foldl (fun acc group =>
    match splitIncarnations group with
    | None => acc
    | Some (current, _) =>
        (foldl (fun rows state => <[target_of_state state := state]> rows) acc.1 group,
         <[state_identity current := ks_UID current]> acc.2)
    end) (∅, ∅) (groupByIdentity states).

(** ** The outside *)

Record StateReader := mkStateReader {
  LastKnownStates : ScopeFilter -> result (list KnownState);
  ScopeWasActive : ScopeFilter -> Z -> result bool;
  ActiveScopes : string -> result (list ScopeFilter);
}.

Record warmEnv := mkWarmEnv {
  we_env : env;
  StateReaderFor : string -> option StateReader;
  ScopeEventWriterFor : string -> option (ScopeEvent -> option error);
  SinkNames : list string;
  we_Synced : string -> ScopeKey -> bool;
  we_Desired : string -> ScopeKey -> bool;
  (** Is the context cancelled before the [n]-th object of a pass? *)
  ctxErr : nat -> bool;
}.

Definition errNoStateReader : error := "sink has no StateReader; warm-up and zombie GC are disabled for it".
Definition errSinkNotLive : error := "sink has no live instance yet".
Definition errScopeStopped : error := "watch scope stopped while warming".
Definition errCanceled : error := "context canceled".
Definition errNoScopeWriter : error := "sink has no live scope-log writer".

(** How an attempt fails: to be retried, or for good ([backoff.Permanent]). *)
Inductive failure := Transient (err : error) | Permanent (err : error).

Definition readerFor (we : warmEnv) (sinkName : string) : StateReader + failure :=
  match StateReaderFor we sinkName with
  | Some reader => inl reader
  | None =>
      match router (we_env we) sinkName with
      | Some _ => inr (Permanent errNoStateReader)
      | None => inr (Transient errSinkNotLive)
      end
  end.

(** ** Seeding *)

Definition seed_entry (current : KnownState) : CacheEntry :=
  mkEntry (ks_SHA256 current) None encodingRaw (ks_UID current) "" 0 0 false.

(** The loop over identities: seed the current incarnation, collect the rest. *)
Fixpoint seed_groups (ref : scopeRef) (loc : nat) (groups : list (list KnownState)) :
    M (list gcTarget * list reincarnation) :=
  match groups with
  | [] => mret ([], [])
  | group :: rest =>
      match splitIncarnations group with
      | None => seed_groups ref loc rest
      | Some (current, unclosed) =>
          let key := ref_key ref (ks_Namespace current) (ks_Name current) in
          _ ← on_cache loc (fun c => (StoreIfAbsent (cacheKey key) (seed_entry current) c, tt));
          r ← seed_groups ref loc rest;
          mret (target_of_state current :: r.1, map prior_of_state unclosed ++ r.2)
      end
  end.

(** One attempt of [seedScope]. *)
Definition seed_attempt (we : warmEnv) (ref : scopeRef) :
    M ((list gcTarget * list reincarnation) + failure) :=
  match readerFor we (sr_sink ref) with
  | inr f => mret (inr f)
  | inl reader =>
      match LastKnownStates reader (ref_filter ref (clusterID (we_env we))) with
      | Err err => mret (inr (Transient err))
      | Ok states =>
          loc ← registry_get (sr_sink ref);
          r ← seed_groups ref loc (groupByIdentity states);
          _ ← recordCacheEntries (sr_sink ref) loc;
          mret (inl r)
      end
  end.

(** [backoff.Retry]. *)
Fixpoint retry {A} (op : warmEnv -> M (A + failure)) (attempts : list warmEnv) : M (result A) :=
  match attempts with
  | [] => mret (Err errCanceled)
  | we :: rest =>
      r ← op we;
      match r with
      | inl a => mret (Ok a)
      | inr (Permanent err) => mret (Err err)
      | inr (Transient _) => retry op rest
      end
  end.

Definition seedScope (attempts : list warmEnv) (ref : scopeRef) :
    M (result (list gcTarget * list reincarnation)) :=
  retry (fun we => seed_attempt we ref) attempts.

(** ** Gates *)

(** [awaitScopeSync]: one poll per environment. *)
Fixpoint awaitScopeSync (polls : list warmEnv) (ref : scopeRef) : bool :=
  match polls with
  | [] => false
  | we :: rest =>
      if we_Synced we (sr_sink ref) (sr_scope ref) then true
      else if negb (we_Desired we (sr_sink ref) (sr_scope ref)) then false
      else awaitScopeSync rest ref
  end.

Definition active_attempt (we : warmEnv) (ref : scopeRef) (epochStart : Z) : M (bool + failure) :=
  match readerFor we (sr_sink ref) with
  | inr f => mret (inr f)
  | inl reader =>
      match ScopeWasActive reader (ref_filter ref (clusterID (we_env we))) epochStart with
      | Err err => mret (inr (Transient err))
      | Ok active => mret (inl active)
      end
  end.

Definition scopeWasActive (attempts : list warmEnv) (ref : scopeRef) (epochStart : Z) : M (result bool) :=
  retry (fun we => active_attempt we ref epochStart) attempts.

(** ** Close-outs from history *)

Fixpoint closeOut_priors (we : warmEnv) (ref : scopeRef) (loc : nat) (writer : Writer) (n : nat)
    (priors : list reincarnation) : M (option error) :=
  match priors with
  | [] => mret None
  | prior :: rest =>
      if ctxErr we n then mret (Some errCanceled)
      else
        let key := ref_key ref (ri_namespace prior) (ri_name prior) in
        _ ← enqueueCloseOut key loc writer (cacheKey key)
              (closeOutRecord prior (clusterID (we_env we)) key);
        closeOut_priors we ref loc writer (S n) rest
  end.

Definition closeOut_attempt (we : warmEnv) (ref : scopeRef) (priors : list reincarnation) :
    M (nat + failure) :=
  match router (we_env we) (sr_sink ref) with
  | None => mret (inr (Transient errSinkUnavailable))
  | Some writer =>
      loc ← registry_get (sr_sink ref);
      err ← closeOut_priors we ref loc writer 0 priors;
      (* a cancelled context also ends the retries *)
      mret (match err with None => inl (length priors) | Some e => inr (Permanent e) end)
  end.

Definition emitCloseOuts (attempts : list warmEnv) (ref : scopeRef) (priors : list reincarnation) : M nat :=
  match priors with
  | [] => mret O
  | _ =>
      r ← retry (fun we => closeOut_attempt we ref priors) attempts;
      mret (match r with Ok n => n | Err _ => O end)
  end.

(** ** The zombie sweep *)

Section gc.
Context `{U : UnstructuredAPI}.

Record gcResult := mkGcResult { zombies : nat; gc_reincarnated : list gcTarget }.

Inductive gcVerdict :=
| GcFailed (f : failure)
| GcAlive
| GcClaimed
| GcRefused (reincarnated : bool).

(** The body of [gcPass]'s loop. *)
Definition gc_target (e : env) (ref : scopeRef) (loc : nat) (writer : Writer) (target : gcTarget) :
    M gcVerdict :=
  let key := ref_key ref (gt_namespace target) (gt_name target) in
  match lister e key with
  | Err err => mret (GcFailed (Transient err))
  | Ok (obj, scopeActive) =>
      if negb scopeActive then mret (GcFailed (Permanent errScopeStopped))
      else
        let liveUID := GetUID <$> obj in
        if bool_decide (liveUID = Some (gt_uid target)) then mret GcAlive
        else
          r ← emitDelete e key loc writer (gt_uid target);
          match r with
          | (_, Some err) => mret (GcFailed (Transient err))
          | (deleteClaimed, None) => mret GcClaimed
          | (outcome, None) =>
              mret (GcRefused (bool_decide (outcome = deleteClaimUIDMismatch) && bool_decide (is_Some obj)))
          end
  end.

Fixpoint gc_loop (we : warmEnv) (ref : scopeRef) (loc : nat) (writer : Writer) (n : nat)
    (seeded : list gcTarget) (result : gcResult) : M (gcResult * option failure) :=
  match seeded with
  | [] => mret (result, None)
  | target :: rest =>
      if ctxErr we n then mret (result, Some (Permanent errCanceled))
      else
        v ← gc_target (we_env we) ref loc writer target;
        match v with
        | GcFailed f => mret (result, Some f)
        | GcAlive => gc_loop we ref loc writer (S n) rest result
        | GcClaimed =>
            gc_loop we ref loc writer (S n) rest (mkGcResult (S (zombies result)) (gc_reincarnated result))
        | GcRefused reincarnated =>
            gc_loop we ref loc writer (S n) rest
              (if reincarnated then mkGcResult (zombies result) (gc_reincarnated result ++ [target]) else result)
        end
  end.

Definition gcPass (we : warmEnv) (ref : scopeRef) (seeded : list gcTarget) :
    M (gcResult * option failure) :=
  match router (we_env we) (sr_sink ref) with
  | None => mret (mkGcResult 0 [], Some (Transient errSinkUnavailable))
  | Some writer =>
      loc ← registry_get (sr_sink ref);
      gc_loop we ref loc writer 0 seeded (mkGcResult 0 [])
  end.

(** The last attempt's result, whatever ended the retries. *)
Fixpoint collect_loop (last : gcResult) (attempts : list warmEnv) (ref : scopeRef) (seeded : list gcTarget) :
    M gcResult :=
  match attempts with
  | [] => mret last
  | we :: rest =>
      r ← gcPass we ref seeded;
      match r with
      | (result, Some (Transient _)) => collect_loop result rest ref seeded
      | (result, _) => mret result
      end
  end.

Definition collectZombies (attempts : list warmEnv) (ref : scopeRef) (seeded : list gcTarget) : M gcResult :=
  collect_loop (mkGcResult 0 []) attempts ref seeded.

(** ** Refused reincarnations *)

(** One pass over the pending targets: what is still pending, and the rows to
    close out. *)
Fixpoint classify_pending (rows : gmap gcTarget KnownState) (current : gmap identity string)
    (pending : list gcTarget) : list gcTarget * list reincarnation :=
  match pending with
  | [] => ([], [])
  | target :: rest =>
      let '(waiting, found) := classify_pending rows current rest in
      match rows !! target with
      | None => (waiting, found)
      | Some row =>
          if bool_decide (default "" (current !! mkIdentity (gt_namespace target) (gt_name target)) = gt_uid target)
          then (target :: waiting, found)
          else (waiting, prior_of_state row :: found)
      end
  end.

(** Each attempt comes with the attempts of the close-outs it emits. *)
Fixpoint recover_loop (attempts : list (warmEnv * list warmEnv)) (ref : scopeRef) (pending : list gcTarget)
    (recovered : nat) : M nat :=
  match attempts with
  | [] => mret recovered
  | (we, inner) :: rest =>
      match readerFor we (sr_sink ref) with
      | inr (Permanent _) => mret recovered
      | inr (Transient _) => recover_loop rest ref pending recovered
      | inl reader =>
          match LastKnownStates reader (ref_filter ref (clusterID (we_env we))) with
          | Err _ => recover_loop rest ref pending recovered
          | Ok states =>
              let '(rows, current) := indexIncarnations states in
              let '(waiting, found) := classify_pending rows current pending in
              n ← emitCloseOuts inner ref found;
              match waiting with
              | [] => mret (recovered + n)%nat
              | _ => recover_loop rest ref waiting (recovered + n)
              end
          end
      end
  end.

Definition recoverRefusedReincarnations (attempts : list (warmEnv * list warmEnv)) (ref : scopeRef)
    (refused : list gcTarget) : M nat :=
  match refused with
  | [] => mret O
  | _ => recover_loop attempts ref (elements (list_to_set refused : gset gcTarget)) 0
  end.

(** ** A warm *)

(** The attempts of each phase. *)
Record warmPlan := mkWarmPlan {
  wp_seed : list warmEnv;
  wp_sync : list warmEnv;
  wp_epoch : list warmEnv;
  wp_closeOuts : list warmEnv;
  wp_gc : list warmEnv;
  wp_recover : list (warmEnv * list warmEnv);
}.

Definition warm_scope (plan : warmPlan) (ref : scopeRef) (epochStart : Z) : M unit :=
  seed ← seedScope (wp_seed plan) ref;
  match seed with
  | Err _ => mret tt
  | Ok (seeded, priors) =>
      _ ← MarkScopeWarm (sr_sink ref) (sr_scope ref);
      if scope_ephemeral (sr_scope ref) then mret tt
      else if bool_decide (seeded = []) && bool_decide (priors = []) then mret tt
      else if negb (bool_decide (seeded = [])) && negb (awaitScopeSync (wp_sync plan) ref) then mret tt
      else
        active ← scopeWasActive (wp_epoch plan) ref epochStart;
        match active with
        | Ok true =>
            _ ← emitCloseOuts (wp_closeOuts plan) ref priors;
            if bool_decide (seeded = []) then mret tt
            else
              pass ← collectZombies (wp_gc plan) ref seeded;
              _ ← recoverRefusedReincarnations (wp_recover plan) ref (gc_reincarnated pass);
              mret tt
        | _ => mret tt
        end
  end.
End gc.

(** ** The coordinator *)

Record WarmCoordinator := mkCoordinator {
  c_started : bool;
  c_pending : list WarmTarget;
  (** The epoch of the warm in flight or done, per scope. *)
  runs : gmap scopeRef Z;
  bootDone : gset string;
  c_stopped : bool;
}.

(** Goroutines launched and contexts cancelled, in order. *)
Inductive coordCall :=
| Launch (ref : scopeRef) (epoch : Z)
| Cancel (ref : scopeRef) (epoch : Z).

Definition NewWarmCoordinator : WarmCoordinator := mkCoordinator false [] ∅ ∅ false.

Definition set_runs (m : gmap scopeRef Z) (c : WarmCoordinator) : WarmCoordinator :=
  mkCoordinator (c_started c) (c_pending c) m (bootDone c) (c_stopped c).

Definition set_pending (l : list WarmTarget) (c : WarmCoordinator) : WarmCoordinator :=
  mkCoordinator (c_started c) l (runs c) (bootDone c) (c_stopped c).

Definition startLocked (target : WarmTarget) (c : WarmCoordinator) : WarmCoordinator * list coordCall :=
  let ref := mkScopeRef (wt_Sink target) (wt_Scope target) in
  let launch := (set_runs (<[ref := wt_EpochStart target]> (runs c)) c, [Launch ref (wt_EpochStart target)]) in
  match runs c !! ref with
  | Some epoch =>
      if negb (Z.ltb epoch (wt_EpochStart target)) then (c, [])
      else (launch.1, Cancel ref epoch :: launch.2)
  | None => launch
  end.

Definition WarmScope (target : WarmTarget) (c : WarmCoordinator) : WarmCoordinator * list coordCall :=
  if c_stopped c then (c, [])
  else if negb (c_started c) then (set_pending (c_pending c ++ [target]) c, [])
  else startLocked target c.

Definition StopScope (sinkName : string) (scope : ScopeKey) (c : WarmCoordinator) :
    WarmCoordinator * list coordCall :=
  let ref := mkScopeRef sinkName scope in
  let kept := filter (fun t => ~ (wt_Sink t = sinkName /\ wt_Scope t = scope)) (c_pending c) in
  match runs c !! ref with
  | Some epoch => (set_pending kept (set_runs (delete ref (runs c)) c), [Cancel ref epoch])
  | None => (set_pending kept c, [])
  end.

Definition ForgetSink (name : string) (c : WarmCoordinator) : WarmCoordinator * list coordCall :=
  (mkCoordinator (c_started c) (filter (fun t => wt_Sink t <> name) (c_pending c))
     (filter (fun kv => sr_sink kv.1 <> name) (runs c)) (bootDone c ∖ {[ name ]}) (c_stopped c),
   map (fun kv => Cancel kv.1 kv.2) (map_to_list (filter (fun kv => sr_sink kv.1 = name) (runs c)))).

(** [Start] up to its loop: requests held before it are launched. *)
Definition coordinator_Start (c : WarmCoordinator) : WarmCoordinator * list coordCall :=
  foldl (fun acc target => let '(c', calls) := startLocked target acc.1 in (c', acc.2 ++ calls))
    (mkCoordinator true [] (runs c) (bootDone c) (c_stopped c), []) (c_pending c).

(** The end of [Start]. *)
Definition coordinator_Stop (c : WarmCoordinator) : WarmCoordinator * list coordCall :=
  (mkCoordinator (c_started c) (c_pending c) ∅ (bootDone c) true,
   map (fun kv => Cancel kv.1 kv.2) (map_to_list (runs c))).

(** ** Boot reconciliation *)

(** The loop over open scopes; [clock] dates the rows. *)
Fixpoint close_scopes (we : warmEnv) (sinkName : string) (enqueue : ScopeEvent -> option error) (n : nat)
    (open : list ScopeFilter) : list ScopeEvent * option error :=
  match open with
  | [] => ([], None)
  | filter :: rest =>
      let scope := mkScopeKey (sf_APIGroup filter) (sf_Kind filter) (sf_Namespace filter) in
      if we_Desired we sinkName scope then close_scopes we sinkName enqueue n rest
      else
        let event := mkScopeEvent ScopeActionStopped filter "" "" (clock (we_env we) n) in
        match enqueue event with
        | Some err => ([], Some err)
        | None => let '(events, err) := close_scopes we sinkName enqueue (S n) rest in (event :: events, err)
        end
  end.

(** The rows accepted, and the failure. *)
Definition closeOrphanedScopes (we : warmEnv) (sinkName : string) : list ScopeEvent * option error :=
  match readerFor we sinkName with
  | inr (Permanent _) => ([], None)
  | inr (Transient err) => ([], Some err)
  | inl reader =>
      match ScopeEventWriterFor we sinkName with
      | None => ([], Some errNoScopeWriter)
      | Some enqueue =>
          match ActiveScopes reader (clusterID (we_env we)) with
          | Err err => ([], Some err)
          | Ok open => close_scopes we sinkName enqueue 0 open
          end
      end
  end.

(** The loop of [reconcileScopeEpochs]; a failure leaves its sink for the next tick. *)
Fixpoint reconcile_sinks (we : warmEnv) (names : list string) (n : nat) (c : WarmCoordinator) :
    WarmCoordinator * list (string * ScopeEvent) :=
  match names with
  | [] => (c, [])
  | name :: rest =>
      if bool_decide (name ∈ bootDone c) then reconcile_sinks we rest (S n) c
      else
        let '(events, err) := closeOrphanedScopes we name in
        let rows := map (pair name) events in
        match err with
        | Some _ =>
            if ctxErr we n then (c, rows)
            else let '(c', rows') := reconcile_sinks we rest (S n) c in (c', rows ++ rows')
        | None =>
            let c1 := mkCoordinator (c_started c) (c_pending c) (runs c) ({[ name ]} ∪ bootDone c) (c_stopped c) in
            let '(c', rows') := reconcile_sinks we rest (S n) c1 in (c', rows ++ rows')
        end
  end.

Definition reconcileScopeEpochs (we : warmEnv) (c : WarmCoordinator) :
    WarmCoordinator * list (string * ScopeEvent) :=
  reconcile_sinks we (SinkNames we) 0 c.
