(* ===== verification/Driver.v ===== *)
(** * Driver: the ClickHouse client as the sink uses it

    clickhouse-go is outside the repository, so what it does is a parameter: one
    insert attempt is an [attempt], which answers each call the sink makes
    ([PrepareBatch], [Append] per row, [Abort], [Send]) and says which of the rows
    handed over became durable. The documentation of [driver.Batch.Send] quoted in
    [flushBatch] gives the three outcomes of a failed send (nothing, everything or
    a part landed); the one thing the code relies on is [durable]: a send that
    reported success made every row durable.

    [backoff.Retry] is a first attempt and the list of those that follow it; when
    the list ends, the schedule or the context did. *)

From Stdlib Require Import ZArith Lia.
From stdpp Require Import base gmap strings list.
From S2P Require Import Prelude.

(** A bound argument: what the driver's column encoders distinguish. *)
Inductive chValue :=
| VTime (instant : Z)
| VString (s : string)
| VMap (m : gmap string string)
| VArray (l : list string).

#[export] Instance chValue_eq_dec : EqDecision chValue.
Proof. solve_decision. Defined.

(** The arguments of one [Append] call. *)
Definition chRow : Type := list chValue.

#[export] Instance chRow_eq_dec : EqDecision chRow := _ : EqDecision (list chValue).

Record attempt := mkAttempt {
  at_prepare : option error;
  at_append : nat -> option error;
  at_abort : option error;
  at_send : option error;
  at_landed : nat -> bool;
}.

(** The contract of [Send]. *)
Definition durable (a : attempt) : Prop :=
  at_send a = None -> forall i, at_landed a i = true.

(** [errors.Join]. *)
Definition errors_Join (e : error) (e' : option error) : error :=
  match e' with
  | None => e
  | Some e' => e +:+ String (Ascii.ascii_of_nat 10) e'
  end.

(** The rows of a sent batch that became durable, from the [i]-th on. *)
Fixpoint landed (a : attempt) (i : nat) (rows : list chRow) : list chRow :=
  match rows with
  | [] => []
  | row :: rest => if at_landed a i then row :: landed a (S i) rest else landed a (S i) rest
  end.

(** The append loop both insert paths share: the error of the first row the
    driver rejects, joined with that of aborting the half-built batch. *)
Fixpoint append_all (a : attempt) (i : nat) (rows : list chRow) : option error :=
  match rows with
  | [] => None
  | _ :: rest =>
      match at_append a i with
      | Some e => Some (errors_Join e (at_abort a))
      | None => append_all a (S i) rest
      end
  end.

(** Prepare, append every row, send: the durable rows and the error. *)
Definition insert_once (a : attempt) (rows : list chRow) : list chRow * option error :=
  match at_prepare a with
  | Some e => ([], Some e)
  | None =>
      match append_all a 0 rows with
      | Some e => ([], Some e)
      | None => (landed a 0 rows, at_send a)
      end
  end.

(** [backoff.Retry] of an insert: the rows the attempts made durable, the error of
    the last one, and how many attempts followed the first. *)
Fixpoint insert_retry (a : attempt) (later : list attempt) (rows : list chRow) :
    list chRow * option error * nat :=
  match insert_once a rows with
  | (out, None) => (out, None, 0)
  | (out, Some e) =>
      match later with
      | [] => (out, Some e, 0)
      | a' :: later' =>
          let '(out', err, n) := insert_retry a' later' rows in (out ++ out', err, S n)
      end
  end.

(** ** Facts *)

Lemma landed_subset a i rows row : row ∈ landed a i rows -> row ∈ rows.
Proof.
  revert i. induction rows as [|r rows IH]; intros i; simpl; [done|].
  destruct (at_landed a i); rewrite !elem_of_cons; naive_solver.
Qed.

Lemma landed_all a i rows : (forall j, at_landed a j = true) -> landed a i rows = rows.
Proof. intros H. revert i. induction rows as [|r rows IH]; intros i; simpl; [done|]. by rewrite H, IH. Qed.

Lemma insert_once_subset a rows row : row ∈ (insert_once a rows).1 -> row ∈ rows.
Proof.
  unfold insert_once. split_cases; simpl; rewrite ?elem_of_nil; try done. apply landed_subset.
Qed.

Lemma insert_once_durable a rows : durable a -> (insert_once a rows).2 = None -> (insert_once a rows).1 = rows.
Proof.
  unfold insert_once. split_cases; simpl; try done. intros Hd Hs. apply landed_all, Hd, Hs.
Qed.

Lemma insert_retry_subset a later rows row : row ∈ (insert_retry a later rows).1.1 -> row ∈ rows.
Proof.
  revert a. induction later as [|a' later IH]; intros a; simpl;
    pose proof (insert_once_subset a rows row) as Hs;
    destruct (insert_once a rows) as [out [e|]]; simpl in *; try done.
  specialize (IH a'). destruct (insert_retry a' later rows) as [[out' err] n]. simpl in *.
  rewrite elem_of_app. naive_solver.
Qed.

Lemma insert_retry_durable a later rows row :
  Forall durable (a :: later) -> (insert_retry a later rows).1.2 = None -> row ∈ rows ->
  row ∈ (insert_retry a later rows).1.1.
Proof.
  revert a. induction later as [|a' later IH]; intros a HF; simpl;
    apply Forall_cons in HF as [Ha HF];
    pose proof (insert_once_durable a rows Ha) as Hd;
    destruct (insert_once a rows) as [out [e|]]; simpl in *; try done;
    try (intros _ Hr; by rewrite Hd).
  specialize (IH a' HF). destruct (insert_retry a' later rows) as [[out' err] n]. simpl in *.
  intros He Hr. apply elem_of_app. right. by apply IH.
Qed.

Lemma insert_once_nil a : at_prepare a = None -> at_send a = None -> insert_once a [] = ([], None).
Proof. unfold insert_once. intros -> ->. done. Qed.
