(* ===== verification/ScopeWriter.v ===== *)
(** * ScopeWriter: the scope-log half of the ClickHouse sink

    Models [internal/sink/clickhouse/scopewriter.go]: a bounded queue of scope
    events, the single worker that batches and inserts them, and the retry queue
    that keeps what could not be written. The state is the part of [CHWriter] this
    path owns; each select case of the worker and each stage of
    [EnqueueScopeEvent] is one function on it. [sp_accepted], [sp_written] and
    [sp_dropped] are history: what the queue took, what an insert confirmed and
    what the bounded retry queue gave up (the code logs the latter).

    A wait for a channel is a step that is not enabled ([None]); the timers may
    fire at any moment, so batching delays are not modelled. *)

From Stdlib Require Import ZArith Lia.
From stdpp Require Import base gmap strings list.
From S2P Require Import Prelude ScopeRecorder Driver.

Definition scopeQueueSize : nat := 2048.
Definition scopeBatchMaxRows : nat := 64.
Definition scopeRetryQueueMaxLen : nat := 4096.

Definition action_String (a : ScopeAction) : string :=
  match a with ScopeActionStarted => "Started" | ScopeActionStopped => "Stopped" end.

(** Column order: ts, cluster_id, api_group, api_version, kind, namespace, action,
    rule_ref. *)
Definition scopeInsertArgs (event : ScopeEvent) : chRow :=
  [VTime (se_TS event); VString (sf_ClusterID (se_Scope event)); VString (sf_APIGroup (se_Scope event));
   VString (se_APIVersion event); VString (sf_Kind (se_Scope event)); VString (sf_Namespace (se_Scope event));
   VString (action_String (se_Action event)); VString (se_RuleRef event)].

Record scopePath := mkScopePath {
  sp_events : list ScopeEvent;
  sp_sending : list ScopeEvent;
  sp_batch : list ScopeEvent;
  sp_timer : bool;
  sp_retries : list ScopeEvent;
  sp_done : bool;
  sp_table : list chRow;
  sp_accepted : list ScopeEvent;
  sp_written : list ScopeEvent;
  sp_dropped : list ScopeEvent;
}.

Definition newScopePath : scopePath := mkScopePath [] [] [] false [] false [] [] [] [].

Definition set_queue (events sending : list ScopeEvent) (p : scopePath) : scopePath :=
  mkScopePath events sending (sp_batch p) (sp_timer p) (sp_retries p) (sp_done p) (sp_table p)
    (sp_accepted p) (sp_written p) (sp_dropped p).

Definition set_batch (batch : list ScopeEvent) (timer : bool) (p : scopePath) : scopePath :=
  mkScopePath (sp_events p) (sp_sending p) batch timer (sp_retries p) (sp_done p) (sp_table p)
    (sp_accepted p) (sp_written p) (sp_dropped p).

Definition set_retries (retries dropped : list ScopeEvent) (p : scopePath) : scopePath :=
  mkScopePath (sp_events p) (sp_sending p) (sp_batch p) (sp_timer p) retries (sp_done p) (sp_table p)
    (sp_accepted p) (sp_written p) dropped.

Definition set_done (p : scopePath) : scopePath :=
  mkScopePath (sp_events p) (sp_sending p) (sp_batch p) (sp_timer p) (sp_retries p) true (sp_table p)
    (sp_accepted p) (sp_written p) (sp_dropped p).

(** ** Hand-off *)

Definition errScopeClosing : error := "chwriter: shutting down, refusing new scope event".

(** [EnqueueScopeEvent] up to its select; [closing] is the writer's flag. *)
Definition EnqueueScopeEvent_enter (closing : bool) (event : ScopeEvent) (p : scopePath) :
    scopePath + error :=
  if closing then inr errScopeClosing
  else inl (set_queue (sp_events p) (sp_sending p ++ [event]) p).

(** Its select: the [i]-th waiting call finds room ... *)
Definition EnqueueScopeEvent_send (i : nat) (p : scopePath) : option scopePath :=
  match sp_sending p !! i with
  | Some event =>
      if Nat.ltb (length (sp_events p)) scopeQueueSize then
        let p1 := set_queue (sp_events p ++ [event]) (delete i (sp_sending p)) p in
        Some (mkScopePath (sp_events p1) (sp_sending p1) (sp_batch p1) (sp_timer p1) (sp_retries p1)
                (sp_done p1) (sp_table p1) (sp_accepted p1 ++ [event]) (sp_written p1) (sp_dropped p1))
      else None
  | None => None
  end.

(** ... or gives up, on its timer or its context. *)
Definition EnqueueScopeEvent_giveUp (i : nat) (p : scopePath) : option scopePath :=
  match sp_sending p !! i with
  | Some _ => Some (set_queue (sp_events p) (delete i (sp_sending p)) p)
  | None => None
  end.

(** ** Flushing *)

Definition queueScopeRetries (batch : list ScopeEvent) (p : scopePath) : scopePath :=
  let retries := sp_retries p ++ batch in
  let overflow := (length retries - scopeRetryQueueMaxLen)%nat in
  if Nat.ltb 0 overflow
  then set_retries (drop overflow retries) (sp_dropped p ++ take overflow retries) p
  else set_retries retries (sp_dropped p) p.

Definition takeScopeRetries (p : scopePath) : scopePath * list ScopeEvent :=
  (set_retries [] (sp_dropped p) p, sp_retries p).

Definition sendScopeBatchOnce (a : attempt) (batch : list ScopeEvent) : list chRow * option error :=
  insert_once a (map scopeInsertArgs batch).

(** The attempts of one flush: the first and those the back-off schedule allows. *)
Record scopeFlush := mkScopeFlush { sfl_first : attempt; sfl_later : list attempt }.

Definition flushScopeBatch (f : scopeFlush) (batch : list ScopeEvent) (p : scopePath) : scopePath :=
  match batch with
  | [] => p
  | _ =>
      let '(rows, err, _) := insert_retry (sfl_first f) (sfl_later f) (map scopeInsertArgs batch) in
      let table := sp_table p ++ rows in
      match err with
      | None =>
          mkScopePath (sp_events p) (sp_sending p) (sp_batch p) (sp_timer p) (sp_retries p) (sp_done p) table
            (sp_accepted p) (sp_written p ++ batch) (sp_dropped p)
      | Some _ =>
          queueScopeRetries batch
            (mkScopePath (sp_events p) (sp_sending p) (sp_batch p) (sp_timer p) (sp_retries p) (sp_done p) table
               (sp_accepted p) (sp_written p) (sp_dropped p))
      end
  end.

(** ** The worker, one function per select case *)

Definition scopeWorker_receive (f : scopeFlush) (p : scopePath) : option scopePath :=
  if sp_done p then None else
  match sp_events p with
  | [] => None
  | event :: rest =>
      let batch := sp_batch p ++ [event] in
      let timer := if Nat.eqb (length batch) 1 then true else sp_timer p in
      let p1 := set_batch batch timer (set_queue rest (sp_sending p) p) in
      if Nat.leb scopeBatchMaxRows (length batch)
      then Some (set_batch [] false (flushScopeBatch f batch p1))
      else Some p1
  end.

Definition scopeWorker_timer (f : scopeFlush) (p : scopePath) : option scopePath :=
  if sp_done p then None else
  if sp_timer p then Some (set_batch [] false (flushScopeBatch f (sp_batch p) p)) else None.

Definition scopeWorker_retryTick (f : scopeFlush) (p : scopePath) : option scopePath :=
  if sp_done p then None else
  let '(p1, pending) := takeScopeRetries p in
  match pending with
  | [] => Some p1
  | _ => Some (set_batch [] false (flushScopeBatch f (pending ++ sp_batch p1) p1))
  end.

(** The receive on the closed, drained channel. *)
Definition scopeWorker_closed (f : scopeFlush) (queueClosed : bool) (p : scopePath) : option scopePath :=
  if sp_done p then None else
  match queueClosed, sp_events p with
  | true, [] =>
      let '(p1, retries) := takeScopeRetries p in
      let batch := sp_batch p1 ++ retries in
      Some (set_done (set_batch [] false (flushScopeBatch f batch p1)))
  | _, _ => None
  end.

(** ** Runs *)

(** The steps of the path; the two flags belong to the enclosing writer. *)
Inductive scopeOp :=
| SEnter (closing : bool) (event : ScopeEvent)
| SSend (i : nat)
| SGiveUp (i : nat)
| SReceive (f : scopeFlush)
| STimer (f : scopeFlush)
| STick (f : scopeFlush)
| SClosed (f : scopeFlush) (queueClosed : bool).

Definition scope_op (op : scopeOp) (p : scopePath) : option scopePath :=
  match op with
  | SEnter closing event =>
      match EnqueueScopeEvent_enter closing event p with inl p' => Some p' | inr _ => Some p end
  | SSend i => EnqueueScopeEvent_send i p
  | SGiveUp i => EnqueueScopeEvent_giveUp i p
  | SReceive f => scopeWorker_receive f p
  | STimer f => scopeWorker_timer f p
  | STick f => scopeWorker_retryTick f p
  | SClosed f queueClosed => scopeWorker_closed f queueClosed p
  end.

Fixpoint scope_run (ops : list scopeOp) (p : scopePath) : option scopePath :=
  match ops with
  | [] => Some p
  | op :: rest => match scope_op op p with Some p' => scope_run rest p' | None => None end
  end.

Definition flush_attempts (f : scopeFlush) : list attempt := sfl_first f :: sfl_later f.

Definition op_flush (op : scopeOp) : option scopeFlush :=
  match op with
  | SReceive f | STimer f | STick f | SClosed f _ => Some f
  | _ => None
  end.

Definition op_durable (op : scopeOp) : Prop :=
  match op_flush op with Some f => Forall durable (flush_attempts f) | None => True end.

(** Everything the path took, wherever it is now. *)
Definition held (p : scopePath) : list ScopeEvent :=
  sp_events p ++ sp_batch p ++ sp_retries p ++ sp_written p ++ sp_dropped p.

Record scope_inv (p : scopePath) : Prop := {
  si_conserved : held p ≡ₚ sp_accepted p;
  si_durable : forall ev, ev ∈ sp_written p -> scopeInsertArgs ev ∈ sp_table p;
  si_faithful : forall row, row ∈ sp_table p -> exists ev, ev ∈ sp_accepted p /\ row = scopeInsertArgs ev;
  si_bounded : (length (sp_retries p) <= scopeRetryQueueMaxLen)%nat;
  si_timer : sp_timer p = true <-> sp_batch p <> [];
}.

#[local] Opaque scopeRetryQueueMaxLen scopeBatchMaxRows scopeQueueSize.

(** Flushing moves a batch out of the worker's hands: it was written, or it is on
    the retry queue behind what was there, less what overflowed. *)
Lemma flushScopeBatch_moves f batch p :
  let p' := flushScopeBatch f batch p in
  sp_events p' = sp_events p /\ sp_sending p' = sp_sending p /\ sp_batch p' = sp_batch p /\
  sp_timer p' = sp_timer p /\ sp_done p' = sp_done p /\ sp_accepted p' = sp_accepted p /\
  (sp_written p' = sp_written p ++ batch /\ sp_retries p' = sp_retries p /\ sp_dropped p' = sp_dropped p \/
   sp_written p' = sp_written p /\
   sp_dropped p' ++ sp_retries p' = sp_dropped p ++ sp_retries p ++ batch) /\
  ((length (sp_retries p) <= scopeRetryQueueMaxLen)%nat ->
   (length (sp_retries p') <= scopeRetryQueueMaxLen)%nat).
Proof.
  destruct batch as [|ev batch].
  { simpl. repeat split; auto. left. by rewrite app_nil_r. }
  unfold flushScopeBatch. destruct (insert_retry _ _ _) as [[rows [e|]] n]; simpl.
  2: { repeat split; auto. }
  unfold queueScopeRetries. simpl.
  destruct (Nat.ltb_spec 0 (length (sp_retries p ++ ev :: batch) - scopeRetryQueueMaxLen)); simpl.
  - repeat split; auto; [right; split; [done|] | rewrite length_drop; lia].
    by rewrite <- app_assoc, take_drop.
  - repeat split; auto; try (right; done). intros _. lia.
Qed.

Lemma flushScopeBatch_table f batch p :
  let p' := flushScopeBatch f batch p in
  exists rows, sp_table p' = sp_table p ++ rows /\
    (forall row, row ∈ rows -> exists ev, ev ∈ batch /\ row = scopeInsertArgs ev) /\
    (Forall durable (flush_attempts f) ->
     sp_written p' = sp_written p ++ batch \/ sp_written p' = sp_written p) /\
    (Forall durable (flush_attempts f) -> forall ev, ev ∈ sp_written p' ->
     ev ∈ sp_written p \/ scopeInsertArgs ev ∈ rows).
Proof.
  destruct batch as [|ev batch].
  { exists []. simpl. rewrite app_nil_r. set_solver. }
  unfold flushScopeBatch.
  pose proof (insert_retry_subset (sfl_first f) (sfl_later f) (map scopeInsertArgs (ev :: batch))) as Hsub.
  pose proof (insert_retry_durable (sfl_first f) (sfl_later f) (map scopeInsertArgs (ev :: batch))) as Hdur.
  destruct (insert_retry _ _ _) as [[rows err] n]. cbn [fst snd] in Hsub, Hdur.
  exists rows. split; [|split; [|split]].
  - destruct err; [|done]. unfold queueScopeRetries. simpl. by case_match.
  - intros row Hr. apply Hsub, list_elem_of_fmap in Hr as [e [-> He]]. eauto.
  - intros _. destruct err; [|by left]. right. unfold queueScopeRetries. simpl. by case_match.
  - intros HF e He. destruct err as [err|].
    + left. unfold queueScopeRetries in He. simpl in He. by case_match.
    + cbn [sp_written] in He. apply elem_of_app in He as [He|He]; [by left|]. right.
      apply Hdur; [done..|]. apply list_elem_of_fmap. eauto.
Qed.

(** A flush of everything the worker has in hand restores the invariant. *)
Lemma flush_inv f batch p :
  Forall durable (flush_attempts f) ->
  sp_events p ++ batch ++ sp_retries p ++ sp_written p ++ sp_dropped p ≡ₚ sp_accepted p ->
  (forall ev, ev ∈ sp_written p -> scopeInsertArgs ev ∈ sp_table p) ->
  (forall row, row ∈ sp_table p -> exists ev, ev ∈ sp_accepted p /\ row = scopeInsertArgs ev) ->
  (length (sp_retries p) <= scopeRetryQueueMaxLen)%nat ->
  scope_inv (set_batch [] false (flushScopeBatch f batch p)).
Proof.
  intros HF Hc Hw Hr Hb.
  destruct (flushScopeBatch_moves f batch p) as (He & _ & _ & _ & _ & Ha & Hm & Hb').
  destruct (flushScopeBatch_table f batch p) as (rows & Ht & Hrows & _ & Hw').
  split; unfold held; simpl; rewrite ?He, ?Ha; auto.
  - rewrite <- Hc. destruct Hm as [(-> & -> & ->)|(-> & Hd)]; [solve_Permutation|].
    rewrite (Permutation_app_comm (sp_retries _)), <- app_assoc, Hd. solve_Permutation.
  - intros ev Hev. rewrite Ht, elem_of_app. destruct (Hw' HF ev Hev); auto.
  - intros row. rewrite Ht, elem_of_app. intros [Hin|Hin]; [by apply Hr|].
    apply Hrows in Hin as [ev [Hev ->]]. exists ev. split; [|done]. rewrite <- Hc. set_solver.
  - done.
Qed.

Lemma scope_inv_new : scope_inv newScopePath.
Proof. split; simpl; try done; [set_solver..|lia]. Qed.

Lemma scope_inv_op op p p' : op_durable op -> scope_inv p -> scope_op op p = Some p' -> scope_inv p'.
Proof.
  intros Hd [Hc Hw Hr Hb Ht] Hop. unfold held in Hc. destruct op; simpl in Hop.
  - unfold EnqueueScopeEvent_enter in Hop. destruct closing; simplify_eq/=; by split.
  - unfold EnqueueScopeEvent_send in Hop. split_cases. split; unfold held; simpl; auto.
    + rewrite <- Hc. solve_Permutation.
    + intros row Hin. destruct (Hr row Hin) as [ev [? ->]]. set_solver.
  - unfold EnqueueScopeEvent_giveUp in Hop. split_cases.
  - unfold scopeWorker_receive in Hop. destruct (sp_done p); [done|].
    destruct (sp_events p) as [|event rest] eqn:E; [done|]. destruct (Nat.leb _ _); simplify_eq.
    + apply flush_inv; auto; simpl. rewrite <- Hc. solve_Permutation.
    + split; unfold held; simpl; auto.
      * rewrite <- Hc. solve_Permutation.
      * split; [by destruct (sp_batch p)|]. intros _.
        destruct (Nat.eqb_spec (length (sp_batch p ++ [event])) 1) as [|Hl]; [done|].
        apply Ht. intros Hn. by rewrite Hn in Hl.
  - unfold scopeWorker_timer in Hop. split_cases. apply flush_inv; auto.
  - unfold scopeWorker_retryTick in Hop. destruct (sp_done p); [done|]. simpl in Hop.
    destruct (sp_retries p) as [|e es] eqn:E; simplify_eq.
    + split; unfold held; simpl; auto; try lia.
    + apply flush_inv; auto; simpl; [|lia]. rewrite <- Hc. solve_Permutation.
  - unfold scopeWorker_closed in Hop. destruct (sp_done p); [done|].
    destruct queueClosed; [|done]. destruct (sp_events p) eqn:E; [|done]. simpl in Hop. injection Hop as <-.
    set (p1 := set_retries [] (sp_dropped p) p).
    assert (scope_inv (set_batch [] false (flushScopeBatch f (sp_batch p ++ sp_retries p) p1))) as Hi.
    { apply flush_inv; auto; simpl; [|lia]. rewrite <- Hc, E. simpl. solve_Permutation. }
    destruct Hi. by split.
Qed.

Lemma scope_inv_run ops p p' :
  Forall op_durable ops -> scope_inv p -> scope_run ops p = Some p' -> scope_inv p'.
Proof.
  revert p. induction ops as [|op ops IH]; intros p HF Hi; simpl; [by intros [= <-]|].
  apply Forall_cons in HF as [Hd HF]. destruct (scope_op op p) as [p1|] eqn:E; [|done].
  eapply (IH p1); eauto using scope_inv_op.
Qed.

(** No scope event is lost: whatever the backend does, every event the queue
    took is still queued, batched or waiting for a retry, or an insert confirmed it
    and its row is in the table, or the bounded retry queue dropped it (which it
    does only above its limit of undelivered events); and every row of the table is
    the rendering of an accepted event, so a retried insert adds identical rows. *)
Lemma scope_events_conserved ops p :
  Forall op_durable ops -> scope_run ops newScopePath = Some p ->
  sp_events p ++ sp_batch p ++ sp_retries p ++ sp_written p ++ sp_dropped p ≡ₚ sp_accepted p /\
  (forall ev, ev ∈ sp_written p -> scopeInsertArgs ev ∈ sp_table p) /\
  (forall row, row ∈ sp_table p -> exists ev, ev ∈ sp_accepted p /\ row = scopeInsertArgs ev) /\
  (length (sp_retries p) <= scopeRetryQueueMaxLen)%nat.
Proof.
  intros HF Hrun. destruct (scope_inv_run ops newScopePath p HF scope_inv_new Hrun). auto.
Qed.

(** ** Order *)

Definition flush_succeeds (f : scopeFlush) : Prop :=
  forall rows, (insert_retry (sfl_first f) (sfl_later f) rows).1.2 = None.

Definition op_succeeds (op : scopeOp) : Prop :=
  match op_flush op with Some f => flush_succeeds f | None => True end.

Lemma flushScopeBatch_ok f batch p :
  flush_succeeds f ->
  sp_written (flushScopeBatch f batch p) = sp_written p ++ batch /\
  sp_retries (flushScopeBatch f batch p) = sp_retries p /\
  sp_events (flushScopeBatch f batch p) = sp_events p /\
  sp_accepted (flushScopeBatch f batch p) = sp_accepted p.
Proof.
  intros Hs. destruct batch as [|ev batch]; [simpl; by rewrite app_nil_r|].
  unfold flushScopeBatch. specialize (Hs (map scopeInsertArgs (ev :: batch))).
  destruct (insert_retry _ _ _) as [[rows err] n]. simpl in Hs. by subst.
Qed.

#[global] Arguments flushScopeBatch : simpl never.

Definition in_order (p : scopePath) : Prop :=
  sp_retries p = [] /\ sp_written p ++ sp_batch p ++ sp_events p = sp_accepted p.

Lemma in_order_op op p p' : op_succeeds op -> in_order p -> scope_op op p = Some p' -> in_order p'.
Proof.
  intros Hs [Hr Ho] Hop. destruct op as [c e|i|i|f|f|f|f q]; simpl in Hop;
    try pose proof (flushScopeBatch_ok f) as Hf.
  - unfold EnqueueScopeEvent_enter in Hop. destruct c; simplify_eq/=; by split.
  - unfold EnqueueScopeEvent_send in Hop. split_cases. split; simpl; [done|]. by rewrite !app_assoc, <- Ho, !app_assoc.
  - unfold EnqueueScopeEvent_giveUp in Hop. split_cases.
  - unfold scopeWorker_receive in Hop. destruct (sp_done p); [done|].
    destruct (sp_events p) as [|event rest] eqn:E; [done|]. destruct (Nat.leb _ _); simplify_eq.
    + edestruct Hf as (Hw & Hr' & He & Ha); [done|]. split; simpl; rewrite ?Hw, ?Hr', ?He, ?Ha; simpl; [done|].
      by rewrite <- Ho, <- !app_assoc.
    + split; simpl; [done|]. by rewrite <- Ho, <- !app_assoc.
  - unfold scopeWorker_timer in Hop. split_cases.
    edestruct Hf as (Hw & Hr' & He & Ha); [done|]. split; simpl; rewrite ?Hw, ?Hr', ?He, ?Ha; [done|].
    by rewrite <- Ho, <- !app_assoc.
  - unfold scopeWorker_retryTick in Hop. destruct (sp_done p); [done|]. simpl in Hop. rewrite Hr in Hop.
    simplify_eq. by split.
  - unfold scopeWorker_closed in Hop. destruct (sp_done p); [done|]. destruct q; [|done].
    destruct (sp_events p) eqn:E; [|done]. simpl in Hop. injection Hop as <-.
    edestruct Hf as (Hw & Hr' & He & Ha); [done|]. split; simpl; rewrite ?Hw, ?Hr', ?He, ?Ha; simpl; [done|].
    by rewrite <- Ho, Hr, E, !app_nil_r.
Qed.

(** Waiting events are written by the next retry tick that succeeds. *)
Lemma retryTick_recovers f p p' :
  flush_succeeds f -> sp_retries p <> [] -> scopeWorker_retryTick f p = Some p' ->
  sp_retries p' = [] /\ sp_batch p' = [] /\ sp_written p' = sp_written p ++ sp_retries p ++ sp_batch p.
Proof.
  intros Hs Hne. unfold scopeWorker_retryTick. destruct (sp_done p); [done|]. simpl.
  destruct (sp_retries p) as [|e es] eqn:E; [done|]. intros [= <-].
  edestruct (flushScopeBatch_ok f) as (Hw & Hr' & _ & _); [done|]. simpl. by rewrite Hw, Hr'.
Qed.

(** While every insert goes through, events reach the table in the order they were
    accepted. *)
Lemma scope_order_healthy ops p :
  Forall op_succeeds ops -> scope_run ops newScopePath = Some p ->
  sp_written p ++ sp_batch p ++ sp_events p = sp_accepted p.
Proof.
  enough (forall ops p0 p, in_order p0 -> Forall op_succeeds ops -> scope_run ops p0 = Some p -> in_order p) as H.
  { intros HF Hr. by eapply (H ops newScopePath p). }
  clear. intros ops. induction ops as [|op ops IH]; intros p0 p Hi HF; simpl; [by intros [= <-]|].
  apply Forall_cons in HF as [Hd HF]. destruct (scope_op op p0) as [p1|] eqn:E; [|done].
  intros Hr. eapply (IH p1); eauto using in_order_op.
Qed.

Module ScopeSamples.

Definition up : attempt := mkAttempt None (fun _ => None) None None (fun _ => true).
Definition down : attempt := mkAttempt (Some "connection refused") (fun _ => None) None
  (Some "connection refused") (fun _ => false).

Definition ok : scopeFlush := mkScopeFlush up [].
Definition outage : scopeFlush := mkScopeFlush down [down].

Definition pods : ScopeFilter := mkScopeFilter "c1" "" "Pod" "default".
Definition started : ScopeEvent := mkScopeEvent ScopeActionStarted pods "v1" "streamrule/default/audit" 10.
Definition stopped : ScopeEvent := mkScopeEvent ScopeActionStopped pods "v1" "streamrule/default/audit" 20.

Definition accept (ev : ScopeEvent) : list scopeOp := [SEnter false ev; SSend 0; SReceive ok].

Definition outage_run : list scopeOp := accept started ++ [STimer outage] ++ accept stopped ++ [STick ok].

Lemma ok_durable : Forall durable (flush_attempts ok).
Proof. by repeat constructor. Qed.

Lemma outage_durable : Forall durable (flush_attempts outage).
Proof. by repeat constructor. Qed.

Lemma scope_events_conserved_witness :
  exists p, scope_run outage_run newScopePath = Some p /\ sp_written p = [started; stopped] /\
    sp_events p ++ sp_batch p ++ sp_retries p ++ sp_written p ++ sp_dropped p ≡ₚ sp_accepted p.
Proof.
  eexists. split; [vm_compute; reflexivity|]. split; [reflexivity|].
  refine (proj1 (scope_events_conserved outage_run _ _ _)); [|vm_compute; reflexivity].
  repeat (apply List.Forall_cons; [first [exact I | exact ok_durable | exact outage_durable]|]).
  apply List.Forall_nil.
Defined.

(** Scope rows can reach the table out of order: the retry queue is consulted
    only on its own tick, so when an insert failed and the next batch's timer fires
    first, the newer event of the same scope is inserted before the older one; and
    on shutdown retries are appended after the newer batch, not put before it. *)
Lemma scope_order_inverted :
  (exists p, scope_run (accept started ++ [STimer outage] ++ accept stopped ++ [STimer ok; STick ok]) newScopePath
     = Some p /\
   sp_accepted p = [started; stopped] /\ sp_table p = map scopeInsertArgs [stopped; started]) /\
  (exists p, scope_run (accept started ++ [STimer outage] ++ accept stopped ++ [SClosed ok true]) newScopePath
     = Some p /\
   sp_accepted p = [started; stopped] /\ sp_table p = map scopeInsertArgs [stopped; started]).
Proof. split; eexists; (split; [vm_compute; reflexivity|split; reflexivity]). Qed.

End ScopeSamples.
