(* ===== verification/CHWriter.v ===== *)
(** * CHWriter: the ClickHouse sink's write path

    Models [internal/sink/clickhouse/writer.go]: rendering a record, the bounded
    queue with its closing protocol, the worker pool that batches and flushes, the
    settling of every job (batch insert with retries, then row by row), and the
    ordered shutdown of [Start]. The scope-log path of the same struct is
    [ScopeWriter], embedded as [cw_scope].

    Concurrency: a state of the writer is a [CHWriter]; each select case, critical
    section or wait of the code is one function on it, [None] when it would block,
    and a run is any sequence of them ([ch_run]). A flush is one step: its batch is
    private to its worker, and nothing stated here depends on how the inserts of
    two workers interleave. Timers may fire at any moment; latencies are not
    modelled. [cw_accepted] and [cw_settled] are history: the jobs the queue took
    and the callbacks that fired, with their argument. *)

From Stdlib Require Import ZArith Lia.
From stdpp Require Import base gmap strings list.
From S2P Require Import Prelude Identity HashCache Json Redact Pipeline ScopeRecorder Driver ScopeWriter.

(** ** Configuration *)

Definition DefaultWriteQueueSize : Z := 5000.
Definition DefaultWriteWorkers : Z := 4.
Definition DefaultBatchMaxRows : Z := 1000.
Definition DefaultBatchMaxWait : Z := 1 * second.
Definition DefaultEnqueueTimeout : Z := 2 * second.
Definition DefaultShutdownDrainTimeout : Z := 15 * second.
Definition DefaultCheckpointEvery : Z := 50.
Definition defaultInsertTimeout : Z := 5 * second.
Definition defaultMaxRetryBackoff : Z := 60 * second.
Definition defaultMaxIsolationPhase : Z := 120 * second.
Definition defaultScopeMaxRetryBackoff : Z := 30 * second.

Record Config := mkConfig {
  cf_Addr : string;
  cf_Database : string;
  cf_Username : string;
  cf_Password : string;
  cf_DialTimeout : Z;
  cf_ReadTimeout : Z;
  cf_AutoCreateSchema : bool;
  cf_BatchMaxRows : Z;
  cf_BatchMaxWait : Z;
  cf_WriteQueueSize : Z;
  cf_WriteWorkers : Z;
  cf_EnqueueTimeout : Z;
  cf_ShutdownDrainTimeout : Z;
  cf_CheckpointEvery : Z;
}.

(** The immutable fields of [CHWriter]. *)
Record chKnobs := mkKnobs {
  kn_queueSize : Z;
  kn_workers : Z;
  kn_batchMaxRows : Z;
  kn_insertTimeout : Z;
  kn_maxRetryBackoff : Z;
  kn_shutdownDrainTimeout : Z;
  kn_batchMaxWait : Z;
  kn_enqueueTimeout : Z;
  kn_scopeMaxRetryBackoff : Z;
  kn_maxIsolationPhase : Z;
  kn_checkpointEvery : Z;
  kn_database : string;
  kn_autoCreate : bool;
}.

(** ** Rows and jobs *)

(** Column order of [insertResourceStateQuery]. A nil map or slice and an empty
    one are the same value here, so the coercion of nil is the identity. *)
Definition insertArgs (rec : Record_) : chRow :=
  [VTime (Timestamp rec); VString (ClusterID rec); VString (EventType rec); VString (r_APIGroup rec);
   VString (r_APIVersion rec); VString (r_Kind rec); VString (r_Namespace rec); VString (r_Name rec);
   VString (r_UID rec); VString (ResourceVersion rec); VMap (Labels rec); VArray (Actors rec);
   VString (Data rec); VString (Diff rec); VString (SHA256 rec)].

Record writeJob := mkWriteJob { wj_args : chRow; wj_commit : option commit }.

Definition renderJob (job : Job) : writeJob := mkWriteJob (insertArgs (j_Record job)) (Some (j_Commit job)).

(** ** State *)

Record worker := mkWorker { wk_batch : list writeJob; wk_timer : bool; wk_done : bool }.

Definition newWorker : worker := mkWorker [] false false.

(** The contexts an attempt can run under. *)
Inductive chContext := CtxManager | CtxBackground | CtxDrain.

Record chMetrics := mkChMetrics {
  cm_depth : Z;
  cm_capacity : Z;
  cm_enqueueTimeouts : Z;
  cm_retryAttempts : Z;
  cm_success : Z;
  cm_failed : Z;
  cm_batchRows : list Z;
}.

Record CHWriter := mkCHWriter {
  cw_knobs : chKnobs;
  cw_jobs : list writeJob;
  cw_sending : list writeJob;
  cw_workers : list worker;
  cw_scope : scopePath;
  cw_started : bool;
  cw_ctxDone : bool;
  cw_closing : bool;
  cw_drainCtx : chContext;
  cw_queuesClosed : bool;
  cw_otherUsers : nat;
  cw_connClosed : bool;
  cw_table : list chRow;
  cw_accepted : list writeJob;
  cw_settled : list (writeJob * bool);
  cw_metrics : chMetrics;
}.

Definition NewCHWriter (queueSize workers batchMaxRows insertTimeout maxRetryBackoff
    shutdownDrainTimeout batchMaxWait enqueueTimeout : Z) : CHWriter :=
  mkCHWriter
    (mkKnobs (or_default DefaultWriteQueueSize queueSize) (or_default DefaultWriteWorkers workers)
       (or_default DefaultBatchMaxRows batchMaxRows) (or_default defaultInsertTimeout insertTimeout)
       (or_default defaultMaxRetryBackoff maxRetryBackoff)
       (or_default DefaultShutdownDrainTimeout shutdownDrainTimeout)
       (or_default DefaultBatchMaxWait batchMaxWait) (or_default DefaultEnqueueTimeout enqueueTimeout)
       defaultScopeMaxRetryBackoff defaultMaxIsolationPhase DefaultCheckpointEvery "" false)
    [] [] [] newScopePath false false false CtxBackground false 0 false [] [] [] (mkChMetrics 0 0 0 0 0 0 []).

Definition set_knobs (k : chKnobs) (w : CHWriter) : CHWriter :=
  mkCHWriter k (cw_jobs w) (cw_sending w) (cw_workers w) (cw_scope w) (cw_started w) (cw_ctxDone w)
    (cw_closing w) (cw_drainCtx w) (cw_queuesClosed w) (cw_otherUsers w) (cw_connClosed w) (cw_table w)
    (cw_accepted w) (cw_settled w) (cw_metrics w).

(** [Open], given the driver's answer to dialling. *)
Definition Open (dial : option error) (cfg : Config) : result CHWriter :=
  match dial with
  | Some err => Err err
  | None =>
      let w := NewCHWriter (cf_WriteQueueSize cfg) (cf_WriteWorkers cfg) (cf_BatchMaxRows cfg)
                 (cf_ReadTimeout cfg) 0 (cf_ShutdownDrainTimeout cfg) (cf_BatchMaxWait cfg)
                 (cf_EnqueueTimeout cfg) in
      let k := cw_knobs w in
      Ok (set_knobs
            (mkKnobs (kn_queueSize k) (kn_workers k) (kn_batchMaxRows k) (kn_insertTimeout k)
               (kn_maxRetryBackoff k) (kn_shutdownDrainTimeout k) (kn_batchMaxWait k) (kn_enqueueTimeout k)
               (kn_scopeMaxRetryBackoff k) (kn_maxIsolationPhase k)
               (if Z.leb 0 (cf_CheckpointEvery cfg) then cf_CheckpointEvery cfg else kn_checkpointEvery k)
               (cf_Database cfg) (cf_AutoCreateSchema cfg)) w)
  end.

Definition CheckpointEvery (w : CHWriter) : Z := kn_checkpointEvery (cw_knobs w).

(** ** Updates *)

Definition set_jobs (jobs sending : list writeJob) (w : CHWriter) : CHWriter :=
  mkCHWriter (cw_knobs w) jobs sending (cw_workers w) (cw_scope w) (cw_started w) (cw_ctxDone w)
    (cw_closing w) (cw_drainCtx w) (cw_queuesClosed w) (cw_otherUsers w) (cw_connClosed w) (cw_table w)
    (cw_accepted w) (cw_settled w) (cw_metrics w).

Definition set_workers (workers : list worker) (w : CHWriter) : CHWriter :=
  mkCHWriter (cw_knobs w) (cw_jobs w) (cw_sending w) workers (cw_scope w) (cw_started w) (cw_ctxDone w)
    (cw_closing w) (cw_drainCtx w) (cw_queuesClosed w) (cw_otherUsers w) (cw_connClosed w) (cw_table w)
    (cw_accepted w) (cw_settled w) (cw_metrics w).

Definition set_scope (p : scopePath) (w : CHWriter) : CHWriter :=
  mkCHWriter (cw_knobs w) (cw_jobs w) (cw_sending w) (cw_workers w) p (cw_started w) (cw_ctxDone w)
    (cw_closing w) (cw_drainCtx w) (cw_queuesClosed w) (cw_otherUsers w) (cw_connClosed w) (cw_table w)
    (cw_accepted w) (cw_settled w) (cw_metrics w).

Definition set_users (n : nat) (w : CHWriter) : CHWriter :=
  mkCHWriter (cw_knobs w) (cw_jobs w) (cw_sending w) (cw_workers w) (cw_scope w) (cw_started w) (cw_ctxDone w)
    (cw_closing w) (cw_drainCtx w) (cw_queuesClosed w) n (cw_connClosed w) (cw_table w)
    (cw_accepted w) (cw_settled w) (cw_metrics w).

Definition set_chMetrics (m : chMetrics) (w : CHWriter) : CHWriter :=
  mkCHWriter (cw_knobs w) (cw_jobs w) (cw_sending w) (cw_workers w) (cw_scope w) (cw_started w) (cw_ctxDone w)
    (cw_closing w) (cw_drainCtx w) (cw_queuesClosed w) (cw_otherUsers w) (cw_connClosed w) (cw_table w)
    (cw_accepted w) (cw_settled w) m.

Definition set_depth (n : nat) (m : chMetrics) : chMetrics :=
  mkChMetrics (Z.of_nat n) (cm_capacity m) (cm_enqueueTimeouts m) (cm_retryAttempts m) (cm_success m)
    (cm_failed m) (cm_batchRows m).

(** ** Enqueue *)

Definition errClosing : error := "chwriter: shutting down, refusing new write".

(** [Enqueue] up to its select: refused while closing, else one of the calls that
    [Start] waits for before it closes the queue. *)
Definition Enqueue_enter (job : Job) (w : CHWriter) : CHWriter + error :=
  if cw_closing w then inr errClosing
  else inl (set_jobs (cw_jobs w) (cw_sending w ++ [renderJob job]) w).

(** The select: the [i]-th waiting call finds room in the queue, ... *)
Definition Enqueue_send (i : nat) (w : CHWriter) : option CHWriter :=
  match cw_sending w !! i with
  | Some job =>
      if Z.ltb (Z.of_nat (length (cw_jobs w))) (kn_queueSize (cw_knobs w)) then
        let w1 := set_jobs (cw_jobs w ++ [job]) (delete i (cw_sending w)) w in
        Some (mkCHWriter (cw_knobs w1) (cw_jobs w1) (cw_sending w1) (cw_workers w1) (cw_scope w1)
                (cw_started w1) (cw_ctxDone w1) (cw_closing w1) (cw_drainCtx w1) (cw_queuesClosed w1)
                (cw_otherUsers w1) (cw_connClosed w1) (cw_table w1) (cw_accepted w1 ++ [job])
                (cw_settled w1) (set_depth (length (cw_jobs w1)) (cw_metrics w1)))
      else None
  | None => None
  end.

(** ... or gives up: [timedOut] tells its timer from its context. The job is
    refused, and its callback never runs. *)
Definition Enqueue_giveUp (i : nat) (timedOut : bool) (w : CHWriter) : option CHWriter :=
  match cw_sending w !! i with
  | Some _ =>
      let m := cw_metrics w in
      Some (set_chMetrics
              (mkChMetrics (cm_depth m) (cm_capacity m)
                 (if timedOut then cm_enqueueTimeouts m + 1 else cm_enqueueTimeouts m)%Z
                 (cm_retryAttempts m) (cm_success m) (cm_failed m) (cm_batchRows m))
              (set_jobs (cw_jobs w) (delete i (cw_sending w)) w))
  | None => None
  end.

(** ** Flushing *)

Definition sendBatchOnce (a : attempt) (batch : list writeJob) : list chRow * option error :=
  insert_once a (map wj_args batch).

(** The durable rows, the error, and the retries counted. *)
Definition sendBatch (a : attempt) (later : list attempt) (batch : list writeJob) :
    list chRow * option error * nat :=
  insert_retry a later (map wj_args batch).

(** What the backend does during one flush: the attempts at the whole batch, and
    the one attempt at each row if they all fail. *)
Record flushEnv := mkFlushEnv {
  fl_first : attempt;
  fl_later : list attempt;
  fl_row : nat -> attempt;
}.

(** A Go [time.Duration] product: 64-bit, wrapping. *)
Definition wrap_i64 (z : Z) : Z := ((z + 2 ^ 63) mod 2 ^ 64 - 2 ^ 63)%Z.

(** The time the row-by-row phase gets. *)
Definition isolationBudget (k : chKnobs) (rows : nat) : Z :=
  Z.min (wrap_i64 (Z.of_nat rows * kn_insertTimeout k)) (kn_maxIsolationPhase k).

(** The isolation loop: each row on its own, settled with its own outcome. *)
Fixpoint isolateRows (row : nat -> attempt) (i : nat) (batch : list writeJob) :
    list chRow * list (writeJob * bool) :=
  match batch with
  | [] => ([], [])
  | job :: rest =>
      let '(rows, rowErr) := sendBatchOnce (row i) [job] in
      let '(rows', settled) := isolateRows row (S i) rest in
      (rows ++ rows', (job, bool_decide (rowErr = None)) :: settled)
  end.

(** The durable rows, every job with the argument of its callback, and the
    retries. *)
Definition flush_outcome (f : flushEnv) (batch : list writeJob) :
    list chRow * list (writeJob * bool) * nat :=
  let '(rows, err, retries) := sendBatch (fl_first f) (fl_later f) batch in
  match err with
  | None => (rows, map (fun job => (job, true)) batch, retries)
  | Some _ =>
      let '(rows', settled) := isolateRows (fl_row f) 0 batch in (rows ++ rows', settled, retries)
  end.

Definition count_ok (ok : bool) (settled : list (writeJob * bool)) : Z :=
  Z.of_nat (length (filter (fun s => s.2 = ok) settled)).

Definition flushBatch (f : flushEnv) (batch : list writeJob) (w : CHWriter) : CHWriter :=
  let '(rows, settled, retries) := flush_outcome f batch in
  let m := cw_metrics w in
  mkCHWriter (cw_knobs w) (cw_jobs w) (cw_sending w) (cw_workers w) (cw_scope w) (cw_started w) (cw_ctxDone w)
    (cw_closing w) (cw_drainCtx w) (cw_queuesClosed w) (cw_otherUsers w) (cw_connClosed w)
    (cw_table w ++ rows) (cw_accepted w) (cw_settled w ++ settled)
    (mkChMetrics (Z.of_nat (length (cw_jobs w))) (cm_capacity m) (cm_enqueueTimeouts m)
       (cm_retryAttempts m + Z.of_nat retries) (cm_success m + count_ok true settled)
       (cm_failed m + count_ok false settled) (cm_batchRows m ++ [Z.of_nat (length batch)])).

(** The context of an attempt that begins now. *)
Definition attemptContext (w : CHWriter) : chContext :=
  if cw_ctxDone w then cw_drainCtx w else CtxManager.

(** ** Workers, one function per select case *)

Definition worker_receive (i : nat) (f : flushEnv) (w : CHWriter) : option CHWriter :=
  match cw_workers w !! i, cw_jobs w with
  | Some wk, job :: rest =>
      if wk_done wk then None else
      let batch := wk_batch wk ++ [job] in
      let timer := if Nat.eqb (length batch) 1 then true else wk_timer wk in
      let w1 := set_jobs rest (cw_sending w) w in
      if Z.leb (kn_batchMaxRows (cw_knobs w)) (Z.of_nat (length batch))
      then Some (set_workers (<[i := newWorker]> (cw_workers w)) (flushBatch f batch w1))
      else Some (set_workers (<[i := mkWorker batch timer false]> (cw_workers w)) w1)
  | _, _ => None
  end.

Definition worker_timer (i : nat) (f : flushEnv) (w : CHWriter) : option CHWriter :=
  match cw_workers w !! i with
  | Some wk =>
      if negb (wk_done wk) && wk_timer wk
      then Some (set_workers (<[i := newWorker]> (cw_workers w)) (flushBatch f (wk_batch wk) w))
      else None
  | None => None
  end.

(** The receive on the closed, drained queue. *)
Definition worker_closed (i : nat) (f : flushEnv) (w : CHWriter) : option CHWriter :=
  match cw_workers w !! i, cw_jobs w with
  | Some wk, [] =>
      if negb (wk_done wk) && cw_queuesClosed w then
        let w1 := match wk_batch wk with [] => w | batch => flushBatch f batch w end in
        Some (set_workers (<[i := mkWorker [] false true]> (cw_workers w)) w1)
      else None
  | _, _ => None
  end.

(** ** Users of the connection other than the workers *)

(** The closing check of [LastKnownStates], [ScopeWasActive], [ActiveScopes],
    [Probe] and [startAutoCreate]; [None] is the refusal. *)
Definition user_enter (w : CHWriter) : option CHWriter :=
  if cw_closing w then None else Some (set_users (S (cw_otherUsers w)) w).

Definition user_leave (w : CHWriter) : option CHWriter :=
  match cw_otherUsers w with S n => Some (set_users n w) | O => None end.

Definition startAutoCreate (w : CHWriter) : CHWriter :=
  if kn_autoCreate (cw_knobs w) then default w (user_enter w) else w.

(** ** Start *)

Definition set_lifecycle (started ctxDone closing : bool) (drainCtx : chContext) (queuesClosed connClosed : bool)
    (w : CHWriter) : CHWriter :=
  mkCHWriter (cw_knobs w) (cw_jobs w) (cw_sending w) (cw_workers w) (cw_scope w) started ctxDone
    closing drainCtx queuesClosed (cw_otherUsers w) connClosed (cw_table w)
    (cw_accepted w) (cw_settled w) (cw_metrics w).

Definition Start_workers (w : CHWriter) : option CHWriter :=
  if cw_started w then None else
  let m := cw_metrics w in
  let w1 := set_chMetrics (mkChMetrics (cm_depth m) (kn_queueSize (cw_knobs w)) (cm_enqueueTimeouts m)
              (cm_retryAttempts m) (cm_success m) (cm_failed m) (cm_batchRows m)) w in
  let w2 := startAutoCreate w1 in
  let w3 := set_workers (replicate (Z.to_nat (kn_workers (cw_knobs w))) newWorker) w2 in
  Some (set_lifecycle true (cw_ctxDone w3) (cw_closing w3) (cw_drainCtx w3) (cw_queuesClosed w3)
          (cw_connClosed w3) w3).

(** The manager cancels the context [Start] runs under. *)
Definition ctx_cancel (w : CHWriter) : option CHWriter :=
  Some (set_lifecycle (cw_started w) true (cw_closing w) (cw_drainCtx w) (cw_queuesClosed w) (cw_connClosed w) w).

Definition Start_closing (w : CHWriter) : option CHWriter :=
  if cw_started w && cw_ctxDone w && negb (cw_closing w)
  then Some (set_lifecycle true true true CtxDrain (cw_queuesClosed w) (cw_connClosed w) w)
  else None.

(** [inflight.Wait] and the two closes. *)
Definition Start_closeQueues (w : CHWriter) : option CHWriter :=
  match cw_closing w && negb (cw_queuesClosed w), cw_sending w, sp_sending (cw_scope w) with
  | true, [], [] => Some (set_lifecycle (cw_started w) (cw_ctxDone w) true (cw_drainCtx w) true (cw_connClosed w) w)
  | _, _, _ => None
  end.

(** [wg.Wait], [otherUsers.Wait] and closing the connection. *)
Definition Start_closeConn (w : CHWriter) : option CHWriter :=
  if cw_queuesClosed w && negb (cw_connClosed w) && forallb wk_done (cw_workers w) &&
     sp_done (cw_scope w) && Nat.eqb (cw_otherUsers w) 0
  then Some (set_lifecycle (cw_started w) (cw_ctxDone w) (cw_closing w) (cw_drainCtx w) true true w)
  else None.

(** ** Runs *)

Inductive chOp :=
| OEnqueue (job : Job)
| OSend (i : nat)
| OGiveUp (i : nat) (timedOut : bool)
| OReceive (i : nat) (f : flushEnv)
| OTimer (i : nat) (f : flushEnv)
| OClosed (i : nat) (f : flushEnv)
| OScopeEnqueue (event : ScopeEvent)
| OScopeSend (i : nat)
| OScopeGiveUp (i : nat)
| OScopeReceive (f : scopeFlush)
| OScopeTimer (f : scopeFlush)
| OScopeTick (f : scopeFlush)
| OScopeClosed (f : scopeFlush)
| OUserEnter
| OUserLeave
| OStart
| OCancel
| OClosing
| OCloseQueues
| OCloseConn.

(** The scope path's step, with the flags it reads; its worker runs once started. *)
Definition scope_step (op : chOp) (w : CHWriter) : option scopeOp :=
  match op with
  | OScopeEnqueue event => Some (SEnter (cw_closing w) event)
  | OScopeSend i => Some (SSend i)
  | OScopeGiveUp i => Some (SGiveUp i)
  | OScopeReceive f => if cw_started w then Some (SReceive f) else None
  | OScopeTimer f => if cw_started w then Some (STimer f) else None
  | OScopeTick f => if cw_started w then Some (STick f) else None
  | OScopeClosed f => if cw_started w then Some (SClosed f (cw_queuesClosed w)) else None
  | _ => None
  end.

Definition ch_step (op : chOp) (w : CHWriter) : option CHWriter :=
  match op with
  | OEnqueue job => match Enqueue_enter job w with inl w' => Some w' | inr _ => Some w end
  | OSend i => Enqueue_send i w
  | OGiveUp i timedOut => Enqueue_giveUp i timedOut w
  | OReceive i f => worker_receive i f w
  | OTimer i f => worker_timer i f w
  | OClosed i f => worker_closed i f w
  | OUserEnter => match user_enter w with Some w' => Some w' | None => Some w end
  | OUserLeave => user_leave w
  | OStart => Start_workers w
  | OCancel => ctx_cancel w
  | OClosing => Start_closing w
  | OCloseQueues => Start_closeQueues w
  | OCloseConn => Start_closeConn w
  | _ =>
      match scope_step op w with
      | Some sop => match scope_op sop (cw_scope w) with Some p => Some (set_scope p w) | None => None end
      | None => None
      end
  end.

Fixpoint ch_run (ops : list chOp) (w : CHWriter) : option CHWriter :=
  match ops with
  | [] => Some w
  | op :: rest => match ch_step op w with Some w' => ch_run rest w' | None => None end
  end.
