(* ===== verification/CHReader.v ===== *)
(** * CHReader: reading the ClickHouse sink's history back

    Models [internal/sink/clickhouse/statereader.go]: the three query texts with
    their arguments, the closing check, the scan loops with their error paths, and
    the [StateReader] they make up for the warm-up coordinator.

    The server is a parameter: [conn] answers a query text and its arguments with a
    [queryResult]. What a text means, and with it what the reads return, is in [CHSql]
    and [CHHistory]. *)

From Stdlib Require Import ZArith Lia.
From stdpp Require Import base gmap strings list.
From S2P Require Import Prelude Identity HashCache Json Redact Pipeline JsonPatch Process ScopeRecorder Warm.
From S2P Require Import Driver ScopeWriter CHWriter.

(** ** Rendering an instant: [asOf.UTC().Format(chTimeFormat)] *)

Definition digit (d : Z) : string := String (Ascii.ascii_of_nat (Z.to_nat (48 + d mod 10))) "".

Fixpoint pad_digits (n : nat) (z : Z) : string :=
  match n with O => "" | S n' => pad_digits n' (z / 10) +:+ digit z end.

(** Days since 1970-01-01 to (year, month, day), proleptic Gregorian. *)
Definition civil (days : Z) : Z * Z * Z :=
  let z := (days + 719468)%Z in
  let era := (z / 146097)%Z in
  let doe := (z - era * 146097)%Z in
  let yoe := ((doe - doe / 1460 + doe / 36524 - doe / 146096) / 365)%Z in
  let doy := (doe - (365 * yoe + yoe / 4 - yoe / 100))%Z in
  let mp := ((5 * doy + 2) / 153)%Z in
  let d := (doy - (153 * mp + 2) / 5 + 1)%Z in
  let m := (if Z.ltb mp 10 then mp + 3 else mp - 9)%Z in
  ((yoe + era * 400 + (if Z.leb m 2 then 1 else 0))%Z, m, d).

(** Drop trailing zeros, and the point when nothing follows it. *)
Fixpoint trim_fraction (s : string) : string :=
  match s with
  | EmptyString => EmptyString
  | String c s' =>
      match trim_fraction s' with
      | EmptyString => if Ascii.eqb c "0"%char || Ascii.eqb c "."%char then EmptyString else String c EmptyString
      | t => String c t
      end
  end.

Definition chFormat (t : Z) : string :=
  let secs := (t / 1000000000)%Z in
  let nanos := (t mod 1000000000)%Z in
  let days := (secs / 86400)%Z in
  let tod := (secs mod 86400)%Z in
  let '(y, m, d) := civil days in
  pad_digits 4 y +:+ "-" +:+ pad_digits 2 m +:+ "-" +:+ pad_digits 2 d +:+ " " +:+
  pad_digits 2 (tod / 3600) +:+ ":" +:+ pad_digits 2 (tod / 60 mod 60) +:+ ":" +:+ pad_digits 2 (tod mod 60) +:+
  trim_fraction ("." +:+ pad_digits 9 nanos).

Example chFormat_sample : chFormat 1700000000123456000 = "2023-11-14 22:13:20.123456".
Proof. vm_compute. reflexivity. Qed.

(** Go's zero [time.Time], January 1 of year 1. *)
Definition zeroTime : Z := -62135596800 * 1000000000.

(** ** Queries *)

Definition lastKnownStatesQuery (filter : ScopeFilter) : string * list chValue :=
  let query := "
        SELECT namespace, name, uid, argMax(sha256, ts), argMax(api_version, ts), max(ts)
        FROM resource_states
        WHERE api_group = ? AND kind = ? AND cluster_id = ?" in
  let args := [VString (sf_APIGroup filter); VString (sf_Kind filter); VString (sf_ClusterID filter)] in
  let '(query, args) :=
    if negb (String.eqb (sf_Namespace filter) "") then
      (query +:+ "
        AND namespace = ?", args ++ [VString (sf_Namespace filter)])
    else (query, args) in
  (query +:+ "
        GROUP BY namespace, name, uid
        HAVING argMax(event_type, ts) != 'Deleted'", args).

Definition scopeWasActiveQuery (filter : ScopeFilter) (asOf : Z) : string * list chValue :=
  ("
        SELECT argMax(action, ts)
        FROM watch_scopes
        WHERE cluster_id = ? AND api_group = ? AND kind = ? AND namespace = ? AND ts < ?",
   [VString (sf_ClusterID filter); VString (sf_APIGroup filter); VString (sf_Kind filter);
    VString (sf_Namespace filter); VString (chFormat asOf)]).

Definition activeScopesQuery (clusterID : string) : string * list chValue :=
  ("
        SELECT api_group, kind, namespace
        FROM watch_scopes
        WHERE cluster_id = ?
        GROUP BY api_group, kind, namespace
        HAVING argMax(action, ts) = ?",
   [VString clusterID; VString (action_String ScopeActionStarted)]).

(** ** The driver's rows *)

(** [Query]'s error, then per row what [Scan] stores or its error, then
    [rows.Err]. *)
Record queryResult := mkQueryResult {
  qr_err : option error;
  qr_rows : list (result chRow);
  qr_rowsErr : option error;
}.

Definition errScan : error := "converting column: unsupported destination".

(** [for rows.Next() { Scan; append }]. *)
Fixpoint scan_all {A} (scan : chRow -> option A) (rows : list (result chRow)) : result (list A) :=
  match rows with
  | [] => Ok []
  | Err e :: _ => Err e
  | Ok row :: rest =>
      match scan row with
      | None => Err errScan
      | Some a => match scan_all scan rest with Ok l => Ok (a :: l) | Err e => Err e end
      end
  end.

Definition scan_known (row : chRow) : option KnownState :=
  match row with
  | [VString ns; VString name; VString uid; VString sha; VString version; VTime ts] =>
      Some (mkKnownState ns name uid sha version ts)
  | _ => None
  end.

Definition scan_scope (clusterID : string) (row : chRow) : option ScopeFilter :=
  match row with
  | [VString group; VString kind; VString ns] => Some (mkScopeFilter clusterID group kind ns)
  | _ => None
  end.

Definition scan_action (row : chRow) : option string :=
  match row with [VString action] => Some action | _ => None end.

(** ** The reads *)

Section reads.
Variable conn : string -> list chValue -> queryResult.

Definition ch_LastKnownStates (w : CHWriter) (filter : ScopeFilter) : result (list KnownState) :=
  if cw_closing w then Err "chwriter: shutting down, refusing state read" else
  let '(query, args) := lastKnownStatesQuery filter in
  let rows := conn query args in
  match qr_err rows with
  | Some e => Err e
  | None =>
      match scan_all scan_known (qr_rows rows) with
      | Err e => Err e
      | Ok states => match qr_rowsErr rows with Some e => Err e | None => Ok states end
      end
  end.

(** [now] is [time.Now().UTC()]. *)
Definition ch_ScopeWasActive (w : CHWriter) (now : Z) (filter : ScopeFilter) (asOf : Z) : result bool :=
  let asOf := if Z.eqb asOf zeroTime then now else asOf in
  if cw_closing w then Err "chwriter: shutting down, refusing scope epoch read" else
  let '(query, args) := scopeWasActiveQuery filter asOf in
  let rows := conn query args in
  match qr_err rows with
  | Some e => Err e
  | None =>
      match (match qr_rows rows with
             | [] => Ok ""
             | Err e :: _ => Err e
             | Ok row :: _ => match scan_action row with Some a => Ok a | None => Err errScan end
             end) with
      | Err e => Err e
      | Ok action =>
          match qr_rowsErr rows with
          | Some e => Err e
          | None => Ok (String.eqb action (action_String ScopeActionStarted))
          end
      end
  end.

Definition ch_ActiveScopes (w : CHWriter) (clusterID : string) : result (list ScopeFilter) :=
  if cw_closing w then Err "chwriter: shutting down, refusing scope enumeration" else
  let '(query, args) := activeScopesQuery clusterID in
  let rows := conn query args in
  match qr_err rows with
  | Some e => Err e
  | None =>
      match scan_all (scan_scope clusterID) (qr_rows rows) with
      | Err e => Err e
      | Ok scopes => match qr_rowsErr rows with Some e => Err e | None => Ok scopes end
      end
  end.

(** The [StateReader] half of the writer, as the warm-up coordinator takes it. *)
Definition ch_StateReader (w : CHWriter) (now : Z) : StateReader :=
  mkStateReader (ch_LastKnownStates w) (ch_ScopeWasActive w now) (ch_ActiveScopes w).

End reads.
