(* ===== verification/CHSql.v ===== *)
(** * CHSql: the fragment of ClickHouse SQL the reads use

    The server is outside the program, but what the program sends it is a text, and
    what the text asks for decides what the program reads. This file gives the text a
    meaning: [parse_sql] reads the fragment

      SELECT e, .. FROM t WHERE c op ? AND .. [GROUP BY c, ..] [HAVING e op v]

    with columns, [argMax] and [max] as expressions, and [sql_answer] relates a query
    and its arguments, over the rows of a table, to the rows it may return. It is a
    relation because the documentation leaves things open: [argMax(a, b)] is the value
    of [a] at a row with the greatest [b], whichever of the rows that tie; the result
    rows come in any order; and an aggregate over no rows is the default of its type.
    An order with a time column against a text is taken after reading the text as an
    instant. *)

From Stdlib Require Import ZArith Lia.
From stdpp Require Import base gmap strings list.
From S2P Require Import Prelude Driver.

(** ** Tokens *)

Inductive symbol := SOpen | SClose | SComma | SQuestion | SEqual | SLess | SBang | SOther.

Inductive token := TWord (w : string) | TLit (l : string) | TSym (s : symbol).

Definition word_char (a : Ascii.ascii) : bool :=
  let n := Ascii.nat_of_ascii a in
  (Nat.leb 48 n && Nat.leb n 57) || (Nat.leb 65 n && Nat.leb n 90) || (Nat.leb 97 n && Nat.leb n 122) || Nat.eqb n 95.

Definition space_char (a : Ascii.ascii) : bool :=
  let n := Ascii.nat_of_ascii a in Nat.eqb n 32 || Nat.eqb n 9 || Nat.eqb n 10 || Nat.eqb n 13.

Definition symbol_of (a : Ascii.ascii) : symbol :=
  match Ascii.nat_of_ascii a with
  | 40 => SOpen | 41 => SClose | 44 => SComma | 63 => SQuestion | 61 => SEqual | 60 => SLess | 33 => SBang
  | _ => SOther
  end.

(** What the lexer is in the middle of, as text read so far. *)
Inductive lexing := Between | InWord (w : string) | InLiteral (l : string).

Fixpoint lex (st : lexing) (s : string) : list token :=
  match s with
  | EmptyString => match st with Between => [] | InWord w => [TWord w] | InLiteral _ => [TSym SOther] end
  | String a r =>
      match st with
      | InLiteral l => if Ascii.eqb a "'"%char then TLit l :: lex Between r else lex (InLiteral (l +:+ String a "")) r
      | _ =>
          if word_char a then lex (InWord ((match st with InWord w => w | _ => "" end) +:+ String a "")) r
          else
            let rest :=
              if space_char a then lex Between r
              else if Ascii.eqb a "'"%char then lex (InLiteral "") r
              else TSym (symbol_of a) :: lex Between r in
            match st with InWord w => TWord w :: rest | _ => rest end
      end
  end.

(** ** Queries *)

Inductive sqlExpr := ECol (c : string) | EArgMax (value by_ : string) | EMax (c : string).
Inductive sqlOp := OpEq | OpNe | OpLt.
Inductive sqlOperand := OArg | OLit (l : string).

Record sqlQuery := mkSqlQuery {
  q_select : list sqlExpr;
  q_from : string;
  q_where : list (string * sqlOp);
  q_group : list string;
  q_having : option (sqlExpr * sqlOp * sqlOperand);
}.

Definition expect_word (w : string) (ts : list token) : option (list token) :=
  match ts with TWord w' :: r => if String.eqb w w' then Some r else None | _ => None end.

Definition read_expr (ts : list token) : option (sqlExpr * list token) :=
  match ts with
  | TWord f :: TSym SOpen :: TWord a :: TSym SComma :: TWord b :: TSym SClose :: r =>
      if String.eqb f "argMax" then Some (EArgMax a b, r) else None
  | TWord f :: TSym SOpen :: TWord a :: TSym SClose :: r => if String.eqb f "max" then Some (EMax a, r) else None
  | TWord _ :: TSym SOpen :: _ => None
  | TWord c :: r => Some (ECol c, r)
  | _ => None
  end.

Definition read_sql_op (ts : list token) : option (sqlOp * list token) :=
  match ts with
  | TSym SEqual :: r => Some (OpEq, r)
  | TSym SBang :: TSym SEqual :: r => Some (OpNe, r)
  | TSym SLess :: TSym SEqual :: _ => None
  | TSym SLess :: r => Some (OpLt, r)
  | _ => None
  end.

(** One or more, with a separator. *)
Fixpoint read_list {A} (item : list token -> option (A * list token)) (sep : list token -> option (list token))
    (fuel : nat) (ts : list token) : option (list A * list token) :=
  match fuel with
  | O => None
  | S n =>
      match item ts with
      | None => None
      | Some (a, r) =>
          match sep r with
          | Some r' => match read_list item sep n r' with Some (l, r'') => Some (a :: l, r'') | None => None end
          | None => Some ([a], r)
          end
      end
  end.

Definition comma (ts : list token) : option (list token) := match ts with TSym SComma :: r => Some r | _ => None end.

Definition read_word (ts : list token) : option (string * list token) :=
  match ts with TWord w :: r => Some (w, r) | _ => None end.

(** [c op ?] *)
Definition read_condition (ts : list token) : option (string * sqlOp * list token) :=
  match ts with
  | TWord c :: r => match read_sql_op r with Some (op, TSym SQuestion :: r') => Some (c, op, r') | _ => None end
  | _ => None
  end.

Definition read_having (ts : list token) : option (sqlExpr * sqlOp * sqlOperand * list token) :=
  match read_expr ts with
  | Some (e, r) =>
      match read_sql_op r with
      | Some (op, TSym SQuestion :: r') => Some (e, op, OArg, r')
      | Some (op, TLit l :: r') => Some (e, op, OLit l, r')
      | _ => None
      end
  | None => None
  end.

Definition parse_sql (text : string) : option sqlQuery :=
  let ts := lex Between text in
  let n := length ts in
  ts ← expect_word "SELECT" ts;
  '(select, ts) ← read_list read_expr comma n ts;
  ts ← expect_word "FROM" ts;
  '(from, ts) ← read_word ts;
  ts ← expect_word "WHERE" ts;
  '(conds, ts) ← read_list read_condition (expect_word "AND") n ts;
  '(group, ts) ← match expect_word "GROUP" ts with
                 | Some ts => ts ← expect_word "BY" ts; read_list read_word comma n ts
                 | None => Some ([], ts)
                 end;
  '(having, ts) ← match expect_word "HAVING" ts with
                  | Some ts => '(h, ts) ← read_having ts; Some (Some h, ts)
                  | None => Some (None, ts)
                  end;
  match ts with
  | [] => Some (mkSqlQuery select from conds group having)
  | _ => None
  end.

(** ** Answers *)

Section answers.
(** How the server reads a text as an instant, and the columns and rows of the table. *)
Context (parse : string -> option Z) (columns : list string).

Definition col_value (name : string) (row : chRow) : option chValue :=
  match list_find (eq name) columns with Some (i, _) => row !! i | None => None end.

Definition holds (op : sqlOp) (v arg : chValue) : Prop :=
  match op with
  | OpEq => v = arg
  | OpNe => v <> arg
  | OpLt =>
      match v, arg with
      | VTime t, VString text => exists cutoff, parse text = Some cutoff /\ (t < cutoff)%Z
      | _, _ => False
      end
  end.

Definition selected (conds : list (string * sqlOp)) (args : list chValue) (row : chRow) : Prop :=
  Forall2 (fun c arg => exists v, col_value c.1 row = Some v /\ holds c.2 v arg) conds args.

Definition time_of (name : string) (row : chRow) : option Z :=
  match col_value name row with Some (VTime t) => Some t | _ => None end.

(** A row of the group with the greatest [by_]. *)
Definition greatest (rows : list chRow) (G : chRow -> Prop) (by_ : string) (row : chRow) : Prop :=
  row ∈ rows /\ G row /\ exists t, time_of by_ row = Some t /\
    forall row', row' ∈ rows -> G row' -> exists t', time_of by_ row' = Some t' /\ (t' <= t)%Z.

Definition expr_value (rows : list chRow) (G : chRow -> Prop) (e : sqlExpr) (v : chValue) : Prop :=
  match e with
  | ECol c => exists row, row ∈ rows /\ G row /\ col_value c row = Some v
  | EArgMax a by_ => exists row, greatest rows G by_ row /\ col_value a row = Some v
  | EMax by_ => exists row, greatest rows G by_ row /\ col_value by_ row = Some v
  end.

(** The default of a string column, and of a time column. *)
Definition empty_value (e : sqlExpr) : chValue := match e with EMax _ => VTime 0 | _ => VString "" end.

Definition operand (o : sqlOperand) (args : list chValue) : option chValue :=
  match o with OArg => head args | OLit l => Some (VString l) end.

(** The HAVING clause, for some and for every value its expression may take. *)
Definition having_some (h : option (sqlExpr * sqlOp * sqlOperand)) (args : list chValue) (rows : list chRow) (G : chRow -> Prop) : Prop :=
  match h with
  | None => True
  | Some (e, op, o) => exists v arg, operand o args = Some arg /\ expr_value rows G e v /\ holds op v arg
  end.

Definition having_all (h : option (sqlExpr * sqlOp * sqlOperand)) (args : list chValue) (rows : list chRow) (G : chRow -> Prop) : Prop :=
  match h with
  | None => True
  | Some (e, op, o) => forall v, expr_value rows G e v -> exists arg, operand o args = Some arg /\ holds op v arg
  end.

Definition group_key (cols : list string) (row : chRow) : list (option chValue) := map (fun c => col_value c row) cols.

Definition sql_answer (q : sqlQuery) (args : list chValue) (rows result : list chRow) : Prop :=
  let conds := take (length (q_where q)) args in
  let rest := drop (length (q_where q)) args in
  let M := selected (q_where q) conds in
  match q_group q with
  | [] =>
      exists out, result = [out] /\
        (((exists row, row ∈ rows /\ M row) /\ Forall2 (expr_value rows M) (q_select q) out) \/
         ((forall row, row ∈ rows -> ~ M row) /\ out = map empty_value (q_select q)))
  | cols =>
      let G key row := M row /\ group_key cols row = key in
      exists keys, NoDup keys /\
        Forall2 (fun key out =>
          (exists row, row ∈ rows /\ G key row) /\ Forall2 (expr_value rows (G key)) (q_select q) out /\
          having_some (q_having q) rest rows (G key)) keys result /\
        (forall row, row ∈ rows -> M row -> having_all (q_having q) rest rows (G (group_key cols row)) ->
           group_key cols row ∈ keys)
  end.

(** ** An answer depends on which rows there are, and on nothing else *)

Definition same_rows {R} (l l' : list R) : Prop := forall r, r ∈ l <-> r ∈ l'.

Lemma greatest_same rows rows' G by_ row : same_rows rows rows' -> greatest rows G by_ row -> greatest rows' G by_ row.
Proof.
  intros Hs (H1 & H2 & t & H3 & H4). split; [by apply Hs|]. split; [done|]. exists t. split; [done|].
  intros row' Hr. apply H4. by apply Hs.
Qed.

Lemma expr_value_same rows rows' G e v : same_rows rows rows' -> expr_value rows G e v -> expr_value rows' G e v.
Proof.
  intros Hs. destruct e; cbn; intros (row & H).
  - exists row. destruct H as (H1 & H2). split; [by apply Hs|done].
  - exists row. destruct H as [H1 H2]. split; [by eapply greatest_same|done].
  - exists row. destruct H as [H1 H2]. split; [by eapply greatest_same|done].
Qed.

Lemma sql_answer_same q args rows rows' result : same_rows rows rows' -> sql_answer q args rows result -> sql_answer q args rows' result.
Proof.
  intros Hs. assert (Hs' : same_rows rows' rows) by (intros r; symmetry; apply Hs). unfold sql_answer.
  destruct (q_group q) as [|c cols].
  - intros (out & -> & [[(row & Hr & HM) HF]|[Hno Hout]]); exists out; (split; [done|]).
    + left. split; [exists row; split; [by apply Hs|done]|]. eapply Forall2_impl; [exact HF|]. intros e v. by apply expr_value_same.
    + right. split; [|done]. intros row Hr. apply Hno. by apply Hs.
  - intros (keys & Hn & HF & Hall). exists keys. split; [done|]. split.
    + eapply Forall2_impl; [exact HF|]. intros key out ((row & Hr & HG) & HF' & Hh). split; [exists row; split; [by apply Hs|done]|]. split.
      * eapply Forall2_impl; [exact HF'|]. intros e v. by apply expr_value_same.
      * unfold having_some in *. destruct (q_having q) as [[[e op] o]|]; [|done]. destruct Hh as (v & arg & Ho & Hv & Hop).
        exists v, arg. split; [done|]. split; [|done]. by eapply expr_value_same.
    + intros row Hr HM Hh. apply Hall; [by apply Hs|done|]. unfold having_all in *. destruct (q_having q) as [[[e op] o]|]; [|done].
      intros v Hv. apply Hh. by eapply expr_value_same.
Qed.
End answers.
