(* ===== verification/SinkManager.v ===== *)
(** * SinkManager: one running instance per sink

    Models [internal/sink/manager.go]: the routing table with its copy-on-write
    swap, [Ensure], [Delete] and its background tail, draining, the start with the
    configurations that were waiting for it, the shutdown, the three routers the
    pipeline and the warm-up coordinator call, and the probe loop's decisions.

    A backend instance is its number in [sm_insts]: whether the manager has
    cancelled it and whether its [Start] has returned. A background goroutine of the
    manager is a [tail], cut where it waits or takes the lock, so that anything may
    happen in between; its calls on the pipeline, the coordinator and the parking
    callback are recorded in [sm_calls] in order. The factory is the one of the
    moment: each call takes its own. *)

From Stdlib Require Import ZArith Lia.
From stdpp Require Import base gmap strings list sorting.
From S2P Require Import Prelude Identity HashCache Json Redact Pipeline JsonPatch Process ScopeRecorder Warm.

(** [InstanceConfig]. *)
Class InstanceConfig (C : Type) := { Fingerprint : C -> string }.

(** What the manager finds in a built [Writer]: the optional halves are [None] when
    the backend does not implement them. *)
Record backend := mkBackend {
  be_writer : Writer;
  be_reader : option StateReader;
  be_events : option (ScopeEvent -> option error);
  be_prober : bool;
}.

Record liveSink := mkLiveSink {
  ls_name : string;
  ls_fingerprint : string;
  ls_id : nat;
  ls_writer : Writer;
  ls_reader : option StateReader;
  ls_events : option (ScopeEvent -> option error);
  ls_prober : bool;
}.

Definition newLiveSink (name fingerprint : string) (id : nat) (b : backend) : liveSink :=
  mkLiveSink name fingerprint id (be_writer b) (be_reader b) (be_events b) (be_prober b).

(** An instance the manager started. *)
Record instance := mkInstance { in_name : string; cancelled : bool; finished : bool }.

(** Where a background goroutine is. *)
Inductive tail :=
| TDrain (id : nat)
| TDrainWait (id : nat)
| TDelete (name : string) (inst : option nat)
| TDeleteWait (name : string) (id : nat)
| TDeleteCheck (name : string) (inst : option nat)
| TDeleteEvict (name : string) (inst : option nat).

Inductive managerCall :=
| CallRemoveSink (name : string)
| CallForgetSink (name : string)
| CallPark (name : string) (ruleKeys : list string).

Definition errManagerStopped : error := "sink manager is shutting down".

(** ** Options *)

Definition defaultProbeInterval : Z := 60 * second.
Definition defaultProbeMinBackoff : Z := 1 * second.
Definition defaultProbeMaxBackoff : Z := 60 * second.
Definition defaultProbeTimeout : Z := 10 * second.
Definition defaultDrainTimeout : Z := 30 * second.
Definition defaultResultBuffer : Z := 64.

(** The settings of [ManagerOptions], and whether its two mandatory dependencies
    are there. *)
Record ManagerOptions := mkOptions {
  mo_Factory : bool;
  mo_Pipeline : bool;
  mo_ProbeInterval : Z;
  mo_ProbeMinBackoff : Z;
  mo_ProbeMaxBackoff : Z;
  mo_ProbeTimeout : Z;
  mo_DrainTimeout : Z;
  mo_ResultBuffer : Z;
}.

Section manager.
Context {C : Type} `{IC : InstanceConfig C}.

Record SinkManager := mkManager {
  sm_live : gmap string liveSink;
  sm_started : bool;
  sm_ctxDone : bool;
  sm_pending : gmap string C;
  sm_stopped : bool;
  sm_insts : list instance;
  sm_tails : list tail;
  sm_calls : list managerCall;
}.

Definition newManager : SinkManager := mkManager ∅ false false ∅ false [] [] [].

(** The manager and its effective settings. *)
Definition NewSinkManager (opts : ManagerOptions) : result (SinkManager * ManagerOptions) :=
  if negb (mo_Factory opts) then Err "sink: ManagerOptions.Factory is required"
  else if negb (mo_Pipeline opts) then Err "sink: ManagerOptions.Pipeline is required"
  else Ok (newManager,
    mkOptions true true (or_default defaultProbeInterval (mo_ProbeInterval opts))
      (or_default defaultProbeMinBackoff (mo_ProbeMinBackoff opts))
      (or_default defaultProbeMaxBackoff (mo_ProbeMaxBackoff opts))
      (or_default defaultProbeTimeout (mo_ProbeTimeout opts))
      (or_default defaultDrainTimeout (mo_DrainTimeout opts))
      (or_default defaultResultBuffer (mo_ResultBuffer opts))).

Abbreviation Factory := (string -> C -> result backend).

(** ** Lifecycle *)

(** [startLocked]: the instance's goroutines run from here on, under a context
    derived from the manager's. *)
Definition startLocked (name : string) (m : SinkManager) : SinkManager :=
  mkManager (sm_live m) (sm_started m) (sm_ctxDone m) (sm_pending m) (sm_stopped m)
    (sm_insts m ++ [mkInstance name (sm_ctxDone m) false]) (sm_tails m) (sm_calls m).

Definition swapLocked (name : string) (inst : option liveSink) (m : SinkManager) : SinkManager :=
  mkManager (partial_alter (fun _ => inst) name (sm_live m)) (sm_started m) (sm_ctxDone m) (sm_pending m) (sm_stopped m)
    (sm_insts m) (sm_tails m) (sm_calls m).

Definition spawn (t : tail) (m : SinkManager) : SinkManager :=
  mkManager (sm_live m) (sm_started m) (sm_ctxDone m) (sm_pending m) (sm_stopped m) (sm_insts m) (sm_tails m ++ [t]) (sm_calls m).

Definition set_pending (p : gmap string C) (m : SinkManager) : SinkManager :=
  mkManager (sm_live m) (sm_started m) (sm_ctxDone m) p (sm_stopped m) (sm_insts m) (sm_tails m) (sm_calls m).

Definition ensureLocked (factory : Factory) (name : string) (cfg : C) (m : SinkManager) :
    SinkManager * option error :=
  let fingerprint := Fingerprint cfg in
  let current := sm_live m !! name in
  let build :=
    match factory name cfg with
    | Err err => (m, Some ("build sink " +:+ Quote name +:+ ": " +:+ err))
    | Ok writer =>
        let inst := newLiveSink name fingerprint (length (sm_insts m)) writer in
        let m1 := swapLocked name (Some inst) (startLocked name m) in
        match current with
        | None => (m1, None)
        | Some old => (spawn (TDrain (ls_id old)) m1, None)
        end
    end in
  match current with
  | Some old => if String.eqb (ls_fingerprint old) fingerprint then (m, None) else build
  | None => build
  end.

(** [cfg = None] is the nil interface. *)
Definition Ensure (factory : Factory) (name : string) (cfg : option C) (m : SinkManager) :
    SinkManager * option error :=
  if String.eqb name "" then (m, Some "sink: Ensure requires a sink name") else
  match cfg with
  | None => (m, Some ("sink: Ensure(" +:+ Quote name +:+ ") requires a configuration"))
  | Some cfg =>
      if sm_stopped m then (m, Some errManagerStopped)
      else if negb (sm_started m) then (set_pending (<[name := cfg]> (sm_pending m)) m, None)
      else ensureLocked factory name cfg m
  end.

Definition Delete (name : string) (m : SinkManager) : SinkManager :=
  if sm_stopped m then m else
  let m1 := set_pending (delete name (sm_pending m)) m in
  let current := sm_live m1 !! name in
  let m2 := match current with Some _ => swapLocked name None m1 | None => m1 end in
  spawn (TDelete name (ls_id <$> current)) m2.

(** The pending configurations in name order; a failure is logged and the others
    still start. *)
Fixpoint ensure_pending (factory : Factory) (pending : gmap string C) (names : list string) (m : SinkManager) :
    SinkManager :=
  match names with
  | [] => m
  | name :: rest =>
      let m1 := match pending !! name with Some cfg => (ensureLocked factory name cfg m).1 | None => m end in
      ensure_pending factory pending rest m1
  end.

(** [Start] up to its wait. *)
Definition manager_Start (factory : Factory) (m : SinkManager) : SinkManager :=
  let pending := sm_pending m in
  let m1 := mkManager (sm_live m) true (sm_ctxDone m) ∅ (sm_stopped m) (sm_insts m) (sm_tails m) (sm_calls m) in
  ensure_pending factory pending (sorted_keys pending) m1.

(** The context [Start] runs under ends, and with it every instance's. *)
Definition ctx_done (m : SinkManager) : SinkManager :=
  mkManager (sm_live m) (sm_started m) true (sm_pending m) (sm_stopped m)
    (map (fun i => mkInstance (in_name i) true (finished i)) (sm_insts m)) (sm_tails m) (sm_calls m).

(** [Start] after its context ended: routing is emptied first, then every instance
    is drained. *)
Definition manager_Stop (m : SinkManager) : SinkManager :=
  let instances := map snd (map_to_list (sm_live m)) in
  mkManager ∅ (sm_started m) (sm_ctxDone m) (sm_pending m) true (sm_insts m)
    (sm_tails m ++ map (fun i => TDrain (ls_id i)) instances) (sm_calls m).

(** ** Background goroutines *)

Definition cancel (id : nat) (m : SinkManager) : SinkManager :=
  mkManager (sm_live m) (sm_started m) (sm_ctxDone m) (sm_pending m) (sm_stopped m)
    (alter (fun i => mkInstance (in_name i) true (finished i)) id (sm_insts m)) (sm_tails m) (sm_calls m).

Definition set_tail (i : nat) (t : option tail) (m : SinkManager) : SinkManager :=
  mkManager (sm_live m) (sm_started m) (sm_ctxDone m) (sm_pending m) (sm_stopped m) (sm_insts m)
    (match t with Some t => <[i := t]> (sm_tails m) | None => delete i (sm_tails m) end) (sm_calls m).

Definition call (c : managerCall) (m : SinkManager) : SinkManager :=
  mkManager (sm_live m) (sm_started m) (sm_ctxDone m) (sm_pending m) (sm_stopped m) (sm_insts m) (sm_tails m) (sm_calls m ++ [c]).

(** The end of [drain]'s wait: the instance's [Start] returned, or the drain
    timeout expired. *)
Definition drained (id : nat) (timedOut : bool) (m : SinkManager) : bool :=
  timedOut || match sm_insts m !! id with Some i => finished i | None => false end.

(** [parkDependents]; [rules] is what [RulesForSink] answers, [parks] whether a
    callback is wired. *)
Definition parkDependents (parks : bool) (rules : list string) (name : string) (m : SinkManager) : SinkManager :=
  if parks then call (CallPark name rules) m else m.

(** What a turn of a goroutine meets: has the timeout expired, is a coordinator
    wired, is a parking callback, which rules depend on the sink. *)
Record tailEnv := mkTailEnv { te_timedOut : bool; te_warm : bool; te_parks : bool; te_rules : list string }.

(** One turn of the [i]-th goroutine: [drain], and [finishDelete] cut at its waits
    and its critical section. *)
Definition tail_step (e : tailEnv) (i : nat) (m : SinkManager) : option SinkManager :=
  match sm_tails m !! i with
  | None => None
  | Some (TDrain id) => Some (set_tail i (Some (TDrainWait id)) (cancel id m))
  | Some (TDrainWait id) => if drained id (te_timedOut e) m then Some (set_tail i None m) else None
  | Some (TDelete name (Some id)) => Some (set_tail i (Some (TDeleteWait name id)) (cancel id m))
  | Some (TDelete name None) => Some (set_tail i (Some (TDeleteCheck name None)) m)
  | Some (TDeleteWait name id) =>
      if drained id (te_timedOut e) m then Some (set_tail i (Some (TDeleteCheck name (Some id))) m) else None
  | Some (TDeleteCheck name inst) =>
      match sm_live m !! name with
      | Some _ => Some (set_tail i None m)
      | None => Some (set_tail i (Some (TDeleteEvict name inst)) m)
      end
  | Some (TDeleteEvict name _) =>
      let m1 := call (CallRemoveSink name) m in
      let m2 := if te_warm e then call (CallForgetSink name) m1 else m1 in
      Some (set_tail i None (parkDependents (te_parks e) (te_rules e) name m2))
  end.

(** An instance's [Start] returns. *)
Definition finish (id : nat) (m : SinkManager) : SinkManager :=
  mkManager (sm_live m) (sm_started m) (sm_ctxDone m) (sm_pending m) (sm_stopped m)
    (alter (fun i => mkInstance (in_name i) (cancelled i) true) id (sm_insts m)) (sm_tails m) (sm_calls m).

(** ** Probing *)

Definition ProbeReasonUnreachable : string := "Unreachable".
Definition ProbeReasonSchemaInvalid : string := "SchemaInvalid".

(** A probe's error, with whether [errors.Is(err, ErrSchemaInvalid)]. *)
Record probeError := mkProbeError { pe_text : error; pe_schema : bool }.

Record ProbeResult := mkProbeResult { pr_Sink : string; pr_At : Z; pr_Err : option error; pr_Reason : string }.

Definition probe (inst : liveSink) (at_ : Z) (answer : option probeError) : ProbeResult :=
  match answer with
  | None => mkProbeResult (ls_name inst) at_ None ""
  | Some e =>
      mkProbeResult (ls_name inst) at_ (Some (pe_text e))
        (if pe_schema e then ProbeReasonSchemaInvalid else ProbeReasonUnreachable)
  end.

(** [backoff.ExponentialBackOff] with its randomization off: a schedule that can be
    reset and stepped. *)
Class BackOff := {
  schedule : Type;
  bo_Reset : schedule -> schedule;
  bo_NextBackOff : schedule -> schedule * Z;
}.

Definition nextProbeDelay {B : BackOff} (probeInterval probeMaxBackoff : Z) (eb : schedule) (failed : bool) :
    schedule * Z :=
  if negb failed then (bo_Reset eb, probeInterval)
  else
    let '(eb', delay) := bo_NextBackOff eb in
    if Z.leb delay 0 then (eb', probeMaxBackoff) else (eb', delay).

(** One turn of [probeLoop]: [None] when the loop ends, because the context did
    during the attempt or before the result was taken; else the posted result, the
    wait and the schedule. *)
Definition probeLoop_turn {B : BackOff} (probeInterval probeMaxBackoff : Z) (inst : liveSink) (at_ : Z)
    (answer : option probeError) (ctxEnded taken : bool) (eb : schedule) : option (ProbeResult * Z * schedule) :=
  let result := probe inst at_ answer in
  if ctxEnded then None
  else if negb taken then None
  else
    let '(eb', delay) := nextProbeDelay probeInterval probeMaxBackoff eb (bool_decide (pr_Err result <> None)) in
    Some (result, delay, eb').

(** [postResult] when it sends: there is room in the buffered channel. *)
Definition postResult {A} (resultBuffer : nat) (result : A) (results : list A) : option (list A) :=
  if Nat.ltb (length results) resultBuffer then Some (results ++ [result]) else None.

(** ** Routing *)

Definition WriterFor (m : SinkManager) (name : string) : option Writer := ls_writer <$> sm_live m !! name.

Definition manager_StateReaderFor (m : SinkManager) (name : string) : option StateReader :=
  inst ← sm_live m !! name; ls_reader inst.

Definition manager_ScopeEventWriterFor (m : SinkManager) (name : string) : option (ScopeEvent -> option error) :=
  inst ← sm_live m !! name; ls_events inst.

Definition manager_SinkNames (m : SinkManager) : list string := sorted_keys (sm_live m).

(** ** Runs *)

Inductive managerOp :=
| MEnsure (factory : Factory) (name : string) (cfg : option C)
| MDelete (name : string)
| MStart (factory : Factory)
| MCtxDone
| MStop
| MTail (e : tailEnv) (i : nat)
| MFinish (id : nat).

(** [Start] is called once, and its shutdown half follows it. *)
Definition manager_op (op : managerOp) (m : SinkManager) : option SinkManager :=
  match op with
  | MEnsure factory name cfg => Some (Ensure factory name cfg m).1
  | MDelete name => Some (Delete name m)
  | MStart factory => if sm_started m then None else Some (manager_Start factory m)
  | MCtxDone => if sm_started m then Some (ctx_done m) else None
  | MStop => if sm_started m && sm_ctxDone m && negb (sm_stopped m) then Some (manager_Stop m) else None
  | MTail e i => tail_step e i m
  | MFinish id => Some (finish id m)
  end.

Fixpoint manager_run (ops : list managerOp) (m : SinkManager) : option SinkManager :=
  match ops with
  | [] => Some m
  | op :: rest => match manager_op op m with Some m' => manager_run rest m' | None => None end
  end.

End manager.
Arguments SinkManager : clear implicits.
Arguments managerOp : clear implicits.
