(* ===== verification/CHSchema.v ===== *)
(** * CHSchema: the ClickHouse schema, the health probe and the fingerprint

    Models [clickhouse/schema.go] and [clickhouse/instance.go]: the columns the
    operator requires, the introspection and comparison of a live database, the
    creation of the shipped tables, the probe a sink instance answers, and the
    digest that tells two configurations apart. The driver's answers are arguments.
    The shipped DDL ([deploy/clickhouse/schema]) is transcribed as its columns. *)

From Stdlib Require Import ZArith Lia.
From stdpp Require Import base gmap strings list sorting pretty.
From S2P Require Import Prelude Json Redact Sha256 Pipeline ScopeRecorder Driver ScopeWriter CHWriter CHReader SinkManager.

(** ** The required schema *)

Definition tableResourceStates : string := "resource_states".
Definition tableWatchScopes : string := "watch_scopes".

Record schemaColumn := mkColumn { sc_name : string; sc_chType : string }.

Definition requiredResourceStates : list schemaColumn :=
  [mkColumn "ts" "DateTime64(9, 'UTC')"; mkColumn "cluster_id" "LowCardinality(String)";
   mkColumn "event_type" "LowCardinality(String)"; mkColumn "api_group" "LowCardinality(String)";
   mkColumn "api_version" "LowCardinality(String)"; mkColumn "kind" "LowCardinality(String)";
   mkColumn "namespace" "String"; mkColumn "name" "String"; mkColumn "uid" "String";
   mkColumn "resource_version" "String"; mkColumn "labels" "Map(LowCardinality(String), String)";
   mkColumn "actors" "Array(LowCardinality(String))"; mkColumn "data" "String"; mkColumn "diff" "String";
   mkColumn "sha256" "String"].

Definition requiredWatchScopes : list schemaColumn :=
  [mkColumn "ts" "DateTime64(9, 'UTC')"; mkColumn "cluster_id" "LowCardinality(String)";
   mkColumn "api_group" "LowCardinality(String)"; mkColumn "api_version" "LowCardinality(String)";
   mkColumn "kind" "LowCardinality(String)"; mkColumn "namespace" "String";
   mkColumn "action" "LowCardinality(String)"; mkColumn "rule_ref" "String"].

Definition requiredColumns (table : string) : list schemaColumn :=
  if String.eqb table tableResourceStates then requiredResourceStates
  else if String.eqb table tableWatchScopes then requiredWatchScopes else [].

(** ** Introspection *)

Definition introspectQuery : string := "
        SELECT table, name, type
        FROM system.columns
        WHERE database = ? AND table IN (?, ?)
    ".

Definition scan_column (row : chRow) : option (string * string * string) :=
  match row with [VString table; VString name; VString chType] => Some (table, name, chType) | _ => None end.

Abbreviation schemaMap := (gmap string (gmap string string)).

Definition observe_column (observed : schemaMap) (c : string * string * string) : schemaMap :=
  let '(table, name, chType) := c in
  <[table := <[name := chType]> (default ∅ (observed !! table))]> observed.

(** Rows are stored as they are read, and nothing is returned after an error. *)
Definition introspectColumns (conn : string -> list chValue -> queryResult) (database : string) : result schemaMap :=
  let rows := conn introspectQuery [VString database; VString tableResourceStates; VString tableWatchScopes] in
  match qr_err rows with
  | Some e => Err e
  | None =>
      match scan_all scan_column (qr_rows rows) with
      | Err e => Err e
      | Ok columns => match qr_rowsErr rows with Some e => Err e | None => Ok (foldl observe_column ∅ columns) end
      end
  end.

(** ** Validation *)

(** A readable schema that does not match, or an error to retry. *)
Inductive schemaError := schemaMismatchError (discrepancies : list string) | transientError (err : error).

Definition schemaError_Error (e : schemaError) : error :=
  match e with
  | schemaMismatchError discrepancies => "clickhouse schema mismatch: " +:+ join "; " discrepancies
  | transientError err => err
  end.

Definition check_column (table : string) (cols : gmap string string) (req : schemaColumn) : list string :=
  match cols !! sc_name req with
  | None => ["table " +:+ Quote table +:+ " is missing column " +:+ Quote (sc_name req) +:+ " (expected type " +:+
             sc_chType req +:+ ")"]
  | Some got =>
      if String.eqb got (sc_chType req) then []
      else ["table " +:+ Quote table +:+ " column " +:+ Quote (sc_name req) +:+ " has type " +:+ got +:+ ", expected " +:+
            sc_chType req]
  end.

Definition check_table (observed : schemaMap) (table : string) : list string :=
  match observed !! table with
  | None => ["table " +:+ Quote table +:+ " is missing"]
  | Some cols => mjoin (map (check_column table cols) (requiredColumns table))
  end.

Definition discrepancies_of (observed : schemaMap) : list string :=
  mjoin (map (check_table observed) [tableResourceStates; tableWatchScopes]).

Definition validateSchema (conn : string -> list chValue -> queryResult) (database : string) : option schemaError :=
  match introspectColumns conn database with
  | Err e => Some (transientError e)
  | Ok observed =>
      match discrepancies_of observed with
      | [] => None
      | discrepancies => Some (schemaMismatchError discrepancies)
      end
  end.

(** ** Creation *)

(** An entry of the embedded directory and what reading it answers. *)
Record ddlEntry := mkEntry { de_Name : string; de_IsDir : bool; de_content : result string }.

Definition has_suffix (suffix s : string) : bool :=
  let n := (String.length s - String.length suffix)%nat in
  Nat.leb (String.length suffix) (String.length s) && String.eqb (String.substring n (String.length suffix) s) suffix.

Definition is_space (a : Ascii.ascii) : bool :=
  let n := Ascii.nat_of_ascii a in Nat.eqb n 32 || (Nat.leb 9 n && Nat.leb n 13).

Fixpoint trim_left (f : Ascii.ascii -> bool) (s : string) : string :=
  match s with
  | EmptyString => EmptyString
  | String a s' => if f a then trim_left f s' else s
  end.

(** Drop a suffix of characters that [f] holds of. *)
Fixpoint trim_right (f : Ascii.ascii -> bool) (s : string) : string :=
  match s with
  | EmptyString => EmptyString
  | String a s' =>
      match trim_right f s' with
      | EmptyString => if f a then EmptyString else String a EmptyString
      | t => String a t
      end
  end.

(** [strings.TrimRight(strings.TrimSpace(ddl), ";")]. *)
Definition statement_of (ddl : string) : string :=
  trim_right (Ascii.eqb ";") (trim_right is_space (trim_left is_space ddl)).

(** The statements that ran and the error that stopped, for files by name; [exec]
    answers each statement. *)
Fixpoint exec_files (read : string -> result string) (exec : string -> option error) (names : list string) :
    list string * option error :=
  match names with
  | [] => ([], None)
  | name :: rest =>
      match read name with
      | Err e => ([], Some e)
      | Ok ddl =>
          let stmt := statement_of ddl in
          match exec stmt with
          | Some e => ([stmt], Some ("executing " +:+ name +:+ ": " +:+ e))
          | None => let '(ran, err) := exec_files read exec rest in (stmt :: ran, err)
          end
      end
  end.

Definition read_entry (entries : list ddlEntry) (name : string) : result string :=
  match filter (fun e => de_Name e = name) entries with
  | e :: _ => de_content e
  | [] => Err "file does not exist"
  end.

Definition autoCreateSchema (dir : result (list ddlEntry)) (exec : string -> option error) : list string * option error :=
  match dir with
  | Err e => ([], Some e)
  | Ok entries =>
      let names := sort_strings (map de_Name (filter (fun e => de_IsDir e = false /\ has_suffix ".sql" (de_Name e) = true) entries)) in
      exec_files (read_entry entries) exec names
  end.

(** The attempts of [autoCreateSchemaWithRetry] until one succeeds or the context
    ends; true when the schema was applied. *)
Fixpoint autoCreateSchemaWithRetry (dir : result (list ddlEntry)) (attempts : list (string -> option error)) :
    list string * bool :=
  match attempts with
  | [] => ([], false)
  | exec :: later =>
      match autoCreateSchema dir exec with
      | (ran, None) => (ran, true)
      | (ran, Some _) => let '(ran', done) := autoCreateSchemaWithRetry dir later in (ran ++ ran', done)
      end
  end.

(** ** The probe *)

Definition ErrSchemaInvalid : error := "sink schema does not match the schema the operator writes".

Definition Probe (ping : option error) (conn : string -> list chValue -> queryResult) (w : CHWriter) : option probeError :=
  if cw_closing w then Some (mkProbeError "chwriter: shutting down, refusing health probe" false)
  else
    match ping with
    | Some e => Some (mkProbeError ("ping clickhouse: " +:+ e) false)
    | None =>
        match validateSchema conn (kn_database (cw_knobs w)) with
        | None => None
        | Some (schemaMismatchError _ as err) =>
            Some (mkProbeError (ErrSchemaInvalid +:+ ": " +:+ schemaError_Error err) true)
        | Some err => Some (mkProbeError (schemaError_Error err) false)
        end
    end.

(** ** What a valid schema means for the writes *)

(** The column list of an [INSERT] statement: between its first parentheses. *)
Definition between_parens (s : string) : string :=
  match cut_char "(" s with
  | Some (_, rest) => match cut_char ")" rest with Some (inner, _) => inner | None => "" end
  | None => ""
  end.

Definition trim (s : string) : string := trim_right is_space (trim_left is_space s).

Definition insert_columns (query : string) : list string := map trim (split_char "," (between_parens query)).

Definition insertResourceStateQuery : string := "
        INSERT INTO resource_states (
            ts, cluster_id, event_type, api_group, api_version, kind, namespace, name, uid, resource_version, labels, actors, data, diff, sha256
        ) VALUES (?, ?, ?, ?, ?, ?, ?, ?, ?, ?, ?, ?, ?, ?, ?)".

Definition insertScopeEventQuery : string := "
        INSERT INTO watch_scopes (
            ts, cluster_id, api_group, api_version, kind, namespace, action, rule_ref
        ) VALUES (?, ?, ?, ?, ?, ?, ?, ?)".

(** The types a bound value can be stored in without conversion. *)
Definition fits (v : chValue) (chType : string) : bool :=
  match v with
  | VTime _ => String.eqb chType "DateTime64(9, 'UTC')"
  | VString _ => String.eqb chType "String" || String.eqb chType "LowCardinality(String)"
  | VMap _ => String.eqb chType "Map(LowCardinality(String), String)"
  | VArray _ => String.eqb chType "Array(LowCardinality(String))"
  end.

(** A row bound to columns of an observed table. *)
Definition row_fits (cols : gmap string string) (columns : list string) (row : chRow) : Prop :=
  Forall2 (fun c v => exists chType, cols !! c = Some chType /\ fits v chType = true) columns row.

Lemma check_column_nil table cols req :
  check_column table cols req = [] <-> cols !! sc_name req = Some (sc_chType req).
Proof.
  unfold check_column. destruct (cols !! sc_name req) as [got|]; [|done].
  destruct (String.eqb_spec got (sc_chType req)) as [->|Hne]; [done|]. split; [done|]. congruence.
Qed.

Lemma mjoin_nil {A B} (f : A -> list B) l : mjoin (map f l) = [] <-> Forall (fun x => f x = []) l.
Proof.
  induction l as [|x l IH]; simpl; [by split|]. rewrite Forall_cons, <- IH.
  destruct (f x); simpl; [naive_solver|]. split; [done|]. by intros [].
Qed.

(** No discrepancy means that every required column is there with its type. *)
Lemma discrepancies_nil observed :
  discrepancies_of observed = [] <->
  forall table, table ∈ [tableResourceStates; tableWatchScopes] -> exists cols, observed !! table = Some cols /\
    forall req, req ∈ requiredColumns table -> cols !! sc_name req = Some (sc_chType req).
Proof.
  unfold discrepancies_of. rewrite mjoin_nil, Forall_forall.
  split; intros H table Hin; specialize (H table Hin); unfold check_table in *.
  - destruct (observed !! table) as [cols|]; [|done]. exists cols. split; [done|]. intros req Hreq.
    rewrite mjoin_nil, Forall_forall in H. by apply (check_column_nil table), H.
  - destruct H as (cols & -> & Hreq). apply mjoin_nil, Forall_forall. intros req Hin'. by apply check_column_nil, Hreq.
Qed.

Lemma row_fits_required cols required row :
  Forall2 (fun req v => fits v (sc_chType req) = true) required row ->
  (forall req, req ∈ required -> cols !! sc_name req = Some (sc_chType req)) ->
  row_fits cols (map sc_name required) row.
Proof.
  induction 1 as [|req v required row Hf HF IH]; intros Hreq; [constructor|].
  constructor; [|apply IH; intros; apply Hreq; by right].
  exists (sc_chType req). split; [apply Hreq; by left|done].
Qed.

(** C12. A database that passes the schema check takes every row the operator
    writes. If validation of a live database reports nothing, then both tables
    exist and, for every record and every scope event, the columns named by the
    insert statement line up with the bound arguments one by one, each exists in
    the live table, and its reported type is one the argument is stored in without
    conversion. Extra columns do not matter. *)
Theorem valid_schema_takes_rows (conn : string -> list chValue -> queryResult) (database : string) :
  validateSchema conn database = None ->
  exists observed states scopes, introspectColumns conn database = Ok observed /\
    observed !! tableResourceStates = Some states /\ observed !! tableWatchScopes = Some scopes /\
    (forall rec, row_fits states (insert_columns insertResourceStateQuery) (insertArgs rec)) /\
    (forall event, row_fits scopes (insert_columns insertScopeEventQuery) (scopeInsertArgs event)).
Proof.
  unfold validateSchema. destruct (introspectColumns conn database) as [observed|e]; [|done].
  destruct (discrepancies_of observed) eqn:E; [|done]. intros _. pose proof (proj1 (discrepancies_nil observed) E) as Hd.
  destruct (Hd tableResourceStates) as (states & Hs & Hs'); [by left|].
  destruct (Hd tableWatchScopes) as (scopes & Hw & Hw'); [by right; left|].
  exists observed, states, scopes. split; [done|]. split; [done|]. split; [done|]. split.
  - intros rec. change (insert_columns insertResourceStateQuery) with (map sc_name requiredResourceStates).
    apply row_fits_required; [|exact Hs']. unfold requiredResourceStates, insertArgs. by repeat constructor.
  - intros event. change (insert_columns insertScopeEventQuery) with (map sc_name requiredWatchScopes).
    apply row_fits_required; [|exact Hw']. unfold requiredWatchScopes, scopeInsertArgs. by repeat constructor.
Qed.

(** ** The shipped tables *)

Definition shipped_resource_states : list (string * string) :=
  [("ts", "DateTime64(9, 'UTC')"); ("cluster_id", "LowCardinality(String)"); ("event_type", "LowCardinality(String)");
   ("api_group", "LowCardinality(String)"); ("api_version", "LowCardinality(String)"); ("kind", "LowCardinality(String)");
   ("namespace", "String"); ("name", "String"); ("uid", "String"); ("resource_version", "String");
   ("labels", "Map(LowCardinality(String), String)"); ("actors", "Array(LowCardinality(String))"); ("data", "String");
   ("diff", "String"); ("sha256", "String")].

Definition shipped_watch_scopes : list (string * string) :=
  [("ts", "DateTime64(9, 'UTC')"); ("cluster_id", "LowCardinality(String)"); ("api_group", "LowCardinality(String)");
   ("api_version", "LowCardinality(String)"); ("kind", "LowCardinality(String)"); ("namespace", "String");
   ("action", "LowCardinality(String)"); ("rule_ref", "String")].

Definition column_row (table : string) (c : string * string) : result chRow :=
  Ok [VString table; VString c.1; VString c.2].

(** [system.columns] of a database with the shipped tables, and a column more. *)
Definition shipped (query : string) (args : list chValue) : queryResult :=
  mkQueryResult None
    (map (column_row tableResourceStates) (shipped_resource_states ++ [("region", "String")]) ++
     map (column_row tableWatchScopes) shipped_watch_scopes) None.

(** The shipped tables pass the check they are shipped for. *)
Lemma shipped_valid database : validateSchema shipped database = None.
Proof. vm_compute. reflexivity. Qed.

Lemma valid_schema_takes_rows_witness :
  validateSchema shipped "audit" = None /\
  exists observed states scopes, introspectColumns shipped "audit" = Ok observed /\
    observed !! tableResourceStates = Some states /\ observed !! tableWatchScopes = Some scopes /\
    (forall rec, row_fits states (insert_columns insertResourceStateQuery) (insertArgs rec)) /\
    (forall event, row_fits scopes (insert_columns insertScopeEventQuery) (scopeInsertArgs event)).
Proof. split; [vm_compute; reflexivity|]. apply (valid_schema_takes_rows shipped "audit"). vm_compute. reflexivity. Defined.

(** ** Durations as text: [time.Duration.String] *)

(** [fmtFrac]: the last [prec] digits as a fraction without trailing zeros. *)
Definition fmtFrac (u : Z) (prec : nat) : string := trim_fraction ("." +:+ pad_digits prec (u mod 10 ^ Z.of_nat prec)).

Definition Duration_String (d : Z) : string :=
  let u := Z.abs d in
  let body :=
    if Z.eqb u 0 then "0s"
    else if Z.ltb u 1000 then pretty u +:+ "ns"
    else if Z.ltb u 1000000 then pretty (u / 1000)%Z +:+ fmtFrac u 3 +:+
      String (Ascii.ascii_of_nat 194) (String (Ascii.ascii_of_nat 181) "s")
    else if Z.ltb u second then pretty (u / 1000000)%Z +:+ fmtFrac u 6 +:+ "ms"
    else
      let secs := (u / second)%Z in
      let mins := (secs / 60)%Z in
      let tail := pretty (secs mod 60)%Z +:+ fmtFrac u 9 +:+ "s" in
      if Z.eqb mins 0 then tail
      else
        let hours := (mins / 60)%Z in
        let tail := pretty (mins mod 60)%Z +:+ "m" +:+ tail in
        if Z.eqb hours 0 then tail else pretty hours +:+ "h" +:+ tail in
  if Z.ltb d 0 then "-" +:+ body else body.

Example Duration_samples :
  map Duration_String [0; 250; 1500; 2000000; 500 * 1000000; 90 * second; 3600 * second; 61500 * 1000000; -2 * second]%Z =
  ["0s"; "250ns"; "1.5" +:+ String (Ascii.ascii_of_nat 194) (String (Ascii.ascii_of_nat 181) "s"); "2ms"; "500ms";
   "1m30s"; "1h0m0s"; "1m1.5s"; "-2s"].
Proof. vm_compute. reflexivity. Qed.

(** ** The fingerprint *)

Definition fmt_bool (b : bool) : string := if b then "true" else "false".

(** The text that is digested. *)
Definition fingerprint_text (c : Config) : string :=
  "addr=" +:+ Quote (cf_Addr c) +:+ " db=" +:+ Quote (cf_Database c) +:+ " user=" +:+ Quote (cf_Username c) +:+
  " pass=" +:+ Quote (cf_Password c) +:+ " dial=" +:+ Quote (Duration_String (cf_DialTimeout c)) +:+
  " read=" +:+ Quote (Duration_String (cf_ReadTimeout c)) +:+ " autocreate=" +:+ fmt_bool (cf_AutoCreateSchema c) +:+
  " batchrows=" +:+ pretty (cf_BatchMaxRows c) +:+ " batchwait=" +:+ Quote (Duration_String (cf_BatchMaxWait c)) +:+
  " queue=" +:+ pretty (cf_WriteQueueSize c) +:+ " workers=" +:+ pretty (cf_WriteWorkers c) +:+
  " enqueue=" +:+ Quote (Duration_String (cf_EnqueueTimeout c)) +:+
  " drain=" +:+ Quote (Duration_String (cf_ShutdownDrainTimeout c)) +:+ " checkpoint=" +:+ pretty (cf_CheckpointEvery c).

Definition Config_Fingerprint (c : Config) : string := sha256_hex (fingerprint_text c).

#[export] Instance Config_InstanceConfig : InstanceConfig Config := {| Fingerprint := Config_Fingerprint |}.

(** *** The text determines the settings *)

Definition prefix_free (a b : Ascii.ascii) : bool :=
  Ascii.eqb a b || (negb (String.prefix (quote_byte a) (quote_byte b)) && negb (String.prefix (quote_byte b) (quote_byte a))).

Lemma quote_prefix_free a b : prefix_free a b = true.
Proof.
  revert b. apply byte_all_spec. revert a.
  apply (byte_all_spec (fun a => byte_all (prefix_free a))). vm_compute. reflexivity.
Qed.

Lemma app_prefix a b x y : a +:+ x = b +:+ y -> String.prefix a b = true \/ String.prefix b a = true.
Proof.
  revert b. induction a as [|c a IH]; intros [|d b]; simpl; try (by auto). intros [= -> E].
  destruct (IH b E) as [H|H]; [left|right]; by destruct (Ascii.ascii_dec d d).
Qed.

Lemma string_app_inj_l a x y : a +:+ x = a +:+ y -> x = y.
Proof. induction a as [|c a IH]; simpl; [done|]. intros [= E]. by apply IH. Qed.

Lemma quote_byte_inj a b x y : quote_byte a +:+ x = quote_byte b +:+ y -> a = b /\ x = y.
Proof.
  intros E. pose proof (quote_prefix_free a b) as H. unfold prefix_free in H.
  destruct (Ascii.eqb_spec a b) as [->|Hne]; [split; [done|by eapply string_app_inj_l]|]. simpl in H. bools.
  destruct (app_prefix _ _ _ _ E); congruence.
Qed.

Lemma quote_byte_head a x y : quote_byte a +:+ x <> String dquote y.
Proof.
  assert (H : forall a, match quote_byte a with String c _ => negb (Ascii.eqb c dquote) | EmptyString => false end = true)
    by (apply byte_all_spec; vm_compute; reflexivity).
  specialize (H a). destruct (quote_byte a) as [|c s]; [done|]. simpl. intros [= -> _].
  by rewrite Ascii.eqb_refl in H.
Qed.

(** A quoted text ends where its closing quote is. *)
Lemma Quote_app_inj s s' r r' : Quote s +:+ r = Quote s' +:+ r' -> s = s' /\ r = r'.
Proof.
  unfold Quote. simpl. intros [= E]. rewrite !string_app_assoc in E. simpl in E. revert s' E.
  induction s as [|a s IH]; intros [|b s'] E; simpl in E.
  - by injection E as ->.
  - rewrite string_app_assoc in E. symmetry in E. by apply quote_byte_head in E.
  - rewrite string_app_assoc in E. by apply quote_byte_head in E.
  - rewrite !string_app_assoc in E. apply quote_byte_inj in E as [-> E]. by destruct (IH s' E) as [-> ->].
Qed.

Lemma pretty_N_char_space x : Ascii.eqb (pretty_N_char x) " " = false.
Proof. by destruct x as [|[[[|[]|]|[|[]|]|]|[[|[]|]|[|[]|]|]|]]. Qed.

Lemma pretty_N_go_space x s : has_char " " (pretty_N_go x s) = has_char " " s.
Proof.
  revert s. induction (N.lt_wf_0 x) as [x _ IH]; intros s.
  destruct (decide (0 < x)%N) as [Hx|Hx].
  - rewrite pretty_N_go_step by done. rewrite IH by (apply N.div_lt; lia). simpl. by rewrite pretty_N_char_space.
  - assert (x = 0%N) as -> by lia. by rewrite pretty_N_go_0.
Qed.

Lemma pretty_Z_space (z : Z) : has_char " " (pretty z) = false.
Proof.
  assert (HN : forall x : N, has_char " " (pretty x) = false).
  { intros x. unfold pretty, pretty_N. case_decide; [done|]. by rewrite pretty_N_go_space. }
  destruct z as [|p|p]; [reflexivity|exact (HN (Npos p))|]. unfold pretty, pretty_Z. simpl.
  apply (HN (Npos p)).
Qed.

(** A number ends at the next space. *)
Lemma pretty_app_inj (z z' : Z) r r' : pretty z +:+ String " " r = pretty z' +:+ String " " r' -> z = z' /\ r = r'.
Proof.
  intros E. apply first_sep_inj in E as [E ->]; [|by apply pretty_Z_space..]. split; [by apply (inj pretty)|done].
Qed.

Lemma fmt_bool_inj b b' r r' : fmt_bool b +:+ String " " r = fmt_bool b' +:+ String " " r' -> b = b' /\ r = r'.
Proof. destruct b, b'; simpl; intros E; by simplify_eq. Qed.

(** Two configurations that are the same as far as the digested text goes. *)
Definition same_settings (c c' : Config) : Prop :=
  cf_Addr c = cf_Addr c' /\ cf_Database c = cf_Database c' /\ cf_Username c = cf_Username c' /\ cf_Password c = cf_Password c' /\
  Duration_String (cf_DialTimeout c) = Duration_String (cf_DialTimeout c') /\
  Duration_String (cf_ReadTimeout c) = Duration_String (cf_ReadTimeout c') /\
  cf_AutoCreateSchema c = cf_AutoCreateSchema c' /\ cf_BatchMaxRows c = cf_BatchMaxRows c' /\
  Duration_String (cf_BatchMaxWait c) = Duration_String (cf_BatchMaxWait c') /\
  cf_WriteQueueSize c = cf_WriteQueueSize c' /\ cf_WriteWorkers c = cf_WriteWorkers c' /\
  Duration_String (cf_EnqueueTimeout c) = Duration_String (cf_EnqueueTimeout c') /\
  Duration_String (cf_ShutdownDrainTimeout c) = Duration_String (cf_ShutdownDrainTimeout c') /\
  cf_CheckpointEvery c = cf_CheckpointEvery c'.

Lemma fingerprint_text_inj c c' : fingerprint_text c = fingerprint_text c' -> same_settings c c'.
Proof.
  unfold fingerprint_text. intros E. apply string_app_inj_l in E.
  do 6 (apply Quote_app_inj in E as [?E E]; apply string_app_inj_l in E).
  cbn [String.append] in E. apply fmt_bool_inj in E as [?E E].
  apply (string_app_inj_l "batchrows=") in E. apply pretty_app_inj in E as [?E E].
  apply (string_app_inj_l "batchwait=") in E. apply Quote_app_inj in E as [?E E].
  apply (string_app_inj_l " queue=") in E. apply pretty_app_inj in E as [?E E].
  apply (string_app_inj_l "workers=") in E. apply pretty_app_inj in E as [?E E].
  apply (string_app_inj_l "enqueue=") in E. apply Quote_app_inj in E as [?E E].
  apply (string_app_inj_l " drain=") in E. apply Quote_app_inj in E as [?E E].
  apply (string_app_inj_l " checkpoint=") in E. apply (inj pretty) in E.
  by repeat split.
Qed.
