(* ===== verification/Resolver.v ===== *)
(** * Resolver: kinds to resources, with a retry gate

    Models [internal/watch/resolver.go]. The REST mapper is controller-runtime's:
    what it answers to one call is an argument of that call. [Resolve] holds its
    lock twice, around the gate and around the bookkeeping of the answer, and not
    in between; [resolver_op] has the two halves as steps, so that any number of
    callers may be waiting for the mapper at the same time. Every reading of the
    clock is an argument. *)

From Stdlib Require Import ZArith Lia.
From stdpp Require Import base gmap strings list.
From S2P Require Import Prelude Identity Json Redact Registry Interest.

Definition ReasonKindNotFound : string := "KindNotFound".
Definition ReasonClusterScopedKind : string := "ClusterScopedKind".

(** ** Errors *)

(** An error of the mapper, and what [meta.IsNoMatchError] says of it. *)
Record mapperError := mkMapperError { me_text : error; me_IsNoMatch : bool }.

Record RESTMapping := mkRESTMapping { rm_Resource : GroupVersionResource; rm_Namespaced : bool }.

Inductive resolveError :=
| ErrKindNotFound (gvk : GroupVersionKind) (err : mapperError)
| ErrClusterScopedKind (gvk : GroupVersionKind) (resource : GroupVersionResource)
| ErrDiscovery (gvk : GroupVersionKind) (err : mapperError).

(** How apimachinery prints the names of kinds, resources and objects. A resource made of
    the characters of DNS names is printed without a bar, and differently from any
    other such resource. *)
Definition dns_char (a : Ascii.ascii) : bool :=
  let n := Ascii.nat_of_ascii a in
  (Nat.leb 97 n && Nat.leb n 122) || (Nat.leb 48 n && Nat.leb n 57) || Nat.eqb n 45 || Nat.eqb n 46.

Definition dns_name (s : string) : bool := string_forall dns_char s.

Definition dns_gvr (g : GroupVersionResource) : bool :=
  dns_name (gvr_Group g) && dns_name (gvr_Version g) && dns_name (gvr_Resource g).

Class SchemaAPI := {
  GVK_String : GroupVersionKind -> string;
  GVR_String : GroupVersionResource -> string;
  GroupResource_String : GroupVersionResource -> string;
  NamespacedName_String : string -> string -> string;
  GVR_String_inj g g' : dns_gvr g = true -> dns_gvr g' = true -> GVR_String g = GVR_String g' -> g = g';
  GVR_String_bar g : dns_gvr g = true -> has_char "|" (GVR_String g) = false;
  NamespacedName_String_inj ns name ns' name' :
    has_char "/" ns = false -> has_char "/" ns' = false ->
    NamespacedName_String ns name = NamespacedName_String ns' name' -> ns = ns' /\ name = name';
}.

Definition resolveError_Error `{SchemaAPI} (e : resolveError) : error :=
  match e with
  | ErrKindNotFound gvk err => "kind " +:+ GVK_String gvk +:+ " is not installed in this cluster: " +:+ me_text err
  | ErrClusterScopedKind gvk resource =>
      "kind " +:+ GVK_String gvk +:+ " resolves to cluster-scoped resource " +:+ Quote (gvr_Resource resource) +:+
      ": a namespaced StreamRule may only watch namespaced resources, use a ClusterStreamRule instead"
  | ErrDiscovery gvk err => "resolve " +:+ GVK_String gvk +:+ ": " +:+ me_text err
  end.

Definition classify (gvk : GroupVersionKind) (err : mapperError) : resolveError :=
  if me_IsNoMatch err then ErrKindNotFound gvk err else ErrDiscovery gvk err.

Inductive RuleScope := NamespacedRule | ClusterRule.

#[export] Instance RuleScope_eq_dec : EqDecision RuleScope.
Proof. solve_decision. Defined.

Definition checkScope (gvk : GroupVersionKind) (gvr : GroupVersionResource) (namespaced : bool) (rule : RuleScope) :
    option resolveError :=
  if bool_decide (rule = NamespacedRule) && negb namespaced then Some (ErrClusterScopedKind gvk gvr) else None.

(** ** The gate *)

Definition baseRetryDelay : Z := 1 * second.
Definition maxRetryDelay : Z := 30 * second.

Record parkedKind := mkParked { pk_err : resolveError; pk_delay : Z; pk_retryAt : Z }.

Record Resolver := mkResolver {
  rs_parked : gmap GroupVersionKind parkedKind;
  rs_baseDelay : Z;
  rs_maxDelay : Z;
}.

Definition NewResolver : Resolver := mkResolver ∅ baseRetryDelay maxRetryDelay.

Definition set_parked (p : gmap GroupVersionKind parkedKind) (r : Resolver) : Resolver :=
  mkResolver p (rs_baseDelay r) (rs_maxDelay r).

Definition gatedError (now : Z) (gvk : GroupVersionKind) (r : Resolver) : option resolveError :=
  match rs_parked r !! gvk with
  | None => None
  | Some parked => if Z.ltb now (pk_retryAt parked) then Some (pk_err parked) else None
  end.

Definition park (now : Z) (gvk : GroupVersionKind) (err : resolveError) (r : Resolver) : Resolver :=
  let delay :=
    match rs_parked r !! gvk with
    | None => rs_baseDelay r
    | Some parked => Z.min (pk_delay parked * 2) (rs_maxDelay r)
    end in
  set_parked (<[gvk := mkParked err delay (now + delay)]> (rs_parked r)) r.

Definition unpark (gvk : GroupVersionKind) (r : Resolver) : Resolver :=
  set_parked (delete gvk (rs_parked r)) r.

(** ** Resolution *)

(** What one call meets: the clock at the gate, the mapper's answer, the clock
    when a failure is recorded. *)
Record resolveEnv := mkResolveEnv { rv_gate : Z; rv_answer : RESTMapping + mapperError; rv_settle : Z }.

(** The bookkeeping of an answer, and what the caller gets. *)
Definition settle (now : Z) (gvk : GroupVersionKind) (answer : RESTMapping + mapperError) (r : Resolver) :
    Resolver * (GroupVersionResource * bool + resolveError) :=
  match answer with
  | inr err => let err := classify gvk err in (park now gvk err r, inr err)
  | inl mapping => (unpark gvk r, inl (rm_Resource mapping, rm_Namespaced mapping))
  end.

Definition Resolve (e : resolveEnv) (gvk : GroupVersionKind) (r : Resolver) :
    Resolver * (GroupVersionResource * bool + resolveError) :=
  match gatedError (rv_gate e) gvk r with
  | Some err => (r, inr err)
  | None => settle (rv_settle e) gvk (rv_answer e) r
  end.

Definition ResolveForScope (e : resolveEnv) (gvk : GroupVersionKind) (rule : RuleScope) (r : Resolver) :
    Resolver * (GroupVersionResource * bool + resolveError) :=
  match Resolve e gvk r with
  | (r', inr err) => (r', inr err)
  | (r', inl (gvr, namespaced)) =>
      match checkScope gvk gvr namespaced rule with
      | Some err => (r', inr err)
      | None => (r', inl (gvr, namespaced))
      end
  end.

(** ** Interleaved callers *)

(** A caller passes the gate or is turned away; the [i]-th caller that passed gets
    its answer. *)
Inductive resolverOp :=
| RCall (now : Z) (gvk : GroupVersionKind)
| RAnswer (i : nat) (now : Z) (answer : RESTMapping + mapperError).

Record resolverRun := mkRun { rr_resolver : Resolver; rr_waiting : list GroupVersionKind }.

Definition resolver_op (op : resolverOp) (s : resolverRun) : option resolverRun :=
  match op with
  | RCall now gvk =>
      match gatedError now gvk (rr_resolver s) with
      | Some _ => Some s
      | None => Some (mkRun (rr_resolver s) (rr_waiting s ++ [gvk]))
      end
  | RAnswer i now answer =>
      match rr_waiting s !! i with
      | Some gvk => Some (mkRun (settle now gvk answer (rr_resolver s)).1 (delete i (rr_waiting s)))
      | None => None
      end
  end.

Fixpoint resolver_run (ops : list resolverOp) (s : resolverRun) : option resolverRun :=
  match ops with
  | [] => Some s
  | op :: rest => match resolver_op op s with Some s' => resolver_run rest s' | None => None end
  end.

Definition op_time (op : resolverOp) : Z := match op with RCall now _ | RAnswer _ now _ => now end.

(** [Resolve] is the two halves in a row. *)
Lemma Resolve_steps e gvk r :
  gatedError (rv_gate e) gvk r = None ->
  resolver_run [RCall (rv_gate e) gvk; RAnswer 0 (rv_settle e) (rv_answer e)] (mkRun r []) =
    Some (mkRun (Resolve e gvk r).1 []).
Proof. intros Hg. unfold Resolve. simpl. by rewrite Hg. Qed.

(** ** The gate's schedule *)

(** The delay after [n + 1] failures in a row. *)
Definition nth_delay (base max : Z) (n : nat) : Z := Z.min (base * 2 ^ Z.of_nat n) max.

Lemma nth_delay_0 base max : (base <= max)%Z -> nth_delay base max 0 = base.
Proof. unfold nth_delay. simpl. lia. Qed.

Lemma nth_delay_S base max n : (0 < base)%Z -> (base <= max)%Z ->
  Z.min (nth_delay base max n * 2) max = nth_delay base max (S n).
Proof.
  intros Hb Hm. unfold nth_delay. rewrite Nat2Z.inj_succ, Z.pow_succ_r by lia.
  assert (0 < 2 ^ Z.of_nat n)%Z by (apply Z.pow_pos_nonneg; lia). nia.
Qed.

Lemma nth_delay_pos base max n : (0 < base)%Z -> (base <= max)%Z -> (0 < nth_delay base max n <= max)%Z.
Proof.
  intros Hb Hm. unfold nth_delay. assert (0 < 2 ^ Z.of_nat n)%Z by (apply Z.pow_pos_nonneg; lia). nia.
Qed.

(** ** One caller at a time *)

Abbreviation call := (resolveEnv * GroupVersionKind)%type.

Fixpoint resolve_all (calls : list call) (r : Resolver) : Resolver :=
  match calls with
  | [] => r
  | (e, gvk) :: rest => resolve_all rest (Resolve e gvk r).1
  end.

(** The calls for [gvk] that reached the mapper. *)
Fixpoint asked (gvk : GroupVersionKind) (calls : list call) (r : Resolver) : list resolveEnv :=
  match calls with
  | [] => []
  | (e, g) :: rest =>
      let later := asked gvk rest (Resolve e g r).1 in
      if bool_decide (g = gvk) then match gatedError (rv_gate e) g r with None => e :: later | Some _ => later end
      else later
  end.

Definition fails (a : RESTMapping + mapperError) : Prop := exists err, a = inr err.

Lemma Resolve_other e g gvk r : g <> gvk -> rs_parked (Resolve e g r).1 !! gvk = rs_parked r !! gvk.
Proof.
  intros Hne. unfold Resolve. destruct (gatedError (rv_gate e) g r); [done|].
  unfold settle. destruct (rv_answer e); simpl; [by rewrite lookup_delete_ne|by rewrite lookup_insert_ne].
Qed.

Lemma Resolve_delays e g r :
  rs_baseDelay (Resolve e g r).1 = rs_baseDelay r /\ rs_maxDelay (Resolve e g r).1 = rs_maxDelay r.
Proof. unfold Resolve, settle. repeat case_match; done. Qed.

(** Where the schedule of a kind stands: [n] failures behind it, the last one
    recorded at [t]. *)
Definition at_failure (gvk : GroupVersionKind) (r : Resolver) (n : nat) (t : Z) : Prop :=
  exists err, rs_parked r !! gvk =
    Some (mkParked err (nth_delay (rs_baseDelay r) (rs_maxDelay r) n)
            (t + nth_delay (rs_baseDelay r) (rs_maxDelay r) n)).

Definition delays_ok (r : Resolver) : Prop := (0 < rs_baseDelay r)%Z /\ (rs_baseDelay r <= rs_maxDelay r)%Z.

Lemma Resolve_fails e gvk r n :
  delays_ok r -> gatedError (rv_gate e) gvk r = None -> fails (rv_answer e) ->
  match n with
  | 0 => rs_parked r !! gvk = None
  | S m => exists t, at_failure gvk r m t
  end ->
  at_failure gvk (Resolve e gvk r).1 n (rv_settle e).
Proof.
  intros [Hb Hm] Hg [err He] Hn. unfold Resolve, settle, at_failure. rewrite Hg, He. simpl. rewrite lookup_insert_eq.
  exists (classify gvk err). destruct n as [|m].
  - rewrite Hn. by rewrite nth_delay_0.
  - destruct Hn as (t & err' & ->). simpl. by rewrite nth_delay_S.
Qed.

Lemma asked_gaps gvk calls r n t :
  delays_ok r -> at_failure gvk r n t -> (forall e, (e, gvk) ∈ calls -> fails (rv_answer e)) ->
  match asked gvk calls r with
  | [] => True
  | b :: _ => t + nth_delay (rs_baseDelay r) (rs_maxDelay r) n <= rv_gate b
  end%Z /\
  forall k a b, asked gvk calls r !! k = Some a -> asked gvk calls r !! S k = Some b ->
    (rv_settle a + nth_delay (rs_baseDelay r) (rs_maxDelay r) (S n + k) <= rv_gate b)%Z.
Proof.
  revert r n t. induction calls as [|[e g] calls IH]; intros r n t Hd Hat Hf; [done|].
  assert (Hf' : forall e, (e, gvk) ∈ calls -> fails (rv_answer e)) by (intros; apply Hf; by right).
  destruct (Resolve_delays e g r) as [Eb Em].
  assert (Hd' : delays_ok (Resolve e g r).1) by (unfold delays_ok; by rewrite Eb, Em).
  simpl. case_bool_decide as Hg; [subst g|].
  - destruct (gatedError (rv_gate e) gvk r) eqn:Hgate.
    + assert (E : (Resolve e gvk r).1 = r) by (unfold Resolve; by rewrite Hgate). rewrite E. by apply (IH r n t).
    + split.
      { unfold gatedError in Hgate. destruct Hat as [err Hat]. rewrite Hat in Hgate. simpl in Hgate.
        destruct (Z.ltb_spec (rv_gate e) (t + nth_delay (rs_baseDelay r) (rs_maxDelay r) n)); [done|lia]. }
      destruct (IH (Resolve e gvk r).1 (S n) (rv_settle e) Hd') as [H1 H2]; [| |].
      { apply Resolve_fails; try done; [apply Hf; by left|]. by exists t. }
      { done. }
      rewrite Eb, Em in H1, H2. intros [|k] a b Ha Hb.
      * simpl in Ha. injection Ha as <-. simpl in Hb. destruct (asked gvk calls (Resolve e gvk r).1); [done|].
        simpl in Hb. injection Hb as ->. simpl. rewrite Nat.add_0_r. exact H1.
      * specialize (H2 k a b Ha Hb). simpl. rewrite Nat.add_succ_r. exact H2.
  - destruct (IH (Resolve e g r).1 n t Hd') as [H1 H2]; [|done|].
    { unfold at_failure. rewrite Resolve_other, Eb, Em by done. exact Hat. }
    rewrite Eb, Em in H1, H2. done.
Qed.

Lemma asked_schedule gvk calls r :
  delays_ok r -> rs_parked r !! gvk = None -> (forall e, (e, gvk) ∈ calls -> fails (rv_answer e)) ->
  forall k a b, asked gvk calls r !! k = Some a -> asked gvk calls r !! S k = Some b ->
    (rv_settle a + nth_delay (rs_baseDelay r) (rs_maxDelay r) k <= rv_gate b)%Z.
Proof.
  revert r. induction calls as [|[e g] calls IH]; intros r Hd Hno Hf; [done|].
  assert (Hf' : forall e, (e, gvk) ∈ calls -> fails (rv_answer e)) by (intros; apply Hf; by right).
  destruct (Resolve_delays e g r) as [Eb Em].
  assert (Hd' : delays_ok (Resolve e g r).1) by (unfold delays_ok; by rewrite Eb, Em).
  simpl. case_bool_decide as Hg; [subst g|].
  - assert (Hgate : gatedError (rv_gate e) gvk r = None) by (unfold gatedError; by rewrite Hno).
    rewrite Hgate. destruct (asked_gaps gvk calls (Resolve e gvk r).1 0 (rv_settle e)) as [H1 H2]; [done| |done|].
    { apply Resolve_fails; try done. apply Hf. by left. }
    rewrite Eb, Em in H1, H2. intros [|k] a b Ha Hb; simpl in Ha, Hb; [|by apply H2].
    injection Ha as <-. destruct (asked gvk calls (Resolve e gvk r).1); [done|]. by injection Hb as ->.
  - specialize (IH (Resolve e g r).1 Hd'). rewrite Eb, Em in IH. apply IH; [|done]. by rewrite Resolve_other.
Qed.

(** ** The total of the schedule *)

Definition delay (k : nat) : Z := nth_delay baseRetryDelay maxRetryDelay k.

(** From the fifth gap on, every gap is the longest. *)
Lemma delay_capped k : (5 <= k)%nat -> delay k = maxRetryDelay.
Proof.
  intros Hk. unfold delay, nth_delay.
  assert (2 ^ 5 <= 2 ^ Z.of_nat k)%Z by (apply Z.pow_le_mono_r; lia).
  unfold baseRetryDelay, maxRetryDelay, second in *. lia.
Qed.

Fixpoint elapsed (k : nat) : Z := match k with O => 0%Z | S k' => (elapsed k' + delay k')%Z end.

Lemma elapsed_bound k : ((Z.of_nat k - 5) * maxRetryDelay <= elapsed k)%Z.
Proof.
  induction k as [|k IH]; [vm_compute; discriminate|].
  destruct (decide (5 <= k)%nat) as [Hk|Hk].
  - change (elapsed (S k)) with (elapsed k + delay k)%Z. rewrite (delay_capped k Hk).
    rewrite Nat2Z.inj_succ. unfold maxRetryDelay, second in *. lia.
  - do 5 (destruct k as [|k]; [vm_compute; discriminate|]). lia.
Qed.

(** The calls of [gvk] settle after they passed the gate. *)
Definition in_order_env (e : resolveEnv) : Prop := (rv_gate e <= rv_settle e)%Z.

Lemma asked_elem gvk calls r e : e ∈ asked gvk calls r -> (e, gvk) ∈ calls.
Proof.
  revert r. induction calls as [|[e' g] calls IH]; intros r; simpl; [by intros ?%elem_of_nil|].
  case_bool_decide; subst; [destruct (gatedError (rv_gate e') gvk r)|]; rewrite ?elem_of_cons;
    naive_solver.
Qed.

Lemma schedule_sum (l : list resolveEnv) :
  (forall e, e ∈ l -> in_order_env e) ->
  (forall k a b, l !! k = Some a -> l !! S k = Some b -> (rv_settle a + delay k <= rv_gate b)%Z) ->
  forall k a b, l !! 0 = Some a -> l !! k = Some b -> (rv_gate a + elapsed k <= rv_gate b)%Z.
Proof.
  intros Ho Hl k a b Ha. revert b. induction k as [|k IH]; intros b Hb; [simplify_eq; simpl; lia|].
  destruct (l !! k) as [c|] eqn:Hc; [|apply lookup_ge_None in Hc; apply lookup_lt_Some in Hb; lia].
  specialize (IH c eq_refl). specialize (Hl k c b Hc Hb).
  assert (in_order_env c) as Hoc by (apply Ho; by eapply list_elem_of_lookup_2). unfold in_order_env in Hoc.
  simpl. lia.
Qed.

(** A kind that does not resolve costs a bounded number of discovery calls.
    Let callers take turns, for any kinds, from a new resolver, with the mapper
    failing for one kind; then the calls for that kind that reach the mapper are
    spaced by the doubling schedule (one second after the first failure, thirty
    seconds from the sixth on), so within any time there are at most six of them
    plus one per thirty seconds. *)
Lemma discovery_calls_bounded (gvk : GroupVersionKind) (calls : list call) :
  (forall e, (e, gvk) ∈ calls -> fails (rv_answer e) /\ (rv_gate e <= rv_settle e)%Z) ->
  let l := asked gvk calls NewResolver in
  (forall k a b, l !! k = Some a -> l !! S k = Some b ->
     (rv_settle a + Z.min (baseRetryDelay * 2 ^ Z.of_nat k) maxRetryDelay <= rv_gate b)%Z) /\
  forall a b, l !! 0 = Some a -> last l = Some b ->
    (Z.of_nat (length l) <= 6 + (rv_gate b - rv_gate a) / maxRetryDelay)%Z.
Proof.
  intros Hf l.
  assert (Hs : forall k a b, l !! k = Some a -> l !! S k = Some b ->
     (rv_settle a + delay k <= rv_gate b)%Z).
  { apply (asked_schedule gvk calls NewResolver); [|done|by intros e He; apply Hf].
    unfold delays_ok. simpl. unfold baseRetryDelay, maxRetryDelay, second. lia. }
  split; [exact Hs|]. intros a b Ha Hb. rewrite last_lookup in Hb.
  assert (Hsum := schedule_sum l). specialize (Hsum ltac:(intros e He; apply (Hf e), (asked_elem gvk calls NewResolver), He) Hs
    (pred (length l)) a b Ha Hb).
  pose proof (elapsed_bound (pred (length l))) as Hel.
  assert (0 < length l)%nat by (apply lookup_lt_Some in Ha; lia).
  replace (Z.of_nat (length l)) with (Z.of_nat (pred (length l)) + 1)%Z by lia.
  assert (Z.of_nat (pred (length l)) - 5 <= (rv_gate b - rv_gate a) / maxRetryDelay)%Z; [|lia].
  apply Z.div_le_lower_bound; [unfold maxRetryDelay, second; lia|]. lia.
Qed.

(** ** Any number of callers *)

(** What the mapper answered, for whom and when, in the order of the bookkeeping. *)
Abbreviation answered := (GroupVersionKind * Z * (RESTMapping + mapperError))%type.

Fixpoint answers (ops : list resolverOp) (s : resolverRun) : list answered :=
  match ops with
  | [] => []
  | op :: rest =>
      let here := match op with
                  | RAnswer i now a => match rr_waiting s !! i with Some gvk => [(gvk, now, a)] | None => [] end
                  | RCall _ _ => []
                  end in
      match resolver_op op s with Some s' => here ++ answers rest s' | None => [] end
  end.

(** The last answer for a kind. *)
Definition latest (gvk : GroupVersionKind) (h : list answered) : option (Z * (RESTMapping + mapperError)) :=
  match last (filter (fun x => x.1.1 = gvk) h) with Some (_, t, a) => Some (t, a) | None => None end.

Definition gate_of (gvk : GroupVersionKind) (h : list answered) (r : Resolver) : Prop :=
  match latest gvk h with
  | Some (t, inr err) =>
      exists d, (0 < d <= rs_maxDelay r)%Z /\ rs_parked r !! gvk = Some (mkParked (classify gvk err) d (t + d))
  | _ => rs_parked r !! gvk = None
  end.

Lemma latest_snoc gvk h g t a :
  latest gvk (h ++ [(g, t, a)]) = if decide (g = gvk) then Some (t, a) else latest gvk h.
Proof.
  unfold latest. rewrite filter_app. case_decide as E.
  - rewrite (filter_cons_True _ (g, t, a)) by done. by rewrite filter_nil, last_snoc.
  - rewrite (filter_cons_False _ (g, t, a)) by done. by rewrite filter_nil, app_nil_r.
Qed.

Lemma settle_gate h g t a r :
  delays_ok r -> (forall gvk, gate_of gvk h r) ->
  delays_ok (settle t g a r).1 /\ forall gvk, gate_of gvk (h ++ [(g, t, a)]) (settle t g a r).1.
Proof.
  intros Hd Hg. split; [by unfold settle; destruct a|]. intros gvk. specialize (Hg gvk). unfold gate_of in *.
  rewrite latest_snoc. case_decide as E; [subst g|].
  - destruct a as [m|err]; simpl; [by rewrite lookup_delete_eq|]. rewrite lookup_insert_eq.
    destruct Hd as [Hb Hm]. eexists. split; [|reflexivity].
    destruct (latest gvk h) as [[t' [m|err']]|]; [rewrite Hg; lia| |rewrite Hg; lia].
    destruct Hg as (d & Hd & ->). simpl. lia.
  - destruct a as [m|err]; simpl; [by rewrite lookup_delete_ne|by rewrite lookup_insert_ne].
Qed.

Lemma run_gate ops s s' h :
  delays_ok (rr_resolver s) -> (forall gvk, gate_of gvk h (rr_resolver s)) -> resolver_run ops s = Some s' ->
  forall gvk, gate_of gvk (h ++ answers ops s) (rr_resolver s').
Proof.
  revert s h. induction ops as [|op ops IH]; intros s h Hd Hg; simpl.
  { intros [= <-]. by rewrite app_nil_r. }
  destruct op as [now g|i now a]; simpl.
  - destruct (gatedError now g (rr_resolver s)); simpl; intros Hr gvk; by eapply (IH _ h).
  - destruct (rr_waiting s !! i) as [g|]; [|done]. intros Hr.
    destruct (settle_gate h g now a (rr_resolver s) Hd Hg) as [Hd' Hg'].
    rewrite app_assoc. by apply (IH (mkRun (settle now g a (rr_resolver s)).1 (delete i (rr_waiting s)))
      (h ++ [(g, now, a)]) Hd' Hg' Hr).
Qed.

(** C26. A kind that appears is picked up without a restart, and a caller is turned
    away only on fresh evidence. However callers interleave, whoever meets a shut
    gate is told the classified verdict of the latest answer for that kind, which
    was a failure recorded less than thirty seconds before; so once the mapper has
    stopped failing for a kind, every call made thirty seconds later is answered by
    the mapper, and a positive answer empties the kind's schedule. *)
Theorem resolver_self_heals (ops : list resolverOp) (s : resolverRun) (gvk : GroupVersionKind) :
  resolver_run ops (mkRun NewResolver []) = Some s ->
  (forall now err, gatedError now gvk (rr_resolver s) = Some err ->
     exists t merr, latest gvk (answers ops (mkRun NewResolver [])) = Some (t, inr merr) /\
       err = classify gvk merr /\ (now < t + maxRetryDelay)%Z) /\
  forall T e mapping,
    (forall t merr, (gvk, t, inr merr) ∈ answers ops (mkRun NewResolver []) -> (t <= T)%Z) ->
    (T + maxRetryDelay <= rv_gate e)%Z -> rv_answer e = inl mapping ->
    exists r', Resolve e gvk (rr_resolver s) = (r', inl (rm_Resource mapping, rm_Namespaced mapping)) /\
      rs_parked r' !! gvk = None.
Proof.
  intros Hr.
  assert (Hmax : rs_maxDelay (rr_resolver s) = maxRetryDelay /\ gate_of gvk (answers ops (mkRun NewResolver [])) (rr_resolver s)).
  { split.
    - assert (forall ops s s', resolver_run ops s = Some s' -> rs_maxDelay (rr_resolver s') = rs_maxDelay (rr_resolver s)) as H.
      { clear. induction ops as [|op ops IH]; intros s s'; simpl; [by intros [= <-]|].
        destruct op as [now g|i now a]; simpl; [destruct (gatedError now g (rr_resolver s))|destruct (rr_waiting s !! i); [|done]];
          intros Hr; apply IH in Hr; rewrite Hr; try done. unfold settle. by destruct a. }
      apply H in Hr. exact Hr.
    - apply (run_gate ops (mkRun NewResolver []) s []); [|done|done].
      unfold delays_ok. simpl. unfold baseRetryDelay, maxRetryDelay, second. lia. }
  destruct Hmax as [Hmax Hg]. unfold gate_of in Hg. rewrite Hmax in Hg.
  assert (Hfirst : forall now err, gatedError now gvk (rr_resolver s) = Some err ->
     exists t merr, latest gvk (answers ops (mkRun NewResolver [])) = Some (t, inr merr) /\
       err = classify gvk merr /\ (now < t + maxRetryDelay)%Z).
  { intros now err. unfold gatedError.
    destruct (latest gvk (answers ops (mkRun NewResolver []))) as [[t [m|merr]]|]; try (by rewrite Hg).
    destruct Hg as (d & Hd & ->). simpl. destruct (Z.ltb_spec now (t + d)); [|done]. intros [= <-].
    exists t, merr. split; [done|]. split; [done|lia]. }
  split; [exact Hfirst|]. intros T e mapping HT Hnow Ha. unfold Resolve.
  destruct (gatedError (rv_gate e) gvk (rr_resolver s)) as [err|] eqn:Hgate.
  - destruct (Hfirst _ _ Hgate) as (t & merr & Hl & _ & Hlt). exfalso.
    assert ((gvk, t, inr merr) ∈ answers ops (mkRun NewResolver [])) as Hin.
    { unfold latest in Hl. destruct (last _) as [[[g t'] a']|] eqn:El; [|done]. injection Hl as -> ->.
      apply last_Some_elem_of, list_elem_of_filter in El as [Hk El]. simpl in Hk. by subst g. }
    apply HT in Hin. lia.
  - unfold settle. rewrite Ha. eexists. split; [reflexivity|]. simpl. by rewrite lookup_delete_eq.
Qed.

(** ** Samples *)

Module ResolverSamples.

Definition widget : GroupVersionKind := mkGVK "example.com" "v1" "Widget".
Definition noMatch : mapperError := mkMapperError "no matches for kind" true.
Definition miss (t : Z) : call := (mkResolveEnv (t * second) (inr noMatch) (t * second), widget).
Definition misses : list call := map miss [0; 1; 2; 3; 6; 7; 20; 40; 60; 90]%Z.

Lemma misses_fail e : (e, widget) ∈ misses -> fails (rv_answer e) /\ (rv_gate e <= rv_settle e)%Z.
Proof.
  unfold misses. intros H. apply list_elem_of_fmap in H as (t & He & _). injection He as ->. simpl.
  split; [by exists noMatch|lia].
Qed.

Lemma discovery_calls_bounded_witness :
  length (asked widget misses NewResolver) = 7%nat /\
  (7 <= 6 + (90 * second - 0 * second) / maxRetryDelay)%Z.
Proof.
  split; [vm_compute; reflexivity|].
  exact (proj2 (discovery_calls_bounded widget misses misses_fail)
    (miss 0).1 (miss 90).1 ltac:(vm_compute; reflexivity) ltac:(vm_compute; reflexivity)).
Defined.

Definition widgets : RESTMapping := mkRESTMapping (mkGVR "example.com" "v1" "widgets") true.

(** Two callers miss at once, then the kind is installed. *)
Definition installing : list resolverOp :=
  [RCall 0 widget; RCall 0 widget; RAnswer 0 (1 * second) (inr noMatch); RAnswer 0 (1 * second) (inr noMatch)].
Definition missed : resolverRun := default (mkRun NewResolver []) (resolver_run installing (mkRun NewResolver [])).

Lemma run_installing : resolver_run installing (mkRun NewResolver []) = Some missed.
Proof. vm_compute. reflexivity. Qed.

Lemma installing_times t merr :
  (widget, t, inr merr) ∈ answers installing (mkRun NewResolver []) -> (t <= 1 * second)%Z.
Proof.
  assert (E : answers installing (mkRun NewResolver []) =
    [(widget, (1 * second)%Z, inr noMatch); (widget, (1 * second)%Z, inr noMatch)]) by (vm_compute; reflexivity).
  rewrite E, !elem_of_cons. intros [H|[H|H]]; [injection H as -> _; lia|injection H as -> _; lia|by apply elem_of_nil in H].
Qed.

Lemma resolver_self_heals_witness :
  gatedError (2 * second) widget (rr_resolver missed) = Some (ErrKindNotFound widget noMatch) /\
  exists r', Resolve (mkResolveEnv (31 * second) (inl widgets) (31 * second)) widget (rr_resolver missed) =
    (r', inl (mkGVR "example.com" "v1" "widgets", true)) /\ rs_parked r' !! widget = None.
Proof.
  split; [vm_compute; reflexivity|].
  apply (proj2 (resolver_self_heals installing missed widget run_installing) (1 * second)%Z
    (mkResolveEnv (31 * second) (inl widgets) (31 * second)) widgets).
  - exact installing_times.
  - simpl. unfold maxRetryDelay, second. lia.
  - reflexivity.
Defined.

End ResolverSamples.
