(* ===== verification/Conditions.v ===== *)
(** * Conditions: status conditions, rule keys and the rules gauge

    Models [internal/controller/conditions.go] and [metrics.go]: the conditions a
    reconcile pass collects and merges into an object, the status update with its
    retries, the event of a changed verdict, the text keys of rules, and the gauge
    [kuberecord_rules]. Looking a condition up and setting it are apimachinery's:
    the class [ConditionAPI] with its documented behaviour. A status is a string, as
    in [metav1]. *)

From Stdlib Require Import ZArith Lia.
From stdpp Require Import base gmap strings list.
From S2P Require Import Prelude.

(** ** Conditions *)

Record Condition := mkCondition {
  c_Type : string;
  c_Status : string;
  c_Reason : string;
  c_Message : string;
  c_ObservedGeneration : Z;
  c_LastTransitionTime : Z;
}.

Definition ConditionTrue : string := "True".
Definition ConditionFalse : string := "False".
Definition ConditionUnknown : string := "Unknown".

(** [apimeta.SetStatusCondition] at an instant, and [apimeta.FindStatusCondition]:
    setting adds the condition or overwrites the one of its type, whose transition
    time moves only with its status; other types are left alone, and a list with one
    condition per type stays one. *)
Class ConditionAPI := {
  SetStatusCondition : Z -> Condition -> list Condition -> list Condition;
  FindStatusCondition : list Condition -> string -> option Condition;
  find_nil t : FindStatusCondition [] t = None;
  find_elem l t c : FindStatusCondition l t = Some c -> c ∈ l /\ c_Type c = t;
  find_set_same now c l : exists c', FindStatusCondition (SetStatusCondition now c l) (c_Type c) = Some c' /\
    c_Status c' = c_Status c /\ c_Reason c' = c_Reason c /\ c_Message c' = c_Message c /\
    c_ObservedGeneration c' = c_ObservedGeneration c /\
    (forall old, FindStatusCondition l (c_Type c) = Some old -> c_Status old = c_Status c ->
       c_LastTransitionTime c' = c_LastTransitionTime old);
  find_set_other now c l t : t <> c_Type c ->
    FindStatusCondition (SetStatusCondition now c l) t = FindStatusCondition l t;
  find_unique l c : NoDup (c_Type <$> l) -> c ∈ l -> FindStatusCondition l (c_Type c) = Some c;
  set_unique now c l : NoDup (c_Type <$> l) -> NoDup (c_Type <$> SetStatusCondition now c l);
}.

Section conditions.
Context `{ConditionAPI}.

Definition condition (condType status reason message : string) (generation : Z) : Condition :=
  mkCondition condType status reason message generation 0.

Definition findCondition (conditions : list Condition) (condType : string) : option Condition :=
  FindStatusCondition conditions condType.

Record statusWriter := mkStatusWriter { sw_conditions : list Condition; sw_generation : Z }.

Definition newStatusWriter (generation : Z) : statusWriter := mkStatusWriter [] generation.

Definition status_set (now : Z) (condType status reason message : string) (w : statusWriter) : statusWriter :=
  mkStatusWriter (SetStatusCondition now (condition condType status reason message (sw_generation w)) (sw_conditions w))
    (sw_generation w).

Definition status_apply (now : Z) (w : statusWriter) (existing : list Condition) : list Condition :=
  foldl (fun ex c => SetStatusCondition now c ex) existing (sw_conditions w).

(** The reason of the one verdict that is unknown and yet final; [sink]'s. *)
Definition readyFor (unreachable : string) (status : statusWriter) (readyType : string) (order : list string)
    (trueReason trueMessage : string) : Condition :=
  (fix go order :=
     match order with
     | [] => condition readyType ConditionTrue trueReason trueMessage (sw_generation status)
     | condType :: rest =>
         match findCondition (sw_conditions status) condType with
         | None => go rest
         | Some c =>
             if String.eqb (c_Status c) ConditionTrue then go rest
             else
               let readyStatus :=
                 if String.eqb (c_Status c) ConditionUnknown && String.eqb (c_Reason c) unreachable
                 then ConditionFalse else c_Status c in
               condition readyType readyStatus (c_Reason c) (c_Message c) (sw_generation status)
         end
     end) order.

(** ** Writing status *)

(** One attempt of [updateStatus]: what the read and the update answer. An error
    carries whether it is a conflict, on which [retry.RetryOnConflict] tries again. *)
Record statusAttempt (A : Type) := mkStatusAttempt {
  sa_get : A + (error * bool);
  sa_update : option (error * bool);
}.
#[global] Arguments mkStatusAttempt {A} _ _.
#[global] Arguments sa_get {A} _.
#[global] Arguments sa_update {A} _.

(** The object that was written; [later] are the attempts the retry schedule has left. *)
Fixpoint updateStatus {A} (mutate : A -> A) (first : statusAttempt A) (later : list (statusAttempt A)) : result A :=
  let failed err conflict :=
    match conflict, later with
    | true, a :: rest => updateStatus mutate a rest
    | _, _ => Err err
    end in
  match sa_get first with
  | inr (err, conflict) => failed err conflict
  | inl fresh =>
      match sa_update first with
      | None => Ok (mutate fresh)
      | Some (err, conflict) => failed err conflict
      end
  end.

(** ** Events *)

Definition EventReasonDegraded : string := "Degraded".
Definition EventReasonReady : string := "Ready".

Record recordedEvent := mkEvent { ev_type : string; ev_reason : string; ev_message : string }.

Definition emitReadyEvent (previous : option Condition) (ready : Condition) : list recordedEvent :=
  let unchanged :=
    match previous with
    | Some p => String.eqb (c_Status p) (c_Status ready) && String.eqb (c_Reason p) (c_Reason ready)
    | None => false
    end in
  if unchanged then []
  else if String.eqb (c_Status ready) ConditionTrue then [mkEvent "Normal" EventReasonReady (c_Message ready)]
  else if String.eqb (c_Status ready) ConditionFalse
  then [mkEvent "Warning" EventReasonDegraded (c_Reason ready +:+ ": " +:+ c_Message ready)]
  else [].

(** ** Facts *)

Lemma find_status_set now t s r m w :
  exists c, findCondition (sw_conditions (status_set now t s r m w)) t = Some c /\
    c_Status c = s /\ c_Reason c = r /\ c_Message c = m /\ c_ObservedGeneration c = sw_generation w.
Proof.
  destruct (find_set_same now (condition t s r m (sw_generation w)) (sw_conditions w)) as (c & Hc & Hs & Hr & Hm & Hg & _).
  exists c. split; [exact Hc|]. done.
Qed.

Lemma find_status_set_other now t s r m w t' : t' <> t ->
  findCondition (sw_conditions (status_set now t s r m w)) t' = findCondition (sw_conditions w) t'.
Proof. intros Hne. by apply find_set_other. Qed.

Lemma status_set_unique now t s r m w :
  NoDup (c_Type <$> sw_conditions w) -> NoDup (c_Type <$> sw_conditions (status_set now t s r m w)).
Proof. apply set_unique. Qed.

(** Merging a pass into an object: its conditions win, the others stay. *)
Lemma find_status_apply now w ex t :
  NoDup (c_Type <$> sw_conditions w) ->
  match findCondition (sw_conditions w) t with
  | Some c => exists c', findCondition (status_apply now w ex) t = Some c' /\
      c_Status c' = c_Status c /\ c_Reason c' = c_Reason c /\ c_Message c' = c_Message c
  | None => findCondition (status_apply now w ex) t = findCondition ex t
  end.
Proof.
  intros Hnd.
  assert (Hgo : forall l ex, NoDup (c_Type <$> l) ->
    (forall c, c ∈ l -> c_Type c = t -> exists c', findCondition (foldl (fun ex c => SetStatusCondition now c ex) ex l) t = Some c' /\
      c_Status c' = c_Status c /\ c_Reason c' = c_Reason c /\ c_Message c' = c_Message c) /\
    ((forall c, c ∈ l -> c_Type c <> t) ->
      findCondition (foldl (fun ex c => SetStatusCondition now c ex) ex l) t = findCondition ex t)).
  { clear. induction l as [|c l IH]; intros ex Hnd; simpl; [split; [by intros c ?%elem_of_nil|done]|].
    apply NoDup_cons in Hnd as [Hni Hnd]. destruct (IH (SetStatusCondition now c ex) Hnd) as [IH1 IH2]. split.
    - intros c0 [->|Hin]%elem_of_cons Ht; [|by apply IH1]. rewrite IH2.
      + destruct (find_set_same now c ex) as (c' & Hc & Hs & Hr & Hm & _). rewrite <- Ht. exists c'. split; [exact Hc|done].
      + intros c' Hin Ht'. apply Hni. apply list_elem_of_fmap. exists c'. split; [congruence|done].
    - intros Hne. rewrite IH2.
      + apply find_set_other. intros Ht. apply (Hne c); [by left|done].
      + intros c' Hin. apply Hne. by right. }
  destruct (Hgo (sw_conditions w) ex Hnd) as [H1 H2].
  destruct (findCondition (sw_conditions w) t) as [c|] eqn:Hc.
  - apply find_elem in Hc as [Hin Ht]. by apply H1.
  - apply H2. intros c Hin Ht. pose proof (find_unique _ _ Hnd Hin) as Hf. rewrite Ht in Hf. unfold findCondition in Hc. congruence.
Qed.

(** The roll-up is healthy only if no condition of the pass contradicts it. *)
Lemma readyFor_true unreachable w readyType order tr tm :
  c_Status (readyFor unreachable w readyType order tr tm) = ConditionTrue <->
  forall t c, t ∈ order -> findCondition (sw_conditions w) t = Some c -> c_Status c = ConditionTrue.
Proof.
  induction order as [|t order IH]; simpl; [split; [by intros _ t c ?%elem_of_nil|done]|].
  destruct (findCondition (sw_conditions w) t) as [c|] eqn:Hc.
  - destruct (String.eqb_spec (c_Status c) ConditionTrue) as [E|E].
    + rewrite IH. split; intros Hall t' c'; [rewrite elem_of_cons; intros [->|Hin] Hc'; [congruence|by eapply Hall]|].
      intros Hin. apply Hall. by right.
    + split; [|intros Hall; destruct E; apply (Hall t); [by left|done]]. simpl.
      destruct (String.eqb_spec (c_Status c) ConditionUnknown) as [Eu|Eu]; simpl; [|done].
      destruct (String.eqb (c_Reason c) unreachable); [done|]. rewrite Eu. done.
  - rewrite IH. split; intros Hall t' c'; [rewrite elem_of_cons; intros [->|Hin] Hc'; [congruence|by eapply Hall]|].
    intros Hin. apply Hall. by right.
Qed.
End conditions.

(** ** Rule keys *)

Definition kindStreamRule : string := "streamrule".
Definition kindClusterStreamRule : string := "clusterstreamrule".

Definition RuleKey (kind namespace name : string) : string := kind +:+ "/" +:+ namespace +:+ "/" +:+ name.

Record NamespacedName := mkNamespacedName { nn_Namespace : string; nn_Name : string }.

Definition parseRuleKey (key : string) : option (string * NamespacedName) :=
  match split_char "/" key with
  | [kind; namespace; name] =>
      if String.eqb kind "" || String.eqb name "" then None
      else if String.eqb kind kindStreamRule || String.eqb kind kindClusterStreamRule
      then Some (kind, mkNamespacedName namespace name)
      else None
  | _ => None
  end.

(** Reading a key back gives what wrote it, for names without a slash. *)
Lemma parseRuleKey_RuleKey kind namespace name :
  kind = kindStreamRule \/ kind = kindClusterStreamRule ->
  has_char "/" namespace = false -> has_char "/" name = false -> name <> "" ->
  parseRuleKey (RuleKey kind namespace name) = Some (kind, mkNamespacedName namespace name).
Proof.
  intros Hk Hns Hn Hne. unfold parseRuleKey, RuleKey.
  assert (E : split_char "/" (kind +:+ "/" +:+ namespace +:+ "/" +:+ name) = [kind; namespace; name]).
  { assert (has_char "/" kind = false) as Hkc by (destruct Hk as [->| ->]; reflexivity).
    change ("/" +:+ namespace +:+ "/" +:+ name) with (String "/" (namespace +:+ String "/" name)).
    rewrite !split_char_app by done. by rewrite split_char_single. }
  rewrite E. apply String.eqb_neq in Hne. rewrite Hne.
  destruct Hk as [-> | ->]; reflexivity.
Qed.

(** And a key that is read back is the key of what was read. *)
Lemma RuleKey_parseRuleKey key kind ref :
  parseRuleKey key = Some (kind, ref) ->
  key = RuleKey kind (nn_Namespace ref) (nn_Name ref) /\ (kind = kindStreamRule \/ kind = kindClusterStreamRule) /\
  nn_Name ref <> "".
Proof.
  unfold parseRuleKey. intros Hp.
  assert (Hj : join "/" (split_char "/" key) = key).
  { clear. induction key as [|a key IH]; simpl; [done|]. destruct (Ascii.eqb a "/") eqn:Ea.
    - bools. subst a. destruct (split_char_cons "/" key) as (p & ps & E). rewrite E in *. simpl in *. by rewrite IH.
    - destruct (split_char_cons "/" key) as (p & ps & E). rewrite E in *. destruct ps; simpl in *; by rewrite <- IH. }
  destruct (split_char "/" key) as [|k [|ns [|n [|]]]]; try done.
  destruct (String.eqb k "" || String.eqb n "") eqn:E1; [done|].
  destruct (String.eqb k kindStreamRule || String.eqb k kindClusterStreamRule) eqn:E2; [|done].
  injection Hp as <- <-. bools. split; [by rewrite <- Hj|]. split; [|done]. destruct E2; bools; eauto.
Qed.

(** ** The rules gauge *)

Definition conditionStatuses : list string := ["true"; "false"; "unknown"].

(** [strings.ToLower] on ASCII letters. No other character lower-cases to a letter
    of [true] or [false], and a text that is neither is reported as unknown. *)
Definition lower_ascii (a : Ascii.ascii) : Ascii.ascii :=
  let n := Ascii.nat_of_ascii a in
  if Nat.leb 65 n && Nat.leb n 90 then Ascii.ascii_of_nat (n + 32) else a.

Fixpoint to_lower (s : string) : string :=
  match s with EmptyString => EmptyString | String a s' => String (lower_ascii a) (to_lower s') end.

Definition statusLabel (status : string) : string :=
  let lowered := to_lower status in
  if bool_decide (lowered ∈ conditionStatuses) then lowered else "unknown".

Record RuleMetrics := mkRuleMetrics {
  rules_gauge : gmap (string * string) Z;
  observed : gmap string (gmap string string);
  published : gset string;
}.

Definition publishType (condType : string) (m : RuleMetrics) : RuleMetrics :=
  if bool_decide (condType ∈ published m) then m
  else mkRuleMetrics (foldl (fun g status => <[(condType, status) := 0%Z]> g) (rules_gauge m) conditionStatuses)
         (observed m) ({[ condType ]} ∪ published m).

Definition ConditionReady : string := "Ready".

Definition NewRuleMetrics : RuleMetrics := publishType ConditionReady (mkRuleMetrics ∅ ∅ ∅).

(** [byStatus[statusLabel(status)]++] in the map of the condition type. *)
Definition count_condition (condType status : string) (counts : gmap string (gmap string Z)) :
    gmap string (gmap string Z) :=
  let byStatus := default ∅ (counts !! condType) in
  <[condType := <[statusLabel status := (default 0 (byStatus !! statusLabel status) + 1)%Z]> byStatus]> counts.

Definition counts_of (m : RuleMetrics) : gmap string (gmap string Z) :=
  map_fold (fun _ conds counts => map_fold count_condition counts conds)
    (gset_to_gmap ∅ (published m)) (observed m).

Definition set_type (condType : string) (byStatus : gmap string Z) (g : gmap (string * string) Z) :
    gmap (string * string) Z :=
  foldl (fun g status => <[(condType, status) := default 0%Z (byStatus !! status)]> g) g conditionStatuses.

(** A type that is counted without having been published is published on the way. *)
Definition recount (m : RuleMetrics) : RuleMetrics :=
  let counts := counts_of m in
  mkRuleMetrics (map_fold set_type (rules_gauge m) counts) (observed m) (published m ∪ dom counts).

Definition Observe (ruleKey : string) (conds : list Condition) (m : RuleMetrics) : RuleMetrics :=
  let current := foldl (fun cur c => <[c_Type c := c_Status c]> cur) ∅ conds in
  let m1 := mkRuleMetrics (rules_gauge m) (<[ruleKey := current]> (observed m)) (published m) in
  recount (map_fold (fun condType _ m => publishType condType m) m1 current).

Definition Forget (ruleKey : string) (m : RuleMetrics) : RuleMetrics :=
  match observed m !! ruleKey with
  | None => m
  | Some _ => recount (mkRuleMetrics (rules_gauge m) (delete ruleKey (observed m)) (published m))
  end.

Inductive metricsOp := OpObserve (ruleKey : string) (conds : list Condition) | OpForget (ruleKey : string).

Definition metrics_op (op : metricsOp) (m : RuleMetrics) : RuleMetrics :=
  match op with OpObserve rk conds => Observe rk conds m | OpForget rk => Forget rk m end.

(** The rules that hold a condition at a status. *)
Definition holds (condType label : string) (conds : gmap string string) : bool :=
  match conds !! condType with Some status => String.eqb (statusLabel status) label | None => false end.

Definition holders (condType label : string) (obs : gmap string (gmap string string)) : nat :=
  size (filter (fun kv => holds condType label kv.2 = true) obs).

Definition gauge_ok (m : RuleMetrics) : Prop :=
  ConditionReady ∈ published m /\
  (forall rk conds condType, observed m !! rk = Some conds -> is_Some (conds !! condType) -> condType ∈ published m) /\
  forall condType label,
    rules_gauge m !! (condType, label) =
      if bool_decide (condType ∈ published m /\ label ∈ conditionStatuses)
      then Some (Z.of_nat (holders condType label (observed m))) else None.

Definition counted (counts : gmap string (gmap string Z)) (condType label : string) : Z :=
  default 0%Z (default ∅ (counts !! condType) !! label).

Lemma counted_step t st counts condType label :
  counted (count_condition t st counts) condType label =
  (counted counts condType label + if bool_decide (t = condType /\ statusLabel st = label) then 1 else 0)%Z.
Proof.
  unfold counted, count_condition. destruct (decide (t = condType)) as [->|Hne].
  - rewrite lookup_insert_eq. simpl. destruct (decide (statusLabel st = label)) as [<-|Hl].
    + rewrite lookup_insert_eq, bool_decide_true by done. simpl. lia.
    + rewrite lookup_insert_ne, bool_decide_false by naive_solver. lia.
  - rewrite lookup_insert_ne, bool_decide_false by naive_solver. lia.
Qed.

Lemma counted_rule conds counts condType label :
  counted (map_fold count_condition counts conds) condType label =
  (counted counts condType label + if holds condType label conds then 1 else 0)%Z.
Proof.
  apply (map_fold_weak_ind (fun r conds => counted r condType label =
    (counted counts condType label + if holds condType label conds then 1 else 0)%Z)).
  - unfold holds. rewrite lookup_empty. lia.
  - intros t st conds' r Hno IH. rewrite counted_step, IH. unfold holds.
    destruct (decide (t = condType)) as [->|Hne].
    + rewrite lookup_insert_eq, Hno. destruct (String.eqb_spec (statusLabel st) label).
      * rewrite bool_decide_true by done. lia.
      * rewrite bool_decide_false by naive_solver. lia.
    + rewrite lookup_insert_ne, bool_decide_false by naive_solver. lia.
Qed.

Lemma counted_all obs counts condType label :
  counted (map_fold (fun _ conds counts => map_fold count_condition counts conds) counts obs) condType label =
  (counted counts condType label + Z.of_nat (holders condType label obs))%Z.
Proof.
  apply (map_fold_weak_ind (fun r obs => counted r condType label =
    (counted counts condType label + Z.of_nat (holders condType label obs))%Z)).
  - unfold holders. rewrite map_filter_empty, map_size_empty. lia.
  - intros rk conds obs' r Hno IH. rewrite counted_rule, IH. unfold holders.
    destruct (holds condType label conds) eqn:Hh.
    + rewrite map_filter_insert_True by done. rewrite map_size_insert_None; [lia|].
      apply map_lookup_filter_None. by left.
    + rewrite map_filter_insert_False by (simpl; congruence). rewrite delete_id by done. lia.
Qed.

Lemma dom_count_rule conds counts :
  dom (map_fold count_condition counts conds) = dom counts ∪ dom conds.
Proof.
  apply (map_fold_weak_ind (fun r conds => dom r = dom counts ∪ dom conds)).
  - set_solver.
  - intros t st conds' r _ IH. unfold count_condition. rewrite !dom_insert_L, IH. set_solver.
Qed.

Lemma dom_counts_of m :
  (forall rk conds condType, observed m !! rk = Some conds -> is_Some (conds !! condType) -> condType ∈ published m) ->
  dom (counts_of m) = published m.
Proof.
  unfold counts_of. intros Hpub. revert Hpub.
  apply (map_fold_weak_ind (fun r obs =>
    (forall rk conds condType, obs !! rk = Some conds -> is_Some (conds !! condType) -> condType ∈ published m) ->
    dom r = published m)).
  - intros _. apply dom_gset_to_gmap.
  - intros rk conds obs r Hno IH Hpub. rewrite dom_count_rule, IH.
    + assert (dom conds ⊆ published m); [|set_solver]. intros t Ht. apply elem_of_dom in Ht.
      apply (Hpub rk conds t); [by rewrite lookup_insert_eq|done].
    + intros rk' conds' t' Hl. apply (Hpub rk'). rewrite lookup_insert_ne; [done|]. intros ->. congruence.
Qed.

Lemma lookup_set_statuses (t : string) (f : string -> Z) (l : list string) (g : gmap (string * string) Z) t' label :
  foldl (fun g status => <[(t, status) := f status]> g) g l !! (t', label) =
  if bool_decide (t = t' /\ label ∈ l) then Some (f label) else g !! (t', label).
Proof.
  revert g. induction l as [|s l IH]; intros g; simpl.
  - rewrite bool_decide_false; [done|]. intros [_ ?%elem_of_nil]. done.
  - rewrite IH. destruct (decide (t = t' /\ label ∈ l)) as [Hin|Hin].
    + rewrite !bool_decide_true; [done| |done]. rewrite elem_of_cons. naive_solver.
    + rewrite (bool_decide_false (t = t' /\ label ∈ l)) by done.
      destruct (decide ((t, s) = (t', label))) as [[= -> ->]|Hne].
      * rewrite lookup_insert_eq, bool_decide_true; [done|]. rewrite elem_of_cons. naive_solver.
      * rewrite lookup_insert_ne by done. rewrite bool_decide_false; [done|]. rewrite elem_of_cons. naive_solver.
Qed.

Lemma lookup_recounted counts g t label :
  map_fold set_type g counts !! (t, label) =
  if bool_decide (is_Some (counts !! t) /\ label ∈ conditionStatuses)
  then Some (counted counts t label) else g !! (t, label).
Proof.
  pose (P := fun (r : gmap (string * string) Z) (counts : gmap string (gmap string Z)) => r !! (t, label) =
    if bool_decide (is_Some (counts !! t) /\ label ∈ conditionStatuses)
    then Some (counted counts t label) else g !! (t, label)).
  apply (map_fold_weak_ind P); unfold P; clear P.
  - rewrite bool_decide_false; [done|]. rewrite lookup_empty. by intros [[? [=]] _].
  - intros t' byStatus counts' r Hno IH. unfold set_type. rewrite (lookup_set_statuses t'), IH. clear IH.
    unfold counted. destruct (decide (t' = t)) as [->|Hne].
    + rewrite lookup_insert_eq, Hno. simpl. repeat case_bool_decide; naive_solver.
    + rewrite lookup_insert_ne by done. repeat case_bool_decide; naive_solver.
Qed.

Lemma recount_ok m :
  ConditionReady ∈ published m ->
  (forall rk conds condType, observed m !! rk = Some conds -> is_Some (conds !! condType) -> condType ∈ published m) ->
  (forall condType label, condType ∉ published m \/ label ∉ conditionStatuses ->
     rules_gauge m !! (condType, label) = None) ->
  gauge_ok (recount m).
Proof.
  intros Hr Hpub Hno. unfold gauge_ok, recount. simpl. rewrite (dom_counts_of m Hpub), union_idemp_L.
  split; [done|]. split; [done|]. intros t label. rewrite lookup_recounted.
  assert (Hd : is_Some (counts_of m !! t) <-> t ∈ published m) by (rewrite <- (dom_counts_of m Hpub); by rewrite elem_of_dom).
  destruct (decide (t ∈ published m /\ label ∈ conditionStatuses)) as [Hin|Hin].
  - rewrite !bool_decide_true by naive_solver. f_equal. unfold counts_of. rewrite counted_all.
    unfold counted. rewrite lookup_gset_to_gmap, option_guard_True by naive_solver. simpl. by rewrite lookup_empty.
  - rewrite !bool_decide_false by naive_solver. apply Hno.
    destruct (decide (t ∈ published m)); [right|by left]. naive_solver.
Qed.

(** Publishing a type only adds the zeros of its series. *)
Lemma publish_keeps t m :
  observed (publishType t m) = observed m /\ published (publishType t m) = {[ t ]} ∪ published m /\
  ((forall condType label, condType ∉ published m \/ label ∉ conditionStatuses -> rules_gauge m !! (condType, label) = None) ->
   forall condType label, condType ∉ {[ t ]} ∪ published m \/ label ∉ conditionStatuses ->
     rules_gauge (publishType t m) !! (condType, label) = None).
Proof.
  unfold publishType. case_bool_decide as Ht; cbn [rules_gauge observed published].
  - split; [done|]. split; [set_solver|]. intros Hno t' label Hn. apply Hno. set_solver.
  - split; [done|]. split; [done|]. intros Hno t' label Hn. rewrite (lookup_set_statuses t (fun _ => 0%Z)).
    rewrite bool_decide_false; [apply Hno; set_solver|]. set_solver.
Qed.

Lemma publish_all_keeps {V} (conds : gmap string V) m :
  let m' := map_fold (fun condType _ m => publishType condType m) m conds in
  observed m' = observed m /\ published m' = dom conds ∪ published m /\
  ((forall condType label, condType ∉ published m \/ label ∉ conditionStatuses -> rules_gauge m !! (condType, label) = None) ->
   forall condType label, condType ∉ published m' \/ label ∉ conditionStatuses -> rules_gauge m' !! (condType, label) = None).
Proof.
  apply (map_fold_weak_ind (fun m' conds => observed m' = observed m /\ published m' = dom conds ∪ published m /\
    ((forall condType label, condType ∉ published m \/ label ∉ conditionStatuses -> rules_gauge m !! (condType, label) = None) ->
     forall condType label, condType ∉ published m' \/ label ∉ conditionStatuses -> rules_gauge m' !! (condType, label) = None))).
  - split; [done|]. split; [set_solver|done].
  - intros t v conds' m' Hno (Ho & Hp & Hg). destruct (publish_keeps t m') as (Ho' & Hp' & Hg').
    split; [congruence|]. split; [rewrite Hp', Hp, dom_insert_L; set_solver|].
    intros H t' label. rewrite Hp'. apply Hg'. by apply Hg.
Qed.

Lemma gauge_absent m : gauge_ok m ->
  forall condType label, condType ∉ published m \/ label ∉ conditionStatuses -> rules_gauge m !! (condType, label) = None.
Proof. intros (_ & _ & Hg) t label Hn. rewrite Hg, bool_decide_false; [done|]. naive_solver. Qed.

Lemma metrics_op_ok op m : gauge_ok m -> gauge_ok (metrics_op op m).
Proof.
  intros Hok. pose proof (gauge_absent m Hok) as Hno. destruct Hok as (Hr & Hpub & Hg).
  destruct op as [rk conds|rk]; simpl.
  - unfold Observe. set (current := foldl _ _ conds). set (m1 := mkRuleMetrics _ _ _).
    destruct (publish_all_keeps current m1) as (Ho & Hp & Hn). apply recount_ok.
    + rewrite Hp. simpl. set_solver.
    + rewrite Ho, Hp. simpl. intros rk' conds' t Hl Ht. destruct (decide (rk = rk')) as [->|Hne].
      * rewrite lookup_insert_eq in Hl. injection Hl as <-. apply elem_of_union. left. by apply elem_of_dom.
      * rewrite lookup_insert_ne in Hl by done. apply elem_of_union. right. by eapply Hpub.
    + by apply Hn.
  - unfold Forget. destruct (observed m !! rk) as [c|] eqn:E; [|done]. apply recount_ok; simpl; [done| |done].
    intros rk' conds' t Hl. apply (Hpub rk'). apply lookup_delete_Some in Hl as [_ Hl]. done.
Qed.

Lemma NewRuleMetrics_ok : gauge_ok NewRuleMetrics.
Proof.
  destruct (publish_keeps ConditionReady (mkRuleMetrics ∅ ∅ ∅)) as (Ho & Hp & _).
  fold NewRuleMetrics in Ho, Hp. cbn [observed published] in Ho, Hp. unfold gauge_ok. rewrite Ho, Hp.
  split; [set_solver|]. split; [by intros rk conds t Hl; rewrite lookup_empty in Hl|].
  intros t label. change (rules_gauge NewRuleMetrics) with
    (foldl (fun g status => <[(ConditionReady, status) := 0%Z]> g) (∅ : gmap (string * string) Z) conditionStatuses).
  rewrite (lookup_set_statuses ConditionReady (fun _ => 0%Z)), lookup_empty.
  unfold holders. rewrite map_filter_empty, map_size_empty. repeat case_bool_decide; set_solver.
Qed.

(** The conditions each rule was last written with. *)
Definition spec_metrics (op : metricsOp) (A : gmap string (gmap string string)) : gmap string (gmap string string) :=
  match op with
  | OpObserve rk conds => <[rk := foldl (fun cur c => <[c_Type c := c_Status c]> cur) ∅ conds]> A
  | OpForget rk => delete rk A
  end.

Lemma metrics_op_observed op m : observed (metrics_op op m) = spec_metrics op (observed m).
Proof.
  destruct op as [rk conds|rk]; simpl.
  - unfold Observe. by destruct (publish_all_keeps (foldl (fun cur c => <[c_Type c := c_Status c]> cur) ∅ conds)
      (mkRuleMetrics (rules_gauge m) (<[rk := foldl (fun cur c => <[c_Type c := c_Status c]> cur) ∅ conds]> (observed m))
        (published m))) as (Ho & _).
  - unfold Forget. destruct (observed m !! rk) eqn:E; [done|]. by rewrite delete_id.
Qed.

(** The gauge counts the rules. Whatever both reconcilers report and withdraw,
    in any order, every series of a published condition type is the number of rules
    whose last written conditions hold that type at that status, the roll-up's
    series exist from the start, and there is no other series. *)
Lemma gauge_exact (ops : list metricsOp) :
  let m := foldl (fun m op => metrics_op op m) NewRuleMetrics ops in
  let A := foldl (fun A op => spec_metrics op A) ∅ ops in
  ConditionReady ∈ published m /\
  forall condType label,
    rules_gauge m !! (condType, label) =
      if bool_decide (condType ∈ published m /\ label ∈ conditionStatuses)
      then Some (Z.of_nat (size (filter (fun kv => holds condType label kv.2 = true) A))) else None.
Proof.
  assert (H : forall ops m A, gauge_ok m -> observed m = A ->
    gauge_ok (foldl (fun m op => metrics_op op m) m ops) /\
    observed (foldl (fun m op => metrics_op op m) m ops) = foldl (fun A op => spec_metrics op A) A ops).
  { clear. induction ops as [|op ops IH]; intros m A Hm HA; simpl; [done|].
    apply IH; [by apply metrics_op_ok|]. by rewrite metrics_op_observed, HA. }
  destruct (H ops NewRuleMetrics ∅ NewRuleMetrics_ok eq_refl) as [(Hr & _ & Hg) Ho].
  split; [exact Hr|]. intros t label. rewrite Hg. unfold holders. by rewrite Ho.
Qed.
