(* ===== verification/ApiTypes.v ===== *)
(** * ApiTypes: the custom resources

    The fields of [api/v1alpha1] the controllers read and write, with the patterns
    that admission checks redaction rules against. Label selectors are [metav1]'s:
    a type with the conversion to a selector, of which the program only uses the
    printed form. *)

From Stdlib Require Import ZArith.
From stdpp Require Import base gmap strings list.
From S2P Require Import Prelude Json Redact Conditions.

(** [metav1.LabelSelectorAsSelector] followed by [String()]. *)
Class LabelSelectorAPI := {
  LabelSelector : Type;
  LabelSelectorAsSelector : LabelSelector -> result string;
}.

(** ** Condition types *)

Definition ConditionSchemaValid : string := "SchemaValid".
Definition ConditionCredentialsResolved : string := "CredentialsResolved".
Definition ConditionRBACGranted : string := "RBACGranted".
Definition ConditionPolicyAllowed : string := "PolicyAllowed".
Definition ConditionResourceResolved : string := "ResourceResolved".

(** ** Rules *)

Record RedactionRule := mkRedactionRule { rr_FieldPath : string; rr_Annotation : string }.

Record GVKSelector := mkGVKSelector { gs_Group : string; gs_Version : string; gs_Kinds : list string }.

(** [ObjectMeta]: a deletion timestamp is set or not. *)
Record ObjectMeta := mkObjectMeta {
  om_Namespace : string;
  om_Name : string;
  om_Generation : Z;
  om_Deleting : bool;
}.

Record StreamRuleStatus := mkRuleStatus {
  rst_Conditions : list Condition;
  rst_ActiveWatches : Z;
  rst_ObservedGeneration : Z;
}.

Section rules.
Context `{LabelSelectorAPI}.

Record WatchedResource := mkResource {
  wr_Group : string;
  wr_Version : string;
  wr_Kind : string;
  wr_LabelSelector : option LabelSelector;
}.

Record StreamRuleSpec := mkRuleSpec {
  sr_SinkRef : string;
  sr_Resources : list WatchedResource;
  sr_ExtraRedaction : list RedactionRule;
}.

(** Either rule resource, as the shared reconciler gets it. *)
Inductive ruleObject :=
| StreamRule (meta : ObjectMeta) (spec : StreamRuleSpec) (status : StreamRuleStatus)
| ClusterStreamRule (meta : ObjectMeta) (spec : StreamRuleSpec) (namespaceSelector : option LabelSelector)
    (status : StreamRuleStatus).

Definition rule_meta (obj : ruleObject) : ObjectMeta :=
  match obj with StreamRule meta _ _ | ClusterStreamRule meta _ _ _ => meta end.
End rules.

(** ** Sinks *)

Record SecretReference := mkSecretReference { ref_Name : string; ref_Namespace : string }.

(** A duration or a number that may be absent is an option. *)
Record ConnectionSpec := mkConnection {
  cn_Addr : string;
  cn_Database : string;
  cn_Username : string;
  cn_CredentialsSecretRef : SecretReference;
  cn_DialTimeout : option Z;
  cn_ReadTimeout : option Z;
}.

Record WriterSpec := mkWriterSpec {
  ws_QueueSize : option Z;
  ws_Workers : option Z;
  ws_BatchMaxRows : option Z;
  ws_BatchMaxWait : option Z;
  ws_EnqueueTimeout : option Z;
  ws_DrainTimeout : option Z;
  ws_CheckpointEvery : option Z;
}.

Record SinkPolicy := mkSinkPolicy { sp_AllowedGVKs : list GVKSelector; sp_Redaction : list RedactionRule }.

Record ClickHouseSinkSpec := mkSinkSpec {
  ss_Connection : ConnectionSpec;
  ss_Writer : WriterSpec;
  ss_Policy : SinkPolicy;
}.

Record ClickHouseSinkStatus := mkSinkStatus { sst_Conditions : list Condition; sst_ObservedGeneration : Z }.

Record ClickHouseSink := mkSink { sk_meta : ObjectMeta; sk_Spec : ClickHouseSinkSpec; sk_Status : ClickHouseSinkStatus }.

(** What a [Get] answers. *)
Inductive getAnswer (A : Type) :=
| Found (a : A)
| NotFound
| GetFailed (err : error).
#[global] Arguments Found {A} a.
#[global] Arguments NotFound {A}.
#[global] Arguments GetFailed {A} err.

(** ** Admission of redaction rules *)

(** [RedactionFieldPathPattern]: field names, each with an optional [[*]], joined by
    dots. *)
Definition strip_wildcard (s : string) : string :=
  let n := String.length s in
  if Nat.leb 3 n && String.eqb (String.substring (n - 3) 3 s) "[*]" then String.substring 0 (n - 3) s else s.

Definition admits_fieldPath (s : string) : bool :=
  forallb (fun part => segment_pattern (strip_wildcard part)) (split_char "." s).

(** [RedactionAnnotationPattern]: an optional prefix and a slash, then a name. *)
Definition alnum (a : Ascii.ascii) : bool := is_letter a || is_digit a.
Definition lower_alnum (a : Ascii.ascii) : bool :=
  let n := Ascii.nat_of_ascii a in (Nat.leb 97 n && Nat.leb n 122) || is_digit a.

Fixpoint last_char (s : string) : option Ascii.ascii :=
  match s with
  | EmptyString => None
  | String a EmptyString => Some a
  | String _ s' => last_char s'
  end.

(** Starts and ends with [edge], has only [inner] in between. *)
Definition bounded_name (edge inner : Ascii.ascii -> bool) (s : string) : bool :=
  match s with
  | EmptyString => false
  | String a _ =>
      edge a && match last_char s with Some z => edge z | None => false end && string_forall (fun c => edge c || inner c) s
  end.

Definition prefix_inner (a : Ascii.ascii) : bool := Ascii.eqb a "-" || Ascii.eqb a ".".
Definition name_inner (a : Ascii.ascii) : bool := Ascii.eqb a "-" || Ascii.eqb a "_" || Ascii.eqb a ".".

Definition admits_annotation (s : string) : bool :=
  match cut_char "/" s with
  | None => bounded_name alnum name_inner s
  | Some (prefix, name) => bounded_name lower_alnum prefix_inner prefix && bounded_name alnum name_inner name
  end.

(** The markers of [RedactionRule]: exactly one field is set, it has the field's
    pattern and at most 253 bytes. *)
Definition admitted_rule (r : RedactionRule) : bool :=
  if String.eqb (rr_FieldPath r) ""
  then admits_annotation (rr_Annotation r) && Nat.leb (String.length (rr_Annotation r)) 253
  else String.eqb (rr_Annotation r) "" && admits_fieldPath (rr_FieldPath r) && Nat.leb (String.length (rr_FieldPath r)) 253.
