(* ===== verification/DeepCopy.v ===== *)
(** * DeepCopy: the generated copies of the custom resources

    Models [api/v1alpha1/zz_generated.deepcopy.go]: the custom resources as they lie in
    memory, with a pointer for every optional field and every slice, and the copy of
    each, field by field as generated. The controllers get their objects as such
    copies of what the client's cache holds, and write status into them. The metadata,
    list metadata, label selectors and conditions are apimachinery's: types with their
    own copies, which are deep (class [MetaCopy]). *)

From Stdlib Require Import ZArith.
From stdpp Require Import base gmap strings list.
From S2P Require Import Prelude Json Redact Conditions ApiTypes GoHeap.

(** ** In memory *)

Class MetaTypes := { MetaMem : Type; ListMetaMem : Type; SelectorMem : Type; MetaCell : Type }.

Abbreviation slice A := (option (ptr (list A))).

Record Int32 := mkInt32 { Int32_value : Z }.
Record Duration := mkDuration { Duration_ns : Z }.
Record TypeMeta := mkTypeMeta { tm_Kind : string; tm_APIVersion : string }.

Section memory.
Context `{MT : MetaTypes}.

Record mGVKSelector := mkMGVKSelector { mg_Group : string; mg_Version : string; mg_Kinds : slice string }.

Record mWatchedResource := mkMResource {
  mr_Group : string; mr_Version : string; mr_Kind : string; mr_LabelSelector : option (ptr SelectorMem) }.

Record mConnection := mkMConnection {
  mc_Addr : string; mc_Database : string; mc_Username : string; mc_CredentialsSecretRef : SecretReference;
  mc_DialTimeout : option (ptr Duration); mc_ReadTimeout : option (ptr Duration) }.

Record mWriter := mkMWriter {
  mw_QueueSize : option (ptr Int32); mw_Workers : option (ptr Int32); mw_BatchMaxRows : option (ptr Int32);
  mw_BatchMaxWait : option (ptr Duration); mw_EnqueueTimeout : option (ptr Duration);
  mw_DrainTimeout : option (ptr Duration); mw_CheckpointEvery : option (ptr Int32) }.

Record mPolicy := mkMPolicy { mp_AllowedGVKs : slice mGVKSelector; mp_Redaction : slice RedactionRule }.
Record mSinkSpec := mkMSinkSpec { ms_Connection : mConnection; ms_Writer : mWriter; ms_Policy : mPolicy }.
Record mSinkStatus := mkMSinkStatus { mss_Conditions : slice Condition; mss_ObservedGeneration : Z }.
Record mRuleStatus := mkMRuleStatus { mst_Conditions : slice Condition; mst_ActiveWatches : Z; mst_ObservedGeneration : Z }.

Record mRuleSpec := mkMRuleSpec {
  mrs_SinkRef : string; mrs_Resources : slice mWatchedResource; mrs_ExtraRedaction : slice RedactionRule }.
Record mClusterSpec := mkMClusterSpec { mcs_StreamRuleSpec : mRuleSpec; mcs_NamespaceSelector : option (ptr SelectorMem) }.

(** A custom resource with its spec and status, and a list of them. *)
Record mObject (S T : Type) := mkMObject { mo_TypeMeta : TypeMeta; mo_ObjectMeta : MetaMem; mo_Spec : S; mo_Status : T }.
Record mList (O : Type) := mkMList { ml_TypeMeta : TypeMeta; ml_ListMeta : ListMetaMem; ml_Items : slice O }.

Abbreviation mSink := (mObject mSinkSpec mSinkStatus).
Abbreviation mSinkList := (mList mSink).
Abbreviation mRule := (mObject mRuleSpec mRuleStatus).
Abbreviation mRuleList := (mList mRule).
Abbreviation mClusterRule := (mObject mClusterSpec mRuleStatus).
Abbreviation mClusterRuleList := (mList mClusterRule).

Inductive cell :=
| CInt32 (a : Int32)
| CDuration (a : Duration)
| CStrings (a : list string)
| CRedactionRule (a : RedactionRule)
| CRedactionRules (a : list RedactionRule)
| CSecretReference (a : SecretReference)
| CGVKSelector (a : mGVKSelector)
| CGVKSelectors (a : list mGVKSelector)
| CWatchedResource (a : mWatchedResource)
| CWatchedResources (a : list mWatchedResource)
| CConditions (a : list Condition)
| CLabelSelector (a : SelectorMem)
| CConnectionSpec (a : mConnection)
| CWriterSpec (a : mWriter)
| CSinkPolicy (a : mPolicy)
| CClickHouseSinkSpec (a : mSinkSpec)
| CClickHouseSinkStatus (a : mSinkStatus)
| CClickHouseSink (a : mSink)
| CClickHouseSinks (a : list mSink)
| CClickHouseSinkList (a : mSinkList)
| CStreamRuleSpec (a : mRuleSpec)
| CStreamRuleStatus (a : mRuleStatus)
| CStreamRule (a : mRule)
| CStreamRules (a : list mRule)
| CStreamRuleList (a : mRuleList)
| CClusterStreamRuleSpec (a : mClusterSpec)
| CClusterStreamRule (a : mClusterRule)
| CClusterStreamRules (a : list mClusterRule)
| CClusterStreamRuleList (a : mClusterRuleList)
| CMeta (a : MetaCell).
End memory.
#[global] Arguments mkMObject {MT S T}.
#[global] Arguments mo_TypeMeta {MT S T}.
#[global] Arguments mo_ObjectMeta {MT S T}.
#[global] Arguments mo_Spec {MT S T}.
#[global] Arguments mo_Status {MT S T}.
#[global] Arguments mkMList {MT O}.
#[global] Arguments ml_TypeMeta {MT O}.
#[global] Arguments ml_ListMeta {MT O}.
#[global] Arguments ml_Items {MT O}.

Abbreviation mSink := (mObject mSinkSpec mSinkStatus).
Abbreviation mSinkList := (mList mSink).
Abbreviation mRule := (mObject mRuleSpec mRuleStatus).
Abbreviation mRuleList := (mList mRule).
Abbreviation mClusterRule := (mObject mClusterSpec mRuleStatus).
Abbreviation mClusterRuleList := (mList mClusterRule).

(** What each cell holds. *)
Section cells.
Context `{MT : MetaTypes}.

#[export] Instance Cell_Int32 : Cell cell (Int32) :=
  {| to_cell := CInt32; of_cell c := match c with CInt32 a => Some a | _ => None end; of_to _ := eq_refl |}.
#[export] Instance Cell_Duration : Cell cell (Duration) :=
  {| to_cell := CDuration; of_cell c := match c with CDuration a => Some a | _ => None end; of_to _ := eq_refl |}.
#[export] Instance Cell_Strings : Cell cell (list string) :=
  {| to_cell := CStrings; of_cell c := match c with CStrings a => Some a | _ => None end; of_to _ := eq_refl |}.
#[export] Instance Cell_RedactionRule : Cell cell (RedactionRule) :=
  {| to_cell := CRedactionRule; of_cell c := match c with CRedactionRule a => Some a | _ => None end; of_to _ := eq_refl |}.
#[export] Instance Cell_RedactionRules : Cell cell (list RedactionRule) :=
  {| to_cell := CRedactionRules; of_cell c := match c with CRedactionRules a => Some a | _ => None end; of_to _ := eq_refl |}.
#[export] Instance Cell_SecretReference : Cell cell (SecretReference) :=
  {| to_cell := CSecretReference; of_cell c := match c with CSecretReference a => Some a | _ => None end; of_to _ := eq_refl |}.
#[export] Instance Cell_GVKSelector : Cell cell (mGVKSelector) :=
  {| to_cell := CGVKSelector; of_cell c := match c with CGVKSelector a => Some a | _ => None end; of_to _ := eq_refl |}.
#[export] Instance Cell_GVKSelectors : Cell cell (list mGVKSelector) :=
  {| to_cell := CGVKSelectors; of_cell c := match c with CGVKSelectors a => Some a | _ => None end; of_to _ := eq_refl |}.
#[export] Instance Cell_WatchedResource : Cell cell (mWatchedResource) :=
  {| to_cell := CWatchedResource; of_cell c := match c with CWatchedResource a => Some a | _ => None end; of_to _ := eq_refl |}.
#[export] Instance Cell_WatchedResources : Cell cell (list mWatchedResource) :=
  {| to_cell := CWatchedResources; of_cell c := match c with CWatchedResources a => Some a | _ => None end; of_to _ := eq_refl |}.
#[export] Instance Cell_Conditions : Cell cell (list Condition) :=
  {| to_cell := CConditions; of_cell c := match c with CConditions a => Some a | _ => None end; of_to _ := eq_refl |}.
#[export] Instance Cell_LabelSelector : Cell cell (SelectorMem) :=
  {| to_cell := CLabelSelector; of_cell c := match c with CLabelSelector a => Some a | _ => None end; of_to _ := eq_refl |}.
#[export] Instance Cell_ConnectionSpec : Cell cell (mConnection) :=
  {| to_cell := CConnectionSpec; of_cell c := match c with CConnectionSpec a => Some a | _ => None end; of_to _ := eq_refl |}.
#[export] Instance Cell_WriterSpec : Cell cell (mWriter) :=
  {| to_cell := CWriterSpec; of_cell c := match c with CWriterSpec a => Some a | _ => None end; of_to _ := eq_refl |}.
#[export] Instance Cell_SinkPolicy : Cell cell (mPolicy) :=
  {| to_cell := CSinkPolicy; of_cell c := match c with CSinkPolicy a => Some a | _ => None end; of_to _ := eq_refl |}.
#[export] Instance Cell_ClickHouseSinkSpec : Cell cell (mSinkSpec) :=
  {| to_cell := CClickHouseSinkSpec; of_cell c := match c with CClickHouseSinkSpec a => Some a | _ => None end; of_to _ := eq_refl |}.
#[export] Instance Cell_ClickHouseSinkStatus : Cell cell (mSinkStatus) :=
  {| to_cell := CClickHouseSinkStatus; of_cell c := match c with CClickHouseSinkStatus a => Some a | _ => None end; of_to _ := eq_refl |}.
#[export] Instance Cell_ClickHouseSink : Cell cell (mSink) :=
  {| to_cell := CClickHouseSink; of_cell c := match c with CClickHouseSink a => Some a | _ => None end; of_to _ := eq_refl |}.
#[export] Instance Cell_ClickHouseSinks : Cell cell (list mSink) :=
  {| to_cell := CClickHouseSinks; of_cell c := match c with CClickHouseSinks a => Some a | _ => None end; of_to _ := eq_refl |}.
#[export] Instance Cell_ClickHouseSinkList : Cell cell (mSinkList) :=
  {| to_cell := CClickHouseSinkList; of_cell c := match c with CClickHouseSinkList a => Some a | _ => None end; of_to _ := eq_refl |}.
#[export] Instance Cell_StreamRuleSpec : Cell cell (mRuleSpec) :=
  {| to_cell := CStreamRuleSpec; of_cell c := match c with CStreamRuleSpec a => Some a | _ => None end; of_to _ := eq_refl |}.
#[export] Instance Cell_StreamRuleStatus : Cell cell (mRuleStatus) :=
  {| to_cell := CStreamRuleStatus; of_cell c := match c with CStreamRuleStatus a => Some a | _ => None end; of_to _ := eq_refl |}.
#[export] Instance Cell_StreamRule : Cell cell (mRule) :=
  {| to_cell := CStreamRule; of_cell c := match c with CStreamRule a => Some a | _ => None end; of_to _ := eq_refl |}.
#[export] Instance Cell_StreamRules : Cell cell (list mRule) :=
  {| to_cell := CStreamRules; of_cell c := match c with CStreamRules a => Some a | _ => None end; of_to _ := eq_refl |}.
#[export] Instance Cell_StreamRuleList : Cell cell (mRuleList) :=
  {| to_cell := CStreamRuleList; of_cell c := match c with CStreamRuleList a => Some a | _ => None end; of_to _ := eq_refl |}.
#[export] Instance Cell_ClusterStreamRuleSpec : Cell cell (mClusterSpec) :=
  {| to_cell := CClusterStreamRuleSpec; of_cell c := match c with CClusterStreamRuleSpec a => Some a | _ => None end; of_to _ := eq_refl |}.
#[export] Instance Cell_ClusterStreamRule : Cell cell (mClusterRule) :=
  {| to_cell := CClusterStreamRule; of_cell c := match c with CClusterStreamRule a => Some a | _ => None end; of_to _ := eq_refl |}.
#[export] Instance Cell_ClusterStreamRules : Cell cell (list mClusterRule) :=
  {| to_cell := CClusterStreamRules; of_cell c := match c with CClusterStreamRules a => Some a | _ => None end; of_to _ := eq_refl |}.
#[export] Instance Cell_ClusterStreamRuleList : Cell cell (mClusterRuleList) :=
  {| to_cell := CClusterStreamRuleList; of_cell c := match c with CClusterStreamRuleList a => Some a | _ => None end; of_to _ := eq_refl |}.
#[export] Instance Cell_Meta : Cell cell (MetaCell) :=
  {| to_cell := CMeta; of_cell c := match c with CMeta a => Some a | _ => None end; of_to _ := eq_refl |}.
End cells.

(** ** What it stands for *)

(** apimachinery's types: what they stand for and their copies, which are deep. *)
Class MetaCopy `{MT : MetaTypes} `{LA : LabelSelectorAPI} := {
  MetaVal : Type;
  ListMetaVal : Type;
  Deep_ObjectMeta : Deep cell MetaMem MetaVal;
  Deep_ListMeta : Deep cell ListMetaMem ListMetaVal;
  Deep_LabelSelector : Deep cell SelectorMem LabelSelector;
  ObjectMeta_DeepCopyInto : MetaMem -> H cell MetaMem;
  ListMeta_DeepCopyInto : ListMetaMem -> H cell ListMetaMem;
  LabelSelector_DeepCopyInto : SelectorMem -> H cell SelectorMem;
  Condition_DeepCopyInto : Condition -> H cell Condition;
  ObjectMeta_copies : @deep_copies _ _ _ Deep_ObjectMeta ObjectMeta_DeepCopyInto;
  ListMeta_copies : @deep_copies _ _ _ Deep_ListMeta ListMeta_DeepCopyInto;
  LabelSelector_copies : @deep_copies _ _ _ Deep_LabelSelector LabelSelector_DeepCopyInto;
  Condition_copies : @deep_copies _ _ _ (plain Condition) Condition_DeepCopyInto;
}.

Section values.
Context `{MC : MetaCopy}.

(** A slice stands for a list, nil for the empty one. *)
Definition Deep_slice {A V} (CA : Cell cell (list A)) (D : Deep cell A V) : Deep cell (slice A) (list V) :=
  Deep_via id (default []) (Deep_option (DA := Deep_ptr (CA := CA) (DA := Deep_list (DA := D)))).

Definition Deep_ref {A} (CA : Cell cell A) {V} (D : Deep cell A V) : Deep cell (option (ptr A)) (option V) :=
  Deep_option (DA := Deep_ptr (CA := CA) (DA := D)).

Definition Deep_int32 : Deep cell (option (ptr Int32)) (option Z) :=
  Deep_ref Cell_Int32 (Deep_via id Int32_value (plain Int32)).
Definition Deep_duration : Deep cell (option (ptr Duration)) (option Z) :=
  Deep_ref Cell_Duration (Deep_via id Duration_ns (plain Duration)).
Definition Deep_strings : Deep cell (slice string) (list string) := Deep_slice Cell_Strings (plain string).
Definition Deep_redactions : Deep cell (slice RedactionRule) (list RedactionRule) := Deep_slice Cell_RedactionRules (plain RedactionRule).
Definition Deep_conditions : Deep cell (slice Condition) (list Condition) := Deep_slice Cell_Conditions (plain Condition).
Definition Deep_selector : Deep cell (option (ptr SelectorMem)) (option LabelSelector) := Deep_ref Cell_LabelSelector Deep_LabelSelector.

Definition Deep_GVKSelector : Deep cell mGVKSelector GVKSelector :=
  Deep_via (fun g => ((mg_Group g, mg_Version g), mg_Kinds g)) (fun '((group, version), kinds) => mkGVKSelector group version kinds)
    (Deep_prod (DA := plain (string * string)) (DB := Deep_strings)).

Definition Deep_WatchedResource : Deep cell mWatchedResource WatchedResource :=
  Deep_via (fun r => ((mr_Group r, mr_Version r, mr_Kind r), mr_LabelSelector r))
    (fun '((group, version, kind), selector) => mkResource group version kind selector)
    (Deep_prod (DA := plain (string * string * string)) (DB := Deep_selector)).

Definition Deep_ConnectionSpec : Deep cell mConnection ConnectionSpec :=
  Deep_via (fun c => ((mc_Addr c, mc_Database c, mc_Username c, mc_CredentialsSecretRef c), (mc_DialTimeout c, mc_ReadTimeout c)))
    (fun '((addr, database, username, ref), (dial, read)) => mkConnection addr database username ref dial read)
    (Deep_prod (DA := plain (string * string * string * SecretReference)) (DB := Deep_prod (DA := Deep_duration) (DB := Deep_duration))).

Definition Deep_WriterSpec : Deep cell mWriter WriterSpec :=
  Deep_via (fun w => (mw_QueueSize w, (mw_Workers w, (mw_BatchMaxRows w, (mw_BatchMaxWait w, (mw_EnqueueTimeout w,
              (mw_DrainTimeout w, mw_CheckpointEvery w)))))))
    (fun '(q, (k, (r, (b, (e, (d, c)))))) => mkWriterSpec q k r b e d c)
    (Deep_prod (DA := Deep_int32) (DB := Deep_prod (DA := Deep_int32) (DB := Deep_prod (DA := Deep_int32)
      (DB := Deep_prod (DA := Deep_duration) (DB := Deep_prod (DA := Deep_duration)
        (DB := Deep_prod (DA := Deep_duration) (DB := Deep_int32))))))).

Definition Deep_SinkPolicy : Deep cell mPolicy SinkPolicy :=
  Deep_via (fun p => (mp_AllowedGVKs p, mp_Redaction p)) (fun '(allowed, redaction) => mkSinkPolicy allowed redaction)
    (Deep_prod (DA := Deep_slice Cell_GVKSelectors Deep_GVKSelector) (DB := Deep_redactions)).

Definition Deep_SinkSpec : Deep cell mSinkSpec ClickHouseSinkSpec :=
  Deep_via (fun s => (ms_Connection s, (ms_Writer s, ms_Policy s))) (fun '(cn, (ws, p)) => mkSinkSpec cn ws p)
    (Deep_prod (DA := Deep_ConnectionSpec) (DB := Deep_prod (DA := Deep_WriterSpec) (DB := Deep_SinkPolicy))).

Definition Deep_SinkStatus : Deep cell mSinkStatus ClickHouseSinkStatus :=
  Deep_via (fun s => (mss_ObservedGeneration s, mss_Conditions s)) (fun '(generation, conditions) => mkSinkStatus conditions generation)
    (Deep_prod (DA := plain Z) (DB := Deep_conditions)).

Definition Deep_RuleStatus : Deep cell mRuleStatus StreamRuleStatus :=
  Deep_via (fun s => ((mst_ActiveWatches s, mst_ObservedGeneration s), mst_Conditions s))
    (fun '((watches, generation), conditions) => mkRuleStatus conditions watches generation)
    (Deep_prod (DA := plain (Z * Z)) (DB := Deep_conditions)).

Definition Deep_RuleSpec : Deep cell mRuleSpec StreamRuleSpec :=
  Deep_via (fun s => (mrs_SinkRef s, (mrs_Resources s, mrs_ExtraRedaction s)))
    (fun '(sinkRef, (resources, extra)) => mkRuleSpec sinkRef resources extra)
    (Deep_prod (DA := plain string) (DB := Deep_prod (DA := Deep_slice Cell_WatchedResources Deep_WatchedResource) (DB := Deep_redactions))).

Definition Deep_ClusterSpec : Deep cell mClusterSpec (StreamRuleSpec * option LabelSelector) :=
  Deep_via (fun s => (mcs_StreamRuleSpec s, mcs_NamespaceSelector s)) id (Deep_prod (DA := Deep_RuleSpec) (DB := Deep_selector)).

(** A resource stands for its type, metadata, spec and status; a list for its items. *)
Definition Deep_object {S T V W} (DS : Deep cell S V) (DT : Deep cell T W) : Deep cell (mObject S T) (TypeMeta * (MetaVal * (V * W))) :=
  Deep_via (fun o => (mo_TypeMeta o, (mo_ObjectMeta o, (mo_Spec o, mo_Status o)))) id
    (Deep_prod (DA := plain TypeMeta) (DB := Deep_prod (DA := Deep_ObjectMeta) (DB := Deep_prod (DA := DS) (DB := DT)))).

Definition Deep_items {O V} (CA : Cell cell (list O)) (D : Deep cell O V) : Deep cell (mList O) (TypeMeta * (ListMetaVal * list V)) :=
  Deep_via (fun l => (ml_TypeMeta l, (ml_ListMeta l, ml_Items l))) id
    (Deep_prod (DA := plain TypeMeta) (DB := Deep_prod (DA := Deep_ListMeta) (DB := Deep_slice CA D))).

Definition Deep_Sink := Deep_object Deep_SinkSpec Deep_SinkStatus.
Definition Deep_SinkList := Deep_items Cell_ClickHouseSinks Deep_Sink.
Definition Deep_Rule := Deep_object Deep_RuleSpec Deep_RuleStatus.
Definition Deep_RuleList := Deep_items Cell_StreamRules Deep_Rule.
Definition Deep_ClusterRule := Deep_object Deep_ClusterSpec Deep_RuleStatus.
Definition Deep_ClusterRuleList := Deep_items Cell_ClusterStreamRules Deep_ClusterRule.
End values.

(** ** The generated functions *)

Section copies.
Context `{MC : MetaCopy}.

(** [*out = new(T); **out = **in], and [make] with [copy] for a slice of plain values:
    under the guard that the field is not nil. *)
Definition copy_value {A} {CA : Cell cell A} (in_ : option (ptr A)) : H cell (option (ptr A)) := copy_option (copy_ptr mret) in_.

(** [make], and the elements' [DeepCopyInto] in order, under the same guard. *)
Definition copy_slice {A} {CA : Cell cell (list A)} (into : A -> H cell A) (in_ : slice A) : H cell (slice A) :=
  copy_option (copy_ptr (copy_elements into)) in_.

Definition RedactionRule_DeepCopyInto (in_ : RedactionRule) : H cell RedactionRule := mret in_.

Definition SecretReference_DeepCopyInto (in_ : SecretReference) : H cell SecretReference := mret in_.

Definition GVKSelector_DeepCopyInto (in_ : mGVKSelector) : H cell mGVKSelector :=
  kinds ← copy_value (mg_Kinds in_);
  mret (mkMGVKSelector (mg_Group in_) (mg_Version in_) kinds).

Definition WatchedResource_DeepCopyInto (in_ : mWatchedResource) : H cell mWatchedResource :=
  selector ← copy_option (copy_ptr LabelSelector_DeepCopyInto) (mr_LabelSelector in_);
  mret (mkMResource (mr_Group in_) (mr_Version in_) (mr_Kind in_) selector).

Definition ConnectionSpec_DeepCopyInto (in_ : mConnection) : H cell mConnection :=
  dial ← copy_value (mc_DialTimeout in_);
  read ← copy_value (mc_ReadTimeout in_);
  mret (mkMConnection (mc_Addr in_) (mc_Database in_) (mc_Username in_) (mc_CredentialsSecretRef in_) dial read).

Definition WriterSpec_DeepCopyInto (in_ : mWriter) : H cell mWriter :=
  queueSize ← copy_value (mw_QueueSize in_);
  workers ← copy_value (mw_Workers in_);
  batchMaxRows ← copy_value (mw_BatchMaxRows in_);
  batchMaxWait ← copy_value (mw_BatchMaxWait in_);
  enqueueTimeout ← copy_value (mw_EnqueueTimeout in_);
  drainTimeout ← copy_value (mw_DrainTimeout in_);
  checkpointEvery ← copy_value (mw_CheckpointEvery in_);
  mret (mkMWriter queueSize workers batchMaxRows batchMaxWait enqueueTimeout drainTimeout checkpointEvery).

Definition SinkPolicy_DeepCopyInto (in_ : mPolicy) : H cell mPolicy :=
  allowed ← copy_slice GVKSelector_DeepCopyInto (mp_AllowedGVKs in_);
  redaction ← copy_value (mp_Redaction in_);
  mret (mkMPolicy allowed redaction).

Definition ClickHouseSinkSpec_DeepCopyInto (in_ : mSinkSpec) : H cell mSinkSpec :=
  connection ← ConnectionSpec_DeepCopyInto (ms_Connection in_);
  writer ← WriterSpec_DeepCopyInto (ms_Writer in_);
  policy ← SinkPolicy_DeepCopyInto (ms_Policy in_);
  mret (mkMSinkSpec connection writer policy).

Definition ClickHouseSinkStatus_DeepCopyInto (in_ : mSinkStatus) : H cell mSinkStatus :=
  conditions ← copy_slice Condition_DeepCopyInto (mss_Conditions in_);
  mret (mkMSinkStatus conditions (mss_ObservedGeneration in_)).

Definition ClickHouseSink_DeepCopyInto (in_ : mSink) : H cell mSink :=
  metadata ← ObjectMeta_DeepCopyInto (mo_ObjectMeta in_);
  spec ← ClickHouseSinkSpec_DeepCopyInto (mo_Spec in_);
  status ← ClickHouseSinkStatus_DeepCopyInto (mo_Status in_);
  mret (mkMObject (mo_TypeMeta in_) metadata spec status).

Definition ClickHouseSinkList_DeepCopyInto (in_ : mSinkList) : H cell mSinkList :=
  metadata ← ListMeta_DeepCopyInto (ml_ListMeta in_);
  items ← copy_slice ClickHouseSink_DeepCopyInto (ml_Items in_);
  mret (mkMList (ml_TypeMeta in_) metadata items).

Definition StreamRuleSpec_DeepCopyInto (in_ : mRuleSpec) : H cell mRuleSpec :=
  resources ← copy_slice WatchedResource_DeepCopyInto (mrs_Resources in_);
  extra ← copy_value (mrs_ExtraRedaction in_);
  mret (mkMRuleSpec (mrs_SinkRef in_) resources extra).

Definition StreamRuleStatus_DeepCopyInto (in_ : mRuleStatus) : H cell mRuleStatus :=
  conditions ← copy_slice Condition_DeepCopyInto (mst_Conditions in_);
  mret (mkMRuleStatus conditions (mst_ActiveWatches in_) (mst_ObservedGeneration in_)).

Definition StreamRule_DeepCopyInto (in_ : mRule) : H cell mRule :=
  metadata ← ObjectMeta_DeepCopyInto (mo_ObjectMeta in_);
  spec ← StreamRuleSpec_DeepCopyInto (mo_Spec in_);
  status ← StreamRuleStatus_DeepCopyInto (mo_Status in_);
  mret (mkMObject (mo_TypeMeta in_) metadata spec status).

Definition StreamRuleList_DeepCopyInto (in_ : mRuleList) : H cell mRuleList :=
  metadata ← ListMeta_DeepCopyInto (ml_ListMeta in_);
  items ← copy_slice StreamRule_DeepCopyInto (ml_Items in_);
  mret (mkMList (ml_TypeMeta in_) metadata items).

Definition ClusterStreamRuleSpec_DeepCopyInto (in_ : mClusterSpec) : H cell mClusterSpec :=
  spec ← StreamRuleSpec_DeepCopyInto (mcs_StreamRuleSpec in_);
  selector ← copy_option (copy_ptr LabelSelector_DeepCopyInto) (mcs_NamespaceSelector in_);
  mret (mkMClusterSpec spec selector).

Definition ClusterStreamRule_DeepCopyInto (in_ : mClusterRule) : H cell mClusterRule :=
  metadata ← ObjectMeta_DeepCopyInto (mo_ObjectMeta in_);
  spec ← ClusterStreamRuleSpec_DeepCopyInto (mo_Spec in_);
  status ← StreamRuleStatus_DeepCopyInto (mo_Status in_);
  mret (mkMObject (mo_TypeMeta in_) metadata spec status).

Definition ClusterStreamRuleList_DeepCopyInto (in_ : mClusterRuleList) : H cell mClusterRuleList :=
  metadata ← ListMeta_DeepCopyInto (ml_ListMeta in_);
  items ← copy_slice ClusterStreamRule_DeepCopyInto (ml_Items in_);
  mret (mkMList (ml_TypeMeta in_) metadata items).

(** [DeepCopy]: nil for nil, else [new] and [DeepCopyInto]. *)
Definition deep_copy {A} {CA : Cell cell A} (into : A -> H cell A) (in_ : option (ptr A)) : H cell (option (ptr A)) :=
  match in_ with
  | None => mret None
  | Some p => out ← copy_ptr into p; mret (Some out)
  end.

Definition RedactionRule_DeepCopy := deep_copy RedactionRule_DeepCopyInto.
Definition SecretReference_DeepCopy := deep_copy SecretReference_DeepCopyInto.
Definition GVKSelector_DeepCopy := deep_copy GVKSelector_DeepCopyInto.
Definition WatchedResource_DeepCopy := deep_copy WatchedResource_DeepCopyInto.
Definition ConnectionSpec_DeepCopy := deep_copy ConnectionSpec_DeepCopyInto.
Definition WriterSpec_DeepCopy := deep_copy WriterSpec_DeepCopyInto.
Definition SinkPolicy_DeepCopy := deep_copy SinkPolicy_DeepCopyInto.
Definition ClickHouseSinkSpec_DeepCopy := deep_copy ClickHouseSinkSpec_DeepCopyInto.
Definition ClickHouseSinkStatus_DeepCopy := deep_copy ClickHouseSinkStatus_DeepCopyInto.
Definition ClickHouseSink_DeepCopy := deep_copy ClickHouseSink_DeepCopyInto.
Definition ClickHouseSinkList_DeepCopy := deep_copy ClickHouseSinkList_DeepCopyInto.
Definition StreamRuleSpec_DeepCopy := deep_copy StreamRuleSpec_DeepCopyInto.
Definition StreamRuleStatus_DeepCopy := deep_copy StreamRuleStatus_DeepCopyInto.
Definition StreamRule_DeepCopy := deep_copy StreamRule_DeepCopyInto.
Definition StreamRuleList_DeepCopy := deep_copy StreamRuleList_DeepCopyInto.
Definition ClusterStreamRuleSpec_DeepCopy := deep_copy ClusterStreamRuleSpec_DeepCopyInto.
Definition ClusterStreamRule_DeepCopy := deep_copy ClusterStreamRule_DeepCopyInto.
Definition ClusterStreamRuleList_DeepCopy := deep_copy ClusterStreamRuleList_DeepCopyInto.

(** A [runtime.Object]: nil, or a pointer of one of the types, which may itself be nil
    and is then not the nil object. *)
Inductive runtime_Object :=
| nil_Object
| ClickHouseSink_Object (p : option (ptr mSink))
| ClickHouseSinkList_Object (p : option (ptr mSinkList))
| StreamRule_Object (p : option (ptr mRule))
| StreamRuleList_Object (p : option (ptr mRuleList))
| ClusterStreamRule_Object (p : option (ptr mClusterRule))
| ClusterStreamRuleList_Object (p : option (ptr mClusterRuleList)).

(** [if c := in.DeepCopy(); c != nil { return c }; return nil]. *)
Definition deep_copy_object {A} (as_object : option (ptr A) -> runtime_Object) (copy : option (ptr A) -> H cell (option (ptr A)))
    (in_ : option (ptr A)) : H cell runtime_Object :=
  c ← copy in_;
  mret (match c with Some _ => as_object c | None => nil_Object end).

Definition ClickHouseSink_DeepCopyObject := deep_copy_object ClickHouseSink_Object ClickHouseSink_DeepCopy.
Definition ClickHouseSinkList_DeepCopyObject := deep_copy_object ClickHouseSinkList_Object ClickHouseSinkList_DeepCopy.
Definition StreamRule_DeepCopyObject := deep_copy_object StreamRule_Object StreamRule_DeepCopy.
Definition StreamRuleList_DeepCopyObject := deep_copy_object StreamRuleList_Object StreamRuleList_DeepCopy.
Definition ClusterStreamRule_DeepCopyObject := deep_copy_object ClusterStreamRule_Object ClusterStreamRule_DeepCopy.
Definition ClusterStreamRuleList_DeepCopyObject := deep_copy_object ClusterStreamRuleList_Object ClusterStreamRuleList_DeepCopy.

(** ** They are deep *)

Lemma copies_value {A V} (CA : Cell cell A) (value : A -> V) :
  @deep_copies _ _ _ (Deep_ref CA (Deep_via id value (plain A))) copy_value.
Proof. apply copies_option, copies_ptr, (copies_via _ id id _ _ mret); [done|apply copies_plain|done]. Qed.

(** A slice of plain values is copied as a block. *)
Lemma copies_values {A} (CA : Cell cell (list A)) : @deep_copies _ _ _ (Deep_slice CA (plain A)) copy_value.
Proof.
  apply (copies_via _ id id _ _ copy_value); [done| |by intros a h; cbn; destruct (copy_value a h) as [[??]|]].
  apply copies_option, copies_ptr. intros h l vs Hd. exists h, l. split_and!; [done..|]. cbn. clear. induction l; set_solver.
Qed.

Lemma copies_slice {A V} (CA : Cell cell (list A)) (D : Deep cell A V) into :
  @deep_copies _ _ _ D into -> @deep_copies _ _ _ (Deep_slice CA D) (copy_slice into).
Proof.
  intros Hi. apply (copies_via _ id id _ _ (copy_slice into)); [done| |by intros a h; cbn; destruct (copy_slice into a h) as [[??]|]].
  by apply copies_option, copies_ptr, copies_elements.
Qed.

Lemma copies_selector : @deep_copies _ _ _ Deep_selector (copy_option (copy_ptr LabelSelector_DeepCopyInto)).
Proof. apply copies_option, copies_ptr, LabelSelector_copies. Qed.

Lemma copies_conditions : @deep_copies _ _ _ Deep_conditions (copy_slice Condition_DeepCopyInto).
Proof. apply copies_slice, Condition_copies. Qed.

Create HintDb deep.
#[local] Hint Resolve copies_plain copies_pair copies_value copies_selector copies_conditions ObjectMeta_copies ListMeta_copies : deep.
#[local] Hint Resolve copies_values | 3 : deep.
#[local] Hint Resolve copies_slice | 4 : deep.

(** A generated function is its fields' copies in order, put back together by [build]. *)
#[local] Ltac fieldwise into build :=
  eapply (copies_via _ _ build);
  [ by intros; repeat case_match; simplify_eq/=
  | eauto 10 with deep
  | intros [] h; unfold into, copy_pair, mbind, H_bind, mret, H_ret; cbn;
    repeat (case_match; simplify_eq/=); done ].

Lemma GVKSelector_copies : @deep_copies _ _ _ Deep_GVKSelector GVKSelector_DeepCopyInto.
Proof. fieldwise GVKSelector_DeepCopyInto (fun '((group, version), kinds) => mkMGVKSelector group version kinds). Qed.
#[local] Hint Resolve GVKSelector_copies : deep.

Lemma WatchedResource_copies : @deep_copies _ _ _ Deep_WatchedResource WatchedResource_DeepCopyInto.
Proof. fieldwise WatchedResource_DeepCopyInto (fun '((group, version, kind), selector) => mkMResource group version kind selector). Qed.
#[local] Hint Resolve WatchedResource_copies : deep.

Lemma ConnectionSpec_copies : @deep_copies _ _ _ Deep_ConnectionSpec ConnectionSpec_DeepCopyInto.
Proof. fieldwise ConnectionSpec_DeepCopyInto (fun '((addr, database, username, ref), (dial, read)) => mkMConnection addr database username ref dial read). Qed.
#[local] Hint Resolve ConnectionSpec_copies : deep.

Lemma WriterSpec_copies : @deep_copies _ _ _ Deep_WriterSpec WriterSpec_DeepCopyInto.
Proof. fieldwise WriterSpec_DeepCopyInto (fun '(q, (k, (r, (b, (e, (d, c)))))) => mkMWriter q k r b e d c). Qed.
#[local] Hint Resolve WriterSpec_copies : deep.

Lemma SinkPolicy_copies : @deep_copies _ _ _ Deep_SinkPolicy SinkPolicy_DeepCopyInto.
Proof. fieldwise SinkPolicy_DeepCopyInto (fun '(allowed, redaction) => mkMPolicy allowed redaction). Qed.
#[local] Hint Resolve SinkPolicy_copies : deep.

Lemma ClickHouseSinkSpec_copies : @deep_copies _ _ _ Deep_SinkSpec ClickHouseSinkSpec_DeepCopyInto.
Proof. fieldwise ClickHouseSinkSpec_DeepCopyInto (fun '(connection, (writer, policy)) => mkMSinkSpec connection writer policy). Qed.
#[local] Hint Resolve ClickHouseSinkSpec_copies : deep.

Lemma ClickHouseSinkStatus_copies : @deep_copies _ _ _ Deep_SinkStatus ClickHouseSinkStatus_DeepCopyInto.
Proof. fieldwise ClickHouseSinkStatus_DeepCopyInto (fun '(generation, conditions) => mkMSinkStatus conditions generation). Qed.
#[local] Hint Resolve ClickHouseSinkStatus_copies : deep.

Lemma StreamRuleSpec_copies : @deep_copies _ _ _ Deep_RuleSpec StreamRuleSpec_DeepCopyInto.
Proof. fieldwise StreamRuleSpec_DeepCopyInto (fun '(sinkRef, (resources, extra)) => mkMRuleSpec sinkRef resources extra). Qed.
#[local] Hint Resolve StreamRuleSpec_copies : deep.

Lemma StreamRuleStatus_copies : @deep_copies _ _ _ Deep_RuleStatus StreamRuleStatus_DeepCopyInto.
Proof. fieldwise StreamRuleStatus_DeepCopyInto (fun '((watches, generation), conditions) => mkMRuleStatus conditions watches generation). Qed.
#[local] Hint Resolve StreamRuleStatus_copies : deep.

Lemma ClusterStreamRuleSpec_copies : @deep_copies _ _ _ Deep_ClusterSpec ClusterStreamRuleSpec_DeepCopyInto.
Proof. fieldwise ClusterStreamRuleSpec_DeepCopyInto (fun '(spec, selector) => mkMClusterSpec spec selector). Qed.
#[local] Hint Resolve ClusterStreamRuleSpec_copies : deep.

Lemma ClickHouseSink_copies : @deep_copies _ _ _ Deep_Sink ClickHouseSink_DeepCopyInto.
Proof. fieldwise ClickHouseSink_DeepCopyInto (fun '(kind, (metadata, (spec, status))) => mkMObject kind metadata spec status : mSink). Qed.
#[local] Hint Resolve ClickHouseSink_copies : deep.

Lemma StreamRule_copies : @deep_copies _ _ _ Deep_Rule StreamRule_DeepCopyInto.
Proof. fieldwise StreamRule_DeepCopyInto (fun '(kind, (metadata, (spec, status))) => mkMObject kind metadata spec status : mRule). Qed.
#[local] Hint Resolve StreamRule_copies : deep.

Lemma ClusterStreamRule_copies : @deep_copies _ _ _ Deep_ClusterRule ClusterStreamRule_DeepCopyInto.
Proof. fieldwise ClusterStreamRule_DeepCopyInto (fun '(kind, (metadata, (spec, status))) => mkMObject kind metadata spec status : mClusterRule). Qed.
#[local] Hint Resolve ClusterStreamRule_copies : deep.

Lemma ClickHouseSinkList_copies : @deep_copies _ _ _ Deep_SinkList ClickHouseSinkList_DeepCopyInto.
Proof. fieldwise ClickHouseSinkList_DeepCopyInto (fun '(kind, (metadata, items)) => mkMList kind metadata items : mSinkList). Qed.
#[local] Hint Resolve ClickHouseSinkList_copies : deep.

Lemma StreamRuleList_copies : @deep_copies _ _ _ Deep_RuleList StreamRuleList_DeepCopyInto.
Proof. fieldwise StreamRuleList_DeepCopyInto (fun '(kind, (metadata, items)) => mkMList kind metadata items : mRuleList). Qed.
#[local] Hint Resolve StreamRuleList_copies : deep.

Lemma ClusterStreamRuleList_copies : @deep_copies _ _ _ Deep_ClusterRuleList ClusterStreamRuleList_DeepCopyInto.
Proof. fieldwise ClusterStreamRuleList_DeepCopyInto (fun '(kind, (metadata, items)) => mkMList kind metadata items : mClusterRuleList). Qed.
#[local] Hint Resolve ClusterStreamRuleList_copies : deep.

(** ** Objects *)

(** The copy of an object: the nil object for nil, never a typed nil; else the object at
    a new pointer, apart from the one copied. *)
Definition copied_apart {A V} (CA : Cell cell A) (D : Deep cell A V) (as_object : option (ptr A) -> runtime_Object)
    (copy : option (ptr A) -> H cell runtime_Object) : Prop :=
  (forall h, copy None h = Some (h, nil_Object)) /\
  (forall h p v, denote h p = Some v ->
     exists h' q, copy (Some p) h = Some (h', as_object (Some q)) /\ apart h' p q v).

Lemma object_apart {A V} (CA : Cell cell A) (D : Deep cell A V) as_object into :
  @deep_copies _ _ _ D into -> copied_apart CA D as_object (deep_copy_object as_object (deep_copy into)).
Proof.
  intros Hi. split; [done|]. intros h p v Hd.
  destruct (copies_apart (copy_ptr into) h p v) as (h' & q & E & Ha); [by apply copies_ptr|done|].
  exists h', q. split; [|done]. unfold deep_copy_object, deep_copy, mbind, H_bind. by rewrite E.
Qed.

(** C25. The custom resources and their lists, as the client's cache hands them out: a
    copy of nil is the nil object and not a typed nil; any other copy ends, is of the
    same type, stands for the same resource, and shares nothing with the one it was made
    from, so whatever a controller writes into its copy the cached resource stays as it
    was, and the other way round. *)
Theorem objects_copied_apart :
  copied_apart Cell_ClickHouseSink Deep_Sink ClickHouseSink_Object ClickHouseSink_DeepCopyObject /\
  copied_apart Cell_ClickHouseSinkList Deep_SinkList ClickHouseSinkList_Object ClickHouseSinkList_DeepCopyObject /\
  copied_apart Cell_StreamRule Deep_Rule StreamRule_Object StreamRule_DeepCopyObject /\
  copied_apart Cell_StreamRuleList Deep_RuleList StreamRuleList_Object StreamRuleList_DeepCopyObject /\
  copied_apart Cell_ClusterStreamRule Deep_ClusterRule ClusterStreamRule_Object ClusterStreamRule_DeepCopyObject /\
  copied_apart Cell_ClusterStreamRuleList Deep_ClusterRuleList ClusterStreamRuleList_Object ClusterStreamRuleList_DeepCopyObject.
Proof. split_and!; apply object_apart; eauto with deep. Qed.
End copies.

(** ** Registration *)

(** [scheme.Builder]: the group and version, and the types added to the scheme under
    it, by name. *)
Record Builder := mkBuilder { sb_GroupVersion : string * string; sb_types : list string }.

Definition GroupVersion : string * string := ("kuberecord.io", "v1alpha1").
Definition SchemeBuilder : Builder := mkBuilder GroupVersion [].
Definition Register (types : list string) (b : Builder) : Builder := mkBuilder (sb_GroupVersion b) (sb_types b ++ types).

(** The packages' [init] functions, run in the order of their files. *)
Definition init_clickhousesink (b : Builder) : Builder := Register ["ClickHouseSink"; "ClickHouseSinkList"] b.
Definition init_clusterstreamrule (b : Builder) : Builder := Register ["ClusterStreamRule"; "ClusterStreamRuleList"] b.
Definition init_streamrule (b : Builder) : Builder := Register ["StreamRule"; "StreamRuleList"] b.
Definition registered : Builder := init_streamrule (init_clusterstreamrule (init_clickhousesink SchemeBuilder)).

(** The type of an object. *)
Definition object_type `{MetaTypes} (o : runtime_Object) : option string :=
  match o with
  | nil_Object => None
  | ClickHouseSink_Object _ => Some "ClickHouseSink"
  | ClickHouseSinkList_Object _ => Some "ClickHouseSinkList"
  | StreamRule_Object _ => Some "StreamRule"
  | StreamRuleList_Object _ => Some "StreamRuleList"
  | ClusterStreamRule_Object _ => Some "ClusterStreamRule"
  | ClusterStreamRuleList_Object _ => Some "ClusterStreamRuleList"
  end.

(** Every object that can be copied has its type in the scheme, once. *)
Lemma objects_registered `{MetaTypes} (o : runtime_Object) t :
  object_type o = Some t -> t ∈ sb_types registered /\ NoDup (sb_types registered).
Proof. intros Ho. split; [destruct o; simplify_eq/=; set_solver|]. apply (bool_decide_unpack _). vm_compute. done. Qed.

(** ** Witness *)

(** Metadata as labels behind a pointer, a selector as plain text; a sink's list whose one
    item has a queue size, an allow list and a condition. *)
Module DeepCopySamples.
#[local] Instance LabelsMeta : MetaTypes :=
  {| MetaMem := option (ptr (list string)); ListMetaMem := string; SelectorMem := string; MetaCell := False |}.

#[local] Instance TextSelector : LabelSelectorAPI := {| LabelSelector := string; LabelSelectorAsSelector s := Ok s |}.

#[local] Instance LabelsCopy : MetaCopy.
Proof.
  refine {| MetaVal := list string; ListMetaVal := string;
            Deep_ObjectMeta := @Deep_strings LabelsMeta; Deep_ListMeta := plain string; Deep_LabelSelector := plain string;
            ObjectMeta_DeepCopyInto := copy_value; ListMeta_DeepCopyInto := mret;
            LabelSelector_DeepCopyInto := mret; Condition_DeepCopyInto := mret |}.
  - apply copies_values.
  - apply copies_plain.
  - apply copies_plain.
  - apply copies_plain.
Defined.

Definition held_sink : mSink :=
  mkMObject (mkTypeMeta "ClickHouseSink" "kuberecord.io/v1alpha1") (Some (Ptr 5))
    (mkMSinkSpec (mkMConnection "ch:9000" "kubestream" "writer" (mkSecretReference "ch" "ops") None None)
       (mkMWriter (Some (Ptr 0)) None None None None None None) (mkMPolicy (Some (Ptr 2)) None))
    (mkMSinkStatus (Some (Ptr 3)) 1).

Definition held : gmap nat cell :=
  {[ 0 := CInt32 (mkInt32 500); 1 := CStrings ["Pod"]; 2 := CGVKSelectors [mkMGVKSelector "" "v1" (Some (Ptr 1))];
     3 := CConditions [mkCondition "Ready" "True" "Connected" "" 1 0]; 4 := CClickHouseSink held_sink; 5 := CStrings ["app"] ]}.

Definition held_value :=
  (mkTypeMeta "ClickHouseSink" "kuberecord.io/v1alpha1",
   (["app"],
    (mkSinkSpec (mkConnection "ch:9000" "kubestream" "writer" (mkSecretReference "ch" "ops") None None)
       (mkWriterSpec (Some 500%Z) None None None None None None) (mkSinkPolicy [mkGVKSelector "" "v1" ["Pod"]] []),
     mkSinkStatus [mkCondition "Ready" "True" "Connected" "" 1 0] 1))).

Lemma objects_copied_apart_witness :
  exists h' q, ClickHouseSink_DeepCopyObject (Some (Ptr 4)) held = Some (h', ClickHouseSink_Object (Some q)) /\
    apart (H0 := Deep_ptr (CA := Cell_ClickHouseSink) (DA := Deep_Sink)) h' (Ptr 4) q held_value.
Proof. apply objects_copied_apart. reflexivity. Defined.
End DeepCopySamples.
