(* ===== verification/RuleReconciler.v ===== *)
(** * RuleReconciler: rules to watch targets

    Models [internal/controller/streamrule_controller.go] and [redaction.go]: one
    reconcile pass of either rule resource (the gates for sink, policy, namespaces,
    kinds and access, the registry update, the status and the event), the requests
    that wake a rule, and the [Parker] that turns a deleted sink into wake-ups.

    What the API server answers during a pass is the environment [ruleEnv]: the
    rule, the sink, the namespaces, the access reviews (each asked with its number,
    so that the same question may be answered differently later in the pass), the
    REST mapper, and the attempts of the status update. The registry, the resolver
    and the gauge are the models of their own files. *)

From Stdlib Require Import ZArith Lia.
From stdpp Require Import base gmap strings list sorting.
From S2P Require Import Prelude Identity Json Redact Registry Interest Resolver Conditions ApiTypes.

(** ** Constants *)

Definition defaultRuleResyncPeriod : Z := 120 * second.
Definition accessVerbs : list string := ["get"; "list"; "watch"].
Definition deniedGroup : string := "".
Definition deniedKind : string := "Secret".
Definition maxConditionMessage : nat := 4096.

Definition ReasonSecretsDenied : string := "SecretsDenied".
Definition ReasonNotInAllowList : string := "NotInAllowList".
Definition ReasonAllResourcesPermitted : string := "AllResourcesPermitted".
Definition ReasonAllVerbsGranted : string := "AllVerbsGranted".
Definition ReasonMissingPermissions : string := "MissingPermissions".
Definition ReasonAccessReviewFailed : string := "AccessReviewFailed".
Definition ReasonAllKindsResolved : string := "AllKindsResolved".
Definition ReasonInvalidSelector : string := "InvalidSelector".
Definition ReasonNamespaceSelectorInvalid : string := "NamespaceSelectorInvalid".
Definition ReasonNamespacesUnavailable : string := "NamespacesUnavailable".
Definition ReasonSinkMissing : string := "SinkMissing".
Definition ReasonSinkNotReady : string := "SinkNotReady".
Definition ReasonKindsUnresolved : string := "KindsUnresolved".
Definition ReasonNotEvaluated : string := "NotEvaluated".
Definition ReasonStreaming : string := "Streaming".

(** [sink.ProbeReasonUnreachable]. *)
Definition unreachableReason : string := "Unreachable".

Definition ruleReadyOrder : list string := [ConditionPolicyAllowed; ConditionResourceResolved; ConditionRBACGranted].

(** ** Redaction *)

(** [slices.Compact]: of a run of equal elements the first is kept. *)
Fixpoint compact (l : list string) : list string :=
  match l with
  | [] => []
  | x :: l' =>
      match l' with
      | [] => [x]
      | y :: _ => if String.eqb x y then compact l' else x :: compact l'
      end
  end.

Definition redaction_path (rule : RedactionRule) : string :=
  if negb (String.eqb (rr_Annotation rule) "") then AnnotationRedactionPath (rr_Annotation rule) else rr_FieldPath rule.

Definition newline_string : string := String newline "".


Definition canonicalRedaction (sinkFloor ruleExtra : list RedactionRule) : string :=
  join newline_string
    (compact (sort_strings (filter (fun path => path <> "") (map redaction_path (sinkFloor ++ ruleExtra))))).

(** ** Messages *)

Definition gvkString (group version kind : string) : string :=
  if String.eqb group "" then version +:+ "/" +:+ kind else group +:+ "/" +:+ version +:+ "/" +:+ kind.

(** The suffix of a shortened message: an ellipsis is three bytes. *)
Definition truncated_suffix : string :=
  " [" +:+ String (Ascii.ascii_of_nat 226) (String (Ascii.ascii_of_nat 128) (String (Ascii.ascii_of_nat 166) "truncated]")).

Definition truncateMessage (message : string) : string :=
  if Nat.leb (String.length message) maxConditionMessage then message
  else String.substring 0 (maxConditionMessage - String.length truncated_suffix) message +:+ truncated_suffix.

(** ** Policy *)

Record policyDenial := mkDenial { pd_reason : string; pd_message : string }.

Section reconciler.
Context `{SelectorAPI, LabelSelectorAPI, SchemaAPI, ConditionAPI}.

Definition policyAdmits (allowed : list GVKSelector) (res : WatchedResource) : bool :=
  existsb (fun sel =>
    String.eqb (gs_Group sel) (wr_Group res) && String.eqb (gs_Version sel) (wr_Version res) &&
    (bool_decide ("*" ∈ gs_Kinds sel) || bool_decide (wr_Kind res ∈ gs_Kinds sel))) allowed.

Definition is_secret (group kind : string) : bool := String.eqb group deniedGroup && String.eqb kind deniedKind.

Fixpoint deny_secrets (resources : list WatchedResource) : option policyDenial :=
  match resources with
  | [] => None
  | res :: rest =>
      if is_secret (wr_Group res) (wr_Kind res)
      then Some (mkDenial ReasonSecretsDenied
             (gvkString (wr_Group res) (wr_Version res) (wr_Kind res) +:+
              " is never watchable in v1alpha1: Secrets are denied in code and no sink policy can admit them"))
      else deny_secrets rest
  end.

Fixpoint deny_unlisted (allowed : list GVKSelector) (resources : list WatchedResource) : option policyDenial :=
  match resources with
  | [] => None
  | res :: rest =>
      if policyAdmits allowed res then deny_unlisted allowed rest
      else Some (mkDenial ReasonNotInAllowList
             (gvkString (wr_Group res) (wr_Version res) (wr_Kind res) +:+ " is not in the sink's spec.policy.allowedGVKs"))
  end.

Definition checkPolicy (resources : list WatchedResource) (policy : SinkPolicy) : option policyDenial :=
  match deny_secrets resources with
  | Some d => Some d
  | None => match sp_AllowedGVKs policy with [] => None | allowed => deny_unlisted allowed resources end
  end.

(** ** The two rule kinds *)

Record ruleKind := mkRuleKind {
  rk_kind : string;
  rk_controllerName : string;
  rk_scope : RuleScope;
  rk_spec : ruleObject -> StreamRuleSpec;
  rk_status : ruleObject -> StreamRuleStatus;
  rk_namespaceSelector : ruleObject -> option LabelSelector;
}.

(** What the descriptors return for an object of the other type. *)
Definition zeroSpec : StreamRuleSpec := mkRuleSpec "" [] [].
Definition zeroStatus : StreamRuleStatus := mkRuleStatus [] 0 0.

Definition streamRuleKind : ruleKind :=
  mkRuleKind kindStreamRule "streamrule" NamespacedRule
    (fun obj => match obj with StreamRule _ spec _ => spec | _ => zeroSpec end)
    (fun obj => match obj with StreamRule _ _ status => status | _ => zeroStatus end)
    (fun _ => None).

Definition clusterStreamRuleKind : ruleKind :=
  mkRuleKind kindClusterStreamRule "clusterstreamrule" ClusterRule
    (fun obj => match obj with ClusterStreamRule _ spec _ _ => spec | _ => zeroSpec end)
    (fun obj => match obj with ClusterStreamRule _ _ _ status => status | _ => zeroStatus end)
    (fun obj => match obj with ClusterStreamRule _ _ sel _ => sel | _ => None end).

Definition set_rule_status (status : StreamRuleStatus) (obj : ruleObject) : ruleObject :=
  match obj with
  | StreamRule meta spec _ => StreamRule meta spec status
  | ClusterStreamRule meta spec sel _ => ClusterStreamRule meta spec sel status
  end.

(** ** One pass *)

(** An access review: resource, namespace, verb. *)
Record accessReview := mkReview { ar_GVR : GroupVersionResource; ar_Namespace : string; ar_Verb : string }.

(** A namespace of a listing and whether it is being deleted. *)
Record listedNamespace := mkListed { ln_Name : string; ln_Deleting : bool }.

Record ruleEnv := mkRuleEnv {
  re_now : Z;
  re_rule : getAnswer ruleObject;
  re_sink : getAnswer ClickHouseSink;
  re_namespaces : string -> result (list listedNamespace);
  re_mapper : nat -> resolveEnv;
  re_access : nat -> accessReview -> result bool;
  re_update : statusAttempt ruleObject * list (statusAttempt ruleObject);
}.

Record sinkVerdict := mkVerdict { sv_reason : string; sv_message : string }.

Definition noVerdict : sinkVerdict := mkVerdict "" "".

Definition resolveSink (e : ruleEnv) (name : string) : result (option ClickHouseSink * sinkVerdict) :=
  match re_sink e with
  | NotFound => Ok (None, mkVerdict ReasonSinkMissing ("ClickHouseSink " +:+ Quote name +:+ " does not exist"))
  | GetFailed err => Err ("get ClickHouseSink " +:+ Quote name +:+ ": " +:+ err)
  | Found chSink =>
      match findCondition (sst_Conditions (sk_Status chSink)) ConditionReady with
      | None => Ok (Some chSink, mkVerdict ReasonSinkNotReady
                  ("ClickHouseSink " +:+ Quote name +:+ " has not reported its health yet"))
      | Some ready =>
          if String.eqb (c_Status ready) ConditionTrue then Ok (Some chSink, noVerdict)
          else Ok (Some chSink, mkVerdict ReasonSinkNotReady
                 ("ClickHouseSink " +:+ Quote name +:+ " is not ready (" +:+ c_Reason ready +:+ ": " +:+ c_Message ready +:+ ")"))
      end
  end.

Definition setUnevaluated (now : Z) (message : string) (status : statusWriter) : statusWriter :=
  foldl (fun status condType => status_set now condType ConditionUnknown ReasonNotEvaluated message status)
    status ruleReadyOrder.

(** A namespace selector that cannot be honoured, as opposed to a listing that
    failed. *)
Inductive namespacesError := InvalidNamespaceSelector (err : error) | ListFailed (err : error).

Definition namespacesError_Error (e : namespacesError) : error :=
  match e with
  | InvalidNamespaceSelector err => ReasonNamespaceSelectorInvalid +:+ ": " +:+ err
  | ListFailed err => err
  end.

Definition targetNamespaces (k : ruleKind) (e : ruleEnv) (obj : ruleObject) : list string + namespacesError :=
  if bool_decide (rk_scope k = NamespacedRule) then inl [om_Namespace (rule_meta obj)]
  else
    match rk_namespaceSelector k obj with
    | None => inl [""]
    | Some selector =>
        match LabelSelectorAsSelector selector with
        | Err err => inr (InvalidNamespaceSelector err)
        | Ok labelSelector =>
            match re_namespaces e labelSelector with
            | Err err => inr (ListFailed ("list namespaces matching " +:+ Quote labelSelector +:+ ": " +:+ err))
            | Ok items => inl (sort_strings (map ln_Name (filter (fun ns => ln_Deleting ns = false) items)))
            end
        end
    end.

(** [plan.CanonicalSelector]. *)
Definition CanonicalSelector (ls : option LabelSelector) : result string :=
  match ls with
  | None => Ok ""
  | Some ls =>
      match LabelSelectorAsSelector ls with
      | Err err => Err ("canonicalize label selector: " +:+ err)
      | Ok sel => Ok sel
      end
  end.

Definition namespacesFor (namespaced : bool) (expanded : list string) : list string :=
  if negb namespaced then [""] else expanded.

Record resolvedResource := mkResolved {
  rr_gvk : GroupVersionKind;
  rr_gvr : GroupVersionResource;
  rr_selector : string;
  rr_namespaces : list string;
}.

Definition resource_GVK (res : WatchedResource) : GroupVersionKind :=
  mkGVK (wr_Group res) (wr_Version res) (wr_Kind res).

(** The resources that survive, and what the others failed with; [i] counts the
    calls to the mapper's environment. *)
Fixpoint resolveResources (k : ruleKind) (e : ruleEnv) (namespaces : list string) (i : nat)
    (resources : list WatchedResource) (r : Resolver) : Resolver * list resolvedResource * list string :=
  match resources with
  | [] => (r, [], [])
  | res :: rest =>
      let gvk := resource_GVK res in
      let '(r1, answer) := ResolveForScope (re_mapper e i) gvk (rk_scope k) r in
      let '(r2, resolved, failures) := resolveResources k e namespaces (S i) rest r1 in
      match answer with
      | inr err => (r2, resolved, (GVK_String gvk +:+ ": " +:+ resolveError_Error err) :: failures)
      | inl (gvr, namespaced) =>
          match CanonicalSelector (wr_LabelSelector res) with
          | Err err => (r2, resolved, (GVK_String gvk +:+ ": " +:+ err) :: failures)
          | Ok selector =>
              (r2, mkResolved gvk gvr selector (namespacesFor namespaced namespaces) :: resolved, failures)
          end
      end
  end.

Definition review (e : ruleEnv) (n : nat) (gvr : GroupVersionResource) (namespace verb : string) : nat * result bool :=
  (S n,
   match re_access e n (mkReview gvr namespace verb) with
   | Err err => Err ("review access to " +:+ GroupResource_String gvr +:+ " (verb " +:+ Quote verb +:+ ", namespace " +:+
                     Quote namespace +:+ "): " +:+ err)
   | Ok allowed => Ok allowed
   end).

(** The verbs that are missing. *)
Fixpoint missing_verbs (e : ruleEnv) (n : nat) (gvr : GroupVersionResource) (namespace : string) (verbs : list string) :
    nat * result (list string) :=
  match verbs with
  | [] => (n, Ok [])
  | verb :: rest =>
      let '(n1, clusterWide) := review e n gvr "" verb in
      let '(n2, answer) :=
        match clusterWide with
        | Ok false => if negb (String.eqb namespace "") then review e n1 gvr namespace verb else (n1, Ok false)
        | _ => (n1, clusterWide)
        end in
      match answer with
      | Err err => (n2, Err err)
      | Ok allowed =>
          match missing_verbs e n2 gvr namespace rest with
          | (n3, Err err) => (n3, Err err)
          | (n3, Ok missing) => (n3, Ok (if allowed then missing else verb :: missing))
          end
      end
  end.

Definition reviewTarget (e : ruleEnv) (n : nat) (gvr : GroupVersionResource) (namespace : string) : nat * result string :=
  match missing_verbs e n gvr namespace accessVerbs with
  | (n', Err err) => (n', Err err)
  | (n', Ok []) => (n', Ok "")
  | (n', Ok missing) =>
      let scope := if String.eqb namespace "" then "at cluster scope" else "in namespace " +:+ Quote namespace in
      (n', Ok (GroupResource_String gvr +:+ ": missing " +:+ join "," missing +:+ " " +:+ scope))
  end.

(** What the review loop carries: the next review, the verdicts of this pass, the
    targets and the denials so far. *)
Record reviewState := mkReviewState {
  rw_next : nat;
  rw_seen : gmap string string;
  rw_targets : list WatchTarget;
  rw_denials : list string;
}.

Definition review_one (e : ruleEnv) (sinkName redaction : string) (res : resolvedResource) (namespace : string)
    (s : reviewState) : reviewState + error :=
  let cacheKey := GVR_String (rr_gvr res) +:+ "|" +:+ namespace in
  let '(n, seen, verdict) :=
    match rw_seen s !! cacheKey with
    | Some denial => (rw_next s, rw_seen s, Ok denial)
    | None =>
        match reviewTarget e (rw_next s) (rr_gvr res) namespace with
        | (n, Ok denial) => (n, <[cacheKey := denial]> (rw_seen s), Ok denial)
        | (n, Err err) => (n, rw_seen s, Err err)
        end
    end in
  match verdict with
  | Err err => inr err
  | Ok denial =>
      if negb (String.eqb denial "")
      then inl (mkReviewState n seen (rw_targets s)
             (if bool_decide (denial ∈ rw_denials s) then rw_denials s else rw_denials s ++ [denial]))
      else inl (mkReviewState n seen
             (rw_targets s ++ [mkTarget sinkName (rr_gvk res) namespace (rr_selector res) redaction]) (rw_denials s))
  end.

Fixpoint review_namespaces (e : ruleEnv) (sinkName redaction : string) (res : resolvedResource)
    (namespaces : list string) (s : reviewState) : reviewState + error :=
  match namespaces with
  | [] => inl s
  | ns :: rest =>
      match review_one e sinkName redaction res ns s with
      | inl s' => review_namespaces e sinkName redaction res rest s'
      | inr err => inr err
      end
  end.

Fixpoint review_resources (e : ruleEnv) (sinkName redaction : string) (resolved : list resolvedResource)
    (s : reviewState) : reviewState + error :=
  match resolved with
  | [] => inl s
  | res :: rest =>
      match review_namespaces e sinkName redaction res (rr_namespaces res) s with
      | inl s' => review_resources e sinkName redaction rest s'
      | inr err => inr err
      end
  end.

Definition reviewTargets (e : ruleEnv) (sinkName : string) (resolved : list resolvedResource) (redaction : string) :
    (list WatchTarget * list string) + error :=
  match review_resources e sinkName redaction resolved (mkReviewState 0 ∅ [] []) with
  | inl s => inl (rw_targets s, rw_denials s)
  | inr err => inr err
  end.

Definition setGateCondition (now : Z) (condType : string) (failures : list string)
    (trueReason trueMessage falseReason : string) (status : statusWriter) : statusWriter :=
  match failures with
  | [] => status_set now condType ConditionTrue trueReason trueMessage status
  | _ => status_set now condType ConditionFalse falseReason (truncateMessage (join "; " failures)) status
  end.

Record planOutcome := mkOutcome {
  po_targets : list WatchTarget;
  po_verdict : sinkVerdict;
  po_install : bool;
  po_err : option error;
}.

Definition plan (k : ruleKind) (e : ruleEnv) (obj : ruleObject) (status : statusWriter) (r : Resolver) :
    Resolver * statusWriter * planOutcome :=
  let now := re_now e in
  let spec := rk_spec k obj in
  match resolveSink e (sr_SinkRef spec) with
  | Err err => (r, status, mkOutcome [] noVerdict false (Some err))
  | Ok (None, verdict) =>
      (r, setUnevaluated now (sv_message verdict) status, mkOutcome [] verdict true None)
  | Ok (Some chSink, verdict) =>
      match checkPolicy (sr_Resources spec) (ss_Policy (sk_Spec chSink)) with
      | Some denied =>
          let status := status_set now ConditionPolicyAllowed ConditionFalse (pd_reason denied) (pd_message denied) status in
          let status := status_set now ConditionResourceResolved ConditionUnknown ReasonNotEvaluated
            "Resources are not resolved while the sink's policy denies this rule" status in
          let status := status_set now ConditionRBACGranted ConditionUnknown ReasonNotEvaluated
            "Access is not reviewed while the sink's policy denies this rule" status in
          (r, status, mkOutcome [] verdict true None)
      | None =>
          let sinkName := om_Name (sk_meta chSink) in
          let status := status_set now ConditionPolicyAllowed ConditionTrue ReasonAllResourcesPermitted
            ("Every resource this rule names is admitted by sink " +:+ Quote sinkName) status in
          match targetNamespaces k e obj with
          | inr (InvalidNamespaceSelector _ as err) =>
              (r, status_set now ConditionResourceResolved ConditionFalse ReasonNamespaceSelectorInvalid
                    (namespacesError_Error err) status, mkOutcome [] verdict true None)
          | inr err =>
              (r, status_set now ConditionResourceResolved ConditionUnknown ReasonNamespacesUnavailable
                    (namespacesError_Error err) status,
               mkOutcome [] verdict false (Some (namespacesError_Error err)))
          | inl namespaces =>
              let '(r', resolved, resolveFailures) := resolveResources k e namespaces 0 (sr_Resources spec) r in
              let status := setGateCondition now ConditionResourceResolved resolveFailures ReasonAllKindsResolved
                "Every kind this rule names resolved to a watchable resource" ReasonKindsUnresolved status in
              let redaction := canonicalRedaction (sp_Redaction (ss_Policy (sk_Spec chSink))) (sr_ExtraRedaction spec) in
              match reviewTargets e sinkName resolved redaction with
              | inr err =>
                  (r', status_set now ConditionRBACGranted ConditionUnknown ReasonAccessReviewFailed err status,
                   mkOutcome [] verdict false (Some err))
              | inl (targets, denials) =>
                  (r', setGateCondition now ConditionRBACGranted denials ReasonAllVerbsGranted
                        "The operator may get, list and watch every resource this rule names" ReasonMissingPermissions status,
                   mkOutcome targets verdict true None)
              end
          end
      end
  end.

Definition readyCondition (status : statusWriter) (verdict : sinkVerdict) : Condition :=
  if negb (String.eqb (sv_reason verdict) "")
  then condition ConditionReady ConditionFalse (sv_reason verdict) (sv_message verdict) (sw_generation status)
  else readyFor unreachableReason status ConditionReady ruleReadyOrder ReasonStreaming
         "Every resource this rule names is admitted, resolved, permitted and installed in the watch plan".

(** The [int32] conversion of the number of targets. *)
Definition int32 (n : nat) : Z := ((Z.of_nat n + 2 ^ 31) mod 2 ^ 32 - 2 ^ 31)%Z.

(** What a pass returns to the controller. *)
Inductive passResult := Forgotten | RequeueAfter (period : Z) | Retry (err : error).

(** What the two rule reconcilers share, and the objects and events they wrote. *)
Record ruleWorld := mkRuleWorld {
  rw_registry : Registry;
  rw_resolver : Resolver;
  rw_metrics : RuleMetrics;
  rw_written : list ruleObject;
  rw_events : list recordedEvent;
}.

Definition newRuleWorld : ruleWorld := mkRuleWorld New NewResolver NewRuleMetrics [] [].

Definition withdraw (ruleKey : string) (w : ruleWorld) : ruleWorld :=
  mkRuleWorld (Remove ruleKey (rw_registry w)) (rw_resolver w) (Forget ruleKey (rw_metrics w)) (rw_written w) (rw_events w).

(** The status a pass writes over the fresh one. *)
Definition write_status (k : ruleKind) (now : Z) (status : statusWriter) (activeWatches : Z) (fresh : ruleObject) : ruleObject :=
  set_rule_status (mkRuleStatus (status_apply now status (rst_Conditions (rk_status k fresh))) activeWatches
    (sw_generation status)) fresh.

Definition resyncPeriod (configured : Z) : Z := if Z.ltb 0 configured then configured else defaultRuleResyncPeriod.

Definition Reconcile (k : ruleKind) (resync : Z) (req : NamespacedName) (e : ruleEnv) (w : ruleWorld) :
    ruleWorld * passResult :=
  let ruleKey := RuleKey (rk_kind k) (nn_Namespace req) (nn_Name req) in
  match re_rule e with
  | NotFound => (withdraw ruleKey w, Forgotten)
  | GetFailed err => (w, Retry ("get " +:+ rk_kind k +:+ " " +:+ NamespacedName_String (nn_Namespace req) (nn_Name req) +:+ ": " +:+ err))
  | Found obj =>
      if om_Deleting (rule_meta obj) then (withdraw ruleKey w, Forgotten)
      else
        let '(resolver', status, outcome) :=
          plan k e obj (newStatusWriter (om_Generation (rule_meta obj))) (rw_resolver w) in
        let '(registry', status) :=
          if po_install outcome
          then match Upsert ruleKey (po_targets outcome) (rw_registry w) with
               | (reg, None) => (reg, status)
               | (reg, Some err) =>
                   (reg, status_set (re_now e) ConditionResourceResolved ConditionFalse ReasonInvalidSelector err status)
               end
          else (rw_registry w, status) in
        let previousReady := findCondition (rst_Conditions (rk_status k obj)) ConditionReady in
        let ready := readyCondition status (po_verdict outcome) in
        let status := status_set (re_now e) ConditionReady (c_Status ready) (c_Reason ready) (c_Message ready) status in
        let activeWatches := int32 (TargetCountForRule ruleKey registry') in
        match updateStatus (write_status k (re_now e) status activeWatches) (re_update e).1 (re_update e).2 with
        | Err err =>
            (mkRuleWorld registry' resolver' (rw_metrics w) (rw_written w) (rw_events w),
             Retry ("update " +:+ rk_kind k +:+ " " +:+ NamespacedName_String (nn_Namespace req) (nn_Name req) +:+
                    " status: " +:+ err))
        | Ok written =>
            (mkRuleWorld registry' resolver' (Observe ruleKey (rst_Conditions (rk_status k written)) (rw_metrics w))
               (rw_written w ++ [written]) (rw_events w ++ emitReadyEvent previousReady ready),
             match po_err outcome with
             | Some err => Retry err
             | None => RequeueAfter (resyncPeriod resync)
             end)
        end
  end.

(** ** Wake-ups *)

Definition requestsFor (objs : list ruleObject) : list NamespacedName :=
  map (fun obj => mkNamespacedName (om_Namespace (rule_meta obj)) (om_Name (rule_meta obj))) objs.

(** The rules the field index lists for a sink; a failed listing wakes none. *)
Definition rulesForSink (listing : result (list ruleObject)) : list NamespacedName :=
  match listing with Ok objs => requestsFor objs | Err _ => [] end.

Definition rulesForNamespace (listing : result (list ruleObject)) : list NamespacedName :=
  match listing with
  | Ok rules => requestsFor (filter (fun obj => is_Some (rk_namespaceSelector clusterStreamRuleKind obj)) rules)
  | Err _ => []
  end.

End reconciler.

Definition parkChannelCapacity : nat := 128.

(** The channels of a [Parker]: the wake-ups waiting for each rule kind. *)
Abbreviation Parker := (gmap string (list NamespacedName)).

Definition park_one (key : string) (p : Parker) : Parker :=
  match parseRuleKey key with
  | None => p
  | Some (kind, ref) =>
      match p !! kind with
      | None => p
      | Some events => if Nat.ltb (length events) parkChannelCapacity then <[kind := events ++ [ref]]> p else p
      end
  end.

Definition SinkGone (ruleKeys : list string) (p : Parker) : Parker :=
  foldl (fun p key => park_one key p) p ruleKeys.
