(* ===== verification/SinkReconciler.v ===== *)
(** * SinkReconciler: sink resources to running instances

    Models [internal/controller/sink_controller.go]: one reconcile pass of a
    ClickHouseSink (credential, declaration to the sink runtime, health conditions,
    status and event), the store of probe verdicts with the watcher that fills it,
    and the mapping from a Secret to its sinks; and, from [cmd/main.go], the
    translation of a sink resource into a ClickHouse configuration.

    The sink runtime is the interface [SinkRuntime]; [manager_runtime] is the sink
    manager's implementation of it. *)

From Stdlib Require Import ZArith Lia.
From stdpp Require Import base gmap strings list.
From S2P Require Import Prelude Identity HashCache Json Redact Pipeline JsonPatch Process Interest Resolver Conditions ApiTypes.
From S2P Require Import ScopeRecorder Warm Driver ScopeWriter CHWriter CHReader SinkManager CHSchema.

(** ** The sink runtime *)

(** What a reconciler may ask of the runtime, for configurations [C] and a runtime
    state [S]. *)
Class SinkRuntime (C S : Type) := {
  rt_Ensure : string -> C -> S -> S * option error;
  rt_Delete : string -> S -> S;
}.

Definition manager_runtime {C} `{InstanceConfig C} (factory : string -> C -> result backend) :
    SinkRuntime C (SinkManager C) := {|
  rt_Ensure name cfg m := Ensure factory name (Some cfg) m;
  rt_Delete := Delete;
|}.

(** ** Constants *)

Definition DefaultCredentialsSecretKey : string := "password".
Definition defaultSinkResyncPeriod : Z := 120 * second.

Definition ReasonSecretResolved : string := "SecretResolved".
Definition ReasonSecretNotFound : string := "SecretNotFound".
Definition ReasonSecretKeyMissing : string := "SecretKeyMissing".
Definition ReasonSchemaMatches : string := "SchemaMatches".
Definition ReasonProbePending : string := "ProbePending".
Definition ReasonConnected : string := "Connected".
Definition ReasonCredentialsUnavailable : string := "CredentialsUnavailable".

Definition errNoLiveConfig : error := "sink configuration is incomplete; not handing it to the sink runtime".

Definition sinkReadyOrder : list string := [ConditionCredentialsResolved; ConditionSchemaValid].

(** ** Probe verdicts *)

Abbreviation probeStore := (gmap string ProbeResult).

Definition newProbeStore : probeStore := ∅.
Definition store_record (result : ProbeResult) (s : probeStore) : probeStore := <[pr_Sink result := result]> s.
Definition store_latest (name : string) (s : probeStore) : option ProbeResult := s !! name.
Definition store_forget (name : string) (s : probeStore) : probeStore := delete name s.

Section reconciler.
Context `{SchemaAPI, ConditionAPI} {C S : Type} `{RT : SinkRuntime C S}.

(** The injected translation; [None] is a nil configuration. *)
Variable BuildConfig : string -> ClickHouseSinkSpec -> string -> result (option C).
Variable OperatorNamespace : string.

(** ** Credentials *)

Record credentialError := mkCredentialError { ce_reason : string; ce_message : string }.

(** What one pass meets; a Secret is its data. *)
Record sinkEnv := mkSinkEnv {
  se_now : Z;
  se_sink : getAnswer ClickHouseSink;
  se_secret : NamespacedName -> getAnswer (gmap string string);
  se_update : statusAttempt ClickHouseSink * list (statusAttempt ClickHouseSink);
}.

Definition secretRef (chSink : ClickHouseSink) : NamespacedName :=
  let ref := cn_CredentialsSecretRef (ss_Connection (sk_Spec chSink)) in
  let namespace := if String.eqb (ref_Namespace ref) "" then OperatorNamespace else ref_Namespace ref in
  mkNamespacedName namespace (ref_Name ref).

Definition ref_text (ref : NamespacedName) : string := NamespacedName_String (nn_Namespace ref) (nn_Name ref).

Definition resolveCredential (e : sinkEnv) (chSink : ClickHouseSink) : string + credentialError :=
  let ref := secretRef chSink in
  match se_secret e ref with
  | NotFound => inr (mkCredentialError ReasonSecretNotFound ("Secret " +:+ ref_text ref +:+ " does not exist"))
  | GetFailed err =>
      inr (mkCredentialError ReasonSecretNotFound ("Secret " +:+ ref_text ref +:+ " could not be read: " +:+ err))
  | Found data =>
      match data !! DefaultCredentialsSecretKey with
      | Some (String a s) => inl (String a s)
      | _ => inr (mkCredentialError ReasonSecretKeyMissing
               ("Secret " +:+ ref_text ref +:+ " carries no non-empty " +:+ Quote DefaultCredentialsSecretKey +:+ " key"))
      end
  end.

(** ** Declaration *)

Definition declare_sink (chSink : ClickHouseSink) (password : string) (rt : S) : S * option error :=
  let name := om_Name (sk_meta chSink) in
  match BuildConfig name (sk_Spec chSink) password with
  | Err err => (rt, Some ("build configuration for sink " +:+ Quote name +:+ ": " +:+ err))
  | Ok None => (rt, Some ("build configuration for sink " +:+ Quote name +:+ ": " +:+ errNoLiveConfig))
  | Ok (Some cfg) => rt_Ensure name cfg rt
  end.

(** ** Health *)

Definition setHealthConditions (now : Z) (credErr : option credentialError) (latest : option ProbeResult)
    (status : statusWriter) : statusWriter :=
  match credErr with
  | Some _ =>
      status_set now ConditionSchemaValid ConditionUnknown ReasonCredentialsUnavailable
        "The schema cannot be checked until the sink's credentials resolve" status
  | None =>
      match latest with
      | None =>
          status_set now ConditionSchemaValid ConditionUnknown ReasonProbePending
            "Waiting for the first health probe to settle" status
      | Some result =>
          match pr_Err result with
          | None =>
              status_set now ConditionSchemaValid ConditionTrue ReasonSchemaMatches
                "The live ClickHouse schema matches the schema this operator writes" status
          | Some err =>
              if String.eqb (pr_Reason result) ProbeReasonSchemaInvalid
              then status_set now ConditionSchemaValid ConditionFalse ProbeReasonSchemaInvalid
                     ("The live ClickHouse schema does not match the schema this operator writes: " +:+ err) status
              else status_set now ConditionSchemaValid ConditionUnknown ProbeReasonUnreachable
                     ("ClickHouse did not answer, so its schema is unknown: " +:+ err) status
          end
      end
  end.

(** ** One pass *)

Record sinkWorld := mkSinkWorld {
  kw_runtime : S;
  kw_probes : probeStore;
  kw_written : list ClickHouseSink;
  kw_events : list recordedEvent;
}.

Inductive sinkResult := SinkForgotten | SinkRequeueAfter (period : Z) | SinkRetry (err : error).

Definition write_sink_status (now : Z) (status : statusWriter) (fresh : ClickHouseSink) : ClickHouseSink :=
  mkSink (sk_meta fresh) (sk_Spec fresh)
    (mkSinkStatus (status_apply now status (sst_Conditions (sk_Status fresh))) (sw_generation status)).

Definition sinkResyncPeriod (configured : Z) : Z := if Z.ltb 0 configured then configured else defaultSinkResyncPeriod.

(** The conditions and roll-up of a pass whose declaration went through. *)
Definition sink_status (now : Z) (chSink : ClickHouseSink) (cred : string + credentialError) (latest : option ProbeResult) :
    statusWriter * Condition :=
  let status := newStatusWriter (om_Generation (sk_meta chSink)) in
  let status :=
    match cred with
    | inr err => status_set now ConditionCredentialsResolved ConditionFalse (ce_reason err) (ce_message err) status
    | inl _ => status_set now ConditionCredentialsResolved ConditionTrue ReasonSecretResolved
                 ("Read the password from Secret " +:+ ref_text (secretRef chSink)) status
    end in
  let status := setHealthConditions now (match cred with inr err => Some err | inl _ => None end) latest status in
  let ready := readyFor ProbeReasonUnreachable status ConditionReady sinkReadyOrder ReasonConnected
                 "ClickHouse is reachable, authenticated and carries the expected schema" in
  (status_set now ConditionReady (c_Status ready) (c_Reason ready) (c_Message ready) status, ready).

Definition sink_Reconcile (resync : Z) (name : string) (e : sinkEnv) (w : sinkWorld) : sinkWorld * sinkResult :=
  match se_sink e with
  | NotFound =>
      (mkSinkWorld (rt_Delete name (kw_runtime w)) (store_forget name (kw_probes w)) (kw_written w) (kw_events w), SinkForgotten)
  | GetFailed err => (w, SinkRetry ("get ClickHouseSink " +:+ Quote name +:+ ": " +:+ err))
  | Found chSink =>
      let cred := resolveCredential e chSink in
      let '(rt, declared) :=
        match cred with
        | inl password => declare_sink chSink password (kw_runtime w)
        | inr _ => (kw_runtime w, None)
        end in
      match declared with
      | Some err => (mkSinkWorld rt (kw_probes w) (kw_written w) (kw_events w), SinkRetry err)
      | None =>
          let '(status, ready) := sink_status (se_now e) chSink cred (store_latest (om_Name (sk_meta chSink)) (kw_probes w)) in
          let previousReady := findCondition (sst_Conditions (sk_Status chSink)) ConditionReady in
          match updateStatus (write_sink_status (se_now e) status) (se_update e).1 (se_update e).2 with
          | Err err =>
              (mkSinkWorld rt (kw_probes w) (kw_written w) (kw_events w),
               SinkRetry ("update ClickHouseSink " +:+ Quote (om_Name (sk_meta chSink)) +:+ " status: " +:+ err))
          | Ok written =>
              (mkSinkWorld rt (kw_probes w) (kw_written w ++ [written]) (kw_events w ++ emitReadyEvent previousReady ready),
               SinkRequeueAfter (sinkResyncPeriod resync))
          end
      end
  end.

(** [ProbeWatcher.Start], one result: recorded, and the sink woken. *)
Definition probeWatcher_result (result : ProbeResult) (w : sinkWorld) : sinkWorld * NamespacedName :=
  (mkSinkWorld (kw_runtime w) (store_record result (kw_probes w)) (kw_written w) (kw_events w),
   mkNamespacedName "" (pr_Sink result)).

(** The field index, and the sinks a Secret's change wakes. *)
Definition secret_index (chSink : ClickHouseSink) : string := ref_text (secretRef chSink).

Definition sinksForSecret (sinks : result (list ClickHouseSink)) (secret : NamespacedName) : list NamespacedName :=
  match sinks with
  | Err _ => []
  | Ok sinks =>
      map (fun s => mkNamespacedName "" (om_Name (sk_meta s))) (filter (fun s => secret_index s = ref_text secret) sinks)
  end.

End reconciler.

(** ** Wiring *)

Definition defaultSinkDialTimeout : Z := 5 * second.
Definition defaultSinkReadTimeout : Z := 10 * second.

Record writerTuning := mkTuning {
  wt_queueSize : Z;
  wt_workers : Z;
  wt_batchMaxRows : Z;
  wt_batchMaxWait : Z;
  wt_enqueueTimeout : Z;
  wt_drainTimeout : Z;
}.

Definition durationOrDefault (d : option Z) (def : Z) : Z := default def d.
Definition intOrDefault (n : option Z) (def : Z) : Z := default def n.

Definition newSinkConfigBuilder (defaults : writerTuning) (autoCreateSchema : bool) (name : string)
    (spec : ClickHouseSinkSpec) (password : string) : result (option Config) :=
  let cn := ss_Connection spec in
  let ws := ss_Writer spec in
  Ok (Some {|
    cf_Addr := cn_Addr cn;
    cf_Database := cn_Database cn;
    cf_Username := cn_Username cn;
    cf_Password := password;
    cf_DialTimeout := durationOrDefault (cn_DialTimeout cn) defaultSinkDialTimeout;
    cf_ReadTimeout := durationOrDefault (cn_ReadTimeout cn) defaultSinkReadTimeout;
    cf_AutoCreateSchema := autoCreateSchema;
    cf_BatchMaxRows := intOrDefault (ws_BatchMaxRows ws) (wt_batchMaxRows defaults);
    cf_BatchMaxWait := durationOrDefault (ws_BatchMaxWait ws) (wt_batchMaxWait defaults);
    cf_WriteQueueSize := intOrDefault (ws_QueueSize ws) (wt_queueSize defaults);
    cf_WriteWorkers := intOrDefault (ws_Workers ws) (wt_workers defaults);
    cf_EnqueueTimeout := durationOrDefault (ws_EnqueueTimeout ws) (wt_enqueueTimeout defaults);
    cf_ShutdownDrainTimeout := durationOrDefault (ws_DrainTimeout ws) (wt_drainTimeout defaults);
    cf_CheckpointEvery := intOrDefault (ws_CheckpointEvery ws) DefaultCheckpointEvery;
  |}).
