(* ===== verification/ApiSamples.v ===== *)
(** * ApiSamples: instances of the library interfaces

    Concrete functions with the laws that [ConditionAPI] and [SchemaAPI] state, and
    selectors that are their own printed form, for the samples of the controllers. *)

From Stdlib Require Import ZArith Lia.
From stdpp Require Import base gmap strings list.
From S2P Require Import Prelude Json Redact Registry Interest Resolver Conditions ApiTypes.

(** ** Conditions as a list with one entry per type *)

Fixpoint find_cond (l : list Condition) (t : string) : option Condition :=
  match l with
  | [] => None
  | c :: l' => if String.eqb (c_Type c) t then Some c else find_cond l' t
  end.

Definition stamped (now : Z) (c : Condition) : Condition :=
  mkCondition (c_Type c) (c_Status c) (c_Reason c) (c_Message c) (c_ObservedGeneration c) now.

Fixpoint set_cond (now : Z) (c : Condition) (l : list Condition) : list Condition :=
  match l with
  | [] => [stamped now c]
  | x :: l' =>
      if String.eqb (c_Type x) (c_Type c)
      then stamped (if String.eqb (c_Status x) (c_Status c) then c_LastTransitionTime x else now) c :: l'
      else x :: set_cond now c l'
  end.

Lemma find_cond_elem l t c : find_cond l t = Some c -> c ∈ l /\ c_Type c = t.
Proof.
  induction l as [|x l IH]; simpl; [done|]. destruct (String.eqb_spec (c_Type x) t) as [E|E].
  - intros [= <-]. split; [by left|done].
  - intros Hf. destruct (IH Hf). split; [by right|done].
Qed.

Lemma find_set_cond now c l : exists c', find_cond (set_cond now c l) (c_Type c) = Some c' /\
    c_Status c' = c_Status c /\ c_Reason c' = c_Reason c /\ c_Message c' = c_Message c /\
    c_ObservedGeneration c' = c_ObservedGeneration c /\
    (forall old, find_cond l (c_Type c) = Some old -> c_Status old = c_Status c ->
       c_LastTransitionTime c' = c_LastTransitionTime old).
Proof.
  induction l as [|x l IH]; simpl; [rewrite String.eqb_refl; by eexists|].
  destruct (String.eqb (c_Type x) (c_Type c)) eqn:E; simpl.
  - rewrite String.eqb_refl. eexists. split; [done|]. repeat (split; [done|]). intros old [= <-] Hs. simpl.
    by rewrite Hs, String.eqb_refl.
  - by rewrite E.
Qed.

Lemma find_set_cond_other now c l t : t <> c_Type c -> find_cond (set_cond now c l) t = find_cond l t.
Proof.
  intros Hne. induction l as [|x l IH]; simpl.
  - by rewrite (proj2 (String.eqb_neq _ _) (not_eq_sym Hne)).
  - destruct (String.eqb_spec (c_Type x) (c_Type c)) as [E|E]; simpl; [|by rewrite IH].
    rewrite (proj2 (String.eqb_neq _ _) (not_eq_sym Hne)). rewrite E. by rewrite (proj2 (String.eqb_neq _ _) (not_eq_sym Hne)).
Qed.

Lemma find_cond_unique l c : NoDup (c_Type <$> l) -> c ∈ l -> find_cond l (c_Type c) = Some c.
Proof.
  induction l as [|x l IH]; intros Hnd Hin; [by apply elem_of_nil in Hin|]. simpl in *. apply NoDup_cons in Hnd as [Hni Hnd].
  apply elem_of_cons in Hin as [->|Hin]; [by rewrite String.eqb_refl|].
  destruct (String.eqb_spec (c_Type x) (c_Type c)) as [E|E]; [|by apply IH].
  destruct Hni. rewrite E. apply list_elem_of_fmap. by exists c.
Qed.

Lemma set_cond_types now c l : c_Type <$> set_cond now c l =
  if decide (c_Type c ∈ c_Type <$> l) then c_Type <$> l else (c_Type <$> l) ++ [c_Type c].
Proof.
  induction l as [|x l IH].
  { rewrite decide_False; [done|]. by intros ?%elem_of_nil. }
  rewrite fmap_cons. cbn [set_cond].
  destruct (String.eqb_spec (c_Type x) (c_Type c)) as [E|E].
  - rewrite decide_True by (rewrite E; by left). rewrite fmap_cons. simpl. by rewrite E.
  - rewrite fmap_cons, IH. repeat case_decide; try done; set_solver.
Qed.

#[export] Instance condition_api : ConditionAPI := {|
  SetStatusCondition := set_cond;
  FindStatusCondition := find_cond;
  find_nil := fun t => eq_refl;
  find_elem := find_cond_elem;
  find_set_same := find_set_cond;
  find_set_other := find_set_cond_other;
  find_unique := find_cond_unique;
  set_unique := fun now c l Hnd => ltac:(rewrite set_cond_types; case_decide as Hin;
    [exact Hnd|apply NoDup_app; split; [exact Hnd|split; [|apply NoDup_singleton]];
      intros x Hx; rewrite list_elem_of_singleton; congruence]);
|}.

(** ** Names *)

Definition gvr_string (g : GroupVersionResource) : string :=
  gvr_Group g +:+ String "/" (gvr_Version g +:+ String "," (" Resource=" +:+ gvr_Resource g)).

Lemma dns_no_char c s : dns_char c = false -> dns_name s = true -> has_char c s = false.
Proof. apply string_forall_has. Qed.

Lemma gvr_string_inj g g' : dns_gvr g = true -> dns_gvr g' = true -> gvr_string g = gvr_string g' -> g = g'.
Proof.
  unfold dns_gvr, gvr_string. intros Hg Hg' E. bools. destruct g as [a b c], g' as [a' b' c']; simpl in *.
  apply first_sep_inj in E as [-> E]; [|by apply dns_no_char..].
  apply first_sep_inj in E as [-> E]; [|by apply dns_no_char..]. by simplify_eq.
Qed.

Lemma gvr_string_bar g : dns_gvr g = true -> has_char "|" (gvr_string g) = false.
Proof.
  unfold dns_gvr, gvr_string. intros Hg. bools. rewrite has_char_app. simpl. rewrite has_char_app. simpl.
  by rewrite !dns_no_char.
Qed.

#[export] Instance schema_api : SchemaAPI := {|
  GVK_String := fun g => g_Group g +:+ "/" +:+ g_Version g +:+ ", Kind=" +:+ g_Kind g;
  GVR_String := gvr_string;
  GroupResource_String := fun g =>
    if String.eqb (gvr_Group g) "" then gvr_Resource g else gvr_Resource g +:+ "." +:+ gvr_Group g;
  NamespacedName_String := fun ns name => ns +:+ String "/" name;
  GVR_String_inj := gvr_string_inj;
  GVR_String_bar := gvr_string_bar;
  NamespacedName_String_inj := fun ns name ns' name' H H' E => first_sep_inj _ _ _ _ _ H H' E;
|}.

(** ** Selectors *)

#[export] Instance selector_api : SelectorAPI := {| ParseSelector := fun s => Ok s |}.

#[export] Instance label_selector_api : LabelSelectorAPI := {|
  LabelSelector := string;
  LabelSelectorAsSelector := fun s => if String.eqb s "?" then Err "invalid selector" else Ok s;
|}.
