(* ===== verification/WatchLoop.v ===== *)
(** * WatchLoop: the watch manager's loop and its informers

    Models the rest of [internal/watch/manager.go] and [internal/watch/pool.go]:
    construction with its defaults, the reconcile loop with its four select cases,
    the debounce window, the settle timer and the safety tick, and the pool whose
    informers run as goroutines that are started, cancelled and waited for.

    The loop is a labelled step function. The registry is written by reconcilers at
    any moment, also between a pass's snapshot and its end; time passes only by its
    own step; a select takes any case that is ready. A timer is ready from its
    deadline on until it is received or reset. What discovery and the set-up of an
    informer answer are arguments of the step. *)

From Stdlib Require Import ZArith Lia.
From stdpp Require Import base gmap strings list sorting.
From S2P Require Import Prelude Identity Json Redact Registry Interest WatchManager ScopeRecorder.

(** ** Settings *)

Definition defaultResyncPeriod : Z := 30 * second.
Definition defaultDebounceDelay : Z := 500 * 1000000.
Definition defaultSettleQuietPeriod : Z := 5 * second.
Definition stopWaitTimeout : Z := 30 * second.

(** [Options]: which dependencies are there, and the tunable periods. *)
Record watchOptions := mkWatchOptions {
  wo_Registry : bool;
  wo_Resolver : bool;
  wo_Dynamic : bool;
  wo_Pipeline : bool;
  wo_ResyncPeriod : Z;
  wo_DebounceDelay : Z;
  wo_SettleQuietPeriod : Z;
  wo_StopTimeout : Z;
}.

Record loopSettings := mkSettings {
  ls_resyncPeriod : Z;
  ls_debounceDelay : Z;
  ls_settleQuietPeriod : Z;
  ls_stopTimeout : Z;
}.

Definition watch_New (opts : watchOptions) : result loopSettings :=
  if negb (wo_Registry opts) then Err "watch: Options.Registry is required"
  else if negb (wo_Resolver opts) then Err "watch: Options.Resolver is required"
  else if negb (wo_Dynamic opts) then Err "watch: Options.Dynamic is required"
  else if negb (wo_Pipeline opts) then Err "watch: Options.Pipeline is required"
  else Ok (mkSettings (or_default defaultResyncPeriod (wo_ResyncPeriod opts))
             (or_default defaultDebounceDelay (wo_DebounceDelay opts))
             (or_default defaultSettleQuietPeriod (wo_SettleQuietPeriod opts))
             (if Z.ltb 0 (wo_StopTimeout opts) then wo_StopTimeout opts else stopWaitTimeout)).

Section loop.
Context `{LS : LabelSelectors} `{SA : SelectorAPI} `{RN : ResourceNames}.

(** ** The pool *)

(** An informer's goroutine: has its context been cancelled, has [Run] returned. *)
Record goroutine := mkGoroutine { go_key : informerKey; go_cancelled : bool; go_returned : bool }.

(** An entry names its goroutine by its number. *)
Record informerEntry := mkEntry { ie_id : nat; ie_gvk : GroupVersionKind; ie_informer : informer }.

Record informerPool := mkPool { p_entries : gmap informerKey informerEntry; p_goroutines : list goroutine }.

Definition newPool : informerPool := mkPool ∅ [].

Definition pool_size (p : informerPool) : nat := size (p_entries p).
Definition pool_view (p : informerPool) : gmap informerKey informer := ie_informer <$> p_entries p.

Definition informerKey_le (a b : informerKey) : Prop :=
  if decide (GVR_String (ik_GVR a) = GVR_String (ik_GVR b)) then String.le (ik_Namespace a) (ik_Namespace b)
  else String.le (GVR_String (ik_GVR a)) (GVR_String (ik_GVR b)).
#[export] Instance informerKey_le_dec : RelDecision informerKey_le.
Proof. intros a b. unfold informerKey_le. case_decide; apply String.le_dec. Defined.

Definition keys {V} (m : gmap informerKey V) : list informerKey := merge_sort informerKey_le (map fst (map_to_list m)).

(** What setting up one informer answers, and the informer that runs if it does. *)
Record startAnswer := mkStartAnswer {
  sa_SetTransform : option error;
  sa_SetWatchErrorHandler : option error;
  sa_AddEventHandler : option error;
  sa_informer : informer;
}.

(** [pool.start]; [ctxDone] is whether the loop's context has ended, from which the
    informer's derives. *)
Definition pool_start (ctxDone : bool) (answer : startAnswer) (key : informerKey) (gvk : GroupVersionKind)
    (p : informerPool) : informerPool * option error :=
  match sa_SetTransform answer with
  | Some e => (p, Some ("install informer transform for " +:+ informerKey_String key +:+ ": " +:+ e))
  | None =>
      match sa_SetWatchErrorHandler answer with
      | Some e => (p, Some ("install watch error handler for " +:+ informerKey_String key +:+ ": " +:+ e))
      | None =>
          match sa_AddEventHandler answer with
          | Some e => (p, Some ("register event handler for " +:+ informerKey_String key +:+ ": " +:+ e))
          | None =>
              match p_entries p !! key with
              | Some _ => (p, Some ("informer for " +:+ informerKey_String key +:+ " is already running"))
              | None =>
                  (mkPool (<[key := mkEntry (length (p_goroutines p)) gvk (sa_informer answer)]> (p_entries p))
                     (p_goroutines p ++ [mkGoroutine key ctxDone false]), None)
              end
          end
      end
  end.

Definition cancel_goroutine (id : nat) (l : list goroutine) : list goroutine :=
  alter (fun g => mkGoroutine (go_key g) true (go_returned g)) id l.

(** [pool.stop] up to its bounded wait, whose outcome is only logged. *)
Definition pool_stop (key : informerKey) (p : informerPool) : informerPool :=
  match p_entries p !! key with
  | None => p
  | Some entry => mkPool (delete key (p_entries p)) (cancel_goroutine (ie_id entry) (p_goroutines p))
  end.

Definition retain_start (ctxDone : bool) (answers : informerKey -> GroupVersionKind -> startAnswer)
    (wanted : gmap informerKey GroupVersionKind) (p : informerPool) (key : informerKey) : informerPool :=
  match p_entries p !! key, wanted !! key with
  | None, Some gvk => (pool_start ctxDone (answers key gvk) key gvk p).1
  | _, _ => p
  end.

Definition pool_retain (ctxDone : bool) (answers : informerKey -> GroupVersionKind -> startAnswer)
    (wanted : gmap informerKey GroupVersionKind) (p : informerPool) : informerPool :=
  let stopped := foldl (fun p key => match wanted !! key with Some _ => p | None => pool_stop key p end)
                   p (keys (p_entries p)) in
  foldl (retain_start ctxDone answers wanted) stopped (keys wanted).

(** [pool.stopAll]: every informer is cancelled before any is waited for. *)
Definition pool_stopAll (p : informerPool) : informerPool :=
  mkPool ∅ (foldl (fun l e => cancel_goroutine (ie_id e) l) (p_goroutines p) (map snd (map_to_list (p_entries p)))).

(** ** The loop *)

Inductive phase :=
| NotStarted
| Selecting
| Debouncing (until : Z)
| Passing (snapshot : gmap TargetKey TargetState)
| Returned.

Record loopState := mkLoop {
  lp_registry : Registry;
  lp_table : interestTable;
  lp_pool : informerPool;
  lp_started : gset interestID;
  lp_phase : phase;
  lp_settle : option Z;
  lp_tick : Z;
  lp_settleDone : bool;
  lp_ctxDone : bool;
  lp_now : Z;
  lp_effects : list effect;
}.

Definition newLoop (r : Registry) : loopState :=
  mkLoop r newInterestTable newPool ∅ NotStarted None 0 false false 0 [].

Definition set_registry (r : Registry) (s : loopState) : loopState :=
  mkLoop r (lp_table s) (lp_pool s) (lp_started s) (lp_phase s) (lp_settle s) (lp_tick s) (lp_settleDone s) (lp_ctxDone s)
    (lp_now s) (lp_effects s).
Definition set_phase (ph : phase) (s : loopState) : loopState :=
  mkLoop (lp_registry s) (lp_table s) (lp_pool s) (lp_started s) ph (lp_settle s) (lp_tick s) (lp_settleDone s) (lp_ctxDone s)
    (lp_now s) (lp_effects s).
Definition set_pool (p : informerPool) (s : loopState) : loopState :=
  mkLoop (lp_registry s) (lp_table s) p (lp_started s) (lp_phase s) (lp_settle s) (lp_tick s) (lp_settleDone s) (lp_ctxDone s)
    (lp_now s) (lp_effects s).
Definition set_settle (at_ : option Z) (s : loopState) : loopState :=
  mkLoop (lp_registry s) (lp_table s) (lp_pool s) (lp_started s) (lp_phase s) at_ (lp_tick s) (lp_settleDone s) (lp_ctxDone s)
    (lp_now s) (lp_effects s).
Definition set_tick (at_ : Z) (s : loopState) : loopState :=
  mkLoop (lp_registry s) (lp_table s) (lp_pool s) (lp_started s) (lp_phase s) (lp_settle s) at_ (lp_settleDone s) (lp_ctxDone s)
    (lp_now s) (lp_effects s).
Definition set_now (t : Z) (s : loopState) : loopState :=
  mkLoop (lp_registry s) (lp_table s) (lp_pool s) (lp_started s) (lp_phase s) (lp_settle s) (lp_tick s) (lp_settleDone s)
    (lp_ctxDone s) t (lp_effects s).

(** The context ends, and with it every informer's. *)
Definition loop_cancel (s : loopState) : loopState :=
  let p := lp_pool s in
  mkLoop (lp_registry s) (lp_table s)
    (mkPool (p_entries p) (map (fun g => mkGoroutine (go_key g) true (go_returned g)) (p_goroutines p)))
    (lp_started s) (lp_phase s) (lp_settle s) (lp_tick s) (lp_settleDone s) true (lp_now s) (lp_effects s).

(** [markSettled]. *)
Definition markSettled (s : loopState) : loopState :=
  if lp_settleDone s then s
  else mkLoop (lp_registry s) (lp_table s) (lp_pool s) (lp_started s) (lp_phase s) (lp_settle s) (lp_tick s) true (lp_ctxDone s)
         (lp_now s) (lp_effects s).

(** What a pass meets after its snapshot. *)
Record passEnv := mkPassEnv {
  pe_resolve : GroupVersionKind -> result (GroupVersionResource * bool);
  pe_answers : informerKey -> GroupVersionKind -> startAnswer;
}.

(** [reconcilePool] on a snapshot, with the pool's goroutines. *)
Definition loop_pass (e : passEnv) (snapshot : gmap TargetKey TargetState) (s : loopState) : loopState :=
  let '(desired, wanted) := translate (pe_resolve e) snapshot in
  let '(table', removed) := replace desired (lp_table s) in
  let started1 := foldl (fun st i => st ∖ {[ interest_id i ]}) (lp_started s) removed in
  let stops := mjoin (map (fun i => [ScopeStopped i; CallEvictScope (in_sink i) (in_scope i)]) removed) in
  let pool' := pool_retain (lp_ctxDone s) (pe_answers e) wanted (lp_pool s) in
  let serving := newlyServing desired started1 (pool_view pool') in
  mkLoop (lp_registry s) table' pool' (started1 ∪ list_to_set (map interest_id serving)) (lp_phase s) (lp_settle s) (lp_tick s)
    (lp_settleDone s) (lp_ctxDone s) (lp_now s) (lp_effects s ++ stops ++ map ScopeStarted serving).

Inductive loopLabel :=
| LRegistry (op : regOp)
| LTime (t : Z)
| LCancel
| LReturn (id : nat)
| LIndexer (key : informerKey) (inf : informer)
| LBegin
| LChange
| LSwallow
| LWindow
| LInterrupted
| LSettle
| LTick
| LPass (e : passEnv)
| LStop.

(** The next instant of a ticker that is behind. *)
Definition next_tick (period now tick : Z) : Z := (tick + period * ((now - tick) / period + 1))%Z.

Variable S : loopSettings.

Definition begin_pass (s : loopState) : loopState := set_phase (Passing (Snapshot (lp_registry s))) s.

Definition loop_step (l : loopLabel) (s : loopState) : option loopState :=
  match l with
  | LRegistry op => Some (set_registry (run_regOp op (lp_registry s)) s)
  | LTime t => if Z.leb (lp_now s) t then Some (set_now t s) else None
  | LCancel => Some (loop_cancel s)
  | LReturn id =>
      match p_goroutines (lp_pool s) !! id with
      | Some (mkGoroutine key true _) =>
          Some (set_pool (mkPool (p_entries (lp_pool s)) (<[id := mkGoroutine key true true]> (p_goroutines (lp_pool s)))) s)
      | _ => None
      end
  | LIndexer key inf =>
      Some (set_pool (mkPool (alter (fun e => mkEntry (ie_id e) (ie_gvk e) inf) key (p_entries (lp_pool s)))
                       (p_goroutines (lp_pool s))) s)
  | LBegin =>
      match lp_phase s with
      | NotStarted =>
          Some (begin_pass (set_settle (Some (lp_now s + ls_settleQuietPeriod S)%Z)
                 (set_tick (lp_now s + ls_resyncPeriod S)%Z s)))
      | _ => None
      end
  | LChange =>
      match lp_phase s, take_change (lp_registry s) with
      | Selecting, (r, true) =>
          let s1 := set_registry r s in
          let s2 := if lp_settleDone s then s1 else set_settle (Some (lp_now s + ls_settleQuietPeriod S)%Z) s1 in
          Some (set_phase (Debouncing (lp_now s + ls_debounceDelay S)%Z) s2)
      | _, _ => None
      end
  | LSwallow =>
      match lp_phase s, take_change (lp_registry s) with
      | Debouncing _, (r, true) => Some (set_registry r s)
      | _, _ => None
      end
  | LWindow =>
      match lp_phase s with
      | Debouncing until => if Z.leb until (lp_now s) then Some (begin_pass s) else None
      | _ => None
      end
  | LInterrupted =>
      match lp_phase s with
      | Debouncing _ => if lp_ctxDone s then Some (set_phase Selecting s) else None
      | _ => None
      end
  | LSettle =>
      match lp_phase s, lp_settle s with
      | Selecting, Some at_ => if Z.leb at_ (lp_now s) then Some (markSettled (set_settle None s)) else None
      | _, _ => None
      end
  | LTick =>
      match lp_phase s with
      | Selecting =>
          if Z.leb (lp_tick s) (lp_now s)
          then Some (begin_pass (set_tick (next_tick (ls_resyncPeriod S) (lp_now s) (lp_tick s)) s)) else None
      | _ => None
      end
  | LPass e =>
      match lp_phase s with
      | Passing snapshot => Some (set_phase Selecting (loop_pass e snapshot s))
      | _ => None
      end
  | LStop =>
      match lp_phase s with
      | Selecting => if lp_ctxDone s then Some (set_phase Returned (set_pool (pool_stopAll (lp_pool s)) s)) else None
      | _ => None
      end
  end.

Fixpoint loop_run (ls : list loopLabel) (s : loopState) : option loopState :=
  match ls with
  | [] => Some s
  | l :: rest => s' ← loop_step l s; loop_run rest s'
  end.

End loop.
