(* ===== verification/RecorderLoop.v ===== *)
(** * RecorderLoop: the scope recorder's flush loop

    Models [Start] and [signal] of [internal/watch/scope_recorder.go]: the goroutine
    that waits for a wake-up, a tick or the end of its context and flushes the queue,
    cut where transitions of the reconcile loop can come in between, with the final
    drain on shutdown. A transition queues its row under the lock and signals after
    releasing it, so the two are separate steps. *)

From Stdlib Require Import ZArith Lia.
From stdpp Require Import base gmap strings list sorting relations.
From S2P Require Import Prelude Identity Json Redact Registry Interest WatchManager ScopeRecorder.

(** The live writer of a sink's scope log, and its answer. *)
Abbreviation eventRouter := (string -> option (ScopeEvent -> option error)).

(** Where the goroutine is: in its select, at the head of a turn of [flush], between
    an accepted hand-off and its pop, before [reportUnflushed], returned. [draining]
    tells the flush on the way out from the others. *)
Inductive flushPhase :=
| Selecting
| Turning (draining : bool)
| Popping (draining : bool) (next : pendingScopeEvent)
| Reporting
| Returned.

(** The recorder with its loop. [rl_wake] is the one-slot channel, [rl_owed] the
    transitions that queued a row and have yet to signal. The rest is history: every
    row queued, every row accepted, how many rows overflow dropped, whether the last
    flush stopped at a row no writer took, and what shutdown reported. *)
Record recorderLoop := mkRecorderLoop {
  rl_rec : ScopeEpochRecorder;
  rl_wake : bool;
  rl_owed : nat;
  rl_cancelled : bool;
  rl_phase : flushPhase;
  rl_queued : list pendingScopeEvent;
  rl_accepted : list pendingScopeEvent;
  rl_overflow : nat;
  rl_refused : bool;
  rl_unflushed : option nat;
}.

Inductive recorderLabel :=
| RScopeStarted (tr : ScopeTransition)
| RScopeStopped (tr : ScopeTransition)
| RSignal
| RCancel
| RWake
| RTick
| RDone
| RTurn (events : eventRouter)
| RPop
| RReport.

Section loop.
Context `{LS : LabelSelectors} `{RN : ResourceNames}.
Variable clusterID : string.
Variable queueLimit : nat.

Definition newRecorderLoop : recorderLoop :=
  mkRecorderLoop NewScopeEpochRecorder false 0 false Selecting [] [] 0 false None.

Definition set_phase (p : flushPhase) (s : recorderLoop) : recorderLoop :=
  mkRecorderLoop (rl_rec s) (rl_wake s) (rl_owed s) (rl_cancelled s) p (rl_queued s) (rl_accepted s)
    (rl_overflow s) (rl_refused s) (rl_unflushed s).

(** A transition's critical section. *)
Definition loop_transition (out : ScopeEpochRecorder * option pendingScopeEvent * list warmCall)
    (s : recorderLoop) : recorderLoop :=
  let '(r, edge, _) := out in
  mkRecorderLoop r (rl_wake s) (rl_owed s + length (option_list edge)) (rl_cancelled s) (rl_phase s)
    (rl_queued s ++ option_list edge) (rl_accepted s) (rl_overflow s + overflowed queueLimit edge (rl_rec s))
    (rl_refused s) (rl_unflushed s).

(** [signal]: fills the slot, or leaves it full. *)
Definition signal (s : recorderLoop) : recorderLoop :=
  mkRecorderLoop (rl_rec s) true (pred (rl_owed s)) (rl_cancelled s) (rl_phase s) (rl_queued s)
    (rl_accepted s) (rl_overflow s) (rl_refused s) (rl_unflushed s).

(** [flush] is entered: drops are reported, the loop begins. *)
Definition begin_flush (draining wake : bool) (s : recorderLoop) : recorderLoop :=
  mkRecorderLoop (reportDrops (rl_rec s)) wake (rl_owed s) (rl_cancelled s) (Turning draining)
    (rl_queued s) (rl_accepted s) (rl_overflow s) false (rl_unflushed s).

(** One turn of its loop, up to the hand-off or the return. *)
Definition flush_turn (events : eventRouter) (draining : bool) (s : recorderLoop) : recorderLoop :=
  match handOff events (rl_rec s) with
  | Some next =>
      mkRecorderLoop (rl_rec s) (rl_wake s) (rl_owed s) (rl_cancelled s) (Popping draining next)
        (rl_queued s) (rl_accepted s ++ [next]) (rl_overflow s) (rl_refused s) (rl_unflushed s)
  | None =>
      mkRecorderLoop (rl_rec s) (rl_wake s) (rl_owed s) (rl_cancelled s)
        (if draining then Reporting else Selecting) (rl_queued s) (rl_accepted s) (rl_overflow s)
        (bool_decide (pending (rl_rec s) <> [])) (rl_unflushed s)
  end.

Definition flush_pop (draining : bool) (next : pendingScopeEvent) (s : recorderLoop) : recorderLoop :=
  mkRecorderLoop (popIfFront next (rl_rec s)) (rl_wake s) (rl_owed s) (rl_cancelled s) (Turning draining)
    (rl_queued s) (rl_accepted s) (rl_overflow s) (rl_refused s) (rl_unflushed s).

Definition reportUnflushed (s : recorderLoop) : recorderLoop :=
  mkRecorderLoop (rl_rec s) (rl_wake s) (rl_owed s) (rl_cancelled s) Returned (rl_queued s)
    (rl_accepted s) (rl_overflow s) (rl_refused s) (Some (length (pending (rl_rec s)))).

(** [Start], step by step, with what runs beside it. *)
Definition recorder_step (l : recorderLabel) (s : recorderLoop) : option recorderLoop :=
  match l, rl_phase s with
  | RScopeStarted tr, _ => Some (loop_transition (ScopeStarted_ clusterID queueLimit tr (rl_rec s)) s)
  | RScopeStopped tr, _ => Some (loop_transition (ScopeStopped_ clusterID queueLimit tr (rl_rec s)) s)
  | RSignal, _ => if Nat.ltb 0 (rl_owed s) then Some (signal s) else None
  | RCancel, _ =>
      if rl_cancelled s then None
      else Some (mkRecorderLoop (rl_rec s) (rl_wake s) (rl_owed s) true (rl_phase s) (rl_queued s)
                   (rl_accepted s) (rl_overflow s) (rl_refused s) (rl_unflushed s))
  | RWake, Selecting => if rl_wake s then Some (begin_flush false false s) else None
  | RTick, Selecting => Some (begin_flush false (rl_wake s) s)
  | RDone, Selecting =>
      if rl_cancelled s then
        match pending (rl_rec s) with
        | [] => Some (set_phase Reporting s)
        | _ => Some (begin_flush true (rl_wake s) s)
        end
      else None
  | RTurn events, Turning draining => Some (flush_turn events draining s)
  | RPop, Popping draining next => Some (flush_pop draining next s)
  | RReport, Reporting => Some (reportUnflushed s)
  | _, _ => None
  end.

Fixpoint recorder_run (ls : list recorderLabel) (s : recorderLoop) : option recorderLoop :=
  match ls with
  | [] => Some s
  | l :: rest => s' ← recorder_step l s; recorder_run rest s'
  end.

(** ** The queue's history *)

Definition inflight (p : flushPhase) : option pendingScopeEvent :=
  match p with Popping _ next => Some next | _ => None end.

Definition loop_history (s : recorderLoop) : history :=
  mkHistory (rl_rec s) (rl_queued s) (rl_accepted s) (inflight (rl_phase s)) (rl_overflow s).

(** Split the steps of the loop. *)
Ltac recorder_cases l s E :=
  destruct l; cbn [recorder_step] in E;
  destruct (rl_phase s) as [|dr|dr nx| |] eqn:Eph; try discriminate E;
  repeat match type of E with
    | (if ?b then _ else _) = _ => destruct b eqn:?; try discriminate E
    | match pending ?r with [] => _ | _ => _ end = _ => destruct (pending r) eqn:?
    end;
  injection E as <-.

(** Each step of the loop is a step of the queue's history, or none. *)
Lemma recorder_step_history l s s' :
  recorder_step l s = Some s' -> rtc (history_step clusterID queueLimit) (loop_history s) (loop_history s').
Proof.
  intros E. recorder_cases l s E; unfold loop_history; cbn; rewrite ?Eph; cbn; try reflexivity;
    unfold loop_transition; try (apply rtc_once; try constructor; fail).
  all: try (destruct (ScopeStarted_ _ _ _ _) as [[r edge] calls] eqn:Et; cbn; rewrite Eph; by apply rtc_once; eapply hs_started).
  all: try (destruct (ScopeStopped_ _ _ _ _) as [[r edge] calls] eqn:Et; cbn; rewrite Eph; by apply rtc_once; eapply hs_stopped).
  unfold flush_turn. destruct (handOff events (rl_rec s)) as [next|] eqn:Eh; cbn; [|by destruct dr].
  apply rtc_once. by eapply hs_handoff.
Qed.

Lemma recorder_run_history ls s s' :
  recorder_run ls s = Some s' -> history_ok (loop_history s) -> history_ok (loop_history s').
Proof.
  revert s. induction ls as [|l ls IH]; intros s E H; cbn [recorder_run] in E; [by injection E as <-|].
  apply bind_Some in E as (s1 & E1 & E). apply (IH s1); [done|]. apply recorder_step_history in E1.
  induction E1 as [|h1 h2 h3 Hs _ IHr]; [done|]. by eapply IHr, history_step_ok.
Qed.

(** ** No transition is left waiting unnoticed *)

(** While the goroutine waits with rows queued, a flush is due. *)
Definition flush_due (s : recorderLoop) : Prop :=
  rl_phase s = Selecting -> pending (rl_rec s) <> [] -> rl_wake s = true \/ (0 < rl_owed s)%nat \/ rl_refused s = true.

Lemma transition_due out s :
  pending out.1.1 = drop (overflowed queueLimit out.1.2 (rl_rec s)) (pending (rl_rec s) ++ option_list out.1.2) ->
  flush_due s -> flush_due (loop_transition out s).
Proof.
  destruct out as [[r [e|]] calls]; cbn; intros Hp Hd.
  - intros _ _. right. left. cbn. lia.
  - intros Hph Hne. cbn in *. rewrite app_nil_r, drop_0 in Hp. rewrite Hp in Hne. destruct (Hd Hph Hne) as [?|[?|?]]; auto.
    right. left. lia.
Qed.

Lemma transition_out_queue tr r out :
  ScopeStarted_ clusterID queueLimit tr r = out \/ ScopeStopped_ clusterID queueLimit tr r = out ->
  pending out.1.1 = drop (overflowed queueLimit out.1.2 r) (pending r ++ option_list out.1.2).
Proof. destruct out as [[r' edge] calls]. apply transition_queue. Qed.

Lemma recorder_step_due l s s' : recorder_step l s = Some s' -> flush_due s -> flush_due s'.
Proof.
  intros E. recorder_cases l s E; intros Hd; try (intros Hph; cbn in Hph; congruence);
    try (apply transition_due; [eapply transition_out_queue; eauto|done]);
    try (intros Hph Hne; cbn in *; auto; fail).
  unfold flush_turn. destruct (handOff events (rl_rec s)); intros Hph Hne; cbn in *; [done|]. right. right.
  by apply bool_decide_eq_true.
Qed.

Lemma recorder_run_due ls s s' : recorder_run ls s = Some s' -> flush_due s -> flush_due s'.
Proof.
  revert s. induction ls as [|l ls IH]; intros s E H; cbn [recorder_run] in E; [by injection E as <-|].
  apply bind_Some in E as (s1 & E1 & E). apply (IH s1); [done|]. by eapply recorder_step_due.
Qed.

(** ** The loop ends, and drains *)

(** What the goroutine still has to do, in steps. *)
Definition phase_work (p : flushPhase) (q : list pendingScopeEvent) : nat :=
  match p with
  | Selecting => 3
  | Turning draining => if draining then 2 else 4
  | Popping draining next =>
      let turn := if draining then 2 else 4 in
      match q with first :: _ => if decide (first = next) then turn - 1 else turn + 1 | [] => turn + 1 end
  | Reporting => 1
  | Returned => 0
  end.

Definition loop_work (s : recorderLoop) : nat :=
  2 * length (pending (rl_rec s)) + phase_work (rl_phase s) (pending (rl_rec s)) +
  (if rl_wake s then 2 else 0) + 3 * rl_owed s + (if rl_cancelled s then 0 else 1).

(** No transition, and every writer is live and takes the row. *)
Definition undisturbed (l : recorderLabel) : Prop :=
  match l with
  | RScopeStarted _ | RScopeStopped _ => False
  | RTurn events => forall name event, exists enqueue, events name = Some enqueue /\ enqueue event = None
  | _ => True
  end.

Definition is_tick (l : recorderLabel) : bool := match l with RTick => true | _ => false end.

Definition ticks (ls : list recorderLabel) : nat := length (filter (fun l => is_tick l = true) ls).

Lemma accepting_handOff events r :
  (forall name event, exists enqueue, events name = Some enqueue /\ enqueue event = None) ->
  handOff events r = head (pending r).
Proof.
  intros Ha. unfold handOff. destruct (pending r) as [|next rest]; [done|].
  destruct (Ha (pe_sink next) (pe_event next)) as (enqueue & -> & ->). done.
Qed.

Lemma pending_popIfFront next r :
  pending (popIfFront next r) =
  match pending r with first :: rest => if decide (first = next) then rest else first :: rest | [] => [] end.
Proof. unfold popIfFront. destruct (pending r) eqn:Ep; [done|]. case_decide; [done|]. exact Ep. Qed.

Lemma undisturbed_step_work l s s' :
  undisturbed l -> recorder_step l s = Some s' ->
  (1 + loop_work s' <= loop_work s + if is_tick l then 2 else 0)%nat.
Proof.
  intros Hu E. recorder_cases l s E; try done; unfold loop_work; cbn; rewrite ?Eph; cbn;
    repeat match goal with H : rl_wake _ = _ |- _ => rewrite H | H : rl_cancelled _ = _ |- _ => rewrite H
      | H : pending _ = _ |- _ => rewrite H | H : Nat.ltb _ _ = true |- _ => apply Nat.ltb_lt in H end;
    try (destruct (rl_wake s); cbn; lia); try lia.
  - unfold flush_turn. rewrite accepting_handOff by done. destruct (pending (rl_rec s)) as [|next rest] eqn:Ep; cbn; rewrite Ep; cbn.
    + destruct dr; cbn; lia.
    + rewrite decide_True by done. destruct dr; cbn; lia.
  - rewrite pending_popIfFront. destruct (pending (rl_rec s)) as [|first rest]; cbn; [destruct dr; lia|].
    case_decide; destruct dr; cbn; lia.
Qed.

Lemma undisturbed_run_work ls s s' :
  Forall undisturbed ls -> recorder_run ls s = Some s' -> (length ls + loop_work s' <= loop_work s + 2 * ticks ls)%nat.
Proof.
  intros HF. revert s. induction HF as [|l ls Hl HF IH]; intros s E; cbn [recorder_run] in E; [injection E as <-; cbn; lia|].
  apply bind_Some in E as (s1 & E1 & E). specialize (IH s1 E). apply undisturbed_step_work in E1; [|done].
  unfold ticks in *. rewrite filter_cons. destruct (is_tick l); [rewrite decide_True by done|rewrite decide_False by done];
    cbn [length] in *; lia.
Qed.

(** On its way out, an undisturbed loop has nothing left. *)
Definition leaves_empty (s : recorderLoop) : Prop :=
  match rl_phase s with
  | Reporting => pending (rl_rec s) = []
  | Returned => pending (rl_rec s) = [] /\ rl_unflushed s = Some O
  | _ => True
  end.

Lemma undisturbed_step_empty l s s' :
  undisturbed l -> recorder_step l s = Some s' -> leaves_empty s -> leaves_empty s'.
Proof.
  intros Hu E. unfold leaves_empty. recorder_cases l s E; cbn; rewrite ?Eph; cbn; try done.
  - unfold flush_turn. rewrite accepting_handOff by done. destruct (pending (rl_rec s)) eqn:Ep; cbn; [|done]. by destruct dr.
  - intros ->. done.
Qed.

Lemma undisturbed_run_empty ls s s' :
  Forall undisturbed ls -> recorder_run ls s = Some s' -> leaves_empty s -> leaves_empty s'.
Proof.
  intros HF. revert s. induction HF as [|l ls Hl HF IH]; intros s E H; cbn [recorder_run] in E; [by injection E as <-|].
  apply bind_Some in E as (s1 & E1 & E). apply (IH s1); [done|]. by eapply undisturbed_step_empty.
Qed.

(** A cancelled loop that has not returned can take a step of its own. *)
Lemma cancelled_moves s events :
  rl_cancelled s = true -> rl_phase s <> Returned ->
  exists l s', recorder_step l s = Some s' /\ l ∈ [RDone; RTurn events; RPop; RReport].
Proof.
  intros Hc Hp. destruct (rl_phase s) as [|dr|dr nx| |] eqn:Eph; [| | | |done].
  - exists RDone. cbn. rewrite Eph, Hc. destruct (pending (rl_rec s)); eexists; (split; [done|set_solver]).
  - exists (RTurn events). cbn. rewrite Eph. eexists. split; [done|set_solver].
  - exists RPop. cbn. rewrite Eph. eexists. split; [done|set_solver].
  - exists RReport. cbn. rewrite Eph. eexists. split; [done|set_solver].
Qed.
End loop.

Lemma history_accepted h :
  history_ok h -> sublist (h_accepted h) (h_emitted h) /\ (h_lost h = O -> h_accepted h `prefix_of` h_emitted h).
Proof.
  assert (H : forall q, in_order (h_accepted h) q (h_emitted h) (h_lost h) ->
    sublist (h_accepted h) (h_emitted h) /\ (h_lost h = O -> h_accepted h `prefix_of` h_emitted h)).
  { intros q [Hs He]. split.
    - etransitivity; [|exact Hs]. by apply sublist_inserts_r.
    - intros Hl. exists q. by rewrite He. }
  unfold history_ok. destruct (h_inflight h); [|apply H]. intros [(rest & _ & Hi)|[_ Hi]]; by eapply H.
Qed.

Section properties.
Context `{LS : LabelSelectors} `{RN : ResourceNames}.

(** C34. Epoch edges reach the scope log. However transitions, signals, ticks, hand-offs
    and a cancellation interleave: rows are accepted in the order they were queued, and
    without overflow none is skipped; while the loop waits with rows queued, a wake-up
    is in the channel or about to be, or the last flush stopped at a row no writer
    took, so no transition waits unnoticed. Once no more transitions come and every
    writer takes its rows, the loop takes boundedly many steps besides those of its
    ticker, can always move while it is cancelled and has not returned, and when it
    returns it reports nothing unflushed: every row queued and not dropped by overflow
    was accepted. *)
Theorem scope_transitions_delivered clusterID queueLimit before s :
  recorder_run clusterID queueLimit before newRecorderLoop = Some s ->
  sublist (rl_accepted s) (rl_queued s) /\ (rl_overflow s = O -> rl_accepted s `prefix_of` rl_queued s) /\
  (rl_phase s = Selecting -> pending (rl_rec s) <> [] ->
     rl_wake s = true \/ (0 < rl_owed s)%nat \/ rl_refused s = true) /\
  forall after s',
    rl_phase s <> Reporting -> rl_phase s <> Returned ->
    Forall undisturbed after -> recorder_run clusterID queueLimit after s = Some s' ->
    (length after <= loop_work s + 2 * ticks after)%nat /\
    (rl_cancelled s' = true -> rl_phase s' <> Returned ->
       exists l s'', undisturbed l /\ is_tick l = false /\ recorder_step clusterID queueLimit l s' = Some s'') /\
    (rl_phase s' = Returned ->
       rl_unflushed s' = Some O /\ (rl_overflow s' = O -> rl_accepted s' = rl_queued s')).
Proof.
  intros E. assert (Hh : history_ok (loop_history s)) by (apply (recorder_run_history _ _ _ _ _ E); split; done).
  destruct (history_accepted _ Hh) as [Hsub Hpre]. split_and!; [exact Hsub|exact Hpre| |].
  - apply (recorder_run_due _ _ _ _ _ E). intros _ Hne. done.
  - intros after s' H1 H2 HF E'. pose proof (undisturbed_run_work _ _ _ _ _ HF E') as Hw. split_and!; [lia| |].
    + intros Hc Hp. destruct (cancelled_moves clusterID queueLimit s' (fun _ => Some (fun _ => None)) Hc Hp) as (l & s'' & Es & Hl).
      exists l, s''. rewrite !elem_of_cons in Hl. destruct Hl as [->|[->|[->|[->|?%not_elem_of_nil]]]]; try done.
      split_and!; try done. cbn. eauto.
    + intros Hp. apply (undisturbed_run_empty _ _ _ _ _ HF) in E' as He; [|unfold leaves_empty; by destruct (rl_phase s)].
      unfold leaves_empty in He. rewrite Hp in He. destruct He as [He Hn]. split; [done|]. intros Ho.
      pose proof (recorder_run_history _ _ _ _ _ E' Hh) as Hh'. unfold history_ok, loop_history in Hh'. cbn in Hh'.
      rewrite Hp in Hh'. cbn in Hh'. destruct Hh' as [_ Hq]. specialize (Hq Ho). by rewrite He, app_nil_r in Hq.
Qed.
End properties.

(** ** Witness *)

Module RecorderSamples.
Import ScopeRecorder.Samples.

(** A scope starts and stops; the sink is away at first, then back; the operator
    shuts down with both rows queued. *)
Definition away : eventRouter := fun _ => None.
Definition back : eventRouter := fun _ => Some (fun _ => None).

Definition queued_up : list recorderLabel :=
  [RScopeStarted (sample_transition "t"); RSignal; RWake; RTurn away; RScopeStopped (sample_transition "t")].
Definition shut_down : list recorderLabel :=
  [RCancel; RDone; RTurn back; RPop; RTurn back; RPop; RTurn back; RReport].

Definition before_shutdown : recorderLoop := default newRecorderLoop (recorder_run "c1" 8 queued_up newRecorderLoop).
Definition after_shutdown : recorderLoop := default newRecorderLoop (recorder_run "c1" 8 shut_down before_shutdown).

Lemma scope_transitions_delivered_witness :
  length (rl_queued after_shutdown) = 2%nat /\ rl_accepted after_shutdown = rl_queued after_shutdown.
Proof.
  split; [vm_compute; reflexivity|].
  destruct (scope_transitions_delivered "c1" 8 queued_up before_shutdown) as (_ & _ & _ & H).
  - vm_compute. reflexivity.
  - destruct (H shut_down after_shutdown) as (_ & _ & Hr).
    + vm_compute. discriminate.
    + vm_compute. discriminate.
    + repeat constructor; intros; by eexists.
    + vm_compute. reflexivity.
    + apply Hr; vm_compute; reflexivity.
Defined.
End RecorderSamples.
