(* ===== verification/ProcessFacts.v ===== *)
(** * ProcessFacts: what settling a work item guarantees

    A small Hoare logic for the monad [M], the step relation of a running
    pipeline (work items, commit callbacks in any order and with any outcome,
    lifecycle hooks), and the invariants of every reachable state: which rows can
    be written, and what a work item can touch. *)

From Stdlib Require Import ZArith Lia.
From stdpp Require Import base gmap strings list.
From S2P Require Import Prelude Identity HashCache Sha256 Json Redact Normalize Pipeline JsonPatch Process.
From S2P Require Import Warm.

(** ** Triples *)

Definition hoare {A} (P : pstate -> Prop) (m : M A) (Q : A -> pstate -> Prop) : Prop :=
  forall s, P s -> Q (m s).2 (m s).1.

(** [m] preserves [P]. *)
Definition keeps {A} (P : pstate -> Prop) (m : M A) : Prop := hoare P m (fun _ => P).

Lemma hoare_bind {A B} P Q R (m : M A) (f : A -> M B) :
  hoare P m Q -> (forall a, hoare (Q a) (f a) R) -> hoare P (m ≫= f) R.
Proof.
  intros Hm Hf s Hs. unfold mbind, M_bind. specialize (Hm s Hs).
  destruct (m s) as [s' a]. simpl in Hm. by apply Hf.
Qed.

Lemma keeps_bind {A B} P (m : M A) (f : A -> M B) :
  keeps P m -> (forall a, keeps P (f a)) -> keeps P (m ≫= f).
Proof. intros Hm Hf. by eapply hoare_bind. Qed.

Lemma keeps_ret {A} P (a : A) : keeps P (mret a).
Proof. by intros s Hs. Qed.

Lemma keeps_when P b m : keeps P m -> keeps P (when b m).
Proof. destruct b; [done|]. intros _. apply keeps_ret. Qed.

Create HintDb keeps.
#[export] Hint Resolve keeps_ret keeps_when : keeps.

(** Split a handler into its calls. *)
Ltac keeps_steps :=
  repeat first
    [ match goal with |- keeps _ (mbind _ _) => apply keeps_bind; [|intros ?] end
    | progress eauto with keeps
    | case_match
    | progress cbn beta zeta ].

(** ** Heap lemmas *)

Lemma deref_store_eq s loc st : deref (store loc st s) loc = st.
Proof. unfold deref, store. simpl. by rewrite lookup_insert_eq. Qed.

Lemma deref_store_ne s loc loc' st : loc <> loc' -> deref (store loc st s) loc' = deref s loc'.
Proof. intros. unfold deref, store. simpl. by rewrite lookup_insert_ne. Qed.

Lemma deref_store s loc loc' st :
  deref (store loc st s) loc' = if decide (loc = loc') then st else deref s loc'.
Proof. case_decide; [subst; apply deref_store_eq|by apply deref_store_ne]. Qed.

Lemma deref_set_metrics m s loc : deref (set_metrics m s) loc = deref s loc.
Proof. reflexivity. Qed.

(** ** Rows *)

(** A row that carries the whole state, with its hash. *)
Definition full_row (r : Record_) : Prop := Data r <> "" /\ SHA256 r = sha256_hex (Data r).

Definition row_ephemeral (r : Record_) : bool := ephemeralKind (r_APIGroup r) (r_Kind r).

(** The row's diff is the patch that leads from an earlier document of the object to
    the one whose hash the row carries. *)
Definition diff_row `{D : JsonDiff} (r : Record_) (document : string) : Prop :=
  SHA256 r = sha256_hex document /\
  exists baseline patch, CompareJSON baseline document = Ok patch /\ MarshalPatch patch = Ok (Diff r).

(** The shapes of rows of schema v1. *)
Inductive row_ok `{D : JsonDiff} (r : Record_) : Prop :=
| row_deleted : EventType r = "Deleted" -> Data r = "" -> Diff r = "" -> SHA256 r = "" ->
    row_ephemeral r = false -> row_ok r
| row_added : EventType r = "Added" -> full_row r -> Diff r = "" -> row_ok r
| row_snapshot : EventType r = "Snapshot" -> full_row r -> Diff r = "" ->
    row_ephemeral r = false -> row_ok r
| row_modified_full : EventType r = "Modified" -> full_row r -> Diff r = "" -> row_ok r
| row_modified_diff document : EventType r = "Modified" -> Data r = "" -> document <> "" ->
    diff_row r document -> row_ephemeral r = false -> row_ok r
| row_checkpoint : EventType r = "Checkpoint" -> full_row r -> diff_row r (Data r) ->
    row_ephemeral r = false -> row_ok r.

(** The cache key of a row's identity. *)
Definition row_key (r : Record_) : string :=
  cacheKey (mkKey "" (r_APIGroup r) (r_Kind r) (r_Namespace r) (r_Name r)).

(** A close-out owed under [objectKey]. *)
Definition closeout_ok `{D : JsonDiff} (objectKey : string) (r : Record_) : Prop :=
  row_ok r /\ EventType r = "Deleted" /\ row_key r = objectKey.

Definition job_ok `{D : JsonDiff} (job : Job) : Prop :=
  row_ok (j_Record job) /\
  match j_Commit job with
  | CommitUpsert key _ objectKey _ _ _ | CommitDelete key _ objectKey _ =>
      objectKey = cacheKey key /\ row_key (j_Record job) = objectKey
  | CommitCloseOut _ _ objectKey record => record = j_Record job /\ closeout_ok objectKey record
  end.

(** What holds of every row handed to a sink, with its callback, and of every
    close-out still owed, whatever it is: the calls a handler makes keep it as long
    as what they hand out or owe has it. *)
Section rows_inv.
Context `{C : ZstdCodec}.
Variable Pjob : Job -> Prop.
Variable Pown : string -> Record_ -> Prop.

Definition rows_inv (s : pstate) : Prop :=
  Forall (fun nj => Pjob nj.2) (sent s) /\
  forall loc k, Forall (Pown k) (default [] (closeOuts (deref s loc) !! k)).

Lemma rows_inv_same s s' :
  sent s' = sent s -> (forall loc, closeOuts (deref s' loc) = closeOuts (deref s loc)) ->
  rows_inv s -> rows_inv s'.
Proof. intros Hs Hc [H1 H2]. split; [by rewrite Hs|]. intros loc k. rewrite Hc. apply H2. Qed.

Lemma rows_inv_modify f :
  (forall s, sent (f s) = sent s) ->
  (forall s loc, closeOuts (deref (f s) loc) = closeOuts (deref s loc)) ->
  keeps rows_inv (modify f).
Proof. intros H1 H2 s Hs. simpl. by apply (rows_inv_same s). Qed.

Lemma rows_inv_on_cache {A} loc (op : hashCache -> hashCache * A) : keeps rows_inv (on_cache loc op).
Proof.
  intros s Hs. unfold on_cache. destruct (op _) as [c a]. simpl.
  eapply rows_inv_same, Hs; [done|]. intros l. rewrite deref_store. by case_decide; subst.
Qed.

Lemma rows_inv_now e : keeps rows_inv (now e).
Proof. intros s Hs. by apply (rows_inv_same s). Qed.

Lemma rows_inv_queue c : keeps rows_inv (queue_call c).
Proof. by apply rows_inv_modify. Qed.

Lemma rows_inv_inc_dedup : keeps rows_inv inc_dedupSkips.
Proof. by apply rows_inv_modify. Qed.

Lemma rows_inv_inc_dropped reason : keeps rows_inv (inc_dropped reason).
Proof. by apply rows_inv_modify. Qed.

Lemma rows_inv_entries sink loc : keeps rows_inv (recordCacheEntries sink loc).
Proof. by apply rows_inv_modify. Qed.

Lemma rows_inv_unwarmed key : keeps rows_inv (recordScopeUnwarmed key).
Proof. by apply rows_inv_modify. Qed.

Lemma rows_inv_allow e key : keeps rows_inv (allow e key).
Proof.
  unfold allow. apply keeps_bind; [apply rows_inv_now|]. intros t s Hs.
  destruct (throttle_allow _ _ _ _). by apply (rows_inv_same s).
Qed.

Lemma rows_inv_get name : keeps rows_inv (registry_get name).
Proof.
  intros s Hs. unfold registry_get. destruct (states s !! name); [done|]. destruct Hs as [H1 H2].
  split; [done|]. intros loc k. unfold deref. simpl.
  destruct (decide (nextLoc s = loc)) as [->|Hne].
  - rewrite lookup_insert_eq. constructor.
  - rewrite lookup_insert_ne by done. apply H2.
Qed.

Lemma rows_inv_Enqueue writer sink job :
  Pjob job -> keeps rows_inv (Enqueue writer sink job).
Proof.
  intros Hj s [H1 H2]. unfold Enqueue. destruct (w_Enqueue _ _ _); split; try done.
  simpl. apply Forall_app. split; [done|]. by apply Forall_singleton.
Qed.

Lemma rows_inv_remember loc k r : Pown k r -> keeps rows_inv (remember_closeOut loc k r).
Proof.
  intros Hr s [H1 H2]. split; [done|]. intros l k'. cbn. rewrite deref_store.
  case_decide; [|apply H2]. subst. simpl. unfold closeOuts_Add.
  destruct (decide (k = k')) as [->|Hne].
  - rewrite lookup_insert_eq. simpl. apply Forall_app. split; [apply H2|]. by apply Forall_singleton.
  - rewrite lookup_insert_ne by done. apply H2.
Qed.

#[local] Hint Resolve rows_inv_on_cache rows_inv_now rows_inv_queue rows_inv_inc_dedup
  rows_inv_inc_dropped rows_inv_entries rows_inv_unwarmed rows_inv_allow rows_inv_get
  rows_inv_Enqueue rows_inv_remember : keeps.

Lemma rows_inv_enqueueCloseOut key loc writer okey r :
  Pjob (mkJob r (CommitCloseOut key loc okey r)) -> Pown okey r ->
  keeps rows_inv (enqueueCloseOut key loc writer okey r).
Proof.
  intros Hj Hr. unfold enqueueCloseOut. apply keeps_bind; [by apply rows_inv_Enqueue|].
  intros [err|]; keeps_steps.
Qed.

Lemma rows_inv_retry key loc writer okey :
  (forall r, Pown okey r -> Pjob (mkJob r (CommitCloseOut key loc okey r))) ->
  keeps rows_inv (retryPendingCloseOuts key loc writer okey).
Proof.
  intros Hown. unfold retryPendingCloseOuts.
  apply (hoare_bind _ (fun rs s => Forall (Pown okey) rs /\ rows_inv s)).
  - intros s [H1 H2]. cbn. split; [apply H2|]. split; [done|]. intros l k. rewrite deref_store.
    case_decide; [|apply H2]. subst. simpl. destruct (decide (okey = k)) as [->|Hne].
    + rewrite lookup_delete_eq. constructor.
    + rewrite lookup_delete_ne by done. apply H2.
  - intros rs s [HF Hs]. revert s Hs. induction HF as [|r rs Hr HF IH]; intros s Hs; simpl; [done|].
    apply (keeps_bind rows_inv); [by apply rows_inv_enqueueCloseOut; [apply Hown|]| |done].
    intros _. exact IH.
Qed.

Lemma rows_inv_run_commit c ok :
  (forall key loc okey r, c = CommitCloseOut key loc okey r -> Pown okey r) -> keeps rows_inv (run_commit c ok).
Proof.
  intros Hown. unfold run_commit, revertVersion. destruct c as [| |key loc okey r], ok; keeps_steps.
Qed.

Lemma rows_inv_RemoveSink name : keeps rows_inv (RemoveSink name).
Proof. by apply rows_inv_modify. Qed.

Lemma rows_inv_EvictScope name scope : keeps rows_inv (EvictScope name scope).
Proof.
  intros s Hs. unfold EvictScope, registry_evictScope.
  destruct (registry_lookup name s) as [loc|]; [|done]. cbn.
  apply (rows_inv_same s); [done| |done]. intros l.
  rewrite deref_set_metrics, deref_store. case_decide; subst; simpl;
    rewrite deref_set_metrics; [by rewrite deref_store_eq|by rewrite deref_store_ne].
Qed.

Lemma rows_inv_MarkScopeWarm name scope : keeps rows_inv (MarkScopeWarm name scope).
Proof.
  unfold MarkScopeWarm, registry_markScopeWarm. apply keeps_bind; [eauto with keeps|]. intros loc.
  apply rows_inv_modify; [done|]. intros s l.
  rewrite deref_set_metrics, deref_store. by case_decide; subst.
Qed.

End rows_inv.

#[export] Hint Resolve rows_inv_on_cache rows_inv_now rows_inv_queue rows_inv_inc_dedup
  rows_inv_inc_dropped rows_inv_entries rows_inv_unwarmed rows_inv_allow rows_inv_get
  rows_inv_Enqueue rows_inv_remember : keeps.

(** Everything handed to a sink is a well-formed row, and so is every close-out
    still owed. *)
Abbreviation rows_ok := (rows_inv job_ok closeout_ok).

(** ** Handlers keep rows well formed *)

Lemma Marshal_obj_nonempty m j : Marshal (JObj m) = Ok j -> j <> "".
Proof. simpl. destruct (sequence _); intros [= <-]. done. Qed.

Section rows.
Context `{C : ZstdCodec} `{U : UnstructuredAPI} `{D : JsonDiff}.

Lemma normalized_facts obj policy norm :
  normalizeObject obj policy = Ok norm -> n_JSON norm <> "" /\ n_Hash norm = sha256_hex (n_JSON norm).
Proof.
  unfold normalizeObject, normalized_json. destruct (Apply _ _) as [red|]; [|done].
  destruct (Marshal (JObj red)) as [j|] eqn:Hj; [|done]. intros [= <-]. split; [|done].
  by eapply Marshal_obj_nonempty.
Qed.

Lemma deleted_ok e ts key entry :
  key_ephemeral key = false -> closeout_ok (cacheKey key) (deletedRecord e ts key entry).
Proof. intros He. split; [|done]. by apply row_deleted. Qed.

Lemma rows_ok_enqueueCloseOut key loc writer okey r :
  closeout_ok okey r -> keeps rows_ok (enqueueCloseOut key loc writer okey r).
Proof. intros Hr. apply rows_inv_enqueueCloseOut; [|done]. split; [apply Hr|done]. Qed.

Lemma rows_ok_closeOutOld e key loc writer cached :
  key_ephemeral key = false ->
  keeps rows_ok (closeOutOld e key loc writer (cacheKey key) cached).
Proof.
  intros He. unfold closeOutOld. apply keeps_bind; [eauto with keeps|]. intros [[entry v] []];
    keeps_steps. apply rows_ok_enqueueCloseOut. by apply deleted_ok.
Qed.

(** The marshalled patch of a decision to write a diff. *)
Definition patch_to (json diff : string) : Prop :=
  exists baseline patch, CompareJSON baseline json = Ok patch /\ MarshalPatch patch = Ok diff.

Lemma diff_against_patch cached json diff : diff_against cached json = Some diff -> patch_to json diff.
Proof.
  unfold diff_against, patch_to. intros H. repeat case_match; simplify_eq. eauto.
Qed.

(** What [decide_write] can ask for. *)
Definition write_shape (json : string) (eph : bool) (et diff : string) (full : bool) : Prop :=
  (et = "Added" /\ full = true /\ diff = "") \/ (et = "Modified" /\ full = true /\ diff = "") \/
  (et = "Modified" /\ full = false /\ eph = false /\ patch_to json diff) \/
  (et = "Checkpoint" /\ full = true /\ eph = false /\ patch_to json diff).

Lemma decide_write_rows cached hash uid json eph every et diff full run rev :
  decide_write cached hash uid json eph every = Write et diff full run rev -> write_shape json eph et diff full.
Proof.
  unfold decide_write, write_shape. intros H. repeat case_match; simplify_eq;
    try match goal with E : diff_against _ _ = Some _ |- _ => apply diff_against_patch in E end; naive_solver.
Qed.

(** No write is a deletion. *)
Lemma write_tag cached hash uid json eph every et diff full run rev tag :
  decide_write cached hash uid json eph every = Write et diff full run rev -> tag = et \/ tag = "Snapshot" ->
  String.eqb tag "Deleted" = false.
Proof.
  intros Hd%decide_write_rows Htag. apply String.eqb_neq. unfold write_shape in Hd. destruct Htag as [-> | ->]; naive_solver.
Qed.

Lemma upsert_row_ok e ts key norm obj policy et diff full snapshot :
  normalizeObject obj policy = Ok norm ->
  write_shape (n_JSON norm) (key_ephemeral key) et diff full ->
  (snapshot = true -> et = "Added" /\ key_ephemeral key = false) ->
  row_ok (upsertRecord e ts key norm (if snapshot : bool then "Snapshot" else et) diff full).
Proof.
  intros Hn Hcase Hsnap. apply normalized_facts in Hn as [Hne Hh].
  destruct snapshot.
  - destruct (Hsnap eq_refl) as [-> He].
    destruct Hcase as [(_ & -> & ->)|[(? & _)|[(? & _)|(? & _)]]]; try done. by apply row_snapshot.
  - destruct Hcase as [(-> & -> & ->)|[(-> & -> & ->)|[(-> & -> & ? & ?)|(-> & -> & ? & ?)]]].
    + by apply row_added.
    + by apply row_modified_full.
    + by apply (row_modified_diff _ (n_JSON norm)).
    + by apply row_checkpoint.
Qed.

Lemma rows_ok_export e key loc writer norm et diff full run rev :
  (forall ts, row_ok (upsertRecord e ts key norm et diff full)) ->
  keeps rows_ok (export e key loc writer (cacheKey key) norm et diff full run rev).
Proof.
  intros Hr. unfold export, revertVersion. keeps_steps. apply rows_inv_Enqueue. split; [apply Hr|done].
Qed.

Lemma rows_ok_processUpsert e key loc writer obj :
  keeps rows_ok (processUpsert e key loc writer obj (cacheKey key)).
Proof.
  unfold processUpsert. destruct (redactionFor e key) as [policy|]; [|apply keeps_ret].
  destruct (normalizeObject obj policy) as [norm|err] eqn:Hn; [|apply keeps_ret].
  apply keeps_bind; [by intros s Hs|]. intros cached.
  destruct (decide_write _ _ _ _ _ _) as [|et diff full run rev] eqn:Hd; [keeps_steps|].
  apply keeps_bind.
  { destruct cached as [entry|]; [|apply keeps_ret].
    destruct (reincarnated entry (n_UID norm)), (key_ephemeral key) eqn:He; simpl; try apply keeps_ret.
    by apply rows_ok_closeOutOld. }
  intros _. apply keeps_bind; [by intros s Hs|]. intros warm.
  apply keeps_bind; [auto with keeps|]. intros _.
  apply rows_ok_export. intros ts. apply (upsert_row_ok _ _ _ _ obj policy); [done| |].
  - by apply decide_write_rows in Hd.
  - intros Hs. apply andb_true_iff in Hs as [Hs _]. apply andb_true_iff in Hs as [Hs He].
    apply bool_decide_eq_true in Hs. apply negb_true_iff in He. subst cached. by simplify_eq/=.
Qed.

Lemma rows_ok_emitDelete e key loc writer uid :
  key_ephemeral key = false -> keeps rows_ok (emitDelete e key loc writer uid).
Proof.
  intros He. unfold emitDelete. keeps_steps. apply rows_inv_Enqueue.
  destruct (deleted_ok e a0 key c He) as (? & _ & ?). by split.
Qed.

Lemma rows_ok_Process e key : keeps rows_ok (Process e key).
Proof.
  unfold Process, forgetEphemeral. destruct (lister e key) as [[obj active]|]; [|apply keeps_ret].
  destruct active; simpl; [|keeps_steps].
  destruct (bool_decide (obj = None) && key_ephemeral key) eqn:He; [keeps_steps|].
  destruct (router e (k_Sink key)) as [writer|]; [|keeps_steps].
  apply keeps_bind; [eauto with keeps|]. intros loc.
  apply keeps_bind; [apply rows_inv_retry; intros r Hr; split; [apply Hr|done]|]. intros _.
  destruct obj as [o|]; [apply rows_ok_processUpsert|].
  apply keeps_bind; [|keeps_steps]. by apply rows_ok_emitDelete.
Qed.

Lemma rows_ok_run_commit job ok : job_ok job -> keeps rows_ok (run_commit (j_Commit job) ok).
Proof. intros [_ Hj]. apply rows_inv_run_commit. intros key loc okey r Ec. rewrite Ec in Hj. apply Hj. Qed.

(** ** A running pipeline *)

Definition newPipeline : pstate := mkState ∅ 0 ∅ [] [] 0 0 (mkMetrics 0 ∅ ∅ ∅) ∅.

(** One step: a worker settles an item under any environment, a sink worker runs
    the callback of a job it accepted (in any order, with either outcome), a
    lifecycle hook is called, or a warm in progress seeds an entry, sweeps one
    object or closes out one incarnation. *)
Inductive step : pstate -> pstate -> Prop :=
| step_process s e key : step s (processNext e key s).1
| step_commit s name job ok : (name, job) ∈ sent s -> step s (run_commit (j_Commit job) ok s).1
| step_remove s name : step s (RemoveSink name s).1
| step_evict s name scope : step s (EvictScope name scope s).1
| step_warm s name scope : step s (MarkScopeWarm name scope s).1
| step_seed s name k entry :
    step s ((loc ← registry_get name; on_cache loc (fun c => (StoreIfAbsent k entry c, tt))) s).1
| step_gc s e ref writer target :
    scope_ephemeral (sr_scope ref) = false ->
    step s ((loc ← registry_get (sr_sink ref); gc_target e ref loc writer target) s).1
| step_closeOut s we ref writer prior :
    scope_ephemeral (sr_scope ref) = false ->
    step s ((loc ← registry_get (sr_sink ref); closeOut_priors we ref loc writer 0 [prior]) s).1.

Definition reachable (s : pstate) : Prop := rtc step newPipeline s.

Lemma rows_ok_processNext e key : keeps rows_ok (processNext e key).
Proof.
  unfold processNext. apply keeps_bind; [apply rows_ok_Process|]. intros err. keeps_steps.
Qed.

Lemma rows_ok_gc_target e ref loc writer target :
  scope_ephemeral (sr_scope ref) = false -> keeps rows_ok (gc_target e ref loc writer target).
Proof.
  intros He. unfold gc_target. case_match; [|keeps_steps]. case_match. case_match; [keeps_steps|].
  case_match; [keeps_steps|]. apply keeps_bind; [by apply rows_ok_emitDelete|].
  intros [outcome err]. keeps_steps.
Qed.

Lemma closeOutRecord_ok prior cluster ref :
  scope_ephemeral (sr_scope ref) = false ->
  let key := ref_key ref (ri_namespace prior) (ri_name prior) in
  closeout_ok (cacheKey key) (closeOutRecord prior cluster key).
Proof. intros He key. split; [|done]. by apply row_deleted. Qed.

Lemma rows_ok_closeOut_priors we ref loc writer n priors :
  scope_ephemeral (sr_scope ref) = false -> keeps rows_ok (closeOut_priors we ref loc writer n priors).
Proof.
  intros He. revert n. induction priors as [|prior priors IH]; intros n; simpl; [apply keeps_ret|].
  case_match; [apply keeps_ret|]. apply keeps_bind; [|intros _; apply IH].
  apply rows_ok_enqueueCloseOut. by apply closeOutRecord_ok.
Qed.

Lemma rows_ok_step s s' : step s s' -> rows_ok s -> rows_ok s'.
Proof.
  intros Hstep Hs. destruct Hstep as [s e key|s name job ok Hin|s name|s name scope|s name scope
    |s name k entry|s e ref writer target He|s we ref writer prior He].
  - by apply rows_ok_processNext.
  - apply rows_ok_run_commit; [|done]. destruct Hs as [H1 _].
    rewrite Forall_forall in H1. by apply (H1 (name, job)).
  - by apply rows_inv_RemoveSink.
  - by apply rows_inv_EvictScope.
  - by apply rows_inv_MarkScopeWarm.
  - revert s Hs. change (keeps rows_ok (loc ← registry_get name;
      on_cache loc (fun c => (StoreIfAbsent k entry c, tt)))). keeps_steps.
  - revert s Hs. apply keeps_bind; [eauto with keeps|]. intros loc. by apply rows_ok_gc_target.
  - revert s Hs. apply keeps_bind; [eauto with keeps|]. intros loc. by apply rows_ok_closeOut_priors.
Qed.

Lemma newPipeline_rows : rows_ok newPipeline.
Proof.
  split; [constructor|]. intros loc k. unfold deref. simpl. rewrite lookup_empty. constructor.
Qed.

(** An invariant of the initial state and of every step holds in every reachable
    state. *)
Lemma reachable_ind (P : pstate -> Prop) :
  P newPipeline -> (forall s s', step s s' -> P s -> P s') -> forall s, reachable s -> P s.
Proof.
  intros H0 Hstep s Hs. unfold reachable in Hs. revert H0.
  induction Hs as [x|x y z Hxy _ IH]; [done|]. intros Hx. apply IH. by eapply Hstep.
Qed.
End rows.

(** ** What a work item can touch *)

Definition view (s : pstate) (name : string) : sinkState :=
  match states s !! name with Some loc => deref s loc | None => newSinkState end.

(** The registry hands out distinct, allocated locations. *)
Definition registry_ok (s : pstate) : Prop :=
  (forall n1 n2 loc, states s !! n1 = Some loc -> states s !! n2 = Some loc -> n1 = n2) /\
  (forall n loc, states s !! n = Some loc -> (loc < nextLoc s)%nat).

(** [s'] differs from [s0] at most in the entries of [okey] at [loc]. *)
Definition touched (loc : nat) (okey : string) (s0 s : pstate) : Prop :=
  states s = states s0 /\ nextLoc s = nextLoc s0 /\
  (forall l, l <> loc -> deref s l = deref s0 l) /\
  warm (deref s loc) = warm (deref s0 loc) /\
  (forall k, k <> okey -> cache (deref s loc) !! k = cache (deref s0 loc) !! k) /\
  (forall k, k <> okey -> closeOuts (deref s loc) !! k = closeOuts (deref s0 loc) !! k).

Lemma touched_refl loc okey s : touched loc okey s s.
Proof. by repeat split. Qed.

Lemma touched_heap loc okey s0 s s' :
  heap s' = heap s -> states s' = states s -> nextLoc s' = nextLoc s ->
  touched loc okey s0 s -> touched loc okey s0 s'.
Proof. unfold touched, deref. by intros -> -> ->. Qed.

Section frame.
Context `{C : ZstdCodec} `{U : UnstructuredAPI} `{D : JsonDiff}.
Context (loc : nat) (okey : string) (s0 : pstate).

Let T := touched loc okey s0.

Lemma touched_store st s :
  warm st = warm (deref s loc) ->
  (forall k, k <> okey -> cache st !! k = cache (deref s loc) !! k) ->
  (forall k, k <> okey -> closeOuts st !! k = closeOuts (deref s loc) !! k) ->
  T s -> T (store loc st s).
Proof.
  intros H1 H2 H3 (? & ? & Hl & Hw & Hc & Ho). split; [done|]. split; [done|].
  rewrite deref_store_eq. repeat split; intros.
  - rewrite deref_store_ne by done. by apply Hl.
  - by rewrite H1.
  - by rewrite H2, Hc.
  - by rewrite H3, Ho.
Qed.

Lemma touched_on_cache {A} (op : hashCache -> hashCache * A) :
  (forall c k, k <> okey -> (op c).1 !! k = c !! k) -> keeps T (on_cache loc op).
Proof.
  intros Hop s Hs. unfold on_cache. pose proof (Hop (cache (deref s loc))) as H.
  destruct (op _) as [c a]. simpl in *. by apply touched_store.
Qed.

Lemma touched_Reserve e : keeps T (on_cache loc (Reserve okey e)).
Proof. apply touched_on_cache. intros. by autorewrite with cache_frame. Qed.
Lemma touched_Commit v e : keeps T (on_cache loc (CommitIfCurrent okey v e)).
Proof. apply touched_on_cache. intros. by autorewrite with cache_frame. Qed.
Lemma touched_Delete v : keeps T (on_cache loc (DeleteIfCurrent okey v)).
Proof. apply touched_on_cache. intros. by autorewrite with cache_frame. Qed.
Lemma touched_ReserveDelete u : keeps T (on_cache loc (ReserveDelete okey u)).
Proof. apply touched_on_cache. intros. by autorewrite with cache_frame. Qed.
Lemma touched_Unclaim v : keeps T (on_cache loc (fun c => (UnclaimDelete okey v c, tt))).
Proof. apply touched_on_cache. intros. simpl. by autorewrite with cache_frame. Qed.

Lemma touched_modify f :
  (forall s, heap (f s) = heap s) -> (forall s, states (f s) = states s) ->
  (forall s, nextLoc (f s) = nextLoc s) -> keeps T (modify f).
Proof. intros H1 H2 H3 s Hs. apply (touched_heap _ _ _ s); simpl; auto. Qed.

Lemma touched_now e : keeps T (now e).
Proof. intros s Hs. by apply (touched_heap _ _ _ s). Qed.
Lemma touched_queue c : keeps T (queue_call c).
Proof. by apply touched_modify. Qed.
Lemma touched_inc_dedup : keeps T inc_dedupSkips.
Proof. by apply touched_modify. Qed.
Lemma touched_entries sink l : keeps T (recordCacheEntries sink l).
Proof. by apply touched_modify. Qed.
Lemma touched_unwarmed key : keeps T (recordScopeUnwarmed key).
Proof. by apply touched_modify. Qed.
Lemma touched_Enqueue writer sink job : keeps T (Enqueue writer sink job).
Proof. intros s Hs. unfold Enqueue. by case_match; apply (touched_heap _ _ _ s). Qed.
Lemma touched_load k : keeps T (load loc k).
Proof. by intros s Hs. Qed.
Lemma touched_is_warm k : keeps T (is_warm loc k).
Proof. by intros s Hs. Qed.

Lemma touched_remember r : keeps T (remember_closeOut loc okey r).
Proof.
  intros s Hs. cbn. apply touched_store; try done. intros k Hk. simpl. unfold closeOuts_Add.
  by rewrite lookup_insert_ne.
Qed.

Lemma touched_take : keeps T (on_closeOuts loc (closeOuts_TakeAll okey)).
Proof.
  intros s Hs. cbn. apply touched_store; try done. intros k Hk. simpl. by rewrite lookup_delete_ne.
Qed.

Hint Resolve touched_Reserve touched_Commit touched_Delete touched_ReserveDelete touched_Unclaim
  touched_now touched_queue touched_inc_dedup touched_entries touched_unwarmed touched_Enqueue
  touched_load touched_is_warm touched_remember touched_take : keeps.

Lemma touched_enqueueCloseOut key writer r : keeps T (enqueueCloseOut key loc writer okey r).
Proof. unfold enqueueCloseOut. keeps_steps. Qed.

Lemma touched_retry key writer : keeps T (retryPendingCloseOuts key loc writer okey).
Proof.
  unfold retryPendingCloseOuts. keeps_steps. induction a as [|r rs IH]; simpl; keeps_steps.
  apply touched_enqueueCloseOut.
Qed.

Lemma touched_processUpsert e key writer obj : keeps T (processUpsert e key loc writer obj okey).
Proof.
  unfold processUpsert, closeOutOld, export, revertVersion. keeps_steps.
  all: apply keeps_when; keeps_steps; apply touched_enqueueCloseOut.
Qed.

Lemma touched_emitDelete e key writer uid :
  okey = cacheKey key -> keeps T (emitDelete e key loc writer uid).
Proof. intros Hk. unfold emitDelete. rewrite <- Hk. keeps_steps. Qed.

Lemma touched_forget key : okey = cacheKey key -> keeps T (forgetEphemeral key loc).
Proof. intros Hk. unfold forgetEphemeral. rewrite <- Hk. keeps_steps. Qed.

Lemma touched_run_commit_at c ok :
  match c with
  | CommitUpsert _ l k _ _ _ | CommitDelete _ l k _ | CommitCloseOut _ l k _ => l = loc /\ k = okey
  end -> keeps T (run_commit c ok).
Proof.
  unfold run_commit, revertVersion. destruct c, ok; intros [-> ->]; keeps_steps.
Qed.
End frame.

(** The sink state and the cache key a callback captured. *)
Definition commit_loc (c : commit) : nat :=
  match c with
  | CommitUpsert _ l _ _ _ _ | CommitDelete _ l _ _ | CommitCloseOut _ l _ _ => l
  end.

Definition commit_okey (c : commit) : string :=
  match c with
  | CommitUpsert _ _ k _ _ _ | CommitDelete _ _ k _ | CommitCloseOut _ _ k _ => k
  end.

Lemma run_commit_touched c ok s :
  touched (commit_loc c) (commit_okey c) s (run_commit c ok s).1.
Proof. apply touched_run_commit_at; [by destruct c|apply touched_refl]. Qed.

(** [s'] differs from [s] at most in the entries of [key]'s identity on [key]'s
    sink. *)
Definition isolated (key : Key) (s s' : pstate) : Prop :=
  (forall name, name <> k_Sink key -> view s' name = view s name) /\
  warm (view s' (k_Sink key)) = warm (view s (k_Sink key)) /\
  (forall k, k <> cacheKey key ->
     cache (view s' (k_Sink key)) !! k = cache (view s (k_Sink key)) !! k /\
     closeOuts (view s' (k_Sink key)) !! k = closeOuts (view s (k_Sink key)) !! k).

Lemma registry_get_spec name s :
  registry_ok s ->
  let s1 := (registry_get name s).1 in
  let loc := (registry_get name s).2 in
  registry_ok s1 /\ states s1 !! name = Some loc /\ forall n, view s1 n = view s n.
Proof.
  intros [Hinj Hlt]. unfold registry_get. destruct (states s !! name) as [loc|] eqn:E; simpl.
  - done.
  - split; [split|split].
    + intros n1 n2 l. simpl.
      intros [[<- <-]|[Hn1 H1]]%lookup_insert_Some [[<- H2]|[Hn2 H2]]%lookup_insert_Some; try done.
      * apply Hlt in H2. lia.
      * subst. apply Hlt in H1. lia.
      * by eapply Hinj.
    + intros n l. simpl. intros [[<- <-]|[_ H]]%lookup_insert_Some; [lia|]. apply Hlt in H. lia.
    + simpl. by rewrite lookup_insert_eq.
    + intros n. unfold view. simpl. destruct (decide (name = n)) as [<-|Hne].
      * rewrite lookup_insert_eq, E. unfold deref. simpl. by rewrite lookup_insert_eq.
      * rewrite lookup_insert_ne by done. destruct (states s !! n) as [l|] eqn:Hn; [|done].
        unfold deref. simpl. rewrite lookup_insert_ne; [done|]. apply Hlt in Hn. lia.
Qed.

Lemma touched_isolated key loc s s' :
  registry_ok s -> states s !! k_Sink key = Some loc ->
  touched loc (cacheKey key) s s' -> isolated key s s' /\ registry_ok s'.
Proof.
  intros [Hinj Hlt] Hloc (Hst & Hnl & Hl & Hw & Hc & Ho). unfold isolated, view, registry_ok.
  rewrite Hst, Hnl, Hloc. repeat split; auto; try (by apply Hc || by apply Ho).
  intros name Hne. destruct (states s !! name) as [l|] eqn:E; [|done].
  apply Hl. intros ->. by rewrite (Hinj _ _ _ E Hloc) in Hne.
Qed.

Lemma isolated_views key s s1 s' :
  (forall n, view s1 n = view s n) -> isolated key s1 s' -> isolated key s s'.
Proof.
  intros Hv (H1 & H2 & H3). unfold isolated. rewrite <- !Hv. split; [|done].
  intros n Hn. by rewrite H1, Hv.
Qed.

Lemma isolated_refl key s s' : heap s' = heap s -> states s' = states s -> isolated key s s'.
Proof. intros H1 H2. unfold isolated, view, deref. by rewrite H1, H2. Qed.

Lemma registry_ok_eq s s' : states s' = states s -> nextLoc s' = nextLoc s -> registry_ok s -> registry_ok s'.
Proof. unfold registry_ok. by intros -> ->. Qed.

(** A handler that obtains the sink's state and then stays on the key. *)
Lemma isolated_get {A} key (f : nat -> M A) s :
  registry_ok s -> (forall loc s0, keeps (touched loc (cacheKey key) s0) (f loc)) ->
  let s' := ((loc ← registry_get (k_Sink key); f loc) s).1 in
  isolated key s s' /\ registry_ok s'.
Proof.
  intros Hok Hf. unfold mbind, M_bind.
  destruct (registry_get_spec (k_Sink key) s Hok) as (Hok1 & Hst & Hv).
  destruct (registry_get (k_Sink key) s) as [s1 loc]. simpl in *.
  destruct (touched_isolated key loc s1 (f loc s1).1 Hok1 Hst) as [H1 H2].
  - apply Hf, touched_refl.
  - split; [|done]. by eapply isolated_views.
Qed.

Section isolation.
Context `{C : ZstdCodec} `{U : UnstructuredAPI} `{D : JsonDiff}.

Lemma Process_isolated e key s :
  registry_ok s -> isolated key s (Process e key s).1 /\ registry_ok (Process e key s).1.
Proof.
  intros Hok. unfold Process. destruct (lister e key) as [[obj active]|]; [|by split; [apply isolated_refl|]].
  destruct active; simpl; [|by split; [apply isolated_refl|]].
  destruct (bool_decide (obj = None) && key_ephemeral key).
  - unfold mbind at 1, M_bind at 1. cbn [inc_dropped modify].
    match goal with |- isolated key s (?m ?s1).1 /\ _ => set (s1' := s1) end.
    destruct (isolated_get key (fun loc => _ ← forgetEphemeral key loc; mret (None : option error)) s1') as [H1 H2].
    + by apply (registry_ok_eq s).
    + intros loc s0. apply keeps_bind; [by apply touched_forget|]. intros _. apply keeps_ret.
    + split; [|exact H2]. by apply (isolated_views key s s1').
  - destruct (router e (k_Sink key)) as [writer|].
    + apply (isolated_get key (fun loc => _ ← retryPendingCloseOuts key loc writer (cacheKey key);
        match obj with None => r ← emitDelete e key loc writer ""; mret r.2
                     | Some o => processUpsert e key loc writer o (cacheKey key) end) s Hok).
      intros loc s0. apply keeps_bind; [apply touched_retry|]. intros _.
      destruct obj as [o|]; [apply touched_processUpsert|].
      apply keeps_bind; [by apply touched_emitDelete|]. intros r. apply keeps_ret.
    + unfold allow, mbind, M_bind. cbn.
      match goal with |- context [throttle_allow ?a ?b ?c ?d] =>
        destruct (throttle_allow a b c d) as [last ok] end. split; [by apply isolated_refl|done].
Qed.

(** When the sink's state exists, a work item stays on its identity there. *)
Lemma Process_touched e key loc s :
  states s !! k_Sink key = Some loc -> touched loc (cacheKey key) s (Process e key s).1.
Proof.
  intros Hloc.
  assert (Hget : forall s', states s' = states s -> registry_get (k_Sink key) s' = (s', loc)).
  { intros s' E. unfold registry_get. by rewrite E, Hloc. }
  unfold Process. destruct (lister e key) as [[obj active]|]; [|apply touched_refl].
  destruct active; simpl; [|by apply (touched_heap _ _ _ s), touched_refl].
  destruct (bool_decide (obj = None) && key_ephemeral key).
  - unfold mbind, M_bind. cbn [inc_dropped modify]. rewrite Hget by done.
    match goal with |- touched _ _ _ (let '(_, _) := forgetEphemeral _ _ ?x in _).1 =>
      pose proof (touched_forget loc (cacheKey key) s key eq_refl x
        ltac:(by apply (touched_heap _ _ _ s), touched_refl)) as H;
      destruct (forgetEphemeral key loc x) as [s2 []] end. done.
  - destruct (router e (k_Sink key)) as [writer|].
    + unfold mbind, M_bind. rewrite Hget by done.
      pose proof (touched_retry loc (cacheKey key) s key writer s (touched_refl _ _ _)) as H1.
      destruct (retryPendingCloseOuts key loc writer (cacheKey key) s) as [s1 []].
      destruct obj as [o|].
      * by apply (touched_processUpsert loc (cacheKey key) s e key writer o s1).
      * pose proof (touched_emitDelete loc (cacheKey key) s e key writer "" eq_refl s1 H1) as H2.
        by destruct (emitDelete e key loc writer "" s1) as [s2 r].
    + unfold allow, mbind, M_bind. cbn.
      match goal with |- context [throttle_allow ?a ?b ?c ?d] =>
        destruct (throttle_allow a b c d) as [last ok] end.
      by apply (touched_heap _ _ _ s), touched_refl.
Qed.
End isolation.
