(* ===== verification/Workers.v ===== *)
(** * Workers: the work queue and the pipeline's workers

    Models [New], [Add] and [Start] of [internal/pipeline/pipeline.go] with the
    worker loop around [processNext]. The work queue is client-go's: the class
    [WorkQueue] states what its documentation promises, on the view [wqView] of a
    queue; [list_queue] is an instance. Calls the pipeline records are made on the
    queue in their order; the commit callback of a job a sink accepted runs at
    any time. *)

From Stdlib Require Import ZArith Lia.
From stdpp Require Import base gmap strings list.
From S2P Require Import Prelude Identity HashCache Sha256 Json Redact Normalize Pipeline JsonPatch Process Warm ProcessFacts.

(** ** The queue *)

(** Items waiting in order, items handed out, those of them that were added again,
    rate-limited items whose delay runs, and whether the queue is shut down. *)
Record wqView := mkView {
  v_queued : list Key;
  v_processing : gset Key;
  v_again : gset Key;
  v_delayed : list Key;
  v_shut : bool;
}.

Definition view_add (k : Key) (v : wqView) : wqView :=
  if v_shut v then v
  else if bool_decide (k ∈ v_processing v) then
    mkView (v_queued v) (v_processing v) ({[ k ]} ∪ v_again v) (v_delayed v) (v_shut v)
  else if bool_decide (k ∈ v_queued v) then v
  else mkView (v_queued v ++ [k]) (v_processing v) (v_again v) (v_delayed v) (v_shut v).

Definition view_done (k : Key) (v : wqView) : wqView :=
  if bool_decide (k ∈ v_again v)
  then mkView (v_queued v ++ [k]) (v_processing v ∖ {[ k ]}) (v_again v ∖ {[ k ]}) (v_delayed v) (v_shut v)
  else mkView (v_queued v) (v_processing v ∖ {[ k ]}) (v_again v) (v_delayed v) (v_shut v).

(** [workqueue.TypedRateLimitingInterface]. An item is handed to one worker at a
    time; an item added while it waits is coalesced, one added while it is handed out
    is queued again by [Done]; a rate-limited add is an add after some delay; after
    [ShutDown] adds are dropped and [Get] fails once the queue is empty. [Get] is
    [None] where it would block. [Elapse] is the end of the [i]-th delay. *)
Class WorkQueue := {
  wq : Type;
  wq_view : wq -> wqView;
  wq_new : wq;
  wq_Add : Key -> wq -> wq;
  wq_AddRateLimited : Key -> wq -> wq;
  wq_Forget : Key -> wq -> wq;
  wq_Get : wq -> option (wq * option Key);
  wq_Done : Key -> wq -> wq;
  wq_ShutDown : wq -> wq;
  wq_Elapse : nat -> wq -> wq;
  wq_new_view : wq_view wq_new = mkView [] ∅ ∅ [] false;
  wq_Add_view k q : wq_view (wq_Add k q) = view_add k (wq_view q);
  wq_AddRateLimited_view k q : wq_view (wq_AddRateLimited k q) =
    let v := wq_view q in
    if v_shut v then v else mkView (v_queued v) (v_processing v) (v_again v) (v_delayed v ++ [k]) (v_shut v);
  wq_Forget_view k q : wq_view (wq_Forget k q) = wq_view q;
  wq_Get_view q :
    match v_queued (wq_view q) with
    | k :: rest => exists q', wq_Get q = Some (q', Some k) /\
        wq_view q' = mkView rest ({[ k ]} ∪ v_processing (wq_view q)) (v_again (wq_view q)) (v_delayed (wq_view q)) (v_shut (wq_view q))
    | [] => if v_shut (wq_view q) then exists q', wq_Get q = Some (q', None) /\ wq_view q' = wq_view q else wq_Get q = None
    end;
  wq_Done_view k q : wq_view (wq_Done k q) = view_done k (wq_view q);
  wq_ShutDown_view q : wq_view (wq_ShutDown q) =
    let v := wq_view q in mkView (v_queued v) (v_processing v) (v_again v) [] true;
  wq_Elapse_view i q : wq_view (wq_Elapse i q) =
    let v := wq_view q in
    match v_delayed v !! i with
    | Some k => view_add k (mkView (v_queued v) (v_processing v) (v_again v) (delete i (v_delayed v)) (v_shut v))
    | None => v
    end;
}.

(** A queue that is its own view. *)
Definition view_get (v : wqView) : option (wqView * option Key) :=
  match v_queued v with
  | k :: rest => Some (mkView rest ({[ k ]} ∪ v_processing v) (v_again v) (v_delayed v) (v_shut v), Some k)
  | [] => if v_shut v then Some (v, None) else None
  end.

Lemma view_get_law v :
  match v_queued v with
  | k :: rest => exists v', view_get v = Some (v', Some k) /\
      v' = mkView rest ({[ k ]} ∪ v_processing v) (v_again v) (v_delayed v) (v_shut v)
  | [] => if v_shut v then exists v', view_get v = Some (v', None) /\ v' = v else view_get v = None
  end.
Proof. unfold view_get. destruct (v_queued v); [destruct (v_shut v)|]; eauto. Qed.

#[export] Instance list_queue : WorkQueue := {|
  wq := wqView;
  wq_view v := v;
  wq_new := mkView [] ∅ ∅ [] false;
  wq_Add := view_add;
  wq_AddRateLimited k v :=
    if v_shut v then v else mkView (v_queued v) (v_processing v) (v_again v) (v_delayed v ++ [k]) (v_shut v);
  wq_Forget _ v := v;
  wq_Get := view_get;
  wq_Done := view_done;
  wq_ShutDown v := mkView (v_queued v) (v_processing v) (v_again v) [] true;
  wq_Elapse i v :=
    match v_delayed v !! i with
    | Some k => view_add k (mkView (v_queued v) (v_processing v) (v_again v) (delete i (v_delayed v)) (v_shut v))
    | None => v
    end;
  wq_new_view := eq_refl;
  wq_Add_view _ _ := eq_refl;
  wq_AddRateLimited_view _ _ := eq_refl;
  wq_Forget_view _ _ := eq_refl;
  wq_Get_view := view_get_law;
  wq_Done_view _ _ := eq_refl;
  wq_ShutDown_view _ := eq_refl;
  wq_Elapse_view _ _ := eq_refl;
|}.

(** ** Construction *)

Definition DefaultWorkers : Z := 8.

(** [Options]: whether the two mandatory dependencies are there, and the workers. *)
Definition pipeline_New (hasLister hasRouter : bool) (workers : Z) : result nat :=
  if negb hasLister then Err "pipeline: Options.Lister is required"
  else if negb hasRouter then Err "pipeline: Options.Router is required"
  else Ok (Z.to_nat (or_default DefaultWorkers workers)).

Section workers.
Context `{WQ : WorkQueue} {JD : JsonDiff} {ZC : ZstdCodec} `{UA : UnstructuredAPI}.

(** A call of the pipeline on its queue. *)
Definition make_call (c : queueCall) (q : wq) : wq :=
  match c with
  | QAdd k => wq_Add k q
  | QAddRateLimited k => wq_AddRateLimited k q
  | QForget k => wq_Forget k q
  | QDone k => wq_Done k q
  end.

Definition make_calls (cs : list queueCall) (q : wq) : wq := foldl (fun q c => make_call c q) q cs.

(** ** The worker pool *)

(** A worker is in [Get], holds an item, or has ended. *)
Inductive slot := Idle | Holding (key : Key) | Exited.

(** The pool, with the items handed out and the items settled so far. *)
Record workPool := mkWorkPool {
  wp_queue : wq;
  wp_pipe : pstate;
  wp_slots : list slot;
  wp_handed : list Key;
  wp_processed : list Key;
}.

(** [Start] spawned its workers. *)
Definition pool_Start (workers : nat) (s : pstate) : workPool := mkWorkPool wq_new s (replicate workers Idle) [] [].

(** Run a computation of the pipeline and make the calls it recorded. *)
Definition on_pipe {A} (m : M A) (w : workPool) : workPool :=
  let s' := (m (wp_pipe w)).1 in
  mkWorkPool (make_calls (drop (length (queue (wp_pipe w))) (queue s')) (wp_queue w)) s' (wp_slots w) (wp_handed w) (wp_processed w).

Definition set_slot (i : nat) (x : slot) (w : workPool) : workPool :=
  mkWorkPool (wp_queue w) (wp_pipe w) (<[i := x]> (wp_slots w)) (wp_handed w) (wp_processed w).

Definition note_processed (key : Key) (w : workPool) : workPool :=
  mkWorkPool (wp_queue w) (wp_pipe w) (wp_slots w) (wp_handed w) (wp_processed w ++ [key]).

Inductive poolLabel :=
| PAdd (key : Key)
| PGet (i : nat)
| PProcess (i : nat) (e : env)
| PCommit (n : nat) (ok : bool)
| PElapse (i : nat)
| PShutDown.

Definition pool_step (l : poolLabel) (w : workPool) : option workPool :=
  match l with
  | PAdd key => Some (on_pipe (Add key) w)
  | PGet i =>
      match wp_slots w !! i with
      | Some Idle =>
          match wq_Get (wp_queue w) with
          | Some (q, Some key) => 
              Some (set_slot i (Holding key) (mkWorkPool q (wp_pipe w) (wp_slots w) (wp_handed w ++ [key]) (wp_processed w)))
          | Some (q, None) => Some (set_slot i Exited (mkWorkPool q (wp_pipe w) (wp_slots w) (wp_handed w) (wp_processed w)))
          | None => None
          end
      | _ => None
      end
  | PProcess i e =>
      match wp_slots w !! i with
      | Some (Holding key) => Some (set_slot i Idle (note_processed key (on_pipe (processNext e key) w)))
      | _ => None
      end
  | PCommit n ok =>
      match sent (wp_pipe w) !! n with
      | Some (_, job) => Some (on_pipe (run_commit (j_Commit job) ok) w)
      | None => None
      end
  | PElapse i => Some (mkWorkPool (wq_Elapse i (wp_queue w)) (wp_pipe w) (wp_slots w) (wp_handed w) (wp_processed w))
  | PShutDown => Some (mkWorkPool (wq_ShutDown (wp_queue w)) (wp_pipe w) (wp_slots w) (wp_handed w) (wp_processed w))
  end.

Fixpoint pool_run (ls : list poolLabel) (w : workPool) : option workPool :=
  match ls with
  | [] => Some w
  | l :: rest => w' ← pool_step l w; pool_run rest w'
  end.

(** [Start] returns: every worker has ended. *)
Definition pool_returned (w : workPool) : Prop := Forall (fun x => x = Exited) (wp_slots w).
End workers.
