(* ===== verification/Metrics.v ===== *)
(** * Metrics: the write path's series

    Models [internal/pipeline/metrics.go]: the collectors and their registration,
    the per-sink views of [ForSink] and what they report, and [deleteSinkSeries].

    The vectors, their metrics and the registry are [prometheus/client_golang]'s:
    the class [PromClient] is what the program calls of it, and [PromLaws] what its
    documentation promises. [WithLabelValues] answers the metric a vector holds under
    the label values, creating it on first use; deleting a series takes the metric out
    of the vector but not out of the hands of whoever holds it, and it is not exported
    any more, even when a metric with the same label values is created later. What a
    scrape shows is what the vectors hold. [None] is a panic: label values of
    the wrong number, or a name registered twice. [LocalClient] is a concrete reading
    of the class. Floating-point numbers are the type [F], of which only zero is
    used. *)

From Stdlib Require Import ZArith Lia.
From stdpp Require Import base gmap strings list.
From S2P Require Import Prelude Pipeline.

(** ** Collectors *)

Definition metricsNamespace : string := "kuberecord".
Definition sinkLabel : string := "sink".

(** The fields of [PipelineMetrics]. *)
Inductive collector :=
| WriteQueueDepth | WriteQueueCapacity | WritesTotal | WriteLatency | WriteRetryAttempts | WriteBatchRows
| EnqueueBlock | EnqueueTimeouts | DedupSkips | HashcacheEntries | SafeMode | Dropped.

#[export] Instance collector_eq_dec : EqDecision collector.
Proof. solve_decision. Defined.

Definition collectors : list collector :=
  [WriteQueueDepth; WriteQueueCapacity; WritesTotal; WriteLatency; WriteRetryAttempts; WriteBatchRows;
   EnqueueBlock; EnqueueTimeouts; DedupSkips; HashcacheEntries; SafeMode; Dropped].

#[export] Instance collector_countable : Countable collector.
Proof.
  apply (inj_countable' (fun c => list_find (eq c) collectors ≫= fun p => Some p.1)
           (fun o => default Dropped (o ≫= fun i => collectors !! i))).
  by intros [].
Defined.

(** [Subsystem] and [Name] of the options. *)
Definition metric_name (c : collector) : string :=
  match c with
  | WriteQueueDepth => "write_queue_depth"
  | WriteQueueCapacity => "write_queue_capacity"
  | WritesTotal => "writes_total"
  | WriteLatency => "write_latency_seconds"
  | WriteRetryAttempts => "write_retry_attempts_total"
  | WriteBatchRows => "write_batch_rows"
  | EnqueueBlock => "enqueue_block_seconds"
  | EnqueueTimeouts => "enqueue_timeouts_total"
  | DedupSkips => "dedup_skips_total"
  | HashcacheEntries => "hashcache_entries"
  | SafeMode => "safe_mode"
  | Dropped => "pipeline_dropped_total"
  end.

(** [prometheus.BuildFQName]. *)
Definition fqName (c : collector) : string := metricsNamespace +:+ "_" +:+ metric_name c.

Definition label_names (c : collector) : list string :=
  match c with
  | WritesTotal => [sinkLabel; "outcome"]
  | DedupSkips => []
  | SafeMode => ["sink"; "group"; "kind"; "namespace"]
  | Dropped => ["reason"]
  | _ => [sinkLabel]
  end.

(** A collector's child is filed under its label values. *)
Abbreviation series := (collector * list string)%type.

(** A metric: a gauge, a counter, or the observations of a histogram. *)
Inductive child {F : Type} := Gauge (v : F) | Counter (n : nat) | Histogram (obs : list F).
Arguments child : clear implicits.

Definition new_child {F} (f0 : F) (c : collector) : child F :=
  match c with
  | WriteQueueDepth | WriteQueueCapacity | HashcacheEntries | SafeMode => Gauge f0
  | WritesTotal | WriteRetryAttempts | EnqueueTimeouts | DedupSkips | Dropped => Counter 0
  | WriteLatency | WriteBatchRows | EnqueueBlock => Histogram []
  end.

(** [Set], [Inc] and [Observe] on a metric of their kind. *)
Definition set_value {F} (v : F) (c : child F) : child F := match c with Gauge _ => Gauge v | c => c end.
Definition inc {F} (c : child F) : child F := match c with Counter n => Counter (S n) | c => c end.
Definition observe {F} (v : F) (c : child F) : child F := match c with Histogram obs => Histogram (obs ++ [v]) | c => c end.

(** ** The client library *)

Class PromClient (F : Type) := {
  (** The vectors and their metrics, and a metric in someone's hands. *)
  MetricStore : Type;
  Handle : Type;
  (** The vectors as [NewGaugeVec], [NewCounterVec] and [NewHistogramVec] make them. *)
  NewVectors : MetricStore;
  WithLabelValues : collector -> list string -> MetricStore -> option (MetricStore * Handle);
  DeleteLabelValues : collector -> list string -> MetricStore -> MetricStore;
  DeletePartialMatch : collector -> string -> string -> MetricStore -> MetricStore;
  gauge_Set : Handle -> F -> MetricStore -> MetricStore;
  counter_Inc : Handle -> MetricStore -> MetricStore;
  histogram_Observe : Handle -> F -> MetricStore -> MetricStore;
  (** The metric a vector holds under label values, the metrics handed out so far, and
      the value of a metric. *)
  metric_at : MetricStore -> series -> option Handle;
  issued : MetricStore -> Handle -> Prop;
  metric_value : MetricStore -> Handle -> child F;
  (** Registries. *)
  Registerer : Type;
  NewRegistry : Registerer;
  registered : Registerer -> gset string;
  MustRegister : list collector -> Registerer -> option Registerer;
}.

(** Whether the series carries the label with that value. *)
Definition carries (c : collector) (label value : string) (s : series) : bool :=
  bool_decide (s.1 = c) && existsb (fun p => String.eqb p.1 label && String.eqb p.2 value) (zip (label_names c) s.2).

(** The vectors lose the series [gone] says, and nothing else happens. *)
Definition deletes `{P : PromClient F} (gone : series -> bool) (m m' : MetricStore) : Prop :=
  (forall k, metric_at m' k = if gone k then None else metric_at m k) /\
  (forall h, issued m' h <-> issued m h) /\ (forall h, metric_value m' h = metric_value m h).

(** The metric [h] changes by [f], and nothing else happens. *)
Definition updates `{P : PromClient F} (h : Handle) (f : child F -> child F) (m m' : MetricStore) : Prop :=
  (forall k, metric_at m' k = metric_at m k) /\ (forall h', issued m' h' <-> issued m h') /\
  metric_value m' h = f (metric_value m h) /\ (forall h', h' <> h -> metric_value m' h' = metric_value m h').

Class PromLaws {F} (f0 : F) (P : PromClient F) : Prop := {
  vectors_empty : forall k, metric_at NewVectors k = None;
  metric_issued : forall m k h, metric_at m k = Some h -> issued m h;
  metric_own : forall m k1 k2 h, metric_at m k1 = Some h -> metric_at m k2 = Some h -> k1 = k2;
  with_panics : forall c lvs m, length lvs <> length (label_names c) -> WithLabelValues c lvs m = None;
  with_found : forall c lvs m h, length lvs = length (label_names c) -> metric_at m (c, lvs) = Some h ->
    WithLabelValues c lvs m = Some (m, h);
  with_creates : forall c lvs m, length lvs = length (label_names c) -> metric_at m (c, lvs) = None ->
    exists m' h, WithLabelValues c lvs m = Some (m', h) /\ ~ issued m h /\
      (forall k, metric_at m' k = if decide (k = (c, lvs)) then Some h else metric_at m k) /\
      (forall h', issued m' h' <-> h' = h \/ issued m h') /\
      metric_value m' h = new_child f0 c /\ (forall h', h' <> h -> metric_value m' h' = metric_value m h');
  delete_spec : forall c lvs m, deletes (fun k => bool_decide (k = (c, lvs))) m (DeleteLabelValues c lvs m);
  partial_spec : forall c label value m, deletes (carries c label value) m (DeletePartialMatch c label value m);
  set_spec : forall h v m, issued m h -> updates h (set_value v) m (gauge_Set h v m);
  inc_spec : forall h m, issued m h -> updates h inc m (counter_Inc h m);
  observe_spec : forall h v m, issued m h -> updates h (observe v) m (histogram_Observe h v m);
  registry_empty : registered NewRegistry = ∅;
  register_new : forall cs reg, NoDup (fqName <$> cs) -> (forall c, c ∈ cs -> fqName c ∉ registered reg) ->
    exists reg', MustRegister cs reg = Some reg' /\ registered reg' = list_to_set (fqName <$> cs) ∪ registered reg;
  register_panics : forall cs reg c, c ∈ cs -> fqName c ∈ registered reg -> MustRegister cs reg = None;
}.

Section metrics.
Context `{P : PromClient F}.

(** The fields of [PipelineMetrics] share the store. *)
Abbreviation PipelineMetrics := MetricStore.

Definition C (A : Type) : Type := PipelineMetrics -> option (PipelineMetrics * A).
#[local] Instance C_ret : MRet C := fun A x m => Some (m, x).
#[local] Instance C_bind : MBind C := fun A B f c m => match c m with Some (m', x) => f x m' | None => None end.

(** A call that answers nothing. *)
Definition call (f : PipelineMetrics -> PipelineMetrics) : C unit := fun m => Some (f m, tt).

(** ** Construction *)

Definition NewPipelineMetrics (reg : Registerer) : option (Registerer * PipelineMetrics) :=
  match (_ ← (WithLabelValues DedupSkips [] : C Handle);
         _ ← (WithLabelValues Dropped [DropReasonScopeStopped] : C Handle);
         (WithLabelValues Dropped [DropReasonEphemeralDelete] : C Handle)) NewVectors with
  | Some (m', _) => reg' ← MustRegister collectors reg; Some (reg', m')
  | None => None
  end.

(** [PipelineMetricsInstance]: the singleton once it was made. *)
Definition PipelineMetricsInstance (once : option PipelineMetrics) (reg : Registerer) :
    option (Registerer * PipelineMetrics) :=
  match once with
  | Some m => Some (reg, m)
  | None => NewPipelineMetrics reg
  end.

(** ** A sink's view *)

Record SinkMetrics := mkSinkMetrics {
  sm_queueDepth : Handle;
  sm_queueCapacity : Handle;
  sm_writeSuccess : Handle;
  sm_writeFailed : Handle;
  sm_latency : Handle;
  sm_retries : Handle;
  sm_batchRows : Handle;
  sm_enqueueBlock : Handle;
  sm_enqueueGaveUp : Handle;
}.

Definition ForSink (name : string) : C SinkMetrics :=
  queueDepth ← (WithLabelValues WriteQueueDepth [name] : C Handle);
  queueCapacity ← (WithLabelValues WriteQueueCapacity [name] : C Handle);
  writeSuccess ← (WithLabelValues WritesTotal [name; "success"] : C Handle);
  writeFailed ← (WithLabelValues WritesTotal [name; "failed"] : C Handle);
  latency ← (WithLabelValues WriteLatency [name] : C Handle);
  retries ← (WithLabelValues WriteRetryAttempts [name] : C Handle);
  batchRows ← (WithLabelValues WriteBatchRows [name] : C Handle);
  enqueueBlock ← (WithLabelValues EnqueueBlock [name] : C Handle);
  enqueueGaveUp ← (WithLabelValues EnqueueTimeouts [name] : C Handle);
  mret (mkSinkMetrics queueDepth queueCapacity writeSuccess writeFailed latency retries batchRows enqueueBlock enqueueGaveUp).

Definition collectors_deleteSinkSeries (name : string) : C unit :=
  _ ← call (DeleteLabelValues WriteQueueDepth [name]);
  _ ← call (DeleteLabelValues WriteQueueCapacity [name]);
  _ ← call (DeleteLabelValues WritesTotal [name; "success"]);
  _ ← call (DeleteLabelValues WritesTotal [name; "failed"]);
  _ ← call (DeleteLabelValues WriteLatency [name]);
  _ ← call (DeleteLabelValues WriteRetryAttempts [name]);
  _ ← call (DeleteLabelValues WriteBatchRows [name]);
  _ ← call (DeleteLabelValues EnqueueBlock [name]);
  _ ← call (DeleteLabelValues EnqueueTimeouts [name]);
  call (DeletePartialMatch SafeMode sinkLabel name).

(** The metrics half of [sinkStateRegistry.remove]. *)
Definition remove_series (name : string) : C unit :=
  _ ← call (DeleteLabelValues HashcacheEntries [name]);
  collectors_deleteSinkSeries name.

(** ** Reports *)

Definition SetWriteQueueDepth (s : SinkMetrics) (n : F) : C unit := call (gauge_Set (sm_queueDepth s) n).
Definition SetWriteQueueCapacity (s : SinkMetrics) (n : F) : C unit := call (gauge_Set (sm_queueCapacity s) n).
Definition ObserveEnqueueBlock (s : SinkMetrics) (seconds : F) : C unit := call (histogram_Observe (sm_enqueueBlock s) seconds).
Definition IncEnqueueTimeout (s : SinkMetrics) : C unit := call (counter_Inc (sm_enqueueGaveUp s)).
Definition ObserveWriteLatency (s : SinkMetrics) (seconds : F) : C unit := call (histogram_Observe (sm_latency s) seconds).
Definition IncWriteRetryAttempt (s : SinkMetrics) : C unit := call (counter_Inc (sm_retries s)).
Definition ObserveWriteBatchRows (s : SinkMetrics) (rows : F) : C unit := call (histogram_Observe (sm_batchRows s) rows).

Definition IncWrite (s : SinkMetrics) (outcome : string) : C unit :=
  if String.eqb outcome "success" then call (counter_Inc (sm_writeSuccess s))
  else call (counter_Inc (sm_writeFailed s)).

(** What a writer says through its view. *)
Inductive report :=
| RQueueDepth (n : F) | RQueueCapacity (n : F) | REnqueueBlock (seconds : F) | REnqueueTimeout
| RWriteLatency (seconds : F) | RRetryAttempt | RBatchRows (rows : F) | RWrite (outcome : string).

Definition make_report (s : SinkMetrics) (r : report) : C unit :=
  match r with
  | RQueueDepth n => SetWriteQueueDepth s n
  | RQueueCapacity n => SetWriteQueueCapacity s n
  | REnqueueBlock t => ObserveEnqueueBlock s t
  | REnqueueTimeout => IncEnqueueTimeout s
  | RWriteLatency t => ObserveWriteLatency s t
  | RRetryAttempt => IncWriteRetryAttempt s
  | RBatchRows n => ObserveWriteBatchRows s n
  | RWrite outcome => IncWrite s outcome
  end.

(** What a scrape shows of a series. *)
Definition exposed (s : series) (m : PipelineMetrics) : option (child F) := metric_value m <$> metric_at m s.

(** ** Runs: views are made, report and go stale *)

Record metricsRun := mkMetricsRun { mr_metrics : PipelineMetrics; mr_views : list SinkMetrics }.

Inductive metricsOp :=
| MForSink (name : string)
| MReport (view : nat) (r : report)
| MRemove (name : string)
(** the gauges the pipeline sets itself *)
| MCacheEntries (name : string) (n : F)
| MSafeMode (name group kind namespace : string) (v : F)
| MEvict (name group kind namespace : string)
| MDropped (reason : string)
| MDedupSkip.

Definition on_metrics (c : C unit) (s : metricsRun) : option metricsRun :=
  match c (mr_metrics s) with Some (m, _) => Some (mkMetricsRun m (mr_views s)) | None => None end.

(** [vec.WithLabelValues(...).Set(...)] and the like. *)
Definition on_series (c : collector) (lvs : list string) (f : Handle -> PipelineMetrics -> PipelineMetrics) : C unit :=
  h ← (WithLabelValues c lvs : C Handle); call (f h).

Definition metrics_step (op : metricsOp) (s : metricsRun) : option metricsRun :=
  match op with
  | MForSink name =>
      match ForSink name (mr_metrics s) with
      | Some (m, v) => Some (mkMetricsRun m (mr_views s ++ [v]))
      | None => None
      end
  | MReport view r => v ← mr_views s !! view; on_metrics (make_report v r) s
  | MRemove name => on_metrics (remove_series name) s
  | MCacheEntries name n => on_metrics (on_series HashcacheEntries [name] (fun h => gauge_Set h n)) s
  | MSafeMode name group kind namespace v => on_metrics (on_series SafeMode [name; group; kind; namespace] (fun h => gauge_Set h v)) s
  | MEvict name group kind namespace => on_metrics (call (DeleteLabelValues SafeMode [name; group; kind; namespace])) s
  | MDropped reason => on_metrics (on_series Dropped [reason] counter_Inc) s
  | MDedupSkip => on_metrics (on_series DedupSkips [] counter_Inc) s
  end.

Fixpoint metrics_run (ops : list metricsOp) (s : metricsRun) : option metricsRun :=
  match ops with
  | [] => Some s
  | op :: rest => s' ← metrics_step op s; metrics_run rest s'
  end.
End metrics.
Arguments SinkMetrics F {P}. Arguments metricsRun F {P}. Arguments metricsOp F : clear implicits. Arguments report F : clear implicits.

(** ** A concrete client

    A metric is named by its series and a number; a vector holds, under its label
    values, the number of the metric that is current. *)

Record localStore (F : Type) := mkLocalStore { ls_current : gmap series nat; ls_values : gmap (series * nat) (child F) }.
Arguments mkLocalStore {F}. Arguments ls_current {F}. Arguments ls_values {F}.

Section local_client.
Context {F : Type} (f0 : F).

Definition local_at (m : localStore F) (k : series) : option (series * nat) :=
  n ← ls_current m !! k; if bool_decide (is_Some (ls_values m !! (k, n))) then Some (k, n) else None.

Definition local_fresh (m : localStore F) : nat := fresh (list_to_set (C := gset nat) (map (fun p => p.1.2) (map_to_list (ls_values m)))).

Definition local_with (c : collector) (lvs : list string) (m : localStore F) : option (localStore F * (series * nat)) :=
  if (length lvs =? length (label_names c))%nat then
    match local_at m (c, lvs) with
    | Some h => Some (m, h)
    | None =>
        let n := local_fresh m in
        Some (mkLocalStore (<[(c, lvs) := n]> (ls_current m)) (<[((c, lvs), n) := new_child f0 c]> (ls_values m)), ((c, lvs), n))
    end
  else None.

Definition local_update (f : child F -> child F) (h : series * nat) (m : localStore F) : localStore F :=
  mkLocalStore (ls_current m) (alter f h (ls_values m)).

Definition local_register (cs : list collector) (reg : gset string) : option (gset string) :=
  foldl (fun r c => r ← r; if bool_decide (fqName c ∈ r) then None else Some ({[ fqName c ]} ∪ r)) (Some reg) cs.

#[export] Instance LocalClient : PromClient F := {
  MetricStore := localStore F;
  Handle := series * nat;
  NewVectors := mkLocalStore ∅ ∅;
  WithLabelValues := local_with;
  DeleteLabelValues c lvs m := mkLocalStore (delete (c, lvs) (ls_current m)) (ls_values m);
  DeletePartialMatch c label value m :=
    mkLocalStore (filter (fun kv => carries c label value kv.1 = false) (ls_current m)) (ls_values m);
  gauge_Set h v := local_update (set_value v) h;
  counter_Inc h := local_update inc h;
  histogram_Observe h v := local_update (observe v) h;
  metric_at := local_at;
  issued m h := is_Some (ls_values m !! h);
  metric_value m h := default (new_child f0 h.1.1) (ls_values m !! h);
  Registerer := gset string;
  NewRegistry := ∅;
  registered reg := reg;
  MustRegister := local_register;
}.

Lemma local_at_Some m k h : local_at m k = Some h -> h.1 = k /\ is_Some (ls_values m !! h).
Proof. unfold local_at. intros (n & _ & H)%bind_Some. case_bool_decide; [|done]. by injection H as <-. Qed.

Lemma local_fresh_new m k : ls_values m !! (k, local_fresh m) = None.
Proof.
  apply eq_None_not_Some. intros [v Hv]. unfold local_fresh in Hv.
  eapply (is_fresh (list_to_set (C := gset nat) (map (fun p => p.1.2) (map_to_list (ls_values m))))).
  apply elem_of_list_to_set, list_elem_of_fmap. eexists (_, v). split; [|by apply elem_of_map_to_list]. done.
Qed.

Lemma local_at_same (m m' : localStore F) k :
  ls_current m' !! k = ls_current m !! k -> (forall n, is_Some (ls_values m' !! (k, n)) <-> is_Some (ls_values m !! (k, n))) ->
  local_at m' k = local_at m k.
Proof.
  intros E H. unfold local_at. rewrite E. destruct (ls_current m !! k) as [n|]; [|done]. cbn. by rewrite (bool_decide_ext _ _ (H n)).
Qed.

Lemma alter_is_Some {K A} `{Countable K} (f : A -> A) (i j : K) (m : gmap K A) : is_Some (alter f i m !! j) <-> is_Some (m !! j).
Proof. rewrite lookup_alter. case_decide; [subst; apply fmap_is_Some|done]. Qed.

Lemma local_updates f (h : series * nat) (m : localStore F) : is_Some (ls_values m !! h) -> updates (P := LocalClient) h f m (local_update f h m).
Proof.
  intros [v Hv]. split; [|split; [|split]]; cbn [metric_at issued metric_value LocalClient local_update ls_values].
  - intros k. apply local_at_same; [done|]. intros n. apply alter_is_Some.
  - intros h'. apply alter_is_Some.
  - by rewrite lookup_alter_eq, Hv.
  - intros h' Hne. by rewrite lookup_alter_ne.
Qed.

Lemma local_register_spec cs reg :
  NoDup (fqName <$> cs) -> (forall c, c ∈ cs -> fqName c ∉ reg) ->
  exists reg', local_register cs reg = Some reg' /\ reg' = list_to_set (fqName <$> cs) ∪ reg.
Proof.
  unfold local_register. revert reg. induction cs as [|c cs IH]; intros reg Hn Hr; [eexists; split; [done|set_solver]|].
  rewrite fmap_cons in Hn. apply NoDup_cons in Hn as [Hc Hn].
  cbn [foldl mbind option_bind]. rewrite bool_decide_eq_false_2 by (apply Hr; by left).
  destruct (IH ({[fqName c]} ∪ reg) Hn) as (reg' & E & ->).
  - intros c' Hc'. rewrite elem_of_union, elem_of_singleton. intros [E|E].
    + apply Hc. rewrite <- E. by apply list_elem_of_fmap_2.
    + apply (Hr c'); [by right|done].
  - eexists. split; [exact E|]. cbn. set_solver.
Qed.

Lemma local_register_taken cs reg c : c ∈ cs -> fqName c ∈ reg -> local_register cs reg = None.
Proof.
  unfold local_register.
  assert (Hnone : forall l, foldl (fun r c => r ← r; if bool_decide (fqName c ∈ r) then None else Some ({[ fqName c ]} ∪ r)) None l = (None : option (gset string))).
  { intros l. by induction l. }
  revert reg. induction cs as [|c' cs IH]; intros reg Hc Hr; [by apply elem_of_nil in Hc|]. cbn [foldl mbind option_bind].
  case_bool_decide as Hin; [apply Hnone|]. apply elem_of_cons in Hc as [->|Hc]; [done|]. apply IH; [done|set_solver].
Qed.

Lemma LocalClient_laws : PromLaws f0 LocalClient.
Proof.
  split; cbn [metric_at issued metric_value WithLabelValues LocalClient NewVectors registered NewRegistry].
  - done.
  - intros m k h H. by apply local_at_Some in H as [_ ?].
  - intros m k1 k2 h H1 H2. apply local_at_Some in H1 as [<- _], H2 as [<- _]. done.
  - intros c lvs m Hl. unfold local_with. by rewrite (proj2 (Nat.eqb_neq _ _) Hl).
  - intros c lvs m h Hl H. unfold local_with. by rewrite (proj2 (Nat.eqb_eq _ _) Hl), H.
  - intros c lvs m Hl H. unfold local_with. rewrite (proj2 (Nat.eqb_eq _ _) Hl), H.
    pose proof (local_fresh_new m (c, lvs)) as Hf. eexists _, _. split; [reflexivity|]. cbn [ls_values ls_current].
    split; [rewrite Hf; by intros [? ?]|]. split; [|split; [|split]].
    + intros k. case_decide as Hk.
      * subst k. unfold local_at. cbn. rewrite lookup_insert_eq. cbn. rewrite bool_decide_eq_true_2; [done|]. rewrite lookup_insert_eq. by eexists.
      * apply local_at_same; cbn; [by rewrite lookup_insert_ne|]. intros n. rewrite lookup_insert_ne; [done|]. congruence.
    + intros h'. rewrite lookup_insert_is_Some'. naive_solver.
    + by rewrite lookup_insert_eq.
    + intros h' Hne. by rewrite lookup_insert_ne.
  - intros c lvs m. split; [|done]. intros k. cbn. case_bool_decide as Hk.
    + subst k. unfold local_at. cbn. by rewrite lookup_delete_eq.
    + apply local_at_same; [|done]. cbn. by rewrite lookup_delete_ne.
  - intros c label value m. split; [|done]. intros k. cbn. unfold local_at. cbn [ls_current ls_values]. rewrite map_lookup_filter.
    destruct (ls_current m !! k) as [n|]; cbn; [|by destruct (carries _ _ _ _)]. case_guard as Hc; cbn; [by rewrite Hc|]. by destruct (carries _ _ _ _).
  - intros h v m Hi. by apply local_updates.
  - intros h m Hi. by apply local_updates.
  - intros h v m Hi. by apply local_updates.
  - done.
  - intros cs reg. apply local_register_spec.
  - intros cs reg c. apply local_register_taken.
Qed.
End local_client.
