(* ===== verification/GoFlags.v ===== *)
(** * GoFlags: the parts of Go's standard library the operator's settings go through

    [strconv.Atoi], [strconv.ParseInt] in base 0, [strconv.ParseBool],
    [time.ParseDuration] and [flag.FlagSet.Parse]. [ParseDuration] goes through
    [float64] for a fraction: binary64 arithmetic is the Standard Library's
    specification of it ([SFmul], [SFdiv] at precision 53). *)

From Stdlib Require Import ZArith Lia SpecFloat.
From stdpp Require Import base gmap strings list.
From S2P Require Import Prelude.

#[local] Open Scope kube_scope.

Definition min_int64 : Z := - 2 ^ 63.
Definition max_int64 : Z := 2 ^ 63 - 1.
Definition in_int64 (z : Z) : Prop := (min_int64 <= z <= max_int64)%Z.

(** ** Integers *)

Definition errSyntax : error := "invalid syntax".
Definition errRange : error := "value out of range".

Definition code (c : Ascii.ascii) : Z := Z.of_nat (Ascii.nat_of_ascii c).
(** [c | 0x20] *)
Definition lower (c : Ascii.ascii) : Z := Z.lor (code c) 32.
Definition is_digit (c : Ascii.ascii) : bool := Z.leb 48 (code c) && Z.leb (code c) 57.
Definition is_lower_letter (z : Z) : bool := Z.leb 97 z && Z.leb z 122.

Definition digit_value (c : Ascii.ascii) : option Z :=
  if is_digit c then Some (code c - 48)%Z
  else if is_lower_letter (lower c) then Some (lower c - 97 + 10)%Z
  else None.

(** The digits of [ParseUint], into 64 bits; an underscore is skipped in base 0. *)
Fixpoint uint_digits (base : Z) (base0 : bool) (s : string) (n : Z) : result Z :=
  match s with
  | "" => Ok n
  | String c rest =>
      if Ascii.eqb c "_"%char && base0 then uint_digits base base0 rest n
      else
        match digit_value c with
        | None => Err errSyntax
        | Some d =>
            if Z.leb base d then Err errSyntax
            else let n' := (n * base + d)%Z in
              if Z.leb u64_max n' then Err errRange else uint_digits base base0 rest n'
        end
  end.

Definition is_prefix_letter (c : Ascii.ascii) (z : Z) : bool := Z.eqb (lower c) z.

(** The base and the digits of a text in base 0. *)
Definition base_prefix (s : string) : Z * string :=
  match s with
  | String "0" (String c (String _ _ as rest) as tail) =>
      if is_prefix_letter c 98 then (2, rest)%Z
      else if is_prefix_letter c 111 then (8, rest)%Z
      else if is_prefix_letter c 120 then (16, rest)%Z
      else (8, tail)%Z
  | String "0" tail => (8, tail)%Z
  | _ => (10, s)%Z
  end.

(** [underscoreOK]: underscores only between digits, a base prefix counting as one. *)
Inductive seen := SawStart | SawDigit | SawUnderscore | SawOther.

Fixpoint underscores_ok (hex : bool) (i : seen) (s : string) : bool :=
  match s with
  | "" => match i with SawUnderscore => false | _ => true end
  | String c rest =>
      if is_digit c || (hex && Z.leb 97 (lower c) && Z.leb (lower c) 102) then underscores_ok hex SawDigit rest
      else if Ascii.eqb c "_"%char then
        match i with SawDigit => underscores_ok hex SawUnderscore rest | _ => false end
      else match i with SawUnderscore => false | _ => underscores_ok hex SawOther rest end
  end.

Definition underscoreOK (s : string) : bool :=
  match s with
  | String "0" (String c rest) =>
      if is_prefix_letter c 98 || is_prefix_letter c 111 || is_prefix_letter c 120
      then underscores_ok (is_prefix_letter c 120) SawDigit rest
      else underscores_ok false SawStart s
  | _ => underscores_ok false SawStart s
  end.

Fixpoint has_underscore (s : string) : bool :=
  match s with "" => false | String c rest => Ascii.eqb c "_"%char || has_underscore rest end.

Definition ParseUint (base0 : bool) (s : string) : result Z :=
  match s with
  | "" => Err errSyntax
  | _ =>
      let '(base, digits) := if base0 then base_prefix s else (10%Z, s) in
      n <-r uint_digits base base0 digits 0 ;;
      if base0 && has_underscore digits && negb (underscoreOK s) then Err errSyntax else Ok n
  end.

(** A leading sign. *)
Definition split_sign (s : string) : bool * string :=
  match s with
  | String "-" rest => (true, rest)
  | String "+" rest => (false, rest)
  | _ => (false, s)
  end.

(** [ParseInt] into 64 bits, in base 0 or 10. *)
Definition ParseInt (base0 : bool) (s : string) : result Z :=
  let '(neg, digits) := split_sign s in
  n <-r ParseUint base0 digits ;;
  if negb neg && Z.leb (2 ^ 63) n then Err errRange
  else if neg && Z.ltb (2 ^ 63) n then Err errRange
  else Ok (if neg then - n else n)%Z.

Definition Atoi (s : string) : result Z := ParseInt false s.

(** ** Booleans *)

Definition ParseBool (s : string) : result bool :=
  if bool_decide (s ∈ ["1"; "t"; "T"; "true"; "TRUE"; "True"]) then Ok true
  else if bool_decide (s ∈ ["0"; "f"; "F"; "false"; "FALSE"; "False"]) then Ok false
  else Err errSyntax.

(** ** Durations *)

Definition float_of_Z (n : Z) : spec_float := binary_normalize 53 1024 n 0 false.
Definition float_mul : spec_float -> spec_float -> spec_float := SFmul 53 1024.
Definition float_div : spec_float -> spec_float -> spec_float := SFdiv 53 1024.

(** [uint64(x)] of a float that is not negative and in range. *)
Definition uint64_of_float (x : spec_float) : Z :=
  match x with
  | S754_finite false m e => if Z.leb 0 e then Z.pos m * 2 ^ e else Z.pos m / 2 ^ (- e)
  | _ => 0
  end%Z.

(** [leadingInt]. *)
Fixpoint leadingInt (s : string) (x : Z) : option (Z * string) :=
  match s with
  | String c rest =>
      if is_digit c then
        if Z.ltb (2 ^ 63 / 10) x then None
        else let x' := (x * 10 + (code c - 48))%Z in
          if Z.ltb (2 ^ 63) x' then None else leadingInt rest x'
      else Some (x, s)
  | "" => Some (x, s)
  end.

(** [leadingFraction]: digits beyond what fits are dropped. *)
Fixpoint leadingFraction (s : string) (x : Z) (scale : spec_float) (overflow : bool) : Z * spec_float * string :=
  match s with
  | String c rest =>
      if is_digit c then
        if overflow then leadingFraction rest x scale true
        else if Z.ltb ((2 ^ 63 - 1) / 10) x then leadingFraction rest x scale true
        else let y := (x * 10 + (code c - 48))%Z in
          if Z.ltb (2 ^ 63) y then leadingFraction rest x scale true
          else leadingFraction rest y (float_mul scale (float_of_Z 10)) false
      else (x, scale, s)
  | "" => (x, scale, s)
  end.

(** The unit: everything up to the next digit or period. *)
Fixpoint split_unit (s : string) : string * string :=
  match s with
  | String c rest =>
      if Ascii.eqb c "."%char || is_digit c then ("", s)
      else let '(u, tail) := split_unit rest in (String c u, tail)
  | "" => ("", "")
  end.

Definition micro_sign : string := String (Ascii.ascii_of_nat 194) (String (Ascii.ascii_of_nat 181) "").
Definition greek_mu : string := String (Ascii.ascii_of_nat 206) (String (Ascii.ascii_of_nat 188) "").

Definition unitMap : gmap string Z :=
  list_to_map [("ns", 1); ("us", 1000); (micro_sign +:+ "s", 1000); (greek_mu +:+ "s", 1000); ("ms", 1000000);
               ("s", second); ("m", 60 * second); ("h", 3600 * second)]%Z.

Definition errDuration : error := "time: invalid duration".
Definition errMissingUnit : error := "time: missing unit in duration".
Definition errUnknownUnit : error := "time: unknown unit in duration".

(** One number with its unit. *)
Definition duration_term (s : string) : result (Z * string) :=
  match s with
  | "" => Err errDuration
  | String c _ =>
      if negb (Ascii.eqb c "."%char || is_digit c) then Err errDuration
      else
        match leadingInt s 0 with
        | None => Err errDuration
        | Some (v, s1) =>
            let pre := negb (String.length s1 =? String.length s)%nat in
            let '(f, scale, s2, post) :=
              match s1 with
              | String "." s1' =>
                  let '(f, scale, s2) := leadingFraction s1' 0 (float_of_Z 1) false in
                  (f, scale, s2, negb (String.length s2 =? String.length s1')%nat)
              | _ => (0%Z, float_of_Z 1, s1, false)
              end in
            if negb pre && negb post then Err errDuration
            else
              let '(u, s3) := split_unit s2 in
              if String.eqb u "" then Err errMissingUnit
              else
                match unitMap !! u with
                | None => Err errUnknownUnit
                | Some unit =>
                    if Z.ltb (2 ^ 63 / unit) v then Err errDuration
                    else
                      let v1 := (v * unit)%Z in
                      if Z.ltb 0 f then
                        let v2 := wrap64 (v1 + uint64_of_float (float_mul (float_of_Z f) (float_div (float_of_Z unit) scale))) in
                        if Z.ltb (2 ^ 63) v2 then Err errDuration else Ok (v2, s3)
                      else Ok (v1, s3)
                end
        end
  end.

(** The loop; every term is at least one byte long, so the length is enough fuel. *)
Fixpoint duration_terms (fuel : nat) (s : string) (d : Z) : result Z :=
  match s, fuel with
  | "", _ => Ok d
  | _, O => Err errDuration
  | _, S fuel =>
      match duration_term s with
      | Err e => Err e
      | Ok (v, rest) =>
          let d' := wrap64 (d + v) in
          if Z.ltb (2 ^ 63) d' then Err errDuration else duration_terms fuel rest d'
      end
  end.

Definition ParseDuration (orig : string) : result Z :=
  let '(neg, s) := split_sign orig in
  if String.eqb s "0" then Ok 0%Z
  else if String.eqb s "" then Err errDuration
  else
    d <-r duration_terms (String.length s) s 0 ;;
    if neg then Ok (- d)%Z
    else if Z.ltb max_int64 d then Err errDuration else Ok d.

(** ** Flags *)

(** A registered flag with its current value; a flag of another package is known by
    whether it needs an argument and whether it takes one. *)
Inductive flagValue :=
| FString (v : string)
| FInt (v : Z)
| FBool (v : bool)
| FDuration (v : Z)
| FOther (isBool : bool) (accepts : string -> bool).

Abbreviation FlagSet := (gmap string flagValue).

Definition set_flag (value : string) (v : flagValue) : result flagValue :=
  match v with
  | FString _ => Ok (FString value)
  | FInt _ => n <-r ParseInt true value ;; Ok (FInt n)
  | FBool _ => b <-r ParseBool value ;; Ok (FBool b)
  | FDuration _ => d <-r ParseDuration value ;; Ok (FDuration d)
  | FOther isBool accepts => if accepts value then Ok v else Err errSyntax
  end.

Definition is_bool_flag (v : flagValue) : bool :=
  match v with FBool _ => true | FOther isBool _ => isBool | _ => false end.

(** The name and the value after the first [=] that is not the first character. *)
Fixpoint cut_equals (s : string) : string * option string :=
  match s with
  | "" => ("", None)
  | String c rest =>
      if Ascii.eqb c "="%char then ("", Some rest)
      else let '(n, v) := cut_equals rest in (String c n, v)
  end.

(** How [flag.Parse] ends: parsed with the arguments left, a message, or the help text. *)
Inductive parseEnd := Parsed (fs : FlagSet) (rest : list string) | BadFlag (err : error) | HelpShown.

(** The first argument: not a flag, the terminator, malformed, or a flag's name with
    its value when it has one. *)
Inductive argument := NotFlag | Terminator | BadSyntax | FlagArg (name : string) (value : option string).

Definition read_argument (s : string) : argument :=
  match s with
  | String "-" (String c tail as name1) =>
      let name := if Ascii.eqb c "-"%char then tail else name1 in
      if Ascii.eqb c "-"%char && String.eqb tail "" then Terminator
      else
        match name with
        | "" => BadSyntax
        | String d rest =>
            if Ascii.eqb d "-"%char || Ascii.eqb d "="%char then BadSyntax
            else let '(n, v) := cut_equals rest in FlagArg (String d n) v
        end
  | _ => NotFlag
  end.

Fixpoint flag_Parse (args : list string) (fs : FlagSet) : parseEnd :=
  match args with
  | [] => Parsed fs []
  | s :: rest =>
      match read_argument s with
      | NotFlag => Parsed fs args
      | Terminator => Parsed fs rest
      | BadSyntax => BadFlag ("bad flag syntax: " +:+ s)
      | FlagArg name value =>
          match fs !! name with
          | None =>
              if String.eqb name "help" || String.eqb name "h" then HelpShown
              else BadFlag ("flag provided but not defined: -" +:+ name)
          | Some flag =>
              if is_bool_flag flag then
                match set_flag (default "true" value) flag with
                | Ok v => flag_Parse rest (<[name := v]> fs)
                | Err err => BadFlag ("invalid boolean value for -" +:+ name +:+ ": " +:+ err)
                end
              else
                match value, rest with
                | Some value, _ =>
                    match set_flag value flag with
                    | Ok v => flag_Parse rest (<[name := v]> fs)
                    | Err err => BadFlag ("invalid value for flag -" +:+ name +:+ ": " +:+ err)
                    end
                | None, value :: rest' =>
                    match set_flag value flag with
                    | Ok v => flag_Parse rest' (<[name := v]> fs)
                    | Err err => BadFlag ("invalid value for flag -" +:+ name +:+ ": " +:+ err)
                    end
                | None, [] => BadFlag ("flag needs an argument: -" +:+ name)
                end
          end
      end
  end.

Example parse_samples :
  map ParseDuration ["1h0m0s"; "1.5s"; "250ms"; "-2s"; ".5h"; "0"; "10"; "s"; "9223372036854775807ns"; "9223372036854775808ns"]%string =
  [Ok (3600 * second); Ok 1500000000; Ok 250000000; Ok (-2 * second); Ok (1800 * second); Ok 0; Err errMissingUnit; Err errDuration;
   Ok max_int64; Err errDuration]%Z /\
  map Atoi ["42"; "-7"; "0x10"; "1_000"; "9223372036854775808"]%string = [Ok 42; Ok (-7); Err errSyntax; Err errSyntax; Err errRange]%Z /\
  map (ParseInt true) ["42"; "0x10"; "1_000"; "010"; "1__0"]%string = [Ok 42; Ok 16; Ok 1000; Ok 8; Err errSyntax]%Z.
Proof. vm_compute. repeat split; reflexivity. Qed.
