(* ===== verification/Admission.v ===== *)
(** * Admission: what the API server takes

    The markers of [api/v1alpha1]: patterns, lengths, bounds and list sizes, the
    defaults, and the two validation rules, applied as the API server applies them to
    a custom resource before the controllers see it: defaults are filled in first, in
    objects that are present, then the result is validated, then the controllers
    decode it into the types of [ApiTypes]. A field the author left out is [None]. *)

From Stdlib Require Import ZArith Lia.
From stdpp Require Import base gmap strings list.
From S2P Require Import Prelude Json Redact Regex Conditions ApiTypes GoFlags.

(** ** Patterns, as the source writes them *)

Definition KindPattern : string := "^[A-Z][A-Za-z0-9]{0,62}$".
Definition GroupPattern : string := "^$|^[a-z0-9]([-a-z0-9]*[a-z0-9])?(\.[a-z0-9]([-a-z0-9]*[a-z0-9])?)*$".
Definition VersionPattern : string := "^v[0-9]+((alpha|beta)[0-9]+)?$".
Definition KindsEntryPattern : string := "^(\*|[A-Z][A-Za-z0-9]{0,62})$".
Definition RedactionFieldPathPattern : string :=
  "^[a-zA-Z_][a-zA-Z0-9_-]*(\[\*\])?(\.[a-zA-Z_][a-zA-Z0-9_-]*(\[\*\])?)*$".
Definition RedactionAnnotationPattern : string :=
  "^([a-z0-9]([-a-z0-9.]*[a-z0-9])?/)?[A-Za-z0-9]([-A-Za-z0-9_.]*[A-Za-z0-9])?$".

(** ** Lengths and bounds *)

(** [MinLength] and [MaxLength] count code points: the bytes that do not continue one. *)
Definition starts_rune (a : Ascii.ascii) : bool :=
  let n := Ascii.nat_of_ascii a in Nat.ltb n 128 || Nat.leb 192 n.

Fixpoint rune_count (s : string) : nat :=
  match s with EmptyString => 0 | String a s' => (if starts_rune a then 1 else 0) + rune_count s' end.

Definition length_within (lo hi : nat) (s : string) : bool := Nat.leb lo (rune_count s) && Nat.leb (rune_count s) hi.

Definition items_within {A} (lo hi : nat) (l : list A) : bool := Nat.leb lo (length l) && Nat.leb (length l) hi.

Definition within (lo hi n : Z) : bool := Z.leb lo n && Z.leb n hi.

(** A constraint on a field that is present. *)
Definition if_present {A} (ok : A -> bool) (field : option A) : bool := match field with Some a => ok a | None => true end.

(** A default for a field that is absent. *)
Definition fill_default {A} (field : option A) (value : A) : option A := match field with Some a => Some a | None => Some value end.

(** ** Rules *)

Record rawRedaction := mkRawRedaction { rd_fieldPath : option string; rd_annotation : option string }.

(** [XValidation: has(self.fieldPath) != has(self.annotation)]. *)
Definition valid_redaction (r : rawRedaction) : bool :=
  xorb (bool_decide (is_Some (rd_fieldPath r))) (bool_decide (is_Some (rd_annotation r))) &&
  if_present (fun s => length_within 1 253 s && MatchString RedactionFieldPathPattern s) (rd_fieldPath r) &&
  if_present (fun s => length_within 1 253 s && MatchString RedactionAnnotationPattern s) (rd_annotation r).

Definition decode_redaction (r : rawRedaction) : RedactionRule :=
  mkRedactionRule (default "" (rd_fieldPath r)) (default "" (rd_annotation r)).

Section rules.
Context `{LA : LabelSelectorAPI}.

Record rawResource := mkRawResource {
  rw_group : option string;
  rw_version : string;
  rw_kind : string;
  rw_labelSelector : option LabelSelector;
}.

Record rawRule := mkRawRule {
  ra_sinkRef : option string;
  ra_resources : list rawResource;
  ra_extraRedaction : list rawRedaction;
}.

Definition default_resource (r : rawResource) : rawResource :=
  mkRawResource (fill_default (rw_group r) "") (rw_version r) (rw_kind r) (rw_labelSelector r).

Definition default_rule (r : rawRule) : rawRule :=
  mkRawRule (fill_default (ra_sinkRef r) "default") (map default_resource (ra_resources r)) (ra_extraRedaction r).

Definition valid_gvk (group version kind : string) : bool :=
  (length_within 0 253 group && MatchString GroupPattern group) &&
  (length_within 0 63 version && MatchString VersionPattern version) &&
  (length_within 0 63 kind && MatchString KindPattern kind).

Definition valid_resource (r : rawResource) : bool :=
  valid_gvk (default "" (rw_group r)) (rw_version r) (rw_kind r).

Definition valid_rule (r : rawRule) : bool :=
  if_present (length_within 1 253) (ra_sinkRef r) &&
  (items_within 1 128 (ra_resources r) && forallb valid_resource (ra_resources r)) &&
  (items_within 0 64 (ra_extraRedaction r) && forallb valid_redaction (ra_extraRedaction r)).

(** A creation, and an update: [XValidation: self == oldSelf] on the sink reference. *)
Definition create_rule (r : rawRule) : option rawRule :=
  let r' := default_rule r in if valid_rule r' then Some r' else None.

Definition update_rule (old r : rawRule) : option rawRule :=
  let r' := default_rule r in
  if valid_rule r' && bool_decide (ra_sinkRef r' = ra_sinkRef old) then Some r' else None.

Definition decode_resource (r : rawResource) : WatchedResource :=
  mkResource (default "" (rw_group r)) (rw_version r) (rw_kind r) (rw_labelSelector r).

Definition decode_rule (r : rawRule) : StreamRuleSpec :=
  mkRuleSpec (default "" (ra_sinkRef r)) (map decode_resource (ra_resources r)) (map decode_redaction (ra_extraRedaction r)).

(** The versions of a rule from its creation on; an update that is refused leaves the
    stored object. *)
Definition rule_versions (first : rawRule) (updates : list rawRule) : option (list rawRule) :=
  v0 ← create_rule first;
  Some ((foldl (fun acc r => match update_rule acc.1 r with Some v => (v, acc.2 ++ [v]) | None => acc end) (v0, [v0]) updates).2).
End rules.

(** ** Sinks *)

Record rawSelector := mkRawSelector { rg_group : option string; rg_version : string; rg_kinds : list string }.

(** Durations are strings in the schema. *)
Record rawConnection := mkRawConnection {
  rc_addr : string;
  rc_database : option string;
  rc_username : option string;
  rc_secretName : string;
  rc_secretNamespace : option string;
  rc_dialTimeout : option string;
  rc_readTimeout : option string;
}.

Record rawWriter := mkRawWriter {
  rwr_queueSize : option Z;
  rwr_workers : option Z;
  rwr_batchMaxRows : option Z;
  rwr_batchMaxWait : option string;
  rwr_enqueueTimeout : option string;
  rwr_drainTimeout : option string;
  rwr_checkpointEvery : option Z;
}.

Record rawPolicy := mkRawPolicy { rp_allowedGVKs : list rawSelector; rp_redaction : list rawRedaction }.

(** The writer and the policy are objects of their own and may be left out. *)
Record rawSink := mkRawSink {
  rs_connection : rawConnection;
  rs_writer : option rawWriter;
  rs_policy : option rawPolicy;
}.

Definition default_connection (c : rawConnection) : rawConnection :=
  mkRawConnection (rc_addr c) (fill_default (rc_database c) "kuberecord") (fill_default (rc_username c) "default")
    (rc_secretName c) (rc_secretNamespace c) (fill_default (rc_dialTimeout c) "5s") (fill_default (rc_readTimeout c) "10s").

Definition default_writer (w : rawWriter) : rawWriter :=
  mkRawWriter (fill_default (rwr_queueSize w) 5000%Z) (fill_default (rwr_workers w) 4%Z) (fill_default (rwr_batchMaxRows w) 1000%Z)
    (fill_default (rwr_batchMaxWait w) "1s") (fill_default (rwr_enqueueTimeout w) "2s") (fill_default (rwr_drainTimeout w) "15s")
    (fill_default (rwr_checkpointEvery w) 50%Z).

Definition default_selector (g : rawSelector) : rawSelector :=
  mkRawSelector (fill_default (rg_group g) "") (rg_version g) (rg_kinds g).

Definition default_policy (p : rawPolicy) : rawPolicy :=
  mkRawPolicy (map default_selector (rp_allowedGVKs p)) (rp_redaction p).

Definition default_sink (s : rawSink) : rawSink :=
  mkRawSink (default_connection (rs_connection s)) (default_writer <$> rs_writer s) (default_policy <$> rs_policy s).

Definition valid_connection (c : rawConnection) : bool :=
  length_within 1 253 (rc_addr c) && if_present (length_within 1 63) (rc_database c) &&
  if_present (length_within 1 253) (rc_username c) && length_within 1 253 (rc_secretName c) &&
  if_present (length_within 0 63) (rc_secretNamespace c).

Definition valid_writer (w : rawWriter) : bool :=
  if_present (within 1 1000000) (rwr_queueSize w) && if_present (within 1 64) (rwr_workers w) &&
  if_present (within 1 100000) (rwr_batchMaxRows w) && if_present (within 0 10000) (rwr_checkpointEvery w).

(** [listType=set] refuses duplicates. *)
Definition valid_selector (g : rawSelector) : bool :=
  (length_within 0 253 (default "" (rg_group g)) && MatchString GroupPattern (default "" (rg_group g))) &&
  (length_within 0 63 (rg_version g) && MatchString VersionPattern (rg_version g)) &&
  items_within 1 128 (rg_kinds g) && bool_decide (NoDup (rg_kinds g)) &&
  forallb (fun k => length_within 0 63 k && MatchString KindsEntryPattern k) (rg_kinds g).

Definition valid_policy (p : rawPolicy) : bool :=
  items_within 0 128 (rp_allowedGVKs p) && forallb valid_selector (rp_allowedGVKs p) &&
  items_within 0 64 (rp_redaction p) && forallb valid_redaction (rp_redaction p).

Definition valid_sink (s : rawSink) : bool :=
  valid_connection (rs_connection s) && if_present valid_writer (rs_writer s) && if_present valid_policy (rs_policy s).

Definition admit_sink (s : rawSink) : option rawSink := let s' := default_sink s in if valid_sink s' then Some s' else None.

(** Decoding by the controllers' client: [metav1.Duration] parses its text. *)
Definition decode_duration (field : option string) : result (option Z) :=
  match field with
  | None => Ok None
  | Some text => match ParseDuration text with Ok d => Ok (Some d) | Err err => Err err end
  end.

Definition decode_connection (c : rawConnection) : result ConnectionSpec :=
  match decode_duration (rc_dialTimeout c), decode_duration (rc_readTimeout c) with
  | Ok dial, Ok read =>
      Ok (mkConnection (rc_addr c) (default "" (rc_database c)) (default "" (rc_username c))
            (mkSecretReference (rc_secretName c) (default "" (rc_secretNamespace c))) dial read)
  | Err err, _ | _, Err err => Err err
  end.

Definition decode_writer (w : rawWriter) : result WriterSpec :=
  match decode_duration (rwr_batchMaxWait w), decode_duration (rwr_enqueueTimeout w), decode_duration (rwr_drainTimeout w) with
  | Ok wait, Ok enqueue, Ok drain =>
      Ok (mkWriterSpec (rwr_queueSize w) (rwr_workers w) (rwr_batchMaxRows w) wait enqueue drain (rwr_checkpointEvery w))
  | Err err, _, _ | _, Err err, _ | _, _, Err err => Err err
  end.

Definition decode_selector (g : rawSelector) : GVKSelector := mkGVKSelector (default "" (rg_group g)) (rg_version g) (rg_kinds g).

Definition decode_policy (p : rawPolicy) : SinkPolicy :=
  mkSinkPolicy (map decode_selector (rp_allowedGVKs p)) (map decode_redaction (rp_redaction p)).

Definition zeroWriterSpec : WriterSpec := mkWriterSpec None None None None None None None.

Definition decode_sink (s : rawSink) : result ClickHouseSinkSpec :=
  match decode_connection (rs_connection s),
        match rs_writer s with Some w => decode_writer w | None => Ok zeroWriterSpec end with
  | Ok cn, Ok ws => Ok (mkSinkSpec cn ws (match rs_policy s with Some p => decode_policy p | None => mkSinkPolicy [] [] end))
  | Err err, _ | _, Err err => Err err
  end.
