(* ===== verification/Operator.v ===== *)
(** * Operator: settings and wiring

    Models [cmd/main.go]: the environment and flags, the composition of the
    components ([setupOperator]), the [dataPlane] that closes the cycle between them,
    the cache options that confine Secrets, and [main]; and the parts of the
    components it calls while wiring: [SetupWithManager] of the reconcilers,
    [NewParker], and the option checks of [NewWarmCoordinator] and
    [NewScopeEpochRecorder].

    Of a dependency handed to a constructor only its presence is kept. What client-go
    and controller-runtime answer while wiring is the argument [outside]. *)

From Stdlib Require Import ZArith Lia.
From stdpp Require Import base gmap strings list.
From S2P Require Import Prelude Identity HashCache Sha256 Json Redact Pipeline JsonPatch Process Registry Interest Resolver WatchManager WatchLoop.
From S2P Require Import ScopeRecorder Warm ApiTypes Conditions RuleReconciler Driver ScopeWriter CHWriter SinkManager CHSchema SinkReconciler.
From S2P Require Import ProcessFacts Workers Metrics GoFlags.

#[local] Open Scope kube_scope.

(** ** Flags and the variables they are bound to *)

(** What a flag's variable holds: the initial value once registered, then what was last
    set. *)
Definition string_flag (fs : FlagSet) (name : string) : string := match fs !! name with Some (FString v) => v | _ => "" end.
Definition int_flag (fs : FlagSet) (name : string) : Z := match fs !! name with Some (FInt v) => v | _ => 0%Z end.
Definition bool_flag (fs : FlagSet) (name : string) : bool := match fs !! name with Some (FBool v) => v | _ => false end.
Definition duration_flag (fs : FlagSet) (name : string) : Z := match fs !! name with Some (FDuration v) => v | _ => 0%Z end.

(** [*t] of the [writerTuning] the writer flags are bound to. *)
Definition bound_tuning (fs : FlagSet) : writerTuning :=
  mkTuning (int_flag fs "writer-queue-size") (int_flag fs "writer-workers") (int_flag fs "writer-batch-max-rows")
    (duration_flag fs "writer-batch-max-wait") (duration_flag fs "writer-enqueue-timeout") (duration_flag fs "writer-drain-timeout").

(** ** Environment variables *)

Section settings.
(** [os.Getenv]: an unset variable is empty. *)
Context (getenv : string -> string).

Definition getEnvOrDefault (key def : string) : string :=
  let v := getenv key in if String.eqb v "" then def else v.

Definition getEnvDurationOrDefault (key : string) (def : Z) : Z :=
  let v := getenv key in
  if String.eqb v "" then def else match ParseDuration v with Ok d => d | Err _ => def end.

Definition getEnvIntOrDefault (key : string) (def : Z) : Z :=
  let v := getenv key in
  if String.eqb v "" then def else match Atoi v with Ok n => n | Err _ => def end.

Definition getEnvBoolOrDefault (key : string) (def : bool) : bool :=
  let v := getenv key in
  if String.eqb v "" then def else match ParseBool v with Ok b => b | Err _ => def end.

(** ** Flags *)

(** [fs.IntVar] and the like; a name registered twice panics. *)
Definition define_flag (name : string) (v : flagValue) (fs : option FlagSet) : option FlagSet :=
  fs ← fs; match fs !! name with Some _ => None | None => Some (<[name := v]> fs) end.

Definition registerWriterFlags (fs : option FlagSet) : option FlagSet :=
  let queueSizeDef := getEnvIntOrDefault "WRITER_QUEUE_SIZE" DefaultWriteQueueSize in
  let workersDef := getEnvIntOrDefault "WRITER_WORKERS" DefaultWriteWorkers in
  let batchMaxRowsDef := getEnvIntOrDefault "WRITER_BATCH_MAX_ROWS" DefaultBatchMaxRows in
  let batchMaxWaitDef := getEnvDurationOrDefault "WRITER_BATCH_MAX_WAIT" DefaultBatchMaxWait in
  let enqueueTimeoutDef := getEnvDurationOrDefault "WRITER_ENQUEUE_TIMEOUT" DefaultEnqueueTimeout in
  let drainTimeoutDef := getEnvDurationOrDefault "WRITER_DRAIN_TIMEOUT" DefaultShutdownDrainTimeout in
  let fs := define_flag "writer-queue-size" (FInt queueSizeDef) fs in
  let fs := define_flag "writer-workers" (FInt workersDef) fs in
  let fs := define_flag "writer-batch-max-rows" (FInt batchMaxRowsDef) fs in
  let fs := define_flag "writer-batch-max-wait" (FDuration batchMaxWaitDef) fs in
  let fs := define_flag "writer-enqueue-timeout" (FDuration enqueueTimeoutDef) fs in
  define_flag "writer-drain-timeout" (FDuration drainTimeoutDef) fs.

(** The operator's own variables are bound by reference; the writer's fallbacks are the
    contents of theirs at this point, copied before any argument is parsed:
    [cfg.writer = *registerWriterFlags(fs)]. *)
Definition registerFlags (fs : option FlagSet) : option (FlagSet * writerTuning) :=
  let fs := define_flag "cluster-id" (FString (getEnvOrDefault "CLUSTER_ID" "local-kind-cluster")) fs in
  let fs := define_flag "operator-namespace" (FString (getEnvOrDefault "POD_NAMESPACE" "")) fs in
  let fs := define_flag "pipeline-workers" (FInt (getEnvIntOrDefault "PIPELINE_WORKERS" DefaultWorkers)) fs in
  let fs := define_flag "ch-auto-create-schema" (FBool (getEnvBoolOrDefault "CH_AUTO_CREATE_SCHEMA" false)) fs in
  let fs := define_flag "metrics-bind-address" (FString "0") fs in
  let fs := define_flag "health-probe-bind-address" (FString ":8081") fs in
  let fs := define_flag "leader-elect" (FBool false) fs in
  let fs := define_flag "metrics-secure" (FBool true) fs in
  let fs := define_flag "webhook-cert-path" (FString "") fs in
  let fs := define_flag "webhook-cert-name" (FString "tls.crt") fs in
  let fs := define_flag "webhook-cert-key" (FString "tls.key") fs in
  let fs := define_flag "metrics-cert-path" (FString "") fs in
  let fs := define_flag "metrics-cert-name" (FString "tls.crt") fs in
  let fs := define_flag "metrics-cert-key" (FString "tls.key") fs in
  let fs := define_flag "enable-http2" (FBool false) fs in
  (fun fs => (fs, bound_tuning fs)) <$> registerWriterFlags fs.
End settings.

(** The variables the flags are bound to. *)
Record operatorConfig := mkOperatorConfig {
  oc_clusterID : string;
  oc_operatorNamespace : string;
  oc_pipelineWorkers : Z;
  oc_autoCreateSchema : bool;
  oc_writer : writerTuning;
}.

Record managerFlags := mkManagerFlags {
  mf_metricsAddr : string;
  mf_probeAddr : string;
  mf_enableLeaderElection : bool;
  mf_secureMetrics : bool;
  mf_enableHTTP2 : bool;
  mf_metricsCertPath : string;
  mf_metricsCertName : string;
  mf_metricsCertKey : string;
  mf_webhookCertPath : string;
  mf_webhookCertName : string;
  mf_webhookCertKey : string;
}.

Definition bound_config (writer : writerTuning) (fs : FlagSet) : operatorConfig :=
  mkOperatorConfig (string_flag fs "cluster-id") (string_flag fs "operator-namespace") (int_flag fs "pipeline-workers")
    (bool_flag fs "ch-auto-create-schema") writer.

Definition bound_manager (fs : FlagSet) : managerFlags :=
  mkManagerFlags (string_flag fs "metrics-bind-address") (string_flag fs "health-probe-bind-address") (bool_flag fs "leader-elect")
    (bool_flag fs "metrics-secure") (bool_flag fs "enable-http2") (string_flag fs "metrics-cert-path")
    (string_flag fs "metrics-cert-name") (string_flag fs "metrics-cert-key") (string_flag fs "webhook-cert-path")
    (string_flag fs "webhook-cert-name") (string_flag fs "webhook-cert-key").

(** ** Serving options *)

(** [tls.Config], as far as it is changed. *)
Abbreviation tlsConfig := (list string).

Definition tlsOptions (mf : managerFlags) : list (tlsConfig -> tlsConfig) :=
  if mf_enableHTTP2 mf then [] else [fun _ => ["http/1.1"]].

Record serverOptions := mkServerOptions {
  so_BindAddress : string;
  so_SecureServing : bool;
  so_TLSOpts : list (tlsConfig -> tlsConfig);
  (** [filters.WithAuthenticationAndAuthorization] is set. *)
  so_Authenticated : bool;
  so_CertDir : string;
  so_CertName : string;
  so_KeyName : string;
}.

Definition webhookServerOptions (mf : managerFlags) : serverOptions :=
  if (0 <? String.length (mf_webhookCertPath mf))%nat then
    mkServerOptions "" false (tlsOptions mf) false (mf_webhookCertPath mf) (mf_webhookCertName mf) (mf_webhookCertKey mf)
  else mkServerOptions "" false (tlsOptions mf) false "" "" "".

Definition metricsServerOptions (mf : managerFlags) : serverOptions :=
  let filtered := mf_secureMetrics mf in
  if (0 <? String.length (mf_metricsCertPath mf))%nat then
    mkServerOptions (mf_metricsAddr mf) (mf_secureMetrics mf) (tlsOptions mf) filtered
      (mf_metricsCertPath mf) (mf_metricsCertName mf) (mf_metricsCertKey mf)
  else mkServerOptions (mf_metricsAddr mf) (mf_secureMetrics mf) (tlsOptions mf) filtered "" "" "".

(** ** The manager's cache *)

(** [cache.Options.ByObject]: the namespaces an object type is cached in; the empty
    name is every namespace. *)
Abbreviation cacheOptions := (gmap string (list string)).

Definition managerCacheOptions (operatorNamespace : string) : cacheOptions := {[ "Secret" := [operatorNamespace] ]}.

(** ** The data plane's indirection *)

(** Which of its three components are bound. *)
Record dataPlane := mkPlane { dp_pipe : bool; dp_watches : bool; dp_warm : bool }.

Definition errDataPlaneUnbound : error := "data plane is not wired up yet".

Definition plane_bind (pipe watches warm : bool) (d : dataPlane) : dataPlane := mkPlane pipe watches warm.

Section plane.
Context `{ZC : ZstdCodec} `{UA : UnstructuredAPI} `{JD : JsonDiff} `{LS : LabelSelectors}.

Definition plane_RemoveSink (d : dataPlane) (name : string) : M unit :=
  if dp_pipe d then Pipeline.RemoveSink name else mret tt.

Definition plane_ForgetSink (d : dataPlane) (name : string) (c : WarmCoordinator) : WarmCoordinator * list coordCall :=
  if dp_warm d then ForgetSink name c else (c, []).

Definition plane_Get (d : dataPlane) (t : interestTable) (p : pool) (ref : Key) : result (option object * bool) :=
  if dp_watches d then Get t p ref else Err errDataPlaneUnbound.

Definition plane_RedactionFor (d : dataPlane) (t : interestTable) (ref : Key) : option (option RedactionPolicy) :=
  if dp_watches d then RedactionFor t ref else None.

Definition plane_ScopeSynced (d : dataPlane) (t : interestTable) (p : pool) (sinkName : string) (scope : ScopeKey) : bool :=
  if dp_watches d then ScopeSynced t p sinkName scope else false.

Definition plane_ScopeDesired (d : dataPlane) (t : interestTable) (sinkName : string) (scope : ScopeKey) : bool :=
  if dp_watches d then ScopeDesired t sinkName scope else false.

(** Whether the channel [Settled] answers is closed, given the watch manager's own. *)
Definition plane_Settled (d : dataPlane) (closed : bool) : bool :=
  if dp_watches d then closed else false.

(** What the pipeline is handed: the plane is its lister and its redaction registry. *)
Definition plane_env (d : dataPlane) (clusterID : string) (t : interestTable) (p : pool) (router : string -> option Writer)
    (clock : nat -> Z) : env :=
  mkEnv clusterID (plane_Get d t p) router (Some (plane_RedactionFor d t)) clock.
End plane.

(** ** What the components check of their options *)

Definition defaultWarmRetryMaxInterval : Z := 30 * second.
Definition defaultSyncPollInterval : Z := 100 * 1000000.
Definition defaultBootInterval : Z := 30 * second.

(** [WarmOptions]: which dependencies are there, and the three intervals. *)
Record warmOptions := mkWarmOptions {
  wa_Pipeline : bool;
  wa_Scopes : bool;
  wa_Readers : bool;
  wa_ScopeEvents : bool;
  wa_RetryMaxInterval : Z;
  wa_SyncPollInterval : Z;
  wa_BootInterval : Z;
}.

Definition warm_New (opts : warmOptions) : result (WarmCoordinator * (Z * Z * Z)) :=
  if negb (wa_Pipeline opts) then Err "pipeline: WarmOptions.Pipeline is required"
  else if negb (wa_Scopes opts) then Err "pipeline: WarmOptions.Scopes is required"
  else if negb (wa_Readers opts) then Err "pipeline: WarmOptions.Readers is required"
  else if negb (wa_ScopeEvents opts) then Err "pipeline: WarmOptions.ScopeEvents is required"
  else Ok (NewWarmCoordinator,
    (or_default defaultWarmRetryMaxInterval (wa_RetryMaxInterval opts), or_default defaultSyncPollInterval (wa_SyncPollInterval opts),
     or_default defaultBootInterval (wa_BootInterval opts))).

Definition defaultScopeFlushInterval : Z := 2 * second.
Definition defaultScopeQueueLimit : Z := 4096.

(** [ScopeRecorderOptions]: is there a router of events, and the two settings. *)
Record recorderOptions := mkRecorderOptions {
  ro_Events : bool;
  ro_FlushInterval : Z;
  ro_QueueLimit : Z;
}.

Definition recorder_New (opts : recorderOptions) : result (ScopeEpochRecorder * (Z * Z)) :=
  if negb (ro_Events opts) then Err "watch: ScopeRecorderOptions.Events is required"
  else Ok (NewScopeEpochRecorder,
    (or_default defaultScopeFlushInterval (ro_FlushInterval opts), or_default defaultScopeQueueLimit (ro_QueueLimit opts))).

(** ** The manager, as it is set up *)

Inductive runnable := RunSinks | RunPipeline | RunWarm | RunRecorder | RunWatches | RunProbeWatcher.

#[export] Instance runnable_eq_dec : EqDecision runnable.
Proof. solve_decision. Defined.

(** A controller: its name, the kind it is for, the kinds whose events it maps. *)
Record controllerSpec := mkController { ct_name : string; ct_for : string; ct_watches : list string }.

Record managerState := mkManagerState {
  mg_runnables : list runnable;
  (** kinds with the field they are indexed by *)
  mg_indexes : list (string * string);
  mg_controllers : list controllerSpec;
  mg_checks : list string;
}.

Definition newManagerState : managerState := mkManagerState [] [] [] [].

(** The calls whose answer is the cluster's or a library's. *)
Inductive outsideCall :=
| CallDynamicClient
| CallAdd (r : runnable)
| CallClientset
| CallIndexField (kind : string)
| CallComplete (controller : string)
| CallHealthz
| CallReadyz.

#[export] Instance outsideCall_eq_dec : EqDecision outsideCall.
Proof. solve_decision. Defined.

Section wiring.
(** [None]: the call succeeds. *)
Context `{LabelSelectorAPI} (outside : outsideCall -> option error).

(** [fmt.Errorf("what: %w", err)] *)
Definition wrap (what : string) (err : error) : error := what +:+ ": " +:+ err.

Definition calling {A} (c : outsideCall) (what : string) (k : result A) : result A :=
  match outside c with Some err => Err (wrap what err) | None => k end.

Definition mgr_Add (r : runnable) (m : managerState) : result managerState :=
  match outside (CallAdd r) with
  | Some err => Err err
  | None => Ok (mkManagerState (mg_runnables m ++ [r]) (mg_indexes m) (mg_controllers m) (mg_checks m))
  end.

Definition mgr_IndexField (kind field : string) (m : managerState) : result managerState :=
  match outside (CallIndexField kind) with
  | Some err => Err err
  | None => Ok (mkManagerState (mg_runnables m) (mg_indexes m ++ [(kind, field)]) (mg_controllers m) (mg_checks m))
  end.

(** [Complete]. *)
Definition mgr_Complete (c : controllerSpec) (m : managerState) : result managerState :=
  match outside (CallComplete (ct_name c)) with
  | Some err => Err err
  | None => Ok (mkManagerState (mg_runnables m) (mg_indexes m) (mg_controllers m ++ [c]) (mg_checks m))
  end.

Definition mgr_check (c : outsideCall) (name : string) (m : managerState) : result managerState :=
  match outside c with
  | Some err => Err err
  | None => Ok (mkManagerState (mg_runnables m) (mg_indexes m) (mg_controllers m) (mg_checks m ++ [name]))
  end.

(** An error with a text before it. *)
Definition wrapping {A} (what : string) (r : result A) : result A :=
  match r with Ok x => Ok x | Err err => Err (wrap what err) end.

(** ** The reconcilers' registration *)

(** The fields of a [RuleReconciler] the registration looks at. *)
Record ruleSetup := mkRuleSetup {
  rs_Registry : bool;
  rs_Resolver : bool;
  rs_Access : bool;
  rs_Metrics : bool;
  rs_kind : option ruleKind;
  (** the park channel exists *)
  rs_events : bool;
}.

Definition defaultMetrics (r : ruleSetup) : ruleSetup :=
  mkRuleSetup (rs_Registry r) (rs_Resolver r) (rs_Access r) true (rs_kind r) (rs_events r).

Definition NewStreamRuleReconciler (base : ruleSetup) : ruleSetup :=
  defaultMetrics (mkRuleSetup (rs_Registry base) (rs_Resolver base) (rs_Access base) (rs_Metrics base) (Some streamRuleKind) (rs_events base)).

Definition NewClusterStreamRuleReconciler (base : ruleSetup) : ruleSetup :=
  defaultMetrics (mkRuleSetup (rs_Registry base) (rs_Resolver base) (rs_Access base) (rs_Metrics base) (Some clusterStreamRuleKind) (rs_events base)).

Definition sinkRefIndexKey : string := ".spec.sinkRef".
Definition secretRefIndexKey : string := ".spec.connection.credentialsSecretRef".

Definition rule_SetupWithManager (r : ruleSetup) (m : managerState) : result (ruleSetup * managerState) :=
  if negb (rs_Registry r) then Err "controller: RuleReconciler.Registry is required"
  else if negb (rs_Resolver r) then Err "controller: RuleReconciler.Resolver is required"
  else if negb (rs_Access r) then Err "controller: RuleReconciler.Access is required"
  else
    match rs_kind r with
    | None => Err "controller: RuleReconciler must be built by NewStreamRuleReconciler or NewClusterStreamRuleReconciler"
    | Some kind =>
        let r := mkRuleSetup (rs_Registry r) (rs_Resolver r) (rs_Access r) (rs_Metrics r) (rs_kind r) true in
        m <-r wrapping ("index " +:+ rk_kind kind +:+ " by spec.sinkRef") (mgr_IndexField (rk_kind kind) sinkRefIndexKey m) ;;
        let watches := "ClickHouseSink" :: (if bool_decide (rk_scope kind = ClusterRule) then ["Namespace"] else []) in
        m <-r mgr_Complete (mkController (rk_controllerName kind) (rk_kind kind) watches) m ;;
        Ok (r, m)
    end.

(** The fields of a [SinkReconciler] the registration looks at. *)
Record sinkSetup := mkSinkSetup { sp_BuildConfig : bool; sp_Sinks : bool; sp_OperatorNamespace : string }.

Definition sink_SetupWithManager (r : sinkSetup) (results : bool) (m : managerState) : result managerState :=
  if negb (sp_BuildConfig r) then Err "controller: SinkReconciler.BuildConfig is required"
  else if negb (sp_Sinks r) then Err "controller: SinkReconciler.Sinks is required"
  else if String.eqb (sp_OperatorNamespace r) "" then Err "controller: SinkReconciler.OperatorNamespace is required"
  else
    m <-r wrapping "index ClickHouseSink by credentials Secret" (mgr_IndexField "ClickHouseSink" secretRefIndexKey m) ;;
    m <-r (if results then wrapping "add the sink probe watcher" (mgr_Add RunProbeWatcher m) else Ok m) ;;
    mgr_Complete (mkController "clickhousesink" "ClickHouseSink" ["Secret"]) m.

(** A reconciler that was not registered has no channel and is skipped. *)
Definition NewParker (reconcilers : list ruleSetup) : Parker :=
  foldl (fun p r => match rs_kind r with Some kind => if rs_events r then <[rk_kind kind := []]> p else p | None => p end) ∅ reconcilers.

(** ** The composition *)

(** [operator] with the components that exist, and the manager they are added to. *)
Record assembly := mkAssembly {
  op_registry : bool;
  op_sinks : option ManagerOptions;
  op_pipe : option nat;
  op_warm : option (Z * Z * Z);
  op_recorder : option (Z * Z);
  op_watches : option loopSettings;
  op_plane : dataPlane;
  op_parker : option Parker;
  op_mgr : managerState;
}.

Definition newAssembly : assembly := mkAssembly false None None None None None (mkPlane false false false) None newManagerState.

Definition present {A} (o : option A) : bool := match o with Some _ => true | None => false end.

Fixpoint add_runnables (rs : list (string * runnable)) (m : managerState) : result managerState :=
  match rs with
  | [] => Ok m
  | (name, r) :: rest =>
      m <-r wrapping ("add the " +:+ name +:+ " to the manager") (mgr_Add r m) ;; add_runnables rest m
  end.

Definition plane_runnables : list (string * runnable) :=
  [("sink runtime", RunSinks); ("pipeline", RunPipeline); ("warm/GC coordinator", RunWarm);
   ("scope-epoch recorder", RunRecorder); ("watch manager", RunWatches)].

(** The factory, the plane and [op.parkRules] are there from the start; the registry,
    the manager and the pipeline are what the earlier lines made. *)
Definition setupDataPlane (cfg : operatorConfig) (op : assembly) : result assembly :=
  let registry := true in
  sinks <-r wrapping "build the sink runtime" (NewSinkManager (C := Config) (mkOptions true true 0 0 0 0 0 0)) ;;
  pipe <-r wrapping "build the pipeline" (pipeline_New true true (oc_pipelineWorkers cfg)) ;;
  warm <-r wrapping "build the warm/GC coordinator" (warm_New (mkWarmOptions true true true true 0 0 0)) ;;
  recorder <-r wrapping "build the scope-epoch recorder" (recorder_New (mkRecorderOptions true 0 0)) ;;
  calling CallDynamicClient "build the dynamic client" (
    watches <-r wrapping "build the watch manager" (watch_New (mkWatchOptions registry true true true 0 0 0 0)) ;;
    let plane := plane_bind true true true (op_plane op) in
    m <-r add_runnables plane_runnables (op_mgr op) ;;
    Ok (mkAssembly registry (Some sinks.2) (Some pipe) (Some warm.2) (Some recorder.2) (Some watches) plane (op_parker op) m)).

Definition setupControlPlane (cfg : operatorConfig) (op : assembly) : result assembly :=
  calling CallClientset "build the authorization client" (
    m <-r wrapping "set up the ClickHouseSink reconciler"
      (sink_SetupWithManager (mkSinkSetup true (present (op_sinks op)) (oc_operatorNamespace cfg)) true (op_mgr op)) ;;
    let base := mkRuleSetup (op_registry op) true true true None false in
    nm <-r wrapping "set up the StreamRule reconciler" (rule_SetupWithManager (NewStreamRuleReconciler base) m) ;;
    cm <-r wrapping "set up the ClusterStreamRule reconciler" (rule_SetupWithManager (NewClusterStreamRuleReconciler base) nm.2) ;;
    Ok (mkAssembly (op_registry op) (op_sinks op) (op_pipe op) (op_warm op) (op_recorder op) (op_watches op) (op_plane op)
          (Some (NewParker [nm.1; cm.1])) cm.2)).

Definition setupOperator (cfg : operatorConfig) : result assembly :=
  op <-r setupDataPlane cfg newAssembly ;;
  op <-r setupControlPlane cfg op ;;
  m <-r wrapping "set up the health check" (mgr_check CallHealthz "healthz" (op_mgr op)) ;;
  m <-r wrapping "set up the ready check" (mgr_check CallReadyz "readyz" m) ;;
  Ok (mkAssembly (op_registry op) (op_sinks op) (op_pipe op) (op_warm op) (op_recorder op) (op_watches op) (op_plane op) (op_parker op) m).

(** [parkRules]. *)
Definition parkRules (ruleKeys : list string) (op : assembly) : assembly :=
  match op_parker op with
  | None => op
  | Some p =>
      mkAssembly (op_registry op) (op_sinks op) (op_pipe op) (op_warm op) (op_recorder op) (op_watches op) (op_plane op)
        (Some (SinkGone ruleKeys p)) (op_mgr op)
  end.
End wiring.

(** [newSinkFactory]: [None] is a configuration of another type; [open] is
    [clickhouse.Open]. *)
Definition newSinkFactory `{PC : PromClient F} {B} (open : Config -> SinkMetrics F -> result B) (metrics : MetricStore) (name : string)
    (cfg : option Config) : option (MetricStore * result B) :=
  match cfg with
  | None => Some (metrics, Err ("sink " +:+ Quote name +:+ ": not a ClickHouse configuration"))
  | Some chConfig =>
      match ForSink name metrics with
      | Some (metrics', view) => Some (metrics', open chConfig view)
      | None => None
      end
  end.

(** ** [main] *)

Definition errNoOperatorNamespace : error :=
  "--operator-namespace (or the POD_NAMESPACE env var) must be set; it is the only namespace the operator reads sink credentials Secrets in".

(** What [ctrl.NewManager] is asked for. *)
Record managerRequest := mkRequest {
  mq_Cache : cacheOptions;
  mq_Metrics : serverOptions;
  mq_Webhook : serverOptions;
  mq_ProbeAddress : string;
  mq_LeaderElection : bool;
}.

(** The process panics, exits with a code, or runs the manager it asked for with what
    was added to it. *)
Inductive mainEnd :=
| Panicked
| ExitCode (code : Z) (err : error)
| Serving (request : managerRequest) (cfg : operatorConfig) (op : assembly).

(** [zapFlags] are the flags of the logger's package. *)
Definition main `{LabelSelectorAPI} (getenv : string -> string) (args : list string) (zapFlags : list (string * flagValue))
    (newManager : managerRequest -> option error) (outside : outsideCall -> option error) : mainEnd :=
  match registerFlags getenv (Some ∅) with
  | None => Panicked
  | Some (fs, writer) =>
      match foldl (fun fs kv => define_flag kv.1 kv.2 fs) (Some fs) zapFlags with
      | None => Panicked
      | Some fs =>
          match flag_Parse args fs with
          | HelpShown => ExitCode 0 ""
          | BadFlag err => ExitCode 2 err
          | Parsed fs _ =>
              let cfg := bound_config writer fs in
              let mf := bound_manager fs in
              if String.eqb (oc_operatorNamespace cfg) "" then ExitCode 1 errNoOperatorNamespace
              else
                let request := mkRequest (managerCacheOptions (oc_operatorNamespace cfg)) (metricsServerOptions mf) (webhookServerOptions mf)
                                 (mf_probeAddr mf) (mf_enableLeaderElection mf) in
                match newManager request with
                | Some err => ExitCode 1 err
                | None =>
                    match setupOperator outside cfg with
                    | Err err => ExitCode 1 err
                    | Ok op => Serving request cfg op
                    end
                end
          end
      end
  end.
