(* ===== verification/ProcessSpec.v ===== *)
(** * ProcessSpec: the effect of a work item on its identity

    What the handlers of [Process] do to the one cache entry, the owed close-outs
    and the jobs of the identity they work on, as exact equations; and the
    properties of [Process] that follow from them. *)

From Stdlib Require Import ZArith Lia.
From stdpp Require Import base gmap strings list.
From S2P Require Import Prelude Identity HashCache Sha256 Json Redact Normalize Pipeline JsonPatch Process.
From S2P Require Import ProcessFacts.

(** The identity's entry, the close-outs it is owed, and everything sent. *)
Record local := mkLocal {
  l_entry : option CacheEntry;
  l_owed : list Record_;
  l_sent : list (string * Job);
}.

Definition local_of (loc : nat) (okey : string) (s : pstate) : local :=
  mkLocal (cache (deref s loc) !! okey) (default [] (closeOuts (deref s loc) !! okey)) (sent s).

Section spec.
Context `{C : ZstdCodec} `{U : UnstructuredAPI} `{D : JsonDiff}.
Context (loc : nat) (okey : string).

#[local] Abbreviation L := (local_of loc okey).

(** ** Primitive effects *)

Lemma L_heap s s' : heap s' = heap s -> sent s' = sent s -> L s' = L s.
Proof. unfold local_of, deref. by intros -> ->. Qed.

Lemma L_on_cache {A} (op : hashCache -> hashCache * A) s :
  L (on_cache loc op s).1 =
    mkLocal ((op (cache (deref s loc))).1 !! okey) (l_owed (L s)) (l_sent (L s)).
Proof.
  unfold on_cache. destruct (op _) as [c a]. unfold local_of. simpl. by rewrite deref_store_eq.
Qed.

Lemma L_now e s : L (now e s).1 = L s.
Proof. by apply L_heap. Qed.

Lemma L_queue c s : L (queue_call c s).1 = L s.
Proof. by apply L_heap. Qed.

Lemma L_entries sink l s : L (recordCacheEntries sink l s).1 = L s.
Proof. by apply L_heap. Qed.

Lemma L_Enqueue writer sink job s :
  L (Enqueue writer sink job s).1 =
    mkLocal (l_entry (L s)) (l_owed (L s))
      (l_sent (L s) ++ match (Enqueue writer sink job s).2 with Some _ => [] | None => [(sink, job)] end).
Proof.
  unfold Enqueue. destruct (w_Enqueue _ _ _); unfold local_of, deref; simpl; by rewrite ?app_nil_r.
Qed.

Lemma L_remember r s :
  L (remember_closeOut loc okey r s).1 = mkLocal (l_entry (L s)) (l_owed (L s) ++ [r]) (l_sent (L s)).
Proof.
  unfold local_of. cbn. rewrite deref_store_eq. simpl. unfold closeOuts_Add.
  by rewrite lookup_insert_eq.
Qed.

Lemma L_take s :
  L (on_closeOuts loc (closeOuts_TakeAll okey) s).1 = mkLocal (l_entry (L s)) [] (l_sent (L s)) /\
  (on_closeOuts loc (closeOuts_TakeAll okey) s).2 = l_owed (L s).
Proof.
  unfold local_of. cbn. rewrite deref_store_eq. simpl. by rewrite lookup_delete_eq.
Qed.

Lemma L_entry s : l_entry (L s) = cache (deref s loc) !! okey.
Proof. done. Qed.

Lemma L_owed s : l_owed (L s) = default [] (closeOuts (deref s loc) !! okey).
Proof. done. Qed.

#[global] Opaque local_of.

(** ** Close-outs *)

(** A close-out that is sent or still owed. *)
Definition closeout_job (key : Key) (r : Record_) : string * Job :=
  (k_Sink key, mkJob r (CommitCloseOut key loc okey r)).

(** [rs] are split between what was accepted and what is owed again. *)
Inductive attempted (key : Key) : list Record_ -> local -> local -> Prop :=
| attempted_nil l : attempted key [] l l
| attempted_sent r rs e o s l :
    attempted key rs (mkLocal e o (s ++ [closeout_job key r])) l ->
    attempted key (r :: rs) (mkLocal e o s) l
| attempted_owed r rs e o s l :
    attempted key rs (mkLocal e (o ++ [r]) s) l -> attempted key (r :: rs) (mkLocal e o s) l.

Lemma attempted_app key rs1 rs2 l l' l'' :
  attempted key rs1 l l' -> attempted key rs2 l' l'' -> attempted key (rs1 ++ rs2) l l''.
Proof.
  induction 1; simpl; intros H2; [done|apply attempted_sent|apply attempted_owed]; auto.
Qed.

Lemma enqueueCloseOut_spec key writer r s :
  attempted key [r] (L s) (L (enqueueCloseOut key loc writer okey r s).1).
Proof.
  unfold enqueueCloseOut, mbind, M_bind.
  pose proof (L_Enqueue writer (k_Sink key) (mkJob r (CommitCloseOut key loc okey r)) s) as HE.
  destruct (Enqueue _ _ _ s) as [s1 [err|]]; simpl in HE.
  - pose proof (L_remember r s1) as HR. destruct (remember_closeOut loc okey r s1) as [s2 []].
    simpl in HR. rewrite L_queue, HR, HE, app_nil_r. simpl.
    destruct (L s) as [en ow se]. apply attempted_owed. constructor.
  - simpl. rewrite HE. destruct (L s) as [en ow se]. apply attempted_sent. constructor.
Qed.

Lemma enqueueCloseOuts_spec key writer rs s :
  attempted key rs (L s) (L (enqueueCloseOuts key loc writer okey rs s).1).
Proof.
  revert s. induction rs as [|r rs IH]; intros s; simpl; [constructor|].
  unfold mbind, M_bind. pose proof (enqueueCloseOut_spec key writer r s) as H1.
  destruct (enqueueCloseOut key loc writer okey r s) as [s1 []]. simpl in *.
  by apply (attempted_app key [r] rs _ (L s1)).
Qed.

Lemma retry_spec key writer s :
  attempted key (l_owed (L s)) (mkLocal (l_entry (L s)) [] (l_sent (L s)))
    (L (retryPendingCloseOuts key loc writer okey s).1).
Proof.
  unfold retryPendingCloseOuts, mbind, M_bind. destruct (L_take s) as [H1 H2].
  destruct (on_closeOuts loc (closeOuts_TakeAll okey) s) as [s1 rs]. simpl in *. subst rs.
  rewrite <- H1. apply enqueueCloseOuts_spec.
Qed.

(** What an attempt leaves behind. *)
Lemma attempted_facts key rs l l' :
  attempted key rs l l' ->
  l_entry l' = l_entry l /\
  exists js owed, l_sent l' = l_sent l ++ map (closeout_job key) js /\ l_owed l' = l_owed l ++ owed /\
    forall r, r ∈ js \/ r ∈ owed -> r ∈ rs.
Proof.
  induction 1 as [l|r rs e o s l _ [He (js & owed & Hs & Ho & Hin)]
                 |r rs e o s l _ [He (js & owed & Hs & Ho & Hin)]]; simpl in *.
  - split; [done|]. exists [], []. rewrite !app_nil_r. split; [done|]. split; [done|].
    intros r [Hr|Hr]; by apply elem_of_nil in Hr.
  - split; [done|]. exists (r :: js), owed. rewrite Hs, <- app_assoc. split; [done|]. split; [done|].
    intros r' [[->|Hr]%elem_of_cons|Hr]; apply elem_of_cons; [by left| |]; right; apply Hin; auto.
  - split; [done|]. exists js, (r :: owed). rewrite Ho, <- app_assoc. split; [done|]. split; [done|].
    intros r' [Hr|[->|Hr]%elem_of_cons]; apply elem_of_cons; [|by left|]; right; apply Hin; auto.
Qed.

(** ** Export *)

(** The cache content a revert leaves at the key. *)
Definition reverted (v : Z) (rev : option CacheEntry) : option CacheEntry := set_Version v <$> rev.

Lemma revert_spec v rev s e0 :
  l_entry (L s) = Some e0 -> Version e0 = v ->
  L (revertVersion loc okey v rev s).1 = mkLocal (reverted v rev) (l_owed (L s)) (l_sent (L s)).
Proof.
  intros He Hv. unfold revertVersion. destruct rev as [e|]; rewrite L_on_cache.
  - rewrite (Commit_current _ _ _ e0) by (by rewrite <- L_entry). rewrite Hv, Z.eqb_refl. simpl. by rewrite lookup_insert_eq.
  - rewrite (Delete_current _ _ e0) by (by rewrite <- L_entry). rewrite Hv, Z.eqb_refl. simpl. by rewrite lookup_delete_eq.
Qed.

(** [export] on one identity: with the version it reserves and the job it builds,
    either the job is accepted and the optimistic entry stays, or it is refused
    and the entry is reverted. *)
Lemma export_spec e key writer norm et diff full run rev s :
  let conf := confirmed_entry norm (key_ephemeral key) run in
  exists v ts,
  let job := mkJob (upsertRecord e ts key norm et diff full) (CommitUpsert key loc okey v conf rev) in
  match (export e key loc writer okey norm et diff full run rev s).2 with
  | None => L (export e key loc writer okey norm et diff full run rev s).1 =
      mkLocal (Some (set_Version v conf)) (l_owed (L s)) (l_sent (L s) ++ [(k_Sink key, job)])
  | Some err => L (export e key loc writer okey norm et diff full run rev s).1 =
      mkLocal (reverted v rev) (l_owed (L s)) (l_sent (L s))
  end.
Proof.
  cbn zeta. unfold export. set (conf := confirmed_entry norm (key_ephemeral key) run).
  set (v := u64_succ (versionOf okey (cache (deref s loc)))).
  unfold mbind, M_bind.
  pose proof (L_on_cache (Reserve okey conf) s) as H1.
  assert (Hv : (on_cache loc (Reserve okey conf) s).2 = v) by done.
  destruct (on_cache loc (Reserve okey conf) s) as [s1 v1]. simpl in H1, Hv. subst v1.
  rewrite lookup_insert_eq in H1. fold v in H1.
  pose proof (L_entries (k_Sink key) loc s1) as H2.
  destruct (recordCacheEntries (k_Sink key) loc s1) as [s2 []]. simpl in H2.
  pose proof (L_now e s2) as H3. destruct (now e s2) as [s3 ts]. simpl in H3.
  exists v, ts.
  set (job := mkJob _ _). pose proof (L_Enqueue writer (k_Sink key) job s3) as H4.
  destruct (Enqueue writer (k_Sink key) job s3) as [s4 [err|]]; simpl in H4.
  - pose proof (revert_spec v rev s4 (set_Version v conf)) as H5.
    rewrite H4, H3, H2, H1 in H5. simpl in H5. specialize (H5 eq_refl eq_refl).
    destruct (revertVersion loc okey v rev s4) as [s5 b]. simpl in *. by rewrite H5, app_nil_r.
  - simpl. by rewrite H4, H3, H2, H1.
Qed.

(** ** Upserts *)

(** A close-out of the incarnation [entry], which [uid] supersedes. *)
Definition closes (entry : option CacheEntry) (uid : string) (r : Record_) : Prop :=
  exists e, entry = Some e /\ reincarnated e uid = true /\ r_UID r = UID e /\ EventType r = "Deleted".

Lemma closeOutOld_spec e key writer cached s :
  l_entry (L s) = Some cached ->
  let l' := L (closeOutOld e key loc writer okey cached s).1 in
  exists js owed, l_sent l' = l_sent (L s) ++ map (closeout_job key) js /\
    l_owed l' = l_owed (L s) ++ owed /\
    forall r, r ∈ js \/ r ∈ owed -> r_UID r = UID cached /\ EventType r = "Deleted".
Proof.
  intros He. cbn zeta. unfold closeOutOld, mbind, M_bind.
  pose proof (L_on_cache (ReserveDelete okey (UID cached)) s) as H1.
  assert (H2 : (on_cache loc (ReserveDelete okey (UID cached)) s).2 =
               (ReserveDelete okey (UID cached) (cache (deref s loc))).2).
  { unfold on_cache. by destruct (ReserveDelete _ _ _). }
  rewrite L_entry in He. rewrite (ReserveDelete_current _ _ cached) in H1, H2 by done.
  destruct (on_cache _ _ s) as [s1 claim]. simpl in H1, H2. subst claim.
  assert (Hm : forall b, (negb b && negb (UID cached =? UID cached)%string) = false)
    by (intros b; by rewrite String.eqb_refl, andb_false_r).
  rewrite Hm in *. destruct (PendingDelete cached); cbn [fst snd] in *.
  - exists [], []. simpl. rewrite H1. simpl. rewrite !app_nil_r. split; [done|]. split; [done|].
    intros r [Hr|Hr]; by apply elem_of_nil in Hr.
  - pose proof (L_now e s1) as H3. destruct (now e s1) as [s2 ts]. simpl in H3.
    pose proof (enqueueCloseOut_spec key writer (deletedRecord e ts key cached) s2) as Ha.
    apply attempted_facts in Ha as [_ (js & owed & Hs & Ho & Hin)].
    exists js, owed. cbn iota. rewrite Hs, Ho, H3, H1. split; [done|]. split; [done|].
    intros r Hr. apply Hin, list_elem_of_singleton in Hr as ->. done.
Qed.

(** The outcomes of [processUpsert] on the identity's local state. *)
Inductive upsert_outcome (e : env) (key : Key) (writer : Writer) (obj : object) (l : local) :
    option error -> local -> Prop :=
| upsert_failed err :
    (forall policy norm, redactionFor e key = Some policy -> normalizeObject obj policy <> Ok norm) ->
    upsert_outcome e key writer obj l (Some err) l
| upsert_duplicate policy norm ent :
    redactionFor e key = Some policy -> normalizeObject obj policy = Ok norm ->
    l_entry l = Some ent -> reincarnated ent (n_UID norm) = false -> Hash ent = n_Hash norm ->
    upsert_outcome e key writer obj l None l
| upsert_write policy norm et diff full run rev tag js owed v ts (res : option error) :
    redactionFor e key = Some policy -> normalizeObject obj policy = Ok norm ->
    decide_write (l_entry l) (n_Hash norm) (n_UID norm) (n_JSON norm) (key_ephemeral key)
      (checkpointEveryFor writer) = Write et diff full run rev ->
    tag = et \/ (tag = "Snapshot" /\ et = "Added" /\ l_entry l = None) ->
    (forall r, r ∈ js \/ r ∈ owed -> closes (l_entry l) (n_UID norm) r) ->
    let conf := confirmed_entry norm (key_ephemeral key) run in
    upsert_outcome e key writer obj l res
      (mkLocal (match res with None => Some (set_Version v conf) | Some _ => reverted v rev end)
         (l_owed l ++ owed)
         (l_sent l ++ map (closeout_job key) js ++
          match res with
          | None => [(k_Sink key, mkJob (upsertRecord e ts key norm tag diff full)
                       (CommitUpsert key loc okey v conf rev))]
          | Some _ => []
          end)).

Lemma processUpsert_spec e key writer obj s :
  upsert_outcome e key writer obj (L s) (processUpsert e key loc writer obj okey s).2
    (L (processUpsert e key loc writer obj okey s).1).
Proof.
  unfold processUpsert.
  destruct (redactionFor e key) as [policy|] eqn:Hp; [|by apply upsert_failed; rewrite Hp].
  destruct (normalizeObject obj policy) as [norm|err] eqn:Hn;
    [|apply upsert_failed; rewrite Hp; intros p n [= <-]; by rewrite Hn].
  unfold mbind, M_bind. cbn [load].
  change (Load okey (cache (deref s loc))) with (cache (deref s loc) !! okey). rewrite <- L_entry.
  destruct (decide_write _ _ _ _ _ _) as [|et diff full run rev] eqn:Hd.
  - assert (HL : L (inc_dedupSkips s).1 = L s) by (by apply L_heap).
    destruct (inc_dedupSkips s) as [s1 []]. simpl in *. rewrite HL. unfold decide_write in Hd.
    destruct (l_entry (L s)) as [ent|] eqn:He; [|done].
    destruct (reincarnated ent (n_UID norm)) eqn:Hr; [done|].
    destruct (String.eqb (Hash ent) (n_Hash norm)) eqn:Hh; [|repeat case_match; done]. bools.
    by eapply upsert_duplicate.
  - match goal with |- context [let '(_, _) := ?m s in _] => set (closer := m) end.
    assert (Hc : exists js owed, l_sent (L (closer s).1) = l_sent (L s) ++ map (closeout_job key) js /\
      l_owed (L (closer s).1) = l_owed (L s) ++ owed /\
      forall r, r ∈ js \/ r ∈ owed -> closes (l_entry (L s)) (n_UID norm) r).
    { subst closer. destruct (l_entry (L s)) as [ent|] eqn:He.
      - destruct (reincarnated ent (n_UID norm)) eqn:Hr, (key_ephemeral key); simpl;
          try (exists [], []; rewrite !app_nil_r; split; [done|]; split; [done|];
               intros r [Hx|Hx]; by apply elem_of_nil in Hx).
        destruct (closeOutOld_spec e key writer ent s He) as (js & owed & H1 & H2 & H3).
        exists js, owed. split; [done|]. split; [done|]. intros r Hr'. apply H3 in Hr' as [? ?].
        by exists ent.
      - exists [], []. rewrite !app_nil_r. split; [done|]. split; [done|].
        intros r [Hx|Hx]; by apply elem_of_nil in Hx. }
    destruct Hc as (js & owed & Hs1 & Ho1 & Hcl). destruct (closer s) as [s1 []]. cbn [fst] in *.
    cbn [is_warm]. set (b := bool_decide _ && _ && _).
    assert (Hb : b = true -> et = "Added" /\ l_entry (L s) = None).
    { intros Hb. subst b. apply andb_true_iff in Hb as [Hb _]. apply andb_true_iff in Hb as [Hb _].
      apply bool_decide_eq_true in Hb. rewrite Hb in Hd. simpl in Hd. by simplify_eq. }
    assert (HL2 : L (when b (recordScopeUnwarmed key) s1).1 = L s1) by (destruct b; [by apply L_heap|done]).
    destruct (when b (recordScopeUnwarmed key) s1) as [s2 []]. simpl in HL2.
    destruct (export_spec e key writer norm (if b then "Snapshot" else et) diff full run rev s2)
      as (v & ts & Hx).
    rewrite HL2, Hs1, Ho1 in Hx.
    pose proof (upsert_write e key writer obj (L s) policy norm et diff full run rev
      (if b then "Snapshot" else et) js owed v ts
      (export e key loc writer okey norm (if b then "Snapshot" else et) diff full run rev s2).2
      Hp Hn Hd) as Hout.
    destruct (export _ _ _ _ _ _ _ _ _ _ _ s2) as [s3 [err|]]; simpl in *; rewrite Hx.
    + rewrite app_nil_r in Hout. apply Hout; [|done]. destruct b; naive_solver.
    + rewrite app_assoc in Hout. apply Hout; [|done]. destruct b; naive_solver.
Qed.

(** A failed write falls back to the cached entry of the same incarnation, or to
    nothing. *)
Lemma revert_cached cached hash uid json eph every et diff full run rev :
  decide_write cached hash uid json eph every = Write et diff full run rev ->
  match rev with
  | Some e0 => cached = Some e0 /\ reincarnated e0 uid = false
  | None => match cached with Some e0 => reincarnated e0 uid = true | None => True end
  end.
Proof.
  intros Hd. unfold decide_write in Hd. destruct cached as [e0|]; [|by simplify_eq].
  destruct (reincarnated e0 uid) eqn:Hr; [by simplify_eq|].
  repeat case_match; by simplify_eq.
Qed.

(** ** Deletions *)

Inductive delete_outcome (e : env) (key : Key) (l : local) : option error -> local -> Prop :=
| delete_none :
    match l_entry l with Some ent => PendingDelete ent = true | None => True end ->
    delete_outcome e key l None l
| delete_sent ent v ts :
    l_entry l = Some ent -> PendingDelete ent = false ->
    delete_outcome e key l None
      (mkLocal (Some (set_PendingDelete true (set_Version v ent))) (l_owed l)
        (l_sent l ++ [(k_Sink key, mkJob (deletedRecord e ts key ent) (CommitDelete key loc okey v))]))
| delete_refused ent v err :
    l_entry l = Some ent -> PendingDelete ent = false ->
    delete_outcome e key l (Some err)
      (mkLocal (Some (set_PendingDelete false (set_PendingDelete true (set_Version v ent))))
        (l_owed l) (l_sent l)).

(** A claim with no expected UID. *)
Lemma claim_spec s :
  L (on_cache loc (ReserveDelete okey "") s).1 =
    mkLocal (match l_entry (L s) with
             | Some ent => if PendingDelete ent then Some ent
                           else Some (set_PendingDelete true (set_Version (u64_succ (Version ent)) ent))
             | None => None
             end) (l_owed (L s)) (l_sent (L s)) /\
  (on_cache loc (ReserveDelete okey "") s).2 =
    match l_entry (L s) with
    | Some ent => if PendingDelete ent then (zeroEntry, 0%Z, deleteClaimInFlight)
                  else (ent, u64_succ (Version ent), deleteClaimed)
    | None => (zeroEntry, 0%Z, deleteClaimAbsent)
    end.
Proof.
  rewrite L_on_cache, L_entry. unfold on_cache, ReserveDelete.
  destruct (cache (deref s loc) !! okey) as [ent|] eqn:He; simpl; [|by rewrite He].
  destruct (PendingDelete ent); simpl; by rewrite ?He, ?lookup_insert_eq.
Qed.

Lemma unclaim_spec v s ent :
  l_entry (L s) = Some ent -> Version ent = v ->
  L (on_cache loc (fun c => (UnclaimDelete okey v c, tt)) s).1 =
    mkLocal (Some (set_PendingDelete false ent)) (l_owed (L s)) (l_sent (L s)).
Proof.
  intros He Hv. rewrite L_on_cache. simpl. rewrite L_entry in He.
  rewrite (Unclaim_current _ _ ent) by done. by rewrite Hv, Z.eqb_refl, lookup_insert_eq.
Qed.

Lemma emitDelete_spec e key writer s :
  okey = cacheKey key ->
  delete_outcome e key (L s) (emitDelete e key loc writer "" s).2.2
    (L (emitDelete e key loc writer "" s).1).
Proof.
  intros Hk. unfold emitDelete, mbind, M_bind. rewrite <- Hk.
  destruct (claim_spec s) as [H1 H2].
  destruct (on_cache loc (ReserveDelete okey "") s) as [s1 claim]. simpl in H1, H2. subst claim.
  destruct (l_entry (L s)) as [ent|] eqn:He.
  - destruct (PendingDelete ent) eqn:Hp.
    + simpl. rewrite H1. destruct (L s) as [en ow se]. simpl in *. subst. by apply delete_none.
    + pose proof (L_now e s1) as H3. destruct (now e s1) as [s2 ts]. cbn [fst] in H3.
      set (job := mkJob _ _). pose proof (L_Enqueue writer (k_Sink key) job s2) as H4.
      destruct (Enqueue writer (k_Sink key) job s2) as [s3 [err|]]; simpl in H4;
        rewrite H3, H1 in H4; simpl in H4.
      * pose proof (unclaim_spec (u64_succ (Version ent)) s3 _ ltac:(by rewrite H4) eq_refl) as H5.
        destruct (on_cache loc _ s3) as [s4 []]. simpl in *.
        rewrite H5, H4. simpl. rewrite app_nil_r. by apply delete_refused.
      * simpl. rewrite H4. by apply delete_sent.
  - simpl. rewrite H1. destruct (L s) as [en ow se]. simpl in *. subst. by apply delete_none.
Qed.

Lemma forgetEphemeral_spec key s :
  okey = cacheKey key ->
  l_owed (L (forgetEphemeral key loc s).1) = l_owed (L s) /\
  l_sent (L (forgetEphemeral key loc s).1) = l_sent (L s) /\
  l_entry (L (forgetEphemeral key loc s).1) =
    match l_entry (L s) with
    | Some ent => if PendingDelete ent then Some ent else None
    | None => None
    end.
Proof.
  intros Hk. unfold forgetEphemeral, mbind, M_bind. rewrite <- Hk.
  destruct (claim_spec s) as [H1 H2].
  destruct (on_cache loc (ReserveDelete okey "") s) as [s1 claim]. simpl in H1, H2. subst claim.
  destruct (l_entry (L s)) as [ent|] eqn:He; [|simpl; by rewrite H1].
  destruct (PendingDelete ent) eqn:Hp; [simpl; by rewrite H1|].
  pose proof (L_on_cache (DeleteIfCurrent okey (u64_succ (Version ent))) s1) as H3.
  rewrite (Delete_current _ _ (set_PendingDelete true (set_Version (u64_succ (Version ent)) ent))) in H3
    by (by rewrite <- L_entry, H1).
  simpl in H3. rewrite Z.eqb_refl in H3. simpl in H3. rewrite lookup_delete_eq in H3.
  destruct (on_cache loc (DeleteIfCurrent _ _) s1) as [s2 removed]. simpl in H3.
  assert (Hw : L (when removed (recordCacheEntries (k_Sink key) loc) s2).1 = L s2)
    by (destruct removed; [apply L_entries|done]).
  destruct (when removed _ s2) as [s3 []]. simpl in *. by rewrite Hw, H3, H1.
Qed.

(** ** A whole work item *)

(** What an item normalizes to, when it gets that far. *)
Definition norm_of (e : env) (key : Key) : option normalizedObject :=
  match lister e key, redactionFor e key with
  | Ok (Some obj, true), Some policy =>
      match normalizeObject obj policy with Ok norm => Some norm | Err _ => None end
  | _, _ => None
  end.

Lemma norm_of_Some e key norm :
  norm_of e key = Some norm ->
  exists obj policy, lister e key = Ok (Some obj, true) /\ redactionFor e key = Some policy /\
    normalizeObject obj policy = Ok norm.
Proof.
  unfold norm_of. destruct (lister e key) as [[[obj|] [|]]|]; try done.
  destruct (redactionFor e key) as [policy|]; [|done].
  destruct (normalizeObject obj policy) eqn:Hn; [|done]. intros [= <-]. eauto.
Qed.

Inductive item_outcome (e : env) (key : Key) (l : local) : option error -> local -> Prop :=
| item_idle res :
    (forall o, lister e key = Ok (o, true) -> router e (k_Sink key) = None /\ res <> None) ->
    item_outcome e key l res l
| item_forget l' :
    key_ephemeral key = true -> l_owed l' = l_owed l -> l_sent l' = l_sent l ->
    l_entry l' = match l_entry l with
                 | Some ent => if PendingDelete ent then Some ent else None
                 | None => None
                 end ->
    (forall obj, lister e key <> Ok (Some obj, true)) -> item_outcome e key l None l'
| item_upsert writer obj l1 res l' :
    lister e key = Ok (Some obj, true) -> router e (k_Sink key) = Some writer ->
    attempted key (l_owed l) (mkLocal (l_entry l) [] (l_sent l)) l1 ->
    upsert_outcome e key writer obj l1 res l' -> item_outcome e key l res l'
| item_delete writer l1 res l' :
    lister e key = Ok (None, true) -> router e (k_Sink key) = Some writer ->
    key_ephemeral key = false ->
    attempted key (l_owed l) (mkLocal (l_entry l) [] (l_sent l)) l1 ->
    delete_outcome e key l1 res l' -> item_outcome e key l res l'.

(** The final state has the heap and the jobs of [s]. *)
Ltac same_heap :=
  match goal with |- item_outcome _ _ (local_of _ _ ?s) _ (local_of _ _ ?x) =>
    rewrite (L_heap s x) by done end.

Lemma Process_spec e key s :
  okey = cacheKey key -> states s !! k_Sink key = Some loc ->
  item_outcome e key (L s) (Process e key s).2 (L (Process e key s).1).
Proof.
  intros Hk Hloc. unfold Process. destruct (lister e key) as [[obj active]|err] eqn:Hl;
    [|apply item_idle; congruence].
  assert (Hget : forall s', states s' = states s -> registry_get (k_Sink key) s' = (s', loc)).
  { intros s' E. unfold registry_get. by rewrite E, Hloc. }
  destruct active; simpl; [|same_heap; apply item_idle; congruence].
  destruct (bool_decide (obj = None) && key_ephemeral key) eqn:Hf.
  - apply andb_true_iff in Hf as [Hf He]. apply bool_decide_eq_true in Hf as ->.
    unfold mbind, M_bind. cbn [inc_dropped modify]. set (s1 := set_metrics _ s).
    rewrite (Hget s1) by done. destruct (forgetEphemeral_spec key s1 Hk) as (H1 & H2 & H3).
    destruct (forgetEphemeral key loc s1) as [s2 []]. simpl in *.
    apply item_forget; try done. congruence.
  - destruct (router e (k_Sink key)) as [writer|] eqn:Hr.
    + unfold mbind, M_bind. rewrite (Hget s) by done. rewrite <- Hk.
      pose proof (retry_spec key writer s) as Ha.
      destruct (retryPendingCloseOuts key loc writer okey s) as [s1 []]. simpl in Ha.
      destruct obj as [o|].
      * pose proof (processUpsert_spec e key writer o s1) as Hu.
        destruct (processUpsert _ _ _ _ _ _ s1) as [s2 res]. simpl in *. by eapply item_upsert.
      * pose proof (emitDelete_spec e key writer s1 Hk) as Hd.
        destruct (emitDelete _ _ _ _ _ s1) as [s2 [oc res]]. simpl in *. by eapply item_delete.
    + unfold allow, mbind, M_bind. cbn.
      match goal with |- context [throttle_allow ?a ?b ?c ?d] =>
        destruct (throttle_allow a b c d) as [last ok] end.
      simpl. same_heap. apply item_idle. intros. by split.
Qed.

(** An item that observed a live object and settled leaves its hash cached, for
    the incarnation it observed. *)
Lemma item_settled e key l l' norm :
  item_outcome e key l None l' -> norm_of e key = Some norm ->
  exists ent, l_entry l' = Some ent /\ Hash ent = n_Hash norm /\ reincarnated ent (n_UID norm) = false.
Proof.
  intros Hi (obj & policy & Hl & Hp & Hn)%norm_of_Some. remember None as res eqn:Eres.
  destruct Hi as [res Hi|l' _ _ _ _ Hi|writer obj' l1 res l' Hl' Hr Ha Hu|writer l1 res l' Hl' _ _ _ _];
    [by destruct (Hi _ Hl)|by destruct (Hi obj)| |congruence].
  assert (obj' = obj) as -> by congruence.
  destruct Hu as [err|policy' norm' ent Hp' Hn' He' Hr' Hh
    |policy' norm' et diff full run rev tag js owed1 v ts res Hp' Hn' Hd Htag Hcl conf]; [done| |];
    assert (norm' = norm) as -> by congruence.
  - by exists ent.
  - subst res. exists (set_Version v conf). split; [done|]. subst conf. unfold confirmed_entry, reincarnated.
    destruct (key_ephemeral key); [|destruct (compressBaseline (n_JSON norm)) as [[? ?] ?]]; simpl;
      by rewrite String.eqb_refl, andb_false_r.
Qed.

(** An item over a cache that already holds its hash only retries close-outs. *)
Lemma item_duplicate e key l res l' norm ent writer :
  item_outcome e key l res l' -> norm_of e key = Some norm -> router e (k_Sink key) = Some writer ->
  l_entry l = Some ent -> Hash ent = n_Hash norm -> reincarnated ent (n_UID norm) = false ->
  (exists cs, l_sent l' = l_sent l ++ map (closeout_job key) cs /\ forall r, r ∈ cs -> r ∈ l_owed l) /\
  l_entry l' = Some ent /\ res = None.
Proof.
  intros Hi (obj & policy & Hl & Hp & Hn)%norm_of_Some Hw He Hh Hre.
  destruct Hi as [res Hi|l' _ _ _ _ Hi|writer' obj' l1 res l' Hl' Hr Ha Hu|writer' l1 res l' Hl' _ _ _ _].
  - destruct (Hi _ Hl). congruence.
  - by destruct (Hi obj).
  - assert (obj' = obj) as -> by congruence.
    apply attempted_facts in Ha as [Ha1 (cs & owed0 & Ha2 & Ha3 & Ha4)]. simpl in *.
    assert (H : l' = l1 /\ res = None).
    { destruct Hu as [err Hf|policy' norm' ent' Hp' Hn' He' Hr' Hh'
        |policy' norm' et diff full run rev tag js owed1 v ts res Hp' Hn' Hd Htag Hcl conf];
        [by destruct (Hf policy norm)|done|].
      assert (norm' = norm) as -> by congruence. exfalso. rewrite Ha1, He in Hd. unfold decide_write in Hd.
      by rewrite Hre, Hh, String.eqb_refl in Hd. }
    destruct H as [-> ->]. split; [|by rewrite Ha1]. exists cs. split; [done|]. intros r Hr'. apply Ha4. by left.
  - congruence.
Qed.

(** Handling an absence claims the entry. *)
Lemma absent_settled e key l l' w ent :
  lister e key = Ok (None, true) -> router e (k_Sink key) = Some w -> key_ephemeral key = false ->
  l_entry l = Some ent -> item_outcome e key l None l' ->
  exists e1, l_entry l' = Some e1 /\ PendingDelete e1 = true.
Proof.
  intros Hl Hw Heph He Hi. remember (@None error) as res eqn:Eres in Hi.
  destruct Hi as [res Hi|l' Hx|writer obj l1 res l' Hl'|writer l1 res l' _ _ _ Ha Hd];
    [by destruct (Hi _ Hl)|congruence|congruence|].
  apply attempted_facts in Ha as [Ha _]. simpl in Ha.
  destruct Hd as [Hp|ent' v ts He' Hp|ent' v err He' Hp]; [|by eexists|done].
  rewrite Ha, He in Hp. exists ent. by rewrite Ha.
Qed.

(** Handling an absence whose deletion is in flight sends nothing but close-outs. *)
Lemma absent_claimed e key l res l' w ent :
  lister e key = Ok (None, true) -> router e (k_Sink key) = Some w -> key_ephemeral key = false ->
  l_entry l = Some ent -> PendingDelete ent = true -> item_outcome e key l res l' ->
  res = None /\ exists cs, l_sent l' = l_sent l ++ map (closeout_job key) cs /\
    forall r, r ∈ cs -> r ∈ l_owed l.
Proof.
  intros Hl Hw Heph He Hp Hi.
  destruct Hi as [res0 Hi|l'' Hx|writer obj l1 res0 l'' Hl'|writer l1 res0 l'' _ _ _ Ha Hd];
    [destruct (Hi _ Hl); congruence|congruence|congruence|].
  apply attempted_facts in Ha as [Ha1 (cs & owed0 & Ha2 & Ha3 & Ha4)]. simpl in *.
  destruct Hd as [_|ent' v ts He' Hp'|ent' v err He' Hp']; [|congruence|congruence].
  split; [done|]. exists cs. split; [done|]. intros r Hr. apply Ha4. by left.
Qed.

(** A refused write. *)
Lemma refused_local e key l err l' norm w :
  item_outcome e key l (Some err) l' -> norm_of e key = Some norm -> router e (k_Sink key) = Some w ->
  (exists cs, l_sent l' = l_sent l ++ map (closeout_job key) cs) /\
  exists v, l_entry l' = match l_entry l with
                         | Some ent => if reincarnated ent (n_UID norm) then None
                                       else Some (set_Version v ent)
                         | None => None
                         end.
Proof.
  intros Hi (obj & policy & Hl & Hp & Hn)%norm_of_Some Hw. remember (Some err) as res eqn:Eres.
  destruct Hi as [res Hi|l' Hx|writer obj' l1 res l' Hl' Hr Ha Hu|writer l1 res l' Hl' _ _ _ _];
    [destruct (Hi _ Hl); congruence|done| |congruence].
  assert (obj' = obj) as -> by congruence.
  apply attempted_facts in Ha as [Ha1 (cs & owed0 & Ha2 & Ha3 & Ha4)]. simpl in *.
  destruct Hu as [err' Hf|policy' norm' ent' Hp' Hn' He' Hr' Hh'
    |policy' norm' et diff full run rev tag js owed1 v ts res Hp' Hn' Hd Htag Hcl conf];
    [by destruct (Hf policy norm)|done|].
  assert (norm' = norm) as -> by congruence. subst res. simpl. split.
  - exists (cs ++ js). by rewrite Ha2, map_app, app_nil_r, app_assoc.
  - exists v. pose proof (revert_cached _ _ _ _ _ _ _ _ _ _ _ Hd) as Hc. rewrite <- Ha1.
    destruct rev as [e0|]; simpl.
    + destruct Hc as [-> ->]. done.
    + destruct (l_entry l1) as [e0|]; [by rewrite Hc|done].
Qed.
End spec.
