(* ===== verification/ProcessProps.v ===== *)
(** * ProcessProps: the properties of the data plane

    Row shapes, isolation between identities and sinks, idempotence, exactly-once
    deletions, what a refused write leaves behind, scope eviction, and what a
    removed sink's late callbacks can reach. *)

From Stdlib Require Import ZArith Lia.
From stdpp Require Import base gmap strings list.
From S2P Require Import Prelude Identity HashCache Sha256 Json Redact Normalize Pipeline JsonPatch Process.
From S2P Require Import ProcessFacts ProcessSpec.

Section props.
Context `{C : ZstdCodec} `{U : UnstructuredAPI} `{D : JsonDiff}.

(** C2. Every row a running pipeline ever hands to a sink, whatever the order and
    outcome of work items, commit callbacks and lifecycle hooks, has one of the
    shapes of schema v1: a Deleted row carries no data, diff or hash; Added and
    Snapshot carry the full state and its hash and no diff; a Modified row either
    carries the full state and its hash and no diff, or carries no state but the hash
    of the new document and the marshalled patch that [jsondiff] gives from a
    baseline document to that document; a Checkpoint carries the full state, its hash
    and such a patch to it; and a Kubernetes Event is never a Deleted, Snapshot,
    diff-only or Checkpoint row. *)
Theorem reachable_rows_well_formed (s : pstate) (sinkName : string) (job : Job) :
  reachable s -> (sinkName, job) ∈ sent s -> row_ok (j_Record job).
Proof.
  intros Hs Hin. apply (reachable_ind rows_ok newPipeline_rows rows_ok_step) in Hs as [Hs _].
  rewrite Forall_forall in Hs. by destruct (Hs _ Hin).
Qed.

(** Isolation: a work item changes nothing of any other sink's state, and on
    its own sink nothing of the warm scopes, of any other identity's cache entry,
    or of the close-outs any other identity is owed. *)
Lemma Process_isolation (e : env) (key : Key) (s : pstate) :
  registry_ok s ->
  isolated key s (Process e key s).1 /\ registry_ok (Process e key s).1.
Proof. apply Process_isolated. Qed.

(** A work item of a scope that is no longer watched is dropped: it settles
    without sending anything or touching any cache, and only the drop counter
    moves. *)
Lemma Process_inactive_scope (e : env) (key : Key) (s : pstate) (obj : option object) :
  lister e key = Ok (obj, false) ->
  let s' := (Process e key s).1 in
  (Process e key s).2 = None /\ heap s' = heap s /\ states s' = states s /\ sent s' = sent s /\
  queue s' = queue s /\
  dropped (metrics s') !! DropReasonScopeStopped =
    Some (default 0 (dropped (metrics s) !! DropReasonScopeStopped) + 1)%Z.
Proof.
  intros Hl s'. subst s'. unfold Process. rewrite Hl. simpl. repeat split. apply lookup_insert_eq.
Qed.

(** C31. Idempotence: once an item that observed a live object settled, observing
    the same object again (a resync, a redelivery) settles too, writes no row for
    it, and leaves its entry alone; the only jobs it can send are close-outs still
    owed to earlier incarnations. *)
Theorem Process_idempotent (e e' : env) (key : Key) (loc : nat) (s : pstate)
    (norm : normalizedObject) (writer : Writer) :
  states s !! k_Sink key = Some loc ->
  norm_of e key = Some norm -> norm_of e' key = Some norm -> router e' (k_Sink key) = Some writer ->
  (Process e key s).2 = None ->
  let s1 := (Process e key s).1 in
  let s2 := (Process e' key s1).1 in
  (Process e' key s1).2 = None /\
  cache (deref s2 loc) !! cacheKey key = cache (deref s1 loc) !! cacheKey key /\
  exists owed, sent s2 = sent s1 ++ map (closeout_job loc (cacheKey key) key) owed /\
    forall r, r ∈ owed -> r ∈ default [] (closeOuts (deref s1 loc) !! cacheKey key).
Proof.
  intros Hloc Hn Hn' Hw Hres s1 s2.
  pose proof (Process_spec loc (cacheKey key) e key s eq_refl Hloc) as H1. rewrite Hres in H1.
  apply item_settled with (norm := norm) in H1 as (ent & He & Hh & Hr); [|done].
  assert (Hloc1 : states s1 !! k_Sink key = Some loc)
    by (unfold s1; by rewrite (proj1 (Process_touched e key loc s Hloc))).
  pose proof (Process_spec loc (cacheKey key) e' key s1 eq_refl Hloc1) as H2.
  destruct (item_duplicate _ _ _ _ _ _ _ norm ent writer H2 Hn' Hw He Hh Hr)
    as [(owed & Hs & Ho) [He' ->]].
  split; [done|]. rewrite <- !L_entry. fold s1 in He. split; [unfold s2; congruence|].
  exists owed. rewrite <- L_owed. done.
Qed.

(** C19. One Deleted row per disappearance: once an absence was handled and its
    Deleted row handed to the sink, handling the absence again before that write
    settles claims nothing and sends no second Deleted row for it. *)
Theorem delete_sent_once (e e' : env) (key : Key) (loc : nat) (s : pstate) (ent : CacheEntry)
    (w w' : Writer) :
  states s !! k_Sink key = Some loc -> key_ephemeral key = false ->
  lister e key = Ok (None, true) -> lister e' key = Ok (None, true) ->
  router e (k_Sink key) = Some w -> router e' (k_Sink key) = Some w' ->
  cache (deref s loc) !! cacheKey key = Some ent ->
  (Process e key s).2 = None ->
  let s1 := (Process e key s).1 in
  let s2 := (Process e' key s1).1 in
  (exists e1, cache (deref s1 loc) !! cacheKey key = Some e1 /\ PendingDelete e1 = true) /\
  (Process e' key s1).2 = None /\
  exists owed, sent s2 = sent s1 ++ map (closeout_job loc (cacheKey key) key) owed /\
    forall r, r ∈ owed -> r ∈ default [] (closeOuts (deref s1 loc) !! cacheKey key).
Proof.
  intros Hloc Heph Hl Hl' Hw Hw' Hent Hres s1 s2. rewrite <- L_entry in Hent.
  pose proof (Process_spec loc (cacheKey key) e key s eq_refl Hloc) as H1. rewrite Hres in H1.
  apply (absent_settled loc (cacheKey key) _ _ _ _ w ent Hl Hw Heph Hent) in H1 as (e1 & He1 & Hp1).
  assert (Hloc1 : states s1 !! k_Sink key = Some loc)
    by (unfold s1; by rewrite (proj1 (Process_touched e key loc s Hloc))).
  pose proof (Process_spec loc (cacheKey key) e' key s1 eq_refl Hloc1) as H2.
  destruct (absent_claimed loc (cacheKey key) _ _ _ _ _ w' e1 Hl' Hw' Heph He1 Hp1 H2) as [-> (owed & Hs & Ho)].
  split; [exists e1; by rewrite <- L_entry|]. split; [done|]. exists owed. rewrite <- L_owed. done.
Qed.

(** A refused write is not mistaken for a confirmed one: when the sink's
    queue refuses a live object's write, the item fails (and is retried), nothing
    of it was sent, and the cache holds what it held before, up to the version
    number, or nothing when there was no confirmed state of this incarnation. *)
Lemma refused_write_reverts (e : env) (key : Key) (loc : nat) (s : pstate) (norm : normalizedObject)
    (w : Writer) (err : error) :
  states s !! k_Sink key = Some loc -> norm_of e key = Some norm -> router e (k_Sink key) = Some w ->
  (Process e key s).2 = Some err ->
  let s' := (Process e key s).1 in
  (exists owed, sent s' = sent s ++ map (closeout_job loc (cacheKey key) key) owed) /\
  cache (deref s' loc) !! cacheKey key =
    match cache (deref s loc) !! cacheKey key with
    | Some ent => if reincarnated ent (n_UID norm) then None
                  else set_Version (versionOf (cacheKey key) (cache (deref s' loc))) <$> Some ent
    | None => None
    end.
Proof.
  intros Hloc Hn Hw Hres s'.
  pose proof (Process_spec loc (cacheKey key) e key s eq_refl Hloc) as H1. rewrite Hres in H1.
  destruct (refused_local loc (cacheKey key) _ _ _ _ _ norm w H1 Hn Hw) as [(owed & Hs) (v & Hv)].
  split; [by exists owed|]. unfold versionOf. rewrite <- !L_entry. fold s' in Hv. rewrite Hv.
  destruct (l_entry (local_of loc (cacheKey key) s)) as [ent|]; [|done].
  by destruct (reincarnated ent (n_UID norm)).
Qed.

(** Scope eviction is exact: evicting a scope on a sink removes the cached
    entries of exactly the identities the scope covers and the scope's warm mark,
    keeps every other entry with its version and claim and every owed close-out,
    sends nothing, and touches no other sink. *)
Lemma EvictScope_exact (name : string) (scope : ScopeKey) (s : pstate) :
  registry_ok s -> wf_scope scope = true ->
  let s' := (EvictScope name scope s).1 in
  sent s' = sent s /\ queue s' = queue s /\
  (forall n, n <> name -> view s' n = view s n) /\
  warm (view s' name) = warm (view s name) ∖ {[ scope ]} /\
  closeOuts (view s' name) = closeOuts (view s name) /\
  forall key, wf_key key = true ->
    cache (view s' name) !! cacheKey key =
      if scope_covers scope key then None else cache (view s name) !! cacheKey key.
Proof.
  intros [Hinj _] Hwf s'.
  assert (Hst : states s' = states s).
  { subst s'. unfold EvictScope, registry_evictScope. by destruct (registry_lookup name s). }
  unfold view. rewrite Hst. subst s'. unfold EvictScope, registry_evictScope, registry_lookup.
  destruct (states s !! name) as [loc|] eqn:Hloc.
  2:{ repeat split; try done; [set_solver|]. intros. by case_match. }
  split; [done|]. split; [done|]. cbn [fst DeletePrefix].
  rewrite !deref_set_metrics, !deref_store_eq. cbn [warm closeOuts cache set_cache].
  repeat split.
  - intros n Hn. destruct (states s !! n) as [l|] eqn:Hl; [|done].
    assert (loc <> l) by (intros ->; by rewrite (Hinj _ _ _ Hl Hloc) in Hn).
    by rewrite deref_set_metrics, deref_store_ne, deref_set_metrics, deref_store_ne by done.
  - intros key Hkey.
    pose proof (DeletePrefix_lookup (scopeKeyPrefix scope) (cache (deref s loc)) (cacheKey key)) as H.
    simpl in H. rewrite H. by rewrite scopeKeyPrefix_exact.
Qed.

(** A removed sink's late writes cannot corrupt its successor: after
    [RemoveSink], the callbacks of jobs issued before still run, but the state
    they captured is no longer any sink's, so whatever the outcome they change no
    sink's cache, close-outs or warm scopes, the recreated sink of the same name
    included. *)
Lemma removed_sink_ignores_late_commits (name : string) (s : pstate) (loc : nat) (c : commit)
    (ok : bool) :
  registry_ok s -> states s !! name = Some loc -> commit_loc c = loc ->
  let s1 := (registry_get name (RemoveSink name s).1).1 in
  view s1 name = newSinkState /\
  forall n, view (run_commit c ok s1).1 n = view s1 n.
Proof.
  intros [Hinj Hlt] Hloc Hc s1.
  assert (Hs1 : states s1 = <[name := nextLoc s]> (delete name (states s))).
  { unfold s1, RemoveSink, registry_remove, registry_get. cbn. by rewrite lookup_delete_eq. }
  assert (Hfresh : view s1 name = newSinkState).
  { unfold view. rewrite Hs1, lookup_insert_eq. unfold s1, RemoveSink, registry_remove, registry_get. cbn.
    rewrite lookup_delete_eq. cbn. unfold deref. cbn. by rewrite lookup_insert_eq. }
  split; [done|]. intros n. unfold view.
  assert (states (run_commit c ok s1).1 = states s1) as ->.
  { apply run_commit_touched. }
  destruct (states s1 !! n) as [l|] eqn:Hl; [|done]. apply run_commit_touched. rewrite Hc. intros ->.
  rewrite Hs1 in Hl. apply lookup_insert_Some in Hl as [[_ Hl]|[Hn Hl]].
  - apply Hlt in Hloc. lia.
  - apply lookup_delete_Some in Hl as [_ Hl]. by rewrite (Hinj _ _ _ Hl Hloc) in Hn.
Qed.
End props.

(** ** Witnesses *)

Definition pod_key : Key := mkKey "ch" "" "Pod" "default" "web".

Definition pod (uid image : string) : object :=
  list_to_map [("apiVersion", JStr "v1"); ("kind", JStr "Pod");
    ("metadata", JObj {[ "uid" := JStr uid ]}); ("spec", JObj {[ "image" := JStr image ]})].

(** An active scope in which the pod is [obj], and a writer with cadence 3 whose
    queue accepts everything but the attempts of [refused]. *)
Definition cluster (obj : option object) (refused : list nat) : env :=
  mkEnv "c1" (fun _ => Ok (obj, true))
    (fun _ => Some (mkWriter (Some 3%Z)
       (fun n _ => if decide (n ∈ refused) then Some "queue full" else None)))
    None (fun n => Z.of_nat n).

Definition start_state : pstate := (registry_get "ch" newPipeline).1.

Lemma start_registry : registry_ok start_state.
Proof.
  apply (registry_get_spec "ch" newPipeline). split; intros *; simpl; by rewrite lookup_empty.
Qed.

Definition pod_env : env := cluster (Some (pod "u1" "nginx:1.25")) [].
Definition gone_env : env := cluster None [].
Definition full_env : env := cluster (Some (pod "u1" "nginx:1.26")) [1%nat].

Definition pod_norm : normalizedObject :=
  match norm_of pod_env pod_key with Some n => n | None => mkNormalized "" "" "" "" "" ∅ [] end.
Definition full_norm : normalizedObject :=
  match norm_of full_env pod_key with Some n => n | None => mkNormalized "" "" "" "" "" ∅ [] end.

Definition pod_writer : Writer :=
  match router pod_env "ch" with Some w => w | None => mkWriter None (fun _ _ => None) end.
Definition full_writer : Writer :=
  match router full_env "ch" with Some w => w | None => mkWriter None (fun _ _ => None) end.

(** The pod was written. *)
Definition pod_written : pstate := (Process pod_env pod_key start_state).1.
Definition pod_entry : CacheEntry :=
  match cache (deref pod_written 0) !! cacheKey pod_key with Some e => e | None => zeroEntry end.

(** The pod is written, the write lands, and the pod changes: a diff-only row. *)
Definition changed_env : env := cluster (Some (pod "u1" "nginx:1.26")) [].
Definition changed_state : pstate := (processNext changed_env pod_key (processNext pod_env pod_key newPipeline).1).1.
Definition diff_job : Job :=
  match sent changed_state with
  | _ :: (_, j) :: _ => j
  | _ => mkJob (deletedRecord pod_env 0 pod_key zeroEntry) (CommitDelete pod_key 0 "" 0)
  end.

Lemma reachable_rows_well_formed_witness :
  EventType (j_Record diff_job) = "Modified" /\ Data (j_Record diff_job) = "" /\ row_ok (j_Record diff_job).
Proof.
  split; [vm_compute; reflexivity|]. split; [vm_compute; reflexivity|].
  apply (reachable_rows_well_formed changed_state "ch" diff_job).
  - eapply rtc_l; [apply (step_process newPipeline pod_env pod_key)|].
    eapply rtc_l; [apply (step_process (processNext pod_env pod_key newPipeline).1 changed_env pod_key)|apply rtc_refl].
  - vm_compute. right. by left.
Defined.

Lemma Process_isolation_witness :
  isolated pod_key start_state (Process pod_env pod_key start_state).1 /\
  registry_ok (Process pod_env pod_key start_state).1.
Proof. apply (Process_isolation pod_env pod_key start_state). apply start_registry. Defined.

Definition stopped_env : env :=
  mkEnv "c1" (fun _ => Ok (None, false)) (fun _ => None) None (fun _ => 0%Z).

Lemma Process_inactive_scope_witness :
  (Process stopped_env pod_key pod_written).2 = None /\
  sent (Process stopped_env pod_key pod_written).1 = sent pod_written.
Proof.
  pose proof (Process_inactive_scope stopped_env pod_key pod_written None eq_refl) as H. cbn zeta in H.
  destruct H as (H1 & _ & _ & H2 & _). split; [exact H1|exact H2].
Defined.

Lemma Process_idempotent_witness :
  (Process pod_env pod_key (Process pod_env pod_key start_state).1).2 = None.
Proof.
  apply (Process_idempotent pod_env pod_env pod_key 0 start_state pod_norm pod_writer);
    vm_compute; reflexivity.
Defined.

Lemma delete_sent_once_witness :
  (Process gone_env pod_key (Process gone_env pod_key pod_written).1).2 = None.
Proof.
  apply (delete_sent_once gone_env gone_env pod_key 0 pod_written pod_entry pod_writer pod_writer);
    vm_compute; reflexivity.
Defined.

Lemma refused_write_reverts_witness :
  let s' := (Process full_env pod_key pod_written).1 in
  (exists owed, sent s' = sent pod_written ++ map (closeout_job 0 (cacheKey pod_key) pod_key) owed) /\
  cache (deref s' 0) !! cacheKey pod_key =
    match cache (deref pod_written 0) !! cacheKey pod_key with
    | Some ent => if reincarnated ent (n_UID full_norm) then None
                  else set_Version (versionOf (cacheKey pod_key) (cache (deref s' 0))) <$> Some ent
    | None => None
    end.
Proof.
  apply (refused_write_reverts full_env pod_key 0 pod_written full_norm full_writer "queue full");
    vm_compute; reflexivity.
Defined.

Lemma EvictScope_exact_witness :
  cache (view (EvictScope "ch" (mkScopeKey "" "Pod" "") start_state).1 "ch") !! cacheKey pod_key =
    if scope_covers (mkScopeKey "" "Pod" "") pod_key then None
    else cache (view start_state "ch") !! cacheKey pod_key.
Proof.
  apply (EvictScope_exact "ch" (mkScopeKey "" "Pod" "") start_state start_registry eq_refl). reflexivity.
Defined.

Lemma removed_sink_ignores_late_commits_witness :
  view (registry_get "ch" (RemoveSink "ch" start_state).1).1 "ch" = newSinkState.
Proof.
  apply (removed_sink_ignores_late_commits "ch" start_state 0
    (CommitUpsert pod_key 0 (cacheKey pod_key) 1 zeroEntry None) true start_registry);
    reflexivity.
Defined.
