(* ===== verification/Replay.v ===== *)
(** * Replay: the rows reproduce the object

    The published reconstruction recipe (the last data-bearing row of an
    incarnation plus the diffs after it) as a function on rows, and the theorem
    that the pipeline writes rows it is correct for: over any sequence of work
    items of one identity whose writes settle, in any way, before the next item,
    replaying the rows that landed gives the document the cache believes the sink
    holds, up to the digits of numbers the diff library does not keep.

    The run is analysed once, for any property [content] of a cache entry and the
    rows that landed which every write establishes: what the rows replay to is one
    such property, and needs the contract of the diff library; how many diffs there
    are to apply needs none.

    The last section shows why the settling matters: when two writes of one key
    are in flight and the first fails, the second one's diff is against a state
    the sink never stored. *)

From Stdlib Require Import ZArith Lia.
From stdpp Require Import base gmap strings list.
From S2P Require Import Prelude Identity HashCache Sha256 Json Redact JsonText Normalize Pipeline JsonPatch Process.
From S2P Require Import ProcessFacts ProcessSpec ProcessProps.

(** ** The reader's recipe *)

Section recipe.
Context `{R : PatchReader}.

Definition replay_row (uid : string) (st : option json) (r : Record_) : option json :=
  if negb (String.eqb (r_UID r) uid) then st
  else if String.eqb (EventType r) "Deleted" then None
  else if negb (String.eqb (Data r) "") then Unmarshal (Data r)
  else match st with Some doc => ApplyPatch (Diff r) doc | None => None end.

Definition replay (uid : string) (rows : list Record_) : option json :=
  foldl (replay_row uid) None rows.

Lemma replay_app_other uid rows rows' :
  (forall r, r ∈ rows' -> r_UID r <> uid) -> replay uid (rows ++ rows') = replay uid rows.
Proof.
  unfold replay. rewrite foldl_app. generalize (foldl (replay_row uid) None rows) as st.
  induction rows' as [|r rows' IH]; intros st H; simpl; [done|].
  assert (replay_row uid st r = st) as ->.
  { unfold replay_row. rewrite (proj2 (String.eqb_neq _ _)); [done|]. apply H. by left. }
  apply IH. intros r' Hr. apply H. by right.
Qed.

Lemma replay_snoc uid rows r : replay uid (rows ++ [r]) = replay_row uid (replay uid rows) r.
Proof. unfold replay. by rewrite foldl_app. Qed.
End recipe.

Section replay.
Context `{C : ZstdCodec} `{U : UnstructuredAPI} `{D : JsonDiff}.

(** The checkpoint cadence the run's writers share; 0 assumes nothing. *)
Context (cadence : Z).

(** How many diffs the recipe applies: the diff-only rows after the last row
    that carries data. *)
Definition trailing_row (uid : string) (n : Z) (r : Record_) : Z :=
  if negb (String.eqb (r_UID r) uid) then n
  else if String.eqb (EventType r) "Deleted" then 0
  else if negb (String.eqb (Data r) "") then 0
  else n + 1.

Definition trailing (uid : string) (rows : list Record_) : Z :=
  foldl (trailing_row uid) 0%Z rows.

(** ** Sequentially settled runs *)

(** Run the callbacks of accepted jobs in order; a job with a true outcome has
    landed in the sink. *)
Fixpoint settle (jobs : list (string * Job)) (oks : list bool) (s : pstate) (rows : list Record_) :
    pstate * list Record_ :=
  match jobs with
  | [] => (s, rows)
  | (_, job) :: rest =>
      let ok := hd true oks in
      settle rest (tl oks) (run_commit (j_Commit job) ok s).1
        (if ok then rows ++ [j_Record job] else rows)
  end.

(** One work item and the settlement of what it sent; an item is the environment
    it runs in and the outcomes of its writes. *)
Definition run_item (key : Key) (item : env * list bool) (st : pstate * list Record_) :
    pstate * list Record_ :=
  let '(s, rows) := st in
  let s1 := (Process item.1 key s).1 in
  settle (drop (length (sent s)) (sent s1)) item.2 s1 rows.

Definition run_items (key : Key) (items : list (env * list bool)) (st : pstate * list Record_) :
    pstate * list Record_ :=
  foldl (fun st item => run_item key item st) st items.

Definition retire (cur : option string) (uid : string) (retired : list string) : list string :=
  match cur with
  | Some c => if decide (c = uid) then retired else c :: retired
  | None => retired
  end.

(** What the API server guarantees of UIDs: non-empty, and once another UID took
    the name over, the old one does not come back. *)
Fixpoint no_return (key : Key) (cur : option string) (retired : list string)
    (items : list (env * list bool)) : bool :=
  match items with
  | [] => true
  | item :: rest =>
      match norm_of item.1 key with
      | None => no_return key cur retired rest
      | Some norm =>
          negb (String.eqb (n_UID norm) "") && bool_decide (n_UID norm ∉ retired) &&
          no_return key (Some (n_UID norm)) (retire cur (n_UID norm) retired) rest
      end
  end.

(** ** Counting diffs *)

Lemma trailing_app_other uid rows rows' :
  (forall r, r ∈ rows' -> r_UID r <> uid) -> trailing uid (rows ++ rows') = trailing uid rows.
Proof.
  unfold trailing. rewrite foldl_app. generalize (foldl (trailing_row uid) 0%Z rows) as n.
  induction rows' as [|r rows' IH]; intros n H; simpl; [done|].
  assert (trailing_row uid n r = n) as ->.
  { unfold trailing_row. rewrite (proj2 (String.eqb_neq _ _)); [done|]. apply H. by left. }
  apply IH. intros r' Hr. apply H. by right.
Qed.

Lemma trailing_snoc uid rows r : trailing uid (rows ++ [r]) = trailing_row uid (trailing uid rows) r.
Proof. unfold trailing. by rewrite foldl_app. Qed.

Lemma trailing_nonneg uid rows : (0 <= trailing uid rows)%Z.
Proof.
  unfold trailing. assert (H : forall n, (0 <= n)%Z -> (0 <= foldl (trailing_row uid) n rows)%Z).
  { induction rows as [|r rows IH]; intros n Hn; simpl; [done|]. apply IH. unfold trailing_row.
    repeat case_match; lia. }
  by apply H.
Qed.

(** The entry counts the diff-only rows, and stays below the cadence. *)
Definition run_ok (uid : string) (run : Z) (rows : list Record_) : Prop :=
  run = trailing uid rows /\ (0 < cadence -> run < cadence)%Z.

(** What is claimed of the rows, given the cache entry, when the documents the run
    sees are [observed] ones: rows of other incarnations do not matter to it, nor do
    version and claim of the entry, and every write establishes it. *)
Context (content : CacheEntry -> list Record_ -> Prop) (observed : normalizedObject -> Prop).
Context (content_other : forall e rows rows', (forall r, r ∈ rows' -> r_UID r <> UID e) ->
  content e rows -> content e (rows ++ rows')).
Context (content_version : forall v e rows, content e rows -> content (set_Version v e) rows).
Context (content_claim : forall b e rows, content e rows -> content (set_PendingDelete b e) rows).
Context (content_write : forall e ts key norm obj policy cached every et tag diff full run rev rows,
  normalizeObject obj policy = Ok norm -> observed norm ->
  decide_write cached (n_Hash norm) (n_UID norm) (n_JSON norm) (key_ephemeral key) every =
    Write et diff full run rev ->
  tag = et \/ tag = "Snapshot" ->
  (forall ent, cached = Some ent -> reincarnated ent (n_UID norm) = false ->
     UID ent = n_UID norm /\ content ent rows) ->
  content (confirmed_entry norm (key_ephemeral key) run)
    (rows ++ [upsertRecord e ts key norm tag diff full])).

(** The cache entry describes what the rows hold. *)
Definition entry_ok (e : CacheEntry) (rows : list Record_) : Prop :=
  UID e <> "" /\ PendingDelete e = false /\ run_ok (UID e) (ModifiedSinceCheckpoint e) rows /\ content e rows.

Lemma entry_ok_other e rows rows' :
  (forall r, r ∈ rows' -> r_UID r <> UID e) -> entry_ok e rows -> entry_ok e (rows ++ rows').
Proof.
  intros H (H1 & H2 & [H3 H3'] & H4). split; [done|]. split; [done|]. split; [|by apply content_other].
  split; [|done]. by rewrite trailing_app_other.
Qed.

Lemma entry_ok_version v e rows : entry_ok e rows -> entry_ok (set_Version v e) rows.
Proof. intros (H1 & H2 & H3 & H4). split; [done|]. split; [done|]. split; [done|]. by apply content_version. Qed.

Lemma same_incarnation ent uid : UID ent <> "" -> reincarnated ent uid = false -> UID ent = uid.
Proof. intros Hu Hr. unfold reincarnated in Hr. rewrite (proj2 (String.eqb_neq _ _) Hu) in Hr. simpl in Hr. by bools. Qed.

(** A write is counted. *)
Lemma write_counts e ts key norm obj policy cached every et tag diff full run rev rows :
  normalizeObject obj policy = Ok norm ->
  decide_write cached (n_Hash norm) (n_UID norm) (n_JSON norm) (key_ephemeral key) every =
    Write et diff full run rev ->
  tag = et \/ tag = "Snapshot" ->
  match cached with
  | Some ent => reincarnated ent (n_UID norm) = false -> entry_ok ent rows
  | None => True
  end ->
  (0 < cadence -> every = cadence)%Z ->
  run_ok (n_UID norm) run (rows ++ [upsertRecord e ts key norm tag diff full]).
Proof.
  intros Hn Hd Htag Hc Hev. apply normalized_facts in Hn as [Hne _].
  pose proof (write_tag _ _ _ _ _ _ _ _ _ _ _ _ Hd Htag) as Htag'.
  unfold run_ok. rewrite trailing_snoc. unfold trailing_row.
  cbn [r_UID EventType Data Diff upsertRecord]. rewrite String.eqb_refl, Htag'. cbn [negb].
  destruct full.
  - rewrite (proj2 (String.eqb_neq _ _) Hne). simpl.
    assert (run = 0%Z) as ->; [|split; [done|lia]].
    unfold decide_write in Hd. repeat case_match; by simplify_eq.
  - cbn [String.eqb negb]. unfold decide_write in Hd. destruct cached as [ent|]; [|done].
    destruct (reincarnated ent (n_UID norm)) eqn:Hr; [done|].
    destruct (String.eqb (Hash ent) _); [done|]. destruct (key_ephemeral key); [done|].
    destruct (diff_against ent (n_JSON norm)) as [p|]; [|done].
    destruct (checkpointDue _ _ _ _) eqn:Hck; [done|]. simplify_eq.
    destruct (Hc eq_refl) as (Hu & _ & [Hrun _] & _).
    rewrite <- (same_incarnation ent (n_UID norm) Hu Hr).
    split; [by rewrite Hrun|]. intros Hpos. rewrite (Hev Hpos) in Hck. unfold checkpointDue in Hck.
    destruct (Z.leb_spec cadence 0); [lia|].
    destruct (Z.leb_spec cadence (ModifiedSinceCheckpoint ent + 1)); [done|lia].
Qed.

Lemma confirmed_ok norm eph run rows :
  n_UID norm <> "" -> run_ok (n_UID norm) run rows ->
  content (confirmed_entry norm eph run) rows -> entry_ok (confirmed_entry norm eph run) rows.
Proof.
  intros Hu Hk Hr. unfold entry_ok, confirmed_entry in *.
  destruct eph; [|destruct (compressBaseline (n_JSON norm)) as [[data enc] c] eqn:Hc]; done.
Qed.

(** ** Settlement *)

Section at_key.
Context (key : Key) (loc : nat).
#[local] Abbreviation L := (local_of loc (cacheKey key)).
#[local] Abbreviation closeout := (closeout_job loc (cacheKey key) key).

(** A state of this identity's sink: where it lives, its entry and what it is
    owed. *)
Definition at_state (ent : option CacheEntry) (owed : list Record_) (s : pstate) : Prop :=
  states s !! k_Sink key = Some loc /\ l_entry (L s) = ent /\ l_owed (L s) = owed.

Lemma run_commit_states c ok s :
  match c with
  | CommitUpsert _ l k _ _ _ | CommitDelete _ l k _ | CommitCloseOut _ l k _ =>
      l = loc /\ k = cacheKey key
  end -> states (run_commit c ok s).1 = states s.
Proof.
  intros Hc. by apply (touched_run_commit_at loc (cacheKey key) s c ok Hc s (touched_refl _ _ _)).
Qed.

(** Settling close-outs only moves them: each lands or is owed again. *)
Lemma settle_closeouts cs main oks s rows ent owed :
  at_state ent owed s ->
  exists s' oks' landed again,
    settle (map closeout cs ++ main) oks s rows = settle main oks' s' (rows ++ landed) /\
    at_state ent (owed ++ again) s' /\ (forall r, r ∈ landed \/ r ∈ again -> r ∈ cs).
Proof.
  revert oks s rows owed. induction cs as [|r cs IH]; intros oks s rows owed Hs.
  - exists s, oks, [], []. rewrite !app_nil_r. split; [done|]. split; [done|].
    intros r [Hr|Hr]; by apply elem_of_nil in Hr.
  - cbn [map app settle closeout_job j_Commit j_Record]. destruct (hd true oks).
    + destruct (IH (tl oks) s (rows ++ [r]) owed Hs) as (s' & oks' & landed & again & H1 & H2 & H3).
      exists s', oks', (r :: landed), again. cbn [run_commit mret M_ret fst].
      rewrite H1, <- app_assoc. split; [done|]. split; [done|].
      intros r' [[->|Hr]%elem_of_cons|Hr]; [by left| |]; right; apply H3; auto.
    + set (s1 := (run_commit (CommitCloseOut key loc (cacheKey key) r) false s).1).
      assert (Hs1 : at_state ent (owed ++ [r]) s1).
      { destruct Hs as (Ha & Hb & Hc). split.
        - unfold s1. by rewrite run_commit_states.
        - unfold s1. cbn [run_commit]. unfold mbind, M_bind.
          pose proof (L_remember loc (cacheKey key) r s) as HR.
          destruct (remember_closeOut loc (cacheKey key) r s) as [s2 []]. cbn [fst] in HR.
          rewrite L_queue, HR. simpl. by rewrite Hb, Hc. }
      destruct (IH (tl oks) s1 rows (owed ++ [r]) Hs1) as (s' & oks' & landed & again & H1 & H2 & H3).
      exists s', oks', landed, (r :: again). rewrite <- app_assoc in H2. split; [done|]. split; [done|].
      intros r' [Hr|[->|Hr]%elem_of_cons]; [|by left|]; right; apply H3; auto.
Qed.

(** Settling an accepted upsert. *)
Lemma settle_upsert name r v conf rev oks s rows owed :
  at_state (Some (set_Version v conf)) owed s ->
  let job := (name, mkJob r (CommitUpsert key loc (cacheKey key) v conf rev)) in
  let out := settle [job] oks s rows in
  (at_state (Some (set_Version v conf)) owed out.1 /\ out.2 = rows ++ [r]) \/
  (at_state (reverted v rev) owed out.1 /\ out.2 = rows).
Proof.
  intros (Ha & Hb & Hc). cbn [settle j_Commit j_Record]. destruct (hd true oks); [left|right].
  - split; [|done]. cbn [fst]. split; [by rewrite run_commit_states|].
    cbn [run_commit]. unfold mbind, M_bind.
    pose proof (L_on_cache loc (cacheKey key) (CommitIfCurrent (cacheKey key) v conf) s) as H.
    rewrite (Commit_current _ _ _ (set_Version v conf)) in H by (by rewrite <- L_entry, Hb).
    simpl in H. rewrite Z.eqb_refl in H. simpl in H. rewrite lookup_insert_eq in H.
    destruct (on_cache loc _ s) as [s1 b]. cbn [fst] in *. simpl. by rewrite H, Hc.
  - split; [|done]. cbn [fst]. split; [by rewrite run_commit_states|].
    cbn [run_commit]. unfold mbind, M_bind.
    pose proof (revert_spec loc (cacheKey key) v rev s _ Hb eq_refl) as H.
    destruct (revertVersion loc (cacheKey key) v rev s) as [s1 b]. cbn [fst] in *.
    rewrite L_queue, H. simpl. by rewrite Hc.
Qed.

(** Settling an accepted deletion. *)
Lemma settle_delete name r v ent oks s rows owed :
  at_state (Some (set_PendingDelete true (set_Version v ent))) owed s ->
  let job := (name, mkJob r (CommitDelete key loc (cacheKey key) v)) in
  let out := settle [job] oks s rows in
  (at_state None owed out.1 /\ out.2 = rows ++ [r]) \/
  (at_state (Some (set_PendingDelete false (set_PendingDelete true (set_Version v ent)))) owed out.1 /\
   out.2 = rows).
Proof.
  intros (Ha & Hb & Hc). cbn [settle j_Commit j_Record]. destruct (hd true oks); [left|right].
  - split; [|done]. cbn [fst]. split; [by rewrite run_commit_states|].
    cbn [run_commit]. unfold mbind, M_bind.
    pose proof (L_on_cache loc (cacheKey key) (DeleteIfCurrent (cacheKey key) v) s) as H.
    rewrite (Delete_current _ _ (set_PendingDelete true (set_Version v ent))) in H
      by (by rewrite <- L_entry, Hb).
    simpl in H. rewrite Z.eqb_refl in H. simpl in H. rewrite lookup_delete_eq in H.
    destruct (on_cache loc _ s) as [s1 b]. cbn [fst] in H. rewrite L_entries, H. simpl. by rewrite Hc.
  - split; [|done]. cbn [fst]. split; [by rewrite run_commit_states|].
    cbn [run_commit]. unfold mbind, M_bind.
    pose proof (unclaim_spec loc (cacheKey key) v s _ Hb eq_refl) as H.
    destruct (on_cache loc _ s) as [s1 []]. cbn [fst] in *. rewrite L_queue, H. simpl. by rewrite Hc.
Qed.

(** ** The invariant *)

Definition good (cur : option string) (retired : list string) (ent : option CacheEntry)
    (owed rows : list Record_) : Prop :=
  (forall r, r ∈ owed -> r_UID r ∈ retired) /\
  match ent with
  | None => True
  | Some e => entry_ok e rows /\ (Some (UID e) = cur \/ UID e ∈ retired) /\
              forall r, r ∈ owed -> r_UID r <> UID e
  end.

Definition inv (cur : option string) (retired : list string) (st : pstate * list Record_) : Prop :=
  exists ent owed, at_state ent owed st.1 /\ good cur retired ent owed st.2.

Lemma retire_mono cur uid retired x : x ∈ retired -> x ∈ retire cur uid retired.
Proof. unfold retire. intros. destruct cur; [|done]. case_decide; [done|]. by right. Qed.

Lemma retire_cur c uid retired : c <> uid -> c ∈ retire (Some c) uid retired.
Proof. intros. unfold retire. rewrite decide_False by done. by left. Qed.

Lemma retire_fresh cur uid retired : uid ∉ retired -> uid ∉ retire cur uid retired.
Proof.
  unfold retire. intros H. destruct cur as [c|]; [|done]. case_decide; [done|].
  by intros [->|?]%elem_of_cons.
Qed.

(** Seeing another UID keeps the invariant of what is cached. *)
Lemma good_retire cur uid retired ent owed rows :
  good cur retired ent owed rows -> good (Some uid) (retire cur uid retired) ent owed rows.
Proof.
  intros [H1 H2]. split; [intros r Hr; by apply retire_mono, H1|]. destruct ent as [e|]; [|done].
  destruct H2 as (He & Hu & Ho). split; [done|]. split; [|done].
  destruct Hu as [<-|Hu]; [|right; by apply retire_mono].
  destruct (decide (UID e = uid)) as [->|Hne]; [by left|right]. by apply retire_cur.
Qed.

(** Close-outs of superseded incarnations may land or be owed again. *)
Lemma good_closeouts cur retired ent owed owed' landed rows :
  (forall r, r ∈ owed' \/ r ∈ landed -> r ∈ owed) ->
  good cur retired ent owed rows -> good cur retired ent owed' (rows ++ landed).
Proof.
  intros Hin [H1 H2]. split; [intros r Hr; apply H1, Hin; by left|].
  destruct ent as [e|]; [|done]. destruct H2 as (He & Hu & Ho). split.
  - apply entry_ok_other; [|done]. intros r Hr. apply Ho, Hin. by right.
  - split; [done|]. intros r Hr. apply Ho, Hin. by left.
Qed.

Lemma good_entry cur retired ent ent' owed rows :
  (forall e', ent' = Some e' -> exists e, ent = Some e /\ UID e' = UID e /\
     (entry_ok e rows -> entry_ok e' rows)) ->
  good cur retired ent owed rows -> good cur retired ent' owed rows.
Proof.
  intros H [H1 H2]. split; [done|]. destruct ent' as [e'|]; [|done].
  destruct (H e' eq_refl) as (e & -> & Hu & Hok). destruct H2 as (He & Hc & Ho). rewrite Hu. auto.
Qed.

(** A deletion that ends up not written leaves the entry as it was, claim
    released. *)
Lemma unclaimed_ok v e rows :
  entry_ok e rows -> entry_ok (set_PendingDelete false (set_PendingDelete true (set_Version v e))) rows.
Proof.
  intros (H1 & _ & H3 & H4). split; [done|]. split; [done|]. split; [done|].
  by apply content_claim, content_claim, content_version.
Qed.

(** ** One item *)

Lemma settle_closeouts_inv cur retired cs oks s rows ent owed owed0 :
  at_state ent owed0 s -> (forall r, r ∈ owed0 \/ r ∈ cs -> r ∈ owed) ->
  good cur retired ent owed rows -> inv cur retired (settle (map closeout cs) oks s rows).
Proof.
  intros Hs Hin Hg.
  destruct (settle_closeouts cs [] oks s rows ent owed0 Hs) as (s' & oks' & landed & again & H1 & H2 & H3).
  rewrite app_nil_r in H1. rewrite H1. exists ent, (owed0 ++ again). split; [done|].
  apply (good_closeouts cur retired ent owed); [|done]. intros r Hr. apply Hin.
  rewrite elem_of_app in Hr. destruct Hr as [[Hr|Hr]|Hr]; [by left| |]; right; apply H3; auto.
Qed.

Lemma delete_inv e cur retired l l' res cs owed oks s rows :
  delete_outcome loc (cacheKey key) e key l res l' ->
  states s !! k_Sink key = Some loc -> L s = l' ->
  (forall r, r ∈ l_owed l \/ r ∈ cs -> r ∈ owed) ->
  good cur retired (l_entry l) owed rows ->
  exists main, l_sent l' = l_sent l ++ main /\
    inv cur retired (settle (map closeout cs ++ main) oks s rows).
Proof.
  intros Hd Hst HL Hin Hg. destruct Hd as [Hp|ent v ts He Hp|ent v err He Hp].
  - exists []. rewrite !app_nil_r. split; [done|].
    apply (settle_closeouts_inv _ _ _ _ _ _ (l_entry l) owed (l_owed l)); [|done|done].
    split; [done|]. by rewrite HL.
  - eexists. split; [done|].
    destruct (settle_closeouts cs [(k_Sink key, mkJob (deletedRecord e ts key ent)
      (CommitDelete key loc (cacheKey key) v))] oks s rows
      (Some (set_PendingDelete true (set_Version v ent))) (l_owed l))
      as (s' & oks' & landed & again & H1 & H2 & H3); [split; [done|]; by rewrite HL|].
    rewrite H1. rewrite He in Hg.
    assert (Hg' : good cur retired (Some ent) (l_owed l ++ again) (rows ++ landed)).
    { apply (good_closeouts cur retired _ owed); [|done]. intros r Hr. apply Hin.
      rewrite elem_of_app in Hr. destruct Hr as [[Hr|Hr]|Hr]; [by left| |]; right; apply H3; auto. }
    destruct (settle_delete (k_Sink key) (deletedRecord e ts key ent) v ent oks' s' (rows ++ landed)
      (l_owed l ++ again) H2) as [[Ha Hb]|[Ha Hb]]; unfold inv; rewrite Hb.
    + exists None, (l_owed l ++ again). split; [done|]. by destruct Hg'.
    + eexists _, (l_owed l ++ again). split; [exact Ha|].
      apply (good_entry cur retired (Some ent)); [|done]. intros e' [= <-]. exists ent.
      split; [done|]. split; [done|]. apply unclaimed_ok.
  - exists []. rewrite !app_nil_r. split; [done|]. rewrite He in Hg.
    apply (settle_closeouts_inv _ _ _ _ _ _
      (Some (set_PendingDelete false (set_PendingDelete true (set_Version v ent)))) owed (l_owed l));
      [split; [done|]; by rewrite HL|done|].
    apply (good_entry cur retired (Some ent)); [|done]. intros e' [= <-]. exists ent.
    split; [done|]. split; [done|]. apply unclaimed_ok.
Qed.

(** A write of [norm] over a good entry: the close-outs it triggers concern the
    superseded incarnation only. *)
Lemma closes_retired cur retired ent owed rows uid r :
  good cur retired ent owed rows -> closes ent uid r -> r_UID r ∈ retire cur uid retired.
Proof.
  intros [_ Hg] (e & -> & Hr & -> & _). destruct Hg as (_ & [<-|Hu] & _); [|by apply retire_mono].
  apply retire_cur. unfold reincarnated in Hr. by bools.
Qed.

Lemma upsert_write_inv e cur retired l policy obj norm writer et diff full run rev tag js owed1 v ts
    (res : option error) cs owed oks s rows :
  normalizeObject obj policy = Ok norm -> observed norm ->
  decide_write (l_entry l) (n_Hash norm) (n_UID norm) (n_JSON norm) (key_ephemeral key)
    (checkpointEveryFor writer) = Write et diff full run rev ->
  tag = et \/ (tag = "Snapshot" /\ et = "Added" /\ l_entry l = None) ->
  (forall r, r ∈ js \/ r ∈ owed1 -> closes (l_entry l) (n_UID norm) r) ->
  n_UID norm <> "" -> n_UID norm ∉ retired ->
  (0 < cadence -> checkpointEveryFor writer = cadence)%Z ->
  (forall r, r ∈ l_owed l \/ r ∈ cs -> r ∈ owed) ->
  good cur retired (l_entry l) owed rows ->
  let conf := confirmed_entry norm (key_ephemeral key) run in
  at_state (match res with None => Some (set_Version v conf) | Some _ => reverted v rev end)
    (l_owed l ++ owed1) s ->
  inv (Some (n_UID norm)) (retire cur (n_UID norm) retired)
    (settle (map closeout (cs ++ js) ++
       match res with
       | None => [(k_Sink key, mkJob (upsertRecord e ts key norm tag diff full)
                    (CommitUpsert key loc (cacheKey key) v conf rev))]
       | Some _ => []
       end) oks s rows).
Proof.
  intros Hn Hobs Hd Htag Hcl Hne Hfresh Hcad Hin Hg conf Hs.
  set (retired' := retire cur (n_UID norm) retired).
  match goal with |- inv _ _ (settle (_ ++ ?m) _ _ _) => set (main := m) end.
  destruct (settle_closeouts (cs ++ js) main oks s rows _ _ Hs)
    as (s' & oks' & landed & again & H1 & H2 & H3). rewrite H1.
  (* everything owed or landed concerns a retired UID *)
  set (owed' := (l_owed l ++ owed1) ++ again).
  assert (Hsrc : forall r, r ∈ owed' \/ r ∈ landed -> r ∈ owed \/ closes (l_entry l) (n_UID norm) r).
  { intros r Hr. unfold owed' in Hr. rewrite !elem_of_app in Hr.
    assert (r ∈ l_owed l \/ r ∈ owed1 \/ r ∈ cs ++ js) as [Hx|[Hx|Hx]].
    { destruct Hr as [[[?|?]|?]|?]; [by left|by right; left| |]; right; right; apply H3; auto. }
    - left. apply Hin. by left.
    - right. apply Hcl. by right.
    - rewrite elem_of_app in Hx. destruct Hx as [Hx|Hx].
      + left. apply Hin. by right.
      + right. apply Hcl. by left. }
  assert (Hret : forall r, r ∈ owed' \/ r ∈ landed -> r_UID r ∈ retired').
  { intros r [Hr|Hr]%Hsrc; [apply retire_mono; by apply (proj1 Hg)|by eapply closes_retired]. }
  assert (Hfresh' : n_UID norm ∉ retired') by (by apply retire_fresh).
  (* a cached entry of the same incarnation still describes the rows *)
  assert (Hent : match l_entry l with
    | Some ent => reincarnated ent (n_UID norm) = false ->
        UID ent = n_UID norm /\ entry_ok ent (rows ++ landed)
    | None => True end).
  { destruct (l_entry l) as [ent|] eqn:El; [|done]. intros Hr. destruct Hg as [_ (He & _ & Ho)].
    assert (Hu : UID ent = n_UID norm) by (by apply same_incarnation; [apply He|]).
    split; [done|]. apply entry_ok_other; [|done]. intros r Hr' E.
    apply Hfresh'. rewrite <- Hu, <- E. apply Hret. by right. }
  assert (Hrev : good (Some (n_UID norm)) retired' (reverted v rev) owed' (rows ++ landed)).
  { split; [intros r Hr; apply Hret; by left|]. pose proof (revert_cached _ _ _ _ _ _ _ _ _ _ _ Hd) as Hrv.
    destruct rev as [e0|]; [|done]. destruct Hrv as [El Hr]. simpl. rewrite El in Hent.
    destruct (Hent Hr) as [Hu He]. split; [by apply entry_ok_version|]. simpl. rewrite Hu.
    split; [by left|]. intros r Hr' E. apply Hfresh'. rewrite <- E. apply Hret. by left. }
  subst main. destruct res as [err|].
  - by exists (reverted v rev), owed'.
  - assert (Hconf : good (Some (n_UID norm)) retired' (Some (set_Version v conf)) owed'
      ((rows ++ landed) ++ [upsertRecord e ts key norm tag diff full])).
    { split; [intros r Hr; apply Hret; by left|]. subst conf. split.
      - apply entry_ok_version. assert (Hent' : match l_entry l with
          | Some ent => reincarnated ent (n_UID norm) = false -> entry_ok ent (rows ++ landed)
          | None => True end) by (destruct (l_entry l); [|done]; intros Hr; by apply Hent).
        assert (Htag' : tag = et \/ tag = "Snapshot") by tauto.
        apply confirmed_ok; [done| |].
        + by apply (write_counts e ts key norm obj policy (l_entry l) (checkpointEveryFor writer) et tag
            diff full run rev).
        + apply (content_write e ts key norm obj policy (l_entry l) (checkpointEveryFor writer) et tag
            diff full run rev); try done. intros ent El Hr. rewrite El in Hent.
          destruct (Hent Hr) as [? (_ & _ & _ & ?)]. done.
      - unfold confirmed_entry. destruct (key_ephemeral key);
          [|destruct (compressBaseline (n_JSON norm)) as [[data enc] cpr]]; simpl;
          (split; [by left|]); intros r Hr E; apply Hfresh'; rewrite <- E; apply Hret; by left. }
    destruct (settle_upsert (k_Sink key) (upsertRecord e ts key norm tag diff full) v conf rev oks' s'
      (rows ++ landed) owed' H2) as [[Ha Hb]|[Ha Hb]]; unfold inv; rewrite Hb.
    + by exists (Some (set_Version v conf)), owed'.
    + by exists (reverted v rev), owed'.
Qed.

Lemma L_sent s : l_sent (L s) = sent s.
Proof. done. Qed.

(** The ghost UIDs after an item. *)
Definition next_uids (e : env) (uids : option string * list string) : option string * list string :=
  match norm_of e key with
  | Some norm => (Some (n_UID norm), retire uids.1 (n_UID norm) uids.2)
  | None => uids
  end.

Definition cadence_ok (e : env) : Prop :=
  forall w, router e (k_Sink key) = Some w -> (0 < cadence -> checkpointEveryFor w = cadence)%Z.

Definition env_ok (e : env) : Prop :=
  cadence_ok e /\ forall norm, norm_of e key = Some norm -> observed norm.

Definition uid_ok (e : env) (uids : option string * list string) : Prop :=
  match norm_of e key with
  | Some norm => n_UID norm <> "" /\ n_UID norm ∉ uids.2
  | None => True
  end.

Lemma good_next e uids ent owed rows :
  good uids.1 uids.2 ent owed rows -> good (next_uids e uids).1 (next_uids e uids).2 ent owed rows.
Proof. unfold next_uids. destruct (norm_of e key); [apply good_retire|done]. Qed.

Lemma upsert_inv e uids writer obj l l' res cs owed oks s rows :
  upsert_outcome loc (cacheKey key) e key writer obj l res l' ->
  lister e key = Ok (Some obj, true) -> (0 < cadence -> checkpointEveryFor writer = cadence)%Z ->
  (forall norm, norm_of e key = Some norm -> observed norm) ->
  states s !! k_Sink key = Some loc -> L s = l' ->
  (forall r, r ∈ l_owed l \/ r ∈ cs -> r ∈ owed) ->
  uid_ok e uids -> good uids.1 uids.2 (l_entry l) owed rows ->
  exists main, l_sent l' = l_sent l ++ main /\
    inv (next_uids e uids).1 (next_uids e uids).2 (settle (map closeout cs ++ main) oks s rows).
Proof.
  intros Hu Hl Hcad Hobs Hst HL Hin Hok Hg.
  destruct Hu as [err _|policy norm ent Hp Hn He Hr Hh|policy norm et diff full run rev tag js owed1 v ts res
    Hp Hn Hd Htag Hcl conf].
  - exists []. rewrite !app_nil_r. split; [done|].
    apply (settle_closeouts_inv _ _ _ _ _ _ (l_entry l) owed (l_owed l)); [|done|by apply good_next].
    split; [done|]. by rewrite HL.
  - exists []. rewrite !app_nil_r. split; [done|].
    apply (settle_closeouts_inv _ _ _ _ _ _ (l_entry l) owed (l_owed l)); [|done|by apply good_next].
    split; [done|]. by rewrite HL.
  - eexists. split; [simpl; reflexivity|]. rewrite app_assoc, <- map_app.
    assert (Hnorm : norm_of e key = Some norm) by (unfold norm_of; by rewrite Hl, Hp, Hn).
    pose proof (Hobs norm Hnorm) as Hseen. unfold uid_ok in Hok. unfold next_uids. rewrite Hnorm in *. destruct Hok as [Hne Hfr].
    apply (upsert_write_inv e uids.1 uids.2 l policy obj norm writer et diff full run rev tag js owed1 v ts
      res cs owed oks s rows); try done.
    split; [done|]. by rewrite HL.
Qed.

Lemma item_inv item uids st :
  uid_ok item.1 uids -> env_ok item.1 -> inv uids.1 uids.2 st ->
  inv (next_uids item.1 uids).1 (next_uids item.1 uids).2 (run_item key item st).
Proof.
  destruct item as [e oks], st as [s rows]. intros Hok [Hcad Hobs] (ent & owed & (Hst & He & Ho) & Hg).
  simpl in *. pose proof (Process_spec loc (cacheKey key) e key s eq_refl Hst) as Hitem.
  pose proof (Process_touched e key loc s Hst) as [Hst1 _].
  set (s1 := (Process e key s).1) in *.
  assert (Hloc1 : states s1 !! k_Sink key = Some loc) by (by rewrite Hst1).
  assert (Hjobs : forall js, l_sent (L s1) = l_sent (L s) ++ js -> drop (length (sent s)) (sent s1) = js).
  { intros js E. rewrite !L_sent in E. rewrite E. by rewrite drop_app_length. }
  remember (L s1) as l' eqn:El'. destruct Hitem as [res Hi|l' Heph Howed Hsent Hent Hi
    |writer obj l1 res l' Hl Hr Ha Hu|writer l1 res l' Hl Hr Heph Ha Hd].
  - rewrite (Hjobs []) by (by rewrite app_nil_r). exists ent, owed. split; [|by apply good_next].
    cbn [settle fst]. split; [done|]. by rewrite <- El'.
  - rewrite (Hjobs []) by (by rewrite app_nil_r). exists None, owed. split.
    + cbn [settle fst]. split; [done|]. rewrite <- El', Hent, Howed, He, Ho. split; [|done].
      destruct ent as [en|]; [|done]. by destruct Hg as [_ [(_ & -> & _) _]].
    + apply good_next. by destruct Hg.
  - apply attempted_facts in Ha as [Ha1 (cs & owed0 & Ha2 & Ha3 & Ha4)]. simpl in *.
    destruct (upsert_inv e uids writer obj l1 l' res cs owed oks s1 rows Hu Hl (Hcad writer Hr) Hobs Hloc1) as (main & Hm & Hinv);
      [done| |done|by rewrite Ha1, He|].
    { intros r Hr'. rewrite Ha3 in Hr'. rewrite <- Ho. apply Ha4. tauto. }
    rewrite (Hjobs (map closeout cs ++ main)); [done|]. by rewrite Hm, Ha2, app_assoc.
  - apply attempted_facts in Ha as [Ha1 (cs & owed0 & Ha2 & Ha3 & Ha4)]. simpl in *.
    assert (next_uids e uids = uids) as -> by (unfold next_uids, norm_of; by rewrite Hl).
    destruct (delete_inv e uids.1 uids.2 l1 l' res cs owed oks s1 rows Hd Hloc1) as (main & Hm & Hinv);
      [done| |by rewrite Ha1, He|].
    { intros r Hr'. rewrite Ha3 in Hr'. rewrite <- Ho. apply Ha4. tauto. }
    rewrite (Hjobs (map closeout cs ++ main)); [done|]. by rewrite Hm, Ha2, app_assoc.
Qed.

Lemma run_items_inv items uids st :
  no_return key uids.1 uids.2 items = true -> Forall (fun it => env_ok it.1) items ->
  inv uids.1 uids.2 st ->
  inv (foldl (fun u it => next_uids it.1 u) uids items).1
      (foldl (fun u it => next_uids it.1 u) uids items).2 (run_items key items st).
Proof.
  revert uids st. induction items as [|item items IH]; intros uids st Hn HF Hi; [done|].
  cbn [no_return] in Hn. inversion HF as [|? ? Hc HF']; subst.
  change (run_items key (item :: items) st) with (run_items key items (run_item key item st)).
  change (foldl _ uids (item :: items)) with
    (foldl (fun u it => next_uids it.1 u) (next_uids item.1 uids) items).
  apply IH.
  - unfold next_uids. destruct (norm_of item.1 key) as [norm|]; [|done]. by bools.
  - done.
  - apply item_inv; [|done|done]. unfold uid_ok. destruct (norm_of item.1 key) as [norm|]; [|done].
    by bools.
Qed.

(** ** A settled item leaves its object in the cache *)

Lemma settle_all_ok cs main s rows :
  settle (map closeout cs ++ main) [] s rows = settle main [] s (rows ++ cs).
Proof.
  revert rows. induction cs as [|r cs IH]; intros rows; simpl; [by rewrite app_nil_r|].
  rewrite IH, <- app_assoc. done.
Qed.

Lemma settled_entry e st norm uids :
  inv uids.1 uids.2 st -> norm_of e key = Some norm -> (Process e key st.1).2 = None ->
  exists ent, l_entry (L (run_item key (e, []) st).1) = Some ent /\
    UID ent = n_UID norm /\ Hash ent = n_Hash norm.
Proof.
  destruct st as [s rows]. intros (ent0 & owed & (Hst & He & Ho) & Hg) Hnorm Hres.
  simpl in *. unfold norm_of in Hnorm.
  destruct (lister e key) as [[[obj|] [|]]|] eqn:Hl; try done.
  destruct (redactionFor e key) as [policy|] eqn:Hp; [|done].
  destruct (normalizeObject obj policy) as [norm'|] eqn:Hn; [|done]. injection Hnorm as ->.
  pose proof (Process_spec loc (cacheKey key) e key s eq_refl Hst) as Hitem.
  rewrite Hres in Hitem. pose proof (Process_touched e key loc s Hst) as [Hst1 _].
  set (s1 := (Process e key s).1) in *.
  assert (Hjobs : forall js, l_sent (L s1) = l_sent (L s) ++ js -> drop (length (sent s)) (sent s1) = js).
  { intros js E. rewrite !L_sent in E. rewrite E. by rewrite drop_app_length. }
  remember (L s1) as l' eqn:El'. remember None as res eqn:Eres.
  destruct Hitem as [res Hi|l' _ _ _ _ Hi|writer obj' l1 res l' Hl' Hr Ha Hu|writer l1 res l' Hl' _ _ _ _];
    [by destruct (Hi _ Hl)|by destruct (Hi obj)| |congruence].
  assert (obj' = obj) as -> by congruence.
  apply attempted_facts in Ha as [Ha1 (cs & owed0 & Ha2 & Ha3 & Ha4)]. simpl in *.
  destruct Hu as [err|policy' norm'' ent Hp' Hn' He' Hr' Hh
    |policy' norm'' et diff full run rev tag js owed1 v ts res Hp' Hn' Hd Htag Hcl conf]; [done| |].
  - assert (norm'' = norm) as -> by congruence.
    rewrite (Hjobs (map closeout cs)) by done. rewrite <- (app_nil_r (map closeout cs)), settle_all_ok.
    exists ent. simpl. rewrite <- El'. split; [done|]. split; [|done].
    rewrite Ha1, He in He'. rewrite He' in Hg. destruct Hg as [_ [[Hu _] _]]. by apply same_incarnation.
  - assert (norm'' = norm) as -> by congruence. subst res.
    rewrite (Hjobs (map closeout (cs ++ js) ++ [(k_Sink key,
      mkJob (upsertRecord e ts key norm tag diff full) (CommitUpsert key loc (cacheKey key) v conf rev))]))
      by (simpl; by rewrite Ha2, map_app, <- !app_assoc).
    rewrite settle_all_ok. cbn [settle hd tl fst snd j_Commit].
    pose proof (L_on_cache loc (cacheKey key) (CommitIfCurrent (cacheKey key) v conf) s1) as Hc.
    rewrite (Commit_current _ _ _ (set_Version v conf)) in Hc by (by rewrite <- L_entry, <- El').
    simpl in Hc. rewrite Z.eqb_refl in Hc. simpl in Hc. rewrite lookup_insert_eq in Hc.
    cbn [run_commit]. unfold mbind, M_bind. destruct (on_cache loc _ s1) as [s2 b]. simpl in *.
    rewrite Hc. exists (set_Version v conf). split; [done|]. subst conf. unfold confirmed_entry.
    by destruct (key_ephemeral key); [|destruct (compressBaseline (n_JSON norm)) as [[? ?] ?]].
Qed.
End at_key.
End replay.

(** ** Properties *)

(** A state of the pipeline in which the sink exists and holds nothing for the
    identity. *)
Definition blank (key : Key) (loc : nat) (s : pstate) : Prop :=
  states s !! k_Sink key = Some loc /\ cache (deref s loc) !! cacheKey key = None /\
  closeOuts (deref s loc) !! cacheKey key = None.

Section runs.
Context `{C : ZstdCodec} `{U : UnstructuredAPI} `{D : JsonDiff}.
Context (content : CacheEntry -> list Record_ -> Prop).

Lemma blank_inv cadence key loc s rows : blank key loc s -> inv cadence content key loc None [] (s, rows).
Proof.
  intros (H1 & H2 & H3). exists None, []. split; [|split; [|done]].
  - cbn [fst]. split; [done|]. split; [by rewrite L_entry|]. by rewrite L_owed, H3.
  - intros r Hr. by apply elem_of_nil in Hr.
Qed.

Lemma no_return_prefix key items more :
  no_return key None [] (items ++ more) = true -> no_return key None [] items = true.
Proof.
  generalize (None : option string), ([] : list string).
  induction items as [|it items IH]; intros cur ret; simpl; [done|].
  destruct (norm_of it.1 key); [|apply IH]. rewrite !andb_true_iff. intros [? ?%IH]. done.
Qed.
End runs.

(** ** What the rows replay to *)

(** The objects the API server delivered are JSON: their numbers are numerals. *)
Definition json_objects (key : Key) (items : list (env * list bool)) : Prop :=
  Forall (fun it => forall obj active, lister it.1 key = Ok (Some obj, active) -> wf_json (JObj obj) = true) items.

(** No two different documents of the run have one SHA-256. *)
Definition no_collision `{U : UnstructuredAPI} (key : Key) (items : list (env * list bool)) : bool :=
  let norms := omap (fun it => norm_of it.1 key) items in
  forallb (fun n => forallb (fun n' => negb (String.eqb (n_Hash n) (n_Hash n')) || String.eqb (n_JSON n) (n_JSON n')) norms) norms.

Lemma no_collision_eq `{U : UnstructuredAPI} key items it it' n n' :
  no_collision key items = true -> it ∈ items -> it' ∈ items -> norm_of it.1 key = Some n -> norm_of it'.1 key = Some n' ->
  n_Hash n = n_Hash n' -> n_JSON n = n_JSON n'.
Proof.
  unfold no_collision. cbn zeta. rewrite forallb_forall. intros H Hi Hi' Hn Hn' E.
  assert (Hin : forall i x, i ∈ items -> norm_of i.1 key = Some x -> In x (omap (fun it => norm_of it.1 key) items)).
  { intros i x Hx Ex. apply list_elem_of_In, list_elem_of_omap. by exists i. }
  specialize (H n (Hin it n Hi Hn)). rewrite forallb_forall in H. specialize (H n' (Hin it' n' Hi' Hn')).
  rewrite E, String.eqb_refl in H. by apply String.eqb_eq.
Qed.

(** Normalizing keeps a value a JSON value. *)
Lemma redact_wf segments v : wf_json v = true -> wf_json (redact segments v) = true.
Proof.
  revert v. induction segments as [|s segments IH]; intros v Hv; [done|]. cbn [redact].
  destruct v as [|b|t|x|items|m|g]; try done. apply wf_obj in Hv.
  destruct (m !! seg_name s) as [w|] eqn:E; [|by apply wf_obj]. apply wf_obj, map_Forall_insert_2; [|done].
  pose proof (Hv _ _ E) as Hw. destruct (seg_wildcard s); [|by apply IH].
  destruct w as [|b|t|x|items|m'|g]; try done. apply wf_arr in Hw. apply wf_arr, Forall_fmap.
  eapply Forall_impl; [exact Hw|]. intros x Hx. by apply IH.
Qed.

Lemma apply_paths_wf paths m out :
  wf_json (JObj m) = true -> apply_paths paths m = Ok out -> wf_json (JObj out) = true.
Proof.
  revert m. induction paths as [|p paths IH]; intros m Hm; cbn [apply_paths]; [by intros [= <-]|].
  pose proof (redactValue_fst (path_segments p) (JObj m)) as Hf. pose proof (redact_wf (path_segments p) (JObj m) Hm) as Hw.
  destruct (redactValue (JObj m) (path_segments p)) as [next []]; [|by apply IH]. cbn [fst] in Hf. subst next.
  destruct (redact _ _); try done. by apply IH.
Qed.

Lemma strip_wf obj b : wf_json (JObj obj) = true -> wf_json (JObj (stripVolatileFields obj b)) = true.
Proof.
  intros H. unfold stripVolatileFields. destruct (obj !! "metadata") as [[| | | | |m|]|] eqn:E; try done.
  apply wf_obj in H. apply wf_obj, map_Forall_insert_2; [|done]. pose proof (H _ _ E) as Hm. apply wf_obj in Hm. apply wf_obj.
  intros k v. unfold strip_metadata. rewrite map_lookup_imap, bind_Some. intros (x & Hx & Hs). pose proof (Hm k x Hx) as Hxw.
  unfold strip_field in Hs. destruct (volatile k); [done|]. destruct (String.eqb k _); [|by simplify_eq].
  destruct (negb b); [by simplify_eq|]. destruct x as [| | | | |x|]; try (by simplify_eq). case_decide; [done|]. injection Hs as <-.
  apply wf_obj in Hxw. apply wf_obj. by apply map_Forall_delete.
Qed.

Lemma normalized_readable `{U : UnstructuredAPI} obj policy norm :
  wf_json (JObj obj) = true -> normalizeObject obj policy = Ok norm ->
  exists v, Unmarshal (n_JSON norm) = Some v /\ Marshal v = Ok (n_JSON norm).
Proof.
  intros Hw Hn. unfold normalizeObject, normalized_json in Hn.
  destruct (Apply policy _) as [red|] eqn:Ha; [|done]. destruct (Marshal (JObj red)) as [t|] eqn:Hm; [|done].
  injection Hn as <-. exists (JObj red). split; [|done]. apply Unmarshal_Marshal; [|done].
  eapply apply_paths_wf; [|exact Ha]. by apply strip_wf.
Qed.

Lemma norm_of_readable `{U : UnstructuredAPI} key items it norm :
  json_objects key items -> it ∈ items -> norm_of it.1 key = Some norm ->
  exists v, Unmarshal (n_JSON norm) = Some v /\ Marshal v = Ok (n_JSON norm).
Proof.
  intros HF Hin Hn. unfold json_objects in HF. rewrite Forall_forall in HF. specialize (HF it Hin). unfold norm_of in Hn.
  destruct (lister it.1 key) as [[[obj|] [|]]|]; try done. destruct (redactionFor it.1 key) as [policy|]; [|done].
  destruct (normalizeObject obj policy) as [n|] eqn:E; [|done]. injection Hn as <-. eapply normalized_readable; [|exact E]. by eapply HF.
Qed.

Section contents.
Context `{C : ZstdCodec, !ZstdLaws C} `{U : UnstructuredAPI} `{D : JsonDiff} `{R : PatchReader} `{L : !JsonDiffLaws D R}.
Context (key : Key) (items : list (env * list bool)).

(** A document the run saw, and that reads as JSON. *)
Definition seen (norm : normalizedObject) : Prop :=
  (exists it, it ∈ items /\ norm_of it.1 key = Some norm) /\ exists v, Unmarshal (n_JSON norm) = Some v.

(** The rows replay to the document whose hash the entry holds, and a diff baseline
    the entry stores is that document. *)
Definition replays (e : CacheEntry) (rows : list Record_) : Prop :=
  exists norm v doc, seen norm /\ Hash e = n_Hash norm /\ Unmarshal (n_JSON norm) = Some v /\
    replay (UID e) rows = Some doc /\ same_value doc v /\
    forall b, decodeBaseline e = Ok (Some b) -> b = n_JSON norm.

Lemma replays_other e rows rows' :
  (forall r, r ∈ rows' -> r_UID r <> UID e) -> replays e rows -> replays e (rows ++ rows').
Proof. intros H (norm & v & doc & ? & ? & ? & ? & ? & ?). exists norm, v, doc. by rewrite replay_app_other. Qed.

(** The row of a write replays to the document it describes. *)
Lemma row_replays e ts k norm v cached every et tag diff full run rev rows :
  Unmarshal (n_JSON norm) = Some v -> n_JSON norm <> "" ->
  decide_write cached (n_Hash norm) (n_UID norm) (n_JSON norm) (key_ephemeral k) every = Write et diff full run rev ->
  tag = et \/ tag = "Snapshot" ->
  (forall ent, cached = Some ent -> reincarnated ent (n_UID norm) = false -> UID ent = n_UID norm /\ replays ent rows) ->
  exists doc, replay (n_UID norm) (rows ++ [upsertRecord e ts k norm tag diff full]) = Some doc /\ same_value doc v.
Proof.
  intros Hv Hne Hd Htag Hc.
  pose proof (write_tag _ _ _ _ _ _ _ _ _ _ _ _ Hd Htag) as Htag'.
  rewrite replay_snoc. unfold replay_row. cbn [r_UID EventType Data Diff upsertRecord].
  rewrite String.eqb_refl, Htag'. cbn [negb]. destruct full.
  { rewrite (proj2 (String.eqb_neq _ _) Hne). by exists v. }
  cbn [String.eqb negb]. unfold decide_write in Hd. destruct cached as [ent|]; [|done].
  destruct (reincarnated ent (n_UID norm)) eqn:Hr; [done|].
  destruct (String.eqb (Hash ent) _); [done|]. destruct (key_ephemeral k); [done|].
  destruct (diff_against ent (n_JSON norm)) as [p|] eqn:Hp; [|done].
  destruct (checkpointDue _ _ _ _); [done|]. simplify_eq.
  destruct (Hc ent eq_refl Hr) as (Hu & norm0 & v0 & doc0 & _ & _ & Hv0 & Hdoc & Hsame & Hb).
  rewrite Hu in Hdoc. rewrite Hdoc. unfold diff_against in Hp.
  destruct (JSON ent) as [stored|]; [|done]. destruct (decodeBaseline ent) as [[b|]|] eqn:Hdec; try done.
  rewrite (Hb b eq_refl) in Hp.
  destruct (CompareJSON (n_JSON norm0) (n_JSON norm)) as [patch|] eqn:Hcmp; [|done].
  destruct (MarshalPatch patch) as [sp|] eqn:Hmp; [|done]. simplify_eq.
  by eapply patch_applies.
Qed.

Lemma replays_write e ts k norm obj policy cached every et tag diff full run rev rows :
  normalizeObject obj policy = Ok norm -> seen norm ->
  decide_write cached (n_Hash norm) (n_UID norm) (n_JSON norm) (key_ephemeral k) every = Write et diff full run rev ->
  tag = et \/ tag = "Snapshot" ->
  (forall ent, cached = Some ent -> reincarnated ent (n_UID norm) = false -> UID ent = n_UID norm /\ replays ent rows) ->
  replays (confirmed_entry norm (key_ephemeral k) run) (rows ++ [upsertRecord e ts k norm tag diff full]).
Proof.
  intros Hn Hseen Hd Htag Hc. apply normalized_facts in Hn as [Hne Hh]. destruct Hseen as [Hit [v Hv]].
  destruct (row_replays e ts k norm v cached every et tag diff full run rev rows Hv Hne Hd Htag Hc) as (doc & Hdoc & Hsame).
  exists norm, v, doc. unfold confirmed_entry.
  destruct (key_ephemeral k); [|destruct (compressBaseline (n_JSON norm)) as [[data enc] c] eqn:Hcb]; simpl;
    (split; [by split; [|exists v]|]); repeat (split; [done|]); intros b; [done|].
  apply baseline_sound; by rewrite Hcb.
Qed.
End contents.

(** ** Properties *)

Section theorems.
Context `{C : ZstdCodec} `{U : UnstructuredAPI} `{D : JsonDiff}.

(** C1. Replay correctness. Start from an identity the pipeline knows nothing
    about, and run any sequence of work items for it (live objects with any
    policy, deletions, recreations, sink and lister outages, refused and failed
    writes), each settled before the next. When an item that observed a live
    object then settles with its writes landed, the rows of that incarnation replay,
    by the recipe that reads the last full state and applies the patches after it, to
    a document that is the live object's normalized document as a JSON value, its
    numbers taken as the diff library reads them; and where that reading leaves the
    numbers of both documents as they are written, it is the same text. (Assumed: the
    objects are JSON, an incarnation superseded does not come back, no two different
    documents of the run share a SHA-256, and the contract of RFC 6902 for the diff
    library and the reader's patch library.) *)
Theorem replay_reproduces `{!ZstdLaws C} `{R : PatchReader} `{!JsonDiffLaws D R} (key : Key) (loc : nat)
    (items : list (env * list bool)) (s : pstate) (rows : list Record_) (e : env) (norm : normalizedObject) :
  blank key loc s ->
  json_objects key (items ++ [(e, [])]) ->
  no_return key None [] (items ++ [(e, [])]) = true ->
  no_collision key (items ++ [(e, [])]) = true ->
  norm_of e key = Some norm ->
  (Process e key (run_items key items (s, rows)).1).2 = None ->
  exists doc live,
    replay (n_UID norm) (run_items key (items ++ [(e, [])]) (s, rows)).2 = Some doc /\
    Unmarshal (n_JSON norm) = Some live /\ same_value doc live /\
    (as_numbers doc = doc -> as_numbers live = live -> Marshal doc = Ok (n_JSON norm)).
Proof.
  intros Hb Hjson Hn Hcol Hnorm Hres. set (all := items ++ [(e, [])]) in *.
  assert (Hlast : (e, []) ∈ all) by (apply elem_of_app; right; by left).
  assert (HF : Forall (fun it => env_ok 0 (seen key all) key it.1) all).
  { apply Forall_forall. intros it Hit. split; [intros w _ ?; lia|]. intros n Hnn.
    split; [by exists it|]. destruct (norm_of_readable key all it n Hjson Hit Hnn) as (v & Hv & _). by exists v. }
  assert (Hinv : forall its, no_return key None [] its = true -> Forall (fun it => env_ok 0 (seen key all) key it.1) its ->
    exists uids, inv 0 (replays key all) key loc uids.1 uids.2 (run_items key its (s, rows))).
  { intros its Hr HF'. eexists. eapply (run_items_inv 0 (replays key all) (seen key all)) with (uids := (None, []));
      [apply replays_other|done|done|apply replays_write|done|done|by apply blank_inv]. }
  assert (HF1 : Forall (fun it => env_ok 0 (seen key all) key it.1) items) by (by apply Forall_app in HF as [? _]).
  destruct (Hinv items (no_return_prefix _ _ _ Hn) HF1) as (uids & Hi).
  destruct (Hinv all Hn HF) as (uids' & Hi').
  destruct (settled_entry 0 (replays key all) key loc e _ norm uids Hi Hnorm Hres) as (ent & He & Hu & Hh).
  revert Hi'. unfold all, run_items. rewrite foldl_app. cbn [foldl]. fold (run_items key items (s, rows)). intros Hi'.
  destruct Hi' as (ent' & owed & (_ & He' & _) & Hg). rewrite He in He'. subst ent'.
  destruct Hg as [_ [(_ & _ & _ & norm0 & v & doc & [(it & Hit & Hn0) _] & Hh0 & Hv & Hdoc & Hsame & _) _]].
  assert (E : n_JSON norm = n_JSON norm0)
    by (apply (no_collision_eq key all (e, []) it norm norm0); [done|done|done|done|done|congruence]).
  destruct (norm_of_readable key all (e, []) norm Hjson Hlast Hnorm) as (live & Hlive & Hm).
  exists doc, live. rewrite <- Hu. split; [exact Hdoc|]. split; [done|].
  assert (v = live) as -> by congruence. split; [done|]. intros H1 H2. unfold same_value in Hsame. congruence.
Qed.

(** C38. Replay is bounded: run any sequence of work items for an identity as in
    replay correctness, with no assumption on the documents, the codec or the diff
    library. When every writer the run resolves has the checkpoint cadence [n > 0],
    a reader who replays the incarnation applies fewer than [n] diffs on top of a
    data-bearing row. *)
Theorem replay_bounded (n : Z) (key : Key) (loc : nat) (items : list (env * list bool)) (s : pstate)
    (rows : list Record_) (e : env) (norm : normalizedObject) :
  (0 < n)%Z -> blank key loc s ->
  no_return key None [] (items ++ [(e, [])]) = true ->
  Forall (fun it => forall w, router it.1 (k_Sink key) = Some w -> checkpointEveryFor w = n)
    (items ++ [(e, [])]) ->
  norm_of e key = Some norm ->
  (Process e key (run_items key items (s, rows)).1).2 = None ->
  (0 <= trailing (n_UID norm) (run_items key (items ++ [(e, [])]) (s, rows)).2 < n)%Z.
Proof.
  intros Hpos Hb Hn Hw Hnorm Hres. set (all := items ++ [(e, [])]) in *.
  assert (HF : Forall (fun it => env_ok n (fun _ => True) key it.1) all).
  { eapply Forall_impl; [exact Hw|]. intros it H. split; [|done]. intros w Hr _. by apply H. }
  assert (Hinv : forall its, no_return key None [] its = true -> Forall (fun it => env_ok n (fun _ => True) key it.1) its ->
    exists uids, inv n (fun _ _ => True) key loc uids.1 uids.2 (run_items key its (s, rows))).
  { intros its Hr HF'. eexists. eapply (run_items_inv n (fun _ _ => True) (fun _ => True)) with (uids := (None, []));
      [done|done|done|done|done|done|by apply blank_inv]. }
  assert (HF1 : Forall (fun it => env_ok n (fun _ => True) key it.1) items) by (by apply Forall_app in HF as [? _]).
  destruct (Hinv items (no_return_prefix _ _ _ Hn) HF1) as (uids & Hi).
  destruct (Hinv all Hn HF) as (uids' & Hi').
  destruct (settled_entry n (fun _ _ => True) key loc e _ norm uids Hi Hnorm Hres) as (ent & He & Hu & Hh).
  revert Hi'. unfold all, run_items. rewrite foldl_app. cbn [foldl]. fold (run_items key items (s, rows)). intros Hi'.
  destruct Hi' as (ent' & owed & (_ & He' & _) & Hg). rewrite He in He'. subst ent'.
  destruct Hg as [_ [(_ & _ & [Hrun Hlt] & _) _]]. rewrite Hu in Hrun. rewrite <- Hrun.
  split; [|by apply Hlt]. rewrite Hrun. apply trailing_nonneg.
Qed.
End theorems.

(** ** Witnesses *)

(** Create, update, fail a write, update, delete, recreate with a close-out that
    fails once, update. *)
Definition history : list (env * list bool) :=
  [(cluster (Some (pod "u1" "nginx:1.25")) [], []);
   (cluster (Some (pod "u1" "nginx:1.26")) [], [false]);
   (cluster (Some (pod "u1" "nginx:1.26")) [], []);
   (cluster None [], [false]);
   (cluster (Some (pod "u2" "nginx:1.26")) [4], [true]);
   (cluster (Some (pod "u2" "nginx:1.27")) [], [false; true])].

Definition last_env : env := cluster (Some (pod "u2" "nginx:1.28")) [].

Definition last_norm : normalizedObject :=
  match norm_of last_env pod_key with
  | Some norm => norm
  | None => mkNormalized "" "" "" "" "" ∅ []
  end.

Example history_rows :
  map (fun r => (EventType r, r_UID r)) (run_items pod_key (history ++ [(last_env, [])]) (start_state, [])).2 =
  [("Snapshot", "u1"); ("Modified", "u1"); ("Added", "u2"); ("Modified", "u2"); ("Deleted", "u1");
   ("Modified", "u2")].
Proof. vm_compute. reflexivity. Qed.

Lemma start_blank : blank pod_key 0 start_state.
Proof. vm_compute. done. Qed.

Lemma history_json : json_objects pod_key (history ++ [(last_env, [])]).
Proof.
  unfold json_objects. repeat (constructor; [intros obj active H; cbn in H; simplify_eq/=; vm_compute; reflexivity|]). constructor.
Qed.

Lemma replay_reproduces_witness :
  exists doc live,
    replay (n_UID last_norm) (run_items pod_key (history ++ [(last_env, [])]) (start_state, [])).2 = Some doc /\
    Unmarshal (n_JSON last_norm) = Some live /\ same_value doc live /\
    (as_numbers doc = doc -> as_numbers live = live -> Marshal doc = Ok (n_JSON last_norm)).
Proof.
  apply (replay_reproduces pod_key 0 history start_state [] last_env last_norm).
  - apply start_blank.
  - apply history_json.
  - vm_compute. reflexivity.
  - vm_compute. reflexivity.
  - vm_compute. reflexivity.
  - vm_compute. reflexivity.
Defined.

(** The last row of that history is the patch of one member. *)
Example last_patch :
  option_map Diff (last (run_items pod_key (history ++ [(last_env, [])]) (start_state, [])).2) =
  Some (String.concat (String dquote "") ["[{"; "op"; ":"; "replace"; ","; "path"; ":"; "/spec"; ","; "value"; ":{"; "image"; ":";
    "nginx:1.28"; "}}]"]).
Proof. vm_compute. reflexivity. Qed.

Lemma replay_bounded_witness :
  (0 <= trailing (n_UID last_norm)
     (run_items pod_key (history ++ [(last_env, [])]) (start_state, [])).2 < 3)%Z.
Proof.
  apply (replay_bounded 3 pod_key 0 history start_state [] last_env last_norm).
  - lia.
  - apply start_blank.
  - vm_compute. reflexivity.
  - repeat constructor; by intros w [= <-].
  - vm_compute. reflexivity.
  - vm_compute. reflexivity.
Defined.

(** ** Two writes of one key in flight

    [Process] returns once the sink accepted the job, so a second write for the
    key can be issued before the first one's outcome is known; its diff is then
    taken against the optimistic entry of the first. *)

Definition staged (image phase : string) : env := cluster (Some (<["status" := JObj {[ "phase" := JStr phase ]}]> (pod "u1" image))) [].

(** First the image changes, then the phase. *)
Definition pod_a : env := staged "nginx:1.25" "Pending".
Definition pod_b : env := staged "httpd:2.4" "Pending".
Definition pod_c : env := staged "httpd:2.4" "Running".

(** Run the callback of the [i]-th accepted job. *)
Definition commit_nth (i : nat) (ok : bool) (s : pstate) : pstate :=
  match sent s !! i with
  | Some (_, job) => (run_commit (j_Commit job) ok s).1
  | None => s
  end.

Definition rows_at (jobs : list nat) (s : pstate) : list Record_ :=
  omap (fun i => match sent s !! i with Some (_, job) => Some (j_Record job) | None => None end) jobs.

(** Write A lands; B and C are in flight together; B fails, C lands. *)
Definition overlapped : pstate :=
  let s1 := commit_nth 0 true (Process pod_a pod_key start_state).1 in
  let s2 := (Process pod_b pod_key s1).1 in
  let s3 := (Process pod_c pod_key s2).1 in
  commit_nth 2 true (commit_nth 1 false s3).

(** The settling hypothesis of replay is needed. With two writes of a key in
    flight, the first failing and the second landing, the rows in the sink do not
    replay to the live object, the cache nevertheless holds it as confirmed, and
    the retry the failure triggered is deduplicated away. *)
Lemma overlapping_failure_breaks_replay :
  replay "u1" (rows_at [0; 2]%nat overlapped) <>
    match norm_of pod_c pod_key with Some n => Unmarshal (n_JSON n) | None => None end /\
  option_map Hash (cache (view overlapped "ch") !! cacheKey pod_key) =
    option_map n_Hash (norm_of pod_c pod_key) /\
  sent (Process pod_c pod_key overlapped).1 = sent overlapped /\
  (Process pod_c pod_key overlapped).2 = None.
Proof. vm_compute. repeat split; try reflexivity. intros [=]. Qed.

(** A recreated object whose Added write fails is not recorded as Added: the
    failure deletes the entry, so the retry is a cache miss, and in a scope that
    is not warm it is written as Snapshot. *)
Lemma failed_reincarnation_becomes_snapshot :
  let reborn := cluster (Some (pod "u2" "nginx:1.25")) [] in
  let s1 := commit_nth 0 true (Process pod_a pod_key start_state).1 in
  let s2 := (Process reborn pod_key s1).1 in
  let s3 := (Process reborn pod_key (commit_nth 2 false s2)).1 in
  map (fun nj => (EventType (j_Record nj.2), r_UID (j_Record nj.2))) (sent s3) =
  [("Snapshot", "u1"); ("Deleted", "u1"); ("Added", "u2"); ("Snapshot", "u2")].
Proof. vm_compute. reflexivity. Qed.
