(* ===== verification/WarmProps.v ===== *)
(** * WarmProps: what a warm may and may not record

    History classification is a function of the history alone; seeding never
    overwrites live state; every deletion a warm records is justified by the sink's
    own history or by the watch cache, behind the epoch gate; boot reconciliation
    closes exactly the orphaned scopes; the coordinator keeps one warm per scope,
    of the newest epoch. *)

From Stdlib Require Import ZArith Lia.
From stdpp Require Import base gmap strings list sorting.
From S2P Require Import Prelude Identity HashCache Sha256 Json Redact Normalize Pipeline JsonPatch Process.
From S2P Require Import ScopeRecorder Warm ProcessFacts.

(** ** Grouping *)

Definition bucket (states : list KnownState) (id : identity) : list KnownState :=
  filter (fun s => state_identity s = id) states.

Lemma elem_of_bucket states id s : s ∈ bucket states id <-> state_identity s = id /\ s ∈ states.
Proof. unfold bucket. by rewrite list_elem_of_filter. Qed.

Lemma bucket_snoc states s id :
  bucket (states ++ [s]) id = bucket states id ++ (if decide (state_identity s = id) then [s] else []).
Proof. unfold bucket. by rewrite filter_app, filter_cons, filter_nil. Qed.

Definition groups_ok (states : list KnownState) (acc : gmap identity nat * list (list KnownState)) : Prop :=
  (forall id idx, acc.1 !! id = Some idx -> acc.2 !! idx = Some (bucket states id) /\ bucket states id <> []) /\
  (forall idx g, acc.2 !! idx = Some g -> exists id, acc.1 !! id = Some idx) /\
  (forall id, acc.1 !! id = None -> bucket states id = []).

Lemma bucket_id states id id' : bucket states id = bucket states id' -> bucket states id <> [] -> id = id'.
Proof.
  intros E Hne. destruct (bucket states id) as [|s l] eqn:Hb; [done|].
  assert (H1 : s ∈ bucket states id) by (rewrite Hb; by left).
  assert (H2 : s ∈ bucket states id') by (rewrite <- E; by left).
  apply elem_of_bucket in H1 as [<- _], H2 as [<- _]. done.
Qed.

Lemma group_step_ok states acc s :
  groups_ok states acc -> groups_ok (states ++ [s]) (group_step acc s).
Proof.
  destruct acc as [groups out]. intros (H1 & H2 & H3). simpl in *. unfold group_step.
  destruct (groups !! state_identity s) as [idx|] eqn:Hg; simpl.
  - destruct (H1 _ _ Hg) as [Ho Hb]. split; [|split].
    + simpl. intros id j Hid. rewrite bucket_snoc. destruct (H1 _ _ Hid) as [Hj Hne].
      destruct (decide (state_identity s = id)) as [<-|E].
      * assert (j = idx) as -> by congruence. rewrite list_lookup_alter_eq, Ho. simpl.
        split; [done|]. by destruct (bucket states (state_identity s)).
      * rewrite app_nil_r. split; [|done]. rewrite list_lookup_alter_ne; [done|]. intros ->.
        apply E. apply (bucket_id states); congruence.
    + simpl. intros j g. rewrite list_lookup_alter. case_decide as E; [subst; eauto|by apply H2].
    + simpl. intros id Hid. rewrite bucket_snoc, (H3 _ Hid). case_decide as E; [congruence|done].
  - split; [|split]; simpl.
    + intros id j [[<- <-]|[E Hid]]%lookup_insert_Some.
      * rewrite bucket_snoc, (H3 _ Hg), decide_True by done. split; [|done]. by apply list_lookup_middle.
      * destruct (H1 _ _ Hid) as [Hj Hne]. rewrite bucket_snoc, decide_False, app_nil_r by done.
        split; [|done]. by apply lookup_app_l_Some.
    + intros j g [Hj|[Hlen Hj]]%lookup_app_Some.
      * destruct (H2 _ _ Hj) as [id Hid]. exists id. rewrite lookup_insert_ne; [done|]. congruence.
      * exists (state_identity s). rewrite lookup_insert_eq. f_equal.
        apply list_lookup_singleton_Some in Hj as [Hj _]. lia.
    + intros id [Hid E]%lookup_insert_None. rewrite bucket_snoc, (H3 _ Hid), decide_False by done. done.
Qed.

Lemma group_fold_ok states : groups_ok states (foldl group_step (∅, []) states).
Proof.
  induction states as [|s states IH] using rev_ind.
  - split; [|split]; simpl; [intros id idx; by rewrite lookup_empty|done|done].
  - rewrite foldl_app. simpl. by apply group_step_ok.
Qed.

(** One group per identity of the history, holding all its rows in order. *)
Lemma elem_of_groups states g :
  g ∈ groupByIdentity states <-> exists id, g = bucket states id /\ g <> [].
Proof.
  unfold groupByIdentity. destruct (group_fold_ok states) as (H1 & H2 & H3). split.
  - intros [idx Hidx]%list_elem_of_lookup. destruct (H2 _ _ Hidx) as [id Hid]. exists id.
    destruct (H1 _ _ Hid) as [Hg Hne]. assert (g = bucket states id) as -> by congruence. done.
  - intros (id & -> & Hne). destruct ((foldl group_step (∅, []) states).1 !! id) as [idx|] eqn:Hid.
    + apply list_elem_of_lookup. exists idx. by apply H1.
    + by rewrite (H3 _ Hid) in Hne.
Qed.

(** ** Incarnations *)

Lemma newer_false s c :
  newer s c = false <->
  (ks_TS s < ks_TS c)%Z \/ (ks_TS s = ks_TS c /\ String.le (ks_UID s) (ks_UID c)).
Proof.
  unfold newer. rewrite orb_false_iff, andb_false_iff, Z.ltb_ge, Z.eqb_neq, negb_false_iff, bool_decide_eq_true.
  split.
  - intros [H1 [H2|H2]]; [left; lia|]. destruct (decide (ks_TS s = ks_TS c)); [by right|left; lia].
  - intros [H|[H1 H2]]; [split; [lia|left; lia]|split; [lia|by right]].
Qed.

Lemma newer_asym s c : newer s c = true -> newer c s = false.
Proof.
  intros H. apply newer_false. unfold newer in H.
  rewrite orb_true_iff, andb_true_iff, Z.ltb_lt, Z.eqb_eq, negb_true_iff, bool_decide_eq_false in H.
  destruct H as [H|[H1 H2]]; [by left|]. right. split; [done|]. by destruct (total String.le (ks_UID c) (ks_UID s)).
Qed.

Lemma newer_false_trans a b c : newer a b = false -> newer b c = false -> newer a c = false.
Proof.
  rewrite !newer_false. intros [H1|[H1 H1']] [H2|[H2 H2']]; try (left; lia).
  right. split; [lia|]. by trans (ks_UID b).
Qed.

Lemma newest_spec first rest :
  newest first rest ∈ first :: rest /\ forall s, s ∈ first :: rest -> newer s (newest first rest) = false.
Proof.
  assert (Hrefl : forall s, newer s s = false) by (intros s; apply newer_false; by right).
  unfold newest. revert first. induction rest as [|x rest IH]; intros first; simpl.
  - split; [by left|]. intros s ->%list_elem_of_singleton. apply Hrefl.
  - destruct (newer x first) eqn:E.
    + destruct (IH x) as [H1 H2]. split; [by right|]. intros s [->|Hs]%elem_of_cons; [|by apply H2].
      apply (newer_false_trans _ x); [by apply newer_asym|]. apply H2. by left.
    + destruct (IH first) as [H1 H2]. split.
      * apply elem_of_cons in H1 as [->|H1]; [by left|by right; right].
      * intros s [->|[->|Hs]%elem_of_cons]%elem_of_cons; [apply H2; by left| |apply H2; by right].
        apply (newer_false_trans _ first); [done|]. apply H2. by left.
Qed.

Lemma newer_false_ts s c : newer s c = false -> (ks_TS s <= ks_TS c)%Z.
Proof. intros H. apply newer_false in H. lia. Qed.

Lemma split_spec g cur u :
  splitIncarnations g = Some (cur, u) ->
  cur ∈ g /\ (forall s, s ∈ g -> newer s cur = false) /\ u = filter (fun s => ks_UID s <> ks_UID cur) g.
Proof.
  destruct g as [|first rest]; [done|]. intros [= <- <-]. destruct (newest_spec first rest). done.
Qed.

(** ** The two lookups over history *)

Definition rows_of (g : list KnownState) (rows : gmap gcTarget KnownState) : gmap gcTarget KnownState :=
  foldl (fun rows state => <[target_of_state state := state]> rows) rows g.

Lemma rows_of_lookup g rows t row :
  rows_of g rows !! t = Some row -> rows !! t = Some row \/ (row ∈ g /\ target_of_state row = t).
Proof.
  unfold rows_of. revert rows. induction g as [|s g IH]; intros rows; simpl; [by left|].
  intros [H|[H1 H2]]%IH.
  - apply lookup_insert_Some in H as [[<- <-]|[_ H]]; [right; split; [by left|done]|by left].
  - right. split; [by right|done].
Qed.

Definition index_ok (gs : list (list KnownState)) (acc : gmap gcTarget KnownState * gmap identity string) : Prop :=
  (forall t row, acc.1 !! t = Some row -> target_of_state row = t /\ exists g, g ∈ gs /\ row ∈ g) /\
  (forall g, g ∈ gs -> g <> [] -> exists s, s ∈ g /\ is_Some (acc.2 !! state_identity s)) /\
  (forall id uid, acc.2 !! id = Some uid -> exists g cur u, g ∈ gs /\
     splitIncarnations g = Some (cur, u) /\ state_identity cur = id /\ ks_UID cur = uid).

Lemma index_snoc gs g acc :
  index_ok gs acc ->
  index_ok (gs ++ [g])
    (match splitIncarnations g with
     | None => acc
     | Some (current, _) =>
         (rows_of g acc.1, <[state_identity current := ks_UID current]> acc.2)
     end).
Proof.
  intros (H1 & H2 & H3). destruct (splitIncarnations g) as [[cur u]|] eqn:Hs; split_and!; simpl.
  - intros t row [H|[Hin Ht]]%rows_of_lookup.
    + destruct (H1 _ _ H) as (Ht & g' & Hg & Hin). split; [done|]. exists g'. split; [|done].
      apply elem_of_app. by left.
    + split; [done|]. exists g. split; [|done]. apply elem_of_app. right. by left.
  - intros g' [Hg| ->%list_elem_of_singleton]%elem_of_app Hne.
    + destruct (H2 _ Hg Hne) as (s & Hin & Hid). exists s. split; [done|].
      rewrite lookup_insert_is_Some. destruct (decide (state_identity cur = state_identity s)); auto.
    + apply split_spec in Hs as [Hin _]. exists cur. split; [done|]. rewrite lookup_insert_eq. by eexists.
  - intros id uid [[<- <-]|[_ H]]%lookup_insert_Some.
    + exists g, cur, u. split; [|done]. apply elem_of_app. right. by left.
    + destruct (H3 _ _ H) as (g' & c & u' & Hg & Hrest). exists g', c, u'. split; [|done].
      apply elem_of_app. by left.
  - intros t row H. destruct (H1 _ _ H) as (Ht & g' & Hg & Hin). split; [done|]. exists g'. split; [|done].
    apply elem_of_app. by left.
  - intros g' [Hg| ->%list_elem_of_singleton]%elem_of_app Hne; [by apply H2|]. by destruct g.
  - intros id uid H. destruct (H3 _ _ H) as (g' & c & u' & Hg & Hrest). exists g', c, u'. split; [|done].
    apply elem_of_app. by left.
Qed.

Lemma indexIncarnations_ok states : index_ok (groupByIdentity states) (indexIncarnations states).
Proof.
  unfold indexIncarnations. induction (groupByIdentity states) as [|g gs IH] using rev_ind.
  - split_and!; simpl.
    + intros t row. by rewrite lookup_empty.
    + by intros g Hg%elem_of_nil.
    + intros id uid. by rewrite lookup_empty.
  - rewrite foldl_app. simpl. by apply index_snoc.
Qed.

(** A row of the history that a row of another incarnation of the same name, no
    older, supersedes: its death went unrecorded. *)
Definition superseded (states : list KnownState) (st : KnownState) : Prop :=
  st ∈ states /\ exists cur, cur ∈ states /\ state_identity cur = state_identity st /\
    ks_UID cur <> ks_UID st /\ (ks_TS st <= ks_TS cur)%Z.

Lemma split_superseded states g cur u :
  g ∈ groupByIdentity states -> splitIncarnations g = Some (cur, u) ->
  cur ∈ states /\ forall st, st ∈ g -> ks_UID st <> ks_UID cur -> superseded states st.
Proof.
  intros (id & -> & _)%elem_of_groups (Hin & Hmax & _)%split_spec.
  apply elem_of_bucket in Hin as [<- Hin]. split; [done|]. intros st Hst Hu.
  pose proof (newer_false_ts _ _ (Hmax _ Hst)). apply elem_of_bucket in Hst as [Hid Hst].
  split; [done|]. exists cur. by split_and!.
Qed.

Lemma index_superseded states t row :
  (indexIncarnations states).1 !! t = Some row ->
  default "" ((indexIncarnations states).2 !! mkIdentity (gt_namespace t) (gt_name t)) <> gt_uid t ->
  superseded states row.
Proof.
  destruct (indexIncarnations_ok states) as (H1 & H2 & H3). intros Hrow Hne.
  destruct (H1 _ _ Hrow) as (<- & g & Hg & Hin). apply elem_of_groups in Hg as Hb.
  destruct Hb as (id & -> & Hb). pose proof Hin as [<- _]%elem_of_bucket.
  change (mkIdentity _ _) with (state_identity row) in Hne.
  destruct (H2 _ Hg Hb) as (s & [Hs _]%elem_of_bucket & [uid Huid]). rewrite Hs in Huid.
  rewrite Huid in Hne. simpl in Hne. destruct (H3 _ _ Huid) as (g' & cur & u & Hg' & Hsp & Hid & <-).
  apply (split_superseded states g' cur u Hg' Hsp); [|done].
  apply elem_of_groups in Hg' as (id' & -> & _). apply split_spec in Hsp as (Hc & _ & _).
  apply elem_of_bucket in Hc as [Hc _]. apply elem_of_bucket in Hin as [_ Hin]. apply elem_of_bucket. by rewrite <- Hc, Hid.
Qed.

(** ** What an operation sends *)

(** Every job [m] hands to a sink satisfies [P], and its result satisfies [Q]. *)
Definition emits {A} (P : string * Job -> Prop) (m : M A) (Q : A -> Prop) : Prop :=
  forall s, (exists new, sent (m s).1 = sent s ++ new /\ Forall P new) /\ Q (m s).2.

Lemma emits_ret {A} P (a : A) (Q : A -> Prop) : Q a -> emits P (mret a) Q.
Proof. intros HQ s. split; [|done]. exists []. by rewrite app_nil_r. Qed.

Lemma emits_bind {A B} P (Q : A -> Prop) (R : B -> Prop) (m : M A) (f : A -> M B) :
  emits P m Q -> (forall a, Q a -> emits P (f a) R) -> emits P (m ≫= f) R.
Proof.
  intros Hm Hf s. unfold mbind, M_bind. destruct (Hm s) as [(n1 & E1 & F1) HQ].
  destruct (m s) as [s1 a]. simpl in *. destruct (Hf a HQ s1) as [(n2 & E2 & F2) HR].
  split; [|done]. exists (n1 ++ n2). rewrite E2, E1, app_assoc. split; [done|]. by apply Forall_app.
Qed.

Lemma emits_quiet {A} P (m : M A) : (forall s, sent (m s).1 = sent s) -> emits P m (fun _ => True).
Proof. intros H s. split; [|done]. exists []. by rewrite H, app_nil_r. Qed.

Lemma emits_weaken {A} (P P' : string * Job -> Prop) (m : M A) (Q Q' : A -> Prop) :
  (forall nj, P nj -> P' nj) -> (forall a, Q a -> Q' a) -> emits P m Q -> emits P' m Q'.
Proof.
  intros HP HQ Hm s. destruct (Hm s) as [(n & E & F) Hq]. split; [|by apply HQ].
  exists n. split; [done|]. by eapply Forall_impl.
Qed.

Lemma emits_Enqueue P writer sinkName job :
  P (sinkName, job) -> emits P (Enqueue writer sinkName job) (fun _ => True).
Proof.
  intros HP s. unfold Enqueue. case_match; simpl; (split; [|done]).
  - exists []. by rewrite app_nil_r.
  - exists [(sinkName, job)]. split; [done|]. by constructor.
Qed.

Lemma emits_on_cache {A} P loc (op : hashCache -> hashCache * A) :
  emits P (on_cache loc op) (fun a => exists c, a = (op c).2).
Proof.
  intros s. unfold on_cache. destruct (op (cache (deref s loc))) as [c a] eqn:E. simpl. split.
  - exists []. by rewrite app_nil_r.
  - exists (cache (deref s loc)). by rewrite E.
Qed.

Lemma emits_get P name : emits P (registry_get name) (fun _ => True).
Proof. apply emits_quiet. intros s. unfold registry_get. by case_match. Qed.
Lemma emits_now P e : emits P (now e) (fun _ => True).
Proof. by apply emits_quiet. Qed.
Lemma emits_entries P name loc : emits P (recordCacheEntries name loc) (fun _ => True).
Proof. by apply emits_quiet. Qed.
Lemma emits_queue P c : emits P (queue_call c) (fun _ => True).
Proof. by apply emits_quiet. Qed.
Lemma emits_remember P loc k r : emits P (remember_closeOut loc k r) (fun _ => True).
Proof. by apply emits_quiet. Qed.
Lemma emits_mark P name scope : emits P (MarkScopeWarm name scope) (fun _ => True).
Proof.
  unfold MarkScopeWarm, registry_markScopeWarm. eapply emits_bind; [apply emits_get|]. intros loc _.
  by apply emits_quiet.
Qed.

Lemma emits_enqueueCloseOut P key loc writer okey r :
  P (k_Sink key, mkJob r (CommitCloseOut key loc okey r)) ->
  emits P (enqueueCloseOut key loc writer okey r) (fun _ => True).
Proof.
  intros HP. unfold enqueueCloseOut. eapply emits_bind; [by apply emits_Enqueue|]. intros [err|] _.
  - eapply emits_bind; [apply emits_remember|]. intros _ _. apply emits_queue.
  - by apply emits_ret.
Qed.

(** A claim's entry carries the expected UID, when one is expected. *)
Lemma ReserveDelete_uid k uid c entry v :
  (ReserveDelete k uid c).2 = (entry, v, deleteClaimed) -> uid = "" \/ UID entry = uid.
Proof.
  unfold ReserveDelete. destruct (c !! k) as [cur|]; [|done]. destruct (PendingDelete cur); [done|].
  destruct (String.eqb uid "") eqn:E; simpl; [bools; by left|].
  destruct (String.eqb (UID cur) uid) eqn:E2; simpl; [|done]. bools. intros [= <- _]. by right.
Qed.

Lemma emits_emitDelete (P : string * Job -> Prop) e key loc writer uid :
  (forall ts entry v, uid = "" \/ UID entry = uid ->
     P (k_Sink key, mkJob (deletedRecord e ts key entry) (CommitDelete key loc (cacheKey key) v))) ->
  emits P (emitDelete e key loc writer uid) (fun _ => True).
Proof.
  intros HP. unfold emitDelete. eapply emits_bind; [apply emits_on_cache|]. intros [[entry v] outcome] [c Hc].
  destruct outcome; try by apply emits_ret.
  symmetry in Hc. apply ReserveDelete_uid in Hc.
  eapply emits_bind; [apply emits_now|]. intros ts _.
  eapply emits_bind; [apply emits_Enqueue, HP, Hc|]. intros [err|] _; [|by apply emits_ret].
  eapply emits_bind; [apply emits_on_cache|]. intros _ _. by apply emits_ret.
Qed.

Lemma emits_retry {A} P (op : warmEnv -> M (A + failure)) attempts (Q : A -> Prop) :
  (forall we, we ∈ attempts -> emits P (op we) (fun r => match r with inl a => Q a | inr _ => True end)) ->
  emits P (retry op attempts) (fun r => match r with Ok a => Q a | Err _ => True end).
Proof.
  intros H. induction attempts as [|we attempts IH]; simpl; [by apply emits_ret|].
  eapply emits_bind; [apply H; by left|]. intros [a|[err|err]] Ha; [by apply emits_ret| |by apply emits_ret].
  apply IH. intros we' Hwe. apply H. by right.
Qed.

(** ** Justification *)

(** [states] was read from the sink's history at one of the attempts. *)
Definition read_history (envs : list warmEnv) (ref : scopeRef) (states : list KnownState) : Prop :=
  exists we reader, we ∈ envs /\ StateReaderFor we (sr_sink ref) = Some reader /\
    LastKnownStates reader (ref_filter ref (clusterID (we_env we))) = Ok states.

Definition prior_known (envs : list warmEnv) (ref : scopeRef) (prior : reincarnation) : Prop :=
  exists states st, read_history envs ref states /\ superseded states st /\ prior = prior_of_state st.

Definition target_known (envs : list warmEnv) (ref : scopeRef) (target : gcTarget) : Prop :=
  exists states st, read_history envs ref states /\ st ∈ states /\ target = target_of_state st.

(** A close-out of an incarnation the history shows superseded, dated by it. *)
Definition closeOut_row (envs : list warmEnv) (ref : scopeRef) (r : Record_) : Prop :=
  exists prior cluster, prior_known envs ref prior /\
    r = closeOutRecord prior cluster (ref_key ref (ri_namespace prior) (ri_name prior)).

(** A deletion of an incarnation the history knows and the watch cache, with the
    scope active, does not hold. *)
Definition zombie_row `{UnstructuredAPI} (seeds gcs : list warmEnv) (ref : scopeRef) (r : Record_) : Prop :=
  exists we target obj ts entry,
    let key := ref_key ref (gt_namespace target) (gt_name target) in
    we ∈ gcs /\ target_known seeds ref target /\ lister (we_env we) key = Ok (obj, true) /\
    GetUID <$> obj <> Some (gt_uid target) /\ r = deletedRecord (we_env we) ts key entry /\
    (gt_uid target = "" \/ UID entry = gt_uid target).

Lemma readerFor_inl we name reader : readerFor we name = inl reader -> StateReaderFor we name = Some reader.
Proof. unfold readerFor. repeat case_match; congruence. Qed.

Lemma emits_seed_groups P ref loc states groups :
  (forall g, g ∈ groups -> g ∈ groupByIdentity states) ->
  emits P (seed_groups ref loc groups) (fun r =>
    (forall t, t ∈ r.1 -> exists st, st ∈ states /\ t = target_of_state st) /\
    (forall p, p ∈ r.2 -> exists st, superseded states st /\ p = prior_of_state st)).
Proof.
  induction groups as [|g groups IH]; intros Hg; simpl.
  - apply emits_ret. split; intros x Hx; by apply elem_of_nil in Hx.
  - assert (Hrest : forall g', g' ∈ groups -> g' ∈ groupByIdentity states) by (intros; apply Hg; by right).
    destruct (splitIncarnations g) as [[cur u]|] eqn:Hs; [|by apply IH].
    eapply emits_bind; [apply emits_on_cache|]. intros _ _.
    eapply emits_bind; [by apply IH|]. intros r [H1 H2]. apply emits_ret. simpl.
    destruct (split_superseded states g cur u (Hg _ ltac:(by left)) Hs) as [Hc Hu].
    pose proof Hs as (_ & _ & Eu)%split_spec. split.
    + intros t [->|Ht]%elem_of_cons; [by exists cur|by apply H1].
    + intros p [(st & -> & Hst)%list_elem_of_fmap|Hp]%elem_of_app; [|by apply H2]. rewrite Eu in Hst.
      apply list_elem_of_filter in Hst as [Hne Hst]. exists st. split; [by apply Hu|done].
Qed.

Lemma emits_seedScope P attempts ref :
  emits P (seedScope attempts ref) (fun r => match r with
    | Ok (seeded, priors) => (forall t, t ∈ seeded -> target_known attempts ref t) /\
                             (forall p, p ∈ priors -> prior_known attempts ref p)
    | Err _ => True end).
Proof.
  eapply emits_weaken with (Q := fun r => match r with
    | Ok a => (forall t, t ∈ a.1 -> target_known attempts ref t) /\
              (forall p, p ∈ a.2 -> prior_known attempts ref p)
    | Err _ => True end); [done|by intros [[]|]|].
  apply emits_retry. intros we Hwe. unfold seed_attempt.
  destruct (readerFor we (sr_sink ref)) as [reader|f] eqn:Hr; [|by apply emits_ret].
  destruct (LastKnownStates reader _) as [states|err] eqn:Hst; [|by apply emits_ret].
  assert (Hread : read_history attempts ref states).
  { exists we, reader. split; [done|]. split; [by apply readerFor_inl|done]. }
  eapply emits_bind; [apply emits_get|]. intros loc _.
  eapply emits_bind; [by apply (emits_seed_groups P ref loc states)|]. intros r [H1 H2].
  eapply emits_bind; [apply emits_entries|]. intros _ _. apply emits_ret. split.
  - intros t (st & Hin & ->)%H1. by exists states, st.
  - intros p (st & Hin & ->)%H2. by exists states, st.
Qed.

Lemma emits_closeOuts (P : string * Job -> Prop) attempts ref priors :
  (forall prior cluster commit, prior ∈ priors ->
     P (sr_sink ref, mkJob (closeOutRecord prior cluster
          (ref_key ref (ri_namespace prior) (ri_name prior))) commit)) ->
  emits P (emitCloseOuts attempts ref priors) (fun _ => True).
Proof.
  intros HP. unfold emitCloseOuts. destruct priors as [|p0 ps]; [by apply emits_ret|].
  eapply emits_bind; [|intros r _; by apply emits_ret]. 
  eapply emits_weaken with (Q := fun r => match r with Ok _ => True | Err _ => True end); [done|exact (fun _ _ => I)|].
  apply (emits_retry P (fun we => closeOut_attempt we ref (p0 :: ps)) attempts (fun _ => True)).
  intros we _. unfold closeOut_attempt. destruct (router (we_env we) (sr_sink ref)) as [writer|];
    [|by apply emits_ret].
  eapply emits_bind; [apply emits_get|]. intros loc _.
  eapply emits_bind with (Q := fun _ => True); [|intros err _; apply emits_ret; by destruct err].
  generalize O. revert HP. generalize (p0 :: ps). intros l.
  induction l as [|p l IH]; intros HP n; simpl; [by apply emits_ret|].
  destruct (ctxErr we n); [by apply emits_ret|].
  eapply emits_bind; [|intros _ _; apply IH; intros; apply HP; by right].
  apply emits_enqueueCloseOut. simpl. apply HP. by left.
Qed.

Section justified.
Context `{U : UnstructuredAPI}.

Lemma emits_gc (P : string * Job -> Prop) attempts ref seeded :
  (forall we target obj ts entry commit,
     let key := ref_key ref (gt_namespace target) (gt_name target) in
     we ∈ attempts -> target ∈ seeded -> lister (we_env we) key = Ok (obj, true) ->
     GetUID <$> obj <> Some (gt_uid target) -> gt_uid target = "" \/ UID entry = gt_uid target ->
     P (sr_sink ref, mkJob (deletedRecord (we_env we) ts key entry) commit)) ->
  emits P (collectZombies attempts ref seeded) (fun _ => True).
Proof.
  intros HP. unfold collectZombies. generalize (mkGcResult 0 []).
  induction attempts as [|we attempts IH]; intros last; simpl; [by apply emits_ret|].
  eapply emits_bind with (Q := fun _ => True); last first.
  { intros [result [[err|err]|]] _; [|by apply emits_ret|by apply emits_ret].
    apply IH. intros we' target obj ts entry commit key Hwe. apply HP. by right. }
  unfold gcPass. destruct (router (we_env we) (sr_sink ref)) as [writer|]; [|by apply emits_ret].
  eapply emits_bind; [apply emits_get|]. intros loc _.
  assert (Hloop : forall l n result, (forall t, t ∈ l -> t ∈ seeded) ->
    emits P (gc_loop we ref loc writer n l result) (fun _ => True)); [|by apply Hloop].
  induction l as [|t l IHl]; intros n result Hsub; simpl; [by apply emits_ret|].
  assert (Hl : forall t', t' ∈ l -> t' ∈ seeded) by (intros; apply Hsub; by right).
  destruct (ctxErr we n); [by apply emits_ret|].
  eapply emits_bind with (Q := fun _ => True); last first.
  { intros [f| | |re] _; [by apply emits_ret|by apply IHl..]. }
  unfold gc_target. destruct (lister (we_env we) _) as [[obj active]|err] eqn:Hg; [|by apply emits_ret].
  destruct active; simpl; [|by apply emits_ret]. case_bool_decide as Hu; [by apply emits_ret|].
  eapply emits_bind with (Q := fun _ => True); [apply emits_emitDelete|].
  2: { intros [[] [err|]] _; exact (emits_ret _ _ _ I). }
  intros ts entry v Hentry. apply (HP we t obj ts entry _); [by left|apply Hsub; by left|done..].
Qed.

Lemma classify_found rows current pending waiting found :
  classify_pending rows current pending = (waiting, found) ->
  forall p, p ∈ found -> exists t row, rows !! t = Some row /\ p = prior_of_state row /\
    default "" (current !! mkIdentity (gt_namespace t) (gt_name t)) <> gt_uid t.
Proof.
  revert waiting found. induction pending as [|t pending IH]; intros waiting found; simpl.
  - intros [= <- <-] p Hp. by apply elem_of_nil in Hp.
  - destruct (classify_pending rows current pending) as [w f]. specialize (IH w f eq_refl).
    destruct (rows !! t) as [row|] eqn:Hrow; [|by intros [= <- <-]].
    case_bool_decide; intros [= <- <-]; [done|]. intros p [->|Hp]%elem_of_cons; [|by apply IH].
    by exists t, row.
Qed.

Lemma emits_recover (P : string * Job -> Prop) attempts ref refused :
  (forall prior cluster commit, prior_known (map fst attempts) ref prior ->
     P (sr_sink ref, mkJob (closeOutRecord prior cluster
          (ref_key ref (ri_namespace prior) (ri_name prior))) commit)) ->
  emits P (recoverRefusedReincarnations attempts ref refused) (fun _ => True).
Proof.
  intros HP. unfold recoverRefusedReincarnations. destruct refused as [|t0 ts]; [by apply emits_ret|].
  generalize (elements (list_to_set (t0 :: ts) : gset gcTarget)), O.
  induction attempts as [|[we inner] attempts IH]; intros pending recovered; simpl; [by apply emits_ret|].
  assert (IH' : forall pending recovered,
    emits P (recover_loop attempts ref pending recovered) (fun _ => True)).
  { apply IH. intros prior cluster commit (states & st & (w & reader & Hw & H) & Hst). apply HP.
    exists states, st. split; [|done]. exists w, reader. split; [by right|done]. }
  destruct (readerFor we (sr_sink ref)) as [reader|[err|err]] eqn:Hr; [|apply IH'|by apply emits_ret].
  destruct (LastKnownStates reader _) as [states|err] eqn:Hst; [|apply IH'].
  destruct (indexIncarnations states) as [rows current] eqn:Hix.
  destruct (classify_pending rows current pending) as [waiting found] eqn:Hcl.
  eapply emits_bind with (Q := fun _ => True); last first.
  { intros n _. destruct waiting; [by apply emits_ret|apply IH']. }
  apply emits_closeOuts. intros prior cluster commit Hp. apply HP.
  destruct (classify_found _ _ _ _ _ Hcl _ Hp) as (t & row & Hrow & -> & Hne).
  exists states, row. split; [|split; [|done]].
  - exists we, reader. split; [by left|]. split; [by apply readerFor_inl|done].
  - apply (index_superseded states t); by rewrite Hix.
Qed.
End justified.

(** ** Seeding *)

(** The cache after the loop over [groups]. *)
Fixpoint seed_cache (ref : scopeRef) (groups : list (list KnownState)) (c : hashCache) : hashCache :=
  match groups with
  | [] => c
  | group :: rest =>
      match splitIncarnations group with
      | None => seed_cache ref rest c
      | Some (current, _) =>
          seed_cache ref rest
            (StoreIfAbsent (cacheKey (ref_key ref (ks_Namespace current) (ks_Name current))) (seed_entry current) c)
      end
  end.

Lemma seed_groups_state ref loc groups s :
  let s' := (seed_groups ref loc groups s).1 in
  states s' = states s /\ sent s' = sent s /\ (forall l, l <> loc -> deref s' l = deref s l) /\
  cache (deref s' loc) = seed_cache ref groups (cache (deref s loc)).
Proof.
  cbv zeta. revert s. induction groups as [|g groups IH]; intros s; [by split_and!|]. cbn [seed_groups seed_cache].
  destruct (splitIncarnations g) as [[cur u]|]; [|apply IH].
  unfold mbind, M_bind. set (k := cacheKey _).
  set (s1 := store loc (set_cache (StoreIfAbsent k (seed_entry cur) (cache (deref s loc))) (deref s loc)) s).
  change (on_cache loc (fun c => (StoreIfAbsent k (seed_entry cur) c, tt)) s) with (s1, tt).
  cbv beta iota. specialize (IH s1). destruct (seed_groups ref loc groups s1) as [s2 r].
  cbn [fst] in *. destruct IH as (H1 & H2 & H3 & H4).
  unfold mret, M_ret. cbn [fst]. split; [by rewrite H1|]. split; [by rewrite H2|]. split.
  - intros l Hl. rewrite (H3 l Hl). by apply deref_store_ne.
  - rewrite H4. unfold s1. by rewrite deref_store_eq.
Qed.

Lemma StoreIfAbsent_lookup k entry c k' :
  StoreIfAbsent k entry c !! k' =
  match c !! k' with Some e => Some e | None => if decide (k = k') then Some (set_Version 1 entry) else None end.
Proof.
  unfold StoreIfAbsent. destruct (c !! k) as [e|] eqn:Hk.
  - destruct (c !! k') eqn:Hk'; [done|]. case_decide; congruence.
  - rewrite lookup_insert. case_decide; [subst; by rewrite Hk|by destruct (c !! k')].
Qed.

Lemma seed_cache_keeps ref groups c k e : c !! k = Some e -> seed_cache ref groups c !! k = Some e.
Proof.
  revert c. induction groups as [|g groups IH]; intros c Hk; simpl; [done|].
  destruct (splitIncarnations g) as [[cur u]|]; [|by apply IH]. apply IH. by rewrite StoreIfAbsent_lookup, Hk.
Qed.

Definition seeds (ref : scopeRef) (groups : list (list KnownState)) (k : string) (e : CacheEntry) : Prop :=
  exists g cur u, g ∈ groups /\ splitIncarnations g = Some (cur, u) /\
    k = cacheKey (ref_key ref (ks_Namespace cur) (ks_Name cur)) /\ e = set_Version 1 (seed_entry cur).

Lemma seed_cache_new ref groups c k e :
  seed_cache ref groups c !! k = Some e -> c !! k = Some e \/ seeds ref groups k e.
Proof.
  revert c. induction groups as [|g groups IH]; intros c; simpl; [by left|].
  assert (Hmore : seeds ref groups k e -> seeds ref (g :: groups) k e).
  { intros (g' & cur & u & Hg & H). exists g', cur, u. split; [by right|done]. }
  destruct (splitIncarnations g) as [[cur u]|] eqn:Hs; intros [H|H]%IH; auto.
  rewrite StoreIfAbsent_lookup in H. destruct (c !! k); [by left|]. case_decide as E; [|done].
  injection H as <-. right. exists g, cur, u. split; [by left|done].
Qed.

Lemma seed_cache_covers ref groups c g cur u :
  g ∈ groups -> splitIncarnations g = Some (cur, u) ->
  is_Some (seed_cache ref groups c !! cacheKey (ref_key ref (ks_Namespace cur) (ks_Name cur))).
Proof.
  revert c. induction groups as [|g' groups IH]; intros c Hg Hs; [by apply elem_of_nil in Hg|].
  simpl. apply elem_of_cons in Hg as [<-|Hg]; [rewrite Hs|destruct (splitIncarnations g') as [[]|]; by apply IH].
  set (k := cacheKey _). destruct (StoreIfAbsent k (seed_entry cur) c !! k) as [e|] eqn:He.
  - exists e. by apply seed_cache_keeps.
  - rewrite StoreIfAbsent_lookup in He. destruct (c !! k); [done|]. by rewrite decide_True in He.
Qed.

(** ** Boot reconciliation *)

Definition filter_scope (f : ScopeFilter) : ScopeKey :=
  mkScopeKey (sf_APIGroup f) (sf_Kind f) (sf_Namespace f).

Definition orphans (we : warmEnv) (sinkName : string) (open : list ScopeFilter) : list ScopeFilter :=
  filter (fun f => we_Desired we sinkName (filter_scope f) = false) open.

Lemma close_scopes_spec we sinkName enqueue n open :
  let '(events, err) := close_scopes we sinkName enqueue n open in
  Forall (fun ev => se_Action ev = ScopeActionStopped /\ se_RuleRef ev = "" /\ enqueue ev = None) events /\
  (map se_Scope events) `prefix_of` orphans we sinkName open /\
  (err = None -> map se_Scope events = orphans we sinkName open).
Proof.
  revert n. induction open as [|f open IH]; intros n; simpl.
  - split; [constructor|]. split; [apply prefix_nil|done].
  - unfold orphans in *. rewrite filter_cons. fold (filter_scope f).
    destruct (we_Desired we sinkName (filter_scope f)) eqn:Hd; [apply IH|].
    rewrite decide_True by done.
    destruct (enqueue _) as [err|] eqn:He; [split; [constructor|]; split; [apply prefix_nil|done]|].
    specialize (IH (S n)). destruct (close_scopes we sinkName enqueue (S n) open) as [events err].
    destruct IH as (H1 & H2 & H3). split; [by constructor|]. simpl. split; [by apply prefix_cons|].
    intros Herr. by rewrite H3.
Qed.

(** ** The coordinator *)

Inductive coordOp :=
| OpWarmScope (target : WarmTarget)
| OpStopScope (sinkName : string) (scope : ScopeKey)
| OpForgetSink (name : string)
| OpStart
| OpStop.

Definition run_coordOp (op : coordOp) (c : WarmCoordinator) : WarmCoordinator * list coordCall :=
  match op with
  | OpWarmScope t => WarmScope t c
  | OpStopScope n s => StopScope n s c
  | OpForgetSink n => ForgetSink n c
  | OpStart => coordinator_Start c
  | OpStop => coordinator_Stop c
  end.

Definition run_coordinator (ops : list coordOp) : WarmCoordinator * list coordCall :=
  foldl (fun acc op => let '(c, calls) := run_coordOp op acc.1 in (c, acc.2 ++ calls)) (NewWarmCoordinator, []) ops.

(** The warms in flight, by scope; [None] when a call does not fit: a launch over
    a warm in flight, or the cancellation of another one. *)
Definition flight_step (m : option (gmap scopeRef Z)) (call : coordCall) : option (gmap scopeRef Z) :=
  match m, call with
  | Some m, Launch ref epoch => match m !! ref with None => Some (<[ref := epoch]> m) | Some _ => None end
  | Some m, Cancel ref epoch => if decide (m !! ref = Some epoch) then Some (delete ref m) else None
  | None, _ => None
  end.

Definition flights (m : gmap scopeRef Z) (calls : list coordCall) : option (gmap scopeRef Z) :=
  foldl flight_step (Some m) calls.

Lemma flights_app m calls calls' :
  flights m (calls ++ calls') = match flights m calls with Some m' => flights m' calls' | None => None end.
Proof.
  unfold flights. rewrite foldl_app. destruct (foldl flight_step (Some m) calls); [done|].
  by induction calls' as [|? ? IH].
Qed.

Lemma startLocked_flights t c : flights (runs c) (startLocked t c).2 = Some (runs (startLocked t c).1).
Proof.
  unfold startLocked, flights. destruct (runs c !! _) as [epoch|] eqn:Hr; simpl; [|by rewrite Hr].
  destruct (negb _); simpl; [done|]. rewrite decide_True by done. simpl.
  rewrite lookup_delete_eq. by rewrite insert_delete_eq.
Qed.

Lemma cancel_all_flights (l : list (scopeRef * Z)) m :
  NoDup l.*1 -> (forall kv, kv ∈ l -> m !! kv.1 = Some kv.2) ->
  flights m (map (fun kv => Cancel kv.1 kv.2) l) = Some (foldl (fun m kv => delete kv.1 m) m l).
Proof.
  revert m. induction l as [|[ref epoch] l IH]; intros m Hnd Hm; [done|].
  rewrite fmap_cons, NoDup_cons in Hnd. destruct Hnd as [Hn Hnd]. unfold flights. simpl.
  rewrite decide_True by (apply (Hm (ref, epoch)); by left). apply IH; [done|].
  intros kv Hkv. rewrite lookup_delete_ne; [apply Hm; by right|]. intros ->.
  apply Hn. apply list_elem_of_fmap. by exists kv.
Qed.

Lemma delete_all_lookup (l : list (scopeRef * Z)) (m : gmap scopeRef Z) k :
  foldl (fun m kv => delete kv.1 m) m l !! k = if decide (k ∈ l.*1) then None else m !! k.
Proof.
  revert m. induction l as [|[ref epoch] l IH]; intros m; [done|]. rewrite fmap_cons. cbn [foldl fst].
  rewrite IH. destruct (decide (ref = k)) as [->|Hne].
  - rewrite lookup_delete_eq. destruct (decide (k ∈ k :: l.*1)) as [|Hn]; [by case_decide|].
    destruct Hn. by left.
  - rewrite lookup_delete_ne by done. apply decide_ext. rewrite elem_of_cons. naive_solver.
Qed.

Lemma coordOp_flights op c : flights (runs c) (run_coordOp op c).2 = Some (runs (run_coordOp op c).1).
Proof.
  assert (Hsel : forall P `{forall kv : scopeRef * Z, Decision (P kv)},
    flights (runs c) (map (fun kv => Cancel kv.1 kv.2) (map_to_list (filter P (runs c)))) =
    Some (filter (fun kv => ~ P kv) (runs c))).
  { intros P HP. rewrite cancel_all_flights.
    - f_equal. apply map_eq. intros k. rewrite delete_all_lookup, map_lookup_filter.
      destruct (runs c !! k) as [z|] eqn:Hk; simpl; [|by case_decide].
      destruct (decide (P (k, z))) as [Hp|Hp].
      + rewrite option_guard_False by (intros Hn; exact (Hn Hp)). rewrite decide_True; [done|].
        apply list_elem_of_fmap. exists (k, z). split; [done|]. apply elem_of_map_to_list.
        by apply map_lookup_filter_Some.
      + rewrite option_guard_True by done. rewrite decide_False; [done|].
        intros ([k' z'] & -> & Hin)%list_elem_of_fmap. apply elem_of_map_to_list in Hin.
        apply map_lookup_filter_Some in Hin as [Hin Hp']. simpl in *. by simplify_eq.
    - apply NoDup_fst_map_to_list.
    - intros [k z] Hin%elem_of_map_to_list. by apply map_lookup_filter_Some in Hin as [? _]. }
  destruct op as [t|n sc|n| |]; simpl.
  - unfold WarmScope. destruct (c_stopped c); [done|]. destruct (c_started c); [apply startLocked_flights|done].
  - unfold StopScope. destruct (runs c !! _) as [epoch|] eqn:Hr; simpl; [|done].
    unfold flights. simpl. by rewrite decide_True.
  - exact (Hsel (fun kv => sr_sink kv.1 = n) _).
  - unfold coordinator_Start. set (c0 := mkCoordinator true [] (runs c) (bootDone c) (c_stopped c)).
    assert (H : forall l acc, flights (runs c) acc.2 = Some (runs acc.1) ->
      flights (runs c) (foldl (fun acc t => let '(c', calls) := startLocked t acc.1 in (c', acc.2 ++ calls)) acc l).2 =
      Some (runs (foldl (fun acc t => let '(c', calls) := startLocked t acc.1 in (c', acc.2 ++ calls)) acc l).1)).
    { induction l as [|t l IH]; intros acc Hacc; simpl; [done|]. apply IH.
      pose proof (startLocked_flights t acc.1) as Hs. destruct (startLocked t acc.1) as [c' calls]. simpl in *.
      by rewrite flights_app, Hacc. }
    by apply H.
  - pose proof (Hsel (fun _ => True) _) as H. rewrite (map_filter_id (fun _ => True)) in H by done. rewrite H.
    f_equal. apply map_empty. intros k. apply map_lookup_filter_None. right. intros z _. tauto.
Qed.

(** ** Properties *)

(** The scope log confirmed a previous open epoch at one of the attempts. *)
Definition was_active (envs : list warmEnv) (ref : scopeRef) (epochStart : Z) : Prop :=
  exists we reader, we ∈ envs /\ StateReaderFor we (sr_sink ref) = Some reader /\
    ScopeWasActive reader (ref_filter ref (clusterID (we_env we))) epochStart = Ok true.

Definition synced (envs : list warmEnv) (ref : scopeRef) : Prop :=
  exists we, we ∈ envs /\ we_Synced we (sr_sink ref) (sr_scope ref) = true.

Lemma awaitScopeSync_true polls ref : awaitScopeSync polls ref = true -> synced polls ref.
Proof.
  induction polls as [|we polls IH]; simpl; [done|].
  destruct (we_Synced we (sr_sink ref) (sr_scope ref)) eqn:Hs; [exists we; split; [by left|done]|].
  destruct (we_Desired we (sr_sink ref) (sr_scope ref)); simpl; [|done].
  intros (we' & Hin & H)%IH. exists we'. split; [by right|done].
Qed.

Lemma emits_scopeWasActive P attempts ref epochStart :
  emits P (scopeWasActive attempts ref epochStart)
    (fun r => r = Ok true -> was_active attempts ref epochStart).
Proof.
  eapply emits_weaken with (Q := fun r => match r with
    | Ok a => a = true -> was_active attempts ref epochStart | Err _ => True end);
    [done|intros [a|] H E; [apply H; congruence|done]|].
  apply emits_retry. intros we Hwe. unfold active_attempt.
  destruct (readerFor we (sr_sink ref)) as [reader|f] eqn:Hr; [|by apply emits_ret].
  destruct (ScopeWasActive reader _ epochStart) as [a|err] eqn:Ha; [|by apply emits_ret].
  apply emits_ret. intros ->. exists we, reader. split; [done|]. split; [by apply readerFor_inl|done].
Qed.

Section properties.
Context `{U : UnstructuredAPI}.

(** What justifies a row of a warm. *)
Definition justified (plan : warmPlan) (ref : scopeRef) (epochStart : Z) (nj : string * Job) : Prop :=
  nj.1 = sr_sink ref /\ scope_ephemeral (sr_scope ref) = false /\ was_active (wp_epoch plan) ref epochStart /\
  (closeOut_row (wp_seed plan ++ map fst (wp_recover plan)) ref (j_Record nj.2) \/
   (synced (wp_sync plan) ref /\ zombie_row (wp_seed plan) (wp_gc plan) ref (j_Record nj.2))).

Lemma prior_known_mono envs envs' ref prior :
  (forall we, we ∈ envs -> we ∈ envs') -> prior_known envs ref prior -> prior_known envs' ref prior.
Proof.
  intros Hsub (states & st & (we & reader & Hwe & H) & Hst). exists states, st. split; [|done].
  exists we, reader. split; [by apply Hsub|done].
Qed.

(** C5. No fabricated deletions: whatever the outside does during a warm, every
    row it hands to a sink is a Deleted row of its own scope, never of an Events
    scope, written only after the scope log confirmed that a previous epoch was
    left open, and it is either the close-out of an incarnation that the sink's
    history shows superseded by another of the same name, dated by that history,
    or the deletion of an incarnation that the history knows and that the synced
    watch cache, with the scope active, does not hold under that UID. *)
Theorem warm_no_fabricated_deletions (plan : warmPlan) (ref : scopeRef) (epochStart : Z) (s : pstate) :
  exists new, sent (warm_scope plan ref epochStart s).1 = sent s ++ new /\
    Forall (justified plan ref epochStart) new.
Proof.
  cut (emits (justified plan ref epochStart) (warm_scope plan ref epochStart) (fun _ => True)).
  { intros H. by destruct (H s) as [H1 _]. }
  unfold warm_scope. eapply emits_bind; [apply emits_seedScope|].
  intros [[seeded priors]|err]; [|intros _; by apply emits_ret]. intros [Ht Hp].
  eapply emits_bind; [apply emits_mark|]. intros _ _.
  destruct (scope_ephemeral (sr_scope ref)) eqn:He; [by apply emits_ret|].
  destruct (bool_decide (seeded = []) && bool_decide (priors = [])); [by apply emits_ret|].
  destruct (negb (bool_decide (seeded = [])) && negb (awaitScopeSync (wp_sync plan) ref)) eqn:Hsync;
    [by apply emits_ret|].
  eapply emits_bind; [apply emits_scopeWasActive|]. intros [[|]|err] Ha; try by apply emits_ret.
  specialize (Ha eq_refl).
  assert (Hclose : forall envs prior cluster key commit,
    (forall we, we ∈ envs -> we ∈ wp_seed plan ++ map fst (wp_recover plan)) -> prior_known envs ref prior ->
    key = ref_key ref (ri_namespace prior) (ri_name prior) ->
    justified plan ref epochStart (sr_sink ref, mkJob (closeOutRecord prior cluster key) commit)).
  { intros envs prior cluster key commit Hsub Hk ->. split_and!; try done. left. exists prior, cluster.
    split; [|done]. by apply (prior_known_mono envs). }
  eapply emits_bind.
  { apply emits_closeOuts. intros prior cluster commit Hin. eapply (Hclose (wp_seed plan)); [|by apply Hp|done].
    intros we Hwe. apply elem_of_app. by left. }
  intros _ _. case_bool_decide as Hnil; [by apply emits_ret|].
  simpl in Hsync. apply negb_false_iff, awaitScopeSync_true in Hsync.
  eapply emits_bind.
  { apply emits_gc. intros we target obj ts entry commit key Hwe Hin Hl Hu Hent. split_and!; try done.
    right. split; [done|]. exists we, target, obj, ts, entry. split_and!; try done. by apply Ht. }
  intros pass _. eapply emits_bind; [|intros _ _; by apply emits_ret].
  apply emits_recover. intros prior cluster commit Hk. eapply (Hclose (map fst (wp_recover plan))); [|done|done].
  intros we Hwe. apply elem_of_app. by right.
Qed.
End properties.

(** One row per incarnation. *)
Lemma bucket_uid states id :
  NoDup (map target_of_state states) ->
  forall a b, a ∈ bucket states id -> b ∈ bucket states id -> ks_UID a = ks_UID b -> a = b.
Proof.
  intros Hnd a b [Ha1 Ha2]%elem_of_bucket [Hb1 Hb2]%elem_of_bucket E.
  assert (Ht : target_of_state a = target_of_state b).
  { unfold state_identity in *. unfold target_of_state. congruence. }
  apply list_elem_of_lookup in Ha2 as [i Hi], Hb2 as [j Hj].
  assert (i = j) as ->; [|congruence]. apply (NoDup_lookup _ _ _ (target_of_state a) Hnd).
  - by rewrite list_lookup_fmap, Hi.
  - rewrite list_lookup_fmap, Hj. simpl. by rewrite Ht.
Qed.

(** Classification is a function of the history: in whatever order the sink
    returns the rows, every identity gets one group, the same current incarnation
    and the same unclosed priors, which are all its other rows; and no prior is
    dated after the current incarnation, so a close-out never hides its
    successor. The query returns one row per incarnation. *)
Lemma classification_order_independent (states states' : list KnownState) (id : identity) :
  states ≡ₚ states' -> NoDup (map target_of_state states) -> bucket states id <> [] ->
  exists current unclosed unclosed',
    bucket states id ∈ groupByIdentity states /\ bucket states' id ∈ groupByIdentity states' /\
    splitIncarnations (bucket states id) = Some (current, unclosed) /\
    splitIncarnations (bucket states' id) = Some (current, unclosed') /\
    unclosed ≡ₚ unclosed' /\ bucket states id ≡ₚ current :: unclosed /\
    forall prior, prior ∈ unclosed -> (ks_TS prior <= ks_TS current)%Z /\ ks_UID prior <> ks_UID current.
Proof.
  intros Hperm Hnd Hne.
  assert (Hb : bucket states id ≡ₚ bucket states' id) by (unfold bucket; by rewrite Hperm).
  assert (Hne' : bucket states' id <> []) by (intros E; rewrite E in Hb; symmetry in Hb; by apply Permutation_nil in Hb).
  pose proof (bucket_uid states id Hnd) as Huid.
  destruct (bucket states id) as [|f1 r1] eqn:E1; [done|]. rewrite <- E1 in *.
  destruct (bucket states' id) as [|f2 r2] eqn:E2; [done|]. rewrite <- E2 in *.
  destruct (splitIncarnations (bucket states id)) as [[c1 u1]|] eqn:S1; [|by rewrite E1 in S1].
  destruct (splitIncarnations (bucket states' id)) as [[c2 u2]|] eqn:S2; [|by rewrite E2 in S2].
  apply split_spec in S1 as (I1 & M1 & ->), S2 as (I2 & M2 & ->).
  assert (c1 = c2) as <-.
  { rewrite <- Hb in I2. apply Huid; [done|done|].
    pose proof (M2 c1 ltac:(by rewrite <- Hb)) as H1. pose proof (M1 c2 I2) as H2.
    apply newer_false in H1, H2. destruct H1 as [H1|[Q1 H1]], H2 as [H2|[Q2 H2]]; try lia.
    by apply (anti_symm String.le). }
  exists c1, (filter (fun s => ks_UID s <> ks_UID c1) (bucket states id)),
    (filter (fun s => ks_UID s <> ks_UID c1) (bucket states' id)).
  split_and!; try done.
  - apply elem_of_groups. by exists id.
  - apply elem_of_groups. by exists id.
  - by rewrite Hb.
  - assert (Hnd' : NoDup (bucket states id)) by (apply NoDup_filter; by apply (NoDup_fmap_1 target_of_state)).
    apply NoDup_Permutation; [done| |].
    + apply NoDup_cons. split; [|by apply NoDup_filter]. by intros [? _]%list_elem_of_filter.
    + intros x. rewrite elem_of_cons, list_elem_of_filter. split.
      * intros Hx. destruct (decide (ks_UID x = ks_UID c1)) as [E|E]; [left; by apply Huid|by right].
      * by intros [->|[_ ?]].
  - intros prior [Hp Hin]%list_elem_of_filter. split; [|done]. by apply newer_false_ts, M1.
Qed.

(** Seeding never overwrites live state and forgets nothing: after a
    successful attempt every entry the sink's cache held is unchanged, every entry
    it gained is the hash and UID of the current incarnation of an identity of the
    history just read, every identity of that history has an entry, and no other
    sink's state changed and no row was written. *)
Lemma seeding_preserves_live (we : warmEnv) (ref : scopeRef) (s : pstate)
    (r : list gcTarget * list reincarnation) :
  registry_ok s -> (seed_attempt we ref s).2 = inl r ->
  let s' := (seed_attempt we ref s).1 in
  let before := cache (view s (sr_sink ref)) in
  let after := cache (view s' (sr_sink ref)) in
  (forall k e, before !! k = Some e -> after !! k = Some e) /\
  (exists states, read_history [we] ref states /\
     (forall k e, after !! k = Some e -> before !! k = Some e \/
        exists current, current ∈ states /\
          (forall st, st ∈ states -> state_identity st = state_identity current -> newer st current = false) /\
          k = cacheKey (ref_key ref (ks_Namespace current) (ks_Name current)) /\
          e = set_Version 1 (seed_entry current)) /\
     (forall st, st ∈ states -> is_Some (after !! cacheKey (ref_key ref (ks_Namespace st) (ks_Name st))))) /\
  (forall name, name <> sr_sink ref -> view s' name = view s name) /\ sent s' = sent s.
Proof.
  intros Hreg. unfold seed_attempt. destruct (readerFor we (sr_sink ref)) as [reader|f] eqn:Hr; [|done].
  destruct (LastKnownStates reader _) as [sts|err] eqn:Hst; [|done].
  pose proof (registry_get_spec (sr_sink ref) s Hreg) as Hget.
  assert (Hsent : sent (registry_get (sr_sink ref) s).1 = sent s) by (unfold registry_get; by case_match).
  unfold mbind, M_bind. destruct (registry_get (sr_sink ref) s) as [s1 loc]. cbn [fst snd] in *.
  destruct Hget as ([Hinj _] & Hloc & Hview).
  pose proof (seed_groups_state ref loc (groupByIdentity sts) s1) as Hs2. cbv zeta in Hs2.
  destruct (seed_groups ref loc (groupByIdentity sts) s1) as [s2 r']. cbn [fst snd] in *.
  destruct Hs2 as (Hstates & Hsent2 & Hother & Hcache). intros _.
  set (s3 := (recordCacheEntries (sr_sink ref) loc s2).1). change (fst _) with s3.
  assert (Hv3 : forall n, view s3 n = view s2 n) by done.
  assert (Hafter : cache (view s3 (sr_sink ref)) = seed_cache ref (groupByIdentity sts) (cache (view s (sr_sink ref)))).
  { rewrite Hv3. unfold view at 1. rewrite Hstates, Hloc, Hcache, <- Hview. unfold view. by rewrite Hloc. }
  rewrite Hafter. split; [intros k e; apply seed_cache_keeps|]. split; [|split].
  - exists sts. split_and!.
    + exists we, reader. split; [by left|]. split; [by apply readerFor_inl|done].
    + intros k e [H|(g & cur & u & Hg & Hsp & -> & ->)]%seed_cache_new; [by left|]. right. exists cur.
      apply elem_of_groups in Hg as (id & -> & _). apply split_spec in Hsp as (Hin & Hmax & _).
      apply elem_of_bucket in Hin as [<- Hin]. split_and!; try done. intros st Hst' Hid.
      apply Hmax, elem_of_bucket. done.
    + intros st Hin.
      assert (Hb : bucket sts (state_identity st) <> []).
      { intros E. assert (Hx : st ∈ bucket sts (state_identity st)) by (by apply elem_of_bucket).
        rewrite E in Hx. by apply elem_of_nil in Hx. }
      destruct (splitIncarnations (bucket sts (state_identity st))) as [[cur u]|] eqn:Hsp;
        [|by destruct (bucket sts (state_identity st))].
      pose proof Hsp as ([Hid _]%elem_of_bucket & _ & _)%split_spec.
      injection Hid as <- <-. eapply seed_cache_covers; [|done]. apply elem_of_groups. eauto.
  - intros name Hne. rewrite Hv3, <- Hview. unfold view. rewrite Hstates.
    destruct (states s1 !! name) as [l|] eqn:El; [|done]. apply Hother. intros ->.
    by rewrite (Hinj _ _ _ El Hloc) in Hne.
  - change (sent s3) with (sent s2). congruence.
Qed.

(** Boot reconciliation closes exactly the orphaned scopes: each row is a
    Stopped row without a rule, accepted by the scope log, of a scope the log
    shows open and no rule wants; they come in the log's order, and when the pass
    reports success none is missing. A failure leaves a prefix, so the retry
    starts over from what is then open. *)
Lemma closeOrphanedScopes_exact (we : warmEnv) (sinkName : string) (reader : StateReader)
    (enqueue : ScopeEvent -> option error) (open : list ScopeFilter) :
  StateReaderFor we sinkName = Some reader -> ScopeEventWriterFor we sinkName = Some enqueue ->
  ActiveScopes reader (clusterID (we_env we)) = Ok open ->
  let '(events, err) := closeOrphanedScopes we sinkName in
  Forall (fun ev => se_Action ev = ScopeActionStopped /\ se_RuleRef ev = "" /\ enqueue ev = None) events /\
  (map se_Scope events) `prefix_of` orphans we sinkName open /\
  (err = None -> map se_Scope events = orphans we sinkName open).
Proof.
  intros Hr Hw Ha. unfold closeOrphanedScopes, readerFor. rewrite Hr, Hw, Ha. apply close_scopes_spec.
Qed.

(** One warm per scope: over any sequence of requests, stops, sink removals,
    start and shutdown, a warm is launched only when none is in flight for its
    scope, only the warm in flight is ever cancelled, the coordinator's record is
    exactly the warms in flight, and after a stop the scope has none and none is
    held back for it. *)
Lemma coordinator_one_warm_per_scope (ops : list coordOp) (sinkName : string) (scope : ScopeKey) :
  let '(c, calls) := run_coordinator ops in
  flights ∅ calls = Some (runs c) /\
  let '(c', calls') := StopScope sinkName scope c in
  flights (runs c) calls' = Some (runs c') /\ runs c' !! mkScopeRef sinkName scope = None /\
  forall t, t ∈ c_pending c' -> ~ (wt_Sink t = sinkName /\ wt_Scope t = scope).
Proof.
  assert (H : flights ∅ (run_coordinator ops).2 = Some (runs (run_coordinator ops).1)).
  { unfold run_coordinator. induction ops as [|op ops IH] using rev_ind; [done|]. rewrite foldl_app. simpl.
    set (acc := foldl _ _ ops) in *. pose proof (coordOp_flights op acc.1) as Hop.
    destruct (run_coordOp op acc.1) as [c calls]. simpl in *. by rewrite flights_app, IH. }
  destruct (run_coordinator ops) as [c calls]. split; [done|].
  pose proof (coordOp_flights (OpStopScope sinkName scope) c) as Hs. simpl in Hs. unfold StopScope in *.
  destruct (runs c !! mkScopeRef sinkName scope) as [epoch|] eqn:Hr; simpl in *; (split; [done|]; split).
  - by rewrite lookup_delete_eq.
  - by intros t [? _]%list_elem_of_filter.
  - done.
  - by intros t [? _]%list_elem_of_filter.
Qed.

(** ** Concrete inputs *)
Module WarmSamples.
Definition old_web : KnownState := mkKnownState "prod" "web" "u1" "aa" "v1" 10.
Definition new_web : KnownState := mkKnownState "prod" "web" "u2" "bb" "v1" 20.
Definition db : KnownState := mkKnownState "prod" "db" "u3" "cc" "v1" 15.
Definition history_rows : list KnownState := [old_web; db; new_web].

Definition reader : StateReader :=
  mkStateReader (fun _ => Ok history_rows) (fun _ _ => Ok true)
    (fun _ => Ok [mkScopeFilter "c1" "apps" "Deployment" "prod"; mkScopeFilter "c1" "" "Pod" ""]).
Definition base_env : env :=
  mkEnv "c1" (fun _ => Ok (None, true)) (fun _ => Some (mkWriter None (fun _ _ => None))) None (fun n => Z.of_nat n).
Definition sample_env : warmEnv :=
  mkWarmEnv base_env (fun _ => Some reader) (fun _ => Some (fun _ => None)) ["ch"] (fun _ _ => true)
    (fun _ scope => String.eqb (s_Kind scope) "Pod") (fun _ => false).
Definition apps_ref : scopeRef := mkScopeRef "ch" (mkScopeKey "apps" "Deployment" "prod").

Lemma classification_order_independent_witness :
  exists current unclosed unclosed',
    bucket history_rows (mkIdentity "prod" "web") ∈ groupByIdentity history_rows /\
    bucket (rev history_rows) (mkIdentity "prod" "web") ∈ groupByIdentity (rev history_rows) /\
    splitIncarnations (bucket history_rows (mkIdentity "prod" "web")) = Some (current, unclosed) /\
    splitIncarnations (bucket (rev history_rows) (mkIdentity "prod" "web")) = Some (current, unclosed') /\
    unclosed ≡ₚ unclosed' /\ bucket history_rows (mkIdentity "prod" "web") ≡ₚ current :: unclosed /\
    forall prior, prior ∈ unclosed -> (ks_TS prior <= ks_TS current)%Z /\ ks_UID prior <> ks_UID current.
Proof.
  apply (classification_order_independent history_rows (rev history_rows) (mkIdentity "prod" "web")).
  - apply Permutation_rev.
  - apply (bool_decide_unpack _). vm_compute. exact I.
  - vm_compute. discriminate.
Defined.

Lemma empty_registry_ok : registry_ok newPipeline.
Proof. split; intros *; simpl; by rewrite lookup_empty. Qed.

Lemma seeding_preserves_live_witness :
  sent (seed_attempt sample_env apps_ref newPipeline).1 = [].
Proof.
  refine (proj2 (proj2 (proj2 (seeding_preserves_live sample_env apps_ref newPipeline
    ([target_of_state new_web; target_of_state db], [prior_of_state old_web]) empty_registry_ok _)))).
  vm_compute. reflexivity.
Defined.

Lemma closeOrphanedScopes_exact_witness :
  map se_Scope (closeOrphanedScopes sample_env "ch").1 = [mkScopeFilter "c1" "apps" "Deployment" "prod"].
Proof.
  pose proof (closeOrphanedScopes_exact sample_env "ch" reader (fun _ => None)
    [mkScopeFilter "c1" "apps" "Deployment" "prod"; mkScopeFilter "c1" "" "Pod" ""]
    eq_refl eq_refl eq_refl) as H.
  rewrite (surjective_pairing (closeOrphanedScopes sample_env "ch")) in H.
  destruct H as (_ & _ & H). apply H. reflexivity.
Defined.
End WarmSamples.
