(* ===== verification/BootLoop.v ===== *)
(** * BootLoop: the warm-up coordinator's own goroutine

    Models [Start] and [reconcileEpochsUntilDone] of [internal/pipeline/warm.go]: the
    settle gate, the boot pass over the live sinks, cut where it waits for a sink, the
    ticker, and the shutdown; beside it run the requests of the scope recorder and of
    the sink manager. *)

From Stdlib Require Import ZArith Lia.
From stdpp Require Import base gmap strings list.
From S2P Require Import Prelude Identity HashCache Json Redact Normalize Pipeline JsonPatch Process Interest WatchManager ScopeRecorder Warm.
From S2P Require Import ProcessFacts WarmProps.

(** Where the goroutine is: before the settle gate, ahead of the sinks left in this
    pass, with a sink's orphans closed and its mark not yet set, in the select, past
    its loop, returned. *)
Inductive bootPhase :=
| Gated
| Passing (names : list string)
| Marking (name : string) (rest : list string)
| Resting
| Leaving
| Gone.

(** [bl_rows] is the rows handed to the scope logs. *)
Record bootLoop := mkBootLoop {
  bl_coord : WarmCoordinator;
  bl_settled : bool;
  bl_cancelled : bool;
  bl_phase : bootPhase;
  bl_rows : list (string * ScopeEvent);
}.

Inductive bootLabel :=
| BWarmScope (target : WarmTarget)
| BStopScope (sinkName : string) (scope : ScopeKey)
| BForgetSink (name : string)
| BSettle
| BCancel
| BEnter (we : warmEnv)
| BSink (we : warmEnv)
| BMark
| BTick (we : warmEnv)
| BLeave
| BReturn.

Section loop.
Context `{ZC : ZstdCodec} `{UA : UnstructuredAPI} `{JD : JsonDiff}.

(** [Start] up to its loop. *)
Definition bootLoop_Start (c : WarmCoordinator) : bootLoop := mkBootLoop (coordinator_Start c).1 false false Gated [].

Definition set_boot (p : bootPhase) (s : bootLoop) : bootLoop :=
  mkBootLoop (bl_coord s) (bl_settled s) (bl_cancelled s) p (bl_rows s).

Definition set_coord (c : WarmCoordinator) (s : bootLoop) : bootLoop :=
  mkBootLoop c (bl_settled s) (bl_cancelled s) (bl_phase s) (bl_rows s).

Definition markBootReconciled (name : string) (c : WarmCoordinator) : WarmCoordinator :=
  mkCoordinator (c_started c) (c_pending c) (runs c) ({[ name ]} ∪ bootDone c) (c_stopped c).

(** One sink of a pass of [reconcileScopeEpochs], up to its mark. *)
Definition boot_sink (we : warmEnv) (name : string) (rest : list string) (s : bootLoop) : bootLoop :=
  if bool_decide (name ∈ bootDone (bl_coord s)) then set_boot (Passing rest) s
  else
    let '(events, err) := closeOrphanedScopes we name in
    let p := match err with
             | None => Marking name rest
             | Some _ => if bl_cancelled s then Resting else Passing rest
             end in
    mkBootLoop (bl_coord s) (bl_settled s) (bl_cancelled s) p (bl_rows s ++ map (pair name) events).

Definition boot_step (l : bootLabel) (s : bootLoop) : option bootLoop :=
  match l, bl_phase s with
  | BWarmScope target, _ => Some (set_coord (WarmScope target (bl_coord s)).1 s)
  | BStopScope sinkName scope, _ => Some (set_coord (StopScope sinkName scope (bl_coord s)).1 s)
  | BForgetSink name, _ => Some (set_coord (ForgetSink name (bl_coord s)).1 s)
  | BSettle, _ => Some (mkBootLoop (bl_coord s) true (bl_cancelled s) (bl_phase s) (bl_rows s))
  | BCancel, _ => Some (mkBootLoop (bl_coord s) (bl_settled s) true (bl_phase s) (bl_rows s))
  | BEnter we, Gated => if bl_settled s then Some (set_boot (Passing (SinkNames we)) s) else None
  | BSink we, Passing [] => Some (set_boot Resting s)
  | BSink we, Passing (name :: rest) => Some (boot_sink we name rest s)
  | BMark, Marking name rest => Some (set_boot (Passing rest) (set_coord (markBootReconciled name (bl_coord s)) s))
  | BTick we, Resting => Some (set_boot (Passing (SinkNames we)) s)
  | BLeave, Gated | BLeave, Resting => if bl_cancelled s then Some (set_boot Leaving s) else None
  | BReturn, Leaving => Some (set_boot Gone (set_coord (coordinator_Stop (bl_coord s)).1 s))
  | _, _ => None
  end.

Fixpoint boot_run (ls : list bootLabel) (s : bootLoop) : option bootLoop :=
  match ls with
  | [] => Some s
  | l :: rest => s' ← boot_step l s; boot_run rest s'
  end.

(** ** A pass with nothing beside it is [reconcileScopeEpochs] *)

(** The steps of a pass over [names], as the loop takes them from its own state. *)
Fixpoint pass_labels (we : warmEnv) (names : list string) (n : nat) (c : WarmCoordinator) : list bootLabel :=
  match names with
  | [] => [BSink we]
  | name :: rest =>
      if bool_decide (name ∈ bootDone c) then BSink we :: pass_labels we rest (S n) c
      else match (closeOrphanedScopes we name).2 with
           | None => BSink we :: BMark :: pass_labels we rest (S n) (markBootReconciled name c)
           | Some _ => if ctxErr we n then [BSink we] else BSink we :: pass_labels we rest (S n) c
           end
  end.

Lemma pass_is_reconcile we names n s :
  (forall m, ctxErr we m = bl_cancelled s) -> bl_phase s = Passing names ->
  boot_run (pass_labels we names n (bl_coord s)) s =
    Some (let '(c, rows) := reconcile_sinks we names n (bl_coord s) in
          mkBootLoop c (bl_settled s) (bl_cancelled s) Resting (bl_rows s ++ rows)).
Proof.
  revert n s. induction names as [|name rest IH]; intros n s Hctx Hp; cbn [pass_labels reconcile_sinks].
  - cbn. rewrite Hp. cbn. by rewrite app_nil_r.
  - destruct (bool_decide (name ∈ bootDone (bl_coord s))) eqn:Ed.
    + cbn. rewrite Hp. cbn. unfold boot_sink. rewrite Ed. by apply (IH (S n) (set_boot (Passing rest) s)).
    + destruct (closeOrphanedScopes we name) as [events [err|]] eqn:Ec; cbn [snd].
      * rewrite Hctx. destruct (bl_cancelled s) eqn:Ex; cbn; rewrite Hp; cbn; unfold boot_sink; rewrite Ed, Ec, Ex; [done|].
        etransitivity.
        { apply (IH (S n) (mkBootLoop (bl_coord s) (bl_settled s) false (Passing rest) (bl_rows s ++ map (pair name) events))); [|done].
          intros m. by rewrite Hctx. }
        cbn. destruct (reconcile_sinks we rest (S n) (bl_coord s)). by rewrite app_assoc.
      * cbn. rewrite Hp. cbn. unfold boot_sink. rewrite Ed, Ec. cbn. etransitivity.
        { by apply (IH (S n) (mkBootLoop (markBootReconciled name (bl_coord s)) (bl_settled s) (bl_cancelled s) (Passing rest)
            (bl_rows s ++ map (pair name) events))). }
        cbn. unfold markBootReconciled. destruct (reconcile_sinks we rest (S n) _). by rewrite app_assoc.
Qed.

(** ** What it writes *)

(** A row that closes a scope its sink's log shows open and no rule wants. *)
Definition orphan_row (we : warmEnv) (row : string * ScopeEvent) : Prop :=
  se_Action row.2 = ScopeActionStopped /\ se_RuleRef row.2 = "" /\
  we_Desired we row.1 (filter_scope (se_Scope row.2)) = false /\
  exists reader open, StateReaderFor we row.1 = Some reader /\ ActiveScopes reader (clusterID (we_env we)) = Ok open /\
    se_Scope row.2 ∈ open.

Lemma closeOrphanedScopes_rows we name : Forall (orphan_row we) (map (pair name) (closeOrphanedScopes we name).1).
Proof.
  apply Forall_fmap, Forall_forall. intros ev Hev. unfold closeOrphanedScopes, readerFor in Hev.
  destruct (StateReaderFor we name) as [reader|] eqn:Er; [|destruct (router (we_env we) name); by apply elem_of_nil in Hev].
  destruct (ScopeEventWriterFor we name) as [enqueue|]; [|by apply elem_of_nil in Hev].
  destruct (ActiveScopes reader (clusterID (we_env we))) as [open|err] eqn:Ea; [|by apply elem_of_nil in Hev].
  pose proof (close_scopes_spec we name enqueue 0 open) as Hs. destruct (close_scopes we name enqueue 0 open) as [events err].
  destruct Hs as (HF & Hpre & _). cbn [fst] in Hev. rewrite Forall_forall in HF. destruct (HF ev Hev) as (Ha & Hr & _).
  assert (Ho : se_Scope ev ∈ orphans we name open).
  { eapply elem_of_prefix; [|exact Hpre]. by apply list_elem_of_fmap_2. }
  apply list_elem_of_filter in Ho as [Hd Hin]. split_and!; try done. by exists reader, open.
Qed.

Definition env_of (l : bootLabel) : option warmEnv := match l with BSink we => Some we | _ => None end.

Definition boot_ok (ls : list bootLabel) (s : bootLoop) : Prop :=
  (bl_phase s <> Gated -> bl_phase s <> Leaving -> bl_phase s <> Gone -> bl_settled s = true) /\
  (bl_rows s <> [] -> bl_settled s = true) /\
  Forall (fun row => exists we, we ∈ omap env_of ls /\ orphan_row we row) (bl_rows s).

Lemma boot_ok_later ls l s : boot_ok ls s -> boot_ok (ls ++ [l]) s.
Proof.
  intros (H1 & H2 & H3). split_and!; try done. eapply Forall_impl; [exact H3|]. intros row (we & Hin & Hr).
  exists we. split; [|done]. rewrite omap_app. apply elem_of_app. by left.
Qed.

Lemma boot_step_ok ls l s s' : boot_step l s = Some s' -> boot_ok ls s -> boot_ok (ls ++ [l]) s'.
Proof.
  intros E H. pose proof (boot_ok_later ls l s H) as (H1 & H2 & H3).
  destruct l; cbn [boot_step] in E; destruct (bl_phase s) as [|[|name' rest]|name' rest| | |] eqn:Ep; try discriminate E;
    repeat match type of E with (if ?b then _ else _) = _ => destruct b eqn:?; try discriminate E end;
    injection E as <-; try (split_and!; cbn; rewrite ?Ep; auto; congruence).
  unfold boot_sink. case_bool_decide; [split_and!; cbn; auto|].
  pose proof (closeOrphanedScopes_rows we name') as Hr. destruct (closeOrphanedScopes we name') as [events err].
  assert (Hset : bl_settled s = true) by (by apply H1).
  split_and!; cbn; auto. apply Forall_app. split; [done|]. eapply Forall_impl; [exact Hr|]. intros row Hrow.
  exists we. split; [|done]. rewrite omap_app. apply elem_of_app. right. by left.
Qed.

(** The boot pass closes orphans only, and only after the desired state settled:
    however the loop interleaves with warm requests, stops and sink deletions, every
    row it hands to a scope log is a Stopped row without a rule, for a scope that log
    showed open and no rule wanted when the sink's turn came; and before the settle
    gate opened there is none. *)
Lemma boot_closes_orphans c ls s :
  boot_run ls (bootLoop_Start c) = Some s ->
  (bl_rows s <> [] -> bl_settled s = true) /\
  Forall (fun row => exists we, we ∈ omap env_of ls /\ orphan_row we row) (bl_rows s).
Proof.
  assert (G : forall past s0, boot_ok past s0 -> boot_run ls s0 = Some s -> boot_ok (past ++ ls) s).
  { induction ls as [|l ls IH]; intros past s0 H E; cbn [boot_run] in E; [injection E as <-; by rewrite app_nil_r|].
    apply bind_Some in E as (s1 & E1 & E). rewrite cons_middle, app_assoc. eapply IH; [|exact E]. by eapply boot_step_ok. }
  intros E. destruct (G [] (bootLoop_Start c)) as (_ & H2 & H3); [|done|by split].
  split_and!; cbn; try done; constructor.
Qed.

(** Once it returned, no warm runs and none will. *)
Lemma boot_returned_step l s s' :
  bl_phase s = Gone -> runs (bl_coord s) = ∅ -> c_stopped (bl_coord s) = true -> boot_step l s = Some s' ->
  bl_phase s' = Gone /\ runs (bl_coord s') = ∅ /\ c_stopped (bl_coord s') = true.
Proof.
  intros Hp Hr Hs E. destruct l; cbn [boot_step] in E; rewrite ?Hp in E; try discriminate E; injection E as <-; cbn; try done.
  - unfold WarmScope. by rewrite Hs.
  - unfold StopScope. rewrite Hr, lookup_empty. cbn. by rewrite Hr.
  - rewrite Hr. done.
Qed.
End loop.

(** ** A deletion between a pass and its mark *)

Module BootSamples.
Import WarmSamples.

(** The pass of sink "ch" succeeded; the sink is deleted, and forgotten, before the
    mark is set. The mark outlives the sink: created again under the same name, it is
    skipped by every later pass. *)
Definition forgotten_then_marked : list bootLabel :=
  [BSettle; BEnter sample_env; BSink sample_env; BForgetSink "ch"; BMark; BSink sample_env].

Definition later_pass : list bootLabel := [BTick sample_env; BSink sample_env; BSink sample_env].

Lemma mark_outlives_sink :
  exists s s', boot_run forgotten_then_marked (bootLoop_Start NewWarmCoordinator) = Some s /\
    boot_run later_pass s = Some s' /\
    "ch" ∈ bootDone (bl_coord s) /\ bl_phase s' = Resting /\ bl_rows s' = bl_rows s /\
    (closeOrphanedScopes sample_env "ch").1 <> [].
Proof.
  eexists _, _. split; [vm_compute; reflexivity|]. split; [vm_compute; reflexivity|].
  split; [apply (bool_decide_unpack _); vm_compute; exact I|]. split; [reflexivity|]. split; [reflexivity|]. vm_compute. discriminate.
Qed.
End BootSamples.
