(* ===== verification/CHWriterProps.v ===== *)
(** * CHWriterProps: the ClickHouse writer keeps its promises

    The contract of [sink.Job] (every accepted job's callback fires exactly once,
    with true only for a row that is durable), the ordered shutdown and its
    termination, for every interleaving of producers, workers, timers, readers and
    shutdown, and every behaviour of the backend. *)

From Stdlib Require Import ZArith Lia.
From stdpp Require Import base gmap strings list.
From S2P Require Import Prelude Identity HashCache Json Redact Pipeline ScopeRecorder Driver ScopeWriter CHWriter.

(** ** One flush *)

Definition env_durable (f : flushEnv) : Prop :=
  Forall durable (fl_first f :: fl_later f) /\ forall i, durable (fl_row f i).

Lemma isolateRows_facts row i batch :
  let '(rows, settled) := isolateRows row i batch in
  settled.*1 = batch /\
  (forall r, r ∈ rows -> r ∈ wj_args <$> batch) /\
  ((forall j, durable (row j)) -> forall job, (job, true) ∈ settled -> wj_args job ∈ rows).
Proof.
  revert i. induction batch as [|job batch IH]; intros i; simpl; [set_solver|].
  unfold sendBatchOnce. simpl.
  pose proof (insert_once_subset (row i) [wj_args job]) as Hsub.
  pose proof (insert_once_durable (row i) [wj_args job]) as Hdur.
  destruct (insert_once (row i) [wj_args job]) as [rows err].
  specialize (IH (S i)). destruct (isolateRows row (S i) batch) as [rows' settled].
  destruct IH as (IH1 & IH2 & IH3). simpl in *. split; [by f_equal|]. split.
  - intros r. rewrite elem_of_app. intros [Hr|Hr]; [apply Hsub in Hr; set_solver|].
    apply elem_of_cons. right. by apply IH2.
  - intros Hd j. rewrite elem_of_cons, elem_of_app. intros [Hj|Hj].
    + injection Hj as -> Hb. symmetry in Hb. bools. left. rewrite Hdur; [set_solver|done|done].
    + right. by apply IH3.
Qed.

Lemma flush_outcome_facts f batch :
  let '(rows, settled, _) := flush_outcome f batch in
  settled.*1 = batch /\
  (forall r, r ∈ rows -> r ∈ wj_args <$> batch) /\
  (env_durable f -> forall job, (job, true) ∈ settled -> wj_args job ∈ rows).
Proof.
  unfold flush_outcome, sendBatch.
  pose proof (insert_retry_subset (fl_first f) (fl_later f) (wj_args <$> batch)) as Hsub.
  pose proof (insert_retry_durable (fl_first f) (fl_later f) (wj_args <$> batch)) as Hdur.
  change (map wj_args batch) with (wj_args <$> batch).
  destruct (insert_retry _ _ _) as [[rows [e|]] n]; cbn [fst snd] in *.
  - pose proof (isolateRows_facts (fl_row f) 0 batch) as Hi.
    destruct (isolateRows (fl_row f) 0 batch) as [rows' settled]. destruct Hi as (H1 & H2 & H3).
    split; [done|]. split.
    + intros r. rewrite elem_of_app. naive_solver.
    + intros [_ Hd] job Hj. apply elem_of_app. right. by apply H3.
  - split; [|split; [done|]].
    + clear. induction batch; simpl; [done|]. by f_equal.
    + intros [Hd _] job Hj. apply list_elem_of_fmap in Hj as [j [[= <-] Hj]].
      apply Hdur; [done|done|]. apply list_elem_of_fmap. eauto.
Qed.

(** ** Conservation *)

Definition batches (w : CHWriter) : list writeJob := mjoin (wk_batch <$> cw_workers w).

Record core_inv (w : CHWriter) : Prop := {
  co_conserved : cw_jobs w ++ batches w ++ (cw_settled w).*1 ≡ₚ cw_accepted w;
  co_durable : forall job, (job, true) ∈ cw_settled w -> wj_args job ∈ cw_table w;
  co_faithful : forall row, row ∈ cw_table w -> row ∈ wj_args <$> cw_accepted w;
  co_idle : cw_started w = false -> cw_workers w = [];
}.

Lemma batches_insert (ws : list worker) i wk wk' :
  ws !! i = Some wk ->
  wk_batch wk ++ mjoin (wk_batch <$> <[i := wk']> ws) ≡ₚ wk_batch wk' ++ mjoin (wk_batch <$> ws).
Proof.
  revert i. induction ws as [|x ws IH]; intros [|i] Hi; simplify_eq/=.
  - solve_Permutation.
  - rewrite (Permutation_app_swap_app (wk_batch wk)), IH by done. solve_Permutation.
Qed.

(** Replacing a worker whose batch (and [extra] from the queue) was flushed. *)
Lemma core_flush f i wk wk' extra jobs w :
  env_durable f -> core_inv w -> cw_workers w !! i = Some wk -> wk_batch wk' = [] ->
  cw_jobs w = extra ++ jobs ->
  core_inv (set_workers (<[i := wk']> (cw_workers w))
              (flushBatch f (wk_batch wk ++ extra) (set_jobs jobs (cw_sending w) w))).
Proof.
  intros Hf [Hc Hd Hr Hs] Hi Hb Hj. unfold flushBatch.
  pose proof (flush_outcome_facts f (wk_batch wk ++ extra)) as Hfl.
  destruct (flush_outcome f _) as [[rows settled] n]. destruct Hfl as (H1 & H2 & H3).
  pose proof (batches_insert _ _ _ wk' Hi) as Hp. rewrite Hb in Hp. simpl in Hp.
  split; unfold batches; simpl.
  - rewrite fmap_app, H1, <- Hc, Hj. unfold batches. rewrite <- Hp. solve_Permutation.
  - intros job. rewrite !elem_of_app. naive_solver.
  - intros row. rewrite elem_of_app. intros [Hin|Hin]; [by apply Hr|].
    apply H2 in Hin. rewrite <- Hc. unfold batches. rewrite Hj, <- Hp.
    rewrite fmap_app in Hin. rewrite !fmap_app. set_solver.
  - intros E. apply Hs in E. by rewrite E in Hi.
Qed.

Lemma core_same w w' :
  cw_jobs w' = cw_jobs w -> cw_workers w' = cw_workers w -> cw_table w' = cw_table w ->
  cw_accepted w' = cw_accepted w -> cw_settled w' = cw_settled w ->
  (cw_started w' = false -> cw_started w = false) -> core_inv w -> core_inv w'.
Proof.
  intros Hj Hw Ht Ha Hs Hst [H1 H2 H3 H4].
  split; unfold batches in *; rewrite ?Hj, ?Hw, ?Ht, ?Ha, ?Hs; auto.
Qed.

Definition chop_durable (op : chOp) : Prop :=
  match op with
  | OReceive _ f | OTimer _ f | OClosed _ f => env_durable f
  | OScopeReceive f | OScopeTimer f | OScopeTick f | OScopeClosed f => Forall durable (flush_attempts f)
  | _ => True
  end.

Lemma core_receive i f w w' :
  env_durable f -> core_inv w -> worker_receive i f w = Some w' -> core_inv w'.
Proof.
  intros Hd Hi Hop. unfold worker_receive in Hop.
  destruct (cw_workers w !! i) as [wk|] eqn:Hw; [|done].
  destruct (cw_jobs w) as [|job rest] eqn:Hj; [done|]. destruct (wk_done wk); [done|].
  destruct (Z.leb _ _); simplify_eq; [by apply core_flush|].
  destruct Hi as [Hc Hdu Hr Hid]. split; unfold batches in *; simpl; auto.
  - rewrite <- Hc, Hj. match goal with |- context [<[i:=?x]> _] => pose proof (batches_insert _ _ _ x Hw) as Hp end.
    simpl in Hp. rewrite <- app_assoc in Hp. apply Permutation_app_inv_l in Hp. rewrite Hp. solve_Permutation.
  - intros E. apply Hid in E. by rewrite E in Hw.
Qed.

(** A flush that takes nothing from the queue. *)
Lemma core_flush_batch f i wk wk' w :
  env_durable f -> core_inv w -> cw_workers w !! i = Some wk -> wk_batch wk' = [] ->
  core_inv (set_workers (<[i := wk']> (cw_workers w)) (flushBatch f (wk_batch wk) w)).
Proof.
  intros Hd Hi Hw Hb. pose proof (core_flush f i wk wk' [] (cw_jobs w) w Hd Hi Hw Hb eq_refl) as H.
  rewrite app_nil_r in H. eapply core_same; [..|exact H]; unfold flushBatch; simpl;
    by destruct (flush_outcome f (wk_batch wk)) as [[??]?].
Qed.

Lemma core_timer i f w w' :
  env_durable f -> core_inv w -> worker_timer i f w = Some w' -> core_inv w'.
Proof.
  intros Hd Hi Hop. unfold worker_timer in Hop.
  destruct (cw_workers w !! i) as [wk|] eqn:Hw; [|done].
  destruct (negb _ && _); simplify_eq. by apply core_flush_batch.
Qed.

Lemma core_closed i f w w' :
  env_durable f -> core_inv w -> worker_closed i f w = Some w' -> core_inv w'.
Proof.
  intros Hd Hi Hop. unfold worker_closed in Hop.
  destruct (cw_workers w !! i) as [wk|] eqn:Hw; [|done].
  destruct (cw_jobs w) as [|] eqn:Hj; [|done]. destruct (negb _ && _); simplify_eq.
  destruct (wk_batch wk) as [|j js] eqn:Hb; [|rewrite <- Hb; by apply core_flush_batch].
  destruct Hi as [Hc Hdu Hr Hid]. split; unfold batches in *; simpl; auto.
  - rewrite <- Hc, Hj. pose proof (batches_insert _ _ _ (mkWorker [] false true) Hw) as Hp.
    rewrite Hb in Hp. simpl in Hp. by rewrite Hp.
  - intros E. apply Hid in E. by rewrite E in Hw.
Qed.

Lemma batches_new n : mjoin (wk_batch <$> replicate n newWorker) = [].
Proof. by induction n. Qed.

Lemma core_start w w' : core_inv w -> Start_workers w = Some w' -> core_inv w'.
Proof.
  unfold Start_workers. destruct (cw_started w) eqn:Hs; [done|]. intros [Hc Hd Hr Hid] [= <-].
  specialize (Hid Hs). unfold batches in *. rewrite Hid in Hc. simpl in Hc.
  unfold startAutoCreate, user_enter. destruct (kn_autoCreate _), (cw_closing _); simpl;
    (split; unfold batches; simpl; [by rewrite batches_new|done..]).
Qed.

Lemma core_op op w w' : chop_durable op -> core_inv w -> ch_step op w = Some w' -> core_inv w'.
Proof.
  intros Hd Hi Hop. destruct op; simpl in Hop;
    eauto using core_receive, core_timer, core_closed, core_start;
    try solve [ unfold scope_step, Enqueue_enter, Enqueue_giveUp, user_enter, user_leave, ctx_cancel,
                  Start_closing, Start_closeQueues, Start_closeConn in Hop; split_cases; by apply (core_same w) ].
  destruct Hi as [Hc Hdu Hr Hid]. unfold Enqueue_send in Hop. split_cases.
  split; unfold batches in *; simpl; auto.
  - rewrite <- Hc. solve_Permutation.
  - intros row Hin. apply Hr in Hin. rewrite fmap_app. set_solver.
Qed.

(** ** The shutdown protocol *)

Record life_inv (w : CHWriter) : Prop := {
  li_closing : cw_closing w = true -> cw_started w = true /\ cw_ctxDone w = true /\ cw_drainCtx w = CtxDrain;
  li_ctx : cw_drainCtx w <> CtxManager;
  li_queues : cw_queuesClosed w = true ->
    cw_closing w = true /\ cw_sending w = [] /\ sp_sending (cw_scope w) = [];
  li_done : forall wk, wk ∈ cw_workers w -> wk_done wk = true ->
    cw_queuesClosed w = true /\ cw_jobs w = [] /\ wk_batch wk = [];
  li_sdone : sp_done (cw_scope w) = true ->
    cw_queuesClosed w = true /\ sp_events (cw_scope w) = [] /\ sp_batch (cw_scope w) = [];
  li_conn : cw_connClosed w = true ->
    cw_queuesClosed w = true /\ Forall (fun wk => wk_done wk = true) (cw_workers w) /\
    sp_done (cw_scope w) = true /\ cw_otherUsers w = 0;
  li_pool : cw_started w = true -> length (cw_workers w) = Z.to_nat (kn_workers (cw_knobs w));
}.

(** An open worker means the connection is still open. *)
Lemma worker_open w i wk :
  life_inv w -> cw_workers w !! i = Some wk -> wk_done wk = false -> cw_connClosed w = false.
Proof.
  intros Hi Hw Hd. destruct (cw_connClosed w) eqn:E; [|done].
  destruct (li_conn w Hi E) as (_ & HF & _). rewrite Forall_lookup in HF. apply HF in Hw. congruence.
Qed.

Lemma flushBatch_frame f batch w :
  let w' := flushBatch f batch w in
  cw_knobs w' = cw_knobs w /\ cw_jobs w' = cw_jobs w /\ cw_sending w' = cw_sending w /\
  cw_workers w' = cw_workers w /\ cw_scope w' = cw_scope w /\ cw_started w' = cw_started w /\
  cw_ctxDone w' = cw_ctxDone w /\ cw_closing w' = cw_closing w /\ cw_drainCtx w' = cw_drainCtx w /\
  cw_queuesClosed w' = cw_queuesClosed w /\ cw_otherUsers w' = cw_otherUsers w /\
  cw_connClosed w' = cw_connClosed w /\ cw_accepted w' = cw_accepted w.
Proof. unfold flushBatch. destruct (flush_outcome f batch) as [[rows settled] n]. simpl. auto 20. Qed.

(** Replacing an open worker: by one that holds a batch, or by one that is done
    once the queue is closed and drained. *)
Lemma life_worker i wk wk' jobs w w1 :
  life_inv w -> cw_workers w !! i = Some wk -> wk_done wk = false ->
  cw_knobs w1 = cw_knobs w -> cw_jobs w1 = jobs -> cw_sending w1 = cw_sending w ->
  cw_workers w1 = cw_workers w -> cw_scope w1 = cw_scope w -> cw_started w1 = cw_started w ->
  cw_ctxDone w1 = cw_ctxDone w -> cw_closing w1 = cw_closing w -> cw_drainCtx w1 = cw_drainCtx w ->
  cw_queuesClosed w1 = cw_queuesClosed w -> cw_otherUsers w1 = cw_otherUsers w ->
  cw_connClosed w1 = cw_connClosed w ->
  (cw_jobs w = [] -> jobs = []) ->
  (wk_done wk' = true -> cw_queuesClosed w = true /\ jobs = [] /\ wk_batch wk' = []) ->
  life_inv (set_workers (<[i := wk']> (cw_workers w)) w1).
Proof.
  intros Hi Hw Hd Hk Hj Hs Hws Hsc Hst Hctx Hcl Hdr Hq Ho Hco Hjobs Hwk.
  pose proof (worker_open w i wk Hi Hw Hd) as Hopen.
  destruct Hi as [H1 H2 H3 H4 H5 H6 H7].
  split; simpl; rewrite ?Hk, ?Hj, ?Hs, ?Hsc, ?Hst, ?Hctx, ?Hcl, ?Hdr, ?Hq, ?Ho, ?Hco; auto.
  - intros x Hx Hxd. apply elem_of_insert_inv in Hx as [->|Hx]; [auto|].
    destruct (H4 x Hx Hxd) as (? & ? & ?). auto.
  - congruence.
  - rewrite length_insert. done.
Qed.

Lemma life_receive i f w w' : life_inv w -> worker_receive i f w = Some w' -> life_inv w'.
Proof.
  intros Hi. unfold worker_receive. destruct (cw_workers w !! i) as [wk|] eqn:Hw; [|done].
  destruct (cw_jobs w) as [|job rest] eqn:Hj; [done|]. destruct (wk_done wk) eqn:Hd; [done|].
  destruct (Z.leb _ _); intros [= <-].
  - edestruct (flushBatch_frame f (wk_batch wk ++ [job])) as (?&?&?&?&?&?&?&?&?&?&?&?&?).
    eapply life_worker; eauto; rewrite ?Hj; done.
  - eapply life_worker; eauto; rewrite ?Hj; done.
Qed.

Lemma life_timer i f w w' : life_inv w -> worker_timer i f w = Some w' -> life_inv w'.
Proof.
  intros Hi. unfold worker_timer. destruct (cw_workers w !! i) as [wk|] eqn:Hw; [|done].
  destruct (wk_done wk) eqn:Hd; simpl; [done|]. destruct (wk_timer wk); [|done]. intros [= <-].
  edestruct (flushBatch_frame f (wk_batch wk)) as (?&?&?&?&?&?&?&?&?&?&?&?&?).
  eapply life_worker; eauto; done.
Qed.

Lemma life_closed i f w w' : life_inv w -> worker_closed i f w = Some w' -> life_inv w'.
Proof.
  intros Hi. unfold worker_closed. destruct (cw_workers w !! i) as [wk|] eqn:Hw; [|done].
  destruct (cw_jobs w) as [|] eqn:Hj; [|done]. destruct (wk_done wk) eqn:Hd; simpl; [done|].
  destruct (cw_queuesClosed w) eqn:Hq; [|done]. intros [= <-].
  destruct (wk_batch wk) as [|j js] eqn:Hb; [eapply life_worker; eauto; done|].
  edestruct (flushBatch_frame f (j :: js)) as (?&?&?&?&?&?&?&?&?&?&?&?&?).
  eapply life_worker; eauto; rewrite ?Hq, ?Hj; done.
Qed.

(** What a worker step of the scope path does to the fields the protocol reads. *)
Lemma scope_worker_frame sop p p' :
  scope_op sop p = Some p' -> is_Some (op_flush sop) ->
  sp_done p = false /\ sp_sending p' = sp_sending p /\
  (sp_done p' = true -> exists f, sop = SClosed f true /\ sp_events p' = [] /\ sp_batch p' = []).
Proof.
  intros Hop Hf. destruct sop as [c e|i|i|f|f|f|f q]; simpl in *; try by destruct Hf.
  - unfold scopeWorker_receive in Hop. destruct (sp_done p) eqn:Hd; [done|].
    destruct (sp_events p) as [|ev rest]; [done|]. destruct (Nat.leb _ _); injection Hop as <-; simpl.
    + edestruct (flushScopeBatch_moves f) as (_ & Hs & _ & _ & Hdn & _).
      rewrite Hs, Hdn. simpl. by rewrite Hd.
    + by rewrite Hd.
  - unfold scopeWorker_timer in Hop. destruct (sp_done p) eqn:Hd; [done|].
    destruct (sp_timer p); [|done]. injection Hop as <-. simpl.
    edestruct (flushScopeBatch_moves f) as (_ & Hs & _ & _ & Hdn & _). rewrite Hs, Hdn. by rewrite Hd.
  - unfold scopeWorker_retryTick in Hop. destruct (sp_done p) eqn:Hd; [done|]. simpl in Hop.
    destruct (sp_retries p) as [|ev es]; injection Hop as <-; simpl; [by rewrite Hd|].
    edestruct (flushScopeBatch_moves f) as (_ & Hs & _ & _ & Hdn & _).
    rewrite Hs, Hdn. simpl. by rewrite Hd.
  - unfold scopeWorker_closed in Hop. destruct (sp_done p) eqn:Hd; [done|]. destruct q; [|done].
    destruct (sp_events p) eqn:E; [|done]. simpl in Hop. injection Hop as <-. simpl.
    edestruct (flushScopeBatch_moves f) as (He & Hs & _). rewrite Hs, He. simpl. rewrite E. eauto 10.
Qed.

Lemma scope_handoff_frame sop p p' :
  scope_op sop p = Some p' -> op_flush sop = None ->
  sp_done p' = sp_done p /\ sp_batch p' = sp_batch p /\
  (sp_sending p = [] -> (exists ev, sop = SEnter false ev) \/ p' = p).
Proof.
  intros Hop Hf. destruct sop as [c e|i|i|f|f|f|f q]; simpl in *; try done.
  - destruct c; simplify_eq/=; eauto 10.
  - unfold EnqueueScopeEvent_send in Hop. split_cases. split; [done|]. split; [done|]. intros E. by rewrite E in *.
  - unfold EnqueueScopeEvent_giveUp in Hop. split_cases. split; [done|]. split; [done|]. intros E. by rewrite E in *.
Qed.

Lemma life_scope op w sop p' :
  life_inv w -> scope_step op w = Some sop -> scope_op sop (cw_scope w) = Some p' -> life_inv (set_scope p' w).
Proof.
  intros [H1 H2 H3 H4 H5 H6 H7] Hs Hop.
  assert (Hclose : sp_done (cw_scope w) = true -> p' = cw_scope w).
  { intros Hd. destruct (H5 Hd) as (Hq & _ & _). destruct (H3 Hq) as (Hc & _ & Hse).
    destruct (op_flush sop) eqn:Ef.
    - destruct (scope_worker_frame _ _ _ Hop) as (Hd' & _); [by rewrite Ef|congruence].
    - destruct (scope_handoff_frame _ _ _ Hop Ef) as (_ & _ & Hh). destruct (Hh Hse) as [[ev ->]|]; [|done].
      destruct op; simpl in Hs; split_cases. congruence. }
  destruct (sp_done (cw_scope w)) eqn:Hd.
  { rewrite Hclose by done. split; simpl; rewrite ?Hd; auto. }
  split; simpl; auto.
  - intros Hq. destruct (H3 Hq) as (Hc & Hse & Hss). split; [done|]. split; [done|].
    destruct (op_flush sop) eqn:Ef.
    + destruct (scope_worker_frame _ _ _ Hop) as (_ & -> & _); [by rewrite Ef|done].
    + destruct (scope_handoff_frame _ _ _ Hop Ef) as (_ & _ & Hh). destruct (Hh Hss) as [[ev ->]| -> ]; [|done].
      destruct op; simpl in Hs; split_cases. congruence.
  - intros Hd'. destruct (op_flush sop) eqn:Ef.
    + destruct (scope_worker_frame _ _ _ Hop) as (_ & _ & Hdone); [by rewrite Ef|].
      destruct (Hdone Hd') as (f & -> & He & Hb). destruct op; simpl in Hs; split_cases.
    + destruct (scope_handoff_frame _ _ _ Hop Ef) as (Hdd & _ & _). congruence.
  - intros Hc. destruct (H6 Hc) as (_ & _ & Hd' & _). congruence.
Qed.

Lemma life_producer op w w' :
  life_inv w -> ch_step op w = Some w' ->
  match op with OEnqueue _ | OSend _ | OGiveUp _ _ | OUserEnter | OUserLeave | OStart => True | _ => False end ->
  life_inv w'.
Proof.
  intros [H1 H2 H3 H4 H5 H6 H7] Hop Hk. destruct op; try done; simpl in Hop.
  - unfold Enqueue_enter in Hop. destruct (cw_closing w) eqn:Hc; simplify_eq/=; [by split; rewrite ?Hc|].
    split; simpl; rewrite ?Hc; auto. intros Hq. destruct (H3 Hq). congruence.
  - unfold Enqueue_send in Hop. destruct (cw_sending w !! i) eqn:Hs; [|done].
    assert (cw_queuesClosed w = false) as Hq.
    { destruct (cw_queuesClosed w); [|done]. destruct (H3 eq_refl) as (_ & E & _). by rewrite E in Hs. }
    destruct (Z.ltb _ _); simplify_eq. split; simpl; auto; rewrite ?Hq; auto; try done.
    intros wk Hwk Hd. destruct (H4 wk Hwk Hd). congruence.
  - unfold Enqueue_giveUp in Hop. destruct (cw_sending w !! i) eqn:Hs; [|done]. simplify_eq.
    split; simpl; auto. intros Hq. destruct (H3 Hq) as (? & E & ?). by rewrite E in Hs.
  - unfold user_enter in Hop. destruct (cw_closing w) eqn:Hc; simplify_eq; [by split; rewrite ?Hc|].
    split; simpl; rewrite ?Hc; auto. intros E. destruct (H6 E) as (Hq & _). destruct (H3 Hq). congruence.
  - unfold user_leave in Hop. destruct (cw_otherUsers w) eqn:Hu; simplify_eq. split; simpl; auto.
    intros E. destruct (H6 E) as (? & ? & ? & ?). congruence.
  - unfold Start_workers in Hop. destruct (cw_started w) eqn:Hs; [done|].
    assert (cw_closing w = false) as Hc by (destruct (cw_closing w); [by destruct (H1 eq_refl)|done]).
    assert (cw_queuesClosed w = false) as Hq by (destruct (cw_queuesClosed w); [destruct (H3 eq_refl); congruence|done]).
    assert (cw_connClosed w = false) as Hco by (destruct (cw_connClosed w); [destruct (H6 eq_refl); congruence|done]).
    unfold startAutoCreate, user_enter in Hop. simpl in Hop. rewrite Hc in Hop.
    assert (forall wk n, wk ∈ replicate n newWorker -> wk_done wk = true -> False) as Hnew.
    { intros wk n Hin. apply elem_of_replicate in Hin as [-> _]. done. }
    destruct (kn_autoCreate _); simplify_eq/=; split; simpl; rewrite ?Hc, ?Hq, ?Hco; try done;
      try (intros; by rewrite length_replicate); try (intros wk Hin Hd; exfalso; by eapply Hnew);
      intros Hd; destruct (H5 Hd); congruence.
Qed.

Lemma life_shutdown op w w' :
  life_inv w -> ch_step op w = Some w' ->
  match op with OCancel | OClosing | OCloseQueues | OCloseConn => True | _ => False end -> life_inv w'.
Proof.
  intros [H1 H2 H3 H4 H5 H6 H7] Hop Hk. destruct op; try done; simpl in Hop.
  - unfold ctx_cancel in Hop. simplify_eq. split; simpl; auto. intros E. by destruct (H1 E) as (? & ? & ?).
  - unfold Start_closing in Hop. destruct (cw_started w) eqn:Hs, (cw_ctxDone w) eqn:Hc; simpl in Hop; try done.
    destruct (cw_closing w) eqn:Hcl; simplify_eq/=. split; simpl; auto. intros E. by destruct (H3 E).
  - unfold Start_closeQueues in Hop. destruct (cw_closing w) eqn:Hc; [|done].
    destruct (cw_queuesClosed w) eqn:Hq; simpl in Hop; [done|].
    destruct (cw_sending w) eqn:Hs; [|done]. destruct (sp_sending _) eqn:Hss; simplify_eq.
    split; simpl; auto.
    + intros wk Hwk Hd. destruct (H4 wk Hwk Hd). congruence.
    + intros Hd. destruct (H5 Hd). congruence.
    + intros E. destruct (H6 E). congruence.
  - unfold Start_closeConn in Hop.
    destruct (cw_queuesClosed w) eqn:Hq; simpl in Hop; [|done].
    destruct (cw_connClosed w) eqn:Hc; simpl in Hop; [done|].
    destruct (forallb _ _) eqn:Hf; simpl in Hop; [|done].
    destruct (sp_done _) eqn:Hd; simpl in Hop; [|done].
    destruct (Nat.eqb_spec (cw_otherUsers w) 0); simplify_eq. split; simpl; auto; rewrite ?Hd; auto.
    intros _. repeat split; auto. rewrite Forall_forall. intros wk Hwk.
    rewrite forallb_forall in Hf. apply Hf. by apply list_elem_of_In.
Qed.

Lemma ch_step_scope op w sop :
  scope_step op w = Some sop ->
  ch_step op w = match scope_op sop (cw_scope w) with Some p => Some (set_scope p w) | None => None end.
Proof. destruct op; simpl; try done; intros H; by rewrite H || (by injection H as <-). Qed.

Lemma life_op op w w' : life_inv w -> ch_step op w = Some w' -> life_inv w'.
Proof.
  intros Hi Hop. destruct (scope_step op w) as [sop|] eqn:Hs.
  { rewrite (ch_step_scope _ _ _ Hs) in Hop. destruct (scope_op _ _) eqn:Hp; simplify_eq. by eapply life_scope. }
  destruct op; try (by eapply life_producer); try (by eapply life_shutdown);
    eauto using life_receive, life_timer, life_closed; simpl in *; destruct (cw_started w); done.
Qed.

(** ** Every reachable state *)

Record ch_inv (k : chKnobs) (w : CHWriter) : Prop := {
  inv_core : core_inv w;
  inv_life : life_inv w;
  inv_scope : scope_inv (cw_scope w);
  inv_knobs : cw_knobs w = k;
}.

Lemma knobs_op op w w' : ch_step op w = Some w' -> cw_knobs w' = cw_knobs w.
Proof.
  destruct op; simpl;
    unfold scope_step, Enqueue_enter, Enqueue_send, Enqueue_giveUp, worker_receive, worker_timer, worker_closed,
      user_enter, user_leave, Start_workers, startAutoCreate, ctx_cancel, Start_closing, Start_closeQueues,
      Start_closeConn, user_enter, flushBatch; intros Hop; split_cases;
    repeat (case_match; simplify_eq/=); done.
Qed.

Lemma scope_durable op w sop : chop_durable op -> scope_step op w = Some sop -> op_durable sop.
Proof. destruct op; simpl; intros H Hs; split_cases. Qed.

Lemma scope_same op w w' : ch_step op w = Some w' -> scope_step op w = None -> cw_scope w' = cw_scope w.
Proof.
  destruct op; simpl;
    unfold scope_step, Enqueue_enter, Enqueue_send, Enqueue_giveUp, worker_receive, worker_timer, worker_closed,
      user_enter, user_leave, Start_workers, startAutoCreate, ctx_cancel, Start_closing, Start_closeQueues,
      Start_closeConn, user_enter, flushBatch; intros Hop Hs; split_cases;
    repeat (case_match; simplify_eq/=); done.
Qed.

Lemma ch_inv_op k op w w' : chop_durable op -> ch_inv k w -> ch_step op w = Some w' -> ch_inv k w'.
Proof.
  intros Hd [Hc Hl Hs Hk] Hop. split; [by eapply core_op|by eapply life_op| |by rewrite (knobs_op _ _ _ Hop)].
  destruct (scope_step op w) as [sop|] eqn:E; [|by rewrite (scope_same _ _ _ Hop E)].
  rewrite (ch_step_scope _ _ _ E) in Hop. destruct (scope_op _ _) eqn:Hp; simplify_eq.
  eapply scope_inv_op; [by eapply scope_durable|exact Hs|exact Hp].
Qed.

Lemma ch_inv_run k ops w w' :
  Forall chop_durable ops -> ch_inv k w -> ch_run ops w = Some w' -> ch_inv k w'.
Proof.
  revert w. induction ops as [|op ops IH]; intros w HF Hi; simpl; [by intros [= <-]|].
  apply Forall_cons in HF as [Hd HF]. destruct (ch_step op w) as [w1|] eqn:E; [|done].
  eapply (IH w1); eauto using ch_inv_op.
Qed.

Lemma ch_inv_open cfg w : Open None cfg = Ok w -> ch_inv (cw_knobs w) w /\ (0 < kn_workers (cw_knobs w))%Z.
Proof.
  intros [= <-]. split.
  - split; [split; simpl; try done; set_solver | split; simpl; try done; set_solver | apply scope_inv_new | done].
  - simpl. unfold or_default. destruct (Z.leb_spec (cf_WriteWorkers cfg) 0); [done|lia].
Qed.

(** Once the connection is closed nothing is left in the writer's hands. *)
Lemma closed_empty k w :
  ch_inv k w -> (0 < kn_workers k)%Z -> cw_connClosed w = true -> cw_jobs w = [] /\ batches w = [].
Proof.
  intros [Hco Hl _ Hk] Hpos Hcl. destruct (li_conn w Hl Hcl) as (Hq & Hdone & _).
  destruct (li_queues w Hl Hq) as (Hclosing & _). destruct (li_closing w Hl Hclosing) as (Hst & _).
  pose proof (li_pool w Hl Hst) as Hlen. rewrite Hk in Hlen. rewrite Forall_forall in Hdone. split.
  - destruct (cw_workers w) as [|wk ws] eqn:E; [simpl in Hlen; lia|].
    assert (wk ∈ cw_workers w) as Hin by (rewrite E; set_solver). rewrite <- E in Hdone.
    by destruct (li_done w Hl wk Hin (Hdone wk Hin)) as (_ & ? & _).
  - assert (Forall (fun wk => wk_batch wk = []) (cw_workers w)) as HB.
    { rewrite Forall_forall. intros wk Hin. by destruct (li_done w Hl wk Hin (Hdone wk Hin)) as (_ & _ & ?). }
    unfold batches. clear -HB. induction HB as [|wk ws Hb _ IH]; simpl; [done|]. rewrite Hb. exact IH.
Qed.

(** C6. Every commit callback fires exactly once. Open a writer and let producers,
    workers, timers, readers and shutdown interleave in any way, with any backend:
    the jobs the queue accepted are exactly those still queued, those batched by a
    worker and those settled, so none is settled twice or before it was accepted;
    and when the connection is closed, all of them have been settled. A callback
    fires with true only when the row is durable, and every row in the table is
    that of an accepted job, so a re-insert after a lost acknowledgement is
    identical to the original. *)
Theorem commit_exactly_once cfg w0 ops w :
  Open None cfg = Ok w0 -> Forall chop_durable ops -> ch_run ops w0 = Some w ->
  cw_jobs w ++ batches w ++ (cw_settled w).*1 ≡ₚ cw_accepted w /\
  (cw_connClosed w = true -> (cw_settled w).*1 ≡ₚ cw_accepted w) /\
  (forall job, (job, true) ∈ cw_settled w -> wj_args job ∈ cw_table w) /\
  (forall row, row ∈ cw_table w -> exists job, job ∈ cw_accepted w /\ row = wj_args job).
Proof.
  intros Ho HF Hr. destruct (ch_inv_open _ _ Ho) as [H0 Hpos].
  pose proof (ch_inv_run _ _ _ _ HF H0 Hr) as Hi. destruct (inv_core _ _ Hi) as [Hc Hd Hf _].
  split; [done|]. split; [|split; [done|]].
  - intros Hcl. destruct (closed_empty _ _ Hi Hpos Hcl) as [Hj Hb]. by rewrite <- Hc, Hj, Hb.
  - intros row Hrow. apply Hf, list_elem_of_fmap in Hrow as [job [-> Hj]]. eauto.
Qed.

(** ** Shutdown terminates *)

(** Work left for the drain: each step of it below uses up at least one unit. *)
Definition open_units (b : bool) : nat := if b then 0 else 1.

Definition drain_measure (w : CHWriter) : nat :=
  2 * length (cw_sending w) + length (cw_jobs w) + sum_list (map (fun wk => open_units (wk_done wk)) (cw_workers w)) +
  2 * length (sp_sending (cw_scope w)) + length (sp_events (cw_scope w)) + open_units (sp_done (cw_scope w)) +
  cw_otherUsers w + open_units (cw_queuesClosed w) + open_units (cw_connClosed w).

(** The steps that carry a shutdown forward. *)
Definition is_drain (op : chOp) : bool :=
  match op with
  | OSend _ | OGiveUp _ _ | OReceive _ _ | OClosed _ _ | OScopeSend _ | OScopeGiveUp _ | OScopeReceive _
  | OScopeClosed _ | OUserLeave | OCloseQueues | OCloseConn => true
  | _ => false
  end.

Lemma closing_op op w w' : life_inv w -> cw_closing w = true -> ch_step op w = Some w' -> cw_closing w' = true.
Proof.
  intros Hi Hc. destruct (li_closing w Hi Hc) as (Hs & _). destruct op; simpl;
    unfold scope_step, Enqueue_enter, Enqueue_send, Enqueue_giveUp, worker_receive, worker_timer, worker_closed,
      user_enter, user_leave, Start_workers, ctx_cancel, Start_closing, Start_closeQueues, Start_closeConn,
      flushBatch; rewrite ?Hc, ?Hs; intros Hop; split_cases; repeat (case_match; simplify_eq/=); done.
Qed.

Lemma sum_workers_insert (ws : list worker) i wk wk' :
  ws !! i = Some wk ->
  sum_list (map (fun wk => open_units (wk_done wk)) (<[i := wk']> ws)) + open_units (wk_done wk) =
  sum_list (map (fun wk => open_units (wk_done wk)) ws) + open_units (wk_done wk').
Proof.
  revert i. induction ws as [|x ws IH]; intros [|i] Hi; simplify_eq/=; [lia|].
  specialize (IH i Hi). lia.
Qed.

Lemma length_delete_lt {A} (l : list A) i x : l !! i = Some x -> S (length (delete i l)) = length l.
Proof. intros Hi. pose proof (length_delete l i (mk_is_Some _ _ Hi)). apply lookup_lt_Some in Hi. lia. Qed.

Lemma measure_worker op w w' :
  ch_step op w = Some w' -> match op with OReceive _ _ | OTimer _ _ | OClosed _ _ => True | _ => False end ->
  drain_measure w' + (if is_drain op then 1 else 0) <= drain_measure w.
Proof.
  intros Hop Hk. destruct op; try done; simpl in Hop.
  - unfold worker_receive in Hop. destruct (cw_workers w !! i) as [wk|] eqn:Hw; [|done].
    destruct (cw_jobs w) as [|job rest] eqn:Hj; [done|]. destruct (wk_done wk) eqn:Hd; [done|].
    unfold drain_measure. simpl. rewrite Hj. simpl. destruct (Z.leb _ _); injection Hop as <-; simpl.
    + pose proof (sum_workers_insert _ _ _ newWorker Hw) as Hs. rewrite Hd in Hs. simpl in Hs.
      destruct (flushBatch_frame f (wk_batch wk ++ [job]) (set_jobs rest (cw_sending w) w))
        as (_&->&->&_&->&_&_&_&_&->&->&->&_). simpl. lia.
    + match goal with |- context [<[i := ?x]> _] => pose proof (sum_workers_insert _ _ _ x Hw) as Hs end.
      rewrite Hd in Hs. simpl in Hs. lia.
  - unfold worker_timer in Hop. destruct (cw_workers w !! i) as [wk|] eqn:Hw; [|done].
    destruct (wk_done wk) eqn:Hd; simpl in Hop; [done|]. destruct (wk_timer wk); [|done]. injection Hop as <-.
    pose proof (sum_workers_insert _ _ _ newWorker Hw) as Hs. rewrite Hd in Hs. simpl in Hs.
    unfold drain_measure. simpl.
    destruct (flushBatch_frame f (wk_batch wk) w) as (_&->&->&_&->&_&_&_&_&->&->&->&_). lia.
  - unfold worker_closed in Hop. destruct (cw_workers w !! i) as [wk|] eqn:Hw; [|done].
    destruct (cw_jobs w) as [|] eqn:Hj; [|done]. destruct (wk_done wk) eqn:Hd; simpl in Hop; [done|].
    destruct (cw_queuesClosed w) eqn:Hq; [|done]. injection Hop as <-.
    pose proof (sum_workers_insert _ _ _ (mkWorker [] false true) Hw) as Hs. rewrite Hd in Hs. simpl in Hs.
    unfold drain_measure. simpl. rewrite Hj. destruct (wk_batch wk) as [|j js].
    + rewrite Hj. simpl. lia.
    + destruct (flushBatch_frame f (j :: js) w) as (_&->&->&_&->&_&_&_&_&->&->&->&_). rewrite Hj. simpl. lia.
Qed.

Lemma measure_scope op w w' sop :
  scope_step op w = Some sop -> cw_closing w = true -> ch_step op w = Some w' ->
  drain_measure w' + (if is_drain op then 1 else 0) <= drain_measure w.
Proof.
  intros Hs Hc Hop. rewrite (ch_step_scope _ _ _ Hs) in Hop.
  destruct (scope_op sop (cw_scope w)) as [p|] eqn:Hp; simplify_eq. unfold drain_measure. simpl.
  enough (2 * length (sp_sending p) + length (sp_events p) + open_units (sp_done p) + (if is_drain op then 1 else 0)
          <= 2 * length (sp_sending (cw_scope w)) + length (sp_events (cw_scope w)) + open_units (sp_done (cw_scope w)))
    by lia.
  destruct op; simpl in Hs; rewrite ?Hc in Hs; try (destruct (cw_started w); [|discriminate Hs]);
    simplify_eq; simpl in Hp; simpl (is_drain _).
  - simplify_eq. lia.
  - unfold EnqueueScopeEvent_send in Hp. split_cases. simpl. rewrite length_app. simpl.
    erewrite <- (length_delete_lt (sp_sending _)) by done. lia.
  - unfold EnqueueScopeEvent_giveUp in Hp. split_cases. simpl.
    erewrite <- (length_delete_lt (sp_sending _)) by done. lia.
  - unfold scopeWorker_receive in Hp. destruct (sp_done _) eqn:Hd; [done|].
    destruct (sp_events _) as [|ev rest]; [done|]. destruct (Nat.leb _ _); injection Hp as <-; simpl.
    + edestruct (flushScopeBatch_moves f) as (He & Hse & _ & _ & Hdn & _). rewrite He, Hse, Hdn. simpl. rewrite Hd. simpl. lia.
    + rewrite Hd. simpl. lia.
  - unfold scopeWorker_timer in Hp. destruct (sp_done _) eqn:Hd; [done|].
    destruct (sp_timer _); [|done]. injection Hp as <-. simpl.
    edestruct (flushScopeBatch_moves f) as (He & Hse & _ & _ & Hdn & _). rewrite He, Hse, Hdn, Hd. simpl. lia.
  - unfold scopeWorker_retryTick in Hp. destruct (sp_done _) eqn:Hd; [done|]. simpl in Hp.
    destruct (sp_retries _) as [|ev es]; injection Hp as <-; simpl; [rewrite Hd; simpl; lia|].
    edestruct (flushScopeBatch_moves f) as (He & Hse & _ & _ & Hdn & _). rewrite He, Hse, Hdn. simpl. rewrite Hd. simpl. lia.
  - unfold scopeWorker_closed in Hp. destruct (sp_done _) eqn:Hd; [done|]. destruct (cw_queuesClosed w); [|done].
    destruct (sp_events _) eqn:E; [|done]. simpl in Hp. injection Hp as <-. simpl.
    edestruct (flushScopeBatch_moves f) as (He & Hse & _). rewrite He, Hse. simpl. rewrite E. simpl. lia.
Qed.

Lemma measure_op op w w' :
  life_inv w -> cw_closing w = true -> ch_step op w = Some w' ->
  drain_measure w' + (if is_drain op then 1 else 0) <= drain_measure w.
Proof.
  intros Hi Hc Hop. destruct (scope_step op w) as [sop|] eqn:Hs; [by eapply measure_scope|].
  destruct (li_closing w Hi Hc) as (Hst & _).
  destruct op; try (by apply measure_worker); simpl in Hs; try (rewrite Hst in Hs; done); try done;
    simpl in Hop; unfold Enqueue_enter, Enqueue_send, Enqueue_giveUp, user_enter, user_leave, Start_workers,
      ctx_cancel, Start_closing, Start_closeQueues, Start_closeConn in Hop; rewrite ?Hc, ?Hst in Hop; simpl in Hop.
  - simplify_eq. simpl. lia.
  - destruct (cw_sending w !! i) eqn:E; [|done]. destruct (Z.ltb _ _); [|done]. injection Hop as <-.
    unfold drain_measure. simpl. rewrite length_app. simpl.
    rewrite <- (length_delete_lt (cw_sending w) i _ E). lia.
  - destruct (cw_sending w !! i) eqn:E; [|done]. injection Hop as <-. unfold drain_measure. simpl.
    rewrite <- (length_delete_lt (cw_sending w) i _ E). lia.
  - simplify_eq. simpl. lia.
  - destruct (cw_otherUsers w) eqn:E; [done|]. injection Hop as <-. unfold drain_measure. simpl. rewrite E. lia.
  - done.
  - simplify_eq. unfold drain_measure. simpl. lia.
  - by destruct (cw_ctxDone w).
  - destruct (cw_queuesClosed w) eqn:E; [done|]. simpl in Hop.
    destruct (cw_sending w) eqn:E1; [|done]. destruct (sp_sending _) eqn:E2; [|done]. injection Hop as <-.
    unfold drain_measure. simpl. rewrite E, E1, E2. simpl. lia.
  - destruct (cw_queuesClosed w) eqn:E1; simpl in Hop; [|done].
    destruct (cw_connClosed w) eqn:E2; simpl in Hop; [done|].
    destruct (forallb _ _ && _ && _); [|done]. injection Hop as <-.
    unfold drain_measure. simpl. rewrite E1, E2. simpl. lia.
Qed.

Lemma forallb_exists_false {A} (p : A -> bool) l :
  forallb p l = false -> exists i x, l !! i = Some x /\ p x = false.
Proof.
  induction l as [|x l IH]; simpl; [done|]. destruct (p x) eqn:E; simpl.
  - intros H. destruct (IH H) as (i & y & Hi & Hy). by exists (S i), y.
  - intros _. by exists 0, x.
Qed.

(** Until the connection is closed, some step of the drain can be taken, whatever
    the backend then does. *)
Lemma drain_progress k w (f : flushEnv) (sf : scopeFlush) :
  ch_inv k w -> (0 < kn_workers k)%Z -> cw_closing w = true -> cw_connClosed w = false ->
  exists op, is_drain op = true /\ is_Some (ch_step op w).
Proof.
  intros [_ Hl _ Hk] Hpos Hc Hopen. destruct (li_closing w Hl Hc) as (Hst & _).
  pose proof (li_pool w Hl Hst) as Hlen. rewrite Hk in Hlen.
  destruct (cw_queuesClosed w) eqn:Hq.
  2: { destruct (cw_sending w) as [|j js] eqn:Hs.
       2: { exists (OGiveUp 0 true). split; [done|]. simpl. unfold Enqueue_giveUp. rewrite Hs. by eexists. }
       destruct (sp_sending (cw_scope w)) as [|e es] eqn:Hss.
       2: { exists (OScopeGiveUp 0). split; [done|]. simpl. unfold EnqueueScopeEvent_giveUp. rewrite Hss. by eexists. }
       exists OCloseQueues. split; [done|]. simpl. unfold Start_closeQueues. rewrite Hc, Hq, Hs, Hss. by eexists. }
  destruct (cw_jobs w) as [|job rest] eqn:Hj.
  2: { destruct (cw_workers w) as [|wk ws] eqn:Hw; [simpl in Hlen; lia|].
       destruct (wk_done wk) eqn:Hd.
       { destruct (li_done w Hl wk) as (_ & E & _); [rewrite Hw; set_solver|done|congruence]. }
       exists (OReceive 0 f). split; [done|]. simpl. unfold worker_receive. rewrite Hw, Hj. simpl. rewrite Hd.
       destruct (Z.leb _ _); by eexists. }
  destruct (forallb wk_done (cw_workers w)) eqn:Hall.
  2: { destruct (forallb_exists_false _ _ Hall) as (i & wk & Hi & Hd).
       exists (OClosed i f). split; [done|]. simpl. unfold worker_closed. rewrite Hi, Hj, Hd, Hq. by eexists. }
  destruct (sp_done (cw_scope w)) eqn:Hsd.
  2: { destruct (sp_events (cw_scope w)) as [|ev evs] eqn:He.
       - exists (OScopeClosed sf). split; [done|]. simpl. rewrite Hst. unfold scope_op, scopeWorker_closed.
         rewrite Hsd, Hq, He. simpl. by eexists.
       - exists (OScopeReceive sf). split; [done|]. simpl. rewrite Hst. unfold scope_op, scopeWorker_receive.
         rewrite Hsd, He. destruct (Nat.leb _ _); by eexists. }
  destruct (cw_otherUsers w) as [|n] eqn:Hu.
  - exists OCloseConn. split; [done|]. simpl. unfold Start_closeConn. rewrite Hq, Hopen, Hall, Hsd, Hu. by eexists.
  - exists OUserLeave. split; [done|]. simpl. unfold user_leave. rewrite Hu. by eexists.
Qed.

Lemma drain_run k ops w w' :
  Forall chop_durable ops -> ch_inv k w -> cw_closing w = true -> ch_run ops w = Some w' ->
  drain_measure w' + length (filter (fun op => is_drain op = true) ops) <= drain_measure w /\
  ch_inv k w' /\ cw_closing w' = true.
Proof.
  revert w. induction ops as [|op ops IH]; intros w HF Hi Hc; simpl.
  { intros [= <-]. simpl. split; [lia|done]. }
  apply Forall_cons in HF as [Hd HF]. destruct (ch_step op w) as [w1|] eqn:E; [|done]. intros Hr.
  pose proof (measure_op _ _ _ (inv_life _ _ Hi) Hc E) as Hm.
  destruct (IH w1 HF (ch_inv_op _ _ _ _ Hd Hi E) (closing_op _ _ _ (inv_life _ _ Hi) Hc E) Hr) as (Hle & Hi' & Hc').
  split; [|done]. rewrite filter_cons. destruct (is_drain op); case_decide; simpl; lia || done.
Qed.

Definition idle_attempt : attempt := mkAttempt None (fun _ => None) None None (fun _ => true).
Definition idle_flush : flushEnv := mkFlushEnv idle_attempt [] (fun _ => idle_attempt).
Definition idle_scopeFlush : scopeFlush := mkScopeFlush idle_attempt [].

(** C20. Shutdown terminates and loses nothing. From any state in which [Start] has
    begun to shut down, whatever runs next and whatever the backend does: at most
    [drain_measure] steps of the drain are taken in all, no other step adds work,
    and until the connection is closed one of them can be taken; when it is closed
    every accepted job has been settled, and it stays closed with no worker left to
    use it. *)
Theorem shutdown_completes cfg w0 ops w ops' w' :
  Open None cfg = Ok w0 -> Forall chop_durable ops -> ch_run ops w0 = Some w -> cw_closing w = true ->
  Forall chop_durable ops' -> ch_run ops' w = Some w' ->
  drain_measure w' + length (filter (fun op => is_drain op = true) ops') <= drain_measure w /\
  (cw_connClosed w' = true \/ exists op, is_drain op = true /\ is_Some (ch_step op w')) /\
  (cw_connClosed w' = true ->
   (cw_settled w').*1 ≡ₚ cw_accepted w' /\ Forall (fun wk => wk_done wk = true) (cw_workers w') /\
   cw_otherUsers w' = 0).
Proof.
  intros Ho HF Hr Hc HF' Hr'. destruct (ch_inv_open _ _ Ho) as [H0 Hpos].
  pose proof (ch_inv_run _ _ _ _ HF H0 Hr) as Hi.
  destruct (drain_run _ _ _ _ HF' Hi Hc Hr') as (Hm & Hi' & Hc').
  split; [done|]. split.
  - destruct (cw_connClosed w') eqn:E; [by left|right].
    by apply (drain_progress _ w' idle_flush idle_scopeFlush Hi').
  - intros Hcl. destruct (closed_empty _ _ Hi' Hpos Hcl) as [Hj Hb].
    destruct (li_conn w' (inv_life _ _ Hi') Hcl) as (_ & Hd & _ & Hu).
    split; [|done]. pose proof (co_conserved _ (inv_core _ _ Hi')) as Hp. by rewrite Hj, Hb in Hp.
Qed.

(** The row-by-row phase blames exactly the rows whose own attempt failed. *)
Lemma isolateRows_blame row i batch n job :
  batch !! n = Some job ->
  (isolateRows row i batch).2 !! n = Some (job, bool_decide ((sendBatchOnce (row (i + n)) [job]).2 = None)).
Proof.
  revert i n. induction batch as [|x batch IH]; intros i [|n] Hn; simplify_eq/=.
  - rewrite Nat.add_0_r. destruct (sendBatchOnce (row i) [job]) as [rows err]. by destruct (isolateRows row (S i) batch).
  - destruct (sendBatchOnce (row i) [x]) as [rows err]. specialize (IH (S i) n Hn).
    destruct (isolateRows row (S i) batch) as [rows' settled]. simpl in *. by rewrite IH, <- Nat.add_succ_comm.
Qed.

(** Attempts that begin once the manager's context is cancelled never run under it,
    so the drain gives every queued write a genuine attempt. *)
Lemma drain_context_live w : life_inv w -> cw_ctxDone w = true -> attemptContext w <> CtxManager.
Proof. intros Hi Hd. unfold attemptContext. rewrite Hd. apply (li_ctx w Hi). Qed.

Module ChSamples.

(** A backend that answers, one whose acknowledgement is lost after every row
    landed, and one that is down. *)
Definition up : attempt := idle_attempt.
Definition lost : attempt := mkAttempt None (fun _ => None) None (Some "read: connection reset") (fun _ => true).
Definition down : attempt :=
  mkAttempt (Some "dial: refused") (fun _ => None) None (Some "dial: refused") (fun _ => false).

Definition cfg : Config := mkConfig "ch:9000" "kube" "writer" "secret" 0 0 false 2 0 1 1 0 0 50.

Definition row (name : string) : Record_ :=
  mkRecord 100 "c1" "Added" "" "v1" "Pod" "default" name "uid" "1" ∅ ["kubelet"] "{}" "" "44136f".
Definition job (name : string) : Job :=
  mkJob (row name) (CommitDelete (mkKey "main" "" "Pod" "default" name) 0 name 1).

(** The queue holds one job and a batch two. The batch insert loses its
    acknowledgement; alone, the first row is confirmed and the second fails. *)
Definition flaky : flushEnv := mkFlushEnv lost [] (fun i => if Nat.eqb i 0 then up else down).

Definition traffic : list chOp :=
  [OStart; OEnqueue (job "a"); OSend 0; OEnqueue (job "b"); OReceive 0 idle_flush; OSend 0; OReceive 0 flaky].
Definition shutdown : list chOp :=
  [OCloseQueues; OClosed 0 idle_flush; OScopeClosed idle_scopeFlush; OCloseConn].

Definition opened : CHWriter := match Open None cfg with Ok w => w | Err _ => NewCHWriter 0 0 0 0 0 0 0 0 end.
Definition final : CHWriter := default opened (ch_run (traffic ++ [OCancel; OClosing] ++ shutdown) opened).

Lemma up_durable : durable up.
Proof. done. Qed.
Lemma lost_durable : durable lost.
Proof. done. Qed.
Lemma down_durable : durable down.
Proof. done. Qed.

Lemma flaky_durable : env_durable flaky.
Proof. split; [by repeat constructor|]. intros i. simpl. by destruct (Nat.eqb i 0). Qed.
Lemma idle_durable : env_durable idle_flush.
Proof. split; [by repeat constructor|done]. Qed.

Lemma open_opened : Open None cfg = Ok opened.
Proof. vm_compute. reflexivity. Qed.
Lemma run_final : ch_run (traffic ++ [OCancel; OClosing] ++ shutdown) opened = Some final.
Proof. vm_compute. reflexivity. Qed.

Ltac sample_durable :=
  repeat (apply List.Forall_cons;
    [first [exact I | exact flaky_durable | exact idle_durable | exact ScopeSamples.ok_durable]|]);
  apply List.Forall_nil.

Lemma traffic_durable : Forall chop_durable (traffic ++ [OCancel; OClosing]).
Proof. sample_durable. Qed.
Lemma shutdown_durable : Forall chop_durable shutdown.
Proof. sample_durable. Qed.
Lemma all_durable : Forall chop_durable (traffic ++ [OCancel; OClosing] ++ shutdown).
Proof. sample_durable. Qed.

Lemma final_closed : cw_connClosed final = true.
Proof. vm_compute. reflexivity. Qed.

Lemma commit_exactly_once_witness :
  cw_settled final = [(renderJob (job "a"), true); (renderJob (job "b"), false)] /\
  (cw_settled final).*1 ≡ₚ cw_accepted final.
Proof.
  split; [vm_compute; reflexivity|].
  exact (proj1 (proj2 (commit_exactly_once cfg opened _ final open_opened all_durable run_final)) final_closed).
Defined.

Definition closing : CHWriter := default opened (ch_run (traffic ++ [OCancel; OClosing]) opened).

Lemma run_closing : ch_run (traffic ++ [OCancel; OClosing]) opened = Some closing.
Proof. vm_compute. reflexivity. Qed.
Lemma run_shutdown : ch_run shutdown closing = Some final.
Proof. vm_compute. reflexivity. Qed.
Lemma closing_closing : cw_closing closing = true.
Proof. vm_compute. reflexivity. Qed.

Lemma shutdown_completes_witness :
  drain_measure closing = 4 /\
  drain_measure final + length (filter (fun op => is_drain op = true) shutdown) <= drain_measure closing.
Proof.
  split; [vm_compute; reflexivity|].
  exact (proj1 (shutdown_completes cfg opened _ closing shutdown final open_opened traffic_durable run_closing
    closing_closing shutdown_durable run_shutdown)).
Defined.

(** In that run the table holds the first row twice, byte for byte, and the second
    once although its callback reported failure. *)
Example lost_ack_rows :
  cw_table final = map (fun n => insertArgs (row n)) ["a"; "b"; "a"] /\
  cm_success (cw_metrics final) = 1%Z /\ cm_failed (cw_metrics final) = 1%Z.
Proof. split; [vm_compute; reflexivity|split; vm_compute; reflexivity]. Qed.

End ChSamples.
