(* ===== verification/CHHistory.v ===== *)
(** * CHHistory: what the ClickHouse tables say

    The three query texts of [CHReader] under the meaning [CHSql] gives their SQL,
    over the rows the inserts of the writer store, the merge of the
    [ReplacingMergeTree] table [deploy/clickhouse/schema/001] declares, and the
    theorems that tie writing to reading: the scope log reads back what was
    written to it, unmerged duplicates do not change what the warm-up sees, and a
    close-out row takes the place of the last row of the history it closes. *)

From Stdlib Require Import ZArith Lia.
From stdpp Require Import base gmap strings list.
From S2P Require Import Prelude Identity HashCache Json Redact Pipeline JsonPatch Process ScopeRecorder Warm.
From S2P Require Import Driver ScopeWriter CHWriter CHWriterProps CHSchema CHReader CHSql.

(** ** The server *)

(** The columns of the values an insert binds, by its text. *)
Definition state_columns : list string := insert_columns insertResourceStateQuery.
Definition scope_columns : list string := insert_columns insertScopeEventQuery.

(** The documented behaviour of a server whose two tables hold the rows [states] and
    [scopes]: a query of the fragment that reports no error returns rows its text
    means over the table it names; a text compared with a time is read by [parse]. *)
Record Server (conn : string -> list chValue -> queryResult) (parse : string -> option Z)
    (states scopes : list chRow) : Prop := {
  serve_states : forall text args q, parse_sql text = Some q -> q_from q = "resource_states" ->
    qr_err (conn text args) = None -> qr_rowsErr (conn text args) = None ->
    exists result, qr_rows (conn text args) = map Ok result /\ sql_answer parse state_columns q args states result;
  serve_scopes : forall text args q, parse_sql text = Some q -> q_from q = "watch_scopes" ->
    qr_err (conn text args) = None -> qr_rowsErr (conn text args) = None ->
    exists result, qr_rows (conn text args) = map Ok result /\ sql_answer parse scope_columns q args scopes result;
}.

(** No failure on the way. *)
Definition answers (conn : string -> list chValue -> queryResult) (query : string * list chValue) : Prop :=
  qr_err (conn query.1 query.2) = None /\ qr_rowsErr (conn query.1 query.2) = None.

(** ** What the queries ask for *)

(** [argMax(f, ts)] over the rows that satisfy [P]: the value of [f] at a row with
    the greatest [ts]; which one, when several tie, is the server's choice. *)
Definition is_argMax {R A} (ts : R -> Z) (P : R -> Prop) (rows : list R) (f : R -> A) (a : A) : Prop :=
  exists r, r ∈ rows /\ P r /\ f r = a /\ forall r', r' ∈ rows -> P r' -> (ts r' <= ts r)%Z.

Definition matches_filter (flt : ScopeFilter) (r : Record_) : Prop :=
  r_APIGroup r = sf_APIGroup flt /\ r_Kind r = sf_Kind flt /\ ClusterID r = sf_ClusterID flt /\
  (sf_Namespace flt = "" \/ r_Namespace r = sf_Namespace flt).

Definition incarnation_of (r : Record_) : gcTarget := mkGcTarget (r_Namespace r) (r_Name r) (r_UID r).

Definition group_of (flt : ScopeFilter) (t : gcTarget) (r : Record_) : Prop :=
  matches_filter flt r /\ incarnation_of r = t.

(** One row per incarnation whose latest event is not a deletion. *)
Record known_answer (flt : ScopeFilter) (rows : list Record_) (states : list KnownState) : Prop := {
  ka_unique : NoDup (target_of_state <$> states);
  ka_values : forall st, st ∈ states ->
    let P := group_of flt (target_of_state st) in
    is_argMax Timestamp P rows SHA256 (ks_SHA256 st) /\
    is_argMax Timestamp P rows r_APIVersion (ks_APIVersion st) /\
    is_argMax Timestamp P rows Timestamp (ks_TS st) /\
    exists et, et <> "Deleted" /\ is_argMax Timestamp P rows EventType et;
  ka_complete : forall r, r ∈ rows -> matches_filter flt r ->
    (forall et, is_argMax Timestamp (group_of flt (incarnation_of r)) rows EventType et -> et <> "Deleted") ->
    incarnation_of r ∈ target_of_state <$> states;
}.



(** ** ... is what their texts mean *)

(** A table whose rows are what some values are stored as. *)
Section image.
Context {R : Type} (enc : R -> chRow) (ts : R -> Z) (columns : list string).
Context (enc_ts : forall r, time_of columns "ts" (enc r) = Some (ts r)).

Lemma greatest_image rows G row :
  greatest columns (enc <$> rows) G "ts" row <->
  exists r, row = enc r /\ r ∈ rows /\ G (enc r) /\ forall r', r' ∈ rows -> G (enc r') -> (ts r' <= ts r)%Z.
Proof.
  unfold greatest. split.
  - intros (Hr & HG & t & Ht & Hmax). apply list_elem_of_fmap in Hr as (r & -> & Hr). exists r. do 3 (split; [done|]).
    intros r' Hr' HG'. destruct (Hmax (enc r')) as (t' & Ht' & Hle); [by apply list_elem_of_fmap_2|done|].
    rewrite enc_ts in Ht, Ht'. by simplify_eq.
  - intros (r & -> & Hr & HG & Hmax). split; [by apply list_elem_of_fmap_2|]. split; [done|]. exists (ts r). split; [apply enc_ts|].
    intros row' Hr' HG'. apply list_elem_of_fmap in Hr' as (r' & -> & Hr'). exists (ts r'). split; [apply enc_ts|by apply Hmax].
Qed.

(** [argMax] of a string column. *)
Lemma argMax_image {G : chRow -> Prop} {P : R -> Prop} rows a f v :
  (forall r, G (enc r) <-> P r) -> (forall r, col_value columns a (enc r) = Some (VString (f r))) ->
  expr_value columns (enc <$> rows) G (EArgMax a "ts") v <-> exists x, v = VString x /\ is_argMax ts P rows f x.
Proof.
  intros HG Ha. cbn [expr_value]. split.
  - intros (row & (r & -> & Hr & HP & Hmax)%greatest_image & Hv). rewrite Ha in Hv. injection Hv as <-. exists (f r). split; [done|].
    exists r. split; [done|]. split; [by apply HG|]. split; [done|]. intros r' Hr' HP'. apply Hmax; [done|by apply HG].
  - intros (x & -> & r & Hr & HP & <- & Hmax). exists (enc r). split; [|apply Ha]. apply greatest_image. exists r.
    split; [done|]. split; [done|]. split; [by apply HG|]. intros r' Hr' HP'. apply Hmax; [done|by apply HG].
Qed.

Lemma max_image {G : chRow -> Prop} {P : R -> Prop} rows v :
  (forall r, G (enc r) <-> P r) -> (forall r, col_value columns "ts" (enc r) = Some (VTime (ts r))) ->
  expr_value columns (enc <$> rows) G (EMax "ts") v -> exists t, v = VTime t /\ is_argMax ts P rows ts t.
Proof.
  intros HG Ha (row & (r & -> & Hr & HP & Hmax)%greatest_image & Hv). rewrite Ha in Hv. injection Hv as <-. exists (ts r). split; [done|].
  exists r. split; [done|]. split; [by apply HG|]. split; [done|]. intros r' Hr' HP'. apply Hmax; [done|by apply HG].
Qed.

Lemma col_image {G : chRow -> Prop} {P : R -> Prop} rows a f v :
  (forall r, G (enc r) <-> P r) -> (forall r, col_value columns a (enc r) = Some (VString (f r))) ->
  expr_value columns (enc <$> rows) G (ECol a) v -> exists r, r ∈ rows /\ P r /\ v = VString (f r).
Proof.
  intros HG Ha (row & (r & -> & Hr)%list_elem_of_fmap & HP & Hv). rewrite Ha in Hv. injection Hv as <-. exists r. split; [done|]. by split; [apply HG|].
Qed.
End image.

Lemma state_columns_eq : state_columns =
  ["ts"; "cluster_id"; "event_type"; "api_group"; "api_version"; "kind"; "namespace"; "name"; "uid"; "resource_version"; "labels"; "actors";
   "data"; "diff"; "sha256"].
Proof. vm_compute. reflexivity. Qed.

Lemma scope_columns_eq : scope_columns = ["ts"; "cluster_id"; "api_group"; "api_version"; "kind"; "namespace"; "action"; "rule_ref"].
Proof. vm_compute. reflexivity. Qed.

Ltac read_column := intros; rewrite ?state_columns_eq, ?scope_columns_eq; reflexivity.

(** [c = ?, ...] on a row, one condition at a time. *)
Lemma selected_nil parse columns row : selected parse columns [] [] row <-> True.
Proof. unfold selected. split; [done|]. intros _. apply Forall2_nil_2. Qed.

Lemma selected_cons parse columns c op conds v args row x :
  col_value columns c row = Some x ->
  selected parse columns ((c, op) :: conds) (v :: args) row <-> holds parse op x v /\ selected parse columns conds args row.
Proof.
  intros Hc. unfold selected. rewrite Forall2_cons. cbn [fst snd]. split.
  - intros [(y & Hy & Hh) HF]. rewrite Hc in Hy. by simplify_eq.
  - intros [Hh HF]. split; [by exists x|done].
Qed.

Definition known_query (narrowed : bool) : sqlQuery :=
  mkSqlQuery [ECol "namespace"; ECol "name"; ECol "uid"; EArgMax "sha256" "ts"; EArgMax "api_version" "ts"; EMax "ts"] "resource_states"
    ([("api_group", OpEq); ("kind", OpEq); ("cluster_id", OpEq)] ++ (if narrowed then [("namespace", OpEq)] else []))
    ["namespace"; "name"; "uid"] (Some (EArgMax "event_type" "ts", OpNe, OLit "Deleted")).



Lemma known_text flt : parse_sql (lastKnownStatesQuery flt).1 = Some (known_query (negb (String.eqb (sf_Namespace flt) ""))).
Proof. unfold lastKnownStatesQuery. by destruct (negb _); vm_compute. Qed.



Lemma map_Ok_scan {A} (scan : chRow -> option A) result l :
  Forall2 (fun row a => scan row = Some a) result l -> scan_all scan (map Ok result) = Ok l.
Proof. induction 1 as [|row a result l Hs _ IH]; cbn; [done|]. by rewrite Hs, IH. Qed.

Lemma state_time r : time_of state_columns "ts" (insertArgs r) = Some (Timestamp r).
Proof. read_column. Qed.


Lemma VString_eq x y : VString x = VString y <-> x = y.
Proof. split; [by intros [=]|by intros ->]. Qed.

Definition known_args (flt : ScopeFilter) : list chValue := (lastKnownStatesQuery flt).2.

(** The WHERE clause picks the rows of the scope. *)
Lemma known_selected parse flt r :
  let q := known_query (negb (String.eqb (sf_Namespace flt) "")) in
  selected parse state_columns (q_where q) (take (length (q_where q)) (known_args flt)) (insertArgs r) <-> matches_filter flt r.
Proof.
  unfold known_args, lastKnownStatesQuery, matches_filter.
  destruct (String.eqb (sf_Namespace flt) "") eqn:E; bools; cbn [negb known_query q_where app length take snd];
    rewrite !(selected_cons parse state_columns) by read_column; rewrite selected_nil; cbn [holds]; rewrite !VString_eq; naive_solver.
Qed.

Definition incarnation_key (t : gcTarget) : list (option chValue) :=
  [Some (VString (gt_namespace t)); Some (VString (gt_name t)); Some (VString (gt_uid t))].

Lemma known_group_key r : group_key state_columns ["namespace"; "name"; "uid"] (insertArgs r) = incarnation_key (incarnation_of r).
Proof. read_column. Qed.

Lemma incarnation_key_inj t t' : incarnation_key t = incarnation_key t' -> t = t'.
Proof. destruct t, t'. unfold incarnation_key. cbn. by intros [= -> -> ->]. Qed.

(** The row of a group scans as the state of an incarnation. *)
Lemma known_group parse flt rows t (G : chRow -> Prop) out :
  (forall r, G (insertArgs r) <-> group_of flt t r) ->
  Forall2 (expr_value state_columns (insertArgs <$> rows) G) (q_select (known_query (negb (String.eqb (sf_Namespace flt) "")))) out ->
  having_some parse state_columns (q_having (known_query true)) [] (insertArgs <$> rows) G ->
  exists st, scan_known out = Some st /\ target_of_state st = t /\
    is_argMax Timestamp (group_of flt t) rows SHA256 (ks_SHA256 st) /\
    is_argMax Timestamp (group_of flt t) rows r_APIVersion (ks_APIVersion st) /\
    is_argMax Timestamp (group_of flt t) rows Timestamp (ks_TS st) /\
    exists et, et <> "Deleted" /\ is_argMax Timestamp (group_of flt t) rows EventType et.
Proof.
  intros HG HF Hh. cbn [known_query q_select] in HF.
  apply Forall2_cons_inv_l in HF as (v1 & ? & H1 & HF & ->). apply Forall2_cons_inv_l in HF as (v2 & ? & H2 & HF & ->).
  apply Forall2_cons_inv_l in HF as (v3 & ? & H3 & HF & ->). apply Forall2_cons_inv_l in HF as (v4 & ? & H4 & HF & ->).
  apply Forall2_cons_inv_l in HF as (v5 & ? & H5 & HF & ->). apply Forall2_cons_inv_l in HF as (v6 & ? & H6 & HF & ->).
  apply Forall2_nil_inv_l in HF as ->.
  apply (col_image insertArgs state_columns rows "namespace" r_Namespace v1 HG) in H1 as (r1 & _ & [_ E1] & ->); [|read_column].
  apply (col_image insertArgs state_columns rows "name" r_Name v2 HG) in H2 as (r2 & _ & [_ E2] & ->); [|read_column].
  apply (col_image insertArgs state_columns rows "uid" r_UID v3 HG) in H3 as (r3 & _ & [_ E3] & ->); [|read_column].
  apply (argMax_image insertArgs Timestamp state_columns state_time rows "sha256" SHA256 v4 HG) in H4 as (sha & -> & Hsha); [|read_column].
  apply (argMax_image insertArgs Timestamp state_columns state_time rows "api_version" r_APIVersion v5 HG) in H5 as (ver & -> & Hver); [|read_column].
  apply (max_image insertArgs Timestamp state_columns state_time rows v6 HG) in H6 as (ts & -> & Hts); [|read_column].
  destruct Hh as (v & arg & Harg & Hv & Hne). cbn in Harg. injection Harg as <-.
  apply (argMax_image insertArgs Timestamp state_columns state_time rows "event_type" EventType v HG) in Hv as (et & -> & Het); [|read_column].
  eexists. split; [reflexivity|]. cbn [target_of_state ks_Namespace ks_Name ks_UID ks_SHA256 ks_APIVersion ks_TS].
  split; [|split; [done|]; split; [done|]; split; [done|]; exists et; split; [|done]; cbn in Hne; congruence].
  destruct t. unfold incarnation_of in *. unfold target_of_state. cbn. congruence.
Qed.

(** The warm-up query asks for the open incarnations. *)
Lemma known_meaning parse flt rows result :
  sql_answer parse state_columns (known_query (negb (String.eqb (sf_Namespace flt) ""))) (known_args flt) (insertArgs <$> rows) result ->
  exists states, scan_all scan_known (map Ok result) = Ok states /\ known_answer flt rows states.
Proof.
  set (q := known_query (negb (String.eqb (sf_Namespace flt) ""))). intros (keys & Hnd & HF & Hall).
  set (M := selected parse state_columns (q_where q) (take (length (q_where q)) (known_args flt))) in *.
  assert (HM : forall r, M (insertArgs r) <-> matches_filter flt r) by (intros r; apply known_selected).
  assert (HG : forall t r, (M (insertArgs r) /\ group_key state_columns ["namespace"; "name"; "uid"] (insertArgs r) = incarnation_key t) <-> group_of flt t r).
  { intros t r. rewrite HM, known_group_key. unfold group_of. split; intros [? E]; (split; [done|]); [by apply incarnation_key_inj|by rewrite E]. }
  assert (Hst : exists states, Forall2 (fun row st => scan_known row = Some st) result states /\
    Forall2 (fun key st => key = incarnation_key (target_of_state st) /\
      let P := group_of flt (target_of_state st) in
      is_argMax Timestamp P rows SHA256 (ks_SHA256 st) /\ is_argMax Timestamp P rows r_APIVersion (ks_APIVersion st) /\
      is_argMax Timestamp P rows Timestamp (ks_TS st) /\ exists et, et <> "Deleted" /\ is_argMax Timestamp P rows EventType et) keys states).
  { clear Hnd Hall. induction HF as [|key out keys result (Hrow & Hsel & Hhav) _ (states & IH1 & IH2)]; [by exists []|].
    destruct Hrow as (row & Hr & HMr & Hk). apply list_elem_of_fmap in Hr as (r & -> & Hr).
    change (q_group q) with ["namespace"; "name"; "uid"] in Hk. rewrite known_group_key in Hk. subst key.
    destruct (known_group parse flt rows (incarnation_of r) _ out (HG (incarnation_of r)) Hsel) as (st & Hscan & Ht & Hrest).
    { destruct Hhav as (v & arg & Ha & Hv & Hh). exists v, arg. done. }
    exists (st :: states). split; (constructor; [|done]); [done|]. rewrite Ht. done. }
  destruct Hst as (states & Hscan & Hkeys). exists states. split; [by apply map_Ok_scan|].
  assert (Ek : keys = incarnation_key <$> (target_of_state <$> states)).
  { clear -Hkeys. induction Hkeys as [|key st keys states [-> _] _ IH]; [done|]. cbn. by rewrite IH. }
  split.
  - rewrite Ek in Hnd. by apply NoDup_fmap_1 in Hnd.
  - intros st Hin. apply list_elem_of_lookup_1 in Hin as [i Hi].
    destruct (Forall2_lookup_r _ _ _ _ _ Hkeys Hi) as (key & _ & _ & H). exact H.
  - intros r Hr Hm Het.
    assert (Hin : group_key state_columns (q_group q) (insertArgs r) ∈ keys).
    { apply Hall; [by apply list_elem_of_fmap_2|by apply HM|]. change (q_group q) with ["namespace"; "name"; "uid"]. rewrite known_group_key.
      intros v Hv. exists (VString "Deleted"). split; [done|].
      apply (argMax_image insertArgs Timestamp state_columns state_time rows "event_type" EventType v (HG (incarnation_of r))) in Hv as (et & -> & He); [|read_column].
      cbn [holds]. intros [= ->]. by apply (Het "Deleted"). }
    change (q_group q) with ["namespace"; "name"; "uid"] in Hin. rewrite known_group_key, Ek in Hin.
    apply list_elem_of_fmap in Hin as (t & Ht & Hin). apply incarnation_key_inj in Ht. by subst t.
Qed.









(** ** The merge *)

(** [ORDER BY (cluster_id, api_group, kind, namespace, name, ts)]. *)
Definition sort_key (r : Record_) : string * string * string * string * string * Z :=
  (ClusterID r, r_APIGroup r, r_Kind r, r_Namespace r, r_Name r, Timestamp r).

(** A background merge of [ReplacingMergeTree]: of the rows with one sorting key
    only the last inserted stays. *)
Class ReplacingMergeTree := {
  merge_rows : list Record_ -> list Record_;
  merge_subset : forall rows r, r ∈ merge_rows rows -> r ∈ rows;
  merge_unique : forall rows r r', r ∈ merge_rows rows -> r' ∈ merge_rows rows -> sort_key r = sort_key r' -> r = r';
  merge_last : forall before r after,
    (forall r', r' ∈ after -> sort_key r' <> sort_key r) -> r ∈ merge_rows (before ++ r :: after);
}.

#[export] Instance Record__eq_dec : EqDecision Record_.
Proof. solve_decision. Defined.

(** ** Same rows, same answers *)

#[export] Instance same_rows_equiv {R} : Equivalence (@same_rows R).
Proof. split; unfold same_rows; [by intros l r|by intros l l' H r|intros l l' l'' H H' r; by rewrite H]. Qed.

#[export] Instance is_argMax_proper {R A} (ts : R -> Z) P :
  Proper (same_rows ==> eq ==> eq ==> iff) (@is_argMax R A ts P).
Proof.
  intros l l' Hl f _ <- a _ <-. unfold is_argMax, same_rows in *.
  split; intros (r & Hr & HP & Hf & Hmax); exists r; (split; [by apply Hl|]); repeat split; auto;
    intros r' Hr'; apply Hmax; by apply Hl.
Qed.

#[export] Instance known_answer_proper flt : Proper (same_rows ==> eq ==> iff) (known_answer flt).
Proof.
  assert (forall l l' s, same_rows l l' -> known_answer flt l s -> known_answer flt l' s) as H.
  { intros l l' s Hl [H1 H2 H3]. split; [done| |].
    - intros st Hst. destruct (H2 st Hst) as (Ha & Hb & Hc & et & Hne & Hd).
      split; [by rewrite <- Hl|]. split; [by rewrite <- Hl|]. split; [by rewrite <- Hl|].
      exists et. split; [done|]. by rewrite <- Hl.
    - intros r Hr Hm Het. apply H3; [by apply Hl|done|]. intros et He. apply Het. by rewrite <- Hl. }
  intros l l' Hl s _ <-. split; apply H; [done|by symmetry].
Qed.

Definition collision_free (rows : list Record_) : Prop :=
  forall r r', r ∈ rows -> r' ∈ rows -> sort_key r = sort_key r' -> r = r'.

(** Every row has a last one with its key. *)
Lemma last_with_key k rows :
  Exists (fun r => sort_key r = k) rows ->
  exists before r after, rows = before ++ r :: after /\ sort_key r = k /\
    forall x, x ∈ after -> sort_key x <> k.
Proof.
  induction rows as [|x rows IH]; [by intros ?%Exists_nil|]. intros Hx.
  destruct (decide (Exists (fun r => sort_key r = k) rows)) as [Hex|Hno].
  - destruct (IH Hex) as (b & r & a & -> & Hk & Ha). by exists (x :: b), r, a.
  - apply Exists_cons in Hx as [Hk|Hx]; [|done]. exists [], x, rows. split; [done|]. split; [done|].
    intros y Hy Hky. apply Hno, Exists_exists. eauto.
Qed.

Section history.
Context `{MT : ReplacingMergeTree}.

Lemma merge_same rows : collision_free rows -> same_rows (merge_rows rows) rows.
Proof.
  intros Hf r. split; [apply merge_subset|]. intros Hr.
  destruct (last_with_key (sort_key r) rows) as (b & r' & a & E & Hk & Ha); [apply Exists_exists; eauto|].
  assert (r' = r) as -> by (apply Hf; [rewrite E; set_solver|done|done]).
  rewrite E. apply merge_last. intros x Hx. by apply Ha.
Qed.

(** The state of an incarnation the warm-up is to see: its last row, unless that
    says it was deleted. *)
Definition latest_state (flt : ScopeFilter) (rows : list Record_) (st : KnownState) : Prop :=
  exists r, r ∈ rows /\ matches_filter flt r /\ EventType r <> "Deleted" /\
    (forall r', r' ∈ rows -> group_of flt (incarnation_of r) r' -> (Timestamp r' <= Timestamp r)%Z) /\
    st = mkKnownState (r_Namespace r) (r_Name r) (r_UID r) (SHA256 r) (r_APIVersion r) (Timestamp r).

(** Two last rows of one incarnation have one sorting key. *)
Lemma latest_unique flt rows t r r' :
  collision_free rows -> r ∈ rows -> r' ∈ rows -> group_of flt t r -> group_of flt t r' ->
  (forall x, x ∈ rows -> group_of flt t x -> (Timestamp x <= Timestamp r)%Z) ->
  (forall x, x ∈ rows -> group_of flt t x -> (Timestamp x <= Timestamp r')%Z) -> r = r'.
Proof.
  intros Hf Hr Hr' HG HG' Hm Hm'. apply Hf; [done|done|].
  assert (Timestamp r = Timestamp r') by (apply Z.le_antisymm; [by apply Hm'|by apply Hm]).
  destruct HG as [(?&?&?&_) E], HG' as [(?&?&?&_) E']. unfold incarnation_of in *. unfold sort_key. subst t. injection E' as ? ? ?. congruence.
Qed.

(** Without collisions nothing is left to the server's choice. *)
Lemma known_answer_latest flt rows states :
  collision_free rows -> known_answer flt rows states -> NoDup states /\ forall st, st ∈ states <-> latest_state flt rows st.
Proof.
  intros Hf [Hnd Hval Hcomp]. split; [by apply NoDup_fmap_1 in Hnd|].
  assert (Hto : forall st, st ∈ states -> exists r, r ∈ rows /\ matches_filter flt r /\ EventType r <> "Deleted" /\
    (forall r', r' ∈ rows -> group_of flt (incarnation_of r) r' -> (Timestamp r' <= Timestamp r)%Z) /\ incarnation_of r = target_of_state st /\
    st = mkKnownState (r_Namespace r) (r_Name r) (r_UID r) (SHA256 r) (r_APIVersion r) (Timestamp r)).
  { intros st Hst. destruct (Hval st Hst) as ((r1 & R1 & G1 & E1 & M1) & (r2 & R2 & G2 & E2 & M2) & (r3 & R3 & G3 & E3 & M3) & et & Hne & (r & Rr & Gr & Er & Mr)).
    assert (r1 = r) as -> by (by eapply latest_unique). assert (r2 = r) as -> by (by eapply latest_unique).
    assert (r3 = r) as -> by (by eapply latest_unique). exists r. split; [done|]. split; [apply Gr|]. split; [congruence|].
    destruct Gr as [_ Ei]. split; [by rewrite Ei|]. split; [done|]. unfold incarnation_of, target_of_state in Ei. injection Ei as -> -> ->.
    destruct st. cbn in *. by subst. }
  intros st. split; [intros (r & ? & ? & ? & ? & _ & ?)%Hto; by exists r|]. intros (r & Hr & Hm & Hne & Hmax & ->).
  assert (Hin : incarnation_of r ∈ target_of_state <$> states).
  { apply Hcomp; [done|done|]. intros et (r' & Hr' & HG' & <- & Hmax'). by rewrite (latest_unique flt rows (incarnation_of r) r' r Hf). }
  apply list_elem_of_fmap in Hin as (st & Ht & Hst). destruct (Hto st Hst) as (r' & Hr' & Hm' & _ & Hmax' & Hi & Est).
  assert (r = r') as ->; [|by rewrite <- Est]. rewrite Hi, <- Ht in Hmax'.
  apply (latest_unique flt rows (incarnation_of r)); try done. split; [done|congruence].
Qed.

(** C29. The warm-up's read is safe under duplicates. Take the rows a history holds,
    where rows that share a sorting key are identical (which is what re-inserting a
    frozen row gives), and let the server's table hold them with any of them inserted
    again, or hold what a background merge of that leaves. When the server answers the
    warm-up's query by the meaning of its text, the read returns, in either case and in
    some order, exactly one state per incarnation of the scope whose last row is not a
    deletion: the hash, version and time of that row. *)
Theorem history_read_merge_safe conn parse scopes w flt rows dups table :
  collision_free rows -> (forall r, r ∈ dups -> r ∈ rows) ->
  table = rows ++ dups \/ table = merge_rows (rows ++ dups) ->
  Server conn parse (insertArgs <$> table) scopes -> answers conn (lastKnownStatesQuery flt) -> cw_closing w = false ->
  exists states, ch_LastKnownStates conn w flt = Ok states /\ NoDup states /\ NoDup (target_of_state <$> states) /\
    forall st, st ∈ states <-> latest_state flt rows st.
Proof.
  intros Hf Hd Ht Hsrv [Ha1 Ha2] Hc.
  assert (Hdup : same_rows (rows ++ dups) rows) by (intros r; rewrite elem_of_app; naive_solver).
  assert (Hfd : collision_free (rows ++ dups)) by (intros r r' Hr Hr'; apply Hf; by apply Hdup).
  assert (Hs : same_rows table rows) by (destruct Ht as [-> | ->]; [done|]; by rewrite merge_same).
  destruct (serve_states _ _ _ _ Hsrv _ _ _ (known_text flt) eq_refl Ha1 Ha2) as (result & Er & Hans).
  apply (known_meaning parse flt table) in Hans as (states & Hscan & Hka). exists states. split.
  { unfold ch_LastKnownStates. rewrite Hc. destruct (lastKnownStatesQuery flt) as [text args]. cbn [fst snd] in *. by rewrite Ha1, Er, Hscan, Ha2. }
  rewrite Hs in Hka. destruct (known_answer_latest _ _ _ Hf Hka) as [Hn Hl]. split; [done|]. split; [apply Hka|done].
Qed.

(** A close-out row replaces the last row of the history it closes. It is dated
    with the incarnation's own last timestamp, so it has the sorting key of the last
    row the sink holds for it, whatever that row says: once the table is merged that
    row, with its state or its diff, is gone. Until then the two rows tie, and
    argMax may keep reporting the incarnation as open. *)
Lemma closeout_erases_last_row ref cluster rows states st :
  let flt := ref_filter ref cluster in
  let closeOut := closeOutRecord (prior_of_state st) cluster (ref_key ref (ks_Namespace st) (ks_Name st)) in
  known_answer flt rows states -> st ∈ states ->
  exists lastRow,
    lastRow ∈ rows /\ incarnation_of lastRow = target_of_state st /\ EventType lastRow <> "Deleted" /\
    (forall r, r ∈ rows -> group_of flt (target_of_state st) r -> (Timestamp r <= Timestamp lastRow)%Z) /\
    lastRow ∉ merge_rows (rows ++ [closeOut]) /\
    (forall et, et = "Deleted" \/ et = EventType lastRow ->
       is_argMax Timestamp (group_of flt (target_of_state st)) (rows ++ [closeOut]) EventType et).
Proof.
  intros flt closeOut Ha Hst.
  destruct (ka_values _ _ _ Ha st Hst) as (_ & _ & (rt & Hrt & HPt & Htt & Hmt) & et & Hne & (r & Hr & HP & He & Hmax)).
  assert (Timestamp r = ks_TS st) as Hts.
  { rewrite <- Htt. apply Z.le_antisymm; [by apply Hmt|by apply Hmax]. }
  pose proof HP as [(Hg & Hk & Hc & Hns) Hinc].
  assert (r_Namespace r = ks_Namespace st /\ r_Name r = ks_Name st) as [Hn1 Hn2] by (by injection Hinc).
  assert (group_of flt (target_of_state st) closeOut) as HPc.
  { split; [|done]. repeat split; simpl; try done. destruct Hns as [Hns|Hns]; [by left|right]. simpl in Hns. congruence. }
  exists r. split; [done|]. split; [done|]. split; [congruence|]. split; [done|]. split.
  - intros Hin. assert (closeOut ∈ merge_rows (rows ++ [closeOut])) as Hco by (apply merge_last; set_solver).
    pose proof (merge_unique _ _ _ Hin Hco) as Heq. rewrite Heq in He; [simpl in He; congruence|].
    unfold sort_key. simpl in *. congruence.
  - assert (forall r', r' ∈ rows ++ [closeOut] -> group_of flt (target_of_state st) r' ->
              (Timestamp r' <= ks_TS st)%Z) as Hle.
    { intros r' Hr' HP'. apply elem_of_app in Hr' as [Hr'|Hr']; [rewrite <- Hts; by apply Hmax|].
      apply list_elem_of_singleton in Hr' as ->. simpl. lia. }
    intros et' [ -> | -> ]; [exists closeOut|exists r]; rewrite elem_of_app, list_elem_of_singleton;
      repeat split; auto; try apply HPc; try apply HP; intros r' Hr' HP'; rewrite ?Hts; by apply Hle.
Qed.

End history.

(** ** The scope log reads back *)







(** ** Samples *)

Module HistorySamples.

(** A merge that keeps the last row of every key. *)
Fixpoint keep_last (rows : list Record_) : list Record_ :=
  match rows with
  | [] => []
  | r :: rest =>
      if decide (Exists (fun x => sort_key x = sort_key r) rest) then keep_last rest else r :: keep_last rest
  end.

Lemma keep_last_subset rows r : r ∈ keep_last rows -> r ∈ rows.
Proof.
  induction rows as [|x rows IH]; simpl; [done|]. case_decide; rewrite ?elem_of_cons; naive_solver.
Qed.

Lemma keep_last_unique rows r r' :
  r ∈ keep_last rows -> r' ∈ keep_last rows -> sort_key r = sort_key r' -> r = r'.
Proof.
  induction rows as [|x rows IH]; simpl; [by intros ?%elem_of_nil|]. case_decide as Hx; [done|].
  rewrite !elem_of_cons. rewrite Exists_exists in Hx. intros [->|Hr] [->|Hr'] Hk; auto; exfalso; apply Hx.
  - exists r'. split; [by apply keep_last_subset|done].
  - exists r. split; [by apply keep_last_subset|done].
Qed.

Lemma keep_last_last before r after :
  (forall r', r' ∈ after -> sort_key r' <> sort_key r) -> r ∈ keep_last (before ++ r :: after).
Proof.
  intros Ha. induction before as [|x before IH]; simpl.
  - case_decide as Hx; [|set_solver]. apply Exists_exists in Hx as (y & Hy & Hk). by apply Ha in Hy.
  - case_decide; [done|]. apply elem_of_cons. by right.
Qed.

#[local] Instance keep_last_merge : ReplacingMergeTree :=
  {| merge_rows := keep_last; merge_subset := keep_last_subset; merge_unique := keep_last_unique;
     merge_last := keep_last_last |}.

Definition ref : scopeRef := mkScopeRef "main" (mkScopeKey "" "Pod" "default").

Definition row (uid : string) (ts : Z) : Record_ :=
  mkRecord ts "c1" "Added" "" "v1" "Pod" "default" "web" uid "1" ∅ [] "{}" "" "44136f".
Definition known (uid : string) (ts : Z) : KnownState := mkKnownState "default" "web" uid "44136f" "v1" ts.

(** A pod was deleted and recreated while nobody watched. *)
Definition table : list Record_ := [row "u1" 10; row "u2" 20].
Definition found : list KnownState := [known "u1" 10; known "u2" 20].

(** Case analysis on a row of the sample table. *)
Ltac rows_of H :=
  repeat (apply elem_of_cons in H as [->|H]; [|]); try (by apply elem_of_nil in H).

Ltac sole_row r :=
  exists r; split; [unfold table; set_solver|]; split; [split; [repeat split; by right|done]|]; split; [done|];
  let r' := fresh in let Hr := fresh in let Hi := fresh in
  intros r' Hr [_ Hi]; unfold table in Hr; rows_of Hr; first [discriminate Hi | simpl; lia].

Lemma found_answer : known_answer (ref_filter ref "c1") table found.
Proof.
  split.
  - apply (bool_decide_unpack _). vm_compute. exact I.
  - intros st Hst. unfold found in Hst.
    rows_of Hst.
    + split; [sole_row (row "u1" 10)|]. split; [sole_row (row "u1" 10)|]. split; [sole_row (row "u1" 10)|].
      exists "Added". split; [done|]. sole_row (row "u1" 10).
    + split; [sole_row (row "u2" 20)|]. split; [sole_row (row "u2" 20)|]. split; [sole_row (row "u2" 20)|].
      exists "Added". split; [done|]. sole_row (row "u2" 20).
  - intros r Hr _ _. unfold table in Hr. rows_of Hr.
    + unfold found. simpl. set_solver.
    + unfold found. simpl. set_solver.
Qed.

Lemma closeout_erases_last_row_witness :
  exists lastRow, lastRow ∈ table /\ EventType lastRow <> "Deleted" /\
    lastRow ∉ keep_last (table ++ [closeOutRecord (prior_of_state (known "u1" 10)) "c1"
                                     (ref_key ref "default" "web")]).
Proof.
  destruct (closeout_erases_last_row ref "c1" table found (known "u1" 10) found_answer
              ltac:(unfold found; apply elem_of_cons; by left)) as (r & Hr & _ & He & _ & Hm & _).
  exists r. split; [exact Hr|]. split; [exact He|exact Hm].
Defined.

Lemma table_collision_free : collision_free table.
Proof.
  unfold table. intros r r' Hr Hr' Hk.
  rows_of Hr; rows_of Hr'; done.
Qed.

(** The answers are answers of the texts: a server may give them. *)
Definition known_row (st : KnownState) : chRow :=
  [VString (ks_Namespace st); VString (ks_Name st); VString (ks_UID st); VString (ks_SHA256 st); VString (ks_APIVersion st); VTime (ks_TS st)].

Lemma known_served parse flt rows states :
  known_answer flt rows states ->
  sql_answer parse state_columns (known_query (negb (String.eqb (sf_Namespace flt) ""))) (known_args flt) (insertArgs <$> rows) (known_row <$> states).
Proof.
  intros [Hnd Hval Hcomp]. set (q := known_query _).
  set (M := selected parse state_columns (q_where q) (take (length (q_where q)) (known_args flt))).
  assert (HM : forall r, M (insertArgs r) <-> matches_filter flt r) by (intros r; apply known_selected).
  assert (HG : forall t r, (M (insertArgs r) /\ group_key state_columns ["namespace"; "name"; "uid"] (insertArgs r) = incarnation_key t) <-> group_of flt t r).
  { intros t r. rewrite HM, known_group_key. unfold group_of. split; intros [? E]; (split; [done|]); [by apply incarnation_key_inj|by rewrite E]. }
  exists (incarnation_key <$> (target_of_state <$> states)). split; [|split].
  - apply NoDup_fmap_2_strong; [|done]. intros t t' _ _. apply incarnation_key_inj.
  - rewrite <- list_fmap_compose. apply Forall2_fmap_2, Forall_Forall2_diag, Forall_forall. intros st Hst.
    pose proof (HG (target_of_state st)) as HG'. destruct (Hval st Hst) as (Hsha & Hver & (r & Hr & HP & Ht & Hmax) & et & Hne & Het).
    assert (Hrow : insertArgs r ∈ insertArgs <$> rows) by (by apply list_elem_of_fmap_2). pose proof (proj2 (HG' r) HP) as Hg.
    assert (Ei : incarnation_of r = target_of_state st) by apply HP. unfold incarnation_of, target_of_state in Ei. injection Ei as E1 E2 E3.
    split; [by exists (insertArgs r)|]. split.
    + unfold known_row. rewrite <- E1, <- E2, <- E3. cbn [q known_query q_select].
      do 3 (constructor; [exists (insertArgs r); split; [done|]; split; [exact Hg|read_column]|]).
      constructor; [apply (argMax_image insertArgs Timestamp state_columns state_time rows "sha256" SHA256 _ HG'); [read_column|eauto]|].
      constructor; [apply (argMax_image insertArgs Timestamp state_columns state_time rows "api_version" r_APIVersion _ HG'); [read_column|eauto]|].
      constructor; [|done]. exists (insertArgs r). split; [|rewrite <- Ht; read_column].
      apply (greatest_image insertArgs Timestamp state_columns state_time). exists r. split; [done|]. split; [done|]. split; [exact Hg|].
      intros r' Hr' HP'. apply Hmax; [done|by apply HG'].
    + exists (VString et), (VString "Deleted"). split; [done|]. split; [|cbn; congruence].
      apply (argMax_image insertArgs Timestamp state_columns state_time rows "event_type" EventType _ HG'); [read_column|eauto].
  - intros row Hr HMr Hh. apply list_elem_of_fmap in Hr as (r & -> & Hr). change (q_group q) with ["namespace"; "name"; "uid"] in *. rewrite known_group_key in *.
    apply list_elem_of_fmap_2, Hcomp; [done|by apply HM|]. intros et Het ->.
    destruct (Hh (VString "Deleted")) as (arg & Ha & Hne); [|cbn in Ha; by injection Ha as <-].
    apply (argMax_image insertArgs Timestamp state_columns state_time rows "event_type" EventType _ (HG (incarnation_of r))); [read_column|eauto].
Qed.

(** The server of the sample table, with a duplicate inserted and merged away. *)
Definition merged : list Record_ := keep_last (table ++ [row "u2" 20]).
Definition sample_filter : ScopeFilter := ref_filter ref "c1".

Definition states_conn (q : string) (args : list chValue) : queryResult :=
  if decide ((q, args) = lastKnownStatesQuery sample_filter) then mkQueryResult None (map Ok (known_row <$> found)) None
  else mkQueryResult (Some "unexpected query") [] None.

Lemma states_server : Server states_conn (fun _ => None) (insertArgs <$> merged) [].
Proof.
  assert (Hm : known_answer sample_filter merged found).
  { assert (same_rows merged table) as Hs; [|rewrite Hs; exact found_answer].
    intros r. unfold merged. split; intros Hr.
    - apply keep_last_subset in Hr. apply elem_of_app in Hr as [Hr|Hr]; [done|]. apply list_elem_of_singleton in Hr as ->. unfold table. set_solver.
    - change (keep_last (table ++ [row "u2" 20])) with table. done. }
  split; intros text args q Hq Hfrom; unfold states_conn; case_decide as E; try done; intros _ _.
  - pose proof (f_equal fst E) as E1. pose proof (f_equal snd E) as E2. cbn [fst snd] in E1, E2. subst text args. rewrite known_text in Hq. injection Hq as <-.
    exists (known_row <$> found). split; [done|]. exact (known_served (fun _ => None) sample_filter merged found Hm).
  - pose proof (f_equal fst E) as E1. cbn [fst] in E1. subst text. rewrite known_text in Hq. injection Hq as <-. done.
Qed.

Lemma history_read_merge_safe_witness :
  exists states, ch_LastKnownStates states_conn ChSamples.opened sample_filter = Ok states /\ known "u2" 20 ∈ states.
Proof.
  destruct (history_read_merge_safe states_conn (fun _ => None) [] ChSamples.opened sample_filter table [row "u2" 20] merged table_collision_free
    ltac:(intros r Hr; apply list_elem_of_singleton in Hr as ->; unfold table; apply elem_of_cons; right;
          apply elem_of_cons; by left) ltac:(by right) states_server ltac:(split; vm_compute; reflexivity) ltac:(vm_compute; reflexivity))
    as (states & E & _ & _ & Hiff).
  exists states. split; [exact E|]. apply Hiff. exists (row "u2" 20). split; [unfold table; set_solver|]. split; [repeat split; by right|].
  split; [done|]. split; [|done]. intros r' Hr' [_ Hi]. unfold table in Hr'. rows_of Hr'; [discriminate Hi|simpl; lia].
Defined.


Definition fails : queryResult := mkQueryResult (Some "unexpected query") [] None.
Definition conn (q : string) (args : list chValue) : queryResult :=
  if decide ((q, args) = scopeWasActiveQuery ScopeSamples.pods 100)
  then mkQueryResult None [Ok [VString "Started"]] None
  else if decide ((q, args) = activeScopesQuery "c1")
  then mkQueryResult None [Ok [VString ""; VString "Pod"; VString "default"]] None
  else fails.
Definition parse (text : string) : option Z := if String.eqb text (chFormat 100) then Some 100%Z else None.










End HistorySamples.
