(* ===== verification/SinkManagerProps.v ===== *)
(** * SinkManagerProps: lifecycle of sink instances

    Routing follows the declared sinks ([routing_refines]); every instance that was
    started is routed, or a background goroutine is about to stop it, or it has been
    stopped ([no_instance_leaked]); a deletion evicts the pipeline's state only
    after the instance finished. Concrete runs show where deletion and re-creation
    meet. *)

From Stdlib Require Import ZArith Lia.
From stdpp Require Import base gmap strings list sorting.
From S2P Require Import Prelude Identity HashCache Json Redact Pipeline JsonPatch Process ScopeRecorder Warm SinkManager.

Section props.
Context {C : Type} `{IC : InstanceConfig C}.
Implicit Types (m : SinkManager C) (op : managerOp C).

(** ** Accounting *)

(** The instance a goroutine has yet to cancel. *)
Definition to_cancel (t : tail) : option nat :=
  match t with TDrain id => Some id | TDelete _ inst => inst | _ => None end.

(** The instance a goroutine has cancelled. *)
Definition has_cancelled (t : tail) : option nat :=
  match t with
  | TDrainWait id | TDeleteWait _ id => Some id
  | TDeleteCheck _ inst | TDeleteEvict _ inst => inst
  | _ => None
  end.

Definition routed m (id : nat) : Prop := exists name i, sm_live m !! name = Some i /\ ls_id i = id.

Record manager_inv m : Prop := {
  mi_live : forall name i, sm_live m !! name = Some i ->
    ls_name i = name /\ exists inst, sm_insts m !! ls_id i = Some inst /\ in_name inst = name /\
      (cancelled inst = true -> sm_ctxDone m = true);
  mi_accounted : forall id inst, sm_insts m !! id = Some inst ->
    routed m id \/ cancelled inst = true \/ Some id ∈ to_cancel <$> sm_tails m;
  mi_exclusive : forall t id, t ∈ sm_tails m -> to_cancel t = Some id ->
    ~ routed m id /\ is_Some (sm_insts m !! id);
  mi_cancelled : forall t id, t ∈ sm_tails m -> has_cancelled t = Some id ->
    exists inst, sm_insts m !! id = Some inst /\ cancelled inst = true;
  mi_stopped : sm_stopped m = true -> sm_live m = ∅;
  mi_waiting : sm_started m = false -> sm_live m = ∅;
  mi_order : sm_stopped m = true -> sm_started m = true;
  mi_ctx : sm_ctxDone m = true -> Forall (fun i => cancelled i = true) (sm_insts m);
}.

Lemma manager_inv_new : manager_inv newManager.
Proof. split; simpl; try done; intros *; try (by intros ?%elem_of_nil); by rewrite ?lookup_empty, ?lookup_nil. Qed.

(** Two names never share an instance. *)
Lemma routed_name m name i id :
  manager_inv m -> sm_live m !! name = Some i -> ls_id i = id ->
  forall name' i', sm_live m !! name' = Some i' -> ls_id i' = id -> name' = name.
Proof.
  intros Hi Hl Hid name' i' Hl' Hid'. destruct (mi_live m Hi _ _ Hl) as (_ & inst & Hin & Hn & _).
  destruct (mi_live m Hi _ _ Hl') as (_ & inst' & Hin' & Hn' & _). congruence.
Qed.

(** The state after an instance for [name] was built, started and routed to; the
    previous one is handed to a goroutine. *)
Definition installed (name : string) (i : liveSink) m : SinkManager C :=
  mkManager (<[name := i]> (sm_live m)) (sm_started m) (sm_ctxDone m) (sm_pending m) (sm_stopped m)
    (sm_insts m ++ [mkInstance name (sm_ctxDone m) false])
    (sm_tails m ++ match sm_live m !! name with Some old => [TDrain (ls_id old)] | None => [] end) (sm_calls m).

(** What [ensureLocked] does: nothing when the fingerprint is that of the running
    instance, nothing but report when the factory fails, else the installation. *)
Lemma ensureLocked_cases factory name cfg m :
  let running := ls_fingerprint <$> sm_live m !! name in
  match decide (running = Some (Fingerprint cfg)), factory name cfg with
  | left _, _ => ensureLocked factory name cfg m = (m, None)
  | right _, Err _ => exists e, ensureLocked factory name cfg m = (m, Some e)
  | right _, Ok b =>
      ensureLocked factory name cfg m =
      (installed name (newLiveSink name (Fingerprint cfg) (length (sm_insts m)) b) m, None)
  end.
Proof.
  unfold ensureLocked, installed. destruct (decide _) as [Hd|Hd];
    destruct (sm_live m !! name) as [old|] eqn:E; simpl in Hd; simplify_eq.
  - by rewrite Hd, String.eqb_refl.
  - rewrite (proj2 (String.eqb_neq _ _)) by congruence. destruct (factory name cfg); [|by eexists]. done.
  - destruct (factory name cfg); [|by eexists]. unfold swapLocked, startLocked. simpl. by rewrite app_nil_r.
Qed.

Lemma routed_installed name i m id :
  manager_inv m -> ls_id i = length (sm_insts m) -> is_Some (sm_insts m !! id) ->
  routed (installed name i m) id <->
  routed m id /\ forall old, sm_live m !! name = Some old -> ls_id old <> id.
Proof.
  intros Hi Hid [x Hx]. apply lookup_lt_Some in Hx. unfold routed. simpl. split.
  - intros (n & i' & Hl & He). apply lookup_insert_Some in Hl as [[-> ->]|[Hne Hl]]; [lia|].
    split; [by exists n, i'|]. intros old Ho Heq. apply Hne. symmetry. by eapply (routed_name m name old id).
  - intros [(n & i' & Hl & He) Hno]. exists n, i'. split; [|done]. apply lookup_insert_Some. right. split; [|done].
    intros ->. by apply (Hno i').
Qed.

Lemma inv_installed name i m :
  manager_inv m -> sm_started m = true -> sm_stopped m = false ->
  ls_name i = name -> ls_id i = length (sm_insts m) -> manager_inv (installed name i m).
Proof.
  intros Hi Hst Hsp Hn Hid. pose proof Hi as [H1 H2 H3 H4 H5 H6 H8 H7].
  set (inst := mkInstance name (sm_ctxDone m) false).
  assert (Hold : forall id x, sm_insts m !! id = Some x -> (sm_insts m ++ [inst]) !! id = Some x)
    by (intros; by apply lookup_app_l_Some).
  split; try (simpl; congruence).
  - intros name' i' Hl. simpl in Hl. apply lookup_insert_Some in Hl as [[<- <-]|[Hne Hl]].
    + split; [done|]. exists inst. simpl. split; [by rewrite Hid, list_lookup_middle|done].
    + destruct (H1 _ _ Hl) as (Hn' & x & Hx & ? & ?). split; [done|]. exists x. simpl. auto.
  - intros id x Hx. simpl in Hx. apply lookup_app_Some in Hx as [Hx|[Hge Hx]].
    + rewrite (routed_installed name i m id Hi Hid) by eauto. simpl. rewrite fmap_app, elem_of_app.
      destruct (H2 id x Hx) as [Hr|[Hc|Ht]]; [|by auto|by auto].
      destruct (sm_live m !! name) as [old|] eqn:E; [|left; split; [done|by intros ? [=]]].
      destruct (decide (ls_id old = id)) as [<-|Hne]; [right; right; right; simpl; set_solver|].
      left. split; [done|]. by intros ? [= <-].
    + left. exists name, i. simpl. split; [apply lookup_insert_eq|]. apply list_lookup_singleton_Some in Hx as [? _]. lia.
  - intros t id Ht Htc. simpl in Ht. apply elem_of_app in Ht as [Ht|Ht].
    + destruct (H3 t id Ht Htc) as [Hnr [x Hx]]. split; [|simpl; eauto].
      rewrite (routed_installed name i m id Hi Hid) by eauto. by intros [? _].
    + destruct (sm_live m !! name) as [old|] eqn:E; [|by apply elem_of_nil in Ht].
      apply list_elem_of_singleton in Ht as ->. simpl in Htc. injection Htc as <-.
      destruct (H1 _ _ E) as (_ & x & Hx & _). split; [|simpl; eauto].
      rewrite (routed_installed name i m _ Hi Hid) by eauto. intros [_ Hno]. by apply (Hno old).
  - intros t id Ht Htc. simpl in Ht. apply elem_of_app in Ht as [Ht|Ht].
    + destruct (H4 t id Ht Htc) as (x & Hx & Hc). exists x. simpl. auto.
    + destruct (sm_live m !! name); [|by apply elem_of_nil in Ht]. by apply list_elem_of_singleton in Ht as ->.
  - simpl. intros Hc. apply Forall_app. split; [auto|]. by repeat constructor.
Qed.

Lemma inv_ensureLocked factory name cfg m :
  manager_inv m -> sm_started m = true -> sm_stopped m = false ->
  manager_inv (ensureLocked factory name cfg m).1.
Proof.
  intros Hi Hst Hsp. pose proof (ensureLocked_cases factory name cfg m) as Hc. simpl in Hc.
  destruct (decide _); [by rewrite Hc|]. destruct (factory name cfg); [rewrite Hc; by apply inv_installed|].
  destruct Hc as [e' Hc]. by rewrite Hc.
Qed.

Lemma ensureLocked_frame factory name cfg m :
  sm_started (ensureLocked factory name cfg m).1 = sm_started m /\
  sm_stopped (ensureLocked factory name cfg m).1 = sm_stopped m.
Proof.
  pose proof (ensureLocked_cases factory name cfg m) as Hc. simpl in Hc.
  destruct (decide _); [by rewrite Hc|]. destruct (factory name cfg); [by rewrite Hc|].
  destruct Hc as [e' Hc]. by rewrite Hc.
Qed.

Lemma inv_pending p m : manager_inv m -> manager_inv (set_pending p m).
Proof. intros [H1 H2 H3 H4 H5 H6 H8 H7]. by split. Qed.

Lemma inv_Ensure factory name cfg m : manager_inv m -> manager_inv (Ensure factory name cfg m).1.
Proof.
  intros Hi. unfold Ensure. destruct (String.eqb name ""); [done|]. destruct cfg as [cfg|]; [|done].
  destruct (sm_stopped m) eqn:Hsp; [done|]. destruct (sm_started m) eqn:Hst; simpl; [by apply inv_ensureLocked|].
  by apply inv_pending.
Qed.

Lemma inv_Delete name m : manager_inv m -> manager_inv (Delete name m).
Proof.
  intros Hi. unfold Delete. destruct (sm_stopped m) eqn:Hsp; [done|]. simpl.
  pose proof (inv_pending (delete name (sm_pending m)) m Hi) as [H1 H2 H3 H4 H5 H6 H8 H7]. simpl in *.
  destruct (sm_live m !! name) as [old|] eqn:E; simpl.
  - assert (Hlive : forall n i, partial_alter (fun _ => None) name (sm_live m) !! n = Some i ->
              n <> name /\ sm_live m !! n = Some i).
    { intros n i Hl. destruct (decide (n = name)) as [->|Hne]; [by rewrite lookup_partial_alter_eq in Hl|].
      by rewrite lookup_partial_alter_ne in Hl. }
    assert (Hgone : forall n i, n <> name -> sm_live m !! n = Some i -> ls_id i <> ls_id old).
    { intros n i Hne Hl He. apply Hne. by eapply (routed_name m name old (ls_id old)). }
    destruct (H1 _ _ E) as (_ & x & Hx & _).
    split; simpl; auto.
    + intros n i Hl. apply Hlive in Hl as [_ Hl]. by apply H1.
    + intros id y Hy. rewrite fmap_app, elem_of_app. destruct (H2 id y Hy) as [(n & i & Hl & <-)|[Hc|Ht]]; auto.
      destruct (decide (n = name)) as [->|Hne]; [right; right; right; simplify_eq; simpl; set_solver|].
      left. exists n, i. simpl. by rewrite lookup_partial_alter_ne.
    + intros t id Ht Htc. assert (Hsub : forall i, routed (spawn (TDelete name (Some (ls_id old)))
          (swapLocked name None (set_pending (delete name (sm_pending m)) m))) i -> routed m i).
      { intros i (n & li & Hl & He). apply Hlive in Hl as [_ Hl]. by exists n, li. }
      apply elem_of_app in Ht as [Ht|Ht].
      * destruct (H3 t id Ht Htc) as [Hnr Hx']. split; [|done]. intros Hr. by apply Hnr, Hsub.
      * apply list_elem_of_singleton in Ht as ->. simpl in Htc. injection Htc as <-. split; [|eauto].
        intros (n & i & Hl & He). apply Hlive in Hl as [Hne Hl]. by apply (Hgone n i).
    + intros t id Ht Htc. apply elem_of_app in Ht as [Ht|Ht]; [by eapply H4|].
      by apply list_elem_of_singleton in Ht as ->.
    + congruence.
    + intros Hs. rewrite (H6 Hs) in E. done.
  - split; simpl; auto.
    + intros id y Hy. rewrite fmap_app, elem_of_app. destruct (H2 id y Hy) as [Hr|[Hc|Ht]]; auto.
    + intros t id Ht Htc. apply elem_of_app in Ht as [Ht|Ht]; [by apply (H3 t)|].
      by apply list_elem_of_singleton in Ht as ->.
    + intros t id Ht Htc. apply elem_of_app in Ht as [Ht|Ht]; [by eapply H4|].
      by apply list_elem_of_singleton in Ht as ->.
Qed.

Lemma inv_ensure_pending factory pending names m :
  manager_inv m -> sm_started m = true -> sm_stopped m = false ->
  manager_inv (ensure_pending factory pending names m).
Proof.
  revert m. induction names as [|name names IH]; intros m Hi Hst Hsp; simpl; [done|].
  destruct (pending !! name) as [cfg|]; [|by apply IH].
  destruct (ensureLocked_frame factory name cfg m) as [H1 H2].
  apply IH; [by apply inv_ensureLocked|congruence..].
Qed.

Lemma inv_Start factory m : manager_inv m -> sm_started m = false -> manager_inv (manager_Start factory m).
Proof.
  intros Hi Hst. unfold manager_Start.
  assert (sm_stopped m = false) as Hsp.
  { destruct (sm_stopped m) eqn:E; [|done]. apply (mi_order m Hi) in E. congruence. }
  apply inv_ensure_pending; [|done..].
  destruct Hi as [H1 H2 H3 H4 H5 H6 H8 H7]. split; simpl; auto; congruence.
Qed.

Lemma inv_ctx_done m : manager_inv m -> manager_inv (ctx_done m).
Proof.
  intros [H1 H2 H3 H4 H5 H6 H8 H7]. unfold ctx_done. split; simpl; auto.
  - intros name i Hl. destruct (H1 _ _ Hl) as (Hn & x & Hx & Hnx & _). split; [done|].
    eexists. rewrite list_lookup_fmap, Hx. simpl. split; [done|]. done.
  - intros id x Hx. rewrite list_lookup_fmap in Hx. destruct (sm_insts m !! id); simplify_eq/=. auto.
  - intros t id Ht Htc. destruct (H3 t id Ht Htc) as [Hr [x Hx]]. split; [done|].
    rewrite list_lookup_fmap, Hx. by eexists.
  - intros t id Ht Htc. destruct (H4 t id Ht Htc) as (x & Hx & _). eexists. rewrite list_lookup_fmap, Hx. done.
  - intros _. apply Forall_fmap, Forall_forall. done.
Qed.

Lemma inv_Stop m : manager_inv m -> sm_started m = true -> manager_inv (manager_Stop m).
Proof.
  intros [H1 H2 H3 H4 H5 H6 H8 H7] Hst. unfold manager_Stop.
  assert (Hnr : forall id, ~ routed (manager_Stop m) id).
  { intros id (n & i & Hl & _). simpl in Hl. by rewrite lookup_empty in Hl. }
  split; simpl; auto.
  - intros n i Hl. by rewrite lookup_empty in Hl.
  - intros id x Hx. right. rewrite fmap_app, elem_of_app.
    destruct (H2 id x Hx) as [(n & i & Hl & <-)|[Hc|Ht]]; auto. right. right.
    apply list_elem_of_fmap. exists (TDrain (ls_id i)). split; [done|].
    apply list_elem_of_fmap. exists i. split; [done|]. apply list_elem_of_fmap. exists (n, i).
    split; [done|]. by apply elem_of_map_to_list.
  - intros t id Ht Htc. split; [apply Hnr|]. apply elem_of_app in Ht as [Ht|Ht]; [by apply (H3 t)|].
    apply list_elem_of_fmap in Ht as (i & -> & Hi). apply list_elem_of_fmap in Hi as ([n i'] & -> & Hi).
    apply elem_of_map_to_list in Hi. simpl in Htc. injection Htc as <-.
    destruct (H1 _ _ Hi) as (_ & x & Hx & _). eauto.
  - intros t id Ht Htc. apply elem_of_app in Ht as [Ht|Ht]; [by eapply H4|].
    by apply list_elem_of_fmap in Ht as (i & -> & _).
Qed.

(** Marking an instance cancelled or finished. *)
Lemma lookup_mark (f : instance -> instance) (insts : list instance) id id' :
  alter f id insts !! id' = (if decide (id' = id) then f else fun i => i) <$> insts !! id'.
Proof.
  case_decide as E; [subst; apply list_lookup_alter_eq|].
  rewrite list_lookup_alter_ne by done. by destruct (insts !! id').
Qed.

Lemma inv_finish id m : manager_inv m -> manager_inv (finish id m).
Proof.
  intros [H1 H2 H3 H4 H5 H6 H8 H7]. unfold finish. split; simpl; auto.
  - intros n i Hl. destruct (H1 _ _ Hl) as (Hn & x & Hx & Hnx & Hc). split; [done|].
    rewrite lookup_mark, Hx. eexists. split; [done|]. by case_decide.
  - intros id' x Hx. rewrite lookup_mark in Hx. destruct (sm_insts m !! id') as [y|] eqn:E; [|done].
    simpl in Hx. destruct (H2 id' y E) as [Hr|[Hc|Ht]]; auto. right. left. case_decide; by simplify_eq.
  - intros t id' Ht Htc. destruct (H3 t id' Ht Htc) as [Hr [x Hx]]. split; [done|]. rewrite lookup_mark, Hx. eauto.
  - intros t id' Ht Htc. destruct (H4 t id' Ht Htc) as (x & Hx & Hc). rewrite lookup_mark, Hx.
    eexists. split; [done|]. by case_decide.
  - intros Hc. apply Forall_alter; auto.
Qed.

(** A goroutine's turn: the others are untouched. *)
Lemma tails_turn i t t' m :
  sm_tails m !! i = Some t ->
  exists others, sm_tails m ≡ₚ t :: others /\ sm_tails (set_tail i t' m) ≡ₚ option_list t' ++ others.
Proof.
  intros Hi. exists (delete i (sm_tails m)). split; [by apply delete_Permutation|].
  destruct t' as [t'|]; simpl; [|done]. revert i Hi. generalize (sm_tails m). intros l.
  induction l as [|x l IH]; intros [|i] Hi; simplify_eq/=; [done|]. rewrite (IH i) by done. solve_Permutation.
Qed.

(** Ending a goroutine, or moving it past a wait, once its instance is cancelled. *)
Lemma inv_tail i t t' m :
  manager_inv m -> sm_tails m !! i = Some t -> to_cancel t = None ->
  (forall t1, t' = Some t1 -> to_cancel t1 = None /\ has_cancelled t1 = has_cancelled t) ->
  manager_inv (set_tail i t' m).
Proof.
  intros [H1 H2 H3 H4 H5 H6 H8 H7] Hi Ht Ht'. destruct (tails_turn i t t' m Hi) as (others & Hp & Hp').
  split; try (simpl; done).
  - intros id x Hx. destruct (H2 id x Hx) as [Hr|[Hc|Hin]]; [by left|right; by left|right; right].
    rewrite Hp in Hin. rewrite Hp'. simpl in Hin. rewrite Ht in Hin.
    apply elem_of_cons in Hin as [Hin|Hin]; [done|]. rewrite fmap_app. set_solver.
  - intros t1 id Hin Htc. rewrite Hp' in Hin. apply elem_of_app in Hin as [Hin|Hin].
    + destruct t' as [t2|]; simpl in Hin; [|by apply elem_of_nil in Hin].
      apply list_elem_of_singleton in Hin as ->. destruct (Ht' _ eq_refl). congruence.
    + apply (H3 t1 id); [|done]. rewrite Hp. set_solver.
  - intros t1 id Hin Htc. rewrite Hp' in Hin. apply elem_of_app in Hin as [Hin|Hin].
    + destruct t' as [t2|]; simpl in Hin; [|by apply elem_of_nil in Hin].
      apply list_elem_of_singleton in Hin as ->. destruct (Ht' _ eq_refl) as [_ Hh].
      apply (H4 t id); [rewrite Hp; set_solver|congruence].
    + apply (H4 t1 id); [|done]. rewrite Hp. set_solver.
Qed.

(** A goroutine cancels its instance. *)
Lemma inv_cancel i t t' id m :
  manager_inv m -> sm_tails m !! i = Some t -> to_cancel t = Some id ->
  to_cancel t' = None -> has_cancelled t' = Some id ->
  manager_inv (set_tail i (Some t') (cancel id m)).
Proof.
  intros [H1 H2 H3 H4 H5 H6 H8 H7] Hi Ht Htn Hth.
  destruct (tails_turn i t (Some t') m Hi) as (others & Hp & Hp'). simpl in Hp'.
  assert (Hin : t ∈ sm_tails m) by (rewrite Hp; set_solver).
  destruct (H3 t id Hin Ht) as [Hnr [inst Hinst]].
  split; try (simpl; done).
  - intros n li Hl. simpl in *. destruct (H1 _ _ Hl) as (Hn & x & Hx & Hnx & Hc). split; [done|].
    rewrite lookup_mark, Hx. eexists. split; [done|]. case_decide as E; [|done].
    exfalso. apply Hnr. by exists n, li.
  - intros id' x Hx. simpl in Hx. rewrite lookup_mark in Hx. destruct (sm_insts m !! id') as [y|] eqn:E; [|done].
    simpl in Hx. case_decide as Heq; [right; left; by simplify_eq|]. injection Hx as <-.
    destruct (H2 id' y E) as [Hr|[Hc|Hto]]; [by left|right; by left|right; right].
    rewrite Hp in Hto. simpl in Hto. rewrite Ht in Hto. simpl. rewrite Hp'. simpl. set_solver.
  - intros t1 id' Hin1 Htc. simpl in Hin1. rewrite Hp' in Hin1. apply elem_of_cons in Hin1 as [->|Hin1]; [congruence|].
    destruct (H3 t1 id') as [Hr [x Hx]]; [rewrite Hp; set_solver|done|]. split; [done|].
    simpl. rewrite lookup_mark, Hx. eauto.
  - intros t1 id' Hin1 Htc. simpl in Hin1. rewrite Hp' in Hin1. simpl. rewrite lookup_mark.
    apply elem_of_cons in Hin1 as [->|Hin1].
    + rewrite Hth in Htc. injection Htc as <-. rewrite Hinst. eexists. split; [done|]. by rewrite decide_True.
    + destruct (H4 t1 id') as (x & Hx & Hc); [rewrite Hp; set_solver|done|]. rewrite Hx.
      eexists. split; [done|]. by case_decide.
  - simpl. intros Hc. apply Forall_alter; auto.
Qed.

Lemma inv_calls c m : manager_inv m -> manager_inv (call c m).
Proof. intros [H1 H2 H3 H4 H5 H6 H8 H7]. by split. Qed.

Lemma inv_tail_step e i m m' : manager_inv m -> tail_step e i m = Some m' -> manager_inv m'.
Proof.
  intros Hi. unfold tail_step. destruct (sm_tails m !! i) as [t|] eqn:Ht; [|done].
  destruct t as [id|id|name [id|]|name id|name inst|name inst]; intros Hs.
  - injection Hs as <-. by eapply inv_cancel.
  - destruct (drained _ _ _); [|done]. injection Hs as <-. by eapply inv_tail.
  - injection Hs as <-. by eapply inv_cancel.
  - injection Hs as <-. eapply inv_tail; eauto. by intros t1 [= <-].
  - destruct (drained _ _ _); [|done]. injection Hs as <-. eapply inv_tail; eauto. by intros t1 [= <-].
  - destruct (sm_live m !! name); injection Hs as <-; eapply inv_tail; eauto; by intros t1 [= <-].
  - injection Hs as <-. unfold parkDependents.
    destruct (te_warm e), (te_parks e); (eapply inv_tail; [repeat apply inv_calls; exact Hi|exact Ht|done|done]).
Qed.

Lemma manager_inv_op op m m' : manager_inv m -> manager_op op m = Some m' -> manager_inv m'.
Proof.
  intros Hi. destruct op; simpl; intros Hop.
  - injection Hop as <-. by apply inv_Ensure.
  - injection Hop as <-. by apply inv_Delete.
  - destruct (sm_started m) eqn:E; [done|]. injection Hop as <-. by apply inv_Start.
  - destruct (sm_started m); [|done]. injection Hop as <-. by apply inv_ctx_done.
  - destruct (sm_started m) eqn:E; [|done]. simpl in Hop. destruct (sm_ctxDone m && _); [|done].
    injection Hop as <-. by apply inv_Stop.
  - by eapply inv_tail_step.
  - injection Hop as <-. by apply inv_finish.
Qed.

Lemma manager_inv_run ops m m' : manager_inv m -> manager_run ops m = Some m' -> manager_inv m'.
Proof.
  revert m. induction ops as [|op ops IH]; intros m Hi; simpl; [by intros [= <-]|].
  destruct (manager_op op m) as [m1|] eqn:E; [|done]. apply IH. by eapply manager_inv_op.
Qed.

(** C21. No instance is leaked and none is stopped while it serves. Over any
    sequence of declarations, deletions, failing builds, start and shutdown, with
    the background goroutines scheduled in any way: a name is routed to an instance
    started for it and not cancelled before the manager itself is; every instance
    ever started is routed, or cancelled, or one of the goroutines is about to
    cancel it; and once the manager has stopped and its goroutines are done, every
    instance has been cancelled and nothing is routed. *)
Theorem no_instance_leaked ops m :
  manager_run ops newManager = Some m ->
  (forall name i, sm_live m !! name = Some i -> exists inst,
     sm_insts m !! ls_id i = Some inst /\ in_name inst = name /\ (cancelled inst = true -> sm_ctxDone m = true)) /\
  (forall id inst, sm_insts m !! id = Some inst ->
     routed m id \/ cancelled inst = true \/ exists t, t ∈ sm_tails m /\ to_cancel t = Some id) /\
  (forall t id, t ∈ sm_tails m -> to_cancel t = Some id -> ~ routed m id) /\
  (sm_stopped m = true -> sm_tails m = [] ->
     sm_live m = ∅ /\ Forall (fun inst => cancelled inst = true) (sm_insts m)).
Proof.
  intros Hr. pose proof (manager_inv_run _ _ _ manager_inv_new Hr) as [H1 H2 H3 H4 H5 H6 H8 H7].
  split; [|split; [|split]].
  - intros name i Hl. by destruct (H1 _ _ Hl) as (_ & inst & Hx & Hn & Hc); eauto.
  - intros id inst Hx. destruct (H2 id inst Hx) as [?|[?|Hin]]; auto.
    apply list_elem_of_fmap in Hin as (t & Ht & Hin). right. right. eauto.
  - intros t id Ht Htc. by destruct (H3 t id Ht Htc).
  - intros Hs Htl. split; [auto|]. apply Forall_lookup. intros id inst Hx.
    destruct (H2 id inst Hx) as [(n & i & Hl & _)|[?|Hin]]; [|done|].
    + rewrite (H5 Hs), lookup_empty in Hl. done.
    + rewrite Htl in Hin. by apply elem_of_nil in Hin.
Qed.

(** ** Routing follows the declarations *)

(** What should run: for every sink that was not deleted since, the fingerprint of the
    configuration declared last and what the factory built from it; and before the
    start the configurations that wait for it. *)
Record declared := mkDeclared {
  d_running : gmap string (string * backend);
  d_waiting : gmap string C;
  d_started : bool;
  d_ctxDone : bool;
  d_stopped : bool;
}.

Definition declared_none : declared := mkDeclared ∅ ∅ false false false.

(** What runs for one sink after a configuration is declared: the same instance when the
    configuration has not changed or cannot be built, else what is built from it. *)
Definition redeclare (factory : string -> C -> result backend) (name : string) (cfg : C) (old : option (string * backend)) :
    option (string * backend) :=
  if decide (fst <$> old = Some (Fingerprint cfg)) then old
  else match factory name cfg with Ok b => Some (Fingerprint cfg, b) | Err _ => old end.

Definition declare (op : managerOp C) (d : declared) : declared :=
  match op with
  | MEnsure factory name (Some cfg) =>
      if String.eqb name "" || d_stopped d then d
      else if negb (d_started d)
      then mkDeclared (d_running d) (<[name := cfg]> (d_waiting d)) false (d_ctxDone d) false
      else mkDeclared (partial_alter (redeclare factory name cfg) name (d_running d)) (d_waiting d) true (d_ctxDone d) false
  | MDelete name =>
      if d_stopped d then d
      else mkDeclared (delete name (d_running d)) (delete name (d_waiting d)) (d_started d) (d_ctxDone d) false
  | MStart factory =>
      mkDeclared (map_imap (fun name cfg => redeclare factory name cfg None) (d_waiting d)) ∅ true (d_ctxDone d) (d_stopped d)
  | MCtxDone => mkDeclared (d_running d) (d_waiting d) (d_started d) true (d_stopped d)
  | MStop => mkDeclared ∅ (d_waiting d) (d_started d) (d_ctxDone d) true
  | _ => d
  end.

(** An instance as the routers see it. *)
Definition runs (i : liveSink) : string * backend :=
  (ls_fingerprint i, mkBackend (ls_writer i) (ls_reader i) (ls_events i) (ls_prober i)).

Definition abstract m : declared :=
  mkDeclared (runs <$> sm_live m) (sm_pending m) (sm_started m) (sm_ctxDone m) (sm_stopped m).

Lemma runs_new name fp id b : runs (newLiveSink name fp id b) = (fp, b).
Proof. by destruct b. Qed.

Lemma running_ensure factory name cfg m :
  runs <$> sm_live (ensureLocked factory name cfg m).1 = partial_alter (redeclare factory name cfg) name (runs <$> sm_live m) /\
  sm_pending (ensureLocked factory name cfg m).1 = sm_pending m /\
  sm_ctxDone (ensureLocked factory name cfg m).1 = sm_ctxDone m.
Proof.
  pose proof (ensureLocked_cases factory name cfg m) as Hc. simpl in Hc.
  assert (Hf : fst <$> (runs <$> sm_live m) !! name = ls_fingerprint <$> sm_live m !! name)
    by (rewrite lookup_fmap; by destruct (sm_live m !! name)).
  assert (Hsame : redeclare factory name cfg ((runs <$> sm_live m) !! name) = (runs <$> sm_live m) !! name ->
    runs <$> sm_live m = partial_alter (redeclare factory name cfg) name (runs <$> sm_live m)).
  { intros E. apply map_eq. intros k. destruct (decide (name = k)) as [<-|Hne]; [by rewrite lookup_partial_alter_eq|].
    by rewrite lookup_partial_alter_ne. }
  assert (Hrd : redeclare factory name cfg ((runs <$> sm_live m) !! name) =
    if decide (ls_fingerprint <$> sm_live m !! name = Some (Fingerprint cfg)) then (runs <$> sm_live m) !! name
    else match factory name cfg with Ok b => Some (Fingerprint cfg, b) | Err _ => (runs <$> sm_live m) !! name end)
    by (unfold redeclare; by rewrite Hf).
  rewrite Hrd in Hsame. destruct (decide _) as [Hd|Hd].
  - rewrite Hc. split; [by apply Hsame|done].
  - destruct (factory name cfg) as [b|e] eqn:Eb; [|destruct Hc as [e' Hc]; rewrite Hc; split; [by apply Hsame|done]].
    rewrite Hc. split; [|done]. cbn [fst installed sm_live]. rewrite fmap_insert, runs_new. apply map_eq. intros k.
    destruct (decide (name = k)) as [<-|Hne]; [|by rewrite lookup_insert_ne, lookup_partial_alter_ne].
    by rewrite lookup_insert_eq, lookup_partial_alter_eq, Hrd.
Qed.

Lemma running_pending factory pending names m n :
  NoDup names ->
  (runs <$> sm_live (ensure_pending factory pending names m)) !! n =
  (if decide (n ∈ names) then
     match pending !! n with
     | Some cfg => redeclare factory n cfg ((runs <$> sm_live m) !! n)
     | None => (runs <$> sm_live m) !! n
     end
   else (runs <$> sm_live m) !! n).
Proof.
  revert m. induction names as [|x names IH]; intros m Hnd; cbn [ensure_pending]; [done|].
  apply NoDup_cons in Hnd as [Hx Hnd]. rewrite IH by done.
  assert (Hsame : forall k, (runs <$> sm_live (match pending !! x with Some cfg => (ensureLocked factory x cfg m).1 | None => m end)) !! k =
    match pending !! x with
    | Some cfg => if decide (k = x) then redeclare factory x cfg ((runs <$> sm_live m) !! x) else (runs <$> sm_live m) !! k
    | None => (runs <$> sm_live m) !! k
    end).
  { intros k. destruct (pending !! x) as [cfg|]; [|done]. rewrite (proj1 (running_ensure factory x cfg m)).
    destruct (decide (k = x)) as [->|Hne]; [by rewrite lookup_partial_alter_eq|by rewrite lookup_partial_alter_ne]. }
  rewrite Hsame.
  destruct (decide (n = x)) as [->|Hne].
  - rewrite (decide_False (P := x ∈ names)) by done. rewrite (decide_True (P := x ∈ x :: names)) by by left. done.
  - assert (Hiff : n ∈ x :: names <-> n ∈ names) by (rewrite elem_of_cons; tauto).
    destruct (decide (n ∈ names)) as [Hn|Hn]; [rewrite (decide_True (P := n ∈ x :: names)) by tauto|
      rewrite (decide_False (P := n ∈ x :: names)) by tauto]; by destruct (pending !! x).
Qed.

Lemma ensure_pending_frame factory pending names m :
  sm_pending (ensure_pending factory pending names m) = sm_pending m /\
  sm_started (ensure_pending factory pending names m) = sm_started m /\
  sm_ctxDone (ensure_pending factory pending names m) = sm_ctxDone m /\
  sm_stopped (ensure_pending factory pending names m) = sm_stopped m.
Proof.
  revert m. induction names as [|x names IH]; intros m; simpl; [done|].
  destruct (IH (match pending !! x with Some cfg => (ensureLocked factory x cfg m).1 | None => m end))
    as (-> & -> & -> & ->).
  destruct (pending !! x) as [cfg|]; [|done].
  destruct (ensureLocked_frame factory x cfg m) as [-> ->].
  by destruct (running_ensure factory x cfg m) as (_ & -> & ->).
Qed.

Lemma abstract_Start factory m :
  sm_live m = ∅ -> abstract (manager_Start factory m) = declare (MStart factory) (abstract m).
Proof.
  intros Hl. unfold manager_Start, abstract, declare. simpl.
  match goal with |- context [ensure_pending ?f ?p ?n ?m0] =>
    destruct (ensure_pending_frame f p n m0) as (-> & -> & -> & ->) end. simpl. f_equal.
  apply map_eq. intros n. rewrite running_pending by apply NoDup_sorted_keys. simpl. rewrite Hl, fmap_empty, lookup_empty.
  rewrite map_lookup_imap. destruct (sm_pending m !! n) as [cfg|] eqn:E; simpl.
  - rewrite decide_True by (apply elem_of_sorted_keys; by eexists). done.
  - by case_decide.
Qed.

Lemma tail_step_frame e i m m' :
  tail_step e i m = Some m' -> abstract m' = abstract m.
Proof.
  unfold tail_step, parkDependents. intros H. repeat case_match; simplify_eq; done.
Qed.

Lemma abstract_op op m m' :
  manager_inv m -> manager_op op m = Some m' -> abstract m' = declare op (abstract m).
Proof.
  intros Hi. destruct op as [factory name cfg|name|factory| | |e i|id]; simpl; intros Hop.
  - injection Hop as <-. unfold Ensure, abstract. simpl. destruct cfg as [cfg|]; [|by destruct (String.eqb name "")].
    destruct (String.eqb name ""); simpl; [done|]. destruct (sm_stopped m) eqn:Hs; simpl; [by rewrite Hs|].
    destruct (sm_started m) eqn:Hst; simpl; [|by rewrite Hst, Hs].
    destruct (ensureLocked_frame factory name cfg m) as [H1 H2].
    destruct (running_ensure factory name cfg m) as (-> & -> & ->). by rewrite H1, H2, Hst, Hs.
  - injection Hop as <-. unfold Delete, abstract. simpl. destruct (sm_stopped m) eqn:Hs; [by rewrite Hs|]. simpl.
    rewrite <- fmap_delete. destruct (sm_live m !! name) as [old|] eqn:E; simpl; rewrite Hs; [done|].
    by rewrite (delete_id (sm_live m)).
  - destruct (sm_started m) eqn:E; [done|]. injection Hop as <-. apply abstract_Start. by apply (mi_waiting m Hi).
  - destruct (sm_started m) eqn:E; [|done]. injection Hop as <-. unfold abstract. simpl. by rewrite E.
  - destruct (sm_started m) eqn:E; [|done]. simpl in Hop. destruct (sm_ctxDone m && _); [|done].
    injection Hop as <-. unfold abstract, manager_Stop. simpl. by rewrite fmap_empty, E.
  - by eapply tail_step_frame.
  - by injection Hop as <-.
Qed.

Lemma abstract_run ops m0 m :
  manager_inv m0 -> manager_run ops m0 = Some m -> abstract m = foldl (fun d op => declare op d) (abstract m0) ops.
Proof.
  revert m0. induction ops as [|op ops IH]; intros m0 Hi; simpl; [by intros [= <-]|].
  destruct (manager_op op m0) as [m1|] eqn:E; [|done]. intros Hr.
  rewrite <- (abstract_op op m0 m1 Hi E). apply IH; [by eapply manager_inv_op|done].
Qed.

(** C9. The routing table is what was declared: after any run, a sink has a live
    instance exactly when it was declared, an instance could be built for it and it was
    not deleted since; then the writer, the state reader and the scope writer the
    routers hand out are those the factory built from the configuration declared last
    (an unchanged configuration keeps the instance it has, and a failed build leaves the
    previous one in place), and background goroutines never change what is routed. *)
Theorem routing_refines ops m :
  manager_run ops newManager = Some m ->
  let d := foldl (fun d op => declare op d) declared_none ops in
  abstract m = d /\
  (forall name, WriterFor m name = be_writer ∘ snd <$> d_running d !! name) /\
  (forall name, manager_StateReaderFor m name = (fb ← d_running d !! name; be_reader fb.2)) /\
  (forall name, manager_ScopeEventWriterFor m name = (fb ← d_running d !! name; be_events fb.2)) /\
  manager_SinkNames m = sorted_keys (d_running d).
Proof.
  intros Hr. apply (abstract_run ops newManager m manager_inv_new) in Hr as Habs.
  assert (E0 : abstract newManager = declared_none) by (unfold abstract; cbn; by rewrite fmap_empty). rewrite E0 in Habs.
  intros d. unfold d. split; [done|]. rewrite <- Habs. cbn [abstract d_running].
  split_and!; [intros name; unfold WriterFor|intros name; unfold manager_StateReaderFor|intros name; unfold manager_ScopeEventWriterFor|].
  1-3: rewrite lookup_fmap; by destruct (sm_live m !! name).
  unfold manager_SinkNames, sorted_keys. by rewrite map_to_list_fmap, map_map.
Qed.

(** ** Eviction comes after the drain *)

(** No drain of the run times out. *)
Definition patient op : Prop := match op with MTail e _ => te_timedOut e = false | _ => True end.

(** The instance of a deletion that is past its drain. *)
Definition past_drain (t : tail) : option nat :=
  match t with TDeleteCheck _ inst | TDeleteEvict _ inst => inst | _ => None end.

Definition drained_inv m : Prop := forall t id, t ∈ sm_tails m -> past_drain t = Some id ->
  exists inst, sm_insts m !! id = Some inst /\ finished inst = true.

(** Steps that leave the goroutines past their drain, and every finished instance,
    as they were. *)
Lemma drained_mono m m' :
  (forall t id, t ∈ sm_tails m' -> past_drain t = Some id -> t ∈ sm_tails m) ->
  (forall id inst, sm_insts m !! id = Some inst -> finished inst = true ->
     exists inst', sm_insts m' !! id = Some inst' /\ finished inst' = true) ->
  drained_inv m -> drained_inv m'.
Proof. intros Ht Hf Hd t id Hin Hp. destruct (Hd t id (Ht t id Hin Hp) Hp) as (x & Hx & Hfx). by apply (Hf id x). Qed.

Lemma finished_mark (f : instance -> instance) (insts : list instance) id id' inst :
  (forall i, finished i = true -> finished (f i) = true) ->
  insts !! id' = Some inst -> finished inst = true ->
  exists inst', alter f id insts !! id' = Some inst' /\ finished inst' = true.
Proof. intros Hf Hx Hfx. rewrite lookup_mark, Hx. eexists. split; [done|]. case_decide; auto. Qed.

Lemma drained_installed name i m : drained_inv m -> drained_inv (installed name i m).
Proof.
  apply drained_mono; simpl.
  - intros t id Hin Hp. apply elem_of_app in Hin as [Hin|Hin]; [done|].
    destruct (sm_live m !! name); [|by apply elem_of_nil in Hin]. by apply list_elem_of_singleton in Hin as ->.
  - intros id inst Hx Hf. exists inst. split; [by apply lookup_app_l_Some|done].
Qed.

Lemma drained_ensureLocked factory name cfg m : drained_inv m -> drained_inv (ensureLocked factory name cfg m).1.
Proof.
  intros Hd. pose proof (ensureLocked_cases factory name cfg m) as Hc. simpl in Hc.
  destruct (decide _); [by rewrite Hc|]. destruct (factory name cfg); [rewrite Hc; by apply drained_installed|].
  destruct Hc as [e' Hc]. by rewrite Hc.
Qed.

Lemma drained_pending factory pending names m :
  drained_inv m -> drained_inv (ensure_pending factory pending names m).
Proof.
  revert m. induction names as [|x names IH]; intros m Hd; simpl; [done|].
  apply IH. destruct (pending !! x); [by apply drained_ensureLocked|done].
Qed.

Lemma drained_turn i t t' m :
  drained_inv m -> sm_tails m !! i = Some t ->
  (forall t1 id, t' = Some t1 -> past_drain t1 = Some id -> past_drain t = Some id \/
     exists inst, sm_insts m !! id = Some inst /\ finished inst = true) ->
  drained_inv (set_tail i t' m).
Proof.
  intros Hd Hi Hn t1 id Hin Hp. destruct (tails_turn i t t' m Hi) as (others & Hp1 & Hp2).
  rewrite Hp2 in Hin. apply elem_of_app in Hin as [Hin|Hin].
  - destruct t' as [t2|]; simpl in Hin; [|by apply elem_of_nil in Hin]. apply list_elem_of_singleton in Hin as ->.
    destruct (Hn _ id eq_refl Hp) as [Ho|Ho]; [|done]. apply (Hd t id); [rewrite Hp1; set_solver|done].
  - apply (Hd t1 id); [rewrite Hp1; set_solver|done].
Qed.

Lemma drained_tail_step e i m m' :
  te_timedOut e = false -> drained_inv m -> tail_step e i m = Some m' -> drained_inv m'.
Proof.
  intros He Hd. unfold tail_step. destruct (sm_tails m !! i) as [t|] eqn:Ht; [|done].
  assert (Hcan : forall id, drained_inv (cancel id m)).
  { intros id. apply (drained_mono m); simpl; [done| |done]. intros id' inst. by apply finished_mark. }
  destruct t as [id|id|name [id|]|name id|name inst|name inst]; intros Hs.
  - injection Hs as <-. eapply drained_turn; [apply Hcan|exact Ht|by intros t1 id' [= <-]].
  - destruct (drained _ _ _); [|done]. injection Hs as <-. eapply drained_turn; [done|exact Ht|done].
  - injection Hs as <-. eapply drained_turn; [apply Hcan|exact Ht|by intros t1 id' [= <-]].
  - injection Hs as <-. eapply drained_turn; [done|exact Ht|by intros t1 id' [= <-]].
  - unfold drained in Hs. rewrite He in Hs. simpl in Hs. destruct (sm_insts m !! id) as [x|] eqn:Hx; [|done].
    destruct (finished x) eqn:Hf; [|done]. injection Hs as <-. eapply drained_turn; [done|exact Ht|].
    intros t1 id' [= <-] [= <-]. right. eauto.
  - destruct (sm_live m !! name); injection Hs as <-; (eapply drained_turn; [done|exact Ht|]); [done|].
    intros t1 id' [= <-]. by left.
  - injection Hs as <-. unfold parkDependents.
    destruct (te_warm e), (te_parks e); (eapply drained_turn; [exact Hd|exact Ht|done]).
Qed.

Lemma drained_op op m m' : patient op -> drained_inv m -> manager_op op m = Some m' -> drained_inv m'.
Proof.
  intros Hp Hd. destruct op as [factory name cfg|name|factory| | |e i|id]; simpl; intros Hop.
  - injection Hop as <-. unfold Ensure. repeat case_match; try done. by apply drained_ensureLocked.
  - injection Hop as <-. unfold Delete. destruct (sm_stopped m); [done|]. simpl.
    destruct (sm_live m !! name); apply (drained_mono m); simpl; try done; try (intros; by eauto);
      intros t id Hin Hpd; apply elem_of_app in Hin as [Hin|Hin]; try done;
      by apply list_elem_of_singleton in Hin as ->.
  - destruct (sm_started m); [done|]. injection Hop as <-. by apply drained_pending.
  - destruct (sm_started m); [|done]. injection Hop as <-. apply (drained_mono m); simpl; [done| |done].
    intros id inst Hx Hf. rewrite list_lookup_fmap, Hx. by eexists.
  - destruct (sm_started m); [|done]. simpl in Hop. destruct (sm_ctxDone m && _); [|done]. injection Hop as <-.
    apply (drained_mono m); simpl; [|by eauto|done]. intros t id Hin Hpd. apply elem_of_app in Hin as [Hin|Hin]; [done|].
    by apply list_elem_of_fmap in Hin as (x & -> & _).
  - by eapply drained_tail_step.
  - injection Hop as <-. apply (drained_mono m); simpl; [done| |done]. intros id' inst. by apply finished_mark.
Qed.

Lemma drained_run ops m m' : Forall patient ops -> drained_inv m -> manager_run ops m = Some m' -> drained_inv m'.
Proof.
  revert m. induction ops as [|op ops IH]; intros m HF Hd; simpl; [by intros [= <-]|].
  apply Forall_cons in HF as [Hp HF]. destruct (manager_op op m) as [m1|] eqn:E; [|done].
  eapply (IH m1); eauto using drained_op.
Qed.

Lemma calls_ensureLocked factory name cfg m : sm_calls (ensureLocked factory name cfg m).1 = sm_calls m.
Proof. unfold ensureLocked. repeat case_match; done. Qed.

Lemma calls_pending factory pending names m : sm_calls (ensure_pending factory pending names m) = sm_calls m.
Proof.
  revert m. induction names as [|x names IH]; intros m; simpl; [done|].
  rewrite IH. destruct (pending !! x); [apply calls_ensureLocked|done].
Qed.

(** Every other operation calls nobody. *)
Lemma quiet_op op m m' :
  match op with MTail _ _ => False | _ => True end -> manager_op op m = Some m' -> sm_calls m' = sm_calls m.
Proof.
  intros Hk. destruct op as [factory name cfg|name|factory| | |e i|id]; simpl; intros Hop; try done;
    repeat case_match; simplify_eq; try done.
  - unfold Ensure. repeat case_match; try done; apply calls_ensureLocked.
  - unfold Delete. repeat case_match; done.
  - unfold manager_Start. by rewrite calls_pending.
Qed.

(** C36. A deleted sink's state is evicted after its writes settled, and only then.
    As long as no drain times out, the only step that calls out is the last one of
    a deletion whose instance, if there was one, has returned from its [Start] (so
    its queue is flushed and every callback has fired); it removes the pipeline's
    state, then the coordinator's, then parks the rules. Declaring, recycling,
    starting and shutting down never evict anything. *)
Theorem removal_after_drain ops m op m' :
  Forall patient ops -> manager_run ops newManager = Some m -> manager_op op m = Some m' ->
  sm_calls m' <> sm_calls m ->
  exists e i name inst,
    op = MTail e i /\ sm_tails m !! i = Some (TDeleteEvict name inst) /\
    sm_calls m' = sm_calls m ++ [CallRemoveSink name] ++ (if te_warm e then [CallForgetSink name] else []) ++
      (if te_parks e then [CallPark name (te_rules e)] else []) /\
    (forall id, inst = Some id -> exists x, sm_insts m !! id = Some x /\ finished x = true).
Proof.
  intros HF Hr Hop Hne.
  assert (drained_inv m) as Hd by (apply (drained_run ops newManager m); [done|by intros t id ?%elem_of_nil|done]).
  destruct op as [factory name cfg|name|factory| | |e i|id];
    try (exfalso; apply Hne; eapply quiet_op; [|exact Hop]; done).
  simpl in Hop.
  unfold tail_step in Hop. destruct (sm_tails m !! i) as [t|] eqn:Ht; [|done].
  destruct t as [id|id|name [id|]|name id|name inst|name inst]; repeat case_match; simplify_eq/=; try done.
  all: exists e, i, name, inst; split; [done|]; split; [done|]; split;
    [unfold parkDependents; repeat case_match; simpl; by rewrite <- ?app_assoc|];
    intros id ->; apply (Hd (TDeleteEvict name (Some id)) id); [|done];
    by apply list_elem_of_lookup_2 in Ht.
Qed.
End props.

(** ** Samples *)

Module ManagerSamples.

(** Configurations are addresses. *)
#[local] Instance addr_config : InstanceConfig string := {| Fingerprint := fun addr => addr |}.

Definition accepting : backend := mkBackend (mkWriter None (fun _ _ => None)) None None true.
Definition factory (name addr : string) : result backend := Ok accepting.

(** A backend whose writer refuses everything, and a factory that builds one for the
    second server only. *)
Definition refusing : backend := mkBackend (mkWriter None (fun _ _ => Some "closed")) None None true.
Definition by_server (name addr : string) : result backend :=
  if String.eqb addr "ch-b:9000" then Ok refusing else if String.eqb addr "" then Err "no address" else Ok accepting.

Definition calm : tailEnv := mkTailEnv false true true ["streamrule/default/audit"].

Definition running : list (managerOp string) := [MStart factory; MEnsure factory "main" (Some "ch-a:9000")].

Definition drain_and_finish : list (managerOp string) := [MTail calm 0; MFinish 0; MTail calm 0].

Definition deleted : list (managerOp string) := running ++ [MDelete "main"] ++ drain_and_finish ++ [MTail calm 0].
Definition deleted_m : SinkManager string := default newManager (manager_run deleted newManager).
Definition evicted_m : SinkManager string := default newManager (manager_run (deleted ++ [MTail calm 0]) newManager).

Lemma run_deleted : manager_run deleted newManager = Some deleted_m.
Proof. vm_compute. reflexivity. Qed.
Lemma run_evicted : manager_run (deleted ++ [MTail calm 0]) newManager = Some evicted_m.
Proof. vm_compute. reflexivity. Qed.
Lemma step_evicted : manager_op (MTail calm 0) deleted_m = Some evicted_m.
Proof. vm_compute. reflexivity. Qed.
Lemma evicted_calls : sm_calls evicted_m <> sm_calls deleted_m.
Proof. vm_compute. discriminate. Qed.

Lemma no_instance_leaked_witness :
  sm_stopped evicted_m = false /\ sm_live evicted_m = ∅ /\
  forall id inst, sm_insts evicted_m !! id = Some inst -> routed evicted_m id \/ cancelled inst = true \/
    exists t, t ∈ sm_tails evicted_m /\ to_cancel t = Some id.
Proof.
  split; [vm_compute; reflexivity|]. split; [vm_compute; reflexivity|].
  exact (proj1 (proj2 (no_instance_leaked (deleted ++ [MTail calm 0]) evicted_m run_evicted))).
Defined.

(** Declared, moved to another server, then to one that cannot be built. *)
Definition moved : list (managerOp string) :=
  [MEnsure by_server "main" (Some "ch-a:9000"); MStart by_server; MEnsure by_server "main" (Some "ch-b:9000"); MEnsure by_server "main" (Some "")].
Definition moved_m : SinkManager string := default newManager (manager_run moved newManager).
Lemma run_moved : manager_run moved newManager = Some moved_m.
Proof. vm_compute. reflexivity. Qed.

Lemma routing_refines_witness :
  manager_SinkNames moved_m = ["main"] /\ WriterFor moved_m "main" = Some (be_writer refusing).
Proof.
  split; [vm_compute; reflexivity|].
  rewrite (proj1 (proj2 (routing_refines moved moved_m run_moved)) "main"). vm_compute. reflexivity.
Defined.

Lemma deleted_patient : Forall patient deleted.
Proof. by repeat constructor. Qed.

Lemma removal_after_drain_witness :
  exists e i name inst, MTail calm 0 = @MTail string e i /\ sm_tails deleted_m !! i = Some (TDeleteEvict name inst) /\
    forall id, inst = Some id -> exists x, sm_insts deleted_m !! id = Some x /\ finished x = true.
Proof.
  destruct (removal_after_drain deleted deleted_m (MTail calm 0) evicted_m deleted_patient run_deleted step_evicted
    evicted_calls) as (e & i & name & inst & H1 & H2 & _ & H4).
  exists e, i, name, inst. split; [exact H1|]. split; [exact H2|exact H4].
Defined.

(** What the manager's calls do to the pipeline. *)
Definition on_pipeline (c : managerCall) (s : pstate) : pstate :=
  match c with CallRemoveSink name => (RemoveSink name s).1 | _ => s end.

(** A sink that is deleted and declared again while its old instance drains
    keeps the old sink's deduplication state, also when it now points at another
    server: the deletion stands down, and the pipeline is never told. What the
    pipeline knows as stored was stored in the old place, so objects that do not
    change again are never written to the new one. *)
Lemma recreated_sink_inherits_baselines (s : pstate) :
  exists m, manager_run (running ++ [MDelete "main"; MEnsure factory "main" (Some "ch-b:9000")] ++
      [MTail calm 0; MFinish 0; MTail calm 0; MTail calm 0]) newManager = Some m /\
    ls_fingerprint <$> sm_live m !! "main" = Some "ch-b:9000" /\
    sm_tails m = [] /\ sm_calls m = [] /\ foldl (fun s c => on_pipeline c s) s (sm_calls m) = s.
Proof. eexists. split; [vm_compute; reflexivity|]. split; [vm_compute; reflexivity|]. repeat split. Qed.

(** A deletion can evict and park a sink that exists: its check for a new
    instance and the eviction are two steps, so a declaration in between is missed;
    and the manager's shutdown empties the routing table before the deletion looks
    at it, so rules of a sink that was declared again are parked on the way out. *)
Lemma deletion_parks_live_sink :
  let evicts := [CallRemoveSink "main"; CallForgetSink "main"; CallPark "main" ["streamrule/default/audit"]] in
  (exists m, manager_run (running ++ [MDelete "main"] ++ drain_and_finish ++
       [MTail calm 0; MEnsure factory "main" (Some "ch-a:9000"); MTail calm 0]) newManager = Some m /\
     is_Some (sm_live m !! "main") /\ sm_calls m = evicts) /\
  (exists m, manager_run (running ++ [MDelete "main"; MEnsure factory "main" (Some "ch-a:9000"); MTail calm 0;
       MFinish 0; MCtxDone; MStop; MTail calm 0; MTail calm 0; MTail calm 0]) newManager = Some m /\
     sm_stopped m = true /\ sm_calls m = evicts).
Proof.
  split; eexists; (split; [vm_compute; reflexivity|]); split; try (vm_compute; reflexivity).
  vm_compute. by eexists.
Qed.

End ManagerSamples.
