(* ===== verification/RuleProps.v ===== *)
(** * RuleProps: what the rule reconcilers guarantee

    Every target a rule contributes was vetted in the pass that installed it; a
    namespaced rule stays in its namespace; Secrets are never watched; one rule's
    pass leaves every other rule alone; and a rule that says it streams does. *)

From Stdlib Require Import ZArith Lia.
From stdpp Require Import base gmap strings list sorting.
From S2P Require Import Prelude Identity Json Redact Registry Interest WatchManager.
From S2P Require Import Resolver Conditions ApiTypes RuleReconciler.

Section props.
Context `{SA : SelectorAPI, LA : LabelSelectorAPI, SC : SchemaAPI, CA : ConditionAPI}.

(** ** The gates *)

Lemma deny_secrets_none resources :
  deny_secrets resources = None -> forall res, res ∈ resources -> is_secret (wr_Group res) (wr_Kind res) = false.
Proof.
  induction resources as [|r resources IH]; simpl; [by intros _ res ?%elem_of_nil|].
  destruct (is_secret (wr_Group r) (wr_Kind r)) eqn:E; [done|]. intros Hd res [->|Hin]%elem_of_cons; eauto.
Qed.

Lemma deny_unlisted_none allowed resources :
  deny_unlisted allowed resources = None -> forall res, res ∈ resources -> policyAdmits allowed res = true.
Proof.
  induction resources as [|r resources IH]; simpl; [by intros _ res ?%elem_of_nil|].
  destruct (policyAdmits allowed r) eqn:E; [|done]. intros Hd res [->|Hin]%elem_of_cons; eauto.
Qed.

(** A resource the sink's policy lets a rule name. *)
Definition admitted (policy : SinkPolicy) (res : WatchedResource) : Prop :=
  is_secret (wr_Group res) (wr_Kind res) = false /\
  (sp_AllowedGVKs policy = [] \/ policyAdmits (sp_AllowedGVKs policy) res = true).

Lemma checkPolicy_none resources policy :
  checkPolicy resources policy = None -> forall res, res ∈ resources -> admitted policy res.
Proof.
  unfold checkPolicy, admitted. destruct (deny_secrets resources) eqn:Es; [done|].
  intros Hp res Hin. split; [by eapply deny_secrets_none|].
  destruct (sp_AllowedGVKs policy); [by left|right]. by eapply deny_unlisted_none.
Qed.

(** The access reviews of this pass allow a verb on a resource, everywhere or in
    the namespace. *)
Definition granted (e : ruleEnv) (gvr : GroupVersionResource) (namespace : string) : Prop :=
  forall verb, verb ∈ accessVerbs ->
    exists n, re_access e n (mkReview gvr "" verb) = Ok true \/ re_access e n (mkReview gvr namespace verb) = Ok true.

Lemma review_ok e n gvr ns verb n' b :
  review e n gvr ns verb = (n', Ok b) -> re_access e n (mkReview gvr ns verb) = Ok b.
Proof. unfold review. destruct (re_access e n (mkReview gvr ns verb)); naive_solver. Qed.

Lemma missing_verbs_nil e n gvr ns verbs n' :
  missing_verbs e n gvr ns verbs = (n', Ok []) -> forall verb, verb ∈ verbs ->
  exists m, re_access e m (mkReview gvr "" verb) = Ok true \/ re_access e m (mkReview gvr ns verb) = Ok true.
Proof.
  revert n n'. induction verbs as [|v verbs IH]; intros n n'; [by intros _ verb ?%elem_of_nil|].
  cbn [missing_verbs]. destruct (review e n gvr "" v) as [n1 [[]|err]] eqn:E1.
  - destruct (missing_verbs e n1 gvr ns verbs) as [n3 [missing|err]] eqn:E3; [|done]. intros [= -> ->] verb.
    intros [->|Hin]%elem_of_cons; [|by eapply IH]. exists n. left. by eapply review_ok.
  - destruct (negb (String.eqb ns "")).
    + destruct (review e n1 gvr ns v) as [n2 [[]|err]] eqn:E2; [| |done];
        destruct (missing_verbs e n2 gvr ns verbs) as [n3 [missing|err]] eqn:E3; try done.
      intros [= -> ->] verb. intros [->|Hin]%elem_of_cons; [|by eapply IH]. exists n1. right. by eapply review_ok.
    + by destruct (missing_verbs e n1 gvr ns verbs) as [n3 [missing|err]].
  - done.
Qed.

Lemma app_cons_ne s a t : s +:+ String a t <> "".
Proof. by destruct s. Qed.

Lemma reviewTarget_granted e n gvr ns n' : reviewTarget e n gvr ns = (n', Ok "") -> granted e gvr ns.
Proof.
  unfold reviewTarget. destruct (missing_verbs e n gvr ns accessVerbs) as [m [[|v missing]|err]] eqn:E; [| |done].
  - intros _ verb Hin. by eapply missing_verbs_nil.
  - intros [= _ Hm]. exfalso. by eapply app_cons_ne.
Qed.

(** ** The review loop *)

(** A cached verdict of no denial stands for a grant. *)
Definition seen_ok (e : ruleEnv) (seen : gmap string string) : Prop :=
  forall key, seen !! key = Some "" ->
    exists gvr ns, dns_gvr gvr = true /\ key = GVR_String gvr +:+ "|" +:+ ns /\ granted e gvr ns.

(** A target of a resolved resource. *)
Definition target_of (sinkName redaction : string) (res : resolvedResource) (ns : string) : WatchTarget :=
  mkTarget sinkName (rr_gvk res) ns (rr_selector res) redaction.

Lemma review_key_inj g ns g' ns' :
  dns_gvr g = true -> dns_gvr g' = true ->
  GVR_String g +:+ "|" +:+ ns = GVR_String g' +:+ "|" +:+ ns' -> g = g' /\ ns = ns'.
Proof.
  intros Hg Hg' E. change ("|" +:+ ns) with (String "|" ns) in E. change ("|" +:+ ns') with (String "|" ns') in E.
  apply first_sep_inj in E as [E ->]; [|by apply GVR_String_bar..]. split; [by apply GVR_String_inj|done].
Qed.

(** One (resource, namespace) pair: granted and added, or denied and reported. *)
Lemma review_one_spec e sinkName redaction res ns s s' :
  dns_gvr (rr_gvr res) = true -> seen_ok e (rw_seen s) ->
  review_one e sinkName redaction res ns s = inl s' ->
  seen_ok e (rw_seen s') /\
  ((rw_targets s' = rw_targets s ++ [target_of sinkName redaction res ns] /\ rw_denials s' = rw_denials s /\
    granted e (rr_gvr res) ns) \/
   (rw_targets s' = rw_targets s /\ rw_denials s' <> [] /\ exists d, rw_denials s' = rw_denials s ++ d)).
Proof.
  intros Hd Hs. unfold review_one.
  assert (Hkey : forall n seen denial, seen_ok e seen ->
    (denial = "" -> granted e (rr_gvr res) ns) ->
    (if negb (String.eqb denial "")
     then @inl reviewState error (mkReviewState n seen (rw_targets s)
            (if bool_decide (denial ∈ rw_denials s) then rw_denials s else rw_denials s ++ [denial]))
     else inl (mkReviewState n seen (rw_targets s ++ [mkTarget sinkName (rr_gvk res) ns (rr_selector res) redaction])
            (rw_denials s))) = inl s' ->
    seen_ok e (rw_seen s') /\
    ((rw_targets s' = rw_targets s ++ [target_of sinkName redaction res ns] /\ rw_denials s' = rw_denials s /\
      granted e (rr_gvr res) ns) \/
     (rw_targets s' = rw_targets s /\ rw_denials s' <> [] /\ exists d, rw_denials s' = rw_denials s ++ d))).
  { intros n seen denial Hseen Hg. destruct (String.eqb_spec denial "") as [->|Hne]; simpl; intros [= <-]; simpl.
    - split; [done|]. left. by split; [|split; [|apply Hg]].
    - split; [done|]. right. split; [done|]. case_bool_decide as Hin.
      + split; [intros E; rewrite E in Hin; by apply elem_of_nil in Hin|]. exists []. by rewrite app_nil_r.
      + split; [by destruct (rw_denials s)|by exists [denial]]. }
  destruct (rw_seen s !! (GVR_String (rr_gvr res) +:+ "|" +:+ ns)) as [denial|] eqn:Hl.
  - apply Hkey; [done|]. intros ->. destruct (Hs _ Hl) as (g & ns' & Hg & Ek & Hgr).
    by apply review_key_inj in Ek as [-> ->].
  - destruct (reviewTarget e (rw_next s) (rr_gvr res) ns) as [n [denial|err]] eqn:Hr; [|done].
    apply Hkey.
    + intros key Hk. destruct (decide (key = GVR_String (rr_gvr res) +:+ "|" +:+ ns)) as [->|Hne].
      * rewrite lookup_insert_eq in Hk. injection Hk as ->. exists (rr_gvr res), ns. split; [done|]. split; [done|].
        by eapply reviewTarget_granted.
      * rewrite lookup_insert_ne in Hk by done. by apply Hs.
    + intros ->. by eapply reviewTarget_granted.
Qed.

(** What the loop has done over some pairs: every target is granted, and if nothing
    was denied every pair has its target. *)
Definition reviewed (e : ruleEnv) (sinkName redaction : string) (pairs : list (resolvedResource * string))
    (s s' : reviewState) : Prop :=
  seen_ok e (rw_seen s') /\
  (exists ts, rw_targets s' = rw_targets s ++ ts /\
    (forall t, t ∈ ts -> exists res ns, (res, ns) ∈ pairs /\ t = target_of sinkName redaction res ns /\ granted e (rr_gvr res) ns) /\
    (rw_denials s' = [] -> forall res ns, (res, ns) ∈ pairs -> target_of sinkName redaction res ns ∈ ts)) /\
  exists d, rw_denials s' = rw_denials s ++ d.

Lemma reviewed_nil e sinkName redaction s : seen_ok e (rw_seen s) -> reviewed e sinkName redaction [] s s.
Proof.
  intros Hs. split; [done|]. split; [|exists []; by rewrite app_nil_r]. exists []. rewrite app_nil_r.
  split; [done|]. split; [by intros t ?%elem_of_nil|]. by intros _ res ns ?%elem_of_nil.
Qed.

Lemma reviewed_app e sinkName redaction p q s s1 s2 :
  reviewed e sinkName redaction p s s1 -> reviewed e sinkName redaction q s1 s2 ->
  reviewed e sinkName redaction (p ++ q) s s2.
Proof.
  intros (_ & (ts & Ht & Ht1 & Ht2) & (d & Hd)) (Hs & (us & Hu & Hu1 & Hu2) & (d' & Hd')).
  split; [done|]. split; [|exists (d ++ d'); by rewrite Hd', Hd, app_assoc].
  exists (ts ++ us). split; [by rewrite Hu, Ht, app_assoc|]. split.
  - intros t [Hin|Hin]%elem_of_app; [apply Ht1 in Hin|apply Hu1 in Hin]; destruct Hin as (res & ns & Hp & Hrest);
      exists res, ns; (split; [apply elem_of_app; by eauto|done]).
  - intros Hno res ns [Hin|Hin]%elem_of_app; apply elem_of_app.
    + left. apply Ht2; [|done]. rewrite Hd' in Hno. by apply app_eq_nil in Hno as [? _].
    + right. by apply Hu2.
Qed.

Lemma reviewed_one e sinkName redaction res ns s s' :
  dns_gvr (rr_gvr res) = true -> seen_ok e (rw_seen s) -> review_one e sinkName redaction res ns s = inl s' ->
  reviewed e sinkName redaction [(res, ns)] s s'.
Proof.
  intros Hd Hs Hr. destruct (review_one_spec _ _ _ _ _ _ _ Hd Hs Hr) as [Hs' [(Ht & Hdn & Hg)|(Ht & Hne & d & Hdn)]].
  - split; [done|]. split; [|exists []; by rewrite app_nil_r]. exists [target_of sinkName redaction res ns].
    split; [done|]. split.
    + intros t ->%list_elem_of_singleton. exists res, ns. by split; [apply list_elem_of_singleton|].
    + intros _ res' ns' [= -> ->]%list_elem_of_singleton. by apply list_elem_of_singleton.
  - split; [done|]. split; [|by exists d]. exists []. rewrite app_nil_r. split; [done|].
    split; [by intros t ?%elem_of_nil|done].
Qed.

Lemma reviewed_namespaces e sinkName redaction res namespaces s s' :
  dns_gvr (rr_gvr res) = true -> seen_ok e (rw_seen s) ->
  review_namespaces e sinkName redaction res namespaces s = inl s' ->
  reviewed e sinkName redaction (pair res <$> namespaces) s s'.
Proof.
  intros Hd. revert s. induction namespaces as [|ns namespaces IH]; intros s Hs; simpl.
  { intros [= <-]. by apply reviewed_nil. }
  destruct (review_one e sinkName redaction res ns s) as [s1|err] eqn:E; [|done]. intros Hr.
  pose proof (reviewed_one _ _ _ _ _ _ _ Hd Hs E) as H1.
  change (reviewed e sinkName redaction ([(res, ns)] ++ (pair res <$> namespaces)) s s').
  eapply reviewed_app; [exact H1|]. apply IH; [apply H1|done].
Qed.

(** The (resource, namespace) pairs of a pass. *)
Definition pairs_of (resolved : list resolvedResource) : list (resolvedResource * string) :=
  mjoin ((fun res => pair res <$> rr_namespaces res) <$> resolved).

Lemma reviewed_resources e sinkName redaction resolved s s' :
  Forall (fun res => dns_gvr (rr_gvr res) = true) resolved -> seen_ok e (rw_seen s) ->
  review_resources e sinkName redaction resolved s = inl s' ->
  reviewed e sinkName redaction (pairs_of resolved) s s'.
Proof.
  intros HF. revert s. induction HF as [|res resolved Hd HF IH]; intros s Hs; simpl.
  { intros [= <-]. by apply reviewed_nil. }
  destruct (review_namespaces e sinkName redaction res (rr_namespaces res) s) as [s1|err] eqn:E; [|done]. intros Hr.
  pose proof (reviewed_namespaces _ _ _ _ _ _ _ Hd Hs E) as H1.
  unfold pairs_of. simpl. eapply reviewed_app; [exact H1|]. apply IH; [apply H1|done].
Qed.

Lemma elem_of_pairs_of resolved res ns :
  (res, ns) ∈ pairs_of resolved <-> res ∈ resolved /\ ns ∈ rr_namespaces res.
Proof.
  unfold pairs_of. rewrite list_elem_of_join. split.
  - intros (l & Hl & (res' & -> & Hin)%list_elem_of_fmap). apply list_elem_of_fmap in Hl as (ns' & [= -> ->] & Hns). done.
  - intros [Hres Hns]. exists (pair res <$> rr_namespaces res). split; [|by apply list_elem_of_fmap; exists res].
    apply list_elem_of_fmap. by exists ns.
Qed.

(** ** Resolution *)

Lemma ResolveForScope_ok e gvk rule r r' gvr namespaced :
  ResolveForScope e gvk rule r = (r', inl (gvr, namespaced)) ->
  exists mapping, rv_answer e = inl mapping /\ gvr = rm_Resource mapping /\ namespaced = rm_Namespaced mapping /\
    (rule = NamespacedRule -> namespaced = true).
Proof.
  unfold ResolveForScope, Resolve. destruct (gatedError (rv_gate e) gvk r); [done|]. unfold settle.
  destruct (rv_answer e) as [mapping|err]; [|done]. unfold checkScope.
  case_bool_decide as Hr; destruct (rm_Namespaced mapping) eqn:En; simpl; try done; intros [= _ <- <-];
    exists mapping; rewrite En; by repeat split.
Qed.

(** The resource as the pass saw it: the mapper's answer and the printed selector. *)
Definition resolved_as (k : ruleKind) (e : ruleEnv) (i : nat) (res : WatchedResource) (mapping : RESTMapping)
    (selector : string) : Prop :=
  rv_answer (re_mapper e i) = inl mapping /\ (rk_scope k = NamespacedRule -> rm_Namespaced mapping = true) /\
  CanonicalSelector (wr_LabelSelector res) = Ok selector.

Definition resolved_to (namespaces : list string) (res : WatchedResource) (mapping : RESTMapping) (selector : string) :
    resolvedResource :=
  mkResolved (resource_GVK res) (rm_Resource mapping) selector (namespacesFor (rm_Namespaced mapping) namespaces).

Lemma resolveResources_spec k e namespaces i resources r r' resolved failures :
  resolveResources k e namespaces i resources r = (r', resolved, failures) ->
  (forall rres, rres ∈ resolved -> exists j res mapping selector, resources !! j = Some res /\
     resolved_as k e (i + j) res mapping selector /\ rres = resolved_to namespaces res mapping selector) /\
  (failures = [] -> forall j res, resources !! j = Some res -> exists mapping selector,
     resolved_as k e (i + j) res mapping selector /\ resolved_to namespaces res mapping selector ∈ resolved).
Proof.
  revert i r r' resolved failures. induction resources as [|res resources IH]; intros i r r' resolved failures.
  { intros [= _ <- <-]. split; [by intros rres ?%elem_of_nil|done]. }
  cbn [resolveResources]. destruct (ResolveForScope (re_mapper e i) (resource_GVK res) (rk_scope k) r) as [r1 answer] eqn:Ea.
  destruct (resolveResources k e namespaces (S i) resources r1) as [[r2 rs] fs] eqn:Er.
  apply IH in Er as [IH1 IH2].
  assert (Hlater : forall rres, rres ∈ rs -> exists j res0 mapping selector, (res :: resources) !! j = Some res0 /\
     resolved_as k e (i + j) res0 mapping selector /\ rres = resolved_to namespaces res0 mapping selector).
  { intros rres Hin. apply IH1 in Hin as (j & res0 & m & sel & Hj & Hr & ->). exists (S j), res0, m, sel.
    split; [done|]. rewrite Nat.add_succ_r. by split. }
  destruct answer as [[gvr namespaced]|err]; [|by intros [= _ <- <-]].
  apply ResolveForScope_ok in Ea as (m & Hm & -> & -> & Hsc).
  destruct (CanonicalSelector (wr_LabelSelector res)) as [sel|err] eqn:Es; [|by intros [= _ <- <-]].
  intros [= _ <- <-]. split.
  - intros rres [->|Hin]%elem_of_cons; [|by apply Hlater]. exists 0, res, m, sel. rewrite Nat.add_0_r.
    by repeat split.
  - intros -> [|j] res0 Hj; simpl in Hj.
    + injection Hj as <-. exists m, sel. rewrite Nat.add_0_r. split; [by repeat split|by left].
    + destruct (IH2 eq_refl j res0 Hj) as (m' & sel' & Hr & Hin). exists m', sel'. rewrite Nat.add_succ_r.
      split; [done|by right].
Qed.

(** ** One pass *)

(** The mapper answers with resources whose names are DNS names. *)
Definition dns_mapper (e : ruleEnv) : Prop :=
  forall i mapping, rv_answer (re_mapper e i) = inl mapping -> dns_gvr (rm_Resource mapping) = true.

(** The redaction a pass stamps on its targets. *)
Definition pass_redaction (chSink : ClickHouseSink) (spec : StreamRuleSpec) : string :=
  canonicalRedaction (sp_Redaction (ss_Policy (sk_Spec chSink))) (sr_ExtraRedaction spec).

(** A target that passed every gate: an admitted resource of the rule, resolved in
    this pass to a resource its kind of rule may watch, in a namespace of the rule's
    expansion, granted to the operator, for the rule's sink, with the merged
    redaction. *)
Definition vetted (k : ruleKind) (e : ruleEnv) (obj : ruleObject) (chSink : ClickHouseSink) (namespaces : list string)
    (t : WatchTarget) : Prop :=
  exists j res mapping selector ns,
    sr_Resources (rk_spec k obj) !! j = Some res /\ admitted (ss_Policy (sk_Spec chSink)) res /\
    resolved_as k e j res mapping selector /\ ns ∈ namespacesFor (rm_Namespaced mapping) namespaces /\
    granted e (rm_Resource mapping) ns /\
    t = mkTarget (om_Name (sk_meta chSink)) (resource_GVK res) ns selector (pass_redaction chSink (rk_spec k obj)).

Lemma reviewTargets_spec k e obj chSink namespaces r r' resolved failures targets denials :
  dns_mapper e -> checkPolicy (sr_Resources (rk_spec k obj)) (ss_Policy (sk_Spec chSink)) = None ->
  resolveResources k e namespaces 0 (sr_Resources (rk_spec k obj)) r = (r', resolved, failures) ->
  reviewTargets e (om_Name (sk_meta chSink)) resolved (pass_redaction chSink (rk_spec k obj)) = inl (targets, denials) ->
  (forall t, t ∈ targets -> vetted k e obj chSink namespaces t) /\
  (failures = [] -> denials = [] -> forall j res, sr_Resources (rk_spec k obj) !! j = Some res ->
     exists mapping selector, resolved_as k e j res mapping selector /\
       forall ns, ns ∈ namespacesFor (rm_Namespaced mapping) namespaces ->
         mkTarget (om_Name (sk_meta chSink)) (resource_GVK res) ns selector (pass_redaction chSink (rk_spec k obj)) ∈ targets).
Proof.
  intros Hdns Hpol Hres. apply resolveResources_spec in Hres as [Hr1 Hr2]. unfold reviewTargets.
  destruct (review_resources e _ _ resolved _) as [s|err] eqn:Hrev; [|done]. intros [= <- <-].
  apply reviewed_resources in Hrev as (_ & (ts & Ht & Ht1 & Ht2) & _); cycle 1.
  { apply Forall_forall. intros rres Hin. apply Hr1 in Hin as (j & res & m & sel & _ & (Hm & _) & ->). simpl. by eapply Hdns. }
  { intros key Hk. simpl in Hk. by rewrite lookup_empty in Hk. }
  simpl in Ht. subst ts. split.
  - intros t Hin. apply Ht1 in Hin as (rres & ns & [Hin Hns]%elem_of_pairs_of & -> & Hg).
    apply Hr1 in Hin as (j & res & m & sel & Hj & Hra & ->). simpl in *.
    exists j, res, m, sel, ns. split; [done|]. split; [|done].
    eapply checkPolicy_none; [done|]. by eapply list_elem_of_lookup_2.
  - intros Hf Hd j res Hj. destruct (Hr2 Hf j res Hj) as (m & sel & Hra & Hin). exists m, sel. split; [done|].
    intros ns Hns. apply (Ht2 Hd (resolved_to namespaces res m sel) ns). by apply elem_of_pairs_of.
Qed.

(** ** Reads that fail *)

(** The access reviews a pass can make of a resource in a namespace leave one of the
    verbs without an answer: the cluster-wide review fails, or it is negative and the
    one in the namespace fails. *)
Definition review_fails (e : ruleEnv) (gvr : GroupVersionResource) (ns : string) : Prop :=
  exists verb, verb ∈ accessVerbs /\
    ((forall n, exists err, re_access e n (mkReview gvr "" verb) = Err err) \/
     (ns <> "" /\ (forall n, re_access e n (mkReview gvr "" verb) = Ok false) /\
      forall n, exists err, re_access e n (mkReview gvr ns verb) = Err err)).

Definition answered (e : ruleEnv) (gvr : GroupVersionResource) (ns : string) : Prop :=
  exists n n' denial, reviewTarget e n gvr ns = (n', Ok denial).

Lemma missing_verbs_answered e n gvr ns verbs n' missing verb :
  missing_verbs e n gvr ns verbs = (n', Ok missing) -> verb ∈ verbs ->
  exists m, re_access e m (mkReview gvr "" verb) = Ok true \/
    (re_access e m (mkReview gvr "" verb) = Ok false /\ (ns = "" \/ exists m' b, re_access e m' (mkReview gvr ns verb) = Ok b)).
Proof.
  revert n n' missing. induction verbs as [|v verbs IH]; intros n n' missing; [by intros _ ?%elem_of_nil|].
  cbn [missing_verbs]. destruct (review e n gvr "" v) as [n1 [[]|err]] eqn:E1; [| |done].
  - destruct (missing_verbs e n1 gvr ns verbs) as [n3 [missing'|err]] eqn:E3; [|done].
    intros _ [->|Hin]%elem_of_cons; [|by eapply IH]. exists n. left. by eapply review_ok.
  - apply review_ok in E1. destruct (String.eqb_spec ns "") as [->|Hne]; cbn [negb].
    + destruct (missing_verbs e n1 gvr "" verbs) as [n3 [missing'|err]] eqn:E3; [|done].
      intros _ [->|Hin]%elem_of_cons; [|by eapply IH]. exists n. right. split; [done|by left].
    + destruct (review e n1 gvr ns v) as [n2 [b|err]] eqn:E2; [|done]. apply review_ok in E2.
      destruct (missing_verbs e n2 gvr ns verbs) as [n3 [missing'|err]] eqn:E3; [|done].
      intros _ [->|Hin]%elem_of_cons; [|by eapply IH]. exists n. right. split; [done|]. right. by exists n1, b.
Qed.

Lemma answered_not_failing e gvr ns : answered e gvr ns -> ~ review_fails e gvr ns.
Proof.
  intros (n & n' & denial & Hr) (verb & Hin & Hf). unfold reviewTarget in Hr.
  destruct (missing_verbs e n gvr ns accessVerbs) as [m [missing|err]] eqn:E; [|done].
  destruct (missing_verbs_answered _ _ _ _ _ _ _ _ E Hin) as (j & Hj).
  destruct Hf as [Hf|(Hne & Hf & Hf')]; [destruct (Hf j) as [err Herr]; destruct Hj as [Hj|[Hj _]]; congruence|].
  destruct Hj as [Hj|[_ [->|(j' & b & Hj')]]]; [rewrite Hf in Hj; congruence|done|].
  destruct (Hf' j') as [err Herr]. congruence.
Qed.

(** What the pass remembers was answered. *)
Definition seen_answered (e : ruleEnv) (seen : gmap string string) : Prop :=
  forall key denial, seen !! key = Some denial ->
    exists gvr ns, dns_gvr gvr = true /\ key = GVR_String gvr +:+ "|" +:+ ns /\ answered e gvr ns.

Lemma review_one_answered e sinkName redaction res ns s s' :
  dns_gvr (rr_gvr res) = true -> seen_answered e (rw_seen s) -> review_one e sinkName redaction res ns s = inl s' ->
  seen_answered e (rw_seen s') /\ answered e (rr_gvr res) ns.
Proof.
  intros Hd Hs. unfold review_one. destruct (rw_seen s !! (GVR_String (rr_gvr res) +:+ "|" +:+ ns)) as [denial|] eqn:Hl.
  - destruct (Hs _ _ Hl) as (g & ns' & Hg & Ek & Ha). apply review_key_inj in Ek as [-> ->]; [|done..].
    intros E. split; [|done]. by destruct (negb _); injection E as <-.
  - destruct (reviewTarget e (rw_next s) (rr_gvr res) ns) as [n [denial|err]] eqn:Hr; [|done].
    assert (Ha : answered e (rr_gvr res) ns) by (by eexists _, _, _). intros E. split; [|done].
    assert (Hseen : rw_seen s' = <[GVR_String (rr_gvr res) +:+ "|" +:+ ns := denial]> (rw_seen s))
      by (by destruct (negb _); injection E as <-).
    rewrite Hseen. intros key d [[<- _]|[_ Hk]]%lookup_insert_Some; [by exists (rr_gvr res), ns|by eapply Hs].
Qed.

Lemma review_namespaces_answered e sinkName redaction res namespaces s s' :
  dns_gvr (rr_gvr res) = true -> seen_answered e (rw_seen s) -> review_namespaces e sinkName redaction res namespaces s = inl s' ->
  seen_answered e (rw_seen s') /\ forall ns, ns ∈ namespaces -> answered e (rr_gvr res) ns.
Proof.
  intros Hd. revert s. induction namespaces as [|n namespaces IH]; intros s Hs; cbn [review_namespaces].
  { intros [= <-]. split; [done|]. by intros ns ?%elem_of_nil. }
  destruct (review_one e sinkName redaction res n s) as [s1|err] eqn:E; [|done]. intros Hr.
  destruct (review_one_answered _ _ _ _ _ _ _ Hd Hs E) as [Hs1 Ha]. destruct (IH s1 Hs1 Hr) as [Hs' Hl].
  split; [done|]. intros ns [->|Hin]%elem_of_cons; [done|by apply Hl].
Qed.

Lemma review_resources_answered e sinkName redaction resolved s s' :
  Forall (fun res => dns_gvr (rr_gvr res) = true) resolved -> seen_answered e (rw_seen s) ->
  review_resources e sinkName redaction resolved s = inl s' ->
  forall res ns, res ∈ resolved -> ns ∈ rr_namespaces res -> answered e (rr_gvr res) ns.
Proof.
  intros HF. revert s. induction HF as [|res resolved Hd HF IH]; intros s Hs; cbn [review_resources].
  { by intros _ res ns ?%elem_of_nil. }
  destruct (review_namespaces e sinkName redaction res (rr_namespaces res) s) as [s1|err] eqn:E; [|done]. intros Hr res' ns.
  destruct (review_namespaces_answered _ _ _ _ _ _ _ Hd Hs E) as [Hs1 Ha].
  intros [->|Hin]%elem_of_cons Hns; [by apply Ha|by apply (IH s1 Hs1 Hr)].
Qed.

(** One of the reads a pass over a rule depends on fails: its sink; the listing of the
    namespaces a cluster rule selects; a review of a resource that was resolved. *)
Definition read_fails (k : ruleKind) (e : ruleEnv) (obj : ruleObject) (r : Resolver) : Prop :=
  (exists err, re_sink e = GetFailed err) \/
  exists chSink, re_sink e = Found chSink /\ checkPolicy (sr_Resources (rk_spec k obj)) (ss_Policy (sk_Spec chSink)) = None /\
    ((rk_scope k = ClusterRule /\ exists selector labels err,
        rk_namespaceSelector k obj = Some selector /\ LabelSelectorAsSelector selector = Ok labels /\ re_namespaces e labels = Err err) \/
     (exists namespaces r' resolved failures res ns,
        targetNamespaces k e obj = inl namespaces /\
        resolveResources k e namespaces 0 (sr_Resources (rk_spec k obj)) r = (r', resolved, failures) /\
        res ∈ resolved /\ ns ∈ rr_namespaces res /\ review_fails e (rr_gvr res) ns)).

Lemma read_fails_plan k e obj status r :
  dns_mapper e -> read_fails k e obj r -> is_Some (po_err (plan k e obj status r).2).
Proof.
  intros Hdns. unfold plan, resolveSink. intros [[err ->]|(chSink & Hsink & Hpol & Hf)]; [by eexists|]. rewrite Hsink.
  assert (Hs : exists v, match findCondition (sst_Conditions (sk_Status chSink)) ConditionReady with
    | Some ready => if String.eqb (c_Status ready) ConditionTrue then Ok (Some chSink, noVerdict)
                    else Ok (Some chSink, mkVerdict ReasonSinkNotReady ("ClickHouseSink " +:+ Quote (sr_SinkRef (rk_spec k obj)) +:+
                      " is not ready (" +:+ c_Reason ready +:+ ": " +:+ c_Message ready +:+ ")"))
    | None => Ok (Some chSink, mkVerdict ReasonSinkNotReady ("ClickHouseSink " +:+ Quote (sr_SinkRef (rk_spec k obj)) +:+
                      " has not reported its health yet"))
    end = Ok (Some chSink, v)) by (destruct (findCondition _ _) as [c|]; [destruct (String.eqb _ _)|]; by eexists).
  destruct Hs as [v ->]. rewrite Hpol.
  destruct Hf as [(Hk & sel & labels & err & Hsel & Hl & Hn)|(namespaces & r' & resolved & failures & res & ns & Ht & Hr & Hin & Hns & Hf)].
  - unfold targetNamespaces. rewrite Hk, bool_decide_eq_false_2 by done. rewrite Hsel, Hl, Hn. by eexists.
  - rewrite Ht, Hr. unfold reviewTargets. destruct (review_resources _ _ _ resolved _) as [s|err] eqn:E; [|by eexists]. exfalso.
    apply resolveResources_spec in Hr as [Hr1 _].
    apply (answered_not_failing e (rr_gvr res) ns); [|done]. eapply review_resources_answered; [|..|exact E|exact Hin|exact Hns].
    + apply Forall_forall. intros rres Hi. apply Hr1 in Hi as (j & wr & m & sl & _ & (Hm & _) & ->). simpl. by eapply Hdns.
    + intros key d Hk. cbn in Hk. by rewrite lookup_empty in Hk.
Qed.

(** ** The conditions of a pass *)

(** A roll-up that is healthy has no unhealthy condition behind it. *)
Lemma ready_no_false status verdict t c :
  c_Status (readyCondition status verdict) = ConditionTrue -> t ∈ ruleReadyOrder ->
  findCondition (sw_conditions status) t = Some c -> c_Status c = ConditionTrue.
Proof.
  unfold readyCondition. destruct (negb (String.eqb (sv_reason verdict) "")); [done|].
  intros Hr Hin Hc. by eapply (proj1 (readyFor_true _ _ _ _ _ _)).
Qed.

Lemma not_ready_set now t s r m status verdict :
  t ∈ ruleReadyOrder -> s <> ConditionTrue ->
  c_Status (readyCondition (status_set now t s r m status) verdict) <> ConditionTrue.
Proof.
  intros Hin Hne Hr. destruct (find_status_set now t s r m status) as (c & Hc & Hs & _).
  apply Hne. rewrite <- Hs. by eapply ready_no_false.
Qed.

Lemma not_ready_set_other now t s r m status verdict t' c :
  t <> t' -> t' ∈ ruleReadyOrder -> findCondition (sw_conditions status) t' = Some c -> c_Status c <> ConditionTrue ->
  c_Status (readyCondition (status_set now t s r m status) verdict) <> ConditionTrue.
Proof.
  intros Hne Hin Hc Hs Hr. apply Hs. eapply ready_no_false; [exact Hr|exact Hin|].
  by rewrite find_status_set_other by congruence.
Qed.

Lemma gate_failed now t failures tr tm fr status :
  failures <> [] ->
  exists c, findCondition (sw_conditions (setGateCondition now t failures tr tm fr status)) t = Some c /\
    c_Status c <> ConditionTrue.
Proof.
  intros Hf. destruct failures as [|f fs]; [done|]. unfold setGateCondition.
  destruct (find_status_set now t ConditionFalse fr (truncateMessage (join "; " (f :: fs))) status) as (c & Hc & Hs & _).
  exists c. split; [exact Hc|]. by rewrite Hs.
Qed.

Lemma gate_other now t failures tr tm fr status t' :
  t' <> t ->
  findCondition (sw_conditions (setGateCondition now t failures tr tm fr status)) t' = findCondition (sw_conditions status) t'.
Proof. intros Hne. unfold setGateCondition. destruct failures; by apply find_status_set_other. Qed.

(** A healthy roll-up after the last two gates: neither reported a failure. *)
Lemma gates_ready now failures tr tm fr denials tr' tm' fr' status verdict :
  c_Status (readyCondition (setGateCondition now ConditionRBACGranted denials tr' tm' fr'
    (setGateCondition now ConditionResourceResolved failures tr tm fr status)) verdict) = ConditionTrue ->
  failures = [] /\ denials = [].
Proof.
  intros Hr. split; apply dec_stable; intros Hne.
  - destruct (gate_failed now ConditionResourceResolved failures tr tm fr status Hne) as (c & Hc & Hs). apply Hs.
    apply (ready_no_false _ _ ConditionResourceResolved c Hr); [set_solver|]. by rewrite gate_other.
  - destruct (gate_failed now ConditionRBACGranted denials tr' tm' fr'
      (setGateCondition now ConditionResourceResolved failures tr tm fr status) Hne) as (c & Hc & Hs). apply Hs.
    apply (ready_no_false _ _ ConditionRBACGranted c Hr); [set_solver|done].
Qed.

(** What a healthy roll-up says of the pass, when the sink was read. *)
Definition streams_all (k : ruleKind) (e : ruleEnv) (obj : ruleObject) (targets : list WatchTarget) : Prop :=
  exists chSink namespaces, re_sink e = Found chSink /\ targetNamespaces k e obj = inl namespaces /\
    forall j res, sr_Resources (rk_spec k obj) !! j = Some res ->
      admitted (ss_Policy (sk_Spec chSink)) res /\
      exists mapping selector, resolved_as k e j res mapping selector /\
        forall ns, ns ∈ namespacesFor (rm_Namespaced mapping) namespaces ->
          mkTarget (om_Name (sk_meta chSink)) (resource_GVK res) ns selector (pass_redaction chSink (rk_spec k obj)) ∈ targets.

(** The outcome of [plan]: vetted targets; a retry exactly when nothing is to be
    installed; and a healthy roll-up only when everything is. *)
Lemma plan_spec k e obj status r r' status' o :
  dns_mapper e -> plan k e obj status r = (r', status', o) ->
  (forall t, t ∈ po_targets o -> exists chSink namespaces, re_sink e = Found chSink /\
     targetNamespaces k e obj = inl namespaces /\ vetted k e obj chSink namespaces t) /\
  (po_install o = true <-> po_err o = None) /\
  ((forall err, re_sink e <> GetFailed err) -> c_Status (readyCondition status' (po_verdict o)) = ConditionTrue ->
     po_install o = true /\ streams_all k e obj (po_targets o)).
Proof.
  intros Hdns. unfold plan.
  assert (Hnil : forall (P : WatchTarget -> Prop), forall t, t ∈ [] -> P t) by (intros P t ?%elem_of_nil; done).
  destruct (resolveSink e (sr_SinkRef (rk_spec k obj))) as [[[chSink|] verdict]|err] eqn:Es.
  - assert (Hf : re_sink e = Found chSink).
    { unfold resolveSink in Es. destruct (re_sink e); [|done|done]. repeat case_match; simplify_eq; done. }
    destruct (checkPolicy _ _) as [denied|] eqn:Ep.
    { intros [= _ <- <-]. split; [apply Hnil|]. split; [done|]. intros _ Hr. exfalso. revert Hr.
      apply not_ready_set; [set_solver|done]. }
    destruct (targetNamespaces k e obj) as [namespaces|[err|err]] eqn:En.
    + destruct (resolveResources k e namespaces 0 (sr_Resources (rk_spec k obj)) r) as [[r1 resolved] failures] eqn:Er.
      change (canonicalRedaction (sp_Redaction (ss_Policy (sk_Spec chSink))) (sr_ExtraRedaction (rk_spec k obj)))
        with (pass_redaction chSink (rk_spec k obj)).
      destruct (reviewTargets _ _ _ _) as [[targets denials]|err] eqn:Et.
      * destruct (reviewTargets_spec _ _ _ _ _ _ _ _ _ _ _ Hdns Ep Er Et) as [Hv Hall].
        intros [= _ <- <-]. split; [intros t Hin; exists chSink, namespaces; simpl in Hin; by eauto|]. split; [done|].
        intros _ Hr. split; [done|].
        apply gates_ready in Hr as [-> ->].
        exists chSink, namespaces. split; [done|]. split; [done|]. intros j res Hj. split.
        { eapply checkPolicy_none; [done|]. by eapply list_elem_of_lookup_2. }
        by apply Hall.
      * intros [= _ <- <-]. split; [apply Hnil|]. split; [done|]. intros _ Hr. exfalso. revert Hr.
        apply not_ready_set; [set_solver|done].
    + intros [= _ <- <-]. split; [apply Hnil|]. split; [done|]. intros _ Hr. exfalso. revert Hr.
      apply not_ready_set; [set_solver|done].
    + intros [= _ <- <-]. split; [apply Hnil|]. split; [done|]. intros _ Hr. exfalso. revert Hr.
      apply not_ready_set; [set_solver|done].
  - intros [= _ <- <-]. split; [apply Hnil|]. split; [done|]. intros _ Hr. exfalso.
    unfold resolveSink in Es. destruct (re_sink e) as [c| |err]; [repeat case_match; done| |done].
    injection Es as <-. done.
  - intros [= _ <- <-]. split; [apply Hnil|]. split; [done|]. intros Hno. exfalso.
    unfold resolveSink in Es. destruct (re_sink e) as [c| |err']; [repeat case_match; done|done|]. by apply (Hno err').
Qed.

(** ** Passes *)

(** The object is of the kind's type. *)
Definition of_kind (k : ruleKind) (obj : ruleObject) : Prop :=
  match rk_scope k, obj with
  | NamespacedRule, StreamRule _ _ _ | ClusterRule, ClusterStreamRule _ _ _ _ => True
  | _, _ => False
  end.

(** What a pass relies on: it is one of the two reconcilers, names have no slash,
    the API server answers with the object that was asked for, and the mapper with
    DNS names. *)
Record pass_ok (k : ruleKind) (req : NamespacedName) (e : ruleEnv) : Prop := mkPassOk {
  ok_kind : k = streamRuleKind \/ k = clusterStreamRuleKind;
  ok_namespace : has_char "/" (nn_Namespace req) = false;
  ok_rule : forall obj, re_rule e = Found obj -> of_kind k obj /\ om_Namespace (rule_meta obj) = nn_Namespace req;
  ok_fresh : forall a fresh, a ∈ (re_update e).1 :: (re_update e).2 -> sa_get a = inl fresh -> of_kind k fresh;
  ok_mapper : dns_mapper e;
}.

Definition req_key (k : ruleKind) (req : NamespacedName) : string := RuleKey (rk_kind k) (nn_Namespace req) (nn_Name req).

(** The one thing a pass does to the registry: nothing, a removal, or an update with
    vetted targets, always under its own key. *)
Definition pass_effect (k : ruleKind) (req : NamespacedName) (e : ruleEnv) (op : option regOp) : Prop :=
  match op with
  | None => True
  | Some (OpRemove rk) => rk = req_key k req
  | Some (OpUpsert rk ts) => rk = req_key k req /\
      exists obj, re_rule e = Found obj /\ forall t, t ∈ ts -> exists chSink namespaces,
        re_sink e = Found chSink /\ targetNamespaces k e obj = inl namespaces /\ vetted k e obj chSink namespaces t
  end.

Definition apply_effect (op : option regOp) (r : Registry) : Registry :=
  match op with Some op => run_regOp op r | None => r end.

Lemma Reconcile_effect k resync req e w :
  pass_ok k req e ->
  exists op, rw_registry (Reconcile k resync req e w).1 = apply_effect op (rw_registry w) /\ pass_effect k req e op /\
    (op = None <-> (exists err, re_rule e = GetFailed err) \/
       exists obj, re_rule e = Found obj /\ om_Deleting (rule_meta obj) = false /\
         is_Some (po_err (plan k e obj (newStatusWriter (om_Generation (rule_meta obj))) (rw_resolver w)).2)).
Proof.
  intros Hok. unfold Reconcile. destruct (re_rule e) as [obj| |err] eqn:Er.
  - destruct (om_Deleting (rule_meta obj)) eqn:Ed.
    { exists (Some (OpRemove (req_key k req))). split; [done|]. split; [done|].
      split; [done|]. intros [[err Herr]|(obj' & [= <-] & Hd & _)]; congruence. }
    destruct (plan k e obj _ (rw_resolver w)) as [[r' status] o] eqn:Ep.
    destruct (plan_spec _ _ _ _ _ _ _ _ (ok_mapper _ _ _ Hok) Ep) as (Hv & Hi & _).
    destruct (po_install o) eqn:Ei.
    + exists (Some (OpUpsert (req_key k req) (po_targets o))). split; [|split].
      * simpl. unfold req_key. destruct (Upsert _ _ _) as [reg [err|]];
          by destruct (updateStatus _ (re_update e).1 (re_update e).2).
      * split; [done|]. by exists obj.
      * split; [done|]. intros [[err Herr]|(obj' & [= <-] & _ & Hs)]; [done|].
        rewrite Ep in Hs. simpl in Hs. rewrite (proj1 Hi eq_refl) in Hs. by destruct Hs.
    + exists None. split; [|split; [done|]].
      * simpl. by destruct (updateStatus _ (re_update e).1 (re_update e).2).
      * split; [intros _; right|done]. exists obj. split; [done|]. split; [done|]. rewrite Ep. simpl.
        destruct (po_err o) eqn:Ee; [by eexists|]. exfalso. pose proof (proj2 Hi eq_refl). congruence.
  - exists (Some (OpRemove (req_key k req))). split; [done|]. split; [done|].
    split; [done|]. intros [[err Herr]|(obj' & Hf & _)]; congruence.
  - exists None. split; [done|]. split; [done|]. split; [intros _; left; by eexists|done].
Qed.

(** A target of a canonicalized set keeps its kind, namespace and sink. *)
Lemma canonicalize_elem ts desired t :
  canonicalize ts = Ok desired -> t ∈ desired ->
  exists t0, t0 ∈ ts /\ t_GVK t = t_GVK t0 /\ t_Namespace t = t_Namespace t0 /\ t_Sink t = t_Sink t0 /\
    t_Redaction t = t_Redaction t0.
Proof.
  revert desired. induction ts as [|t0 ts IH]; intros desired; simpl; [intros [= <-]; set_solver|].
  destruct (canonicalizeSelectorString (t_Selector t0)) as [sel|e]; [|done].
  destruct (canonicalize ts) as [d|e]; [|done]. intros [= <-] [Hin|Hin]%elem_of_union.
  - apply elem_of_singleton in Hin as ->. exists t0. split; [by left|done].
  - destruct (IH d eq_refl Hin) as (t1 & H1 & Hrest). exists t1. split; [by right|done].
Qed.

Lemma wants_effect op r rk t :
  wants (rules (apply_effect op r)) rk t ->
  wants (rules r) rk t \/ exists ts desired, op = Some (OpUpsert rk ts) /\ canonicalize ts = Ok desired /\ t ∈ desired.
Proof.
  destruct op as [[rk' ts|rk']|]; simpl; [| |by left].
  - change (Upsert rk' ts r).1 with (run_regOp (OpUpsert rk' ts) r). rewrite run_rules. simpl.
    destruct (canonicalize ts) as [desired|e] eqn:Ec; [|by left]. rewrite wants_set. case_decide as E; [subst|by left].
    right. by exists ts, desired.
  - change (Remove rk' r) with (run_regOp (OpRemove rk') r). rewrite run_rules. unfold wants. simpl.
    destruct (decide (rk' = rk)) as [->|Hne]; [rewrite lookup_delete_eq; set_solver|].
    rewrite lookup_delete_ne by done. by left.
Qed.

(** Other rules' contributions are not touched. *)
Lemma effect_other k req e op r rk :
  pass_effect k req e op -> rk <> req_key k req -> rules (apply_effect op r) !! rk = rules r !! rk.
Proof.
  destruct op as [[rk' ts|rk']|]; simpl; [intros [-> _] Hne|intros -> Hne|done].
  - change (Upsert (req_key k req) ts r).1 with (run_regOp (OpUpsert (req_key k req) ts) r). rewrite run_rules. simpl.
    destruct (canonicalize ts); [|done]. unfold spec_set. case_decide; [by rewrite lookup_delete_ne|by rewrite lookup_insert_ne].
  - change (Remove (req_key k req) r) with (run_regOp (OpRemove (req_key k req)) r). rewrite run_rules. simpl.
    by rewrite lookup_delete_ne.
Qed.

Lemma RuleKey_stream k req ns name :
  k = streamRuleKind \/ k = clusterStreamRuleKind -> has_char "/" (nn_Namespace req) = false -> has_char "/" ns = false ->
  req_key k req = RuleKey kindStreamRule ns name -> k = streamRuleKind /\ ns = nn_Namespace req.
Proof.
  intros Hk Hr Hn. unfold req_key, RuleKey. intros E.
  change ("/" +:+ nn_Namespace req +:+ "/" +:+ nn_Name req) with (String "/" (nn_Namespace req +:+ "/" +:+ nn_Name req)) in E.
  change ("/" +:+ ns +:+ "/" +:+ name) with (String "/" (ns +:+ "/" +:+ name)) in E.
  apply first_sep_inj in E as [Ek E]; [|by destruct Hk as [-> | ->]|done].
  destruct Hk as [-> | ->]; [|done]. split; [done|].
  change ("/" +:+ nn_Name req) with (String "/" (nn_Name req)) in E. change ("/" +:+ name) with (String "/" name) in E.
  by apply first_sep_inj in E as [-> _].
Qed.

(** A run of passes of both reconcilers. *)
Record pass := mkPass { pa_kind : ruleKind; pa_resync : Z; pa_req : NamespacedName; pa_env : ruleEnv }.

Definition run_pass (p : pass) (w : ruleWorld) : ruleWorld := (Reconcile (pa_kind p) (pa_resync p) (pa_req p) (pa_env p) w).1.
Definition run_passes (ps : list pass) (w : ruleWorld) : ruleWorld := foldl (fun w p => run_pass p w) w ps.
Definition passes_ok (ps : list pass) : Prop := Forall (fun p => pass_ok (pa_kind p) (pa_req p) (pa_env p)) ps.

(** What holds of every target in the registry. *)
Definition confined (A : desires) : Prop :=
  forall rk t, wants A rk t -> is_secret (g_Group (t_GVK t)) (g_Kind (t_GVK t)) = false /\
    forall ns name, has_char "/" ns = false -> rk = RuleKey kindStreamRule ns name -> t_Namespace t = ns.

Lemma pass_confined p w :
  pass_ok (pa_kind p) (pa_req p) (pa_env p) -> confined (rules (rw_registry w)) -> consistent (rw_registry w) ->
  confined (rules (rw_registry (run_pass p w))) /\ consistent (rw_registry (run_pass p w)).
Proof.
  intros Hok Hc Hcons. destruct (Reconcile_effect _ (pa_resync p) _ _ w Hok) as (op & Hreg & Heff & _).
  unfold run_pass. rewrite Hreg. split.
  - intros rk t Hw. apply wants_effect in Hw as [Hw|(ts & desired & -> & Hcan & Hin)]; [by apply Hc|].
    destruct Heff as (-> & obj & Hobj & Hts). destruct (canonicalize_elem _ _ _ Hcan Hin) as (t0 & Hin0 & Hg & Hns & _).
    destruct (Hts t0 Hin0) as (chSink & namespaces & _ & Hn & (j & res & m & sel & ns & _ & (Hsec & _) & (_ & Hscope & _) & Hns0 & _ & ->)).
    simpl in *. rewrite Hg. split; [done|]. intros ns' name Hslash Hkey.
    apply RuleKey_stream in Hkey as [Hk ->]; [|apply Hok|apply Hok|done]. rewrite Hk in *. simpl in *.
    unfold targetNamespaces in Hn. simpl in Hn. injection Hn as <-. rewrite Hscope in Hns0 by done. simpl in Hns0.
    apply list_elem_of_singleton in Hns0. rewrite Hns, Hns0. by destruct (ok_rule _ _ _ Hok obj Hobj).
  - destruct op as [[rk ts|rk]|]; simpl; [by apply Upsert_consistent|by apply Remove_consistent|done].
Qed.

Lemma passes_confined ps w :
  passes_ok ps -> confined (rules (rw_registry w)) -> consistent (rw_registry w) ->
  confined (rules (rw_registry (run_passes ps w))) /\ consistent (rw_registry (run_passes ps w)).
Proof.
  intros HF. revert w. induction HF as [|p ps Hok HF IH]; intros w Hc Hcons; [done|].
  destruct (pass_confined p w Hok Hc Hcons). by apply IH.
Qed.

(** Rules cannot reach beyond their authority. Whatever rules exist and change,
    whatever the sinks' policies say and the API server answers, over any sequence
    of reconcile passes: no target in the watch plan names the Secret kind of the
    core group, and every target a StreamRule contributes lies in the rule's own
    namespace. *)
Lemma rules_confined (ps : list pass) :
  passes_ok ps ->
  let reg := rw_registry (run_passes ps newRuleWorld) in
  (forall ns name t, has_char "/" ns = false -> wants (rules reg) (RuleKey kindStreamRule ns name) t -> t_Namespace t = ns) /\
  forall key st, Snapshot reg !! key = Some st ->
    ~ (g_Group (tk_GVK key) = "" /\ g_Kind (tk_GVK key) = "Secret").
Proof.
  intros Hok reg. destruct (passes_confined ps newRuleWorld Hok) as [Hc Hcons]; [|apply New_consistent|].
  { intros rk t. unfold wants. simpl. rewrite lookup_empty. set_solver. }
  fold reg in Hc, Hcons. split; [intros ns name t Hslash Hw; by eapply (proj2 (Hc _ t Hw))|].
  intros key st Hst [Hg Hk]. pose proof (consistent_merged reg key Hcons) as Hm. rewrite Hst in Hm. simpl in Hm.
  destruct Hm as (_ & (rk & t & Hw & <-) & _). apply Hc in Hw as [Hsec _]. simpl in Hg, Hk.
  rewrite Hg, Hk in Hsec. done.
Qed.

(** ** What a status says *)

(** apimachinery parses back the selectors it prints. *)
Definition selectors_parse : Prop :=
  forall ls selector, LabelSelectorAsSelector ls = Ok selector -> selector <> "" -> ParseSelector selector = Ok selector.

Lemma canonical_fixed ls selector :
  selectors_parse -> CanonicalSelector ls = Ok selector -> canonicalizeSelectorString selector = Ok selector.
Proof.
  intros Hp. unfold CanonicalSelector, canonicalizeSelectorString. destruct ls as [ls|]; [|by intros [= <-]].
  destruct (LabelSelectorAsSelector ls) as [sel|err] eqn:E; [|done]. intros [= <-].
  destruct (String.eqb_spec sel "") as [->|Hne]; [done|]. by apply Hp with ls.
Qed.

Lemma canonicalize_fixed ts :
  Forall (fun t => canonicalizeSelectorString (t_Selector t) = Ok (t_Selector t)) ts ->
  canonicalize ts = Ok (list_to_set ts).
Proof.
  induction 1 as [|t ts Ht HF IH]; [done|]. simpl. rewrite Ht, IH. by destruct t.
Qed.

Lemma vetted_fixed k e obj chSink namespaces t :
  selectors_parse -> vetted k e obj chSink namespaces t -> canonicalizeSelectorString (t_Selector t) = Ok (t_Selector t).
Proof. intros Hp (j & res & m & sel & ns & _ & _ & (_ & _ & Hc) & _ & _ & ->). by apply canonical_fixed with (wr_LabelSelector res). Qed.

Lemma setGate_unique now t failures tr tm fr status :
  NoDup (c_Type <$> sw_conditions status) ->
  NoDup (c_Type <$> sw_conditions (setGateCondition now t failures tr tm fr status)).
Proof. intros Hnd. unfold setGateCondition. destruct failures; by apply status_set_unique. Qed.

Lemma plan_unique k e obj g r r' status' o :
  plan k e obj (newStatusWriter g) r = (r', status', o) -> NoDup (c_Type <$> sw_conditions status').
Proof.
  unfold plan. assert (Hn : NoDup (c_Type <$> sw_conditions (newStatusWriter g))) by constructor.
  destruct (resolveSink e _) as [[[chSink|] verdict]|err]; [| |by intros [= _ <- _]].
  - destruct (checkPolicy _ _) as [denied|]; [intros [= _ <- _]; by repeat apply status_set_unique|].
    destruct (targetNamespaces k e obj) as [namespaces|[err|err]];
      [|intros [= _ <- _]; by repeat apply status_set_unique|intros [= _ <- _]; by repeat apply status_set_unique].
    destruct (resolveResources _ _ _ _ _ _) as [[r1 resolved] failures].
    destruct (reviewTargets _ _ _ _) as [[targets denials]|err]; intros [= _ <- _];
      repeat first [apply setGate_unique|apply status_set_unique]; done.
  - intros [= _ <- _]. unfold setUnevaluated, ruleReadyOrder. cbn [foldl]. by repeat apply status_set_unique.
Qed.

Lemma updateStatus_first {A} (mutate : A -> A) fresh later :
  updateStatus mutate (mkStatusAttempt (inl fresh) None) later = Ok (mutate fresh).
Proof. by destruct later. Qed.

Lemma updateStatus_written {A} (mutate : A -> A) first later written :
  updateStatus mutate first later = Ok written ->
  exists a fresh, a ∈ first :: later /\ sa_get a = inl fresh /\ written = mutate fresh.
Proof.
  revert first. induction later as [|b later IH]; intros first; simpl;
    (destruct (sa_get first) as [fresh|[err conflict]] eqn:Eg;
      [destruct (sa_update first) as [[err conflict]|];
        [|intros [= <-]; exists first, fresh; split; [by left|done]]|]); destruct conflict; try done; intros Hu;
    apply IH in Hu as (a & fresh' & Hin & Ha & Hw); exists a, fresh'; (split; [by right|done]).
Qed.

(** The roll-up of the object a pass wrote is the roll-up the pass decided. *)
Lemma written_ready k req e now status active written ready fresh :
  pass_ok k req e -> of_kind k fresh ->
  NoDup (c_Type <$> sw_conditions status) ->
  written = write_status k now (status_set now ConditionReady (c_Status ready) (c_Reason ready) (c_Message ready) status) active fresh ->
  exists c, findCondition (rst_Conditions (rk_status k written)) ConditionReady = Some c /\ c_Status c = c_Status ready.
Proof.
  intros Hok Hkind Hnd ->.
  assert (E : forall st, rk_status k (set_rule_status st fresh) = st).
  { intros st. unfold of_kind in Hkind. destruct (ok_kind _ _ _ Hok) as [-> | ->]; by destruct fresh. }
  unfold write_status. rewrite E. simpl.
  set (w := status_set now ConditionReady _ _ _ status).
  pose proof (find_status_apply now w (rst_Conditions (rk_status k fresh)) ConditionReady) as Ha.
  destruct (find_status_set now ConditionReady (c_Status ready) (c_Reason ready) (c_Message ready) status) as (c & Hc & Hs & _).
  fold w in Hc. rewrite Hc in Ha. destruct Ha as (c' & Hc' & Hs' & _); [by apply status_set_unique|].
  exists c'. split; [done|]. by rewrite Hs', Hs.
Qed.

Lemma snoc_ne {A} (l : list A) x : l <> l ++ [x].
Proof. intros E. apply (f_equal length) in E. rewrite length_app in E. simpl in E. lia. Qed.

(** C11. A rule that reports Ready streams. If a pass could read the rule's sink and
    writes Ready=True, then every resource the rule names is admitted by the sink's
    policy, resolved in this pass to a resource the rule may watch, and wanted by the
    rule in the registry in every namespace of the rule's expansion, for the rule's
    sink and with the merged redaction. *)
Theorem ready_means_streaming k resync req e w written c :
  selectors_parse -> pass_ok k req e -> (forall err, re_sink e <> GetFailed err) ->
  let w' := (Reconcile k resync req e w).1 in
  rw_written w' = rw_written w ++ [written] ->
  findCondition (rst_Conditions (rk_status k written)) ConditionReady = Some c -> c_Status c = ConditionTrue ->
  exists obj chSink namespaces,
    re_rule e = Found obj /\ re_sink e = Found chSink /\ targetNamespaces k e obj = inl namespaces /\
    forall j res, sr_Resources (rk_spec k obj) !! j = Some res ->
      admitted (ss_Policy (sk_Spec chSink)) res /\
      exists mapping selector, resolved_as k e j res mapping selector /\
        forall ns, ns ∈ namespacesFor (rm_Namespaced mapping) namespaces ->
          wants (rules (rw_registry w')) (req_key k req)
            (mkTarget (om_Name (sk_meta chSink)) (resource_GVK res) ns selector (pass_redaction chSink (rk_spec k obj))).
Proof.
  intros Hp Hok Hsink w'. subst w'. unfold Reconcile.
  destruct (re_rule e) as [obj| |err] eqn:Er; [|intros Hw; by destruct (snoc_ne _ _ Hw)|intros Hw; by destruct (snoc_ne _ _ Hw)].
  destruct (om_Deleting (rule_meta obj)); [intros Hw; by destruct (snoc_ne _ _ Hw)|].
  destruct (plan k e obj _ (rw_resolver w)) as [[r' status] o] eqn:Ep.
  destruct (plan_spec _ _ _ _ _ _ _ _ (ok_mapper _ _ _ Hok) Ep) as (Hv & Hi & Hready).
  pose proof (plan_unique _ _ _ _ _ _ _ _ Ep) as Hnd. fold (req_key k req).
  assert (Hcan : canonicalize (po_targets o) = Ok (list_to_set (po_targets o))).
  { apply canonicalize_fixed, Forall_forall. intros t Hin. destruct (Hv t Hin) as (s & ns & _ & _ & Hvt). by eapply vetted_fixed. }
  assert (Hups : forall reg, exists reg', Upsert (req_key k req) (po_targets o) reg = (reg', None) /\
    forall t, t ∈ po_targets o -> wants (rules reg') (req_key k req) t).
  { intros reg. exists (Upsert (req_key k req) (po_targets o) reg).1. split; [unfold Upsert; by rewrite Hcan|].
    intros t Hin. change (Upsert (req_key k req) (po_targets o) reg).1 with (run_regOp (OpUpsert (req_key k req) (po_targets o)) reg).
    rewrite run_rules. simpl. rewrite Hcan, wants_set, decide_True by done. by apply elem_of_list_to_set. }
  destruct (Hups (rw_registry w)) as (reg' & -> & Hreg').
  set (registry' := if po_install o then _ else _).
  assert (Hst : registry' = (if po_install o then reg' else rw_registry w, status)) by (unfold registry'; by destruct (po_install o)).
  rewrite Hst. clear registry' Hst.
  destruct (updateStatus _ (re_update e).1 (re_update e).2) as [written'|err] eqn:Eu; cbn [rw_written fst];
    [|intros Hw; by destruct (snoc_ne _ _ Hw)].
  intros Hw Hc Hct. apply app_inj_2 in Hw as [_ [= ->]]; [|done].
  apply updateStatus_written in Eu as (a & fresh & Hin & Ha & Hwr).
  destruct (written_ready _ _ _ _ _ _ _ _ _ Hok (ok_fresh _ _ _ Hok a fresh Hin Ha) Hnd Hwr) as (c' & Hc' & Hs').
  rewrite Hc in Hc'. injection Hc' as <-. rewrite Hct in Hs'.
  destruct (Hready Hsink (eq_sym Hs')) as [Hinst (chSink & namespaces & Hf & Hn & Hall)].
  exists obj, chSink, namespaces. split; [done|]. split; [done|]. split; [done|]. rewrite Hinst.
  intros j res Hj. destruct (Hall j res Hj) as (Hadm & m & sel & Hra & Hns). split; [done|].
  exists m, sel. split; [done|]. intros ns Hin'. apply Hreg'. by apply Hns.
Qed.

(** C28. One rule's trouble stays its own, and a hiccup withdraws nothing. A pass
    changes no other rule's targets; when the rule cannot be read, or its sink, or
    the listing of the namespaces it selects fails, or an access review of a resource it
    resolved does, the rule's own targets stay as they are too and
    the pass asks to be retried; and a rule that is gone or going contributes
    nothing. *)
Theorem pass_isolated k resync req e w :
  pass_ok k req e ->
  let w' := (Reconcile k resync req e w).1 in
  (forall rk, rk <> req_key k req -> rules (rw_registry w') !! rk = rules (rw_registry w) !! rk) /\
  ((exists err, re_rule e = GetFailed err) \/
   (exists obj, re_rule e = Found obj /\ om_Deleting (rule_meta obj) = false /\ read_fails k e obj (rw_resolver w)) ->
   rw_registry w' = rw_registry w /\ exists err, (Reconcile k resync req e w).2 = Retry err) /\
  (re_rule e = NotFound \/ (exists obj, re_rule e = Found obj /\ om_Deleting (rule_meta obj) = true) ->
   rules (rw_registry w') !! req_key k req = None).
Proof.
  intros Hok w'. destruct (Reconcile_effect k resync req e w Hok) as (op & Hreg & Heff & Hnone). fold w' in Hreg.
  split; [|split].
  - intros rk Hne. rewrite Hreg. by eapply effect_other.
  - intros Hf0.
    assert (Hf : (exists err, re_rule e = GetFailed err) \/ exists obj, re_rule e = Found obj /\ om_Deleting (rule_meta obj) = false /\
      is_Some (po_err (plan k e obj (newStatusWriter (om_Generation (rule_meta obj))) (rw_resolver w)).2)).
    { destruct Hf0 as [Hf0|(obj & Ho & Hd & Hf0)]; [by left|right]. exists obj. split; [done|]. split; [done|].
      apply read_fails_plan; [by apply (ok_mapper _ _ _ Hok)|done]. }
    apply Hnone in Hf as Hop. subst op. split; [done|]. unfold Reconcile.
    destruct Hf as [[err ->]|(obj & -> & -> & Hs)]; [by eexists|].
    destruct (plan k e obj _ (rw_resolver w)) as [[r' status] o]. simpl in Hs. destruct Hs as [err Herr].
    destruct (if po_install o then _ else _) as [reg status'].
    destruct (updateStatus _ _ _); simpl; [rewrite Herr|]; by eexists.
  - intros Hgone. assert (Hr : rw_registry w' = Remove (req_key k req) (rw_registry w)).
    { unfold w', Reconcile. destruct Hgone as [->|(obj & -> & ->)]; done. }
    rewrite Hr. change (Remove (req_key k req) (rw_registry w)) with (run_regOp (OpRemove (req_key k req)) (rw_registry w)).
    rewrite run_rules. simpl. by rewrite lookup_delete_eq.
Qed.

(** A rule whose sink could not be read is reported as streaming. The pass sets
    no condition and its roll-up finds none that contradicts it, so a successful
    status update writes Ready=True with the reason Streaming, whatever the rule
    names and although nothing was installed. *)
Lemma unread_sink_reports_streaming k resync req e w obj err fresh later :
  pass_ok k req e -> re_rule e = Found obj -> om_Deleting (rule_meta obj) = false -> re_sink e = GetFailed err ->
  re_update e = (mkStatusAttempt (inl fresh) None, later) ->
  let w' := (Reconcile k resync req e w).1 in
  rw_registry w' = rw_registry w /\
  exists written c, rw_written w' = rw_written w ++ [written] /\
    findCondition (rst_Conditions (rk_status k written)) ConditionReady = Some c /\
    c_Status c = ConditionTrue /\ c_Reason c = ReasonStreaming.
Proof.
  intros Hok Hobj Hdel Hsink Hupd w'. subst w'.
  unfold Reconcile. rewrite Hobj, Hdel. unfold plan, resolveSink. rewrite Hsink. cbn [po_install po_verdict po_err].
  set (status := newStatusWriter (om_Generation (rule_meta obj))).
  assert (Hready : readyCondition status noVerdict =
    condition ConditionReady ConditionTrue ReasonStreaming
      "Every resource this rule names is admitted, resolved, permitted and installed in the watch plan" (sw_generation status)).
  { unfold readyCondition, readyFor, ruleReadyOrder, findCondition. simpl. by rewrite !find_nil. }
  rewrite Hready, Hupd. cbn [fst snd]. rewrite updateStatus_first. cbn [fst rw_registry rw_written].
  split; [done|]. eexists.
  assert (Hkind : of_kind k fresh).
  { apply (ok_fresh _ _ _ Hok (mkStatusAttempt (inl fresh) None)); [rewrite Hupd; by left|done]. }
  assert (E : forall st, rk_status k (set_rule_status st fresh) = st).
  { intros st. unfold of_kind in Hkind. destruct (ok_kind _ _ _ Hok) as [-> | ->]; by destruct fresh. }
  set (w1 := status_set (re_now e) ConditionReady _ _ _ status).
  destruct (find_status_set (re_now e) ConditionReady ConditionTrue ReasonStreaming
    "Every resource this rule names is admitted, resolved, permitted and installed in the watch plan" status)
    as (c & Hc & Hs & Hr & _).
  pose proof (find_status_apply (re_now e) w1 (rst_Conditions (rk_status k fresh)) ConditionReady) as Ha.
  change (status_set (re_now e) ConditionReady ConditionTrue ReasonStreaming _ status) with w1 in Hc. rewrite Hc in Ha.
  destruct Ha as (c' & Hc' & Hs' & Hr' & _); [apply status_set_unique; constructor|].
  exists c'. split; [reflexivity|]. split; [unfold write_status; rewrite E; exact Hc'|]. by rewrite Hs', Hr', Hs, Hr.
Qed.
End props.

(** ** Samples *)

From S2P Require Import ApiSamples.

Module RuleSamples.

Definition settled (t s : string) : Condition := mkCondition t s "Connected" "" 1 0.
Definition meta (ns name : string) : ObjectMeta := mkObjectMeta ns name 1 false.

Definition connection : ConnectionSpec := mkConnection "ch:9000" "default" "default" (mkSecretReference "ch" "") None None.
Definition noTuning : WriterSpec := mkWriterSpec None None None None None None None.
Definition main : ClickHouseSink :=
  mkSink (meta "" "main") (mkSinkSpec connection noTuning (mkSinkPolicy [] [mkRedactionRule "data.password" ""]))
    (mkSinkStatus [settled ConditionReady ConditionTrue] 1).

Definition pods : WatchedResource := mkResource "" "v1" "Pod" (Some "app=web").
Definition secrets : WatchedResource := mkResource "" "v1" "Secret" None.

Definition rule (resources : list WatchedResource) : ruleObject :=
  StreamRule (meta "prod" "web") (mkRuleSpec "main" resources [mkRedactionRule "" "example.com/token"]) zeroStatus.
Definition clusterRule (resources : list WatchedResource) : ruleObject :=
  ClusterStreamRule (meta "" "all") (mkRuleSpec "main" resources []) (Some "team=a") zeroStatus.

Definition podMapping : RESTMapping := mkRESTMapping (mkGVR "" "v1" "pods") true.
Definition write (obj : ruleObject) : statusAttempt ruleObject * list (statusAttempt ruleObject) :=
  (mkStatusAttempt (inl obj) (Some ("conflict", true)), [mkStatusAttempt (inl obj) None]).

(** Every review is allowed in [prod] only. *)
Definition env_of (obj : ruleObject) (sink : getAnswer ClickHouseSink) : ruleEnv :=
  mkRuleEnv 10 (Found obj) sink (fun _ => Ok [mkListed "prod" false; mkListed "old" true])
    (fun _ => mkResolveEnv 10 (inl podMapping) 10) (fun _ r => Ok (String.eqb (ar_Namespace r) "prod")) (write obj).

Definition web : NamespacedName := mkNamespacedName "prod" "web".
Definition all : NamespacedName := mkNamespacedName "" "all".

Definition passes : list pass :=
  [mkPass streamRuleKind 0 web (env_of (rule [pods]) (Found main));
   mkPass clusterStreamRuleKind 0 all (env_of (clusterRule [pods; secrets]) (Found main))].

Lemma fresh_is obj a fresh : a ∈ (write obj).1 :: (write obj).2 -> sa_get a = inl fresh -> fresh = obj.
Proof.
  unfold write. cbn [fst snd]. rewrite !elem_of_cons, elem_of_nil.
  intros [->|[->|[]]]; simpl; by intros [= <-].
Qed.

Lemma env_ok k req obj sink :
  k = streamRuleKind \/ k = clusterStreamRuleKind -> has_char "/" (nn_Namespace req) = false ->
  of_kind k obj -> om_Namespace (rule_meta obj) = nn_Namespace req -> pass_ok k req (env_of obj sink).
Proof.
  intros Hk Hn Hof Hns. split; [done|done| | |].
  - by intros obj' [= <-].
  - intros a fresh Hin Ha. by rewrite (fresh_is obj a fresh Hin Ha).
  - intros i m [= <-]. reflexivity.
Qed.

Lemma passes_are_ok : passes_ok passes.
Proof.
  constructor; [|constructor; [|constructor]].
  - by apply env_ok; [left| | |].
  - by apply env_ok; [right| | |].
Qed.

Lemma rules_confined_witness :
  wants (rules (rw_registry (run_passes passes newRuleWorld))) (RuleKey kindStreamRule "prod" "web")
    (mkTarget "main" (mkGVK "" "v1" "Pod") "prod" "app=web" (pass_redaction main (rk_spec streamRuleKind (rule [pods])))) /\
  forall key st, Snapshot (rw_registry (run_passes passes newRuleWorld)) !! key = Some st ->
    ~ (g_Group (tk_GVK key) = "" /\ g_Kind (tk_GVK key) = "Secret").
Proof.
  split; [unfold wants; apply (bool_decide_unpack _); vm_compute; exact I|].
  exact (proj2 (rules_confined passes passes_are_ok)).
Defined.

Definition streaming : ruleEnv := env_of (rule [pods]) (Found main).

Lemma streaming_ok : pass_ok streamRuleKind web streaming.
Proof. by apply env_ok; [left| | |]. Qed.

Definition streamed : ruleWorld := (Reconcile streamRuleKind 0 web streaming newRuleWorld).1.
Definition streamed_rule : ruleObject := default (rule []) (last (rw_written streamed)).
Definition streamed_ready : Condition :=
  default (settled "" "") (findCondition (rst_Conditions (rk_status streamRuleKind streamed_rule)) ConditionReady).

Lemma ready_means_streaming_witness :
  c_Status streamed_ready = ConditionTrue /\ c_Reason streamed_ready = ReasonStreaming /\
  exists obj chSink namespaces,
    re_rule streaming = Found obj /\ re_sink streaming = Found chSink /\ targetNamespaces streamRuleKind streaming obj = inl namespaces.
Proof.
  split; [vm_compute; reflexivity|]. split; [vm_compute; reflexivity|].
  destruct (ready_means_streaming streamRuleKind 0 web streaming newRuleWorld streamed_rule streamed_ready)
    as (obj & chSink & namespaces & H1 & H2 & H3 & _).
  - intros ls selector Hs _. reflexivity.
  - exact streaming_ok.
  - intros err. discriminate.
  - vm_compute. reflexivity.
  - vm_compute. reflexivity.
  - vm_compute. reflexivity.
  - exists obj, chSink, namespaces. split; [exact H1|]. split; [exact H2|exact H3].
Defined.

(** The sink cannot be read. *)
Definition outage : ruleEnv :=
  mkRuleEnv 20 (Found (rule [pods])) (GetFailed "timeout") (fun _ => Ok []) (fun _ => mkResolveEnv 20 (inl podMapping) 20)
    (fun _ _ => Ok true) (mkStatusAttempt (inl (rule [pods])) None, []).

Lemma outage_ok : pass_ok streamRuleKind web outage.
Proof.
  split; [by left|done| | |].
  - by intros obj [= <-].
  - intros a fresh Hin. apply list_elem_of_singleton in Hin as ->. by intros [= <-].
  - intros i m [= <-]. reflexivity.
Qed.

(** Nothing but the access reviews fails. *)
Definition reviewless : ruleEnv :=
  mkRuleEnv 20 (Found (rule [pods])) (Found main) (fun _ => Ok []) (fun _ => mkResolveEnv 20 (inl podMapping) 20)
    (fun _ _ => Err "timeout") (mkStatusAttempt (inl (rule [pods])) None, []).

Lemma reviewless_ok : pass_ok streamRuleKind web reviewless.
Proof.
  split; [by left|done| | |].
  - by intros obj [= <-].
  - intros a fresh Hin. apply list_elem_of_singleton in Hin as ->. by intros [= <-].
  - intros i m [= <-]. reflexivity.
Qed.

Lemma pass_isolated_witness :
  rw_registry (Reconcile streamRuleKind 0 web outage streamed).1 = rw_registry streamed /\
  rw_registry (Reconcile streamRuleKind 0 web reviewless streamed).1 = rw_registry streamed /\
  exists err, (Reconcile streamRuleKind 0 web reviewless streamed).2 = Retry err.
Proof.
  split.
  - apply (proj1 (proj2 (pass_isolated streamRuleKind 0 web outage streamed outage_ok))).
    right. exists (rule [pods]). split; [reflexivity|]. split; [reflexivity|]. left. by exists "timeout".
  - apply (proj1 (proj2 (pass_isolated streamRuleKind 0 web reviewless streamed reviewless_ok))).
    right. exists (rule [pods]). split; [reflexivity|]. split; [reflexivity|]. right. exists main.
    split; [reflexivity|]. split; [reflexivity|]. right.
    destruct (resolveResources streamRuleKind reviewless ["prod"] 0 [pods] (rw_resolver streamed)) as [[r' resolved] failures] eqn:E.
    exists ["prod"], r', resolved, failures, (mkResolved (mkGVK "" "v1" "Pod") (mkGVR "" "v1" "pods") "app=web" ["prod"]), "prod".
    split; [reflexivity|]. split; [exact E|]. vm_compute in E. injection E as _ <- _.
    split; [by left|]. split; [by left|]. exists "get". split; [by left|]. left. intros n. by exists "timeout".
Defined.

Lemma unread_sink_reports_streaming_witness :
  rw_registry (Reconcile streamRuleKind 0 web outage newRuleWorld).1 = New /\
  exists written c, rw_written (Reconcile streamRuleKind 0 web outage newRuleWorld).1 = [] ++ [written] /\
    findCondition (rst_Conditions (rk_status streamRuleKind written)) ConditionReady = Some c /\
    c_Status c = ConditionTrue /\ c_Reason c = ReasonStreaming.
Proof.
  exact (unread_sink_reports_streaming streamRuleKind 0 web outage newRuleWorld (rule [pods]) "timeout" (rule [pods]) []
    outage_ok eq_refl eq_refl eq_refl eq_refl).
Defined.

End RuleSamples.
