(* ===== verification/RuleRedaction.v ===== *)
(** * RuleRedaction: the redaction floor from the custom resources to the rows

    What a sink's policy and a rule ask to redact ([ApiTypes]) is merged into one
    text by the reconciler ([RuleReconciler]), carried by the registry and compiled
    by the watch manager ([Interest], [WatchManager]). Two results: whatever
    admission lets through compiles, and what it asks for is in force for every
    object of the rule. *)

From Stdlib Require Import ZArith Lia.
From stdpp Require Import base gmap strings list sorting.
From S2P Require Import Prelude Identity Json Redact Registry Interest WatchManager.
From S2P Require Import Resolver Conditions ApiTypes RuleReconciler RuleProps.

(** ** Admitted field paths *)

Lemma substring_split s n : (n <= String.length s)%nat ->
  String.substring 0 n s +:+ String.substring n (String.length s - n) s = s.
Proof.
  revert n. induction s as [|a s IH]; intros [|n] Hn; [done| |apply substring_all; lia|].
  - simpl in Hn. lia.
  - simpl. simpl in Hn. by rewrite IH by lia.
Qed.

(** A part of a path is a name, or a name and a wildcard. *)
Lemma strip_wildcard_cases s : s = strip_wildcard s \/ s = strip_wildcard s +:+ "[*]".
Proof.
  unfold strip_wildcard. destruct (Nat.leb 3 (String.length s)) eqn:Hn; simpl; [|by left].
  apply Nat.leb_le in Hn. destruct (String.eqb _ "[*]") eqn:E; [|by left]. bools. right.
  rewrite <- E. symmetry. replace 3%nat with (String.length s - (String.length s - 3))%nat at 3 by lia.
  apply substring_split. lia.
Qed.

Definition part_elem (part : string) : pathElem :=
  if String.eqb part (strip_wildcard part) then (part, NoSubscript) else (strip_wildcard part, Wildcard).

Lemma print_part part : print_elem (part_elem part) = part.
Proof.
  unfold part_elem. destruct (String.eqb_spec part (strip_wildcard part)) as [E|E]; unfold print_elem; simpl.
  - apply string_app_nil_r.
  - by destruct (strip_wildcard_cases part) as [H|H].
Qed.

Lemma join_split c s : join (String c "") (split_char c s) = s.
Proof.
  induction s as [|a s IH]; [done|]. simpl. destruct (Ascii.eqb a c) eqn:E.
  - bools. subst a. destruct (split_char_cons c s) as (p & ps & Hp). rewrite Hp in *. simpl in *. by rewrite IH.
  - destruct (split_char_cons c s) as (p & ps & Hp). rewrite Hp in *. destruct ps; simpl in *; by rewrite <- IH.
Qed.

(** An admitted field path is the printed form of a well-formed path. *)
Lemma fieldPath_printed s :
  admits_fieldPath s = true -> exists es, es <> [] /\ Forall wf_elem es /\ print_path es = s.
Proof.
  unfold admits_fieldPath. intros Ha. exists (map part_elem (split_char "." s)). split; [|split].
  - destruct (split_char_cons "." s) as (p & ps & ->). done.
  - apply Forall_forall. intros e He. apply list_elem_of_fmap in He as (part & -> & Hin).
    apply list_elem_of_In, (proj1 (forallb_forall _ _) Ha) in Hin. unfold part_elem.
    destruct (String.eqb_spec part (strip_wildcard part)) as [E|E]; (split; [|done]); simpl; [by rewrite <- E in Hin|done].
  - unfold print_path. rewrite map_map. rewrite (map_ext _ id) by (intros; apply print_part). rewrite map_id.
    apply join_split.
Qed.

(** ** Admitted annotations *)

Lemma bounded_name_chars edge inner s : bounded_name edge inner s = true ->
  s <> "" /\ string_forall (fun c => edge c || inner c) s = true.
Proof. destruct s as [|a s]; [done|]. unfold bounded_name. intros Hb. bools. by split. Qed.

Lemma annotation_key s : admits_annotation s = true -> s <> "" /\ has_char "]" s = false.
Proof.
  unfold admits_annotation. destruct (cut_char "/" s) as [[p n]|] eqn:E.
  - apply cut_char_Some in E as [-> _]. intros Ha. bools.
    apply bounded_name_chars in H as [_ Hp]. apply bounded_name_chars in H0 as [_ Hn].
    split; [by destruct p|]. rewrite has_char_app. simpl.
    by rewrite (string_forall_has (fun c => lower_alnum c || prefix_inner c) "]" p),
      (string_forall_has (fun c => alnum c || name_inner c) "]" n).
  - intros Ha. apply bounded_name_chars in Ha as [Hne Hs]. split; [done|]. by apply (string_forall_has (fun c => alnum c || name_inner c)).
Qed.

Lemma annotation_printed key :
  AnnotationRedactionPath key = print_path [("metadata", NoSubscript); ("annotations", QuotedKey key)].
Proof. reflexivity. Qed.

(** ** Admitted rules *)

(** The path of an admitted rule is printed from a well-formed path. *)
Lemma admitted_printed r :
  admitted_rule r = true -> exists es, es <> [] /\ Forall wf_elem es /\ print_path es = redaction_path r.
Proof.
  unfold admitted_rule, redaction_path. destruct (String.eqb_spec (rr_FieldPath r) "") as [Ef|Ef]; intros Ha; bools.
  - apply annotation_key in H as [Hne Hb]. rewrite (proj2 (String.eqb_neq _ _) Hne). simpl.
    eexists. split; [|split; [|symmetry; apply annotation_printed]]; [done|]. repeat constructor; done.
  - rewrite H. simpl. by apply fieldPath_printed.
Qed.

Lemma quote_no_newline s : has_char newline (Quote s) = false.
Proof.
  unfold Quote. simpl. rewrite has_char_app. simpl.
  assert (Hb : forall a, has_char newline (quote_byte a) = false).
  { intros a. apply negb_true_iff. revert a. apply byte_all_spec. vm_compute. reflexivity. }
  assert (has_char newline (quote_body s) = false) as ->.
  { induction s as [|a s IH]; simpl; [done|]. by rewrite has_char_app, Hb. }
  done.
Qed.

Lemma name_no_newline s : segment_pattern s = true -> has_char newline s = false.
Proof.
  destruct s as [|a s]; [done|]. unfold segment_pattern. intros Hs. bools. simpl.
  rewrite (string_forall_has seg_char newline s) by done.
  destruct (Ascii.eqb_spec a newline) as [->|Hne]; [discriminate|done].
Qed.

Lemma print_no_newline es : Forall wf_elem es -> has_char newline (print_path es) = false.
Proof.
  unfold print_path. induction 1 as [|[name sub] es [Hn Hs] HF IH]; [done|]. cbn [map join fst snd] in *.
  assert (Hp : has_char newline (print_elem (name, sub)) = false).
  { unfold print_elem. cbn [fst snd]. rewrite has_char_app, name_no_newline by done. destruct sub as [| |key]; try done.
    rewrite !has_char_app, quote_no_newline. done. }
  destruct (map print_elem es) as [|x l] eqn:E; [done|].
  rewrite has_char_app, Hp, has_char_app, IH. done.
Qed.

Lemma print_nonempty es : es <> [] -> Forall wf_elem es -> print_path es <> "".
Proof.
  intros Hne HF. destruct es as [|[[|a n] sub] es]; [done| |].
  - inversion HF as [|? ? [H _]]; done.
  - unfold print_path. simpl. by destruct (map print_elem es).
Qed.

Lemma admitted_path r : admitted_rule r = true ->
  redaction_path r <> "" /\ has_char newline (redaction_path r) = false /\ exists p, parseRedactionPath (redaction_path r) = Ok p.
Proof.
  intros Ha. destruct (admitted_printed r Ha) as (es & Hne & HF & <-).
  split; [by apply print_nonempty|]. split; [by apply print_no_newline|].
  eexists. by apply parse_print_path.
Qed.

(** ** The canonical text *)

Lemma elem_of_compact l x : x ∈ compact l <-> x ∈ l.
Proof.
  induction l as [|a l IH]; [done|]. simpl. destruct l as [|b l]; [done|].
  destruct (String.eqb_spec a b) as [->|Hne].
  - rewrite IH. rewrite !elem_of_cons. tauto.
  - rewrite (elem_of_cons _ x), IH, (elem_of_cons (b :: l)). done.
Qed.

Definition pass_paths (floor extra : list RedactionRule) : list string :=
  compact (sort_strings (filter (fun path => path <> "") (map redaction_path (floor ++ extra)))).

Lemma elem_of_pass_paths floor extra path :
  path ∈ pass_paths floor extra <-> path <> "" /\ exists r, r ∈ floor ++ extra /\ redaction_path r = path.
Proof.
  unfold pass_paths. rewrite elem_of_compact, elem_of_sort_strings, list_elem_of_filter, list_elem_of_fmap. naive_solver.
Qed.

(** Splitting the text gives the paths back. *)
Lemma split_canonical floor extra path :
  Forall (fun r => admitted_rule r = true) (floor ++ extra) ->
  path <> "" ->
  path ∈ split_char newline (canonicalRedaction floor extra) <-> exists r, r ∈ floor ++ extra /\ redaction_path r = path.
Proof.
  intros HF Hne. unfold canonicalRedaction. fold (pass_paths floor extra).
  pose proof (elem_of_pass_paths floor extra) as Hpp.
  destruct (pass_paths floor extra) as [|p ps] eqn:E.
  - simpl. rewrite list_elem_of_singleton. split; [done|]. intros (r & Hr & Hp).
    assert (path ∈ []) as Hin by (apply Hpp; split; [done|by exists r]). by apply elem_of_nil in Hin.
  - unfold newline_string. rewrite split_join; [|done|].
    + rewrite Hpp. naive_solver.
    + apply Forall_forall. intros q Hq. apply Hpp in Hq as (_ & r & Hr & <-).
      by apply admitted_path, (proj1 (Forall_forall _ _) HF).
Qed.

Lemma compile_loop_ok seen raws :
  (forall raw, raw ∈ raws -> exists p, parseRedactionPath raw = Ok p) -> exists out, compile_loop seen raws = Ok out.
Proof.
  revert seen. induction raws as [|raw raws IH]; intros seen Hp; simpl; [by eexists|].
  case_decide; [apply IH; intros; apply Hp; by right|].
  destruct (Hp raw) as [p ->]; [by left|]. destruct (IH (raw :: seen)) as [out ->]; [intros; apply Hp; by right|]. by eexists.
Qed.

Lemma builtin_parses raw : raw ∈ builtinPaths -> exists p, parseRedactionPath raw = Ok p.
Proof. unfold builtinPaths. rewrite list_elem_of_singleton. intros ->. vm_compute. by eexists. Qed.

(** What the API server admits compiles. For every sink policy and rule whose
    redaction entries have the form admission requires, the text the reconciler
    stamps on the rule's targets splits into paths that all parse, so the watch
    manager builds a policy from it; and every entry's path is in that policy. *)
Lemma admitted_redaction_compiles (floor extra : list RedactionRule) :
  Forall (fun r => admitted_rule r = true) (floor ++ extra) ->
  exists policy, CompileRedaction (redactionPaths [canonicalRedaction floor extra]) = Ok policy /\
    forall r, r ∈ floor ++ extra -> redaction_path r ∈ Paths (Some policy).
Proof.
  intros HF.
  assert (Hel : forall path, path ∈ redactionPaths [canonicalRedaction floor extra] <->
    path <> "" /\ exists r, r ∈ floor ++ extra /\ redaction_path r = path).
  { intros path. rewrite elem_of_redactionPaths. split.
    - intros (Hne & set & ->%list_elem_of_singleton & Hin). split; [done|]. by apply split_canonical in Hin.
    - intros (Hne & Hr). split; [done|]. eexists. split; [by apply list_elem_of_singleton|]. by apply split_canonical. }
  destruct (compile_loop_ok [] (redactionPaths [canonicalRedaction floor extra] ++ builtinPaths)) as [out Hout].
  { intros raw [Hin|Hin]%elem_of_app; [|by apply builtin_parses]. apply Hel in Hin as (_ & r & Hr & <-).
    by apply admitted_path, (proj1 (Forall_forall _ _) HF). }
  assert (Hc : CompileRedaction (redactionPaths [canonicalRedaction floor extra]) = Ok (mkPolicy (merge_sort path_le out)))
    by (unfold CompileRedaction; by rewrite Hout).
  eexists. split; [exact Hc|]. intros r Hr. apply CompileRedaction_ok in Hc as [_ Hraw].
  unfold Paths. simpl. apply Hraw, elem_of_app. left. apply Hel. split; [|by exists r].
  by apply admitted_path, (proj1 (Forall_forall _ _) HF).
Qed.

Lemma admitted_redaction_compiles_witness :
  exists policy, CompileRedaction (redactionPaths [canonicalRedaction
      [mkRedactionRule "spec.containers[*].env" ""] [mkRedactionRule "" "example.com/token"; mkRedactionRule "data.a-b" ""]]) = Ok policy /\
    forall r, r ∈ [mkRedactionRule "spec.containers[*].env" ""; mkRedactionRule "" "example.com/token"; mkRedactionRule "data.a-b" ""] ->
      redaction_path r ∈ Paths (Some policy).
Proof.
  apply (admitted_redaction_compiles [mkRedactionRule "spec.containers[*].env" ""]
    [mkRedactionRule "" "example.com/token"; mkRedactionRule "data.a-b" ""]).
  repeat constructor.
Defined.

(** ** From the rule to the row *)

Section floor.
Context `{SA : SelectorAPI, LA : LabelSelectorAPI, SC : SchemaAPI, CA : ConditionAPI, LS : LabelSelectors}.

(** The registry of a run is built by registry operations. *)
Lemma passes_ops ps : passes_ok ps ->
  exists ops, rw_registry (run_passes ps newRuleWorld) = foldl (fun r op => run_regOp op r) New ops.
Proof.
  intros HF. assert (H : forall w ops0, rw_registry w = foldl (fun r op => run_regOp op r) New ops0 ->
    exists ops, rw_registry (run_passes ps w) = foldl (fun r op => run_regOp op r) New ops); [|by apply (H newRuleWorld [])].
  induction HF as [|p ps Hok HF IH]; intros w ops0 Hw; [by exists ops0|].
  destruct (Reconcile_effect _ (pa_resync p) _ _ w Hok) as (op & Hreg & _ & _).
  apply (IH (run_pass p w) (ops0 ++ match op with Some op => [op] | None => [] end)).
  unfold run_pass. rewrite Hreg, foldl_app, <- Hw. by destruct op.
Qed.

(** Passes of other rules leave a rule's targets. *)
Lemma passes_other qs w rk :
  passes_ok qs -> Forall (fun q => req_key (pa_kind q) (pa_req q) <> rk) qs ->
  rules (rw_registry (run_passes qs w)) !! rk = rules (rw_registry w) !! rk.
Proof.
  intros HF. revert w. induction HF as [|q qs Hok HF IH]; intros w Hne; [done|].
  apply Forall_cons in Hne as [Hq Hne]. change (run_passes (q :: qs) w) with (run_passes qs (run_pass q w)).
  rewrite IH by done. destruct (Reconcile_effect _ (pa_resync q) _ _ w Hok) as (op & Hreg & Heff & _).
  unfold run_pass. rewrite Hreg. by eapply effect_other.
Qed.

(** A pass that completed installed its own targets: they carry its redaction. *)
Lemma completed_redaction p w obj chSink period t :
  pass_ok (pa_kind p) (pa_req p) (pa_env p) ->
  re_rule (pa_env p) = Found obj -> re_sink (pa_env p) = Found chSink ->
  (Reconcile (pa_kind p) (pa_resync p) (pa_req p) (pa_env p) w).2 = RequeueAfter period ->
  selectors_parse ->
  wants (rules (rw_registry (run_pass p w))) (req_key (pa_kind p) (pa_req p)) t ->
  t_Redaction t = pass_redaction chSink (rk_spec (pa_kind p) obj).
Proof.
  intros Hok Hobj Hsink Hres Hp Hw.
  destruct (Reconcile_effect _ (pa_resync p) _ _ w Hok) as (op & Hreg & Heff & Hnone).
  unfold run_pass in Hw. rewrite Hreg in Hw. unfold Reconcile in Hres. rewrite Hobj in Hres, Hnone.
  destruct (om_Deleting (rule_meta obj)) eqn:Ed; [done|].
  destruct op as [[rk ts|rk]|].
  - destruct Heff as (-> & obj' & Hobj' & Hts). rewrite Hobj in Hobj'. injection Hobj' as <-.
    simpl in Hw. change (Upsert (req_key (pa_kind p) (pa_req p)) ts (rw_registry w)).1 with
      (run_regOp (OpUpsert (req_key (pa_kind p) (pa_req p)) ts) (rw_registry w)) in Hw. rewrite run_rules in Hw. simpl in Hw.
    rewrite canonicalize_fixed in Hw.
    + rewrite wants_set, decide_True in Hw by done. apply elem_of_list_to_set in Hw.
      destruct (Hts t Hw) as (s & ns & Hs & _ & (j & res & m & sel & n & _ & _ & _ & _ & _ & ->)).
      rewrite Hsink in Hs. by injection Hs as ->.
    + apply Forall_forall. intros t0 Hin. destruct (Hts t0 Hin) as (s & ns & _ & _ & Hv). by eapply vetted_fixed.
  - simpl in Hw. simpl in Heff. subst rk. change (Remove (req_key (pa_kind p) (pa_req p)) (rw_registry w)) with
      (run_regOp (OpRemove (req_key (pa_kind p) (pa_req p))) (rw_registry w)) in Hw. rewrite run_rules in Hw.
    unfold wants in Hw. simpl in Hw. rewrite lookup_delete_eq in Hw. simpl in Hw. set_solver.
  - exfalso. destruct (proj1 Hnone eq_refl) as [[err Herr]|(obj' & [= <-] & _ & [err Herr])]; [done|].
    destruct (plan _ _ obj _ (rw_resolver w)) as [[r' status] o]. simpl in Herr.
    destruct (if po_install o then _ else _) as [reg status']. rewrite Herr in Hres.
    by destruct (updateStatus _ _ _).
Qed.

(** C3. The redaction floor holds end to end. Let a rule's latest reconcile pass
    have completed, with passes of other rules before and after it, and let the
    watch manager then take over the plan. For every target the rule has, once its
    interest is installed, and every object it covers, whatever the sink's policy or
    the rule asked to redact, in entries admission lets through, is in the policy
    the pipeline is given: applied to any object it leaves only the sentinel there.
    Other rules can add to this policy and cannot take from it. Discovery must not
    serve two kinds as one resource. *)
Theorem redaction_floor_enforced (ps qs : list pass) (p : pass) (obj : ruleObject) (chSink : ClickHouseSink)
    (period : Z) (t : WatchTarget) (rule : RedactionRule)
    (resolve : GroupVersionKind -> result (GroupVersionResource * bool))
    (start : informerKey -> GroupVersionKind -> result informer) (m0 : manager)
    (gvr : GroupVersionResource) (namespaced : bool) (ref : Key) :
  selectors_parse -> passes_ok (ps ++ p :: qs) ->
  Forall (fun q => req_key (pa_kind q) (pa_req q) <> req_key (pa_kind p) (pa_req p)) qs ->
  re_rule (pa_env p) = Found obj -> re_sink (pa_env p) = Found chSink ->
  (Reconcile (pa_kind p) (pa_resync p) (pa_req p) (pa_env p) (run_passes ps newRuleWorld)).2 = RequeueAfter period ->
  let rules_asked := sp_Redaction (ss_Policy (sk_Spec chSink)) ++ sr_ExtraRedaction (rk_spec (pa_kind p) obj) in
  Forall (fun r => admitted_rule r = true) rules_asked -> rule ∈ rules_asked ->
  let reg := rw_registry (run_passes (ps ++ p :: qs) newRuleWorld) in
  wants (rules reg) (req_key (pa_kind p) (pa_req p)) t ->
  (forall g1 g2 r b1 b2, resolve g1 = Ok (r, b1) -> resolve g2 = Ok (r, b2) -> g1 = g2) ->
  resolve (t_GVK t) = Ok (gvr, namespaced) -> target_covers t ref ->
  let m := (reconcilePool resolve start (Snapshot reg) m0).1 in
  is_Some (current (table m) !! mkInterestID (mkInformerKey gvr (t_Namespace t)) (t_Sink t)) ->
  exists policy path, RedactionFor (table m) ref = Some (Some policy) /\
    parseRedactionPath (redaction_path rule) = Ok path /\
    forall o, exists out, Apply (Some policy) o = Ok out /\
      forall x, x ∈ reached (path_segments path) (JObj out) -> x = sentinel.
Proof.
  intros Hp Hok Hqs Hobj Hsink Hres asked Hadm Hrule reg Hw Hinj Hr Hcov m Hi.
  assert (Hokp : passes_ok qs /\ pass_ok (pa_kind p) (pa_req p) (pa_env p)).
  { unfold passes_ok in Hok. apply Forall_app in Hok as [_ Hok]. by apply Forall_cons in Hok as []. }
  destruct Hokp as [Hokq Hokp].
  assert (Hred : t_Redaction t = pass_redaction chSink (rk_spec (pa_kind p) obj)).
  { apply (completed_redaction p (run_passes ps newRuleWorld) obj chSink period); try done.
    unfold wants in *. unfold reg in Hw. unfold run_passes in Hw. rewrite foldl_app in Hw. cbn [foldl] in Hw.
    fold (run_passes ps newRuleWorld) in Hw. fold (run_passes qs (run_pass p (run_passes ps newRuleWorld))) in Hw.
    by rewrite passes_other in Hw. }
  destruct (passes_ops (ps ++ p :: qs) Hok) as [ops Hops]. fold reg in Hops.
  destruct (admitted_path rule) as (Hne & _ & _); [by apply (proj1 (Forall_forall _ _) Hadm)|].
  subst m. revert Hi. rewrite Hops. intros Hi.
  apply (rule_redaction_enforced ops resolve start m0 (req_key (pa_kind p) (pa_req p)) t (redaction_path rule) gvr namespaced ref);
    try done.
  - rewrite Hops in Hw. destruct (run_consistent ops New New_consistent) as [_ Hrules]. by rewrite Hrules in Hw.
  - rewrite Hred. apply split_canonical; [done|done|by exists rule].
Qed.
End floor.

Module FloorSamples.
Import ApiSamples RuleProps.RuleSamples.
#[local] Instance selectors : LabelSelectors := WatchManager.Samples.existence_selectors.

Definition web_pass : pass := mkPass streamRuleKind 0 web streaming.
Definition others : list pass := [mkPass clusterStreamRuleKind 0 all (env_of (clusterRule [pods]) (Found main))].

Lemma floor_passes_ok : passes_ok ([] ++ web_pass :: others).
Proof.
  constructor; [exact streaming_ok|]. constructor; [|constructor]. by apply env_ok; [right| | |].
Qed.

Definition web_target : WatchTarget :=
  mkTarget "main" (mkGVK "" "v1" "Pod") "prod" "app=web" (pass_redaction main (rk_spec streamRuleKind (rule [pods]))).
Definition web_pod : Key := mkKey "main" "" "Pod" "prod" "web-0".

Definition floor_manager : manager :=
  (reconcilePool WatchManager.Samples.discover WatchManager.Samples.empty_cache
    (Snapshot (rw_registry (run_passes ([] ++ web_pass :: others) newRuleWorld))) new_manager).1.

Lemma redaction_floor_enforced_witness :
  exists policy path, RedactionFor (table floor_manager) web_pod = Some (Some policy) /\
    parseRedactionPath "data.password" = Ok path /\
    forall o, exists out, Apply (Some policy) o = Ok out /\
      forall x, x ∈ reached (path_segments path) (JObj out) -> x = sentinel.
Proof.
  apply (redaction_floor_enforced [] others web_pass (rule [pods]) main defaultRuleResyncPeriod web_target
    (mkRedactionRule "data.password" "") WatchManager.Samples.discover WatchManager.Samples.empty_cache new_manager
    (mkGVR "" "v1" "Pod") true web_pod).
  - intros ls selector Hs _. reflexivity.
  - exact floor_passes_ok.
  - repeat constructor. discriminate.
  - reflexivity.
  - reflexivity.
  - vm_compute. reflexivity.
  - repeat constructor.
  - left.
  - unfold wants. apply (bool_decide_unpack _). vm_compute. exact I.
  - intros [] [] r b1 b2 [= <- <-] [= <- <- <-]. reflexivity.
  - reflexivity.
  - repeat split. by left.
  - vm_compute. eexists. reflexivity.
Defined.
End FloorSamples.
