(* ===== verification/AdmissionProps.v ===== *)
(** * AdmissionProps: what admission guarantees the controllers

    The patterns of the custom resources against the code behind them: the redaction
    grammar of the API server and of the pipeline accept the same paths, admitted
    kinds give unambiguous identities, an admitted rule streams to one sink for its
    whole life, and an admitted sink configures a writer within its bounds. *)

From Stdlib Require Import ZArith Lia.
From Stdlib Require Ascii.
From stdpp Require Import base gmap strings list.
From S2P Require Import Prelude Identity Json Redact Regex Registry Resolver Conditions ApiTypes GoFlags Admission.
From S2P Require Import Pipeline Driver ScopeWriter CHWriter SinkManager CHSchema RuleReconciler SinkReconciler ApiSamples RuleProps RuleRedaction.

(** ** Languages of expressions *)

Lemma seq_assoc r1 r2 r3 s : rmatches (RSeq r1 (RSeq r2 r3)) s <-> rmatches (RSeq (RSeq r1 r2) r3) s.
Proof.
  split; intros (s1 & s2 & -> & H1 & H2)%seq_inv.
  - apply seq_inv in H2 as (s3 & s4 & -> & H2 & H3). rewrite <- string_app_assoc. by repeat constructor.
  - apply seq_inv in H1 as (s3 & s4 & -> & H1 & H3). rewrite string_app_assoc. by repeat constructor.
Qed.

Lemma seq_ext r1 r1' r2 r2' s :
  (forall t, rmatches r1 t <-> rmatches r1' t) -> (forall t, rmatches r2 t <-> rmatches r2' t) ->
  rmatches (RSeq r1 r2) s <-> rmatches (RSeq r1' r2') s.
Proof.
  intros H1 H2. rewrite !seq_inv. split; intros (s1 & s2 & E & G1 & G2); exists s1, s2; (split; [done|]);
    (split; [by apply H1|by apply H2]).
Qed.

Lemma opt_inv r s : rmatches (RAlt r REps) s <-> s = "" \/ rmatches r s.
Proof. rewrite alt_inv, eps_inv. tauto. Qed.

Lemma star_class cls s : rmatches (RStar (RClass cls)) s <-> string_forall (in_class cls) s = true.
Proof.
  induction s as [|a s IH]; [split; [done|constructor]|]. rewrite star_cons_inv. cbn. rewrite andb_true_iff, <- IH. split.
  - intros (s1 & s2 & -> & (b & [= <- ->] & Hb)%class_inv & H2). done.
  - intros [Ha H]. exists "", s. split; [done|]. split; [by constructor|done].
Qed.

Lemma class_cons cls r a s : rmatches (RSeq (RClass cls) r) (String a s) <-> in_class cls a = true /\ rmatches r s.
Proof.
  rewrite seq_inv. split.
  - intros (s1 & s2 & E & (b & -> & Hb)%class_inv & H2). cbn in E. injection E as -> ->. done.
  - intros [Ha H]. exists (String a ""), s. by repeat constructor.
Qed.

Lemma class_nil cls r : ~ rmatches (RSeq (RClass cls) r) "".
Proof. intros (s1 & s2 & E & (b & -> & _)%class_inv & _)%seq_inv. done. Qed.

Lemma string_forall_app f s t : string_forall f (s +:+ t) = string_forall f s && string_forall f t.
Proof. induction s as [|a s IH]; cbn; [done|]. by rewrite IH, andb_assoc. Qed.

(** The bytes an expression is made of. *)
Fixpoint alphabet (r : regex) (a : Ascii.ascii) : bool :=
  match r with
  | RVoid | REps => false
  | RClass cls => in_class cls a
  | RSeq r1 r2 | RAlt r1 r2 => alphabet r1 a || alphabet r2 a
  | RStar r => alphabet r a
  end.

Lemma string_forall_impl (f g : Ascii.ascii -> bool) s :
  (forall a, f a = true -> g a = true) -> string_forall f s = true -> string_forall g s = true.
Proof.
  intros H. induction s as [|a s IH]; cbn; [done|]. rewrite !andb_true_iff. intros [Ha Hs]. auto.
Qed.

Lemma matches_alphabet r s : rmatches r s -> string_forall (alphabet r) s = true.
Proof.
  induction 1 as [|cls a Ha|r1 r2 s1 s2 _ IH1 _ IH2|r1 r2 s _ IH|r1 r2 s _ IH|r|r s1 s2 _ IH1 _ IH2]; cbn; try done.
  - by rewrite Ha.
  - rewrite string_forall_app, andb_true_iff.
    split; [eapply string_forall_impl, IH1|eapply string_forall_impl, IH2]; intros a Ha; cbn; by rewrite Ha, ?orb_true_r.
  - eapply string_forall_impl, IH. intros a Ha. cbn. by rewrite Ha.
  - eapply string_forall_impl, IH. intros a Ha. cbn. by rewrite Ha, orb_true_r.
  - rewrite string_forall_app, andb_true_iff. by split.
Qed.

(** A byte no class of the pattern has is in no text it matches. *)
Lemma matched_without pattern c s :
  alphabet (regexp_MustCompile pattern) c = false -> MatchString pattern s = true -> has_char c s = false.
Proof. intros Hc Hm%re_match_correct%matches_alphabet. by eapply string_forall_has. Qed.

(** ** Lists with a separator *)

Lemma first_cut c s : has_char c s = true -> exists a b, s = a +:+ String c b /\ has_char c a = false.
Proof.
  induction s as [|x s IH]; [done|]. cbn. destruct (Ascii.eqb_spec x c) as [->|Hne]; [by exists "", s|].
  cbn. intros (a & b & -> & Ha)%IH. exists (String x a), b. split; [done|]. cbn.
  by rewrite (proj2 (Ascii.eqb_neq _ _) Hne), Ha.
Qed.

Lemma in_singleton c a : in_class [(c, c)] a = true <-> a = c.
Proof.
  unfold in_class. cbn. rewrite orb_false_r, andb_true_iff, !Nat.leb_le. split; [|intros ->; lia].
  intros [H1 H2]. assert (E : Ascii.nat_of_ascii a = Ascii.nat_of_ascii c) by lia.
  by rewrite <- (Ascii.ascii_nat_embedding a), <- (Ascii.ascii_nat_embedding c), E.
Qed.

Lemma separated r c s :
  (forall t, rmatches r t -> has_char c t = false) ->
  rmatches (RSeq r (RStar (RSeq (RClass [(c, c)]) r))) s <-> Forall (rmatches r) (split_char c s).
Proof.
  intros Hr. set (n := String.length s). assert (Hn : (String.length s <= n)%nat) by lia. clearbody n. revert s Hn.
  induction n as [n IH] using lt_wf_ind. intros s Hn. rewrite seq_inv.
  destruct (has_char c s) eqn:Hc.
  - apply first_cut in Hc as (a & b & -> & Ha). rewrite split_char_app, Forall_cons by done.
    assert (Hl : (String.length b < n)%nat) by (rewrite string_length_app in Hn; cbn in Hn; lia).
    rewrite <- (IH (String.length b) Hl b) by lia. split.
    + intros (s1 & s2 & E & H1 & H2). destruct s2 as [|x s2].
      { rewrite string_app_nil_r in E. apply Hr in H1. rewrite <- E, has_char_app in H1. cbn in H1.
        by rewrite Ascii.eqb_refl, orb_true_r in H1. }
      apply star_cons_inv in H2 as (t1 & t2 & -> & [Hx H2]%class_cons & H3). apply in_singleton in Hx as ->.
      apply first_sep_inj in E as [-> ->]; [|done|by apply Hr]. split; [done|]. by constructor.
    + intros [H1 (t1 & t2 & -> & H2 & H3)%seq_inv]. exists a, (String c (t1 +:+ t2)). split; [done|]. split; [done|].
      apply star_cons_inv. exists t1, t2. split; [done|]. split; [|done]. apply class_cons. split; [by apply in_singleton|done].
  - rewrite split_char_single, Forall_singleton by done. split.
    + intros (s1 & s2 & -> & H1 & H2). destruct s2 as [|x s2]; [by rewrite string_app_nil_r|].
      apply star_cons_inv in H2 as (t1 & t2 & _ & [Hx _]%class_cons & _). apply in_singleton in Hx as ->.
      rewrite has_char_app in Hc. cbn in Hc. by rewrite Ascii.eqb_refl, orb_true_r in Hc.
    + intros H. exists s, "". rewrite string_app_nil_r. split; [done|]. split; [done|constructor].
Qed.

(** ** The redaction path pattern *)

Definition name_start : charClass := [("a", "z"); ("A", "Z"); ("_", "_")]%char.
Definition name_char : charClass := [("a", "z"); ("A", "Z"); ("0", "9"); ("_", "_"); ("-", "-")]%char.

Definition wildcard_re : regex :=
  RSeq (RClass [("[", "[")]%char) (RSeq (RClass [("*", "*")]%char) (RClass [("]", "]")]%char)).

Definition part_re : regex := RSeq (RClass name_start) (RSeq (RStar (RClass name_char)) (RAlt wildcard_re REps)).

Lemma class_ext cls f : byte_all (fun a => Bool.eqb (in_class cls a) (f a)) = true -> forall a, in_class cls a = f a.
Proof. intros H a. apply Bool.eqb_prop. revert a. by apply byte_all_spec. Qed.

Lemma name_start_is a : in_class name_start a = seg_start a.
Proof. revert a. apply class_ext. vm_compute. reflexivity. Qed.

Lemma name_char_is a : in_class name_char a = seg_char a.
Proof. revert a. apply class_ext. vm_compute. reflexivity. Qed.

Lemma string_forall_ext (f g : Ascii.ascii -> bool) s : (forall a, f a = g a) -> string_forall f s = string_forall g s.
Proof. intros H. induction s as [|a s IH]; cbn; [done|]. by rewrite H, IH. Qed.

Lemma name_matches s : rmatches (RSeq (RClass name_start) (RStar (RClass name_char))) s <-> segment_pattern s = true.
Proof.
  destruct s as [|a s]; [split; [by intros ?%class_nil|done]|]. rewrite class_cons, star_class. cbn [segment_pattern].
  by rewrite name_start_is, (string_forall_ext _ seg_char s name_char_is), andb_true_iff.
Qed.

Lemma wildcard_matches s : rmatches wildcard_re s <-> s = "[*]".
Proof.
  rewrite <- re_match_correct. unfold wildcard_re.
  split; [|intros ->; vm_compute; reflexivity]. intros H%re_match_correct.
  destruct s as [|a s]; [by apply class_nil in H|]. apply class_cons in H as [->%in_singleton H].
  destruct s as [|b s]; [by apply class_nil in H|]. apply class_cons in H as [->%in_singleton H].
  by apply class_inv in H as (d & -> & ->%in_singleton).
Qed.

(** Stripping the wildcard of a part. *)
Lemma substring_skip s t n : String.substring (String.length s) n (s +:+ t) = String.substring 0 n t.
Proof. induction s as [|a s IH]; cbn; [done|exact IH]. Qed.

Lemma substring_take s t : String.substring 0 (String.length s) (s +:+ t) = s.
Proof. induction s as [|a s IH]; cbn; [by destruct t|by rewrite IH]. Qed.

Lemma strip_app s : strip_wildcard (s +:+ "[*]") = s.
Proof.
  unfold strip_wildcard. rewrite string_length_app. cbn [String.length]. rewrite (proj2 (Nat.leb_le 3 _)) by lia.
  replace (String.length s + 3 - 3)%nat with (String.length s) by lia. by rewrite substring_skip, substring_take.
Qed.

Lemma name_without c s : seg_start c || seg_char c = false -> segment_pattern s = true -> has_char c s = false.
Proof.
  intros [Hc1 Hc2]%orb_false_iff. destruct s as [|a s]; [done|]. cbn. intros [Ha Hs]%andb_true_iff.
  rewrite (string_forall_has seg_char c s) by done. destruct (Ascii.eqb_spec a c) as [->|Hne]; [congruence|done].
Qed.

Lemma strip_name s : segment_pattern s = true -> strip_wildcard s = s.
Proof.
  intros Hs. destruct (strip_wildcard_cases s) as [E|E]; [done|]. exfalso.
  pose proof (name_without "[" s eq_refl Hs) as Hc. rewrite E, has_char_app, orb_true_r in Hc. done.
Qed.

Lemma part_matches s : rmatches part_re s <-> segment_pattern (strip_wildcard s) = true.
Proof.
  unfold part_re. rewrite seq_assoc, seq_inv. split.
  - intros (s1 & s2 & -> & H1%name_matches & [->| ->%wildcard_matches]%opt_inv).
    + rewrite string_app_nil_r. by rewrite strip_name.
    + by rewrite strip_app.
  - intros H. exists (strip_wildcard s). destruct (strip_wildcard_cases s) as [E|E].
    + exists "". rewrite string_app_nil_r. split; [done|]. split; [by apply name_matches|]. apply opt_inv. by left.
    + exists "[*]". split; [done|]. split; [by apply name_matches|]. apply opt_inv. right. by apply wildcard_matches.
Qed.

Lemma part_no_dot s : rmatches part_re s -> has_char "." s = false.
Proof.
  intros H%part_matches. destruct (strip_wildcard_cases s) as [E|E]; rewrite E; [by apply name_without|].
  rewrite has_char_app, (name_without "." (strip_wildcard s)) by done. done.
Qed.

Lemma fieldPath_regex :
  regexp_MustCompile RedactionFieldPathPattern =
  RSeq (RClass name_start) (RSeq (RStar (RClass name_char))
    (RSeq (RAlt wildcard_re REps) (RStar (RSeq (RClass [("."%char, "."%char)]) part_re)))).
Proof. vm_compute. reflexivity. Qed.

(** The pattern is what [ApiTypes] spells out. *)
Lemma fieldPath_pattern s : MatchString RedactionFieldPathPattern s = true <-> admits_fieldPath s = true.
Proof.
  unfold MatchString. rewrite re_match_correct, fieldPath_regex.
  transitivity (rmatches (RSeq part_re (RStar (RSeq (RClass [("."%char, "."%char)]) part_re))) s).
  { unfold part_re at 2. rewrite <- seq_assoc. apply seq_ext; [done|]. intros t. apply seq_assoc. }
  rewrite separated by (exact part_no_dot). unfold admits_fieldPath. rewrite forallb_forall, Forall_forall.
  split; intros H x Hx; [apply list_elem_of_In in Hx|apply list_elem_of_In in Hx]; apply part_matches, H; done.
Qed.

(** ** The annotation pattern *)

Definition lower_class : charClass := [("a", "z"); ("0", "9")]%char.
Definition prefix_class : charClass := [("-", "-"); ("a", "z"); ("0", "9"); (".", ".")]%char.
Definition alnum_class : charClass := [("A", "Z"); ("a", "z"); ("0", "9")]%char.
Definition key_class : charClass := [("-", "-"); ("A", "Z"); ("a", "z"); ("0", "9"); ("_", "_"); (".", ".")]%char.

(** One byte, or a first and a last one with others in between. *)
Definition bounded_re (edge inner : charClass) : regex :=
  RSeq (RClass edge) (RAlt (RSeq (RStar (RClass inner)) (RClass edge)) REps).

Lemma last_snoc s z : last_char (s +:+ String z "") = Some z.
Proof. induction s as [|a s IH]; [done|]. cbn in *. by destruct (s +:+ String z ""). Qed.

Lemma snoc_cases s : s = "" \/ exists t z, s = t +:+ String z "".
Proof.
  induction s as [|a s [->|(t & z & ->)]]; [by left|right; by exists "", a|right]. by exists (String a t), z.
Qed.

Lemma bounded_matches edge inner fedge finner s :
  (forall a, in_class edge a = fedge a) -> (forall a, in_class inner a = fedge a || finner a) ->
  rmatches (bounded_re edge inner) s <-> bounded_name fedge finner s = true.
Proof.
  intros He Hi. unfold bounded_re. destruct s as [|a s]; [split; [by intros ?%class_nil|done]|].
  rewrite class_cons, opt_inv, seq_inv, He. unfold bounded_name. cbn [string_forall].
  destruct (snoc_cases s) as [->|(t & z & ->)].
  - cbn. rewrite !andb_true_iff. split; [intros [-> _]; done|]. intros [[Ha _] _]. auto.
  - change (String a (t +:+ String z "")) with (String a t +:+ String z ""). rewrite last_snoc, string_forall_app. cbn [string_forall].
    rewrite !andb_true_iff. split.
    + intros [Ha [E|(s1 & s2 & E & H1%star_class & (b & -> & Hb)%class_inv)]]; [by destruct t|].
      assert (Ez : Some z = Some b) by (rewrite <- (last_snoc t z), E; apply last_snoc). injection Ez as <-.
      assert (Et : t = s1).
      { clear -E. revert s1 E. induction t as [|x t IH]; intros [|y s1] E; cbn in E; try done.
        - injection E as _ E. by destruct s1.
        - injection E as _ E. by destruct t.
        - injection E as -> E. f_equal. by apply IH. }
      subst s1. rewrite He in Hb. rewrite Ha, Hb. cbn. split_and!; try done.
      eapply string_forall_impl, H1. intros x. by rewrite Hi.
    + intros [[Ha Hz] [_ [Ht _]]]. split; [done|]. right. exists t, (String z ""). split; [done|]. split.
      * apply star_class. rewrite (string_forall_ext _ (fun c => fedge c || finner c)) by done. done.
      * constructor. by rewrite He.
Qed.

Lemma annotation_regex :
  regexp_MustCompile RedactionAnnotationPattern =
  RSeq (RAlt (RSeq (RClass lower_class) (RSeq (RAlt (RSeq (RStar (RClass prefix_class)) (RClass lower_class)) REps)
                (RClass [("/"%char, "/"%char)]))) REps) (bounded_re alnum_class key_class).
Proof. vm_compute. reflexivity. Qed.

Lemma prefix_matches s : rmatches (bounded_re lower_class prefix_class) s <-> bounded_name lower_alnum prefix_inner s = true.
Proof. apply bounded_matches; apply class_ext; vm_compute; reflexivity. Qed.

Lemma key_matches s : rmatches (bounded_re alnum_class key_class) s <-> bounded_name alnum name_inner s = true.
Proof. apply bounded_matches; apply class_ext; vm_compute; reflexivity. Qed.

Lemma bounded_no_slash r s : alphabet r "/" = false -> rmatches r s -> has_char "/" s = false.
Proof. intros Hr Hm%matches_alphabet. by eapply string_forall_has. Qed.

Lemma annotation_pattern s : MatchString RedactionAnnotationPattern s = true <-> admits_annotation s = true.
Proof.
  unfold MatchString. rewrite re_match_correct, annotation_regex, seq_inv. unfold admits_annotation. split.
  - intros (s1 & s2 & -> & [->|H1]%opt_inv & H2).
    + cbn. rewrite (proj2 (cut_char_None "/" s2)) by (by eapply bounded_no_slash, H2). by apply key_matches.
    + apply seq_assoc, seq_inv in H1 as (p & q & -> & Hp & (b & -> & ->%in_singleton)%class_inv).
      rewrite string_app_assoc. change (String "/" "" +:+ s2) with (String "/" s2).
      rewrite (cut_char_spec "/" p s2) by (by eapply bounded_no_slash, Hp).
      apply andb_true_iff. split; [by apply prefix_matches|by apply key_matches].
  - destruct (cut_char "/" s) as [[p n]|] eqn:Ec.
    + apply cut_char_Some in Ec as [-> _]. intros [Hp Hn]%andb_true_iff. exists (p +:+ String "/" ""), n.
      split; [by rewrite string_app_assoc|]. split; [|by apply key_matches]. apply opt_inv. right. apply seq_assoc, seq_inv.
      exists p, (String "/" ""). split; [done|]. split; [by apply prefix_matches|]. by constructor.
    + intros H. exists "", s. split; [done|]. split; [apply opt_inv; by left|by apply key_matches].
Qed.

(** ** The pattern and the parser *)

(** Without a quote in it, what a turn of the parser takes is a part. *)
Lemma parse_step_part rest segs rest' :
  has_char dquote rest = false -> parse_step rest = Ok (segs, rest') ->
  exists part, rest = part +:+ rest' /\ rmatches part_re part.
Proof.
  intros Hq. unfold parse_step, parseSegmentName. pose proof (cut_name_app rest) as Hc.
  destruct (cut_name rest) as [name rest1]. cbn in Hc. subst rest. destruct (segment_pattern name) eqn:Hn; [|done].
  destruct (has_prefix "[" rest1) eqn:Hp.
  - apply prefix_iff in Hp as [r ->]. destruct (cut_char "]" ("[" +:+ r)) as [[opened rest2]|] eqn:Ec; [|done].
    apply cut_char_Some in Ec as [E _]. destruct opened as [|b opened]; [done|]. cbn in E. injection E as <- ->.
    cbn [String.length String.substring]. rewrite substring_all by lia.
    destruct (String.eqb_spec opened "*") as [->|Hne].
    + intros [= _ <-]. exists (name +:+ "[*]"). split; [by rewrite string_app_assoc|]. apply part_matches. by rewrite strip_app.
    + destruct (has_prefix (String dquote "") opened) eqn:Hd; [|done]. exfalso. apply prefix_iff in Hd as [q ->].
      rewrite has_char_app in Hq. cbn in Hq. by rewrite orb_true_r in Hq.
  - intros [= _ <-]. exists name. split; [done|]. apply part_matches. by rewrite strip_name.
Qed.

Lemma parse_loop_parts fuel segs rest out :
  has_char dquote rest = false -> parse_loop fuel segs rest = Ok out -> Forall (rmatches part_re) (split_char "." rest).
Proof.
  revert segs rest out. induction fuel as [|fuel IH]; intros segs rest out Hq; cbn [parse_loop]; [done|].
  destruct (parse_step rest) as [[segs' rest']|err] eqn:Es; [|done].
  apply parse_step_part in Es as (part & -> & Hp); [|done]. rewrite has_char_app in Hq. apply orb_false_iff in Hq as [_ Hq].
  destruct rest' as [|a rest'].
  - intros _. rewrite string_app_nil_r, split_char_single by (by apply part_no_dot). by constructor.
  - destruct (Ascii.eqb_spec a ".") as [->|Hne]; [|done]. destruct (String.eqb rest' "") eqn:Ee; [done|]. intros H.
    rewrite split_char_app by (by apply part_no_dot). constructor; [done|]. eapply IH, H. cbn in Hq. by apply orb_false_iff in Hq as [_ Hq].
Qed.

Lemma admits_no_quote s : MatchString RedactionFieldPathPattern s = true -> has_char dquote s = false.
Proof. apply matched_without. vm_compute. reflexivity. Qed.

Lemma parsed_iff_admitted raw :
  admits_fieldPath raw = true <-> has_char dquote raw = false /\ exists p, parseRedactionPath raw = Ok p.
Proof.
  split.
  - intros H. split; [by apply admits_no_quote, fieldPath_pattern|]. destruct (fieldPath_printed raw H) as (es & Hne & HF & <-).
    eexists. by apply parse_print_path.
  - intros [Hq [p Hp]]. unfold parseRedactionPath in Hp. destruct (String.eqb raw ""); [done|].
    destruct (parse_loop (String.length raw) [] raw) as [segs|err] eqn:El; [|done].
    apply parse_loop_parts in El; [|done]. unfold admits_fieldPath. apply forallb_forall. intros x Hx%list_elem_of_In.
    rewrite Forall_forall in El. by apply part_matches, El.
Qed.

(** C30. The API server and the pipeline speak one redaction grammar. For every text, the
    pattern admission checks a field path against matches exactly when the pipeline's
    parser accepts the path and it has no quoted key, the one construct that is the
    annotation shorthand's; and for every admitted annotation key, the path rendered
    from it parses to that key under the annotations and to nothing else, so no key
    can close its quotes and say something its author did not write. *)
Theorem redaction_grammars_agree :
  (forall raw, MatchString RedactionFieldPathPattern raw = true <->
     has_char dquote raw = false /\ exists p, parseRedactionPath raw = Ok p) /\
  (forall key, MatchString RedactionAnnotationPattern key = true ->
     parseRedactionPath (AnnotationRedactionPath key) =
       Ok (mkPath (AnnotationRedactionPath key)
             [mkSegment "metadata" false; mkSegment "annotations" false; mkSegment key false])).
Proof.
  split.
  - intros raw. by rewrite fieldPath_pattern, parsed_iff_admitted.
  - intros key [Hne Hb]%annotation_pattern%annotation_key. rewrite annotation_printed.
    rewrite parse_print_path; [done|done|]. by repeat constructor.
Qed.

Lemma redaction_grammars_agree_witness :
  parseRedactionPath (AnnotationRedactionPath "example.com/token") =
    Ok (mkPath (AnnotationRedactionPath "example.com/token")
          [mkSegment "metadata" false; mkSegment "annotations" false; mkSegment "example.com/token" false]) /\
  MatchString RedactionFieldPathPattern "spec.containers[*].env" = true /\
  MatchString RedactionFieldPathPattern "spec.containers[0].env" = false.
Proof.
  split; [|split; vm_compute; reflexivity]. apply (proj2 redaction_grammars_agree). vm_compute. reflexivity.
Defined.

(** An admitted entry is one [ApiTypes] admits. *)
Lemma rune_count_ascii s : string_forall (fun a => Nat.ltb (Ascii.nat_of_ascii a) 128) s = true -> rune_count s = String.length s.
Proof.
  induction s as [|a s IH]; cbn [string_forall rune_count String.length]; [done|]. intros [Ha Hs]%andb_true_iff.
  unfold starts_rune. rewrite Ha. cbn. by rewrite IH.
Qed.

Lemma matched_ascii pattern s :
  byte_all (fun a => implb (alphabet (regexp_MustCompile pattern) a) (Nat.ltb (Ascii.nat_of_ascii a) 128)) = true ->
  MatchString pattern s = true -> rune_count s = String.length s.
Proof.
  intros Hb Hm%re_match_correct%matches_alphabet. apply rune_count_ascii. eapply string_forall_impl, Hm.
  intros a Ha. pose proof (byte_all_spec _ Hb a) as Hi. cbn in Hi. by rewrite Ha in Hi.
Qed.

Lemma fieldPath_ascii s : MatchString RedactionFieldPathPattern s = true -> rune_count s = String.length s.
Proof. apply matched_ascii. vm_compute. reflexivity. Qed.

Lemma annotation_ascii s : MatchString RedactionAnnotationPattern s = true -> rune_count s = String.length s.
Proof. apply matched_ascii. vm_compute. reflexivity. Qed.

Lemma valid_redaction_admitted r : valid_redaction r = true -> admitted_rule (decode_redaction r) = true.
Proof.
  unfold valid_redaction, admitted_rule, decode_redaction, if_present, length_within.
  destruct r as [[path|] [key|]]; cbn -[admits_fieldPath admits_annotation]; try done; rewrite ?andb_true_r, !andb_true_iff; intros [[Hlo Hhi] Hm].
  - rewrite (fieldPath_ascii path Hm) in Hlo, Hhi.
    rewrite (proj1 (fieldPath_pattern path) Hm), Hhi. by destruct path.
  - rewrite (annotation_ascii key Hm) in Hlo, Hhi.
    by rewrite (proj1 (annotation_pattern key) Hm).
Qed.

(** ** A rule's life *)

Section life.
Context `{SA : SelectorAPI, LA : LabelSelectorAPI, SC : SchemaAPI, CA : ConditionAPI}.

Lemma create_rule_ok r v : create_rule r = Some v -> v = default_rule r /\ valid_rule v = true.
Proof. unfold create_rule. destruct (valid_rule (default_rule r)) eqn:E; [|done]. intros [= <-]. done. Qed.

Lemma update_rule_ok old r v : update_rule old r = Some v -> valid_rule v = true /\ ra_sinkRef v = ra_sinkRef old.
Proof.
  unfold update_rule. destruct (valid_rule (default_rule r)) eqn:E; [|done]. cbn [andb].
  case_bool_decide; [|done]. intros [= <-]. done.
Qed.

(** Every version is valid and names the sink of the first. *)
Lemma versions_ok first updates vs :
  rule_versions first updates = Some vs ->
  Forall (fun v => valid_rule v = true /\ ra_sinkRef v = Some (default "default" (ra_sinkRef first))) vs.
Proof.
  unfold rule_versions. intros (v0 & [E0 H0]%create_rule_ok & E)%bind_Some. injection E as <-.
  set (ok v := valid_rule v = true /\ ra_sinkRef v = Some (default "default" (ra_sinkRef first))).
  assert (Hv0 : ok v0) by (split; [done|]; rewrite E0; cbn; by destruct (ra_sinkRef first)).
  cut (forall acc, ok acc.1 -> Forall ok acc.2 ->
    Forall ok (foldl (fun acc r => match update_rule acc.1 r with Some v => (v, acc.2 ++ [v]) | None => acc end) acc updates).2).
  { intros H. apply H; [done|by constructor]. }
  induction updates as [|r updates IH]; intros [cur past] Hc Hp; [done|]. cbn [foldl fst snd].
  destruct (update_rule cur r) as [v|] eqn:Eu; [|by apply IH]. apply update_rule_ok in Eu as [Hv Hs].
  assert (Hok : ok v) by (split; [done|]; rewrite Hs; apply Hc). apply IH; [done|]. apply Forall_app. split; [done|by constructor].
Qed.

Lemma valid_gvk_plain group version kind :
  valid_gvk group version kind = true ->
  has_char "|" group = false /\ has_char "|" kind = false /\ has_char "/" group = false /\ has_char "," version = false /\ kind <> "".
Proof.
  unfold valid_gvk. intros H. bools. split_and!.
  - eapply matched_without; [|done]. vm_compute. reflexivity.
  - eapply matched_without; [|done]. vm_compute. reflexivity.
  - eapply matched_without; [|done]. vm_compute. reflexivity.
  - eapply matched_without; [|done]. vm_compute. reflexivity.
  - intros ->. vm_compute in *. done.
Qed.

Lemma version_resource v res : valid_rule v = true -> res ∈ sr_Resources (decode_rule v) ->
  valid_gvk (wr_Group res) (wr_Version res) (wr_Kind res) = true.
Proof.
  unfold valid_rule, decode_rule. cbn. intros H (raw & -> & Hin)%list_elem_of_fmap. bools.
  match goal with H : forallb valid_resource _ = true |- _ => rewrite forallb_forall in H; apply (H raw) end.
  by apply list_elem_of_In.
Qed.

(** The passes that find a rule find some version of it, fresh or stale, and the
    sink it names. *)
Definition finds_versions (rk : string) (vs : list rawRule) (p : pass) : Prop :=
  forall obj, req_key (pa_kind p) (pa_req p) = rk -> re_rule (pa_env p) = Found obj ->
    (exists v, v ∈ vs /\ rk_spec (pa_kind p) obj = decode_rule v) /\
    forall chSink, re_sink (pa_env p) = Found chSink -> om_Name (sk_meta chSink) = sr_SinkRef (rk_spec (pa_kind p) obj).

(** C14. A rule streams to one sink, with unambiguous identities, for its whole life.
    Take a rule as it was created and any sequence of edits submitted to the API
    server, admitted or refused. Over any run of reconcile passes of this and other
    rules in which the passes of this rule see any of its versions, in any order:
    every target the rule has in the registry is for the sink its creation named, and
    is of a kind whose group and name are free of the bytes that separate the parts of
    a cache key, so two objects of such targets share a baseline only when they are
    the same object. *)
Theorem rule_keeps_its_sink first updates vs rk ps t :
  rule_versions first updates = Some vs -> passes_ok ps -> Forall (finds_versions rk vs) ps ->
  wants (rules (rw_registry (run_passes ps newRuleWorld))) rk t ->
  t_Sink t = default "default" (ra_sinkRef first) /\
  forall k1 k2, k_Group k1 = g_Group (t_GVK t) -> k_Kind k1 = g_Kind (t_GVK t) -> has_char "/" (k_Namespace k1) = false ->
    has_char "|" (k_Group k2) = false -> has_char "|" (k_Kind k2) = false -> has_char "/" (k_Namespace k2) = false ->
    cacheKey k1 = cacheKey k2 ->
    k_Group k2 = k_Group k1 /\ k_Kind k2 = k_Kind k1 /\ k_Namespace k2 = k_Namespace k1 /\ k_Name k2 = k_Name k1.
Proof.
  intros Hv%versions_ok Hok Hf Hw.
  set (good := t_Sink t = default "default" (ra_sinkRef first) /\ has_char "|" (g_Group (t_GVK t)) = false /\
    has_char "|" (g_Kind (t_GVK t)) = false). cut good.
  { intros (Hs & Hg & Hk). split; [done|]. intros k1 k2 E1 E2 Hn1 Hg2 Hk2 Hn2 Ec.
    apply cacheKey_injective in Ec as (? & ? & ? & ?); [done| |]; unfold wf_key; rewrite ?E1, ?E2, ?Hg, ?Hk, ?Hn1, ?Hg2, ?Hk2, ?Hn2; done. }
  revert Hw. cut (forall w, (wants (rules (rw_registry w)) rk t -> good) -> wants (rules (rw_registry (run_passes ps w))) rk t -> good).
  { intros H. apply (H newRuleWorld). unfold wants. cbn. rewrite lookup_empty. set_solver. }
  induction Hok as [|p ps Hp Hok IH]; intros w Hw; [exact Hw|]. apply Forall_cons in Hf as [Hfp Hf].
  apply (IH Hf (run_pass p w)). intros Hwt. destruct (Reconcile_effect _ (pa_resync p) _ _ w Hp) as (op & Hreg & Heff & _).
  unfold run_pass in Hwt. rewrite Hreg in Hwt. apply wants_effect in Hwt as [Hwt|(ts & desired & -> & Hcan & Hin)]; [by apply Hw|].
  destruct Heff as (Erk & obj & Hobj & Hts). destruct (canonicalize_elem _ _ _ Hcan Hin) as (t0 & Hin0 & Hg & _ & Hs & _).
  destruct (Hfp obj (eq_sym Erk) Hobj) as [(v & Hvin & Espec) Hsink].
  rewrite Forall_forall in Hv. destruct (Hv v Hvin) as [Hval Href].
  destruct (Hts t0 Hin0) as (chSink & namespaces & Hch & _ & (j & res & m & sel & ns & Hres & _ & _ & _ & _ & ->)).
  cbn in Hg, Hs. unfold good. rewrite Hg, Hs, (Hsink chSink Hch), Espec. cbn. rewrite Href. split; [done|].
  rewrite Espec in Hres. apply list_elem_of_lookup_2, (version_resource v) in Hres; [|done].
  by apply valid_gvk_plain in Hres as (? & ? & _).
Qed.
End life.

(** ** Sinks *)

Lemma decode_duration_present text d : decode_duration (Some text) = Ok d -> exists n, d = Some n.
Proof. unfold decode_duration. destruct (ParseDuration text); [|done]. intros [= <-]. eauto. Qed.

Lemma fill_default_present {A} (field : option A) value : fill_default field value = Some (default value field).
Proof. by destruct field. Qed.

Lemma or_default_positive d v : (0 < d)%Z -> (0 < or_default d v)%Z.
Proof. unfold or_default. destruct (Z.leb_spec v 0); lia. Qed.

Lemma or_default_given d v lo hi : (1 <= lo)%Z -> within lo hi v = true -> or_default d v = v /\ (lo <= v <= hi)%Z.
Proof.
  unfold within, or_default. intros Hlo [H1%Z.leb_le H2%Z.leb_le]%andb_true_iff. destruct (Z.leb_spec v 0); [lia|]. done.
Qed.

(** The writer section of a decoded sink, where it was submitted: every field is set. *)
Lemma decoded_writer raw stored spec w0 :
  admit_sink raw = Some stored -> decode_sink stored = Ok spec -> rs_writer raw = Some w0 ->
  valid_writer (default_writer w0) = true /\ exists wait enqueue drain,
    ss_Writer spec = mkWriterSpec (Some (default 5000%Z (rwr_queueSize w0))) (Some (default 4%Z (rwr_workers w0)))
      (Some (default 1000%Z (rwr_batchMaxRows w0))) (Some wait) (Some enqueue) (Some drain) (Some (default 50%Z (rwr_checkpointEvery w0))) /\
    decode_duration (Some (default "1s" (rwr_batchMaxWait w0))) = Ok (Some wait) /\
    decode_duration (Some (default "2s" (rwr_enqueueTimeout w0))) = Ok (Some enqueue) /\
    decode_duration (Some (default "15s" (rwr_drainTimeout w0))) = Ok (Some drain).
Proof.
  unfold admit_sink. destruct (valid_sink (default_sink raw)) eqn:Hv; [|done]. intros [= <-] Hd Hw.
  unfold valid_sink in Hv. unfold decode_sink in Hd. cbn [default_sink rs_writer rs_connection] in *. rewrite Hw in *. cbn in Hv. bools.
  split; [done|]. destruct (decode_connection _) as [cn|]; [|done]. cbn [fmap option_fmap option_map] in Hd. unfold decode_writer in Hd.
  destruct (decode_duration (rwr_batchMaxWait _)) as [wait|] eqn:E1; [|done]. destruct (decode_duration (rwr_enqueueTimeout _)) as [enq|] eqn:E2; [|done].
  destruct (decode_duration (rwr_drainTimeout _)) as [drain|] eqn:E3; [|done]. injection Hd as <-. cbn in *.
  rewrite fill_default_present in E1, E2, E3.
  destruct (decode_duration_present _ _ E1) as [n1 ->], (decode_duration_present _ _ E2) as [n2 ->], (decode_duration_present _ _ E3) as [n3 ->].
  exists n1, n2, n3. by rewrite !fill_default_present.
Qed.

(** A field the author submitted is in force as submitted, and within its bounds. *)
Definition in_force (lo hi : Z) (submitted : option Z) (running : Z) : Prop :=
  forall v, submitted = Some v -> running = v /\ (lo <= v <= hi)%Z.

(** A duration the author submitted is in force as it reads, where it is positive. *)
Definition delay_in_force (submitted : option string) (running : Z) : Prop :=
  forall text d, submitted = Some text -> ParseDuration text = Ok d -> (0 < d)%Z -> running = d.

Lemma decode_submitted submitted fallback d running base :
  decode_duration (Some (default fallback submitted)) = Ok (Some d) -> running = or_default base d -> delay_in_force submitted running.
Proof.
  intros Hd -> text n -> Hp Hn. cbn in Hd. rewrite Hp in Hd. injection Hd as <-. unfold or_default. destruct (Z.leb_spec n 0); lia.
Qed.

Lemma within_in_force lo hi base fallback submitted :
  (1 <= lo)%Z -> within lo hi (default fallback submitted) = true -> in_force lo hi submitted (or_default base (default fallback submitted)).
Proof. intros Hlo Hw v ->. by apply or_default_given. Qed.

(** C15. An admitted sink runs its writer within bounds. Whatever an author submits and
    the operator's fallbacks are: if the API server admits the sink, the controllers can
    decode it, and a writer is opened from the configuration built for it, then the
    writer has room for at least one job, at least one worker, batches of at least one
    row and a checkpoint cadence that is not negative, and its time-outs and its batching
    delay are positive, also where the author wrote zero or a negative duration; each
    number the author did submit is in force as submitted and within the bounds the
    resource documents, a checkpoint cadence of zero included, and each positive
    duration is in force as it reads; and where the author gave the sink no writer
    section at all, the operator's fallbacks are in force. (Which value a field omitted
    from a section that is present takes is not part of the claim.) *)
Theorem admitted_sink_bounded raw stored spec defaults autoCreate name password cfg w :
  admit_sink raw = Some stored -> decode_sink stored = Ok spec ->
  newSinkConfigBuilder defaults autoCreate name spec password = Ok (Some cfg) -> Open None cfg = Ok w ->
  let k := cw_knobs w in
  ((0 < kn_queueSize k)%Z /\ (0 < kn_workers k)%Z /\ (0 < kn_batchMaxRows k)%Z /\ (0 <= CheckpointEvery w)%Z /\
   (0 < kn_batchMaxWait k)%Z /\ (0 < kn_enqueueTimeout k)%Z /\ (0 < kn_shutdownDrainTimeout k)%Z /\ (0 < kn_insertTimeout k)%Z) /\
  match rs_writer raw with
  | Some w0 =>
      in_force 1 1000000 (rwr_queueSize w0) (kn_queueSize k) /\
      in_force 1 64 (rwr_workers w0) (kn_workers k) /\
      in_force 1 100000 (rwr_batchMaxRows w0) (kn_batchMaxRows k) /\
      in_force 0 10000 (rwr_checkpointEvery w0) (CheckpointEvery w) /\
      delay_in_force (rwr_batchMaxWait w0) (kn_batchMaxWait k) /\
      delay_in_force (rwr_enqueueTimeout w0) (kn_enqueueTimeout k) /\
      delay_in_force (rwr_drainTimeout w0) (kn_shutdownDrainTimeout k)
  | None =>
      kn_queueSize k = or_default DefaultWriteQueueSize (wt_queueSize defaults) /\
      kn_workers k = or_default DefaultWriteWorkers (wt_workers defaults) /\
      kn_batchMaxRows k = or_default DefaultBatchMaxRows (wt_batchMaxRows defaults) /\
      kn_batchMaxWait k = or_default DefaultBatchMaxWait (wt_batchMaxWait defaults) /\
      kn_enqueueTimeout k = or_default DefaultEnqueueTimeout (wt_enqueueTimeout defaults) /\
      kn_shutdownDrainTimeout k = or_default DefaultShutdownDrainTimeout (wt_drainTimeout defaults) /\
      CheckpointEvery w = 50%Z
  end.
Proof.
  intros Ha Hd Hb Ho k. injection Ho as <-. subst k. unfold CheckpointEvery, set_knobs. cbn [cw_knobs].
  unfold newSinkConfigBuilder in *. injection Hb as <-. destruct (rs_writer raw) as [w0|] eqn:Hw.
  - destruct (decoded_writer _ _ _ _ Ha Hd Hw) as [Hv (wait & enq & drain & Ews & E1 & E2 & E3)]. rewrite Ews. cbn.
    unfold valid_writer in Hv. cbn in Hv. rewrite !fill_default_present in Hv. cbn in Hv. bools. unfold intOrDefault. cbn.
    match goal with H : within 0 10000 _ = true |- _ => unfold within in H; rewrite andb_true_iff, !Z.leb_le in H end.
    rewrite (proj2 (Z.leb_le 0 (default 50 (rwr_checkpointEvery w0))%Z)) by lia.
    split; [split_and!; try (by apply or_default_positive); lia|].
    split_and!; try (by apply within_in_force); try (by eapply decode_submitted).
    intros v Ev. rewrite Ev in *. cbn in *. split; [done|lia].
  - unfold admit_sink in Ha. destruct (valid_sink (default_sink raw)); [|done]. injection Ha as <-.
    unfold decode_sink in Hd. cbn [default_sink rs_writer rs_connection] in Hd. rewrite Hw in Hd. cbn in Hd.
    destruct (decode_connection _) as [cn|]; [|done]. injection Hd as <-. cbn.
    split; [split_and!; try (by apply or_default_positive); done|done].
Qed.

(** ** Witnesses *)

Module AdmissionSamples.
Definition some_tuning : writerTuning := mkTuning 1 1 1 7 7 7.

(** A sink that names its server and asks for two workers, a negative
    batching delay and a time-out of three seconds. *)
Definition raw_main : rawSink :=
  mkRawSink (mkRawConnection "ch:9000" None None "ch-password" None None None)
    (Some (mkRawWriter None (Some 2%Z) None (Some "-1s") (Some "3s") None (Some 0%Z))) None.

Definition stored_main : rawSink := default raw_main (admit_sink raw_main).
Definition spec_main : ClickHouseSinkSpec :=
  match decode_sink stored_main with Ok s => s | Err _ => mkSinkSpec RuleSamples.connection zeroWriterSpec (mkSinkPolicy [] []) end.
Definition cfg_main : Config :=
  match newSinkConfigBuilder some_tuning true "main" spec_main "s3cret" with Ok (Some c) => c | _ => mkConfig "" "" "" "" 0 0 true 0 0 0 0 0 0 0 end.
Definition writer_main : CHWriter := match Open None cfg_main with Ok w => w | Err _ => NewCHWriter 0 0 0 0 0 0 0 0 end.

Lemma admitted_sink_bounded_witness :
  kn_workers (cw_knobs writer_main) = 2%Z /\ (0 < kn_batchMaxWait (cw_knobs writer_main))%Z /\
  kn_enqueueTimeout (cw_knobs writer_main) = 3000000000%Z /\ CheckpointEvery writer_main = 0%Z.
Proof.
  destruct (admitted_sink_bounded raw_main stored_main spec_main some_tuning true "main" "s3cret" cfg_main writer_main)
    as [(_ & _ & _ & _ & Hpos & _) (_ & Hk & _ & Hc & _ & He & _)].
  - vm_compute. reflexivity.
  - vm_compute. reflexivity.
  - vm_compute. reflexivity.
  - vm_compute. reflexivity.
  - split; [exact (proj1 (Hk 2%Z eq_refl))|]. split; [exact Hpos|]. split; [|exact (proj1 (Hc 0%Z eq_refl))].
    refine (He "3s" 3000000000%Z eq_refl _ _); vm_compute; reflexivity.
Defined.

(** The flag says one worker; the sink leaves the field out of a writer section it has;
    the schema's default, not the flag, decides. *)
Definition raw_untuned : rawSink :=
  mkRawSink (rs_connection raw_main) (Some (mkRawWriter None None None None None None None)) None.

Lemma fallback_shadowed :
  match admit_sink raw_untuned with
  | Some stored =>
      match decode_sink stored with
      | Ok spec =>
          match newSinkConfigBuilder some_tuning true "main" spec "" with
          | Ok (Some cfg) => wt_workers some_tuning = 1%Z /\ cf_WriteWorkers cfg = 4%Z
          | _ => False
          end
      | Err _ => False
      end
  | None => False
  end.
Proof. vm_compute. split; reflexivity. Qed.

(** A duration is any text to the API server; the controllers cannot decode this sink. *)
Definition raw_undecodable : rawSink :=
  mkRawSink (mkRawConnection "ch:9000" None None "ch-password" None (Some "5 seconds") None) None None.

Lemma undecodable_sink_admitted :
  match admit_sink raw_undecodable with
  | Some stored => match decode_sink stored with Ok _ => False | Err _ => True end
  | None => False
  end.
Proof. vm_compute. exact I. Qed.

(** ** A rule's life *)

Definition raw_pods (sinkRef : option string) (extra : list rawRedaction) : rawRule :=
  mkRawRule sinkRef [mkRawResource None "v1" "Pod" (Some "app=web")] extra.
Definition raw_token : rawRedaction := mkRawRedaction None (Some "example.com/token").

(** Created, then an edit of its redaction, then an attempt to move it. *)
Definition web_versions : list rawRule :=
  default [] (rule_versions (raw_pods (Some "main") []) [raw_pods (Some "main") [raw_token]; raw_pods (Some "other") []]).

Definition web_key : string := req_key streamRuleKind RuleSamples.web.
Definition web_target : WatchTarget :=
  default (mkTarget "" (mkGVK "" "" "") "" "" "")
    (elements (default ∅ (rules (rw_registry (run_passes RuleSamples.passes newRuleWorld)) !! web_key)) !! 0%nat).

Lemma rule_keeps_its_sink_witness : length web_versions = 2%nat /\ t_Sink web_target = "main".
Proof.
  split; [vm_compute; reflexivity|].
  refine (proj1 (rule_keeps_its_sink (raw_pods (Some "main") []) [raw_pods (Some "main") [raw_token]; raw_pods (Some "other") []]
    web_versions web_key RuleSamples.passes web_target _ RuleSamples.passes_are_ok _ _)).
  - vm_compute. reflexivity.
  - apply Forall_cons. split; [|apply Forall_singleton]; intros obj Hk Hf.
    + injection Hf as <-. split; [|intros chSink [= <-]; reflexivity].
      exists (default_rule (raw_pods (Some "main") [raw_token])). split; [|reflexivity]. vm_compute. right. left.
    + exfalso. vm_compute in Hk. discriminate Hk.
  - unfold wants. apply (bool_decide_unpack _). vm_compute. exact I.
Defined.
End AdmissionSamples.
