(* ===== verification/SinkReconcilerProps.v ===== *)
(** * SinkReconcilerProps: what a sink reports, and what runs for it

    The reconciler, the sink manager, the configuration builder and the ClickHouse
    probe together: a run is any interleaving of reconcile passes, probe attempts, the
    buffered channel their results go through, the watcher that records them and
    the manager's own steps. The conditions a pass writes are a function of the
    credential and of the last probe result recorded ([sink_health_truthful]); every instance
    was built with a password some pass read from the Secret its sink names
    ([instances_hold_read_credentials]); a changed setting replaces the instance and
    an unchanged one does not ([rotation_recycles]). A concrete run shows a verdict
    that outlives its sink. *)

From Stdlib Require Import ZArith Lia.
From stdpp Require Import base gmap strings list.
From S2P Require Import Prelude Sha256 Identity HashCache Json Redact Pipeline JsonPatch Process Interest Resolver Conditions ApiTypes.
From S2P Require Import ScopeRecorder Warm Driver ScopeWriter CHWriter CHReader SinkManager SinkManagerProps CHSchema SinkReconciler ApiSamples.

Section props.
Context `{SchemaAPI, ConditionAPI}.
Variable defaults : writerTuning.
Variable autoCreate : bool.
Variable OperatorNamespace : string.
(** The capacity of the channel of probe results. *)
Variable resultBuffer : nat.

Abbreviation build := (newSinkConfigBuilder defaults autoCreate).
Abbreviation world := (sinkWorld (S := SinkManager Config)).

(** ** Runs *)

(** The manager's steps that are not requests of the reconciler. *)
Definition own_step (op : managerOp Config) : bool :=
  match op with MEnsure _ _ _ | MDelete _ => false | _ => true end.

#[local] Instance ProbeResult_eq_dec : EqDecision ProbeResult.
Proof. solve_decision. Defined.

(** A result with the instance that was probed, which the code does not carry along. *)
Abbreviation probed := (nat * ProbeResult)%type.

(** The world, the probe loops that wait to post a result, the channel, and (for the
    specification) how many instances had been started when a name was last found gone. *)
Record sinkSystem := mkSystem {
  sy_world : world;
  sy_held : list probed;
  sy_results : list probed;
  sy_births : gmap string nat;
}.

(** A pass; an attempt of a started instance's probe loop that ends before the instance
    is cancelled; its send on the channel, or its end with the instance; the watcher taking
    a result; a step of the manager. *)
Inductive sinkEvent :=
| SPass (factory : string -> Config -> result backend) (resync : Z) (name : string) (e : sinkEnv)
| SProbe (inst : liveSink) (at_ : Z) (ping : option error) (conn : string -> list chValue -> queryResult) (w : CHWriter)
| SPost (i : nat)
| SDrop (i : nat)
| SRecord (p : probed)
| SManager (op : managerOp Config).

Definition pass factory resync name e (w : world) : world * sinkResult :=
  sink_Reconcile (RT := manager_runtime factory) build OperatorNamespace resync name e w.

Definition set_runtime (m : SinkManager Config) (w : world) : world :=
  mkSinkWorld m (kw_probes w) (kw_written w) (kw_events w).

Definition set_world (w : world) (s : sinkSystem) : sinkSystem := mkSystem w (sy_held s) (sy_results s) (sy_births s).

(** The instance runs, and its context has not ended. *)
Definition probes_now (inst : liveSink) (m : SinkManager Config) : bool :=
  match sm_insts m !! ls_id inst with
  | Some i => String.eqb (in_name i) (ls_name inst) && negb (cancelled i) && ls_prober inst
  | None => false
  end.

Definition context_ended (id : nat) (m : SinkManager Config) : bool :=
  match sm_insts m !! id with Some i => cancelled i | None => false end.

Definition sink_event (ev : sinkEvent) (s : sinkSystem) : option sinkSystem :=
  let w := sy_world s in
  match ev with
  | SPass factory resync name e =>
      Some (mkSystem (pass factory resync name e w).1 (sy_held s) (sy_results s)
        (match se_sink e with NotFound => <[name := length (sm_insts (kw_runtime w))]> (sy_births s) | _ => sy_births s end))
  | SProbe inst at_ ping conn cw =>
      if probes_now inst (kw_runtime w)
      then Some (mkSystem w (sy_held s ++ [(ls_id inst, probe inst at_ (Probe ping conn cw))]) (sy_results s) (sy_births s))
      else None
  | SPost i =>
      p ← sy_held s !! i; results ← postResult resultBuffer p (sy_results s);
      Some (mkSystem w (delete i (sy_held s)) results (sy_births s))
  | SDrop i =>
      p ← sy_held s !! i;
      if context_ended p.1 (kw_runtime w) then Some (mkSystem w (delete i (sy_held s)) (sy_results s) (sy_births s)) else None
  | SRecord p =>
      match sy_results s with
      | q :: rest =>
          if decide (p = q) then Some (mkSystem (probeWatcher_result p.2 w).1 (sy_held s) rest (sy_births s)) else None
      | [] => None
      end
  | SManager op =>
      if own_step op then (fun m => set_world (set_runtime m w) s) <$> manager_op op (kw_runtime w) else None
  end.

Fixpoint sink_run (evs : list sinkEvent) (s : sinkSystem) : option sinkSystem :=
  match evs with
  | [] => Some s
  | ev :: rest => s' ← sink_event ev s; sink_run rest s'
  end.

Definition newSinkWorld : world := mkSinkWorld newManager newProbeStore [] [].
Definition newSinkSystem : sinkSystem := mkSystem newSinkWorld [] [] ∅.

(** The number of instances started when the sink was last found gone. *)
Definition birth (name : string) (s : sinkSystem) : nat := default 0%nat (sy_births s !! name).

(** No result is recorded that an instance of a sink's earlier life gave: the watcher
    has taken what such instances posted by the time the sink is found gone. *)
Fixpoint timely (evs : list sinkEvent) (s : sinkSystem) : Prop :=
  match evs with
  | [] => True
  | ev :: rest =>
      match ev with SRecord p => (birth (pr_Sink p.2) s <= p.1)%nat | _ => True end /\
      match sink_event ev s with Some s' => timely rest s' | None => True end
  end.

(** An invariant that may speak of the events so far. *)
Lemma sink_run_ind (P : list sinkEvent -> sinkSystem -> Prop) :
  P [] newSinkSystem ->
  (forall evs s ev s', P evs s -> sink_event ev s = Some s' -> P (evs ++ [ev]) s') ->
  forall evs s, sink_run evs newSinkSystem = Some s -> P evs s.
Proof.
  intros H0 HS.
  assert (Hgo : forall evs past s s', P past s -> sink_run evs s = Some s' -> P (past ++ evs) s').
  { induction evs as [|ev evs IH]; intros past s s' HP; simpl; [rewrite app_nil_r; congruence|].
    destruct (sink_event ev s) as [s1|] eqn:E; simpl; [|done]. intros Hr.
    rewrite (cons_middle ev past evs), app_assoc. eapply IH; [|exact Hr]. by eapply HS. }
  intros evs s. by apply (Hgo evs []).
Qed.

Lemma sink_run_snoc evs ev s s2 :
  sink_run (evs ++ [ev]) s = Some s2 -> exists s1, sink_run evs s = Some s1 /\ sink_event ev s1 = Some s2.
Proof.
  revert s. induction evs as [|ev' evs IH]; intros s; cbn [app sink_run].
  - intros (s1 & E & [= ->])%bind_Some. by exists s.
  - intros (s1 & E & Hr)%bind_Some. destruct (IH _ Hr) as (s3 & Hs3 & He3). exists s3. by rewrite E.
Qed.

Lemma timely_snoc evs ev s s1 :
  sink_run evs s = Some s1 -> timely (evs ++ [ev]) s ->
  timely evs s /\ match ev with SRecord p => (birth (pr_Sink p.2) s1 <= p.1)%nat | _ => True end.
Proof.
  revert s. induction evs as [|ev' evs IH]; intros s; cbn [app sink_run timely].
  - intros [= ->] [Hx _]. done.
  - intros (s2 & E & Hr)%bind_Some [Hx Hy]. rewrite E in Hy |- *. destruct (IH _ Hr Hy). done.
Qed.

(** ** What a pass does to the store *)

Lemma pass_probes factory resync name e w :
  kw_probes (pass factory resync name e w).1 =
  match se_sink e with NotFound => store_forget name (kw_probes w) | _ => kw_probes w end.
Proof.
  unfold pass, sink_Reconcile. destruct (se_sink e) as [chSink| |err]; [|done..].
  destruct (match resolveCredential _ _ _ with inl _ => _ | inr _ => _ end) as [rt [err|]]; [done|].
  destruct (sink_status _ _ _ _ _) as [status ready]. by destruct (updateStatus _ _ _).
Qed.

(** An event that neither records a result of the sink nor finds it gone. *)
Definition silent (name : string) (ev : sinkEvent) : Prop :=
  match ev with
  | SRecord p => pr_Sink p.2 <> name
  | SPass _ _ n e => match se_sink e with NotFound => n <> name | _ => True end
  | _ => True
  end.

(** The answer behind the last result recorded for the sink since it was last gone,
    if any: an attempt of an instance of that name, built since. *)
Definition last_probe (name : string) (evs : list sinkEvent) (s : sinkSystem) (v : option (option probeError)) : Prop :=
  match v with
  | None =>
      Forall (silent name) evs \/
      exists before f resync e after,
        evs = before ++ SPass f resync name e :: after /\ se_sink e = NotFound /\ Forall (silent name) after
  | Some a =>
      exists before inst at_ ping conn cw after,
        evs = before ++ SRecord (ls_id inst, probe inst at_ a) :: after /\ Forall (silent name) after /\
        SProbe inst at_ ping conn cw ∈ before /\ a = Probe ping conn cw /\
        ls_name inst = name /\ (birth name s <= ls_id inst)%nat
  end.

Lemma last_probe_silent name evs s ev s' v :
  silent name ev -> birth name s' = birth name s -> last_probe name evs s v -> last_probe name (evs ++ [ev]) s' v.
Proof.
  intros Hs Hb. destruct v as [a|]; cbn [last_probe].
  - intros (before & inst & at_ & ping & conn & cw & after & -> & Ha & Hx). rewrite <- Hb in Hx.
    exists before, inst, at_, ping, conn, cw, (after ++ [ev]). rewrite <- app_assoc. split; [done|]. split; [|done].
    apply Forall_app. by repeat constructor.
  - intros [Ha|(before & f & resync & e & after & -> & He & Ha)]; [left; apply Forall_app; by repeat constructor|].
    right. exists before, f, resync, e, (after ++ [ev]). rewrite <- app_assoc. split; [done|]. split; [done|].
    apply Forall_app. by repeat constructor.
Qed.

(** A stored result carries that answer. *)
Definition answers (latest : option ProbeResult) (v : option (option probeError)) : Prop :=
  match v with None => latest = None | Some a => exists inst at_, latest = Some (probe inst at_ a) end.

Lemma probe_sink inst at_ a : pr_Sink (probe inst at_ a) = ls_name inst.
Proof. by destruct a. Qed.

(** What waits to be posted or recorded was probed. *)
Lemma waiting_probed evs s :
  sink_run evs newSinkSystem = Some s ->
  forall p, p ∈ sy_held s \/ p ∈ sy_results s ->
    exists inst at_ ping conn cw, SProbe inst at_ ping conn cw ∈ evs /\ p = (ls_id inst, probe inst at_ (Probe ping conn cw)).
Proof.
  revert evs s. apply (sink_run_ind (fun evs s => forall p, p ∈ sy_held s \/ p ∈ sy_results s -> _)).
  { intros p [Hx%elem_of_nil|Hx%elem_of_nil]; done. }
  intros evs s ev s' IH E p Hp.
  enough (p ∈ sy_held s \/ p ∈ sy_results s \/
    exists inst at_ ping conn cw, ev = SProbe inst at_ ping conn cw /\ p = (ls_id inst, probe inst at_ (Probe ping conn cw))) as Hin.
  { destruct Hin as [Hin|[Hin|(inst & at_ & ping & conn & cw & -> & ->)]].
    1-2: destruct (IH p) as (inst & at_ & ping & conn & cw & Hi & ->); [tauto|];
      exists inst, at_, ping, conn, cw; split; [apply elem_of_app; by left|done].
    exists inst, at_, ping, conn, cw. split; [apply elem_of_app; right; by left|done]. }
  destruct ev as [f resync n e|inst at_ ping conn cw|i|i|q|op]; cbn [sink_event] in E.
  - injection E as <-. cbn in Hp. tauto.
  - destruct (probes_now inst _); [|done]. injection E as <-. cbn [sy_held sy_results] in Hp.
    rewrite elem_of_app, list_elem_of_singleton in Hp. destruct Hp as [[Hp| ->]|Hp]; [tauto| |tauto]. right. right. by repeat eexists.
  - apply bind_Some in E as (q & Hq & E). apply bind_Some in E as (results & Er & E). injection E as <-. cbn [sy_held sy_results] in Hp.
    apply list_elem_of_lookup_2 in Hq. unfold postResult in Er. destruct (Nat.ltb _ _); [|done]. injection Er as <-.
    rewrite elem_of_app, list_elem_of_singleton in Hp. destruct Hp as [Hp|[Hp| ->]]; [|tauto|tauto].
    left. by apply list_elem_of_delete_inv in Hp.
  - apply bind_Some in E as (q & Hq & E). destruct (context_ended _ _); [|done]. injection E as <-. cbn [sy_held sy_results] in Hp.
    destruct Hp as [Hp|Hp]; [|tauto]. left. by apply list_elem_of_delete_inv in Hp.
  - destruct (sy_results s) as [|q' rest] eqn:Es; [done|]. destruct (decide _) as [->|]; [|done]. injection E as <-.
    cbn [sy_held sy_results] in Hp. rewrite elem_of_cons. tauto.
  - destruct (own_step op); [|done]. apply fmap_Some in E as (m & _ & ->). cbn in Hp. tauto.
Qed.

Lemma store_holds_last evs s name :
  sink_run evs newSinkSystem = Some s -> timely evs newSinkSystem ->
  exists v, last_probe name evs s v /\ answers (store_latest name (kw_probes (sy_world s))) v.
Proof.
  revert s. induction evs as [|ev evs IH] using rev_ind; intros s'.
  { intros [= <-] _. exists None. split; [left; constructor|]. apply lookup_empty. }
  intros (s & Hr & E)%sink_run_snoc Ht. destruct (timely_snoc _ _ _ _ Hr Ht) as [Ht' Hrec].
  destruct (IH s Hr Ht') as (v & Hv & Ha).
  assert (Hsame : silent name ev -> birth name s' = birth name s -> store_latest name (kw_probes (sy_world s')) = store_latest name (kw_probes (sy_world s)) ->
    exists v, last_probe name (evs ++ [ev]) s' v /\ answers (store_latest name (kw_probes (sy_world s'))) v).
  { intros Hs Hb Hst. exists v. rewrite Hst. split; [by eapply last_probe_silent|done]. }
  destruct ev as [factory resync n e|inst at_ ping conn cw|i|i|p|op]; cbn [sink_event] in E.
  - injection E as <-. cbn [sy_world] in *. rewrite pass_probes in *. unfold birth in *. cbn [sy_births silent] in *.
    destruct (se_sink e) as [ch| |err] eqn:Es; [by apply Hsame| |by apply Hsame].
    destruct (decide (n = name)) as [->|Hne].
    + exists None. split; [|apply lookup_delete_eq]. right. exists evs, factory, resync, e, []. done.
    + apply Hsame; [done|by rewrite lookup_insert_ne|]. unfold store_latest, store_forget. by rewrite lookup_delete_ne.
  - destruct (probes_now inst _); [|done]. injection E as <-. by apply Hsame.
  - apply bind_Some in E as (q & _ & E). apply bind_Some in E as (results & _ & E). injection E as <-. by apply Hsame.
  - apply bind_Some in E as (q & _ & E). destruct (context_ended _ _); [|done]. injection E as <-. by apply Hsame.
  - destruct (sy_results s) as [|q rest] eqn:Es; [done|]. destruct (decide _) as [<-|]; [|done]. injection E as <-.
    destruct (waiting_probed _ _ Hr p) as (inst & at_ & ping & conn & cw & Hin & ->); [right; rewrite Es; by left|].
    cbn [snd fst] in *. rewrite probe_sink in Hrec.
    destruct (decide (ls_name inst = name)) as [<-|Hne].
    + exists (Some (Probe ping conn cw)). cbn [last_probe]. split.
      * exists evs, inst, at_, ping, conn, cw, []. split_and!; done.
      * exists inst, at_. cbn. unfold store_latest, store_record. by rewrite probe_sink, lookup_insert_eq.
    + apply Hsame; [cbn; by rewrite probe_sink|done|]. cbn. unfold store_latest, store_record. by rewrite probe_sink, lookup_insert_ne.
  - destruct (own_step op); [|done]. apply fmap_Some in E as (m & _ & ->). by apply Hsame.
Qed.

(** ** What a pass writes *)

(** Status and reason of CredentialsResolved, SchemaValid and Ready. *)
Record health := mkHealth { h_cred : string * string; h_schema : string * string; h_ready : string * string }.

Definition health_of (cred : string + credentialError) (v : option (option probeError)) : health :=
  match cred, v with
  | inr e, _ => mkHealth (ConditionFalse, ce_reason e) (ConditionUnknown, ReasonCredentialsUnavailable) (ConditionFalse, ce_reason e)
  | inl _, None =>
      mkHealth (ConditionTrue, ReasonSecretResolved) (ConditionUnknown, ReasonProbePending) (ConditionUnknown, ReasonProbePending)
  | inl _, Some None =>
      mkHealth (ConditionTrue, ReasonSecretResolved) (ConditionTrue, ReasonSchemaMatches) (ConditionTrue, ReasonConnected)
  | inl _, Some (Some e) =>
      if pe_schema e
      then mkHealth (ConditionTrue, ReasonSecretResolved) (ConditionFalse, ProbeReasonSchemaInvalid) (ConditionFalse, ProbeReasonSchemaInvalid)
      else mkHealth (ConditionTrue, ReasonSecretResolved) (ConditionUnknown, ProbeReasonUnreachable) (ConditionFalse, ProbeReasonUnreachable)
  end.

Definition shows (cs : list Condition) (t : string) (sr : string * string) : Prop :=
  exists c, findCondition cs t = Some c /\ c_Status c = sr.1 /\ c_Reason c = sr.2.

Definition shows_health (cs : list Condition) (h : health) : Prop :=
  shows cs ConditionCredentialsResolved (h_cred h) /\ shows cs ConditionSchemaValid (h_schema h) /\
  shows cs ConditionReady (h_ready h).


Lemma shows_set now t s r m w : shows (sw_conditions (status_set now t s r m w)) t (s, r).
Proof. destruct (find_status_set now t s r m w) as (c & Hc & Hs & Hr & _). by exists c. Qed.

Lemma shows_set_other now t s r m w t' sr :
  t' <> t -> shows (sw_conditions w) t' sr -> shows (sw_conditions (status_set now t s r m w)) t' sr.
Proof. intros Hne. unfold shows. by rewrite find_status_set_other. Qed.

Lemma shows_apply now w ex t sr :
  NoDup (c_Type <$> sw_conditions w) -> shows (sw_conditions w) t sr -> shows (status_apply now w ex) t sr.
Proof.
  intros Hnd (c & Hc & Hs & Hr). pose proof (find_status_apply now w ex t Hnd) as Ha. rewrite Hc in Ha.
  destruct Ha as (c' & Hc' & Hs' & Hr' & _). exists c'. split; [done|]. split; congruence.
Qed.

(** The roll-up of two conditions that are set. *)
Lemma readyFor_two u w cr sc tr tm :
  shows (sw_conditions w) ConditionCredentialsResolved cr -> shows (sw_conditions w) ConditionSchemaValid sc ->
  let down (s r : string) := if String.eqb s ConditionUnknown && String.eqb r u then ConditionFalse else s in
  let ready := readyFor u w ConditionReady sinkReadyOrder tr tm in
  (c_Status ready, c_Reason ready) =
    if negb (String.eqb cr.1 ConditionTrue) then (down cr.1 cr.2, cr.2)
    else if negb (String.eqb sc.1 ConditionTrue) then (down sc.1 sc.2, sc.2)
    else (ConditionTrue, tr).
Proof.
  intros (c & Hc & <- & <-) (d & Hd & <- & <-). cbn [readyFor sinkReadyOrder]. rewrite Hc, Hd.
  destruct (String.eqb (c_Status c) ConditionTrue); [|reflexivity].
  destruct (String.eqb (c_Status d) ConditionTrue); reflexivity.
Qed.

Definition base_status (now : Z) (chSink : ClickHouseSink) (cred : string + credentialError) : statusWriter :=
  let status := newStatusWriter (om_Generation (sk_meta chSink)) in
  match cred with
  | inr err => status_set now ConditionCredentialsResolved ConditionFalse (ce_reason err) (ce_message err) status
  | inl _ => status_set now ConditionCredentialsResolved ConditionTrue ReasonSecretResolved
               ("Read the password from Secret " +:+ ref_text (secretRef OperatorNamespace chSink)) status
  end.

Definition health_status now chSink cred latest : statusWriter :=
  setHealthConditions now (match cred with inr err => Some err | inl _ => None end) latest (base_status now chSink cred).

Lemma health_status_shows now chSink cred latest v :
  answers latest v ->
  let w := health_status now chSink cred latest in
  shows (sw_conditions w) ConditionCredentialsResolved (h_cred (health_of cred v)) /\
  shows (sw_conditions w) ConditionSchemaValid (h_schema (health_of cred v)) /\
  NoDup (c_Type <$> sw_conditions w).
Proof.
  intros Hv. assert (Hb : forall t s r m c, shows (sw_conditions (base_status now chSink cred)) ConditionCredentialsResolved c ->
    t = ConditionSchemaValid -> let w := status_set now t s r m (base_status now chSink cred) in
    shows (sw_conditions w) ConditionCredentialsResolved c /\ shows (sw_conditions w) ConditionSchemaValid (s, r) /\
    NoDup (c_Type <$> sw_conditions w)).
  { intros t s r m c Hc -> w. split; [by apply shows_set_other|]. split; [apply shows_set|].
    apply status_set_unique. destruct cred; apply status_set_unique; constructor. }
  unfold health_status. destruct cred as [password|err]; cbn [base_status setHealthConditions].
  - assert (Hc : shows (sw_conditions (base_status now chSink (inl password))) ConditionCredentialsResolved
      (ConditionTrue, ReasonSecretResolved)) by apply shows_set.
    destruct v as [[e|]|]; cbn [answers] in Hv; [|by destruct Hv as (? & ? & ->); apply Hb|by rewrite Hv; apply Hb].
    destruct Hv as (? & ? & ->). cbn [health_of probe pr_Err pr_Reason]. destruct (pe_schema e); by apply Hb.
  - apply Hb; [apply shows_set|done].
Qed.

Lemma sink_status_shows now chSink cred latest v ex :
  answers latest v ->
  let '(status, ready) := sink_status OperatorNamespace now chSink cred latest in
  shows_health (status_apply now status ex) (health_of cred v) /\
  (c_Status ready, c_Reason ready) = h_ready (health_of cred v).
Proof.
  intros Hv. unfold sink_status. cbv zeta. fold (base_status now chSink cred). fold (health_status now chSink cred latest).
  destruct (health_status_shows now chSink cred latest v Hv) as (Hc & Hs & Hnd).
  set (w := health_status now chSink cred latest) in *.
  pose proof (readyFor_two ProbeReasonUnreachable w _ _ ReasonConnected
    "ClickHouse is reachable, authenticated and carries the expected schema" Hc Hs) as Hr. cbv zeta in Hr.
  set (ready := readyFor _ _ _ _ _ _) in *.
  assert (E : (c_Status ready, c_Reason ready) = h_ready (health_of cred v)).
  { rewrite Hr. destruct cred as [password|err]; [|reflexivity]. destruct v as [[e|]|]; [|reflexivity..].
    cbn [health_of]. by destruct (pe_schema e). }
  split; [|done]. unfold shows_health. rewrite <- E.
  assert (Hnd' : NoDup (c_Type <$> sw_conditions (status_set now ConditionReady (c_Status ready) (c_Reason ready) (c_Message ready) w)))
    by by apply status_set_unique.
  split; [|split]; apply shows_apply; try done; [by apply shows_set_other..|apply shows_set].
Qed.

Lemma health_generation now credErr latest w : sw_generation (setHealthConditions now credErr latest w) = sw_generation w.
Proof.
  unfold setHealthConditions. destruct credErr; [done|]. destruct latest as [r|]; [|done]. destruct (pr_Err r); [|done].
  by destruct (String.eqb _ _).
Qed.

Lemma sink_status_generation now chSink cred latest :
  sw_generation (sink_status OperatorNamespace now chSink cred latest).1 = om_Generation (sk_meta chSink).
Proof. unfold sink_status. cbn [fst status_set sw_generation]. rewrite health_generation. by destruct cred. Qed.

Lemma updateStatus_ok {A} (f : A -> A) first later r :
  updateStatus f first later = Ok r -> exists fresh, r = f fresh.
Proof.
  revert first. induction later as [|a later IH]; intros first; simpl.
  - destruct (sa_get first) as [fresh|[err []]]; [|done..]. destruct (sa_update first) as [[err []]|]; [done..|].
    intros [= <-]. by exists fresh.
  - destruct (sa_get first) as [fresh|[err []]]; [|by apply IH|done].
    destruct (sa_update first) as [[err []]|]; [by apply IH|done|]. intros [= <-]. by exists fresh.
Qed.

Lemma Probe_none ping conn cw :
  Probe ping conn cw = None -> cw_closing cw = false /\ ping = None /\ validateSchema conn (kn_database (cw_knobs cw)) = None.
Proof.
  unfold Probe. destruct (cw_closing cw); [done|]. destruct ping; [done|].
  by destruct (validateSchema conn (kn_database (cw_knobs cw))) as [[]|].
Qed.

Lemma health_ready cred v : (h_ready (health_of cred v)).1 = ConditionTrue -> exists password, cred = inl password /\ v = Some None.
Proof. destruct cred as [p|err]; [|done]. destruct v as [[pe|]|]; [by cbn; destruct (pe_schema pe)|by exists p|done]. Qed.

(** C10. The health a sink reports is the truth about its credential and its last
    probe. Take any interleaving of reconcile passes, probe attempts, posts, the
    watcher's turns and steps of the sink manager in which no result of a deleted
    sink's instance is recorded once the sink was found gone. Then a pass over an
    existing sink that ends in a requeue has written one status; its
    CredentialsResolved, SchemaValid and Ready conditions are exactly those of the
    credential this pass read and of the attempt whose result was recorded last for
    that sink, of an instance built since the sink was last gone: an unreadable
    password shows its own reason and hides the schema's verdict, a sink for which
    nothing was recorded since is pending, a schema mismatch and an unreachable backend
    are told apart and both make the sink not ready. And when Ready is true, the
    password was read, and that attempt reached an open connection whose tables had
    every required column with its type. *)
Theorem sink_health_truthful evs s factory resync name e chSink period :
  sink_run evs newSinkSystem = Some s -> timely evs newSinkSystem -> se_sink e = Found chSink ->
  (pass factory resync name e (sy_world s)).2 = SinkRequeueAfter period ->
  let sink := om_Name (sk_meta chSink) in
  let cred := resolveCredential OperatorNamespace e chSink in
  exists written v,
    kw_written (pass factory resync name e (sy_world s)).1 = kw_written (sy_world s) ++ [written] /\
    last_probe sink evs s v /\
    shows_health (sst_Conditions (sk_Status written)) (health_of cred v) /\
    sst_ObservedGeneration (sk_Status written) = om_Generation (sk_meta chSink) /\
    ((h_ready (health_of cred v)).1 = ConditionTrue ->
       (exists password, cred = inl password) /\
       exists inst at_ conn cw, SProbe inst at_ None conn cw ∈ evs /\ ls_name inst = sink /\ (birth sink s <= ls_id inst)%nat /\
         cw_closing cw = false /\ validateSchema conn (kn_database (cw_knobs cw)) = None).
Proof.
  intros Hr Ht He. cbv zeta. unfold pass, sink_Reconcile. rewrite He.
  destruct (match resolveCredential _ _ _ with inl _ => _ | inr _ => _ end) as [rt [err|]]; [done|].
  destruct (store_holds_last evs s (om_Name (sk_meta chSink)) Hr Ht) as (v & Hv & Ha).
  pose proof (fun ex => sink_status_shows (se_now e) chSink (resolveCredential OperatorNamespace e chSink) _ v ex Ha) as Hs.
  destruct (sink_status _ _ _ _ _) as [status ready] eqn:E.
  pose proof (sink_status_generation (se_now e) chSink (resolveCredential OperatorNamespace e chSink)
    (store_latest (om_Name (sk_meta chSink)) (kw_probes (sy_world s)))) as Hg. rewrite E in Hg.
  destruct (updateStatus _ _ _) as [written|err] eqn:Eu; [|done]. intros _.
  apply updateStatus_ok in Eu as (fresh & ->). eexists _, v. split; [reflexivity|]. split; [exact Hv|].
  cbn [write_sink_status sk_Status sst_Conditions]. split; [apply Hs|]. split; [exact Hg|].
  intros Hready. apply health_ready in Hready as (p & Hp & ->). split; [by exists p|].
  destruct Hv as (before & inst & at_ & ping & conn & cw & after & -> & _ & Hin & Hpr & Hn & Hb).
  symmetry in Hpr. apply Probe_none in Hpr as (Hc & -> & Hsc). exists inst, at_, conn, cw. split_and!; try done.
  apply elem_of_app. by left.
Qed.

(** ** What runs *)

(** A pass of the run read this configuration: the password from the Secret the
    sink names, the rest from its spec. *)
Definition read_config (evs : list sinkEvent) (name : string) (cfg : Config) : Prop :=
  exists factory resync n e chSink data password,
    SPass factory resync n e ∈ evs /\ se_sink e = Found chSink /\ om_Name (sk_meta chSink) = name /\
    se_secret e (secretRef OperatorNamespace chSink) = Found data /\ data !! DefaultCredentialsSecretKey = Some password /\
    password <> "" /\ build name (sk_Spec chSink) password = Ok (Some cfg).

(** An instance is what some factory made of a configuration. *)
Definition built_from (name : string) (cfg : Config) (i : liveSink) : Prop :=
  exists (factory : string -> Config -> result backend) b,
    factory name cfg = Ok b /\ i = newLiveSink name (Fingerprint cfg) (ls_id i) b.

Definition holds_only (P : string -> Config -> Prop) (m : SinkManager Config) : Prop :=
  (forall name cfg, sm_pending m !! name = Some cfg -> P name cfg) /\
  (forall name i, sm_live m !! name = Some i -> exists cfg, P name cfg /\ built_from name cfg i).

Lemma holds_ensureLocked P factory name cfg m :
  P name cfg -> holds_only P m -> holds_only P (ensureLocked factory name cfg m).1.
Proof.
  intros HP [Hp Hl]. pose proof (ensureLocked_cases factory name cfg m) as Hc. cbv zeta in Hc.
  destruct (decide _); [by rewrite Hc|]. destruct (factory name cfg) as [b|err] eqn:Eb; [|destruct Hc as [? Hc]; by rewrite Hc].
  rewrite Hc. split; [exact Hp|]. intros n' i. cbn [fst installed sm_live].
  intros [[<- <-]|[_ Hi]]%lookup_insert_Some; [|by apply Hl]. exists cfg. split; [done|]. by exists factory, b.
Qed.

Lemma holds_pending P factory pending names m :
  (forall name cfg, pending !! name = Some cfg -> P name cfg) -> holds_only P m ->
  holds_only P (ensure_pending factory pending names m).
Proof.
  intros HP. revert m. induction names as [|n names IH]; intros m Hm; [done|]. cbn [ensure_pending]. apply IH.
  destruct (pending !! n) as [cfg|] eqn:E; [|done]. apply holds_ensureLocked; [by apply HP|done].
Qed.

Lemma holds_step P op m m' : own_step op = true -> holds_only P m -> manager_op op m = Some m' -> holds_only P m'.
Proof.
  intros Ho [Hp Hl] E. destruct op as [| |factory| | |te i|id]; [done|done|..]; cbn [manager_op] in E.
  - destruct (sm_started m); [done|]. injection E as <-. apply holds_pending; [done|].
    split; [|done]. intros ? ?. cbn. by rewrite lookup_empty.
  - destruct (sm_started m); [|done]. by injection E as <-.
  - destruct (_ && _); [|done]. injection E as <-. split; [done|]. intros ? ?. cbn. by rewrite lookup_empty.
  - unfold tail_step, parkDependents in E. repeat case_match; simplify_eq; by split.
  - by injection E as <-.
Qed.

Lemma holds_Ensure P factory name cfg m : P name cfg -> holds_only P m -> holds_only P (Ensure factory name (Some cfg) m).1.
Proof.
  intros HP [Hp Hl]. unfold Ensure. destruct (String.eqb name ""); [done|]. destruct (sm_stopped m); [done|].
  destruct (sm_started m); cbn [negb]; [by apply holds_ensureLocked|]. split; [|done].
  intros n c. cbn. by intros [[<- <-]|[_ Hi]]%lookup_insert_Some; [|apply Hp].
Qed.

Lemma holds_Delete P name m : holds_only P m -> holds_only P (Delete name m).
Proof.
  intros [Hp Hl]. unfold Delete. destruct (sm_stopped m); [done|]. split.
  - intros n c. cbn. destruct (sm_live m !! name); cbn; intros [_ Hc]%lookup_delete_Some; by apply Hp.
  - intros n i. cbn. destruct (sm_live m !! name) eqn:E; cbn; [|by apply Hl].
    destruct (decide (n = name)) as [->|Hne]; [by rewrite lookup_partial_alter_eq|].
    rewrite lookup_partial_alter_ne by done. by apply Hl.
Qed.

Lemma resolveCredential_read e chSink password :
  resolveCredential OperatorNamespace e chSink = inl password ->
  exists data, se_secret e (secretRef OperatorNamespace chSink) = Found data /\
    data !! DefaultCredentialsSecretKey = Some password /\ password <> "".
Proof.
  unfold resolveCredential. destruct (se_secret _ _) as [data| |] eqn:Es; [|done..].
  destruct (data !! DefaultCredentialsSecretKey) as [[|a s]|] eqn:Ed; [done| |done]. intros [= <-]. by exists data.
Qed.

(** The manager after a pass. *)
Lemma pass_runtime factory resync name e w :
  kw_runtime (pass factory resync name e w).1 =
  match se_sink e with
  | NotFound => Delete name (kw_runtime w)
  | GetFailed _ => kw_runtime w
  | Found chSink =>
      match resolveCredential OperatorNamespace e chSink with
      | inr _ => kw_runtime w
      | inl password => (declare_sink (RT := manager_runtime factory) build chSink password (kw_runtime w)).1
      end
  end.
Proof.
  unfold pass, sink_Reconcile. destruct (se_sink e) as [chSink| |err]; [|done..].
  destruct (resolveCredential _ _ _) as [password|err].
  - destruct (declare_sink _ _ _ _) as [rt [err|]]; [done|].
    destruct (sink_status _ _ _ _ _) as [status ready]. by destruct (updateStatus _ _ _).
  - destruct (sink_status _ _ _ _ _) as [status ready]. by destruct (updateStatus _ _ _).
Qed.

Lemma holds_mono (P Q : string -> Config -> Prop) m : (forall n c, P n c -> Q n c) -> holds_only P m -> holds_only Q m.
Proof.
  intros HPQ [Hp Hl]. split; [by intros; apply HPQ, Hp|]. intros n i Hi. destruct (Hl n i Hi) as (cfg & HP & Hb).
  exists cfg. split; [by apply HPQ|done].
Qed.

Lemma read_config_later evs ev name cfg : read_config evs name cfg -> read_config (evs ++ [ev]) name cfg.
Proof.
  intros (f & r & n & e & ch & d & p & Hin & Hrest). exists f, r, n, e, ch, d, p. split; [|exact Hrest].
  apply elem_of_app. by left.
Qed.

(** No instance without a password that was read. After any interleaving of
    passes, probes and manager steps, every configuration the manager holds for its
    start, and the configuration behind every instance it routes to, is the one the
    builder made for that very sink, from the spec a pass saw and a non-empty
    password found under the password key of the Secret the sink refers to, in the
    operator's namespace unless the reference names another; the instance is what a
    factory returned for that configuration. So a sink whose Secret is missing,
    unreadable or blank is never started. *)
Lemma instances_hold_read_credentials evs s :
  sink_run evs newSinkSystem = Some s -> holds_only (read_config evs) (kw_runtime (sy_world s)).
Proof.
  revert evs s. apply sink_run_ind.
  { split; intros ? ?; cbn; by rewrite lookup_empty. }
  intros evs s ev s' IH E. pose proof (holds_mono _ _ _ (read_config_later evs ev) IH) as Hm.
  destruct ev as [factory resync n e|inst at_ ping conn cw|i|i|p|op]; cbn [sink_event] in E.
  - injection E as <-. cbn [sy_world]. rewrite pass_runtime. destruct (se_sink e) as [chSink| |err] eqn:Es; [|by apply holds_Delete|done].
    destruct (resolveCredential _ _ _) as [password|err] eqn:Ec; [|done].
    apply resolveCredential_read in Ec as (data & Hs & Hd & Hne).
    unfold declare_sink. cbv zeta. destruct (build _ _ _) as [[cfg|]|] eqn:Eb; [|done..].
    apply holds_Ensure; [|done]. exists factory, resync, n, e, chSink, data, password.
    split; [apply elem_of_app; right; by left|done].
  - destruct (probes_now inst _); [|done]. by injection E as <-.
  - apply bind_Some in E as (q & _ & E). apply bind_Some in E as (results & _ & E). by injection E as <-.
  - apply bind_Some in E as (q & _ & E). destruct (context_ended _ _); [|done]. by injection E as <-.
  - destruct (sy_results s) as [|q rest]; [done|]. destruct (decide _); [|done]. by injection E as <-.
  - destruct (own_step op) eqn:Eo; [|done]. apply fmap_Some in E as (m & Em & ->). by eapply holds_step.
Qed.

(** What an instance is run with: every setting of a sink's spec, with the fallback
    where it has one, and the password; durations as they are printed. *)
Definition same_declared (spec spec0 : ClickHouseSinkSpec) (password password0 : string) : Prop :=
  let cn := ss_Connection spec in let cn0 := ss_Connection spec0 in
  let ws := ss_Writer spec in let ws0 := ss_Writer spec0 in
  let lasts (d d0 : option Z) (def : Z) := Duration_String (default def d) = Duration_String (default def d0) in
  let counts (n n0 : option Z) (def : Z) := default def n = default def n0 in
  cn_Addr cn = cn_Addr cn0 /\ cn_Database cn = cn_Database cn0 /\ cn_Username cn = cn_Username cn0 /\ password = password0 /\
  lasts (cn_DialTimeout cn) (cn_DialTimeout cn0) defaultSinkDialTimeout /\
  lasts (cn_ReadTimeout cn) (cn_ReadTimeout cn0) defaultSinkReadTimeout /\
  counts (ws_BatchMaxRows ws) (ws_BatchMaxRows ws0) (wt_batchMaxRows defaults) /\
  lasts (ws_BatchMaxWait ws) (ws_BatchMaxWait ws0) (wt_batchMaxWait defaults) /\
  counts (ws_QueueSize ws) (ws_QueueSize ws0) (wt_queueSize defaults) /\
  counts (ws_Workers ws) (ws_Workers ws0) (wt_workers defaults) /\
  lasts (ws_EnqueueTimeout ws) (ws_EnqueueTimeout ws0) (wt_enqueueTimeout defaults) /\
  lasts (ws_DrainTimeout ws) (ws_DrainTimeout ws0) (wt_drainTimeout defaults) /\
  counts (ws_CheckpointEvery ws) (ws_CheckpointEvery ws0) DefaultCheckpointEvery.

Lemma same_declared_text name spec spec0 password password0 cfg cfg0 :
  build name spec password = Ok (Some cfg) -> build name spec0 password0 = Ok (Some cfg0) ->
  same_declared spec spec0 password password0 <-> fingerprint_text cfg = fingerprint_text cfg0.
Proof.
  unfold newSinkConfigBuilder, durationOrDefault, intOrDefault. intros [= <-] [= <-]. split.
  - intros (E1 & E2 & E3 & E4 & E5 & E6 & E7 & E8 & E9 & E10 & E11 & E12 & E13). unfold fingerprint_text. cbn.
    by rewrite E1, E2, E3, E4, E5, E6, E7, E8, E9, E10, E11, E12, E13.
  - intros E. apply fingerprint_text_inj in E. unfold same_settings in E. cbn in E. unfold same_declared. tauto.
Qed.

(** C27. Rotation. Take a running manager that routes a sink to an instance whose
    fingerprint is that of what one spec and password build, and a pass that reads a
    spec and a password for that sink; the factory builds an instance from the
    configuration they make. If every setting of the spec, with its fallback, and the
    password are what they were, the manager is left exactly as it was: a resync never
    restarts a sink. If any of them changed, the password alone included, then either
    SHA-256 collides on two distinct texts, or the sink is routed to a fresh instance,
    the one the factory built from the new configuration, started from then on, while
    the old one is handed to a goroutine that will cancel and drain it; no other
    sink's routing changes. *)
Theorem rotation_recycles (w : world) factory resync name e chSink data password old spec0 password0 cfg0 b :
  sm_started (kw_runtime w) = true -> sm_stopped (kw_runtime w) = false ->
  sm_live (kw_runtime w) !! name = Some old ->
  build name spec0 password0 = Ok (Some cfg0) -> ls_fingerprint old = Fingerprint cfg0 ->
  se_sink e = Found chSink -> om_Name (sk_meta chSink) = name -> name <> "" ->
  se_secret e (secretRef OperatorNamespace chSink) = Found data ->
  data !! DefaultCredentialsSecretKey = Some password -> password <> "" ->
  (forall cfg, build name (sk_Spec chSink) password = Ok (Some cfg) -> factory name cfg = Ok b) ->
  let m' := kw_runtime (pass factory resync name e w).1 in
  (same_declared (sk_Spec chSink) spec0 password password0 -> m' = kw_runtime w) /\
  (~ same_declared (sk_Spec chSink) spec0 password password0 ->
     exists cfg, build name (sk_Spec chSink) password = Ok (Some cfg) /\ cf_Password cfg = password /\
     ((fingerprint_text cfg <> fingerprint_text cfg0 /\ sha256_hex (fingerprint_text cfg) = sha256_hex (fingerprint_text cfg0)) \/
      (let id := length (sm_insts (kw_runtime w)) in
       sm_live m' = <[name := newLiveSink name (Fingerprint cfg) id b]> (sm_live (kw_runtime w)) /\
       WriterFor m' name = Some (be_writer b) /\
       sm_insts m' !! id = Some (mkInstance name (sm_ctxDone (kw_runtime w)) false) /\
       TDrain (ls_id old) ∈ sm_tails m'))).
Proof.
  intros Hst Hsp Hl Hb0 Hf He Hn Hne Hs Hd Hpw Hfac m'.
  destruct (build name (sk_Spec chSink) password) as [[cfg|]|] eqn:Hb; [|done..]. specialize (Hfac cfg eq_refl).
  assert (Ec : resolveCredential OperatorNamespace e chSink = inl password).
  { unfold resolveCredential. rewrite Hs, Hd. by destruct password. }
  assert (Em : m' = (ensureLocked factory name cfg (kw_runtime w)).1).
  { unfold m'. rewrite pass_runtime, He, Ec. unfold declare_sink. cbv zeta. rewrite Hn, Hb. cbn [rt_Ensure manager_runtime].
    unfold Ensure. rewrite (proj2 (String.eqb_neq name "") Hne), Hsp, Hst. reflexivity. }
  pose proof (ensureLocked_cases factory name cfg (kw_runtime w)) as Hc. cbv zeta in Hc. rewrite Hl, Hfac in Hc.
  cbn [fmap option_fmap option_map] in Hc. rewrite Hf in Hc. rewrite Em.
  pose proof (same_declared_text name _ _ _ _ cfg cfg0 Hb Hb0) as Hsame. split.
  - intros Ht%Hsame.
    assert (Hfp : Fingerprint cfg = Fingerprint cfg0)
      by (change (sha256_hex (fingerprint_text cfg) = sha256_hex (fingerprint_text cfg0)); by rewrite Ht).
    rewrite decide_True in Hc by by rewrite Hfp. by rewrite Hc.
  - intros Hdiff. exists cfg. split; [done|]. split; [unfold newSinkConfigBuilder in Hb; by injection Hb as <-|].
    destruct (decide _) as [Heq|Heq].
    + left. split; [|by injection Heq]. intros Et. by apply Hdiff, Hsame.
    + right. rewrite Hc. cbn [fst installed sm_live sm_insts sm_tails]. split; [done|]. split; [|split].
      * unfold WriterFor. cbn [installed sm_live]. by rewrite lookup_insert_eq.
      * rewrite lookup_app_r by done. by rewrite Nat.sub_diag.
      * rewrite Hl. apply elem_of_app. right. by left.
Qed.

End props.

(** ** Samples *)

Module SinkSamples.

Definition tuning : writerTuning := mkTuning 1000 2 500 (2 * second) (5 * second) (30 * second).
(** Each password gets a writer of its own. *)
Definition writer_for (cfg : Config) : Writer := mkWriter None (fun _ _ => Some (cf_Password cfg)).
Definition built (cfg : Config) : backend := mkBackend (writer_for cfg) None None true.
Definition factory (name : string) (cfg : Config) : result backend :=
  if String.eqb (cf_Addr cfg) "" then Err "no address" else Ok (built cfg).

Definition main : ClickHouseSink :=
  mkSink (mkObjectMeta "" "main" 1 false)
    (mkSinkSpec (mkConnection "ch:9000" "audit" "kuberecord" (mkSecretReference "ch" "") None None)
       (mkWriterSpec None None None None None None None) (mkSinkPolicy [] []))
    (mkSinkStatus [] 1).

Definition secret (password : string) (ref : NamespacedName) : getAnswer (gmap string string) :=
  if String.eqb (nn_Namespace ref) "system" && String.eqb (nn_Name ref) "ch"
  then Found (<["password" := password]> ∅) else NotFound.

(** The sink is there, with this password; its status is written at the second try. *)
Definition there (password : string) : sinkEnv :=
  mkSinkEnv 10 (Found main) (secret password)
    (mkStatusAttempt (inl main) (Some ("conflict", true)), [mkStatusAttempt (inl main) None]).
Definition gone : sinkEnv := mkSinkEnv 10 NotFound (secret "") (mkStatusAttempt (inl main) None, []).

Definition writer : CHWriter := NewCHWriter 1000 2 500 0 0 0 0 0.
Definition config (password : string) : Config :=
  mkConfig "ch:9000" "audit" "kuberecord" password (5 * second) (10 * second) true 500 (2 * second) 1000 2
    (5 * second) (30 * second) DefaultCheckpointEvery.
Definition running : liveSink := newLiveSink "main" (Fingerprint (config "s3cret")) 0 (built (config "s3cret")).

(** A probe attempt of the first instance, and the result it posts. *)
Definition attempt : sinkEvent := SProbe running 20 None shipped writer.
Definition healthy : nat * ProbeResult := (0%nat, mkProbeResult "main" 20 None "").

Definition declared : list sinkEvent := [SPass factory 0 "main" (there "s3cret"); SManager (MStart factory)].
Definition settled : list sinkEvent := declared ++ [attempt; SPost 0; SRecord healthy].

Abbreviation run := (fun evs => sink_run tuning true "system" 64 evs newSinkSystem).
Definition after (evs : list sinkEvent) : sinkSystem := default newSinkSystem (run evs).
Definition settled_system : sinkSystem := after settled.
Abbreviation settled_world := (sy_world settled_system).

Lemma run_settled : run settled = Some settled_system.
Proof. vm_compute. reflexivity. Qed.

Lemma settled_timely : timely tuning true "system" 64 settled newSinkSystem.
Proof. vm_compute. repeat split; repeat constructor. Qed.

Definition latest_written (w : sinkWorld (S := SinkManager Config)) : ClickHouseSink := default main (last (kw_written w)).
Definition ready_of (w : sinkWorld (S := SinkManager Config)) : option (string * string) :=
  (fun c => (c_Status c, c_Reason c)) <$> findCondition (sst_Conditions (sk_Status (latest_written w))) ConditionReady.

Lemma sink_health_truthful_witness :
  ready_of settled_world = Some (ConditionUnknown, ReasonProbePending) /\
  ready_of (pass tuning true "system" factory 0 "main" (there "s3cret") settled_world).1 = Some (ConditionTrue, ReasonConnected) /\
  exists written v,
    kw_written (pass tuning true "system" factory 0 "main" (there "s3cret") settled_world).1 = kw_written settled_world ++ [written] /\
    last_probe "main" settled settled_system v /\
    shows_health (sst_Conditions (sk_Status written)) (health_of (resolveCredential "system" (there "s3cret") main) v).
Proof.
  split; [vm_compute; reflexivity|]. split; [vm_compute; reflexivity|].
  destruct (sink_health_truthful tuning true "system" 64 settled settled_system factory 0 "main" (there "s3cret") main
    defaultSinkResyncPeriod run_settled settled_timely eq_refl) as (written & v & Hw & Hv & Hs & _); [vm_compute; reflexivity|].
  exists written, v. split; [exact Hw|]. split; [exact Hv|exact Hs].
Defined.

Lemma instances_hold_read_credentials_witness :
  manager_SinkNames (kw_runtime settled_world) = ["main"] /\
  holds_only (read_config tuning true "system" settled) (kw_runtime settled_world).
Proof.
  split; [vm_compute; reflexivity|]. exact (instances_hold_read_credentials tuning true "system" 64 settled settled_system run_settled).
Defined.

Lemma running_live : sm_live (kw_runtime settled_world) !! "main" = Some running.
Proof. vm_compute. reflexivity. Qed.
Lemma running_state : sm_started (kw_runtime settled_world) = true /\ sm_stopped (kw_runtime settled_world) = false /\
  length (sm_insts (kw_runtime settled_world)) = 1%nat.
Proof. vm_compute. repeat split. Qed.
Lemma digests_differ :
  sha256_hex (fingerprint_text (config "rotated")) <> sha256_hex (fingerprint_text (config "s3cret")).
Proof. apply String.eqb_neq. vm_compute. reflexivity. Qed.
Lemma running_fingerprint : ls_fingerprint running = Fingerprint (config "s3cret").
Proof. unfold running, newLiveSink. cbn [ls_fingerprint]. reflexivity. Qed.

Lemma factory_builds cfg : newSinkConfigBuilder tuning true "main" (sk_Spec main) "rotated" = Ok (Some cfg) -> factory "main" cfg = Ok (built (config "rotated")).
Proof. intros [= <-]. reflexivity. Qed.

Lemma rotation_recycles_witness :
  let m' := kw_runtime (pass tuning true "system" factory 0 "main" (there "rotated") settled_world).1 in
  (exists i, sm_live m' !! "main" = Some i /\ ls_id i = 1%nat) /\ TDrain 0 ∈ sm_tails m' /\
  WriterFor m' "main" = Some (writer_for (config "rotated")).
Proof.
  intros m'. destruct running_state as (Hst & Hsp & Hlen).
  destruct (proj2 (rotation_recycles tuning true "system" settled_world factory 0 "main" (there "rotated") main
    (<["password" := "rotated"]> ∅) "rotated" running (sk_Spec main) "s3cret" (config "s3cret") (built (config "rotated"))
    Hst Hsp running_live eq_refl running_fingerprint eq_refl eq_refl ltac:(discriminate) eq_refl
    (lookup_insert_eq _ _ _) ltac:(discriminate) factory_builds)
    ltac:(intros (_ & _ & _ & Hp & _); discriminate Hp)) as (cfg & Hb & _ & [[_ Hs]|(Hl & Hw & _ & Ht)]); injection Hb as <-.
  - destruct (digests_differ Hs).
  - split; [|split; [exact Ht|exact Hw]]. unfold m'. rewrite Hl, lookup_insert_eq. eexists. split; [reflexivity|exact Hlen].
Defined.

(** A result posted while its sink is being deleted may be taken from the channel after
    the reconciler has forgotten the sink's verdict: the sink that is created next under
    that name, of which no instance has been probed, is reported ready. *)
Lemma late_verdict_outlives_sink :
  let evs := settled ++ [attempt; SPass factory 0 "main" gone; SPost 0; SRecord healthy] in
  store_latest "main" (kw_probes (sy_world (after (settled ++ [attempt; SPass factory 0 "main" gone])))) = None /\
  sm_live (kw_runtime (sy_world (after evs))) = ∅ /\ ~ timely tuning true "system" 64 evs newSinkSystem /\
  ready_of (pass tuning true "system" factory 0 "main" (there "other") (sy_world (after evs))).1 = Some (ConditionTrue, ReasonConnected).
Proof. vm_compute. split_and!; try reflexivity. intros H. repeat destruct H as [? H]. lia. Qed.
End SinkSamples.
