(* ===== verification/WatchLoopProps.v ===== *)
(** * WatchLoopProps: every change is taken up, no informer is left behind

    The pool with its goroutines refines the pool of [WatchManager]
    ([loop_pass_refines]); no registry change is ever lost, whatever the select
    statements choose ([registry_changes_reconciled]); and every informer goroutine
    that was started is either in the pool or cancelled ([no_informer_leaked]). A
    concrete run shows the settle signal given while a change is pending. *)

From Stdlib Require Import ZArith Lia.
From stdpp Require Import base gmap strings list sorting.
From S2P Require Import Prelude Identity Json Redact Registry Interest WatchManager ScopeRecorder WatchLoop.

Section props.
Context `{LS : LabelSelectors} `{SA : SelectorAPI} `{RN : ResourceNames}.

(** ** The pool *)

Lemma elem_of_keys {V} (m : gmap informerKey V) k : k ∈ keys m <-> is_Some (m !! k).
Proof.
  unfold keys. rewrite merge_sort_Permutation, list_elem_of_fmap. split.
  - intros ([k' v] & -> & Hin). apply elem_of_map_to_list in Hin. by exists v.
  - intros [v Hv]. exists (k, v). split; [done|]. by apply elem_of_map_to_list.
Qed.

Lemma keys_NoDup {V} (m : gmap informerKey V) : NoDup (keys m).
Proof. unfold keys. rewrite merge_sort_Permutation. apply NoDup_fst_map_to_list. Qed.

(** What the start of an informer amounts to. *)
Definition start_of (answers : informerKey -> GroupVersionKind -> startAnswer) (key : informerKey) (gvk : GroupVersionKind) :
    result informer :=
  let a := answers key gvk in
  match (pool_start false a key gvk newPool).2 with None => Ok (sa_informer a) | Some e => Err e end.

Lemma pool_start_cases d a key gvk p :
  p_entries p !! key = None ->
  pool_start d a key gvk p =
  match (pool_start false a key gvk newPool).2 with
  | None => (mkPool (<[key := mkEntry (length (p_goroutines p)) gvk (sa_informer a)]> (p_entries p))
               (p_goroutines p ++ [mkGoroutine key d false]), None)
  | Some e => (p, Some e)
  end.
Proof.
  intros Hp. unfold pool_start. rewrite Hp. cbn [newPool p_entries]. rewrite lookup_empty.
  by destruct (sa_SetTransform a), (sa_SetWatchErrorHandler a), (sa_AddEventHandler a).
Qed.

Lemma view_lookup p key : pool_view p !! key = ie_informer <$> p_entries p !! key.
Proof. apply lookup_fmap. Qed.

Lemma view_stop key p : pool_view (pool_stop key p) = stop key (pool_view p).
Proof.
  unfold pool_stop, stop, pool_view. destruct (p_entries p !! key) eqn:E; cbn [p_entries]; [by rewrite fmap_delete|].
  symmetry. apply delete_id. by rewrite lookup_fmap, E.
Qed.

Lemma view_start d answers wanted p key gvk :
  wanted !! key = Some gvk ->
  pool_view (retain_start d answers wanted p key) = start_missing (start_of answers) (pool_view p) (key, gvk).
Proof.
  intros Hw. unfold retain_start, start_missing, entryFor. cbn [fst snd]. rewrite Hw, view_lookup.
  destruct (p_entries p !! key) as [e|] eqn:E; [done|]. cbn [fmap option_fmap option_map].
  rewrite pool_start_cases by done. unfold start_of. destruct (pool_start false _ _ _ _).2; [done|].
  unfold pool_view. cbn [fst p_entries]. by rewrite fmap_insert.
Qed.

Lemma view_stops wanted l p :
  pool_view (foldl (fun p key => match wanted !! key with Some _ => p | None => pool_stop key p end) p l) =
  foldl (fun p key => match (wanted : gmap informerKey GroupVersionKind) !! key with Some _ => p | None => stop key p end)
    (pool_view p) l.
Proof.
  revert p. induction l as [|k l IH]; intros p; [done|]. cbn [foldl]. rewrite IH.
  destruct (wanted !! k); [done|]. by rewrite view_stop.
Qed.

Lemma view_starts d answers wanted l l' p :
  Forall2 (fun k kv => kv.1 = k /\ wanted !! k = Some kv.2) l l' ->
  pool_view (foldl (retain_start d answers wanted) p l) = foldl (start_missing (start_of answers)) (pool_view p) l'.
Proof.
  intros HF. revert p. induction HF as [|k [k' gvk] l l' [Hk Hw] HF IH]; intros p; [done|]. cbn [foldl fst snd] in *.
  subst k'. rewrite IH. by erewrite view_start.
Qed.

Definition paired (wanted : gmap informerKey GroupVersionKind) : list (informerKey * GroupVersionKind) :=
  omap (fun k => pair k <$> wanted !! k) (keys wanted).

Lemma paired_keys wanted l :
  (forall k, k ∈ l -> is_Some (wanted !! k)) ->
  Forall2 (fun k kv => kv.1 = k /\ (wanted : gmap informerKey GroupVersionKind) !! k = Some kv.2) l
    (omap (fun k => pair k <$> wanted !! k) l).
Proof.
  induction l as [|k l IH]; intros Hl; [constructor|]. cbn. destruct (Hl k ltac:(by left)) as [gvk Hg]. rewrite Hg.
  cbn. constructor; [done|]. apply IH. intros k' Hk'. apply Hl. by right.
Qed.

Lemma Forall2_fst {A B} (P : A -> A * B -> Prop) l l' :
  (forall a ab, P a ab -> ab.1 = a) -> Forall2 P l l' -> l'.*1 = l.
Proof. intros HP. induction 1 as [|a ab l l' Ha _ IH]; [done|]. cbn. f_equal; [by apply HP|done]. Qed.

Lemma paired_perm wanted : paired wanted ≡ₚ map_to_list wanted.
Proof.
  assert (HF := paired_keys wanted (keys wanted) (fun k Hk => proj1 (elem_of_keys _ _) Hk)). fold (paired wanted) in HF.
  assert (E : (paired wanted).*1 = keys wanted) by (eapply Forall2_fst; [|exact HF]; by intros ? ? [? _]).
  apply NoDup_Permutation.
  - apply (NoDup_fmap_1 fst). rewrite E. apply keys_NoDup.
  - apply NoDup_map_to_list.
  - intros [k gvk]. rewrite elem_of_map_to_list. unfold paired. rewrite list_elem_of_omap. split.
    + intros (k' & _ & Hk). destruct (wanted !! k') eqn:E'; [|done]. by injection Hk as -> ->.
    + intros Hk. exists k. split; [apply elem_of_keys; by exists gvk|]. by rewrite Hk.
Qed.

(** The pool with its goroutines moves as the pool of informers does. *)
Lemma view_retain d answers wanted p :
  pool_view (pool_retain d answers wanted p) = retain (start_of answers) wanted (pool_view p).
Proof.
  unfold pool_retain. cbv zeta.
  rewrite (view_starts d answers wanted _ (paired wanted)) by (apply paired_keys; intros k; apply elem_of_keys).
  rewrite view_stops. apply map_eq. intros key. rewrite retain_lookup.
  assert (Hnd : NoDup (paired wanted).*1) by (rewrite paired_perm; apply NoDup_fst_map_to_list).
  rewrite start_fold_lookup, stop_fold_lookup by done.
  rewrite (list_to_map_proper (paired wanted) (map_to_list wanted) Hnd (paired_perm wanted)), list_to_map_to_list.
  destruct (wanted !! key) as [gvk|] eqn:Hw; [by rewrite decide_True by eauto|].
  case_decide as Hd; [|done]. destruct Hd as [[? [=]]|Hn]. rewrite view_lookup.
  destruct (p_entries p !! key) eqn:E; [|done]. destruct Hn. apply elem_of_keys. by eexists.
Qed.

Definition manager_of (s : loopState) : manager := mkManager (lp_table s) (pool_view (lp_pool s)) (lp_started s).

(** A pass of the loop is a pass of [WatchManager]: same state, same calls in the
    same order. *)
Lemma loop_pass_refines e snapshot s :
  let '(m', effects) := reconcilePool (pe_resolve e) (start_of (pe_answers e)) snapshot (manager_of s) in
  manager_of (loop_pass e snapshot s) = m' /\ lp_effects (loop_pass e snapshot s) = lp_effects s ++ effects.
Proof.
  unfold reconcilePool, loop_pass, manager_of. cbn [table m_pool startedTargets].
  destruct (translate (pe_resolve e) snapshot) as [desired wanted]. destruct (replace desired (lp_table s)) as [t removed].
  cbn [lp_table lp_pool lp_started lp_effects]. by rewrite view_retain.
Qed.

(** ** Wake-ups *)

(** A registry operation that leaves no notification changed nothing. *)
Lemma regOp_silent op r : changes (run_regOp op r) = false -> Snapshot (run_regOp op r) = Snapshot r /\ changes r = false.
Proof.
  destruct op as [rk ts|rk]; cbn [run_regOp].
  - unfold Upsert. destruct (canonicalize ts) as [desired|e]; cbn [fst]; [|done]. cbn [changes]. unfold notifyLocked.
    set (added := elements _). set (removed := elements _).
    destruct (decide (added = [])) as [Ea|Ea]; [|rewrite (bool_decide_false _ Ea); done].
    destruct (decide (removed = [])) as [Er|Er]; [|rewrite (bool_decide_false _ Er), orb_true_r; done].
    rewrite Ea, Er. cbn. intros Hc. split; [|done]. reflexivity.
  - unfold Remove. destruct (rules r !! rk); [done|]. done.
Qed.

Lemma take_change_snapshot r : Snapshot (take_change r).1 = Snapshot r.
Proof. done. Qed.

(** What the last pass of a run met. *)
Definition last_env (e0 : option passEnv) (l : loopLabel) : option passEnv := match l with LPass e => Some e | _ => e0 end.
Definition last_pass (e0 : option passEnv) (ls : list loopLabel) : option passEnv := foldl last_env e0 ls.

(** The installed interests are those of the registry's current rules, with the
    resources discovery answered the last pass, [e0]. *)
Definition serving (e0 : option passEnv) (s : loopState) : Prop :=
  exists e, e0 = Some e /\ current (lp_table s) = (translate (pe_resolve e) (Snapshot (lp_registry s))).1.

(** And no pass under way is about to install older ones. *)
Definition up_to_date (e0 : option passEnv) (s : loopState) : Prop :=
  serving e0 s /\ match lp_phase s with Passing snapshot => snapshot = Snapshot (lp_registry s) | _ => True end.

(** What is not yet installed has a wake-up on its way. *)
Definition wake_pending (e0 : option passEnv) (s : loopState) : Prop :=
  match lp_phase s with
  | Selecting => serving e0 s \/ changes (lp_registry s) = true
  | Passing snapshot => snapshot = Snapshot (lp_registry s) \/ changes (lp_registry s) = true
  | _ => True
  end.

Variable S : loopSettings.

Lemma loop_pass_table e snapshot s : current (lp_table (loop_pass e snapshot s)) = (translate (pe_resolve e) snapshot).1.
Proof.
  unfold loop_pass. destruct (translate (pe_resolve e) snapshot) as [desired wanted]. reflexivity.
Qed.

Lemma loop_pass_frame e snapshot s :
  lp_registry (loop_pass e snapshot s) = lp_registry s /\ lp_phase (loop_pass e snapshot s) = lp_phase s /\
  lp_settle (loop_pass e snapshot s) = lp_settle s /\ lp_now (loop_pass e snapshot s) = lp_now s /\
  lp_ctxDone (loop_pass e snapshot s) = lp_ctxDone s.
Proof.
  unfold loop_pass. destruct (translate (pe_resolve e) snapshot) as [desired wanted].
  by destruct (replace desired (lp_table s)) as [t removed].
Qed.

(** Which part of a state the wake-up reasoning reads. *)
Definition same_view (s s' : loopState) : Prop :=
  lp_table s' = lp_table s /\ lp_registry s' = lp_registry s /\ lp_phase s' = lp_phase s /\ lp_settle s' = lp_settle s /\
  lp_ctxDone s' = lp_ctxDone s.

(** The steps that are the loop's own. *)
Definition own_label (l : loopLabel) : bool :=
  match l with LRegistry _ | LTime _ | LCancel | LReturn _ | LIndexer _ _ => false | _ => true end.

(** Nobody changes a rule, and the process is not told to stop. *)
Definition undisturbed (l : loopLabel) : bool := match l with LRegistry _ | LCancel => false | _ => true end.

Lemma env_step l s s' :
  own_label l = false -> undisturbed l = true -> loop_step S l s = Some s' -> same_view s s'.
Proof.
  destruct l; try done; intros _ _; cbn [loop_step].
  - destruct (Z.leb _ _); [|done]. by intros [= <-].
  - destruct (p_goroutines (lp_pool s) !! id) as [[key [] ret]|]; [|done..]. by intros [= <-].
  - by intros [= <-].
Qed.

#[local] Instance TargetState_eq_dec : EqDecision TargetState.
Proof. solve_decision. Defined.

(** How many of its own steps the loop may still take before it is up to date. *)
Definition rank (s : loopState) : nat :=
  match lp_phase s with
  | NotStarted => 2
  | Selecting => 3 + (if lp_settle s then 1 else 0)
  | Debouncing _ => 2 + (if changes (lp_registry s) then 1 else 0)
  | Passing snapshot => if decide (snapshot = Snapshot (lp_registry s)) then 1 else 5
  | Returned => 0
  end.

Lemma rank_begin s : rank (begin_pass s) = 1%nat.
Proof. unfold rank, begin_pass. cbn. by rewrite decide_True. Qed.

(** The loop's own step, while nobody disturbs it: towards the current rules, and
    never away from them. *)
Lemma own_step_progress e0 l s s' :
  own_label l = true -> lp_ctxDone s = false -> wake_pending e0 s -> loop_step S l s = Some s' ->
  (up_to_date e0 s -> up_to_date (last_env e0 l) s') /\ (up_to_date (last_env e0 l) s' \/ (rank s' < rank s)%nat) /\
  wake_pending (last_env e0 l) s' /\ lp_ctxDone s' = false.
Proof.
  intros Ho Hc Hw E. destruct l as [|t| | | | | | | | | | |e|]; try done; cbn [loop_step] in E;
    destruct (lp_phase s) as [| |until|snapshot|] eqn:Hp; try done; cbn [last_env].
  - injection E as <-. unfold wake_pending, up_to_date, rank in *. rewrite Hp in *. cbn. rewrite decide_True by done.
    split; [by intros [? _]|]. split; [right; lia|]. auto.
  - destruct (changes (lp_registry s)) eqn:Hch; cbn [take_change] in E; rewrite ?Hch in E; [|done]. injection E as <-.
    unfold wake_pending, up_to_date, rank in *. rewrite Hp in *. destruct (lp_settleDone s); cbn.
    all: split; [by intros [? _]|]; split; [right; destruct (lp_settle s); lia|done].
  - destruct (changes (lp_registry s)) eqn:Hch; cbn [take_change] in E; rewrite ?Hch in E; [|done]. injection E as <-.
    unfold wake_pending, up_to_date, rank in *. cbn. rewrite Hp in *. rewrite Hch. cbn.
    split; [by intros [? _]|]. split; [right; lia|done].
  - destruct (Z.leb until (lp_now s)); [|done]. injection E as <-. unfold wake_pending, up_to_date, rank in *. cbn. rewrite Hp.
    rewrite decide_True by done. split; [by intros [? _]|]. split; [right; lia|auto].
  - by rewrite Hc in E.
  - destruct (lp_settle s) as [at_|] eqn:Hs; [|done]. destruct (Z.leb at_ (lp_now s)); [|done]. injection E as <-.
    assert (Hv : same_view (set_settle None s) (markSettled (set_settle None s))) by (unfold markSettled; by case_match).
    destruct Hv as (Ht & Hr & Hph & Hse & Hcd). unfold wake_pending, up_to_date, rank, serving in *.
    rewrite Ht, Hr, Hph, Hse, Hcd. cbn. rewrite Hp, Hs in *. split; [done|]. split; [right; lia|done].
  - destruct (Z.leb (lp_tick s) (lp_now s)); [|done]. injection E as <-. unfold wake_pending, up_to_date, rank in *. cbn. rewrite Hp.
    rewrite decide_True by done. split; [by intros [? _]|]. split; [right; destruct (lp_settle s); lia|auto].
  - injection E as <-. destruct (loop_pass_frame e snapshot s) as (Hr & Hph & Hse & _ & Hcd).
    unfold wake_pending, up_to_date, rank, serving in *. cbn. rewrite Hr, Hse, Hcd, loop_pass_table, Hp in *.
    destruct (decide (snapshot = Snapshot (lp_registry s))) as [->|Hne].
    + split; [|split; [left|split; [left|done]]]; eauto.
    + destruct Hw as [?|Hw]; [done|]. split; [by intros [_ ?]|]. split; [right; destruct (lp_settle s); lia|]. auto.
  - by rewrite Hc in E.
Qed.

Lemma wake_view e0 s s' :
  same_view s s' -> (wake_pending e0 s <-> wake_pending e0 s') /\ (up_to_date e0 s <-> up_to_date e0 s') /\ rank s = rank s'.
Proof. intros (Ht & Hr & Hp & Hs & _). unfold wake_pending, up_to_date, rank, serving. by rewrite Ht, Hr, Hp, Hs. Qed.

Lemma wake_registry e0 op s : wake_pending e0 s -> wake_pending e0 (set_registry (run_regOp op (lp_registry s)) s).
Proof.
  unfold wake_pending, serving. cbn. intros Hw.
  destruct (changes (run_regOp op (lp_registry s))) eqn:Hc; [by destruct (lp_phase s); auto|].
  apply regOp_silent in Hc as [-> Hc]. rewrite Hc in Hw. destruct (lp_phase s); intuition congruence.
Qed.

Lemma ctx_step l s s' : loop_step S l s = Some s' -> lp_ctxDone s = true -> lp_ctxDone s' = true.
Proof.
  intros E Hc. destruct l as [|t| | | | | | | | | | |e|]; cbn [loop_step] in E; repeat case_match; simplify_eq; try done;
    unfold markSettled; try case_match; try done.
  cbn. by destruct (loop_pass_frame e snapshot s) as (_ & _ & _ & _ & ->).
Qed.

(** What every state of a run satisfies: the wake-up is on its way unless the
    process is stopping, a window ends in time, and only a stopping loop returns. *)
Record loop_inv (e0 : option passEnv) (s : loopState) : Prop := {
  li_wake : lp_ctxDone s = false -> wake_pending e0 s;
  li_window : forall until, lp_phase s = Debouncing until -> (until <= lp_now s + ls_debounceDelay S)%Z;
  li_returned : lp_phase s = Returned -> lp_ctxDone s = true;
}.

Lemma env_last e0 l : own_label l = false -> last_env e0 l = e0.
Proof. by destruct l. Qed.

Lemma wake_step e0 l s s' :
  loop_step S l s = Some s' -> (lp_ctxDone s = false -> wake_pending e0 s) -> lp_ctxDone s' = false -> wake_pending (last_env e0 l) s'.
Proof.
  intros E Hw Hc'. assert (Hc : lp_ctxDone s = false).
  { destruct (lp_ctxDone s) eqn:Hc; [|done]. by rewrite (ctx_step l s s') in Hc'. }
  specialize (Hw Hc). destruct (own_label l) eqn:Ho; [by eapply own_step_progress|]. rewrite env_last by done.
  destruct (undisturbed l) eqn:Hu; [apply (wake_view e0 s s'); [by eapply env_step|done]|].
  destruct l; try done; cbn [loop_step] in E; injection E as <-; [by apply wake_registry|done].
Qed.

Lemma window_step l s s' :
  loop_step S l s = Some s' ->
  (forall until, lp_phase s = Debouncing until -> (until <= lp_now s + ls_debounceDelay S)%Z) ->
  forall until, lp_phase s' = Debouncing until -> (until <= lp_now s' + ls_debounceDelay S)%Z.
Proof.
  intros E Hw until Hp'. destruct l as [|t| | | | | | | | | | |e|]; cbn [loop_step] in E; repeat case_match; simplify_eq; cbn in *;
    try done; eauto; unfold markSettled in *; repeat case_match; cbn in *; simplify_eq; try done; try lia;
    first [apply Hw; congruence|specialize (Hw _ Hp'); apply Z.leb_le in H; lia].
Qed.

Lemma returned_step l s s' :
  loop_step S l s = Some s' -> (lp_phase s = Returned -> lp_ctxDone s = true) -> lp_phase s' = Returned -> lp_ctxDone s' = true.
Proof.
  intros E Hr Hp'. assert (Hd : lp_phase s = Returned \/ lp_phase s <> Returned) by (destruct (lp_phase s); auto).
  destruct Hd as [Hp|Hp]; [by eapply ctx_step, Hr|].
  destruct l as [|t| | | | | | | | | | |e|]; cbn [loop_step] in E; repeat case_match; simplify_eq; cbn in *; try done.
  all: unfold markSettled in *; repeat case_match; cbn in *; congruence.
Qed.

Lemma loop_inv_step e0 l s s' : loop_step S l s = Some s' -> loop_inv e0 s -> loop_inv (last_env e0 l) s'.
Proof.
  intros E [H1 H2 H3]. split.
  - by apply (wake_step e0 l s s').
  - by apply (window_step l s s').
  - by apply (returned_step l s s').
Qed.

Lemma loop_run_ind (P : loopState -> Prop) ls s s' :
  (forall l s s', loop_step S l s = Some s' -> P s -> P s') -> P s -> loop_run S ls s = Some s' -> P s'.
Proof.
  intros HS. revert s. induction ls as [|l ls IH]; intros s HP; cbn [loop_run]; [by intros [= <-]|].
  destruct (loop_step S l s) as [s1|] eqn:E; [|done]. cbn. apply IH. by eapply HS.
Qed.

Lemma loop_inv_run e0 ls s s' : loop_inv e0 s -> loop_run S ls s = Some s' -> loop_inv (last_pass e0 ls) s'.
Proof.
  revert e0 s. induction ls as [|l ls IH]; intros e0 s Hi; cbn [loop_run]; [by intros [= <-]|].
  destruct (loop_step S l s) as [s1|] eqn:E; [|done]. cbn. apply IH. by eapply loop_inv_step.
Qed.

Lemma loop_inv_new r : loop_inv None (newLoop r).
Proof. by split. Qed.

Lemma undisturbed_ctx e0 l s s' : undisturbed l = true -> loop_step S l s = Some s' -> lp_ctxDone s = false ->
  (lp_ctxDone s = false -> wake_pending e0 s) -> lp_ctxDone s' = false.
Proof.
  intros Hu E Hc Hw. destruct (own_label l) eqn:Ho.
  - by eapply own_step_progress; [..|exact E]; [|exact Hc|apply Hw].
  - by destruct (env_step l s s' Ho Hu E) as (_ & _ & _ & _ & ->).
Qed.

(** Left alone, the loop is up to date after [rank] steps of its own, whatever its
    selects choose. *)
Lemma undisturbed_run e0 ls s s' :
  forallb undisturbed ls = true -> lp_ctxDone s = false -> loop_inv e0 s -> loop_run S ls s = Some s' ->
  (up_to_date e0 s \/ (rank s <= length (filter (fun l => own_label l = true) ls))%nat) -> up_to_date (last_pass e0 ls) s'.
Proof.
  revert e0 s. induction ls as [|l ls IH]; intros e0 s Hu Hc Hi; cbn [loop_run].
  - intros [= <-]. intros [H|H]; [done|]. cbn in H. exfalso. destruct Hi as [_ _ Hr].
    unfold rank in H. destruct (lp_phase s); try (repeat case_match; lia). by rewrite Hr in Hc.
  - cbn [forallb] in Hu. apply andb_prop in Hu as [Hul Hu]. destruct (loop_step S l s) as [s1|] eqn:E; [|done]. cbn [mbind option_bind].
    intros Hr Hd. pose proof (undisturbed_ctx e0 l s s1 Hul E Hc (li_wake e0 s Hi)) as Hc1.
    apply (IH (last_env e0 l) s1); [done|done|by eapply loop_inv_step|done|]. rewrite filter_cons in Hd.
    destruct (own_label l) eqn:Ho.
    + rewrite decide_True in Hd by done. cbn [length] in Hd.
      destruct (own_step_progress e0 l s s1 Ho Hc (li_wake e0 s Hi Hc) E) as (Hk & Hp & _). destruct Hd as [Hd|Hd]; [auto|].
      destruct Hp as [Hp|Hp]; [auto|]. right. lia.
    + rewrite decide_False in Hd by done. rewrite env_last by done.
      destruct (wake_view e0 s s1 (env_step l s s1 Ho Hul E)) as (_ & Hk & Hrk).
      rewrite <- Hrk. by destruct Hd as [Hd%Hk|Hd]; auto.
Qed.

Lemma rank_bound s : (rank s <= 5)%nat.
Proof. unfold rank. repeat case_match; lia. Qed.

Definition any_pass : passEnv := mkPassEnv (fun _ => Err "") (fun _ _ => mkStartAnswer None None None (mkInformer (fun _ => Ok None) false)).

(** C7. Every change of the rules is taken up. Start the loop on any registry and
    let rules change, time pass, informers answer and the selects choose as they
    like, as long as the process is not told to stop. Then at every moment either
    the installed interests are exactly those the current rules translate to with the
    resources discovery answered the last pass, and no older ones are about to be
    installed; or the loop can take a step; or it waits out a debounce window that
    ends within the debounce delay. And from that moment on, if the rules are left
    alone, five steps of the loop are enough to install them, with what
    discovery answers the last pass among them, whichever cases its selects pick: no
    notification is lost, whether it was coalesced, swallowed in a window or posted
    during a pass, and no burst starves the pass. *)
Theorem registry_changes_reconciled r ls s :
  loop_run S ls (newLoop r) = Some s -> lp_ctxDone s = false ->
  (up_to_date (last_pass None ls) s \/ (exists l, own_label l = true /\ is_Some (loop_step S l s)) \/
   exists until, lp_phase s = Debouncing until /\ (lp_now s < until <= lp_now s + ls_debounceDelay S)%Z) /\
  forall ls' s', forallb undisturbed ls' = true -> loop_run S ls' s = Some s' ->
    (5 <= length (filter (fun l => own_label l = true) ls'))%nat -> up_to_date (last_pass None (ls ++ ls')) s'.
Proof.
  intros Hr Hc. pose proof (loop_inv_run None ls (newLoop r) s (loop_inv_new r) Hr) as Hi. split.
  - pose proof (li_wake _ s Hi Hc) as Hw. unfold wake_pending, up_to_date in *.
    destruct (lp_phase s) as [| |until|snapshot|] eqn:Hp.
    + right. left. exists LBegin. split; [done|]. cbn. rewrite Hp. by eexists.
    + destruct Hw as [Hw|Hw]; [by left|]. right. left. exists LChange. split; [done|]. cbn. rewrite Hp, Hw. by eexists.
    + destruct (Z.leb until (lp_now s)) eqn:Hu.
      * right. left. exists LWindow. split; [done|]. cbn. rewrite Hp, Hu. by eexists.
      * right. right. exists until. split; [done|]. apply Z.leb_gt in Hu. pose proof (li_window _ s Hi _ Hp). lia.
    + right. left. exists (LPass any_pass). split; [done|]. cbn. rewrite Hp. by eexists.
    + by rewrite (li_returned _ s Hi Hp) in Hc.
  - intros ls' s' Hu Hr' Hn. unfold last_pass. rewrite foldl_app.
    apply (undisturbed_run (last_pass None ls) ls' s s'); [done|done|done|done|]. right. pose proof (rank_bound s). lia.
Qed.

(** ** Informers *)

(** The pool's bookkeeping: an entry names a goroutine of its own target that nobody
    cancelled on its own, and every goroutine that still runs has its entry. *)
Record pool_ok (ctxDone : bool) (p : informerPool) : Prop := {
  po_entry : forall key e, p_entries p !! key = Some e ->
    exists g, p_goroutines p !! ie_id e = Some g /\ go_key g = key /\ (go_cancelled g = true -> ctxDone = true);
  po_running : forall id g, p_goroutines p !! id = Some g -> go_cancelled g = false ->
    exists e, p_entries p !! go_key g = Some e /\ ie_id e = id;
}.

Lemma cancel_lookup id l id' :
  cancel_goroutine id l !! id' =
  if decide (id = id') then (fun g => mkGoroutine (go_key g) true (go_returned g)) <$> l !! id' else l !! id'.
Proof.
  unfold cancel_goroutine. case_decide as Hd; [subst; apply list_lookup_alter_eq|by apply list_lookup_alter_ne].
Qed.

Lemma pool_ok_stop d key p : pool_ok d p -> pool_ok d (pool_stop key p).
Proof.
  intros [He Hg]. unfold pool_stop. destruct (p_entries p !! key) as [e0|] eqn:E0; [|done].
  destruct (He _ _ E0) as (g0 & Hg0 & Hk0 & _). split; cbn [p_entries p_goroutines].
  - intros k e [Hne Hk]%lookup_delete_Some. destruct (He _ _ Hk) as (g & Hgl & Hgk & Hc). exists g.
    rewrite cancel_lookup, decide_False; [done|]. intros Heq. rewrite Heq in Hg0. congruence.
  - intros id g. rewrite cancel_lookup. case_decide as Hd.
    + subst id. rewrite Hg0. by intros [= <-].
    + intros Hl Hc. destruct (Hg _ _ Hl Hc) as (e & Hk & Hid). exists e. split; [|done].
      apply lookup_delete_Some. split; [|done]. intros Heq. rewrite <- Heq, E0 in Hk. congruence.
Qed.

Lemma pool_ok_start d a key gvk p : pool_ok d p -> p_entries p !! key = None -> pool_ok d (pool_start d a key gvk p).1.
Proof.
  intros [He Hg] Hn. rewrite pool_start_cases by done. destruct (pool_start false a key gvk newPool).2; [done|].
  split; cbn [fst p_entries p_goroutines].
  - intros k e [[<- <-]|[Hne Hk]]%lookup_insert_Some.
    + exists (mkGoroutine key d false). rewrite lookup_app_r by done. cbn. by rewrite Nat.sub_diag.
    + destruct (He _ _ Hk) as (g & Hgl & Hrest). exists g. split; [|done]. by apply lookup_app_l_Some.
  - intros id g [Hl|[Hle Hl]]%lookup_app_Some Hc.
    + destruct (Hg _ _ Hl Hc) as (e & Hk & Hid). exists e. split; [|done]. rewrite lookup_insert_ne; [done|]. congruence.
    + destruct (id - length (p_goroutines p))%nat as [|n] eqn:Hi; cbn in Hl; [|done].
      injection Hl as <-. cbn. rewrite lookup_insert_eq. eexists. split; [done|]. cbn. lia.
Qed.

Lemma pool_ok_retain d answers wanted p : pool_ok d p -> pool_ok d (pool_retain d answers wanted p).
Proof.
  intros Hp. unfold pool_retain. cbv zeta.
  assert (H1 : forall l p, pool_ok d p ->
    pool_ok d (foldl (fun p key => match wanted !! key with Some _ => p | None => pool_stop key p end) p l)).
  { induction l as [|k l IH]; intros q Hq; [done|]. cbn [foldl]. apply IH. destruct (wanted !! k); [done|]. by apply pool_ok_stop. }
  specialize (H1 (keys (p_entries p)) p Hp). revert H1. generalize (foldl (fun p key => match wanted !! key with
    Some _ => p | None => pool_stop key p end) p (keys (p_entries p))). induction (keys wanted) as [|k l IH]; intros q Hq; [done|].
  cbn [foldl]. apply IH. unfold retain_start. destruct (p_entries q !! k) eqn:Ek; [done|].
  destruct (wanted !! k); [|done]. by apply pool_ok_start.
Qed.

Lemma pool_ok_cancel d p :
  pool_ok d p -> pool_ok true (mkPool (p_entries p) (map (fun g => mkGoroutine (go_key g) true (go_returned g)) (p_goroutines p))).
Proof.
  intros [He Hg]. split; cbn [p_entries p_goroutines].
  - intros k e Hk. destruct (He _ _ Hk) as (g & Hgl & Hgk & _). exists (mkGoroutine (go_key g) true (go_returned g)). split; [|done].
    by rewrite list_lookup_fmap, Hgl.
  - intros id g. rewrite list_lookup_fmap. destruct (p_goroutines p !! id); [|done]. by intros [= <-].
Qed.

Lemma pool_ok_return d p id key ret :
  p_goroutines p !! id = Some (mkGoroutine key true ret) -> pool_ok d p ->
  pool_ok d (mkPool (p_entries p) (<[id := mkGoroutine key true true]> (p_goroutines p))).
Proof.
  intros Eg [He Hg]. split; cbn.
  - intros k e Hk. destruct (He _ _ Hk) as (g & Hgl & Hgk & Hc). destruct (decide (ie_id e = id)) as [Hid|Hid].
    + rewrite Hid in *. rewrite Eg in Hgl. injection Hgl as <-. eexists. rewrite list_lookup_insert_eq; [by split|].
      by eapply lookup_lt_Some.
    + exists g. by rewrite list_lookup_insert_ne.
  - intros i g [(<- & <- & _)|[Hne Hl]]%list_lookup_insert_Some; [done|]. by apply Hg.
Qed.

Lemma pool_ok_indexer d p key inf :
  pool_ok d p -> pool_ok d (mkPool (alter (fun e => mkEntry (ie_id e) (ie_gvk e) inf) key (p_entries p)) (p_goroutines p)).
Proof.
  intros [He Hg]. split; cbn.
  - intros k e. rewrite lookup_alter_Some. intros [(<- & e0 & Hk & ->)|[_ Hk]]; [|by apply He]. by apply (He _ _ Hk).
  - intros i g Hl Hc. destruct (Hg _ _ Hl Hc) as (e & Hk & Hid). destruct (decide (key = go_key g)) as [->|Hne].
    + rewrite lookup_alter_eq, Hk. by eexists.
    + rewrite lookup_alter_ne by done. by exists e.
Qed.

Lemma cancelled_fold ids l id g :
  foldl (fun l i => cancel_goroutine i l) l ids !! id = Some g ->
  exists g0, l !! id = Some g0 /\ (go_cancelled g0 = true \/ id ∈ ids -> go_cancelled g = true).
Proof.
  revert l. induction ids as [|i ids IH]; intros l; cbn [foldl].
  - intros Hl. exists g. split; [done|]. by intros [?|?%elem_of_nil].
  - intros Hl. destruct (IH _ Hl) as (g1 & Hg1 & Hc). rewrite cancel_lookup in Hg1. case_decide as Hd.
    + subst i. destruct (l !! id) as [g0|]; [|done]. injection Hg1 as <-. exists g0. split; [done|]. intros _. apply Hc. by left.
    + exists g1. split; [done|]. rewrite elem_of_cons. intros [?|[?|?]]; apply Hc; auto; congruence.
Qed.

Lemma stopAll_cancels d p g : pool_ok d p -> g ∈ p_goroutines (pool_stopAll p) -> go_cancelled g = true.
Proof.
  intros [He Hg] Hin. apply list_elem_of_lookup in Hin as (id & Hl). unfold pool_stopAll in Hl. cbn [p_goroutines] in Hl.
  assert (E : forall (es : list informerEntry) l, foldl (fun l e => cancel_goroutine (ie_id e) l) l es =
    foldl (fun l i => cancel_goroutine i l) l (map ie_id es)) by (induction es; intros; cbn; auto).
  rewrite E in Hl. apply cancelled_fold in Hl as (g0 & Hg0 & Hc). destruct (go_cancelled g0) eqn:Hc0; [by apply Hc; left|].
  apply Hc. right. destruct (Hg _ _ Hg0 Hc0) as (e & Hk & <-). apply list_elem_of_fmap. exists e. split; [done|].
  apply list_elem_of_fmap. exists (go_key g0, e). split; [done|]. by apply elem_of_map_to_list.
Qed.

Definition used (t : interestTable) (key : informerKey) : Prop := exists id i, current t !! id = Some i /\ in_informer i = key.

Record informers_ok (s : loopState) : Prop := {
  io_pool : pool_ok (lp_ctxDone s) (lp_pool s);
  io_used : forall key, is_Some (p_entries (lp_pool s) !! key) -> used (lp_table s) key;
  io_returned : lp_phase s = Returned -> p_entries (lp_pool s) = ∅ /\ Forall (fun g => go_cancelled g = true) (p_goroutines (lp_pool s));
}.

Lemma view_some p key : is_Some (pool_view p !! key) <-> is_Some (p_entries p !! key).
Proof. rewrite view_lookup. apply fmap_is_Some. Qed.

(** After a pass, an informer runs only for an installed interest. *)
Lemma pass_used e snapshot s key :
  is_Some (p_entries (lp_pool (loop_pass e snapshot s)) !! key) -> used (lp_table (loop_pass e snapshot s)) key.
Proof.
  rewrite <- view_some. pose proof (loop_pass_refines e snapshot s) as Hr.
  destruct (reconcilePool _ _ _ _) as [m' effs] eqn:Er. destruct Hr as [Hm _].
  unfold used. rewrite loop_pass_table, <- translate_wanted.
  replace (pool_view (lp_pool (loop_pass e snapshot s))) with (m_pool m') by (by rewrite <- Hm).
  unfold reconcilePool in Er. destruct (translate (pe_resolve e) snapshot) as [desired wanted].
  destruct (replace desired _) as [t removed]. injection Er as <- _. cbn [m_pool]. rewrite retain_lookup. cbn [snd].
  destruct (wanted !! key); [by eexists|]. by intros [? [=]].
Qed.

Lemma informers_step l s s' : loop_step S l s = Some s' -> informers_ok s -> informers_ok s'.
Proof.
  intros E [Hp Hu Hr]. destruct l as [op|t| |id|key inf| | | | | | | |e|]; cbn [loop_step] in E.
  - injection E as <-. by split.
  - destruct (Z.leb _ _); [|done]. injection E as <-. by split.
  - injection E as <-. split; cbn; [by eapply pool_ok_cancel|done|]. intros Hph. destruct (Hr Hph) as [He _]. split; [done|].
    apply Forall_forall. intros g (g0 & -> & _)%list_elem_of_fmap. done.
  - destruct (p_goroutines (lp_pool s) !! id) as [[key [] ret]|] eqn:Eg; [|done..]. injection E as <-. split; cbn; [|done|].
    + by eapply pool_ok_return.
    + intros Hph. destruct (Hr Hph) as [He HF]. split; [done|]. by apply Forall_insert.
  - injection E as <-. split; cbn.
    + by apply pool_ok_indexer.
    + intros k. rewrite lookup_alter. case_decide; [subst|apply Hu]. rewrite fmap_is_Some. apply Hu.
    + intros Hph. destruct (Hr Hph) as [He HF]. split; [|done]. rewrite He. apply map_eq. intros k. rewrite lookup_alter, !lookup_empty. by case_decide.
  - destruct (lp_phase s) eqn:Hph; try done. injection E as <-. by split.
  - destruct (lp_phase s) eqn:Hph; try done. destruct (changes (lp_registry s)) eqn:Hch; cbn in E; rewrite ?Hch in E; [|done].
    injection E as <-. destruct (lp_settleDone s); by split.
  - destruct (lp_phase s) eqn:Hph; try done. destruct (changes (lp_registry s)) eqn:Hch; cbn in E; rewrite ?Hch in E; [|done].
    injection E as <-. split; cbn; by rewrite ?Hph.
  - destruct (lp_phase s) eqn:Hph; try done. destruct (Z.leb _ _); [|done]. injection E as <-. by split.
  - destruct (lp_phase s) eqn:Hph; try done. destruct (lp_ctxDone s) eqn:Hc; [|done]. injection E as <-. split; cbn; by rewrite ?Hc.
  - destruct (lp_phase s) eqn:Hph; try done. destruct (lp_settle s) as [at_|]; [|done]. destruct (Z.leb _ _); [|done].
    injection E as <-. unfold markSettled. cbn. destruct (lp_settleDone s); split; cbn; by rewrite ?Hph.
  - destruct (lp_phase s) eqn:Hph; try done. destruct (Z.leb _ _); [|done]. injection E as <-. by split.
  - destruct (lp_phase s) as [| | |snapshot|] eqn:Hph; try done. injection E as <-. split; cbn [set_phase lp_ctxDone lp_pool lp_table lp_phase];
      [|apply pass_used|done].
    destruct (loop_pass_frame e snapshot s) as (_ & _ & _ & _ & ->). unfold loop_pass.
    destruct (translate (pe_resolve e) snapshot) as [desired wanted]. destruct (replace desired _). by apply pool_ok_retain.
  - destruct (lp_phase s) eqn:Hph; try done. destruct (lp_ctxDone s) eqn:Hc; [|done]. injection E as <-.
    assert (HF : Forall (fun g => go_cancelled g = true) (p_goroutines (pool_stopAll (lp_pool s))))
      by (apply Forall_forall; intros g; by eapply stopAll_cancels).
    split; cbn [set_phase set_pool lp_ctxDone lp_pool lp_table lp_phase]; [|intros key; cbn; rewrite lookup_empty; by intros [? [=]]|done].
    split; [by intros k e; cbn; rewrite lookup_empty|]. intros id g Hl Hcf. rewrite Forall_forall in HF.
    by rewrite (HF g) in Hcf by (by eapply list_elem_of_lookup_2).
Qed.

Lemma informers_run r ls s : loop_run S ls (newLoop r) = Some s -> informers_ok s.
Proof.
  apply loop_run_ind; [apply informers_step|]. split; [split|..]; cbn; try done; intros *;
    by rewrite ?lookup_empty, ?lookup_nil || intros [? [=]].
Qed.

(** C22. No informer is left behind. In every state of every run, an informer
    goroutine that has not been cancelled has its entry in the pool, so that there is
    at most one per target, and serves an interest that is installed; an entry's
    goroutine is one of its own target and is cancelled only with the whole process;
    and once the loop has returned, every goroutine it ever started is cancelled. *)
Theorem no_informer_leaked r ls s :
  loop_run S ls (newLoop r) = Some s ->
  (forall id g, p_goroutines (lp_pool s) !! id = Some g -> go_cancelled g = false ->
     used (lp_table s) (go_key g) /\ exists e, p_entries (lp_pool s) !! go_key g = Some e /\ ie_id e = id) /\
  (forall key e, p_entries (lp_pool s) !! key = Some e ->
     exists g, p_goroutines (lp_pool s) !! ie_id e = Some g /\ go_key g = key /\ (go_cancelled g = true -> lp_ctxDone s = true)) /\
  (lp_phase s = Returned -> Forall (fun g => go_cancelled g = true) (p_goroutines (lp_pool s))).
Proof.
  intros Hr. destruct (informers_run r ls s Hr) as [[He Hg] Hu Ht]. split; [|split; [done|]].
  - intros id g Hl Hc. destruct (Hg _ _ Hl Hc) as (e & Hk & Hid). split; [|by exists e]. apply Hu. by eexists.
  - intros Hp. by apply Ht.
Qed.
End props.

(** ** Samples *)

Module LoopSamples.
#[local] Instance names : ResourceNames := Samples.k8s_names.
#[local] Instance selectors : LabelSelectors := WatchManager.Samples.existence_selectors.
#[local] Instance parses : SelectorAPI := WatchManager.Samples.verbatim_selectors.

Definition settings : loopSettings := mkSettings defaultResyncPeriod defaultDebounceDelay defaultSettleQuietPeriod stopWaitTimeout.
Definition running : startAnswer := mkStartAnswer None None None (mkInformer (fun _ => Ok None) true).
Definition discovered : passEnv := mkPassEnv WatchManager.Samples.discover (fun _ _ => running).

Definition target (kind ns : string) : WatchTarget := mkTarget "ch" (mkGVK "" "v1" kind) ns "" "".
Definition add_pods : regOp := OpUpsert "streamrule/prod/a" [target "Pod" "prod"].
Definition add_nodes : regOp := OpUpsert "clusterstreamrule//b" [target "Node" ""; target "Pod" "prod"].

(** Two rules arrive within one debounce window. *)
Definition burst : list loopLabel :=
  [LBegin; LPass discovered; LRegistry add_pods; LTime second; LChange; LRegistry add_nodes; LSwallow; LTime (2 * second)].
Definition quiet : list loopLabel := [LWindow; LPass discovered; LTime (40 * second); LTick; LPass discovered; LSettle].

Definition run_from (s : loopState) (ls : list loopLabel) : loopState := default s (loop_run settings ls s).
Definition runs (s : loopState) (ls : list loopLabel) : bool := bool_decide (is_Some (loop_run settings ls s)).
Lemma run_from_some s ls : runs s ls = true -> loop_run settings ls s = Some (run_from s ls).
Proof. unfold runs, run_from. destruct (loop_run settings ls s); [done|]. intros H%bool_decide_eq_true. by destruct H. Qed.

Definition bursting : loopState := run_from (newLoop New) burst.
Definition calm : loopState := run_from bursting quiet.

Lemma burst_runs : loop_run settings burst (newLoop New) = Some bursting.
Proof. apply run_from_some. vm_compute. reflexivity. Qed.
Lemma quiet_runs : loop_run settings quiet bursting = Some calm.
Proof. apply run_from_some. vm_compute. reflexivity. Qed.

Lemma registry_changes_reconciled_witness :
  size (current (lp_table bursting)) = 0%nat /\ size (current (lp_table calm)) = 2%nat /\
  up_to_date (last_pass None (burst ++ quiet)) calm.
Proof.
  split; [vm_compute; reflexivity|]. split; [vm_compute; reflexivity|].
  apply (proj2 (registry_changes_reconciled settings New burst bursting burst_runs ltac:(vm_compute; reflexivity)) quiet calm eq_refl quiet_runs).
  vm_compute. repeat constructor.
Defined.

Definition closing : list loopLabel := [LRegistry (OpRemove "clusterstreamrule//b"); LChange; LTime (41 * second); LWindow; LPass discovered; LCancel; LStop].
Definition closed : loopState := run_from (newLoop New) (burst ++ quiet ++ closing).

Lemma closing_runs : loop_run settings (burst ++ quiet ++ closing) (newLoop New) = Some closed.
Proof. apply run_from_some. vm_compute. reflexivity. Qed.

Lemma no_informer_leaked_witness :
  length (p_goroutines (lp_pool calm)) = 2%nat /\ lp_phase closed = Returned /\
  Forall (fun g => go_cancelled g = true) (p_goroutines (lp_pool closed)).
Proof.
  split; [vm_compute; reflexivity|]. split; [vm_compute; reflexivity|].
  apply (proj2 (proj2 (no_informer_leaked settings New _ closed closing_runs))). vm_compute. reflexivity.
Defined.

(** The settle signal is given although a rule was written in that very instant and
    is not installed: a pass took longer than the quiet period, so that both the
    notification and the timer are ready when the loop selects again. *)
Lemma settled_with_change_pending :
  exists s, loop_run settings [LBegin; LTime (6 * second); LRegistry add_pods; LPass discovered; LSettle] (newLoop New) = Some s /\
    lp_settleDone s = true /\ changes (lp_registry s) = true /\ size (Snapshot (lp_registry s)) = 1%nat /\
    size (current (lp_table s)) = 0%nat.
Proof. eexists. split; [apply run_from_some; vm_compute; reflexivity|]. vm_compute. repeat split. Qed.

(** And a notification swallowed in a debounce window does not restart the quiet
    period: the signal comes half a window early. *)
Lemma settled_early :
  exists s, loop_run settings
      [LBegin; LPass discovered; LRegistry add_pods; LChange; LTime 499000000; LRegistry add_nodes; LSwallow;
       LTime 500000000; LWindow; LPass discovered; LTime (5 * second); LSettle] (newLoop New) = Some s /\
    lp_settleDone s = true /\ (lp_now s - 499000000 < defaultSettleQuietPeriod)%Z.
Proof. eexists. split; [apply run_from_some; vm_compute; reflexivity|]. vm_compute. repeat split. Qed.
End LoopSamples.
