(* ===== verification/WorkersProps.v ===== *)
(** * WorkersProps: no item is lost, none is worked on twice at once

    Against the interface of the work queue: every item added before shutdown is
    handed out afterwards, to one worker at a time, and shutdown lets the workers
    settle what is queued and end. *)

From Stdlib Require Import ZArith Lia.
From stdpp Require Import base gmap strings list.
From S2P Require Import Prelude Identity HashCache Sha256 Json Redact Normalize Pipeline JsonPatch Process Warm ProcessFacts ProcessSpec ProcessProps Workers.

(** ** What the pipeline asks of the queue *)

Section calls.
Context `{C : ZstdCodec} `{U : UnstructuredAPI} `{D : JsonDiff}.

Definition not_done (c : queueCall) : Prop := match c with QDone _ => False | _ => True end.

(** The calls recorded since [base] hand nothing back. *)
Definition asks (base : list queueCall) (s : pstate) : Prop := exists cs, queue s = base ++ cs /\ Forall not_done cs.

Lemma asks_same base s s' : queue s' = queue s -> asks base s -> asks base s'.
Proof. intros E (cs & Hq & Hc). exists cs. by rewrite E. Qed.

Lemma asks_modify base f : (forall s, queue (f s) = queue s) -> keeps (asks base) (modify f).
Proof. intros Hf s Hs. cbn. by apply (asks_same base s). Qed.

Lemma asks_call base c : not_done c -> keeps (asks base) (queue_call c).
Proof.
  intros Hc s (cs & Hq & Hf). exists (cs ++ [c]). cbn. rewrite Hq, app_assoc. split; [done|].
  apply Forall_app. by repeat constructor.
Qed.

Lemma asks_on_cache {A} base loc (op : hashCache -> hashCache * A) : keeps (asks base) (on_cache loc op).
Proof. intros s Hs. unfold on_cache. destruct (op _). by apply (asks_same base s). Qed.

Lemma asks_on_closeOuts {A} base loc (op : gmap string (list Record_) -> gmap string (list Record_) * A) :
  keeps (asks base) (on_closeOuts loc op).
Proof. intros s Hs. unfold on_closeOuts. destruct (op _). by apply (asks_same base s). Qed.

Lemma asks_now base e : keeps (asks base) (now e).
Proof. intros s Hs. by apply (asks_same base s). Qed.

Lemma asks_allow base e key : keeps (asks base) (allow e key).
Proof.
  unfold allow. apply keeps_bind; [apply asks_now|]. intros t s Hs. destruct (throttle_allow _ _ _ _). by apply (asks_same base s).
Qed.

Lemma asks_registry_get base name : keeps (asks base) (registry_get name).
Proof. intros s Hs. unfold registry_get. destruct (states s !! name); [done|]. by apply (asks_same base s). Qed.

Lemma asks_Enqueue base writer name job : keeps (asks base) (Enqueue writer name job).
Proof. intros s Hs. unfold Enqueue. destruct (w_Enqueue _ _ _); by apply (asks_same base s). Qed.

Lemma asks_retry base key : keeps (asks base) (queue_call (QAddRateLimited key)).
Proof. by apply asks_call. Qed.

Lemma asks_add base key : keeps (asks base) (Add key).
Proof. by apply asks_call. Qed.

Lemma asks_load base loc okey : keeps (asks base) (load loc okey).
Proof. by intros s Hs. Qed.

Lemma asks_is_warm base loc key : keeps (asks base) (is_warm loc key).
Proof. by intros s Hs. Qed.

#[local] Hint Resolve asks_is_warm asks_load asks_on_cache asks_on_closeOuts asks_now asks_allow asks_registry_get asks_Enqueue asks_retry asks_add : keeps.
#[local] Hint Extern 1 (keeps (asks _) (modify _)) => apply asks_modify; intros; reflexivity : keeps.
#[local] Hint Extern 1 (keeps (asks _) (recordCacheEntries _ _)) => apply asks_modify; intros; reflexivity : keeps.
#[local] Hint Extern 1 (keeps (asks _) (recordScopeUnwarmed _)) => apply asks_modify; intros; reflexivity : keeps.
#[local] Hint Extern 1 (keeps (asks _) (inc_dropped _)) => apply asks_modify; intros; reflexivity : keeps.
#[local] Hint Extern 1 (keeps (asks _) inc_dedupSkips) => apply asks_modify; intros; reflexivity : keeps.

Lemma asks_enqueueCloseOut base key loc writer okey r : keeps (asks base) (enqueueCloseOut key loc writer okey r).
Proof. unfold enqueueCloseOut, remember_closeOut. keeps_steps. Qed.

Lemma asks_retryPending base key loc writer okey : keeps (asks base) (retryPendingCloseOuts key loc writer okey).
Proof.
  unfold retryPendingCloseOuts. keeps_steps. induction a as [|r rs IH]; cbn [enqueueCloseOuts]; keeps_steps.
  apply asks_enqueueCloseOut.
Qed.
#[local] Hint Resolve asks_enqueueCloseOut asks_retryPending : keeps.

Lemma asks_processUpsert base e key loc writer obj okey : keeps (asks base) (processUpsert e key loc writer obj okey).
Proof.
  unfold processUpsert, closeOutOld, export, revertVersion. keeps_steps.
  all: apply keeps_when; keeps_steps.
Qed.

Lemma asks_emitDelete base e key loc writer uid : keeps (asks base) (emitDelete e key loc writer uid).
Proof. unfold emitDelete. keeps_steps. Qed.

Lemma asks_forgetEphemeral base key loc : keeps (asks base) (forgetEphemeral key loc).
Proof. unfold forgetEphemeral. keeps_steps. Qed.
#[local] Hint Resolve asks_processUpsert asks_emitDelete asks_forgetEphemeral : keeps.

Lemma asks_Process base e key : keeps (asks base) (Process e key).
Proof. unfold Process. keeps_steps. Qed.

Lemma asks_run_commit base c ok : keeps (asks base) (run_commit c ok).
Proof. unfold run_commit, revertVersion, remember_closeOut. keeps_steps. Qed.

Lemma asks_refl s : asks (queue s) s.
Proof. exists []. by rewrite app_nil_r. Qed.

(** The calls of one item: some that hand nothing back, then the item's own. *)
Lemma processNext_calls e key s :
  exists cs, queue (processNext e key s).1 = queue s ++ cs ++ [QDone key] /\ Forall not_done cs.
Proof.
  unfold processNext. pose proof (asks_Process (queue s) e key s (asks_refl s)) as (cs & Hq & Hc).
  unfold mbind, M_bind. destruct (Process e key s) as [s1 err]. cbn in Hq.
  exists (cs ++ [match err with Some _ => QAddRateLimited key | None => QForget key end]). split.
  - destruct err; cbn; rewrite Hq, <- !app_assoc; done.
  - apply Forall_app. split; [done|]. destruct err; by repeat constructor.
Qed.
End calls.

(** ** The queue's view under calls that hand nothing back *)

Record grows (v v' : wqView) : Prop := {
  gr_processing : v_processing v' = v_processing v;
  gr_shut : v_shut v' = v_shut v;
  gr_queued : v_queued v ⊆ v_queued v';
  gr_again : v_again v ⊆ v_again v' /\ v_again v' ⊆ v_again v ∪ v_processing v;
  gr_fresh : forall k, k ∈ v_queued v' -> k ∈ v_queued v \/ k ∉ v_processing v;
  gr_NoDup : NoDup (v_queued v) -> NoDup (v_queued v');
  gr_closed : v_shut v = true -> v_queued v' = v_queued v /\ v_again v' = v_again v;
}.

Lemma grows_refl v : grows v v.
Proof. split; try done; [split; set_solver|auto]. Qed.

Lemma grows_trans v1 v2 v3 : grows v1 v2 -> grows v2 v3 -> grows v1 v3.
Proof.
  intros H1 H2. split.
  - by rewrite (gr_processing _ _ H2), (gr_processing _ _ H1).
  - by rewrite (gr_shut _ _ H2), (gr_shut _ _ H1).
  - pose proof (gr_queued _ _ H1). pose proof (gr_queued _ _ H2). set_solver.
  - pose proof (gr_again _ _ H1). pose proof (gr_again _ _ H2). rewrite (gr_processing _ _ H1) in *. set_solver.
  - intros k Hk. destruct (gr_fresh _ _ H2 k Hk) as [Hq|Hq]; [by apply (gr_fresh _ _ H1)|].
    right. by rewrite (gr_processing _ _ H1) in Hq.
  - intros Hn. by apply (gr_NoDup _ _ H2), (gr_NoDup _ _ H1).
  - intros Hs. destruct (gr_closed _ _ H1 Hs) as [Eq Ea].
    destruct (gr_closed _ _ H2) as [Eq2 Ea2]; [by rewrite (gr_shut _ _ H1)|]. by rewrite Eq2, Ea2.
Qed.

Lemma grows_add k v : grows v (view_add k v).
Proof.
  unfold view_add. destruct (v_shut v) eqn:Hs; [apply grows_refl|]. case_bool_decide as Hp.
  { split; cbn; try done; [set_solver|auto|congruence]. }
  case_bool_decide as Hq; [apply grows_refl|]. split; cbn; try done.
  - set_solver.
  - set_solver.
  - intros k'. rewrite elem_of_app, list_elem_of_singleton. intros [?| ->]; auto.
  - intros Hn. apply NoDup_app. split; [done|]. split; [|apply NoDup_singleton]. set_solver.
  - congruence.
Qed.

Section queue.
Context `{WQ : WorkQueue} `{C : ZstdCodec} `{U : UnstructuredAPI} `{D : JsonDiff}.

(** Delays are not part of what [grows] speaks about. *)
Lemma grows_delayed q p a d s d' : grows (mkView q p a d s) (mkView q p a d' s).
Proof. split; cbn; try done; [set_solver|auto]. Qed.

Lemma grows_call c q : not_done c -> grows (wq_view q) (wq_view (make_call c q)).
Proof.
  intros Hc. destruct c as [k|k|k|k]; cbn [make_call]; [| | |done].
  - rewrite wq_Add_view. apply grows_add.
  - rewrite wq_AddRateLimited_view. cbv zeta. destruct (wq_view q) as [qd p a d s]. cbn. destruct s; [apply grows_refl|apply grows_delayed].
  - rewrite wq_Forget_view. apply grows_refl.
Qed.

Lemma grows_calls cs q : Forall not_done cs -> grows (wq_view q) (wq_view (make_calls cs q)).
Proof.
  intros Hc. revert q. induction Hc as [|c cs Hc _ IH]; intros q; [apply grows_refl|].
  cbn [make_calls foldl]. eapply grows_trans; [by apply grows_call|apply IH].
Qed.

Lemma grows_Elapse i q : grows (wq_view q) (wq_view (wq_Elapse i q)).
Proof.
  rewrite wq_Elapse_view. cbv zeta. destruct (v_delayed (wq_view q) !! i); [|apply grows_refl].
  eapply grows_trans; [|apply grows_add]. destruct (wq_view q). apply grows_delayed.
Qed.

(** ** The pool *)

Abbreviation pv w := (wq_view (wp_queue w)).

Definition slot_key (x : slot) : option Key := match x with Holding k => Some k | _ => None end.
Definition held (w : workPool) : list Key := omap slot_key (wp_slots w).

Record pool_inv (w : workPool) : Prop := {
  pi_held : NoDup (held w) /\ forall k, k ∈ held w <-> k ∈ v_processing (pv w);
  pi_again : v_again (pv w) ⊆ v_processing (pv w);
  pi_queued : NoDup (v_queued (pv w)) /\ forall k, k ∈ v_queued (pv w) -> k ∉ v_processing (pv w);
  pi_exited : v_shut (pv w) = false -> Exited ∉ wp_slots w;
  pi_served : v_queued (pv w) = [] \/ exists x, x ∈ wp_slots w /\ x <> Exited;
  pi_settled : wp_handed w ≡ₚ wp_processed w ++ held w;
}.

(** A step that leaves the slots alone and lets the queue grow. *)
Lemma inv_grows w w' :
  grows (pv w) (pv w') -> wp_slots w' = wp_slots w -> wp_handed w' = wp_handed w -> wp_processed w' = wp_processed w ->
  pool_inv w -> wp_slots w <> [] -> pool_inv w'.
Proof.
  intros Hg Hs Hh Hd [[H1 H2] H3 [H4 H5] H6 H7 H8] Hne. unfold held in *. split.
  - unfold held. rewrite Hs, (gr_processing _ _ Hg). done.
  - rewrite (gr_processing _ _ Hg). pose proof (gr_again _ _ Hg). set_solver.
  - split; [by apply (gr_NoDup _ _ Hg)|]. rewrite (gr_processing _ _ Hg). intros k Hk.
    destruct (gr_fresh _ _ Hg k Hk); auto.
  - rewrite (gr_shut _ _ Hg), Hs. done.
  - rewrite Hs. destruct (v_shut (pv w)) eqn:Hsh.
    + destruct (gr_closed _ _ Hg Hsh) as [-> _]. done.
    + right. destruct (wp_slots w) as [|x l] eqn:E; [done|]. exists x. split; [by left|]. intros ->. apply H6; [done|]. by left.
  - unfold held. by rewrite Hs, Hh, Hd.
Qed.

Lemma omap_insert {A B} (f : A -> option B) l i x :
  l !! i = Some x ->
  exists rest, omap f l ≡ₚ option_list (f x) ++ rest /\ forall y, omap f (<[i := y]> l) ≡ₚ option_list (f y) ++ rest.
Proof.
  intros Hi. exists (omap f (take i l) ++ omap f (drop (S i) l)). split.
  - rewrite <- (take_drop_middle l i x Hi) at 1. rewrite omap_app. cbn. destruct (f x); cbn; [|done]. solve_Permutation.
  - intros y. rewrite insert_take_drop by (by eapply lookup_lt_Some). rewrite omap_app. cbn.
    destruct (f y); cbn; [|done]. solve_Permutation.
Qed.

Lemma inv_get i q key w :
  pool_inv w -> wp_slots w !! i = Some Idle ->
  v_queued (pv w) = key :: v_queued (wq_view q) -> v_processing (wq_view q) = {[ key ]} ∪ v_processing (pv w) ->
  v_again (wq_view q) = v_again (pv w) -> v_shut (wq_view q) = v_shut (pv w) ->
  pool_inv (set_slot i (Holding key) (mkWorkPool q (wp_pipe w) (wp_slots w) (wp_handed w ++ [key]) (wp_processed w))).
Proof.
  intros [[H1 H2] H3 [H4 H5] H6 H7 H8] Hi Eq Ep Ea Es. rewrite Eq in *. apply NoDup_cons in H4 as [H4 H4'].
  destruct (omap_insert slot_key (wp_slots w) i Idle Hi) as (rest & Hr & Hy). cbn in Hr.
  specialize (Hy (Holding key)). cbn in Hy. unfold held in *. assert (Hk : key ∉ v_processing (pv w)) by (apply H5; by left).
  assert (Hin : i < length (wp_slots w)) by (by eapply lookup_lt_Some).
  split; cbn [set_slot wp_queue wp_slots wp_handed wp_processed]; unfold held; cbn [set_slot wp_slots].
  - rewrite Ep. split.
    + rewrite Hy. cbn. apply NoDup_cons. split; [|by rewrite <- Hr]. rewrite <- Hr, H2. done.
    + intros k. rewrite Hy. cbn. rewrite elem_of_cons, elem_of_union, elem_of_singleton, <- Hr, H2. done.
  - rewrite Ea, Ep. set_solver.
  - rewrite Ep. split; [done|]. intros k Hq. rewrite elem_of_union, elem_of_singleton.
    intros [->|Hp]; [done|]. apply (H5 k); [by right|done].
  - rewrite Es. intros Hs Hin'. apply elem_of_insert_inv in Hin' as [?|?]; [done|]. by apply H6.
  - right. exists (Holding key). split; [|done]. by apply list_elem_of_insert.
  - rewrite Hy, H8, Hr. solve_Permutation.
Qed.

Lemma inv_exit i q w :
  pool_inv w -> wp_slots w !! i = Some Idle -> wq_view q = pv w -> v_queued (pv w) = [] -> v_shut (pv w) = true ->
  pool_inv (set_slot i Exited (mkWorkPool q (wp_pipe w) (wp_slots w) (wp_handed w) (wp_processed w))).
Proof.
  intros [[H1 H2] H3 [H4 H5] H6 H7 H8] Hi Ev Eq Es.
  destruct (omap_insert slot_key (wp_slots w) i Idle Hi) as (rest & Hr & Hy). specialize (Hy Exited). cbn in Hr, Hy.
  unfold held in *. split; cbn [set_slot wp_queue wp_slots wp_handed wp_processed]; unfold held; cbn [set_slot wp_slots];
    rewrite ?Ev; try done.
  - split; [by rewrite Hy, <- Hr|]. intros k. by rewrite Hy, <- Hr.
  - by rewrite Es.
  - by left.
  - by rewrite Hy, H8, Hr.
Qed.

(** [Done] on an item that is handed out. *)
Lemma view_done_facts k v :
  v_again v ⊆ v_processing v -> NoDup (v_queued v) -> (forall k, k ∈ v_queued v -> k ∉ v_processing v) -> k ∈ v_processing v ->
  let v' := view_done k v in
  v_processing v' = v_processing v ∖ {[ k ]} /\ v_again v' ⊆ v_processing v' /\ v_shut v' = v_shut v /\
  NoDup (v_queued v') /\ (forall k', k' ∈ v_queued v' -> k' ∉ v_processing v') /\
  (forall k', k' ∈ v_queued v \/ k' ∈ v_again v -> k' ∈ v_queued v' \/ k' ∈ v_again v') /\
  (length (v_queued v') + size (v_again v') = length (v_queued v) + size (v_again v))%nat.
Proof.
  intros Ha Hn Hq Hk. unfold view_done. cbv zeta. case_bool_decide as Hin; cbn.
  - split; [done|]. split; [set_solver|]. split; [done|]. split; [|split; [|split]].
    + apply NoDup_app. split; [done|]. split; [|apply NoDup_singleton]. intros x Hx ->%list_elem_of_singleton. by apply (Hq k).
    + intros k'. rewrite elem_of_app, list_elem_of_singleton. intros [Hk'| ->]; [|set_solver]. specialize (Hq k' Hk'). set_solver.
    + intros k' [?|?]; [set_solver|]. destruct (decide (k' = k)); set_solver.
    + rewrite length_app. cbn. assert (size (v_again v) = S (size (v_again v ∖ {[ k ]})))%nat as ->; [|lia].
      rewrite (union_difference_L {[ k ]} (v_again v)) at 1 by set_solver. rewrite size_union, size_singleton by set_solver. done.
  - split; [done|]. split; [set_solver|]. split; [done|]. split; [done|]. split; [|done]. intros k' Hk'. specialize (Hq k' Hk'). set_solver.
Qed.

Lemma done_facts w i key q :
  pool_inv w -> wp_slots w !! i = Some (Holding key) -> grows (pv w) (wq_view q) ->
  let v := wq_view q in let v' := view_done key v in
  v_processing v' = v_processing v ∖ {[ key ]} /\ v_again v' ⊆ v_processing v' /\ v_shut v' = v_shut v /\
  NoDup (v_queued v') /\ (forall k', k' ∈ v_queued v' -> k' ∉ v_processing v') /\
  (forall k', k' ∈ v_queued v \/ k' ∈ v_again v -> k' ∈ v_queued v' \/ k' ∈ v_again v') /\
  (length (v_queued v') + size (v_again v') = length (v_queued v) + size (v_again v))%nat.
Proof.
  intros [[H1 H2] H3 [H4 H5] _ _ _] Hs Hg. apply view_done_facts.
  - rewrite (gr_processing _ _ Hg). pose proof (gr_again _ _ Hg). set_solver.
  - by apply (gr_NoDup _ _ Hg).
  - rewrite (gr_processing _ _ Hg). intros k' Hk'. destruct (gr_fresh _ _ Hg k' Hk'); auto.
  - rewrite (gr_processing _ _ Hg). apply H2. unfold held. apply list_elem_of_omap. exists (Holding key).
    split; [by eapply list_elem_of_lookup_2|done].
Qed.

Lemma inv_done i key q w :
  pool_inv w -> wp_slots w !! i = Some (Holding key) -> grows (pv w) (wq_view q) ->
  forall s, pool_inv (set_slot i Idle (note_processed key (mkWorkPool (wq_Done key q) s (wp_slots w) (wp_handed w) (wp_processed w)))).
Proof.
  intros Hi Hs Hg s. pose proof Hi as [[H1 H2] H3 [H4 H5] H6 H7 H8].
  assert (Hne : wp_slots w <> []) by (intros E; by rewrite E in Hs).
  pose proof (inv_grows w (mkWorkPool q s (wp_slots w) (wp_handed w) (wp_processed w)) Hg eq_refl eq_refl eq_refl Hi Hne)
    as [[G1 G2] G3 [G4 G5] G6 G7 G8]. cbn [wp_queue wp_slots wp_handed wp_processed] in *. unfold held in *. cbn [wp_slots] in *.
  destruct (omap_insert slot_key (wp_slots w) i _ Hs) as (rest & Hr & Hy). specialize (Hy Idle). cbn in Hr, Hy.
  destruct (done_facts w i key q Hi Hs Hg) as (D1 & D2 & D3 & D4 & D5 & _ & _).
  assert (Hnr : key ∉ rest) by (rewrite Hr in G1; apply NoDup_cons in G1; apply G1).
  split; cbn [set_slot note_processed wp_queue wp_slots wp_handed wp_processed]; unfold held; cbn [set_slot note_processed wp_slots];
    rewrite ?wq_Done_view; try done.
  - split; [rewrite Hy; rewrite Hr in G1; by apply NoDup_cons in G1 as [_ ?]|]. intros k. rewrite Hy, D1.
    rewrite elem_of_difference, elem_of_singleton, <- G2, Hr, elem_of_cons. split; [|naive_solver].
    intros Hk'. split; [by right|]. by intros ->.
  - rewrite D3. intros Hsh Hin. apply elem_of_insert_inv in Hin as [?|?]; [done|]. by apply G6.
  - right. exists Idle. split; [|done]. apply list_elem_of_insert. by eapply lookup_lt_Some.
  - rewrite Hy, G8, Hr. solve_Permutation.
Qed.

Lemma inv_shut w : pool_inv w -> pool_inv (mkWorkPool (wq_ShutDown (wp_queue w)) (wp_pipe w) (wp_slots w) (wp_handed w) (wp_processed w)).
Proof.
  intros [H1 H3 H4 H6 H7 H8]. split; cbn [wp_queue wp_slots wp_handed wp_processed]; unfold held in *; cbn [wp_slots]; rewrite ?wq_ShutDown_view; done.
Qed.

(** What a step can be: a growth of the queue, a hand-out, the end of a worker, a
    settled item, or the shutdown. *)
Inductive step_kind (w w' : workPool) : Prop :=
| kind_grow : grows (pv w) (pv w') -> wp_slots w' = wp_slots w -> wp_handed w' = wp_handed w -> wp_processed w' = wp_processed w ->
    step_kind w w'
| kind_get i key rest q : wp_slots w !! i = Some Idle -> v_queued (pv w) = key :: rest ->
    wq_view q = mkView rest ({[ key ]} ∪ v_processing (pv w)) (v_again (pv w)) (v_delayed (pv w)) (v_shut (pv w)) ->
    w' = set_slot i (Holding key) (mkWorkPool q (wp_pipe w) (wp_slots w) (wp_handed w ++ [key]) (wp_processed w)) -> step_kind w w'
| kind_exit i q : wp_slots w !! i = Some Idle -> wq_view q = pv w -> v_queued (pv w) = [] -> v_shut (pv w) = true ->
    w' = set_slot i Exited (mkWorkPool q (wp_pipe w) (wp_slots w) (wp_handed w) (wp_processed w)) -> step_kind w w'
| kind_done i key q s : wp_slots w !! i = Some (Holding key) -> grows (pv w) (wq_view q) ->
    w' = set_slot i Idle (note_processed key (mkWorkPool (wq_Done key q) s (wp_slots w) (wp_handed w) (wp_processed w))) -> step_kind w w'
| kind_shut : w' = mkWorkPool (wq_ShutDown (wp_queue w)) (wp_pipe w) (wp_slots w) (wp_handed w) (wp_processed w) -> step_kind w w'.

Lemma on_pipe_grows {A} (m : M A) w :
  keeps (asks (queue (wp_pipe w))) m -> grows (pv w) (pv (on_pipe m w)).
Proof.
  intros Hm. destruct (Hm (wp_pipe w) (asks_refl _)) as (cs & Hq & Hc). unfold on_pipe. cbn [wp_queue].
  rewrite Hq, drop_app_length. by apply grows_calls.
Qed.

Lemma step_cases l w w' : pool_step l w = Some w' -> step_kind w w'.
Proof.
  intros E. destruct l as [key|i|i e|n ok|i|]; cbn [pool_step] in E.
  - injection E as <-. apply kind_grow; [|done..]. apply on_pipe_grows. apply asks_add.
  - destruct (wp_slots w !! i) as [[|key|]|] eqn:Hi; [|done..]. pose proof (wq_Get_view (wp_queue w)) as Hg.
    destruct (v_queued (pv w)) as [|k rest] eqn:Hq.
    + destruct (v_shut (pv w)) eqn:Hs; [|by rewrite Hg in E]. destruct Hg as (q & Hg & Hv). rewrite Hg in E. injection E as <-.
      by eapply kind_exit.
    + destruct Hg as (q & Hg & Hv). rewrite Hg in E. injection E as <-. by eapply kind_get.
  - destruct (wp_slots w !! i) as [[|key|]|] eqn:Hi; [done| |done..]. injection E as <-.
    destruct (processNext_calls e key (wp_pipe w)) as (cs & Hq & Hc). unfold on_pipe. rewrite Hq, drop_app_length.
    eapply (kind_done _ _ i key (make_calls cs (wp_queue w))); [done|by apply grows_calls|].
    unfold make_calls. by rewrite foldl_app.
  - destruct (sent (wp_pipe w) !! n) as [[name job]|]; [|done]. injection E as <-. apply kind_grow; [|done..].
    apply on_pipe_grows, asks_run_commit.
  - injection E as <-. apply kind_grow; [|done..]. apply grows_Elapse.
  - injection E as <-. by apply kind_shut.
Qed.

Lemma slots_length l w w' : pool_step l w = Some w' -> length (wp_slots w') = length (wp_slots w).
Proof.
  intros E. destruct (step_cases l w w' E) as [_ -> _ _|i key rest q _ _ _ ->|i q _ _ _ _ ->|i key q s _ _ ->| ->]; cbn; by rewrite ?length_insert.
Qed.

Lemma pool_inv_step l w w' : pool_step l w = Some w' -> wp_slots w <> [] -> pool_inv w -> pool_inv w'.
Proof.
  intros E Hne Hi. destruct (step_cases l w w' E) as [Hg Hs Hh Hd|i key rest q Hs Hq Hv ->|i q Hs Hv Hq Hsh ->|i key q s Hs Hg ->| ->].
  - by apply (inv_grows w).
  - apply inv_get; rewrite ?Hv; done.
  - by apply inv_exit.
  - by apply inv_done.
  - by apply inv_shut.
Qed.

(** An item that is owed to a worker. *)
Definition owed (k : Key) (w : workPool) : Prop := k ∈ v_queued (pv w) \/ k ∈ v_again (pv w).

Lemma owed_step l w w' k :
  pool_step l w = Some w' -> pool_inv w -> owed k w ->
  owed k w' \/ wp_handed w' = wp_handed w ++ [k].
Proof.
  intros E Hi Ho. unfold owed in *.
  destruct (step_cases l w w' E) as [Hg Hs Hh Hd|i key rest q Hs Hq Hv ->|i q Hs Hv Hq Hsh ->|i key q s Hs Hg ->| ->]; cbn.
  - left. pose proof (gr_queued _ _ Hg). pose proof (gr_again _ _ Hg). set_solver.
  - rewrite Hv. cbn. rewrite Hq, elem_of_cons in Ho. destruct Ho as [[->|Ho]|Ho]; auto.
  - left. by rewrite Hv.
  - left. rewrite wq_Done_view. destruct (done_facts w i key q Hi Hs Hg) as (_ & _ & _ & _ & _ & Hk & _).
    apply Hk. pose proof (gr_queued _ _ Hg). pose proof (gr_again _ _ Hg). set_solver.
  - left. by rewrite wq_ShutDown_view.
Qed.

(** ** Runs *)

Lemma run_inv ls w w' : pool_run ls w = Some w' -> wp_slots w <> [] -> pool_inv w -> pool_inv w' /\ wp_slots w' <> [].
Proof.
  revert w. induction ls as [|l ls IH]; intros w E Hne Hi; [by injection E as <-|].
  cbn [pool_run] in E. apply bind_Some in E as (w1 & E1 & E). apply (IH w1); [done| |by eapply pool_inv_step].
  pose proof (slots_length _ _ _ E1). by destruct (wp_slots w1), (wp_slots w).
Qed.

Lemma pool_inv_Start n s : n <> 0%nat -> pool_inv (pool_Start n s) /\ wp_slots (pool_Start n s) <> [].
Proof.
  intros Hn. split; [|by destruct n]. assert (Hh : held (pool_Start n s) = []) by (unfold held; cbn; clear Hn; by induction n).
  split; cbn [pool_Start wp_queue wp_slots wp_handed wp_processed]; rewrite ?Hh, ?wq_new_view; cbn; try done.
  - split; [constructor|]. set_solver.
  - split; [constructor|]. set_solver.
  - intros _ [? _]%elem_of_replicate. done.
  - by left.
Qed.

Lemma run_handed ls w w' : pool_run ls w = Some w' -> exists sfx, wp_handed w' = wp_handed w ++ sfx.
Proof.
  revert w. induction ls as [|l ls IH]; intros w E; [injection E as <-; exists []; by rewrite app_nil_r|].
  cbn [pool_run] in E. apply bind_Some in E as (w1 & E1 & E). destruct (IH w1 E) as (sfx & ->).
  destruct (step_cases l w w1 E1) as [_ _ Hh _|i key rest q _ _ _ ->|i q _ _ _ _ ->|i key q s _ _ ->| ->]; cbn; try (by eexists).
  - rewrite Hh. by eexists.
  - rewrite <- app_assoc. by eexists.
Qed.

Lemma returned_idle w : pool_inv w -> pool_returned w -> held w = [] /\ forall k, ~ owed k w.
Proof.
  intros [[H1 H2] H3 _ _ H7 _] Hr. assert (Hh : held w = []).
  { clear -Hr. unfold held. unfold pool_returned in Hr. induction Hr as [|x l -> _ IH]; done. }
  split; [done|]. rewrite Hh in H2. intros k [Hk|Hk].
  - destruct H7 as [H7|(x & Hx & Hn)]; [rewrite H7 in Hk; by apply not_elem_of_nil in Hk|].
    unfold pool_returned in Hr. rewrite Forall_forall in Hr. by apply Hn, Hr.
  - specialize (H2 k). apply H3, H2 in Hk. by apply not_elem_of_nil in Hk.
Qed.

Lemma owed_handed ls w w' k :
  pool_run ls w = Some w' -> wp_slots w <> [] -> pool_inv w -> owed k w -> pool_returned w' ->
  exists sfx, wp_handed w' = wp_handed w ++ sfx /\ k ∈ sfx.
Proof.
  revert w. induction ls as [|l ls IH]; intros w E Hne Hi Ho Hr.
  { injection E as <-. by apply (returned_idle w) in Ho. }
  cbn [pool_run] in E. apply bind_Some in E as (w1 & E1 & E).
  assert (wp_slots w1 <> []) by (pose proof (slots_length _ _ _ E1); by destruct (wp_slots w1), (wp_slots w)).
  assert (pool_inv w1) by (by eapply pool_inv_step). destruct (owed_step l w w1 k E1 Hi Ho) as [Ho1|Hh].
  - destruct (IH w1) as (sfx & -> & Hk); [done..|]. destruct (run_handed [l] w w1) as (s1 & ->); [cbn [pool_run]; by rewrite E1|].
    exists (s1 ++ sfx). rewrite app_assoc. set_solver.
  - destruct (run_handed ls w1 w' E) as (sfx & ->). exists (k :: sfx). rewrite Hh, <- app_assoc. set_solver.
Qed.

Lemma owed_add k w : v_shut (pv w) = false -> owed k (on_pipe (Add k) w).
Proof.
  intros Hs. unfold owed, on_pipe. cbn [wp_queue Add queue_call modify fst queue]. rewrite drop_app_length. cbn [make_calls foldl make_call].
  rewrite wq_Add_view. unfold view_add. rewrite Hs. case_bool_decide; [right; set_solver|]. case_bool_decide; cbn; set_solver.
Qed.

(** ** After the shutdown *)

Definition not_exited (x : slot) : bool := match x with Exited => false | _ => true end.
Definition alive (w : workPool) : nat := length (List.filter not_exited (wp_slots w)).

(** The steps the workers have left once nothing is added any more. *)
Definition work (w : workPool) : nat :=
  (3 * (length (v_queued (pv w)) + size (v_again (pv w))) + 2 * length (held w) + alive w)%nat.

Definition worker_label (l : poolLabel) : bool := match l with PGet _ | PProcess _ _ => true | _ => false end.

Lemma filter_insert {A} (p : A -> bool) l i x y :
  l !! i = Some x ->
  (length (List.filter p (<[i := y]> l)) + (if p x then 1 else 0) = length (List.filter p l) + (if p y then 1 else 0))%nat.
Proof.
  revert i. induction l as [|a l IH]; intros i Hi; [done|]. destruct i as [|i]; cbn in *.
  - injection Hi as ->. destruct (p x), (p y); cbn; lia.
  - specialize (IH i Hi). destruct (p a); cbn; [by f_equal|done].
Qed.

Lemma held_insert w i x y q s hd pr :
  wp_slots w !! i = Some x ->
  (length (held (mkWorkPool q s (<[i := y]> (wp_slots w)) hd pr)) + length (option_list (slot_key x)) =
   length (held w) + length (option_list (slot_key y)))%nat.
Proof.
  intros Hi. destruct (omap_insert slot_key _ i x Hi) as (rest & Hr & Hy). unfold held. cbn [wp_slots].
  rewrite (Hy y), Hr, !length_app. lia.
Qed.

Lemma work_step l w w' :
  pool_step l w = Some w' -> pool_inv w -> v_shut (pv w) = true ->
  v_shut (pv w') = true /\ (work w' + (if worker_label l then 1 else 0) <= work w)%nat.
Proof.
  intros E Hi Hsh. assert (Hl : worker_label l = true -> wp_slots w' <> wp_slots w).
  { intros Hl Hs. destruct l as [|i|i e| | |]; try done; cbn [pool_step] in E; destruct (wp_slots w !! i) as [[|key|]|] eqn:Hi'; try done.
    - destruct (wq_Get _) as [[q [key|]]|]; [| |done]; injection E as <-; cbn in Hs; rewrite <- Hs in Hi';
        rewrite list_lookup_insert_eq in Hi' by (rewrite Hs in Hi'; by eapply lookup_lt_Some); done.
    - injection E as <-. cbn in Hs. rewrite <- Hs in Hi';
        rewrite list_lookup_insert_eq in Hi' by (rewrite Hs in Hi'; by eapply lookup_lt_Some); done. }
  unfold work, alive.
  destruct (step_cases l w w' E) as [Hg Hs Hh Hd|i key rest q Hs Hq Hv ->|i q Hs Hv Hq _ ->|i key q s Hs Hg ->| ->]; cbn [wp_queue wp_slots set_slot note_processed].
  - split; [by rewrite (gr_shut _ _ Hg)|]. destruct (gr_closed _ _ Hg Hsh) as [-> ->]. unfold held. rewrite Hs.
    destruct (worker_label l) eqn:El; [by destruct (Hl eq_refl)|lia].
  - pose proof (held_insert w i Idle (Holding key) q (wp_pipe w) (wp_handed w ++ [key]) (wp_processed w) Hs) as Hk.
    pose proof (filter_insert not_exited _ i Idle (Holding key) Hs) as Hf. cbn in Hk, Hf. unfold set_slot.
    rewrite Hv, Hq. cbn. split; [done|]. destruct (worker_label l); lia.
  - pose proof (held_insert w i Idle Exited q (wp_pipe w) (wp_handed w) (wp_processed w) Hs) as Hk.
    pose proof (filter_insert not_exited _ i Idle Exited Hs) as Hf. cbn in Hk, Hf. rewrite Hv. unfold set_slot. cbn.
    split; [done|]. destruct (worker_label l); lia.
  - pose proof (held_insert w i _ Idle (wq_Done key q) s (wp_handed w) (wp_processed w ++ [key]) Hs) as Hk.
    pose proof (filter_insert not_exited _ i _ Idle Hs) as Hf. cbn in Hk, Hf. rewrite wq_Done_view.
    destruct (done_facts w i key q Hi Hs Hg) as (_ & _ & D3 & _ & _ & _ & D7). unfold set_slot, note_processed. cbn [wp_slots wp_queue].
    rewrite D3, (gr_shut _ _ Hg). split; [done|]. destruct (gr_closed _ _ Hg Hsh) as [E1 E2]. rewrite E1, E2 in D7.
    cbn in *. destruct (worker_label l); lia.
  - rewrite wq_ShutDown_view. cbn. split; [done|]. destruct (worker_label l); [by destruct (Hl eq_refl)|]. unfold held. cbn [wp_slots]. lia.
Qed.

Definition worker_steps (ls : list poolLabel) : nat := length (List.filter worker_label ls).

Lemma work_run ls w w' :
  pool_run ls w = Some w' -> wp_slots w <> [] -> pool_inv w -> v_shut (pv w) = true -> (work w' + worker_steps ls <= work w)%nat.
Proof.
  revert w. induction ls as [|l ls IH]; intros w E Hne Hi Hs; [injection E as <-; cbn; lia|].
  cbn [pool_run] in E. apply bind_Some in E as (w1 & E1 & E). destruct (work_step l w w1 E1 Hi Hs) as [Hs1 Hw].
  destruct (run_inv [l] w w1) as [Hi1 Hne1]; [cbn [pool_run]; by rewrite E1|done..|]. specialize (IH w1 E Hne1 Hi1 Hs1).
  unfold worker_steps in *. cbn [List.filter]. destruct (worker_label l); cbn [length]; lia.
Qed.

(** A worker can go on while one has not ended. *)
Lemma worker_enabled w :
  v_shut (pv w) = true -> ~ pool_returned w ->
  (exists i, is_Some (pool_step (PGet i) w)) \/ (exists i, forall e, is_Some (pool_step (PProcess i e) w)).
Proof.
  intros Hs Hr. unfold pool_returned in Hr.
  assert (exists i x, wp_slots w !! i = Some x /\ x <> Exited) as (i & x & Hi & Hx).
  { clear Hs. induction (wp_slots w) as [|x l IH]; [by destruct Hr; constructor|].
    destruct x as [|key|]; [by exists 0%nat, Idle|by exists 0%nat, (Holding key)|].
    destruct IH as (i & x & Hi & Hx); [intros H; apply Hr; by constructor|]. by exists (S i), x. }
  destruct x as [|key|]; [left|right|done]; exists i; cbn [pool_step]; rewrite Hi; [|by eexists].
  pose proof (wq_Get_view (wp_queue w)) as Hg. destruct (v_queued (pv w)).
  - rewrite Hs in Hg. destruct Hg as (q & -> & _). by eexists.
  - destruct Hg as (q & -> & _). by eexists.
Qed.

(** C8. No item is lost and none is worked on by two workers at once. Whatever the
    order of adds, hand-outs, processing results, retries whose delay ends, late
    commit callbacks and the shutdown: the items held by the workers are pairwise
    different, and an item added before the shutdown is handed to a worker after
    that add and before [Start] returns, at which point every hand-out was
    settled. *)
Theorem every_add_processed n s0 ls1 w1 key ls2 w :
  n <> 0%nat -> pool_run ls1 (pool_Start n s0) = Some w1 -> v_shut (pv w1) = false ->
  pool_run (PAdd key :: ls2) w1 = Some w -> pool_returned w ->
  NoDup (held w1) /\ (exists later, wp_handed w = wp_handed w1 ++ later /\ key ∈ later) /\ wp_handed w ≡ₚ wp_processed w.
Proof.
  intros Hn E1 Hs E Hr. destruct (pool_inv_Start n s0 Hn) as [Hi Hne].
  destruct (run_inv _ _ _ E1 Hne Hi) as [Hi1 Hne1]. destruct (run_inv _ _ _ E Hne1 Hi1) as [Hi2 _].
  split; [apply Hi1|]. split.
  - cbn [pool_run] in E. apply bind_Some in E as (w2 & E2 & E). destruct (run_inv [PAdd key] w1 w2) as [Hi3 Hne3]; [cbn [pool_run]; by rewrite E2|done..|].
    cbn [pool_step] in E2. injection E2 as <-. by apply (owed_handed ls2 (on_pipe (Add key) w1) w key E Hne3 Hi3 (owed_add key w1 Hs)).
  - rewrite (pi_settled _ Hi2). destruct (returned_idle w Hi2 Hr) as [-> _]. by rewrite app_nil_r.
Qed.

(** C39. After the shutdown the pool drains: however the remaining events interleave,
    the workers take at most [work] more steps (three per queued item, two per
    held item, one per worker), and while one of them has not ended, a worker can
    take a step, whatever processing its item answers. *)
Theorem workers_drain n s0 ls w :
  n <> 0%nat -> pool_run ls (pool_Start n s0) = Some w -> v_shut (pv w) = true ->
  (forall ls' w', pool_run ls' w = Some w' -> (worker_steps ls' <= work w)%nat) /\
  (~ pool_returned w ->
   (exists i, is_Some (pool_step (PGet i) w)) \/ (exists i, forall e, is_Some (pool_step (PProcess i e) w))).
Proof.
  intros Hn E Hs. destruct (pool_inv_Start n s0 Hn) as [Hi Hne]. destruct (run_inv _ _ _ E Hne Hi) as [Hi1 Hne1].
  split; [|by apply worker_enabled]. intros ls' w' E'. pose proof (work_run ls' w w' E' Hne1 Hi1 Hs). lia.
Qed.
End queue.

(** ** Witnesses *)

Module WorkerSamples.
(** Two workers; the pod changes while one of them holds it and is gone when the
    other looks. *)
Definition busy : list poolLabel := [PAdd pod_key; PGet 1].
Definition again : list poolLabel :=
  [PProcess 1 pod_env; PGet 0; PProcess 0 gone_env; PShutDown; PGet 1; PGet 0].

Definition run_from (w : workPool) (ls : list poolLabel) : workPool := default w (pool_run ls w).
Definition runs (w : workPool) (ls : list poolLabel) : bool := bool_decide (is_Some (pool_run ls w)).
Lemma worker_run_some w ls : runs w ls = true -> pool_run ls w = Some (run_from w ls).
Proof. unfold runs, run_from. destruct (pool_run ls w); [done|]. intros H%bool_decide_eq_true. by destruct H. Qed.

Definition holding : workPool := run_from (pool_Start 2 newPipeline) busy.
Definition emptied : workPool := run_from holding (PAdd pod_key :: again).

Lemma busy_runs : pool_run busy (pool_Start 2 newPipeline) = Some holding.
Proof. apply worker_run_some. vm_compute. reflexivity. Qed.
Lemma again_runs : pool_run (PAdd pod_key :: again) holding = Some emptied.
Proof. apply worker_run_some. vm_compute. reflexivity. Qed.

Lemma every_add_processed_witness :
  wp_handed holding = [pod_key] /\ exists later, wp_handed emptied = wp_handed holding ++ later /\ pod_key ∈ later.
Proof.
  split; [vm_compute; reflexivity|].
  apply (every_add_processed 2 newPipeline busy holding pod_key again emptied); [done|exact busy_runs|vm_compute; reflexivity|exact again_runs|].
  vm_compute. repeat constructor.
Defined.

Definition stopping : workPool := run_from (pool_Start 2 newPipeline) (busy ++ [PAdd pod_key; PShutDown]).
Lemma stopping_runs : pool_run (busy ++ [PAdd pod_key; PShutDown]) (pool_Start 2 newPipeline) = Some stopping.
Proof. apply worker_run_some. vm_compute. reflexivity. Qed.

Lemma workers_drain_witness :
  work stopping = 7%nat /\ forall ls' w', pool_run ls' stopping = Some w' -> (worker_steps ls' <= 7)%nat.
Proof.
  split; [vm_compute; reflexivity|]. 
  apply (workers_drain 2 newPipeline _ stopping ltac:(done) stopping_runs). vm_compute. reflexivity.
Defined.
End WorkerSamples.
