(* ===== verification/MetricsProps.v ===== *)
(** * MetricsProps: what a scrape shows of a sink

    The write path's series against an abstract account: per sink, the reports made
    since its first view through views that are not older than its last removal. *)

From Stdlib Require Import ZArith Lia Btauto.
From stdpp Require Import base gmap strings list.
From S2P Require Import Prelude Identity HashCache Sha256 Json Redact Normalize Pipeline JsonPatch Process ProcessFacts ProcessSpec ProcessProps Metrics.

Section account.
Context {F : Type} (f0 : F).

Abbreviation report := (report F).
Abbreviation child := (child F).
Abbreviation metricsOp := (metricsOp F).

(** ** The account *)

(** Per view, its sink and whether it is newer than the sink's last removal; per
    sink that has such a view, the reports made through them. *)
Record account := mkAccount { ac_views : list (string * bool); ac_reports : gmap string (list report) }.

Definition account_step (op : metricsOp) (a : account) : option account :=
  match op with
  | MForSink name =>
      Some (mkAccount (ac_views a ++ [(name, true)]) (<[name := default [] (ac_reports a !! name)]> (ac_reports a)))
  | MReport view r =>
      match ac_views a !! view with
      | Some (name, true) => Some (mkAccount (ac_views a) (alter (fun rs => rs ++ [r]) name (ac_reports a)))
      | Some (_, false) => Some a
      | None => None
      end
  | MRemove name =>
      Some (mkAccount ((fun v => if String.eqb v.1 name then (v.1, false) else v) <$> ac_views a) (delete name (ac_reports a)))
  | _ => Some a
  end.

Fixpoint account_run (ops : list metricsOp) (a : account) : option account :=
  match ops with
  | [] => Some a
  | op :: rest => a' ← account_step op a; account_run rest a'
  end.

Definition no_views : account := mkAccount [] ∅.

(** The series of a view. *)
Definition sink_series (name : string) : list series :=
  [(WriteQueueDepth, [name]); (WriteQueueCapacity, [name]); (WritesTotal, [name; "success"]); (WritesTotal, [name; "failed"]);
   (WriteLatency, [name]); (WriteRetryAttempts, [name]); (WriteBatchRows, [name]); (EnqueueBlock, [name]); (EnqueueTimeouts, [name])].

(** The series a report is for, and what it does to it. *)
Definition writes_to (name : string) (r : report) : series * (child -> child) :=
  match r with
  | RQueueDepth n => ((WriteQueueDepth, [name]), set_value n)
  | RQueueCapacity n => ((WriteQueueCapacity, [name]), set_value n)
  | REnqueueBlock t => ((EnqueueBlock, [name]), observe t)
  | REnqueueTimeout => ((EnqueueTimeouts, [name]), inc)
  | RWriteLatency t => ((WriteLatency, [name]), observe t)
  | RRetryAttempt => ((WriteRetryAttempts, [name]), inc)
  | RBatchRows n => ((WriteBatchRows, [name]), observe n)
  | RWrite outcome => ((WritesTotal, [name; if String.eqb outcome "success" then "success" else "failed"]), inc)
  end.

Definition apply_report (name : string) (key : series) (ch : child) (r : report) : child :=
  if bool_decide ((writes_to name r).1 = key) then (writes_to name r).2 ch else ch.

Definition value_after (name : string) (key : series) (rs : list report) : child :=
  foldl (apply_report name key) (new_child f0 key.1) rs.

(** ** Vectors *)

Definition known (key : series) : Prop :=
  (exists name, key ∈ sink_series name) \/ (exists name, key = (HashcacheEntries, [name])) \/
  (exists name g k n, key = (SafeMode, [name; g; k; n])) \/ key.1 = Dropped \/ key.1 = DedupSkips.

Section client.
Context {P : PromClient F} {L : PromLaws f0 P}.
Abbreviation PM := (@MetricStore F P).

Definition vectors_ok (m : PM) : Prop := forall key h, metric_at m key = Some h -> known key.

(** A metric no vector holds, and none ever will. *)
Definition stale (m : PM) (h : Handle) : Prop := issued m h /\ forall key, metric_at m key <> Some h.

(** What resolving a series keeps and gives. *)
Record resolves (key : series) (m m' : PM) (h : Handle) : Prop := {
  rs_ok : vectors_ok m';
  rs_at : metric_at m' key = Some h;
  rs_keeps : forall k l, metric_at m k = Some l -> metric_at m' k = Some l;
  rs_shows : forall k, exposed k m' = if bool_decide (k = key) then Some (default (new_child f0 key.1) (exposed key m)) else exposed k m;
  rs_stale : forall l, stale m l -> stale m' l;
}.

Lemma WithLabelValues_resolves c lvs m :
  length lvs = length (label_names c) -> vectors_ok m -> known (c, lvs) ->
  exists m' h, WithLabelValues c lvs m = Some (m', h) /\ resolves (c, lvs) m m' h.
Proof.
  intros Hl Ho Hk. destruct (metric_at m (c, lvs)) as [h|] eqn:E.
  - exists m, h. split; [by apply with_found|]. split; try done. intros k. unfold exposed. case_bool_decide as Hkey; [|done].
    subst k. by rewrite E.
  - destruct (with_creates c lvs m Hl E) as (m' & h & Ew & Hf & Ha & Hi & Hv & Hs). exists m', h. split; [done|]. split.
    + intros k l. rewrite Ha. case_decide; [by subst|]. apply Ho.
    + by rewrite Ha, decide_True.
    + intros k l Hl'. rewrite Ha, decide_False; [done|]. intros ->. congruence.
    + intros k. unfold exposed. rewrite Ha. case_bool_decide as Hkey.
      * subst k. rewrite decide_True by done. cbn. by rewrite Hv, E.
      * rewrite decide_False by done. destruct (metric_at m k) as [l|] eqn:El; [|done]. cbn. rewrite Hs; [done|].
        intros ->. by apply Hf, (metric_issued m k).
    + intros l [Hl1 Hl2]. split; [apply Hi; by right|]. intros k. rewrite Ha. case_decide; [|apply Hl2]. intros [= ->]. done.
Qed.

(** ** Making a view *)

Fixpoint with_all (keys : list series) (m : PM) : option (PM * list Handle) :=
  match keys with
  | [] => Some (m, [])
  | (c, lvs) :: rest =>
      match WithLabelValues c lvs m with
      | Some (m1, h) => match with_all rest m1 with Some (m2, hs) => Some (m2, h :: hs) | None => None end
      | None => None
      end
  end.

Definition view_locs (v : SinkMetrics F) : list Handle :=
  [sm_queueDepth v; sm_queueCapacity v; sm_writeSuccess v; sm_writeFailed v; sm_latency v; sm_retries v; sm_batchRows v;
   sm_enqueueBlock v; sm_enqueueGaveUp v].

Lemma ForSink_with_all name m m' hs :
  with_all (sink_series name) m = Some (m', hs) -> exists v, ForSink name m = Some (m', v) /\ view_locs v = hs.
Proof.
  unfold sink_series, ForSink, mbind, C_bind. cbn [with_all].
  do 9 (destruct (WithLabelValues _ _ _) as [[? ?]|]; [|done]). intros [= <- <-]. eexists. split; reflexivity.
Qed.

Record resolves_all (keys : list series) (m m' : PM) (hs : list Handle) : Prop := {
  ra_ok : vectors_ok m';
  ra_at : Forall2 (fun key h => metric_at m' key = Some h) keys hs;
  ra_keeps : forall k l, metric_at m k = Some l -> metric_at m' k = Some l;
  ra_shows : forall k, exposed k m' = if bool_decide (k ∈ keys) then Some (default (new_child f0 k.1) (exposed k m)) else exposed k m;
  ra_stale : forall l, stale m l -> stale m' l;
}.

Lemma with_all_resolves keys m :
  vectors_ok m -> Forall (fun k => known k /\ length k.2 = length (label_names k.1)) keys ->
  exists m' hs, with_all keys m = Some (m', hs) /\ resolves_all keys m m' hs.
Proof.
  intros Ho Hk. revert m Ho. induction Hk as [|[c lvs] keys [Hk Hl] _ IH]; intros m Ho; cbn [with_all].
  { exists m, []. split; [done|]. split; try done. }
  destruct (WithLabelValues_resolves c lvs m Hl Ho Hk) as (m1 & h & -> & [R1 R2 R3 R4 R5]).
  destruct (IH m1 R1) as (m2 & hs & -> & [A1 A2 A3 A4 A5]). exists m2, (h :: hs). split; [done|].
  split; auto.
  intros k. rewrite A4, R4. do 3 case_bool_decide; subst; try set_solver; done.
Qed.

(** ** Reports and removals *)

(** A call that changes one metric of those a view holds: the [i]-th, by a law. *)
Ltac view_report i law :=
  exists i; eexists; split; [reflexivity|]; split; [reflexivity|]; intros m Hm; eexists; split; [reflexivity|by apply law].

Lemma make_report_at name v r :
  exists i h, sink_series name !! i = Some (writes_to name r).1 /\ view_locs v !! i = Some h /\
    forall m, issued m h -> exists m', make_report v r m = Some (m', tt) /\ updates h (writes_to name r).2 m m'.
Proof.
  destruct r; cbn [make_report]; unfold IncWrite; try destruct (String.eqb outcome "success") eqn:E; cbn [writes_to fst snd]; rewrite ?E.
  - view_report 0%nat (set_spec (PromLaws := L)).
  - view_report 1%nat (set_spec (PromLaws := L)).
  - view_report 7%nat (observe_spec (PromLaws := L)).
  - view_report 8%nat (inc_spec (PromLaws := L)).
  - view_report 4%nat (observe_spec (PromLaws := L)).
  - view_report 5%nat (inc_spec (PromLaws := L)).
  - view_report 6%nat (observe_spec (PromLaws := L)).
  - view_report 2%nat (inc_spec (PromLaws := L)).
  - view_report 3%nat (inc_spec (PromLaws := L)).
Qed.

Lemma updates_ok h f m m' : updates h f m m' -> vectors_ok m -> vectors_ok m'.
Proof. intros (Ha & _) Ho k l. rewrite Ha. apply Ho. Qed.

Lemma updates_at key h f m m' k :
  updates h f m m' -> metric_at m key = Some h -> exposed k m' = if bool_decide (k = key) then f <$> exposed k m else exposed k m.
Proof.
  intros (Ha & _ & Hv & Hs) Hl. unfold exposed. rewrite Ha. case_bool_decide as Hk.
  - subst k. rewrite Hl. cbn. by rewrite Hv.
  - destruct (metric_at m k) as [l|] eqn:E; [|done]. cbn. rewrite Hs; [done|]. intros ->. by apply Hk, (metric_own (PromLaws := L) m _ _ h).
Qed.

Lemma updates_stale h f m m' k : updates h f m m' -> stale m h -> exposed k m' = exposed k m.
Proof.
  intros (Ha & _ & _ & Hs) [_ Hn]. unfold exposed. rewrite Ha. destruct (metric_at m k) as [l|] eqn:E; [|done]. cbn.
  rewrite Hs; [done|]. intros ->. by apply (Hn k).
Qed.

Lemma updates_keeps_stale h f m m' l : updates h f m m' -> stale m l -> stale m' l.
Proof. intros (Ha & Hi & _) [H1 H2]. split; [by apply Hi|]. intros k. rewrite Ha. apply H2. Qed.

Lemma deletes_ok gone m m' : deletes gone m m' -> vectors_ok m -> vectors_ok m'.
Proof. intros (Ha & _) Ho k l. rewrite Ha. destruct (gone k); [done|apply Ho]. Qed.

Lemma deletes_stale gone m m' l : deletes gone m m' -> stale m l -> stale m' l.
Proof. intros (Ha & Hi & _) [Hl Hs]. split; [by apply Hi|]. intros k. rewrite Ha. by destruct (gone k). Qed.

Lemma deletes_shows gone m m' k : deletes gone m m' -> exposed k m' = if gone k then None else exposed k m.
Proof.
  intros (Ha & _ & Hv). unfold exposed. rewrite Ha. destruct (gone k); [done|]. destruct (metric_at m k); [|done]. cbn. by rewrite Hv.
Qed.

(** A metric whose series left is stale. *)
Lemma deletes_gone gone m m' k l : deletes gone m m' -> gone k = true -> metric_at m k = Some l -> stale m' l.
Proof.
  intros (Ha & Hi & _) Hg Hl. split; [by apply Hi, (metric_issued (PromLaws := L) m k)|]. intros k'. rewrite Ha. destruct (gone k') eqn:Hg'; [done|].
  intros Hl'. by rewrite (metric_own (PromLaws := L) _ _ _ _ Hl Hl'), Hg' in Hg.
Qed.

Definition of_sink (name : string) (k : series) : bool :=
  bool_decide (k ∈ sink_series name) || bool_decide (k = (HashcacheEntries, [name])) || carries SafeMode sinkLabel name k.

Lemma deletes_trans g1 g2 m1 m2 m3 : deletes g1 m1 m2 -> deletes g2 m2 m3 -> deletes (fun k => g1 k || g2 k) m1 m3.
Proof.
  intros (A1 & A2 & A3) (B1 & B2 & B3). split; [|split].
  - intros k. rewrite B1, A1. by destruct (g2 k), (g1 k).
  - intros h. by rewrite B2, A2.
  - intros h. by rewrite B3, A3.
Qed.

Lemma deletes_ext g g' m m' : (forall k, g k = g' k) -> deletes g m m' -> deletes g' m m'.
Proof. intros Hg (A1 & A2). split; [|done]. intros k. by rewrite A1, Hg. Qed.

(** A computation that drops series, and deleting one series before it. *)
Definition dropping (g : series -> bool) (c : C unit) : Prop := forall m, exists m', c m = Some (m', tt) /\ deletes g m m'.

Lemma dropping_delete c lvs k g :
  dropping g k -> dropping (fun x => bool_decide (x = (c, lvs)) || g x) (C_bind unit unit (fun _ => k) (call (DeleteLabelValues c lvs))).
Proof.
  intros Hk m. unfold C_bind, call. edestruct Hk as (m' & E & Hd). exists m'. split; [exact E|].
  eapply deletes_trans; [apply (delete_spec (PromLaws := L))|exact Hd].
Qed.

Lemma dropping_partial c label value : dropping (carries c label value) (call (DeletePartialMatch c label value)).
Proof. intros m. eexists. split; [reflexivity|]. apply (partial_spec (PromLaws := L)). Qed.

Lemma remove_series_drops name m : exists m', remove_series name m = Some (m', tt) /\ deletes (of_sink name) m m'.
Proof.
  assert (exists g, dropping g (remove_series name) /\ forall k, g k = of_sink name k) as (g & Hg & Ho).
  { eexists. split; [do 10 eapply dropping_delete; apply dropping_partial|]. intros k. cbv beta. unfold of_sink.
  assert (bool_decide (k ∈ sink_series name) = existsb (fun x => bool_decide (k = x)) (sink_series name)) as ->.
  { apply Bool.eq_iff_eq_true. rewrite bool_decide_eq_true, existsb_exists. setoid_rewrite bool_decide_eq_true. setoid_rewrite <- list_elem_of_In. naive_solver. }
  unfold sink_series. cbn [existsb]. btauto. }
  destruct (Hg m) as (m' & E & Hd). exists m'. split; [exact E|]. by eapply deletes_ext.
Qed.

(** ** Which series are whose *)

Definition own_series (c : collector) : bool :=
  match c with HashcacheEntries | SafeMode | Dropped | DedupSkips => true | _ => false end.

Lemma sink_series_of name key :
  key ∈ sink_series name -> head key.2 = Some name /\ own_series key.1 = false /\ carries key.1 sinkLabel name key = true.
Proof.
  unfold sink_series. rewrite !elem_of_cons. intros Hin.
  repeat (destruct Hin as [->|Hin]; [cbn; unfold carries; cbn; by rewrite String.eqb_refl|]). by apply not_elem_of_nil in Hin.
Qed.

Lemma own_not_sink c lvs name : own_series c = true -> (c, lvs) ∉ sink_series name.
Proof. intros Ho Hin. destruct (sink_series_of _ _ Hin) as (_ & E & _). cbn in E. congruence. Qed.

Lemma of_sink_series name n key : key ∈ sink_series n -> of_sink name key = bool_decide (n = name).
Proof.
  intros Hin. destruct (sink_series_of _ _ Hin) as (Hh & Ho & _). unfold of_sink. case_bool_decide as Hk.
  - destruct (sink_series_of _ _ Hk) as (Hh' & _ & _). rewrite Hh in Hh'. injection Hh' as ->. cbn [orb]. symmetry. by apply bool_decide_eq_true_2.
  - cbn [orb]. destruct key as [c lvs]. cbn [fst] in Ho. rewrite bool_decide_eq_false_2 by (intros E; injection E as -> _; by vm_compute in Ho).
    assert (carries SafeMode sinkLabel name (c, lvs) = false) as -> by (unfold carries; cbn [fst]; rewrite bool_decide_eq_false_2; [done|]; intros ->; by vm_compute in Ho).
    symmetry. apply bool_decide_eq_false_2. by intros ->.
Qed.

(** A series that carries the sink's label belongs to the sink. *)
Lemma of_sink_complete name key : known key -> carries key.1 sinkLabel name key = true -> of_sink name key = true.
Proof.
  intros Hk Hc. unfold of_sink. destruct Hk as [[n Hin]|[[n ->]|[(n & g & k & ns & ->)|Hk]]].
  - assert (n = name) as ->; [|by rewrite bool_decide_eq_true_2].
    unfold sink_series in Hin. rewrite !elem_of_cons in Hin. unfold carries in Hc.
    repeat (destruct Hin as [->|Hin]; [cbn in Hc; rewrite ?orb_false_r in Hc; by apply String.eqb_eq in Hc|]). by apply not_elem_of_nil in Hin.
  - unfold carries in Hc. cbn in Hc. rewrite orb_false_r in Hc. apply String.eqb_eq in Hc as ->. rewrite (bool_decide_eq_true_2 (_ = _)) by done. by rewrite orb_true_r.
  - cbn [fst] in Hc. rewrite Hc. by rewrite orb_true_r.
  - destruct key as [c lvs]. cbn in Hk. unfold carries in Hc. by destruct Hk as [-> | ->]; destruct lvs as [|? [|? ?]].
Qed.

Lemma known_sink name : Forall (fun k => known k /\ length k.2 = length (label_names k.1)) (sink_series name).
Proof.
  assert (H : Forall (fun k => length k.2 = length (label_names k.1)) (sink_series name)) by (by repeat constructor).
  rewrite Forall_forall in *. intros key Hin. split; [left; by exists name|by apply H].
Qed.

(** ** The simulation *)

Definition view_ok (m : PM) (v : SinkMetrics F) (nb : string * bool) : Prop :=
  if nb.2 then Forall2 (fun key h => metric_at m key = Some h) (sink_series nb.1) (view_locs v)
  else Forall (stale m) (view_locs v).

Record tracks (s : metricsRun F) (a : account) : Prop := {
  tr_ok : vectors_ok (mr_metrics s);
  tr_views : Forall2 (view_ok (mr_metrics s)) (mr_views s) (ac_views a);
  tr_shows : forall name key, key ∈ sink_series name ->
    exposed key (mr_metrics s) = value_after name key <$> ac_reports a !! name;
}.

(** A step that makes a view: the series exist from here on. *)
Lemma tracks_ForSink name s a :
  tracks s a -> exists s', metrics_step (MForSink name) s = Some s' /\
    tracks s' (mkAccount (ac_views a ++ [(name, true)]) (<[name := default [] (ac_reports a !! name)]> (ac_reports a))).
Proof.
  intros [H1 H2 H3]. destruct (with_all_resolves (sink_series name) (mr_metrics s) H1 (known_sink name)) as (m' & hs & Ew & [A1 A2 A3 A4 A5]).
  destruct (ForSink_with_all _ _ _ _ Ew) as (v & E & Hv). cbn [metrics_step]. rewrite E. eexists. split; [reflexivity|].
  split; cbn [mr_metrics mr_views ac_views ac_reports]; [done| |].
  - apply Forall2_app; [|constructor; [|done]].
    + eapply Forall2_impl; [exact H2|]. intros v' [n []]; unfold view_ok; cbn [fst snd]; intros Hf.
      * eapply Forall2_impl; [exact Hf|]. auto.
      * eapply Forall_impl; [exact Hf|]. auto.
    + unfold view_ok. cbn [fst snd]. by rewrite Hv.
  - intros n key Hin. rewrite A4. case_bool_decide as Hk.
    + assert (n = name) as -> by (destruct (sink_series_of _ _ Hk) as [E1 _], (sink_series_of _ _ Hin) as [E2 _]; congruence).
      rewrite lookup_insert_eq, (H3 name key Hin). cbn. by destruct (ac_reports a !! name).
    + rewrite lookup_insert_ne by (by intros ->). by apply H3.
Qed.

Lemma value_after_snoc name key rs r : value_after name key (rs ++ [r]) = apply_report name key (value_after name key rs) r.
Proof. unfold value_after. by rewrite foldl_app. Qed.

Lemma view_issued m v nb i h : view_ok m v nb -> view_locs v !! i = Some h -> issued m h.
Proof.
  unfold view_ok. destruct nb as [name []]; cbn [fst snd]; intros Hok Hi.
  - destruct (Forall2_lookup_r _ _ _ _ _ Hok Hi) as (key & _ & Hat). by apply (metric_issued (PromLaws := L) m key).
  - rewrite Forall_lookup in Hok. by apply (Hok i h) in Hi as [? _].
Qed.

Lemma view_ok_updates h f m m' v nb : updates h f m m' -> view_ok m v nb -> view_ok m' v nb.
Proof.
  intros Hu. unfold view_ok. destruct nb as [name []]; cbn [fst snd]; intros Hok.
  - eapply Forall2_impl; [exact Hok|]. intros key l Hat. cbn in *. by rewrite (proj1 Hu).
  - eapply Forall_impl; [exact Hok|]. intros l. by eapply updates_keeps_stale.
Qed.

Lemma tracks_Report view r s a a' :
  tracks s a -> account_step (MReport view r) a = Some a' -> exists s', metrics_step (MReport view r) s = Some s' /\ tracks s' a'.
Proof.
  intros [H1 H2 H3] E. cbn [account_step] in E. destruct (ac_views a !! view) as [[name b]|] eqn:Ev; [|done].
  destruct (Forall2_lookup_r _ _ _ _ _ H2 Ev) as (v & Hv & Hok). cbn [metrics_step]. rewrite Hv. cbn [mbind option_bind].
  destruct (make_report_at name v r) as (i & h & Hi & Hl & Hrep).
  destruct (Hrep (mr_metrics s) (view_issued _ _ _ _ _ Hok Hl)) as (m' & Em & Hu). unfold on_metrics. rewrite Em.
  eexists. split; [reflexivity|].
  assert (Hviews : Forall2 (view_ok m') (mr_views s) (ac_views a)) by (eapply Forall2_impl; [exact H2|]; intros; by eapply view_ok_updates).
  destruct b; injection E as <-; split; cbn [mr_metrics mr_views ac_views ac_reports]; try (by eapply updates_ok); try done.
  - unfold view_ok in Hok. cbn [fst snd] in Hok. destruct (Forall2_lookup_l _ _ _ _ _ Hok Hi) as (h' & Hl' & Hat). rewrite Hl in Hl'. injection Hl' as <-.
    intros n key Hin. rewrite (updates_at _ _ _ _ _ key Hu Hat), (H3 n key Hin). rewrite lookup_alter.
    assert (Hw : (writes_to name r).1 ∈ sink_series name) by (by eapply list_elem_of_lookup_2). case_bool_decide as Hk.
    + assert (name = n) as -> by (rewrite <- Hk in Hw; destruct (sink_series_of _ _ Hw) as [E1 _], (sink_series_of _ _ Hin) as [E2 _]; congruence).
      rewrite decide_True by done. destruct (ac_reports a !! n); [|done]. cbn [fmap option_fmap option_map]. rewrite value_after_snoc. unfold apply_report.
      by rewrite bool_decide_eq_true_2.
    + case_decide as Hn; [|done]. subst n. destruct (ac_reports a !! name); [|done]. cbn [fmap option_fmap option_map]. rewrite value_after_snoc. unfold apply_report.
      by rewrite bool_decide_eq_false_2.
  - unfold view_ok in Hok. cbn [fst snd] in Hok. intros n key Hin. rewrite (updates_stale _ _ _ _ _ Hu); [by apply H3|]. by eapply Forall_lookup_1.
Qed.

(** A step that drops series of one sink, or none of any sink's view. *)
Lemma tracks_deletes gone name s a m' :
  (forall n key, key ∈ sink_series n -> gone key = bool_decide (n = name)) ->
  deletes gone (mr_metrics s) m' -> tracks s a ->
  tracks (mkMetricsRun m' (mr_views s))
    (mkAccount ((fun v => if String.eqb v.1 name then (v.1, false) else v) <$> ac_views a) (delete name (ac_reports a))).
Proof.
  intros Hg Hd [H1 H2 H3]. split; cbn [mr_metrics mr_views ac_views ac_reports]; [by eapply deletes_ok| |].
  - apply Forall2_fmap_r. eapply Forall2_impl; [exact H2|]. intros v [n b] Hok. unfold view_ok, compose in Hok |- *. cbv beta in Hok |- *. cbn [fst snd] in Hok |- *.
    destruct (String.eqb n name) eqn:En; bools; cbn [fst snd].
    + subst n. destruct b; [|eapply Forall_impl; [exact Hok|]; intros; by eapply deletes_stale].
      apply Forall_lookup. intros i loc Hl. destruct (Forall2_lookup_r _ _ _ _ _ Hok Hl) as (key & Hk & Hat).
      apply (deletes_gone gone (mr_metrics s) m' key loc Hd); [|done].
      rewrite (Hg name); [by apply bool_decide_eq_true_2|by eapply list_elem_of_lookup_2].
    + destruct b; [|eapply Forall_impl; [exact Hok|]; intros; by eapply deletes_stale].
      apply Forall2_same_length_lookup. split; [by eapply Forall2_length|]. intros i key loc Hk Hl.
      pose proof (Forall2_lookup_lr _ _ _ _ _ _ Hok Hk Hl) as Hat. cbn in Hat.
      rewrite (proj1 Hd), (Hg n) by (by eapply list_elem_of_lookup_2). by rewrite bool_decide_eq_false_2.
  - intros n key Hin. rewrite (deletes_shows _ _ _ _ Hd), (Hg n key Hin), lookup_delete.
    case_bool_decide; case_decide; subst; try done. by apply H3.
Qed.

(** A series of the pipeline's own is created or found. *)
Lemma tracks_resolves key s a m' h :
  own_series key.1 = true -> resolves key (mr_metrics s) m' h -> tracks s a -> tracks (mkMetricsRun m' (mr_views s)) a.
Proof.
  intros Ho [R1 R2 R3 R5 R6] [H1 H2 H3].
  split; cbn [mr_metrics mr_views]; [done| |].
  - eapply Forall2_impl; [exact H2|]. intros v [n []] Hok; unfold view_ok in *; cbn [fst snd] in *.
    + eapply Forall2_impl; [exact Hok|]. intros k l Hat. cbn in *. by apply R3.
    + eapply Forall_impl; [exact Hok|]. intros l Hst. by apply R6 in Hst.
  - intros n k Hin. rewrite R5, (H3 n k Hin). destruct key as [c lvs].
    by rewrite bool_decide_eq_false_2 by (intros ->; by apply (own_not_sink c lvs n Ho)).
Qed.

(** The gauges and counters the pipeline sets itself. *)
Lemma tracks_own c lvs call_ f s a :
  own_series c = true -> length lvs = length (label_names c) -> known (c, lvs) ->
  (forall h m, issued m h -> updates h f m (call_ h m)) -> tracks s a ->
  exists s', on_metrics (on_series c lvs call_) s = Some s' /\ tracks s' a.
Proof.
  intros Ho Hl Hk Hcall Ht. destruct (WithLabelValues_resolves c lvs (mr_metrics s) Hl (tr_ok _ _ Ht) Hk) as (m1 & h & E & R).
  pose proof (tracks_resolves (c, lvs) s a m1 h Ho R Ht) as [T1 T2 T3]. cbn [mr_metrics mr_views] in *.
  pose proof (rs_at _ _ _ _ R) as Hat.
  pose proof (Hcall h m1 (metric_issued (PromLaws := L) _ _ _ Hat)) as Hu.
  unfold on_metrics, on_series, mbind, C_bind, call. rewrite E. eexists. split; [reflexivity|].
  split; cbn [mr_metrics mr_views]; [by eapply updates_ok| |].
  - eapply Forall2_impl; [exact T2|]. intros. by eapply view_ok_updates.
  - intros n key Hin. rewrite (updates_at (c, lvs) _ _ _ _ key Hu Hat), (T3 n key Hin).
    by rewrite bool_decide_eq_false_2 by (intros ->; by apply (own_not_sink c lvs n Ho)).
Qed.

Lemma tracks_evict c lvs s a :
  own_series c = true -> tracks s a -> exists s', on_metrics (call (DeleteLabelValues c lvs)) s = Some s' /\ tracks s' a.
Proof.
  intros Ho [H1 H2 H3]. unfold on_metrics, call. eexists. split; [reflexivity|].
  pose proof (delete_spec (PromLaws := L) c lvs (mr_metrics s)) as Hd. split; cbn [mr_metrics mr_views]; [by eapply deletes_ok| |].
  - eapply Forall2_impl; [exact H2|]. intros v [n []] Hok; unfold view_ok in *; cbn [fst snd] in *.
    + apply Forall2_same_length_lookup. split; [by eapply Forall2_length|]. intros i key loc Hk Hl.
      pose proof (Forall2_lookup_lr _ _ _ _ _ _ Hok Hk Hl) as Hat. cbn in Hat. rewrite (proj1 Hd).
      rewrite bool_decide_eq_false_2; [done|]. intros ->. eapply (own_not_sink c lvs n Ho). by eapply list_elem_of_lookup_2.
    + eapply Forall_impl; [exact Hok|]. intros. by eapply deletes_stale.
  - intros n key Hin. rewrite (deletes_shows _ _ _ _ Hd). rewrite bool_decide_eq_false_2; [by apply H3|].
    intros ->. by apply (own_not_sink c lvs n Ho).
Qed.

Lemma tracks_step op s a a' :
  tracks s a -> account_step op a = Some a' -> exists s', metrics_step op s = Some s' /\ tracks s' a'.
Proof.
  intros Ht E. destruct op as [name|view r|name|name n|name g k ns v|name g k ns|reason|]; try (cbn [account_step] in E; injection E as <-); cbn [metrics_step].
  - by apply tracks_ForSink.
  - by eapply tracks_Report.
  - destruct (remove_series_drops name (mr_metrics s)) as (m' & Er & Hd). unfold on_metrics. rewrite Er.
    eexists. split; [reflexivity|]. by apply (tracks_deletes _ name s a m' (of_sink_series name) Hd).
  - eapply tracks_own; try done; [right; left; by eexists|]. intros; by apply (set_spec (PromLaws := L)).
  - eapply tracks_own; try done; [right; right; left; by do 4 eexists|]. intros; by apply (set_spec (PromLaws := L)).
  - by apply tracks_evict.
  - eapply tracks_own; try done; [by do 3 right; left|]. intros; by apply (inc_spec (PromLaws := L)).
  - eapply tracks_own; try done; [by do 4 right|]. intros; by apply (inc_spec (PromLaws := L)).
Qed.

Lemma tracks_run ops s a a' :
  tracks s a -> account_run ops a = Some a' -> exists s', metrics_run ops s = Some s' /\ tracks s' a'.
Proof.
  revert s a. induction ops as [|op ops IH]; intros s a Ht E; [injection E as <-; by eexists|].
  cbn [account_run] in E. apply bind_Some in E as (a1 & E1 & E). destruct (tracks_step op s a a1 Ht E1) as (s1 & Es & Ht1).
  cbn [metrics_run]. rewrite Es. cbn. by apply (IH s1 a1).
Qed.

(** ** Construction *)

Lemma names_differ : NoDup (fqName <$> collectors).
Proof. apply (bool_decide_eq_true_1 _). vm_compute. reflexivity. Qed.

(** Construction on a registry that holds none of the names does not panic, and its
    series are the pipeline's own. *)
Lemma NewPipelineMetrics_tracks reg :
  (forall c, fqName c ∉ registered reg) ->
  exists reg' m, NewPipelineMetrics reg = Some (reg', m) /\ tracks (mkMetricsRun m []) no_views.
Proof.
  intros Hreg. pose (s0 := mkMetricsRun NewVectors [] : metricsRun F).
  assert (T0 : tracks s0 no_views).
  { split; cbn [mr_metrics mr_views s0 no_views ac_views ac_reports]; [|done|].
    - intros k h. by rewrite (vectors_empty (PromLaws := L)).
    - intros name key _. unfold exposed. by rewrite (vectors_empty (PromLaws := L)), lookup_empty. }
  assert (Hone : forall c lvs s, own_series c = true -> length lvs = length (label_names c) -> known (c, lvs) -> mr_views s = [] ->
    tracks s no_views -> exists m' h, WithLabelValues c lvs (mr_metrics s) = Some (m', h) /\ tracks (mkMetricsRun m' []) no_views).
  { intros c lvs s Ho Hl Hk Hv Ht. destruct (WithLabelValues_resolves c lvs (mr_metrics s) Hl (tr_ok _ _ Ht) Hk) as (m' & h & E & R).
    exists m', h. split; [done|]. rewrite <- Hv. by eapply (tracks_resolves (c, lvs)). }
  destruct (Hone DedupSkips [] s0) as (m1 & h1 & E1 & T1); [done|done|by do 4 right|done|done|].
  destruct (Hone Dropped [DropReasonScopeStopped] (mkMetricsRun m1 []) eq_refl eq_refl ltac:(by do 3 right; left) eq_refl T1) as (m2 & h2 & E2 & T2).
  destruct (Hone Dropped [DropReasonEphemeralDelete] (mkMetricsRun m2 []) eq_refl eq_refl ltac:(by do 3 right; left) eq_refl T2) as (m3 & h3 & E3 & T3).
  destruct (register_new (PromLaws := L) collectors reg names_differ) as (reg' & Er & _); [by intros c _|].
  cbn [mr_metrics s0] in *. exists reg', m3. split; [|done].
  unfold NewPipelineMetrics, mbind, C_bind, option_bind. by rewrite E1, E2, E3, Er.
Qed.

(** C24. What the metrics endpoint shows of a sink's write path is an account of the
    sink's current life. For any client library that keeps the documented contract of
    vectors and registries: from a fresh registry, whatever the order in which sink
    instances take their views, report through them (late reports of an instance
    already replaced included), sinks are removed and the pipeline sets its own
    gauges: no call panics, and each of the nine series of a sink is absent when no
    view was taken since the sink's last removal, and otherwise shows exactly
    the reports made since then through views taken since then, two instances of
    one sink adding up. Removing the sink takes every series that carries its label. *)
Theorem sink_series_account ops a :
  account_run ops no_views = Some a ->
  exists reg m s, NewPipelineMetrics NewRegistry = Some (reg, m) /\ metrics_run ops (mkMetricsRun m []) = Some s /\
    (forall name key, key ∈ sink_series name -> exposed key (mr_metrics s) = value_after name key <$> ac_reports a !! name) /\
    (forall name s', metrics_step (MRemove name) s = Some s' ->
       forall key, carries key.1 sinkLabel name key = true -> exposed key (mr_metrics s') = None).
Proof.
  intros E. destruct (NewPipelineMetrics_tracks NewRegistry) as (reg & m & En & Ht); [intros c; rewrite (registry_empty (PromLaws := L)); set_solver|].
  destruct (tracks_run ops _ _ _ Ht E) as (s & Es & [H1 H2 H3]). exists reg, m, s. split; [done|]. split; [done|]. split; [done|].
  intros name s' Er key Hc. cbn [metrics_step] in Er. destruct (remove_series_drops name (mr_metrics s)) as (m' & Em & Hd).
  unfold on_metrics in Er. rewrite Em in Er. injection Er as <-. cbn [mr_metrics]. rewrite (deletes_shows _ _ _ _ Hd).
  destruct (of_sink name key) eqn:Eo; [done|]. unfold exposed. destruct (metric_at (mr_metrics s) key) as [h|] eqn:El; [|done].
  by rewrite (of_sink_complete name key (H1 _ _ El) Hc) in Eo.
Qed.
End client.
End account.

(** ** Witness *)

Module MetricsSamples.
(** A sink is rotated, removed while an instance still drains, and declared again. *)
Definition life : list (metricsOp Z) :=
  [MForSink "ch"; MReport 0 (RWrite "success"); MForSink "ch"; MReport 0 (RWrite "success"); MReport 1 (RWrite "timeout");
   MRemove "ch"; MReport 1 (RWrite "success"); MForSink "ch"; MReport 1 (RWrite "success"); MReport 2 (RQueueDepth 7%Z)].
Definition life_account : account := default no_views (account_run life no_views).

Lemma sink_series_account_witness :
  exists reg m s, NewPipelineMetrics (P := LocalClient 0%Z) NewRegistry = Some (reg, m) /\
    metrics_run life (mkMetricsRun m []) = Some s /\
    exposed (WritesTotal, ["ch"; "success"]) (mr_metrics s) = Some (Counter 0) /\
    exposed (WriteQueueDepth, ["ch"]) (mr_metrics s) = Some (Gauge 7%Z).
Proof.
  destruct (sink_series_account 0%Z (L := LocalClient_laws 0%Z) life life_account ltac:(vm_compute; reflexivity)) as (reg & m & s & En & E & H & _).
  exists reg, m, s. split; [exact En|]. split; [exact E|].
  split; rewrite (H "ch") by (unfold sink_series; rewrite !elem_of_cons; auto 12); vm_compute; reflexivity.
Defined.

(** A deletion confirmed after its sink was removed publishes the sink's
    cache size again: the series is back for a sink that no longer exists. *)
Definition deleting : pstate := (Process gone_env pod_key pod_written).1.
Definition removed : pstate := (RemoveSink "ch" deleting).1.
Definition late : pstate :=
  match sent deleting !! 1%nat with Some (_, job) => (run_commit (j_Commit job) true removed).1 | None => removed end.

Lemma late_delete_republishes :
  hashcacheEntries (metrics removed) !! "ch" = None /\ states late !! "ch" = None /\ hashcacheEntries (metrics late) !! "ch" = Some 0%Z.
Proof. vm_compute. done. Qed.
End MetricsSamples.
