(* ===== verification/OperatorProps.v ===== *)
(** * OperatorProps: what the process runs with

    Settings come from the flag, then the environment, then the default
    ([settings_precedence]), except the writer's fallbacks, which the command line does
    not reach ([writer_flags_ignored]); wiring either completes or stops at the first call that
    failed ([setup_complete_or_refused]); an incompletely wired data plane writes
    nothing ([unbound_plane_writes_nothing]); the process that serves reads
    passwords in one namespace only ([credentials_confined]). *)

From Stdlib Require Import ZArith Lia.
From stdpp Require Import base gmap strings list.
From S2P Require Import Prelude Identity HashCache Sha256 Json Redact Normalize Pipeline JsonPatch Process Registry Interest Resolver WatchManager WatchLoop.
From S2P Require Import ScopeRecorder Warm ApiTypes Conditions RuleReconciler Driver ScopeWriter CHWriter CHReader SinkManager SinkManagerProps CHSchema SinkReconciler.
From S2P Require Import ProcessFacts Workers Metrics GoFlags Operator ApiSamples SinkReconcilerProps.

#[local] Open Scope kube_scope.

(** ** Arguments *)

(** The values given to flags, in order, as the arguments read when only the flags of
    [isBool] need no value. *)
Fixpoint assignments (isBool : string -> bool) (args : list string) : list (string * string) :=
  match args with
  | [] => []
  | s :: rest =>
      match read_argument s with
      | FlagArg name value =>
          if isBool name then (name, default "true" value) :: assignments isBool rest
          else
            match value, rest with
            | Some v, _ => (name, v) :: assignments isBool rest
            | None, v :: rest' => (name, v) :: assignments isBool rest'
            | None, [] => []
            end
      | _ => []
      end
  end.

(** The last value given to a flag. *)
Definition last_given (name : string) (l : list (string * string)) : option string :=
  foldl (fun acc kv => if String.eqb kv.1 name then Some kv.2 else acc) None l.

Definition bool_flags (fs : FlagSet) (name : string) : bool := match fs !! name with Some v => is_bool_flag v | None => false end.

(** What a flag holds once the values were given. *)
Definition flag_after (fs : FlagSet) (given : list (string * string)) (name : string) : option (result flagValue) :=
  (fun v => match last_given name given with Some text => set_flag text v | None => Ok v end) <$> fs !! name.

Definition same_kind (v w : flagValue) : Prop :=
  match v, w with
  | FString _, FString _ | FInt _, FInt _ | FBool _, FBool _ | FDuration _, FDuration _ => True
  | FOther _ _, FOther _ _ => v = w
  | _, _ => False
  end.

Lemma set_flag_kind text v w : set_flag text v = Ok w -> same_kind v w.
Proof.
  destruct v as [s|n|b|d|isBool accepts]; cbn; [by intros [= <-]|destruct (ParseInt _ _)|destruct (ParseBool _)|destruct (ParseDuration _)|destruct (accepts text)];
    intros E; try done; by injection E as <-.
Qed.

Lemma set_flag_same text v w : same_kind v w -> set_flag text w = set_flag text v.
Proof. destruct v, w; cbn; intros E; try done. by injection E as -> ->. Qed.


Lemma last_given_cons name kv l :
  last_given name (kv :: l) = match last_given name l with Some t => Some t | None => if String.eqb kv.1 name then Some kv.2 else None end.
Proof.
  unfold last_given. cbn [foldl]. generalize (if String.eqb kv.1 name then Some kv.2 else None) as acc. clear kv.
  induction l as [|kv l IH]; intros acc; cbn [foldl]; [done|]. destruct (String.eqb kv.1 name).
  - rewrite (IH (Some kv.2)). by destruct (foldl _ None l).
  - rewrite IH. by destruct (foldl _ None l).
Qed.

(** Giving one value first. *)
Lemma flag_after_cons fs name text old v given n :
  fs !! name = Some old -> set_flag text old = Ok v ->
  flag_after fs ((name, text) :: given) n = flag_after (<[name := v]> fs) given n.
Proof.
  intros Hf Hs. unfold flag_after. rewrite last_given_cons. cbn [fst snd]. destruct (String.eqb name n) eqn:En; bools.
  - subst n. rewrite Hf, lookup_insert_eq. cbn [fmap option_fmap option_map]. apply set_flag_kind in Hs as Hk. f_equal.
    destruct (last_given name given) as [t|]; [|done]. by rewrite (set_flag_same t _ _ Hk).
  - rewrite lookup_insert_ne by done. destruct (fs !! n); [|done]. cbn. by destruct (last_given n given).
Qed.

Lemma bool_flags_insert fs name text old v n :
  fs !! name = Some old -> set_flag text old = Ok v -> bool_flags (<[name := v]> fs) n = bool_flags fs n.
Proof.
  intros Hf Hs. unfold bool_flags. destruct (decide (name = n)) as [<-|Hne]; [|by rewrite lookup_insert_ne].
  rewrite lookup_insert_eq, Hf. apply set_flag_kind in Hs. destruct old, v; cbn in *; try done. by injection Hs as -> ->.
Qed.

Lemma parse_effect isBool args fs fs' rest :
  (forall n, isBool n = bool_flags fs n) -> flag_Parse args fs = Parsed fs' rest ->
  forall n, flag_after fs (assignments isBool args) n = Ok <$> fs' !! n.
Proof.
  remember (length args) as k eqn:Hk. revert args fs Hk. induction k as [k IH] using lt_wf_ind. intros args fs -> Hb E n.
  assert (Hnil : flag_after fs [] n = Ok <$> fs !! n) by (unfold flag_after; by destruct (fs !! n)).
  destruct args as [|s args]; cbn [flag_Parse assignments] in *; [by injection E as <- <-|].
  destruct (read_argument s) as [| | |name value]; [by injection E as <- <-|by injection E as <- <-|done|].
  destruct (fs !! name) as [flag|] eqn:Hf; [|by destruct (String.eqb name "help" || String.eqb name "h")].
  rewrite Hb. unfold bool_flags at 1. rewrite Hf.
  assert (Hstep : forall text v args', (length args' < S (length args))%nat -> set_flag text flag = Ok v ->
            flag_Parse args' (<[name := v]> fs) = Parsed fs' rest ->
            flag_after fs ((name, text) :: assignments isBool args') n = Ok <$> fs' !! n).
  { intros text v args' Hl Hs E'. rewrite (flag_after_cons _ _ _ _ _ _ _ Hf Hs). eapply IH; [exact Hl|done| |exact E'].
    intros m. by rewrite (bool_flags_insert _ _ _ _ _ _ Hf Hs). }
  destruct (is_bool_flag flag).
  - destruct (set_flag _ flag) as [v|] eqn:Hs; [|done]. eapply Hstep; [|done|exact E]. lia.
  - destruct value as [text|].
    + destruct (set_flag text flag) as [v|] eqn:Hs; [|done]. eapply Hstep; [|done|exact E]. lia.
    + destruct args as [|text args']; [done|]. destruct (set_flag text flag) as [v|] eqn:Hs; [|done].
      eapply Hstep; [|done|exact E]. cbn. lia.
Qed.

(** ** Registration *)

Lemma define_flag_new name v fs : fs !! name = None -> define_flag name v (Some fs) = Some (<[name := v]> fs).
Proof. intros E. unfold define_flag. cbn. by rewrite E. Qed.

(** A flag that is registered stays as it was registered. *)
Lemma define_flag_keeps name v fs fs' n w :
  define_flag name v fs = Some fs' -> (exists fs0, fs = Some fs0 /\ fs0 !! n = Some w) -> fs' !! n = Some w.
Proof.
  intros E (fs0 & -> & Hn). unfold define_flag in E. cbn in E. destruct (fs0 !! name) eqn:Ef; [done|]. injection E as <-.
  rewrite lookup_insert_ne; [done|]. intros ->. congruence.
Qed.

Lemma define_all_keeps l fs fs' n w :
  foldl (fun fs kv => define_flag kv.1 kv.2 fs) fs l = Some fs' -> (exists fs0, fs = Some fs0 /\ fs0 !! n = Some w) -> fs' !! n = Some w.
Proof.
  revert fs. induction l as [|kv l IH]; intros fs E Hn; cbn [foldl] in E; [destruct Hn as (fs0 & -> & Hn); congruence|].
  apply (IH (define_flag kv.1 kv.2 fs) E). destruct (define_flag kv.1 kv.2 fs) as [fs1|] eqn:Ed; [|].
  - exists fs1. split; [done|]. by eapply define_flag_keeps.
  - exfalso. clear -E. induction l; cbn in E; [done|]. auto.
Qed.

(** The operator's own flags, with their initial values. *)
Definition own_flags (getenv : string -> string) : list (string * flagValue) :=
  [("cluster-id", FString (getEnvOrDefault getenv "CLUSTER_ID" "local-kind-cluster"));
   ("operator-namespace", FString (getEnvOrDefault getenv "POD_NAMESPACE" ""));
   ("pipeline-workers", FInt (getEnvIntOrDefault getenv "PIPELINE_WORKERS" DefaultWorkers));
   ("ch-auto-create-schema", FBool (getEnvBoolOrDefault getenv "CH_AUTO_CREATE_SCHEMA" false));
   ("metrics-bind-address", FString "0"); ("health-probe-bind-address", FString ":8081"); ("leader-elect", FBool false);
   ("metrics-secure", FBool true); ("webhook-cert-path", FString ""); ("webhook-cert-name", FString "tls.crt");
   ("webhook-cert-key", FString "tls.key"); ("metrics-cert-path", FString ""); ("metrics-cert-name", FString "tls.crt");
   ("metrics-cert-key", FString "tls.key"); ("enable-http2", FBool false);
   ("writer-queue-size", FInt (getEnvIntOrDefault getenv "WRITER_QUEUE_SIZE" DefaultWriteQueueSize));
   ("writer-workers", FInt (getEnvIntOrDefault getenv "WRITER_WORKERS" DefaultWriteWorkers));
   ("writer-batch-max-rows", FInt (getEnvIntOrDefault getenv "WRITER_BATCH_MAX_ROWS" DefaultBatchMaxRows));
   ("writer-batch-max-wait", FDuration (getEnvDurationOrDefault getenv "WRITER_BATCH_MAX_WAIT" DefaultBatchMaxWait));
   ("writer-enqueue-timeout", FDuration (getEnvDurationOrDefault getenv "WRITER_ENQUEUE_TIMEOUT" DefaultEnqueueTimeout));
   ("writer-drain-timeout", FDuration (getEnvDurationOrDefault getenv "WRITER_DRAIN_TIMEOUT" DefaultShutdownDrainTimeout))].

Lemma registerFlags_own getenv fs :
  registerFlags getenv fs = (fun fs => (fs, bound_tuning fs)) <$> foldl (fun fs kv => define_flag kv.1 kv.2 fs) fs (own_flags getenv).
Proof. reflexivity. Qed.

(** Flags with different names are all registered. *)
Lemma define_all l fs :
  NoDup (fst <$> l) -> (forall kv, kv ∈ l -> fs !! kv.1 = None) ->
  exists fs', foldl (fun fs kv => define_flag kv.1 kv.2 fs) (Some fs) l = Some fs' /\ forall kv, kv ∈ l -> fs' !! kv.1 = Some kv.2.
Proof.
  revert fs. induction l as [|kv l IH]; intros fs Hn Hf; [exists fs; split; [done|]; by intros kv ?%not_elem_of_nil|].
  rewrite fmap_cons in Hn. apply NoDup_cons in Hn as [Hk Hn]. cbn [foldl]. rewrite define_flag_new by (apply Hf; by left).
  destruct (IH (<[kv.1 := kv.2]> fs) Hn) as (fs' & E & Hl).
  - intros kv' Hin. rewrite lookup_insert_ne; [apply Hf; by right|]. intros Heq. apply Hk. rewrite Heq. by apply list_elem_of_fmap_2.
  - exists fs'. split; [done|]. intros kv' [->|Hin]%elem_of_cons; [|by apply Hl].
    eapply define_all_keeps; [exact E|]. eexists. split; [reflexivity|]. by rewrite lookup_insert_eq.
Qed.

Lemma own_flags_registered getenv :
  exists fs, foldl (fun fs kv => define_flag kv.1 kv.2 fs) (Some ∅) (own_flags getenv) = Some fs /\
    forall kv, kv ∈ own_flags getenv -> fs !! kv.1 = Some kv.2.
Proof.
  apply define_all; [|intros kv _; by rewrite lookup_empty].
  change (fst <$> own_flags getenv) with (fst <$> own_flags (fun _ => "")). apply (bool_decide_eq_true_1 _). vm_compute. reflexivity.
Qed.

(** ** Where a setting comes from *)

Fixpoint flag_named (n : string) (l : list (string * flagValue)) : option flagValue :=
  match l with
  | [] => None
  | kv :: rest => if String.eqb kv.1 n then Some kv.2 else flag_named n rest
  end.

Lemma define_all_lookup l fs fs' n :
  foldl (fun fs kv => define_flag kv.1 kv.2 fs) (Some fs) l = Some fs' ->
  fs' !! n = match fs !! n with Some v => Some v | None => flag_named n l end.
Proof.
  revert fs. induction l as [|kv l IH]; intros fs E; cbn [foldl flag_named] in *.
  { injection E as <-. by destruct (fs !! n). }
  destruct (fs !! kv.1) as [v|] eqn:Ef.
  - exfalso. assert (Hn : define_flag kv.1 kv.2 (Some fs) = None) by (unfold define_flag; cbn; by rewrite Ef). rewrite Hn in E.
    clear -E. induction l; cbn in E; [done|]. auto.
  - rewrite define_flag_new in E by done. rewrite (IH _ E). destruct (String.eqb kv.1 n) eqn:En; bools.
    + subst n. by rewrite lookup_insert_eq, Ef.
    + by rewrite lookup_insert_ne.
Qed.

(** The flags that take no separate value. *)
Definition valueless (getenv : string -> string) (zapFlags : list (string * flagValue)) (n : string) : bool :=
  match flag_named n (own_flags getenv ++ zapFlags) with Some v => is_bool_flag v | None => false end.

(** The environment, when it is set and can be read, over the default. *)
Definition env_or {A} (parse : string -> result A) (def : A) (v : string) : A :=
  if String.eqb v "" then def else match parse v with Ok x => x | Err _ => def end.

(** The last value given on the command line, over the environment. *)
Definition setting {A} (read : string -> result A) (given : list (string * string)) (name : string) (otherwise : A) : result A :=
  match last_given name given with Some text => read text | None => Ok otherwise end.

Section main.
Context `{LA : LabelSelectorAPI}.
Variable getenv : string -> string.
Variable args : list string.
Variable zapFlags : list (string * flagValue).
Variable newManager : managerRequest -> option error.
Variable outside : outsideCall -> option error.

Abbreviation given := (assignments (valueless getenv zapFlags) args).

(** What a serving process went through. *)
Lemma serving_inv request cfg op :
  main getenv args zapFlags newManager outside = Serving request cfg op ->
  exists own fs0 fs rest,
    foldl (fun fs kv => define_flag kv.1 kv.2 fs) (Some ∅) (own_flags getenv) = Some own /\
    foldl (fun fs kv => define_flag kv.1 kv.2 fs) (Some ∅) (own_flags getenv ++ zapFlags) = Some fs0 /\
    flag_Parse args fs0 = Parsed fs rest /\ cfg = bound_config (bound_tuning own) fs /\ oc_operatorNamespace cfg <> "" /\
    request = mkRequest (managerCacheOptions (oc_operatorNamespace cfg)) (metricsServerOptions (bound_manager fs))
                (webhookServerOptions (bound_manager fs)) (mf_probeAddr (bound_manager fs)) (mf_enableLeaderElection (bound_manager fs)) /\
    newManager request = None /\ setupOperator outside cfg = Ok op.
Proof.
  unfold main. rewrite registerFlags_own. destruct (foldl _ _ (own_flags getenv)) as [own|] eqn:Eown; [|done]. cbn [fmap option_fmap option_map].
  destruct (foldl _ (Some own) zapFlags) as [fs0|] eqn:E0; [|done].
  destruct (flag_Parse args fs0) as [fs rest| |] eqn:Ep; [|done..]. cbv zeta.
  destruct (String.eqb _ "") eqn:En; [done|]. bools. destruct (newManager _) eqn:Em; [done|].
  destruct (setupOperator outside _) as [op'|] eqn:Eo; [|done]. intros [= <- <- <-]. exists own, fs0, fs, rest.
  split_and!; try done. by rewrite foldl_app, Eown.
Qed.

Lemma bound_flag fs0 fs rest name v :
  foldl (fun fs kv => define_flag kv.1 kv.2 fs) (Some ∅) (own_flags getenv ++ zapFlags) = Some fs0 ->
  flag_Parse args fs0 = Parsed fs rest -> (name, v) ∈ own_flags getenv ->
  exists w, fs !! name = Some w /\ match last_given name given with Some text => set_flag text v | None => Ok v end = Ok w.
Proof.
  intros E0 Ep Hin.
  assert (Hv : fs0 !! name = Some v).
  { destruct (own_flags_registered getenv) as (fs1 & E1 & H1). rewrite foldl_app, E1 in E0.
    apply (define_all_keeps _ _ _ name v E0). exists fs1. split; [done|]. by apply (H1 (name, v)). }
  pose proof (parse_effect (valueless getenv zapFlags) args fs0 fs rest) as Hp.
  assert (forall n, valueless getenv zapFlags n = bool_flags fs0 n) as Hb.
  { intros n. unfold valueless, bool_flags. by rewrite (define_all_lookup _ _ _ n E0), lookup_empty. }
  specialize (Hp Hb Ep name). unfold flag_after in Hp. rewrite Hv in Hp. cbn [fmap option_fmap option_map] in Hp.
  destruct (fs !! name) as [w|]; [|done]. exists w. split; [done|]. by injection Hp.
Qed.

Lemma bound_string i fs0 fs rest name v :
  foldl (fun fs kv => define_flag kv.1 kv.2 fs) (Some ∅) (own_flags getenv ++ zapFlags) = Some fs0 ->
  flag_Parse args fs0 = Parsed fs rest -> own_flags getenv !! i = Some (name, FString v) -> setting Ok given name v = Ok (string_flag fs name).
Proof.
  intros E0 Ep Hin%list_elem_of_lookup_2. destruct (bound_flag _ _ _ _ _ E0 Ep Hin) as (w & Hw & Hs). unfold setting, string_flag. rewrite Hw.
  destruct (last_given name given); cbn in Hs; by injection Hs as <-.
Qed.

Lemma bound_int i fs0 fs rest name v :
  foldl (fun fs kv => define_flag kv.1 kv.2 fs) (Some ∅) (own_flags getenv ++ zapFlags) = Some fs0 ->
  flag_Parse args fs0 = Parsed fs rest -> own_flags getenv !! i = Some (name, FInt v) -> setting (ParseInt true) given name v = Ok (int_flag fs name).
Proof.
  intros E0 Ep Hin%list_elem_of_lookup_2. destruct (bound_flag _ _ _ _ _ E0 Ep Hin) as (w & Hw & Hs). unfold setting, int_flag. rewrite Hw.
  destruct (last_given name given); cbn [set_flag] in Hs; [destruct (ParseInt true _); [|done]|]; by injection Hs as <-.
Qed.

Lemma bound_bool i fs0 fs rest name v :
  foldl (fun fs kv => define_flag kv.1 kv.2 fs) (Some ∅) (own_flags getenv ++ zapFlags) = Some fs0 ->
  flag_Parse args fs0 = Parsed fs rest -> own_flags getenv !! i = Some (name, FBool v) -> setting ParseBool given name v = Ok (bool_flag fs name).
Proof.
  intros E0 Ep Hin%list_elem_of_lookup_2. destruct (bound_flag _ _ _ _ _ E0 Ep Hin) as (w & Hw & Hs). unfold setting, bool_flag. rewrite Hw.
  destruct (last_given name given); cbn [set_flag] in Hs; [destruct (ParseBool _); [|done]|]; by injection Hs as <-.
Qed.

Lemma bound_duration i fs0 fs rest name v :
  foldl (fun fs kv => define_flag kv.1 kv.2 fs) (Some ∅) (own_flags getenv ++ zapFlags) = Some fs0 ->
  flag_Parse args fs0 = Parsed fs rest -> own_flags getenv !! i = Some (name, FDuration v) -> setting ParseDuration given name v = Ok (duration_flag fs name).
Proof.
  intros E0 Ep Hin%list_elem_of_lookup_2. destruct (bound_flag _ _ _ _ _ E0 Ep Hin) as (w & Hw & Hs). unfold setting, duration_flag. rewrite Hw.
  destruct (last_given name given); cbn [set_flag] in Hs; [destruct (ParseDuration _); [|done]|]; by injection Hs as <-.
Qed.

(** C40. Settings: the flag, then the environment, then the default. In a process that
    serves, each of the operator's own settings, and each setting of the manager it
    asked for, is the last value given for its flag on the command line, read by the
    flag package; without one, the environment variable where the setting has one, it
    is set and can be read; and the default otherwise. A value on the command line that
    cannot be read never serves, one in the environment only costs the default. (The
    writer's fallbacks are not among them: [writer_flags_ignored].) *)
Theorem settings_precedence request cfg op :
  main getenv args zapFlags newManager outside = Serving request cfg op ->
  setting Ok given "cluster-id" (env_or Ok "local-kind-cluster" (getenv "CLUSTER_ID")) = Ok (oc_clusterID cfg) /\
  setting Ok given "operator-namespace" (env_or Ok "" (getenv "POD_NAMESPACE")) = Ok (oc_operatorNamespace cfg) /\
  setting (ParseInt true) given "pipeline-workers" (env_or Atoi DefaultWorkers (getenv "PIPELINE_WORKERS")) = Ok (oc_pipelineWorkers cfg) /\
  setting ParseBool given "ch-auto-create-schema" (env_or ParseBool false (getenv "CH_AUTO_CREATE_SCHEMA")) = Ok (oc_autoCreateSchema cfg) /\
  exists mf,
    request = mkRequest (managerCacheOptions (oc_operatorNamespace cfg)) (metricsServerOptions mf) (webhookServerOptions mf)
                (mf_probeAddr mf) (mf_enableLeaderElection mf) /\
    setting Ok given "metrics-bind-address" "0" = Ok (mf_metricsAddr mf) /\
    setting Ok given "health-probe-bind-address" ":8081" = Ok (mf_probeAddr mf) /\
    setting ParseBool given "leader-elect" false = Ok (mf_enableLeaderElection mf) /\
    setting ParseBool given "metrics-secure" true = Ok (mf_secureMetrics mf) /\
    setting ParseBool given "enable-http2" false = Ok (mf_enableHTTP2 mf) /\
    setting Ok given "metrics-cert-path" "" = Ok (mf_metricsCertPath mf) /\
    setting Ok given "metrics-cert-name" "tls.crt" = Ok (mf_metricsCertName mf) /\
    setting Ok given "metrics-cert-key" "tls.key" = Ok (mf_metricsCertKey mf) /\
    setting Ok given "webhook-cert-path" "" = Ok (mf_webhookCertPath mf) /\
    setting Ok given "webhook-cert-name" "tls.crt" = Ok (mf_webhookCertName mf) /\
    setting Ok given "webhook-cert-key" "tls.key" = Ok (mf_webhookCertKey mf).
Proof.
  intros Hm. destruct (serving_inv _ _ _ Hm) as (own & fs0 & fs & rest & _ & E0 & Ep & -> & _ & -> & _).
  cbn [bound_config oc_clusterID oc_operatorNamespace oc_pipelineWorkers oc_autoCreateSchema].
  split; [by apply (bound_string 0 fs0 fs rest)|]. split; [by apply (bound_string 1 fs0 fs rest)|].
  split; [by apply (bound_int 2 fs0 fs rest)|]. split; [by apply (bound_bool 3 fs0 fs rest)|].
  exists (bound_manager fs). split; [done|]. cbn [bound_manager mf_metricsAddr mf_probeAddr mf_enableLeaderElection mf_secureMetrics mf_enableHTTP2
    mf_metricsCertPath mf_metricsCertName mf_metricsCertKey mf_webhookCertPath mf_webhookCertName mf_webhookCertKey].
  split_and!;
    [ by apply (bound_string 4 fs0 fs rest) | by apply (bound_string 5 fs0 fs rest) | by apply (bound_bool 6 fs0 fs rest)
    | by apply (bound_bool 7 fs0 fs rest) | by apply (bound_bool 14 fs0 fs rest) | by apply (bound_string 11 fs0 fs rest)
    | by apply (bound_string 12 fs0 fs rest) | by apply (bound_string 13 fs0 fs rest) | by apply (bound_string 8 fs0 fs rest)
    | by apply (bound_string 9 fs0 fs rest) | by apply (bound_string 10 fs0 fs rest) ].
Qed.

(** The writer's fallbacks are the environment's, or the defaults, whatever the command
    line says: they are copied when the flags are registered. *)
Lemma writer_flags_ignored request cfg op :
  main getenv args zapFlags newManager outside = Serving request cfg op ->
  oc_writer cfg = mkTuning (env_or Atoi DefaultWriteQueueSize (getenv "WRITER_QUEUE_SIZE"))
    (env_or Atoi DefaultWriteWorkers (getenv "WRITER_WORKERS")) (env_or Atoi DefaultBatchMaxRows (getenv "WRITER_BATCH_MAX_ROWS"))
    (env_or ParseDuration DefaultBatchMaxWait (getenv "WRITER_BATCH_MAX_WAIT"))
    (env_or ParseDuration DefaultEnqueueTimeout (getenv "WRITER_ENQUEUE_TIMEOUT"))
    (env_or ParseDuration DefaultShutdownDrainTimeout (getenv "WRITER_DRAIN_TIMEOUT")).
Proof.
  intros Hm. destruct (serving_inv _ _ _ Hm) as (own & fs0 & fs & rest & Eown & _ & _ & -> & _). cbn [oc_writer bound_config].
  destruct (own_flags_registered getenv) as (own' & E' & Hl). rewrite Eown in E'. injection E' as <-.
  assert (Hf : forall i name v, own_flags getenv !! i = Some (name, v) -> own !! name = Some v).
  { intros i name v Hi%list_elem_of_lookup_2. by apply (Hl (name, v)). }
  unfold bound_tuning, int_flag, duration_flag.
  by rewrite (Hf 15 _ _ eq_refl), (Hf 16 _ _ eq_refl), (Hf 17 _ _ eq_refl), (Hf 18 _ _ eq_refl), (Hf 19 _ _ eq_refl), (Hf 20 _ _ eq_refl).
Qed.
End main.

(** ** Wiring *)

(** The calls wiring makes of the outside, in order, with the text before their error. *)
Definition plane_calls : list (outsideCall * string) :=
  [(CallDynamicClient, "build the dynamic client: "); (CallAdd RunSinks, "add the sink runtime to the manager: ");
   (CallAdd RunPipeline, "add the pipeline to the manager: "); (CallAdd RunWarm, "add the warm/GC coordinator to the manager: ");
   (CallAdd RunRecorder, "add the scope-epoch recorder to the manager: "); (CallAdd RunWatches, "add the watch manager to the manager: ")].
Definition control_calls : list (outsideCall * string) :=
  [(CallClientset, "build the authorization client: ");
   (CallIndexField "ClickHouseSink", "set up the ClickHouseSink reconciler: index ClickHouseSink by credentials Secret: ");
   (CallAdd RunProbeWatcher, "set up the ClickHouseSink reconciler: add the sink probe watcher: ");
   (CallComplete "clickhousesink", "set up the ClickHouseSink reconciler: ");
   (CallIndexField kindStreamRule, "set up the StreamRule reconciler: index streamrule by spec.sinkRef: ");
   (CallComplete "streamrule", "set up the StreamRule reconciler: ");
   (CallIndexField kindClusterStreamRule, "set up the ClusterStreamRule reconciler: index clusterstreamrule by spec.sinkRef: ");
   (CallComplete "clusterstreamrule", "set up the ClusterStreamRule reconciler: ")].
Definition check_calls : list (outsideCall * string) :=
  [(CallHealthz, "set up the health check: "); (CallReadyz, "set up the ready check: ")].
Definition boot_calls : list (outsideCall * string) := plane_calls ++ control_calls ++ check_calls.

Fixpoint first_failure (outside : outsideCall -> option error) (calls : list (outsideCall * string)) : option error :=
  match calls with
  | [] => None
  | (c, what) :: rest => match outside c with Some err => Some (what +:+ err) | None => first_failure outside rest end
  end.

Lemma first_failure_app outside l1 l2 :
  first_failure outside (l1 ++ l2) = match first_failure outside l1 with Some err => Some err | None => first_failure outside l2 end.
Proof. induction l1 as [|[c what] l1 IH]; cbn; [done|]. by destruct (outside c). Qed.

(** The operator after each half, and with everything in place. *)
Definition plane_wired (cfg : operatorConfig) (parker : option Parker) (m : managerState) : assembly :=
  mkAssembly true
    (Some (mkOptions true true defaultProbeInterval defaultProbeMinBackoff defaultProbeMaxBackoff defaultProbeTimeout
             defaultDrainTimeout defaultResultBuffer))
    (Some (Z.to_nat (or_default DefaultWorkers (oc_pipelineWorkers cfg))))
    (Some (defaultWarmRetryMaxInterval, defaultSyncPollInterval, defaultBootInterval))
    (Some (defaultScopeFlushInterval, defaultScopeQueueLimit))
    (Some (mkSettings defaultResyncPeriod defaultDebounceDelay defaultSettleQuietPeriod stopWaitTimeout))
    (mkPlane true true true) parker m.

Definition plane_added : managerState := mkManagerState [RunSinks; RunPipeline; RunWarm; RunRecorder; RunWatches] [] [] [].

Definition both_kinds : Parker := <[kindClusterStreamRule := []]> (<[kindStreamRule := []]> ∅).

Definition all_added (checks : list string) : managerState :=
  mkManagerState [RunSinks; RunPipeline; RunWarm; RunRecorder; RunWatches; RunProbeWatcher]
    [("ClickHouseSink", secretRefIndexKey); (kindStreamRule, sinkRefIndexKey); (kindClusterStreamRule, sinkRefIndexKey)]
    [mkController "clickhousesink" "ClickHouseSink" ["Secret"]; mkController "streamrule" kindStreamRule ["ClickHouseSink"];
     mkController "clusterstreamrule" kindClusterStreamRule ["ClickHouseSink"; "Namespace"]]
    checks.

Definition wired (cfg : operatorConfig) : assembly := plane_wired cfg (Some both_kinds) (all_added ["healthz"; "readyz"]).

Section wiring.
Context `{LA : LabelSelectorAPI}.

Lemma setupDataPlane_calls outside cfg :
  setupDataPlane outside cfg newAssembly =
  match first_failure outside plane_calls with Some err => Err err | None => Ok (plane_wired cfg None plane_added) end.
Proof.
  unfold setupDataPlane, calling, plane_calls, mgr_Add. cbn [first_failure add_runnables plane_runnables]. unfold mgr_Add.
  destruct (outside CallDynamicClient); [reflexivity|]. cbn [wrapping NewSinkManager pipeline_New warm_New recorder_New watch_New].
  destruct (outside (CallAdd RunSinks)); [reflexivity|]. destruct (outside (CallAdd RunPipeline)); [reflexivity|].
  destruct (outside (CallAdd RunWarm)); [reflexivity|]. destruct (outside (CallAdd RunRecorder)); [reflexivity|].
  destruct (outside (CallAdd RunWatches)); reflexivity.
Qed.

Lemma setupControlPlane_calls outside cfg :
  oc_operatorNamespace cfg <> "" ->
  setupControlPlane outside cfg (plane_wired cfg None plane_added) =
  match first_failure outside control_calls with Some err => Err err | None => Ok (plane_wired cfg (Some both_kinds) (all_added [])) end.
Proof.
  intros Hns%String.eqb_neq. unfold setupControlPlane, calling, control_calls. cbn [first_failure].
  destruct (outside CallClientset); [reflexivity|]. unfold sink_SetupWithManager. cbn [sp_BuildConfig sp_Sinks sp_OperatorNamespace present op_sinks plane_wired negb op_mgr].
  rewrite Hns. unfold mgr_IndexField at 1, mgr_Add at 1.
  destruct (outside (CallIndexField "ClickHouseSink")); [reflexivity|]. cbn [wrapping].
  destruct (outside (CallAdd RunProbeWatcher)); [reflexivity|]. cbn [wrapping]. unfold mgr_Complete at 1. cbn [ct_name].
  destruct (outside (CallComplete "clickhousesink")); [reflexivity|]. cbn [wrapping].
  unfold rule_SetupWithManager, mgr_IndexField, mgr_Complete. cbn [NewStreamRuleReconciler NewClusterStreamRuleReconciler defaultMetrics rs_Registry rs_Resolver rs_Access rs_kind op_registry negb
    rk_kind rk_controllerName streamRuleKind clusterStreamRuleKind ct_name].
  destruct (outside (CallIndexField kindStreamRule)); [reflexivity|]. cbn [wrapping].
  destruct (outside (CallComplete "streamrule")); [reflexivity|]. cbn [wrapping].
  destruct (outside (CallIndexField kindClusterStreamRule)); [reflexivity|]. cbn [wrapping].
  destruct (outside (CallComplete "clusterstreamrule")); reflexivity.
Qed.

(** C23. Wiring completes or stops at the first refusal. With an operator namespace set,
    [setupOperator] makes its calls in one order; the first that fails is the error it
    returns, with the text that says where, and no call is made after it. When none
    fails the graph is complete: the data plane is bound, so no worker ever meets an
    unbound one; the two rule kinds can be parked; the runnables are added sinks first
    and watches last, the reconcilers and both probes are registered; the components'
    own option checks never refuse. *)
Theorem setup_complete_or_refused (outside : outsideCall -> option error) cfg :
  oc_operatorNamespace cfg <> "" ->
  setupOperator outside cfg = match first_failure outside boot_calls with Some err => Err err | None => Ok (wired cfg) end.
Proof.
  intros Hns. unfold boot_calls. rewrite !first_failure_app. unfold setupOperator. rewrite setupDataPlane_calls.
  destruct (first_failure outside plane_calls); [done|]. rewrite setupControlPlane_calls by done.
  destruct (first_failure outside control_calls); [done|]. unfold check_calls, mgr_check. cbn [first_failure].
  destruct (outside CallHealthz); [reflexivity|]. cbn [wrapping]. destruct (outside CallReadyz); reflexivity.
Qed.
End wiring.

(** An unbound plane: the item is retried and nothing is written; a scope is never
    reported synced, so no warm-up ends, and never settled, so no epoch is closed. *)
Lemma unbound_plane_writes_nothing `{ZC : ZstdCodec} `{UA : UnstructuredAPI} `{JD : JsonDiff} `{LS : LabelSelectors}
    d clusterID t p router clock key s :
  dp_watches d = false ->
  Process (plane_env d clusterID t p router clock) key s = (s, Some errDataPlaneUnbound) /\
  redactionFor (plane_env d clusterID t p router clock) key = None /\
  (forall sink scope, plane_ScopeSynced d t p sink scope = false) /\ (forall closed, plane_Settled d closed = false).
Proof.
  intros Hd. unfold plane_env, plane_ScopeSynced, plane_Settled. rewrite Hd. repeat split.
  - unfold Process. cbn [lister]. unfold plane_Get. by rewrite Hd.
  - cbn. unfold plane_RedactionFor. by rewrite Hd.
Qed.

(** ** Credentials *)

(** Whether the manager's client serves objects of the kind in that namespace:
    controller-runtime answers an error for a namespace its cache was not given. *)
Definition cache_serves (opts : cacheOptions) (kind ns : string) : bool :=
  match opts !! kind with
  | None => true
  | Some nss => bool_decide ("" ∈ nss) || bool_decide (ns ∈ nss)
  end.

Section credentials.
Context `{SA : SchemaAPI, CA : ConditionAPI} `{LA : LabelSelectorAPI}.

(** The Secrets a pass finds are those the client serves. *)
Definition reads_through (opts : cacheOptions) (ev : sinkEvent) : Prop :=
  match ev with
  | SPass _ _ _ e => forall ref data, se_secret e ref = Found data -> cache_serves opts "Secret" (nn_Namespace ref) = true
  | _ => True
  end.

(** The configuration's password stood in a Secret of the namespace that some pass
    read for the sink. *)
Definition confined (ns : string) (evs : list sinkEvent) (name : string) (conf : Config) : Prop :=
  exists factory resync n e chSink data password,
    SPass factory resync n e ∈ evs /\ se_sink e = Found chSink /\ om_Name (sk_meta chSink) = name /\
    nn_Namespace (secretRef ns chSink) = ns /\ se_secret e (secretRef ns chSink) = Found data /\
    data !! DefaultCredentialsSecretKey = Some password /\ password <> "" /\ cf_Password conf = password.

(** C13. A sink cannot be used to read other people's Secrets. A process that serves
    has an operator namespace, and asked for a cache that holds Secrets of that
    namespace alone. Then, after any interleaving of reconcile passes, probes and
    steps of the sink manager, with whatever namespace the sinks' references
    name, every configuration the manager holds and every instance it routes to was
    built with a non-empty password that stood in a Secret of the operator's
    own namespace, found under a reference to it; and a pass over a sink whose reference
    names another namespace declares nothing: it leaves the manager as it is. (With an
    empty namespace the same cache options would have served every Secret of the
    cluster: [main] refuses to start.) *)
Theorem credentials_confined getenv args zapFlags newManager outside request cfg op buffer evs s :
  main getenv args zapFlags newManager outside = Serving request cfg op ->
  sink_run (oc_writer cfg) (oc_autoCreateSchema cfg) (oc_operatorNamespace cfg) buffer evs newSinkSystem = Some s ->
  Forall (reads_through (mq_Cache request)) evs ->
  oc_operatorNamespace cfg <> "" /\
  holds_only (confined (oc_operatorNamespace cfg) evs) (kw_runtime (sy_world s)) /\
  (forall factory resync name e chSink,
     reads_through (mq_Cache request) (SPass factory resync name e) -> se_sink e = Found chSink ->
     nn_Namespace (secretRef (oc_operatorNamespace cfg) chSink) <> oc_operatorNamespace cfg ->
     kw_runtime (pass (oc_writer cfg) (oc_autoCreateSchema cfg) (oc_operatorNamespace cfg) factory resync name e (sy_world s)).1 =
     kw_runtime (sy_world s)).
Proof.
  intros Hm Hrun Hread.
  destruct (serving_inv _ _ _ _ _ _ _ _ Hm) as (own & fs0 & fs & rest & _ & _ & _ & _ & Hns & Hc & _). split; [done|].
  assert (Hown : forall ref, cache_serves (mq_Cache request) "Secret" (nn_Namespace ref) = true -> nn_Namespace ref = oc_operatorNamespace cfg).
  { intros ref Hs. rewrite Hc in Hs. cbn [mq_Cache] in Hs. unfold cache_serves, managerCacheOptions in Hs. rewrite lookup_singleton_eq in Hs.
    apply orb_true_iff in Hs as [H%bool_decide_eq_true|H%bool_decide_eq_true]; apply list_elem_of_singleton in H; [by destruct Hns|done]. }
  split.
  - apply instances_hold_read_credentials in Hrun. eapply holds_mono; [|exact Hrun].
    intros name conf (f & r & n & e & chSink & data & password & Hin & Hs & Hn & Hd & Hk & Hne & Hb).
    exists f, r, n, e, chSink, data, password. split_and!; try done.
    + rewrite Forall_forall in Hread. apply Hown. exact (Hread _ Hin _ _ Hd).
    + unfold newSinkConfigBuilder in Hb. by injection Hb as <-.
  - intros factory resync name e chSink Hr He Hne. rewrite pass_runtime, He.
    destruct (resolveCredential _ _ _) as [password|] eqn:Ec; [|done].
    apply resolveCredential_read in Ec as (data & Hs & _). destruct Hne. apply Hown. exact (Hr _ _ Hs).
Qed.
End credentials.

(** ** Witnesses *)

Module OperatorSamples.
Definition environment (key : string) : string :=
  if String.eqb key "WRITER_WORKERS" then "6" else if String.eqb key "PIPELINE_WORKERS" then "7" else if String.eqb key "WRITER_QUEUE_SIZE" then "0x10"
  else if String.eqb key "WRITER_DRAIN_TIMEOUT" then "1m30s" else "".
Definition command_line : list string := ["--operator-namespace"; "system"; "-writer-queue-size=0x10"; "--ch-auto-create-schema"; "--pipeline-workers=9"; "--pipeline-workers=0x2"; "--writer-workers=2"; "-leader-elect"; "false"].
Definition zap_flags : list (string * flagValue) := [("zap-devel", FOther true (fun _ => true))].
Definition willing (c : outsideCall) : option error := None.
Definition configured : operatorConfig :=
  mkOperatorConfig "local-kind-cluster" "system" 2 true
    (mkTuning DefaultWriteQueueSize 6 DefaultBatchMaxRows DefaultBatchMaxWait DefaultEnqueueTimeout (90 * second)).

Definition accept (r : managerRequest) : option error := None.
Abbreviation started := (main environment command_line zap_flags accept willing).
Definition nothing : serverOptions := mkServerOptions "" false [] false "" "" "".
Definition request_of (e : mainEnd) : managerRequest := match e with Serving r _ _ => r | _ => mkRequest ∅ nothing nothing "" false end.
Definition assembly_of (e : mainEnd) : assembly := match e with Serving _ _ op => op | _ => newAssembly end.

Definition config_of (e : mainEnd) : option operatorConfig := match e with Serving _ cfg _ => Some cfg | _ => None end.

Lemma serves_with e cfg : config_of e = Some cfg -> e = Serving (request_of e) cfg (assembly_of e).
Proof. destruct e as [|code err|r cfg' op]; cbn; intros H; [discriminate H..|]. injection H as ->. reflexivity. Qed.

Lemma started_serves : started = Serving (request_of started) configured (assembly_of started).
Proof. apply serves_with. vm_compute. reflexivity. Qed.

Lemma settings_precedence_witness :
  setting (ParseInt true) (assignments (valueless environment zap_flags) command_line) "pipeline-workers" (env_or Atoi DefaultWorkers "7") = Ok 2%Z /\
  setting Ok (assignments (valueless environment zap_flags) command_line) "cluster-id" "local-kind-cluster" = Ok (oc_clusterID configured).
Proof.
  destruct (settings_precedence environment command_line zap_flags accept willing _ _ _ started_serves) as (Hc & _ & Hw & _).
  split; [exact Hw|exact Hc].
Defined.

(** The command line asks for two writers per sink, the process falls back to six. *)
Lemma writer_flag_lost :
  last_given "writer-workers" (assignments (valueless environment zap_flags) command_line) = Some "2" /\
  config_of started = Some configured /\ wt_workers (oc_writer configured) = 6%Z.
Proof. vm_compute. done. Qed.

Definition no_watches (c : outsideCall) : option error := if bool_decide (c = CallAdd RunWatches) then Some "manager stopped" else None.

Lemma setup_complete_or_refused_witness :
  setupOperator willing configured = Ok (wired configured) /\
  setupOperator no_watches configured = Err "add the watch manager to the manager: manager stopped".
Proof.
  split.
  - apply (setup_complete_or_refused willing configured). discriminate.
  - rewrite (setup_complete_or_refused no_watches configured) by discriminate. vm_compute. reflexivity.
Defined.

(** The sink of the samples, declared to the process that was started, and moved to a
    Secret of another namespace. *)
Definition declared : list sinkEvent := SinkSamples.declared.
Definition serving_system : sinkSystem :=
  default newSinkSystem (sink_run (oc_writer configured) true "system" 64 declared newSinkSystem).

Lemma declared_runs :
  sink_run (oc_writer configured) (oc_autoCreateSchema configured) (oc_operatorNamespace configured) 64 declared newSinkSystem = Some serving_system.
Proof. vm_compute. reflexivity. Qed.

Definition elsewhere : ClickHouseSink :=
  mkSink (mkObjectMeta "" "main" 2 false)
    (mkSinkSpec (mkConnection "ch:9000" "audit" "kuberecord" (mkSecretReference "ch" "payments") None None)
       (mkWriterSpec None None None None None None None) (mkSinkPolicy [] []))
    (mkSinkStatus [] 1).
Definition moved_env : sinkEnv :=
  mkSinkEnv 30 (Found elsewhere) (SinkSamples.secret "s3cret") (mkStatusAttempt (inl elsewhere) None, []).

Lemma secrets_served ref data :
  SinkSamples.secret "s3cret" ref = Found data -> cache_serves (mq_Cache (request_of started)) "Secret" (nn_Namespace ref) = true.
Proof.
  intros Hs. unfold SinkSamples.secret in Hs. destruct (String.eqb (nn_Namespace ref) "system") eqn:E; [|done].
  apply String.eqb_eq in E. rewrite E. vm_compute. reflexivity.
Qed.

Lemma credentials_confined_witness :
  manager_SinkNames (kw_runtime (sy_world serving_system)) = ["main"] /\
  holds_only (confined "system" declared) (kw_runtime (sy_world serving_system)) /\
  kw_runtime (pass (oc_writer configured) true "system" SinkSamples.factory 0 "main" moved_env (sy_world serving_system)).1 =
  kw_runtime (sy_world serving_system).
Proof.
  split; [vm_compute; reflexivity|].
  destruct (credentials_confined environment command_line zap_flags accept willing _ configured _ 64 declared serving_system started_serves declared_runs)
    as (_ & Hh & Hp).
  - repeat constructor. exact secrets_served.
  - split; [exact Hh|]. apply (Hp SinkSamples.factory 0%Z "main" moved_env elsewhere); [exact secrets_served|reflexivity|discriminate].
Defined.

(** A value the flag reads as 16 is ignored in the environment: the two use different
    readers. *)
Lemma environment_reads_decimal : ParseInt true "0x10" = Ok 16%Z /\ getEnvIntOrDefault environment "WRITER_QUEUE_SIZE" DefaultWriteQueueSize = DefaultWriteQueueSize.
Proof. vm_compute. done. Qed.
End OperatorSamples.
