(* ===== verification/EndToEnd.v ===== *)
(** * EndToEnd: from rules to rows

    The components joined: rule reconcile passes change the registry, passes of the
    watch manager install what the registry asks for, and the pipeline settles work
    items, commit callbacks and the warm-up's writes against the watch manager's
    tables through the bound data plane. Every row a sink is ever handed goes back to
    a target some rule wanted ([rows_authorised]). *)

From Stdlib Require Import ZArith Lia.
From stdpp Require Import base gmap strings list relations.
From S2P Require Import Prelude Identity HashCache Sha256 Json Redact Normalize Pipeline JsonPatch Process Registry Interest Resolver WatchManager WatchLoop.
From S2P Require Import ScopeRecorder Warm ApiTypes Conditions RuleReconciler Driver ScopeWriter CHWriter SinkManager CHSchema SinkReconciler.
From S2P Require Import ProcessFacts Workers Metrics GoFlags Operator ApiSamples RuleProps.

(** ** A property of all rows *)

Section rows.
Context `{ZC : ZstdCodec} `{UA : UnstructuredAPI} `{JD : JsonDiff}.
Variable P : Record_ -> Prop.

(** It holds of what was handed out, of what is owed, and of what a callback in
    flight may yet owe. *)
Definition job_sat (job : Job) : Prop :=
  P (j_Record job) /\ match j_Commit job with CommitCloseOut _ _ _ record => P record | _ => True end.

Abbreviation rows_sat := (rows_inv job_sat (fun _ => P)).

Lemma sat_enqueueCloseOut key loc writer okey r : P r -> keeps rows_sat (enqueueCloseOut key loc writer okey r).
Proof. intros Hr. by apply rows_inv_enqueueCloseOut. Qed.

(** The rows of one identity. *)
Section identity.
Variable key : Key.
Hypothesis Hkey : forall r, r_APIGroup r = k_Group key -> r_Kind r = k_Kind key -> r_Namespace r = k_Namespace key -> P r.

Lemma sat_closeOutOld e loc writer okey cached : keeps rows_sat (closeOutOld e key loc writer okey cached).
Proof.
  unfold closeOutOld. apply keeps_bind; [eauto with keeps|]. intros [[entry v] []]; keeps_steps.
  apply sat_enqueueCloseOut. by apply Hkey.
Qed.

Lemma sat_export e loc writer okey norm et diff full run rev : keeps rows_sat (export e key loc writer okey norm et diff full run rev).
Proof. unfold export, revertVersion. keeps_steps. apply rows_inv_Enqueue. split; [by apply Hkey|done]. Qed.

Lemma sat_processUpsert e loc writer obj okey : keeps rows_sat (processUpsert e key loc writer obj okey).
Proof.
  unfold processUpsert. destruct (redactionFor e key) as [policy|]; [|apply keeps_ret].
  destruct (normalizeObject obj policy) as [norm|err]; [|apply keeps_ret]. apply keeps_bind; [by intros s Hs|]. intros cached.
  destruct (decide_write _ _ _ _ _ _) as [|et diff full run rev]; [keeps_steps|]. apply keeps_bind.
  { destruct cached as [entry|]; [|apply keeps_ret]. destruct (_ && _); [|apply keeps_ret]. apply sat_closeOutOld. }
  intros _. apply keeps_bind; [by intros s Hs|]. intros w. apply keeps_bind; [auto with keeps|]. intros _. apply sat_export.
Qed.

Lemma sat_emitDelete e loc writer uid : keeps rows_sat (emitDelete e key loc writer uid).
Proof. unfold emitDelete. keeps_steps. apply rows_inv_Enqueue. split; [by apply Hkey|done]. Qed.
End identity.

(** A work item writes rows of its identity only where its scope is watched. *)
Lemma sat_Process e key :
  (forall obj, lister e key = Ok (obj, true) ->
     forall r, r_APIGroup r = k_Group key -> r_Kind r = k_Kind key -> r_Namespace r = k_Namespace key -> P r) ->
  keeps rows_sat (Process e key).
Proof.
  intros Hk. unfold Process, forgetEphemeral. destruct (lister e key) as [[obj active]|]; [|apply keeps_ret].
  destruct active; cbn [negb]; [|keeps_steps]. specialize (Hk obj eq_refl). destruct (_ && _); [keeps_steps|].
  destruct (router e (k_Sink key)) as [writer|]; [|keeps_steps]. apply keeps_bind; [eauto with keeps|]. intros loc.
  apply keeps_bind; [by apply rows_inv_retry|]. intros _. destruct obj as [o|]; [by apply sat_processUpsert|].
  apply keeps_bind; [by apply sat_emitDelete|keeps_steps].
Qed.

Lemma sat_gc_target e ref loc writer target :
  (forall obj, lister e (ref_key ref (gt_namespace target) (gt_name target)) = Ok (obj, true) ->
     forall r, r_APIGroup r = s_Group (sr_scope ref) -> r_Kind r = s_Kind (sr_scope ref) -> r_Namespace r = gt_namespace target -> P r) ->
  keeps rows_sat (gc_target e ref loc writer target).
Proof.
  intros Hk. unfold gc_target. cbv zeta. destruct (lister e _) as [[obj active]|]; [|apply keeps_ret].
  destruct active; cbn [negb]; [|apply keeps_ret]. specialize (Hk obj eq_refl). destruct (bool_decide _); [apply keeps_ret|].
  apply keeps_bind; [by apply sat_emitDelete|]. intros [outcome err]. keeps_steps.
Qed.

Lemma sat_closeOut we ref loc writer prior :
  (forall r, r_APIGroup r = s_Group (sr_scope ref) -> r_Kind r = s_Kind (sr_scope ref) -> r_Namespace r = ri_namespace prior -> P r) ->
  keeps rows_sat (closeOut_priors we ref loc writer 0 [prior]).
Proof.
  intros Hk. cbn [closeOut_priors]. destruct (ctxErr we 0); [apply keeps_ret|]. apply keeps_bind; [|intros; apply keeps_ret].
  apply sat_enqueueCloseOut. by apply Hk.
Qed.

Lemma sat_run_commit job ok : job_sat job -> keeps rows_sat (run_commit (j_Commit job) ok).
Proof. intros [_ Hj]. apply rows_inv_run_commit. intros key loc okey r Ec. by rewrite Ec in Hj. Qed.
End rows.

Abbreviation rows_sat P := (rows_inv (job_sat P) (fun _ => P)).

(** ** The system *)

Section system.
Context `{ZC : ZstdCodec} `{UA : UnstructuredAPI} `{JD : JsonDiff}.
Context `{LS : LabelSelectors} `{SA : SelectorAPI, LA : LabelSelectorAPI, SC : SchemaAPI, CA : ConditionAPI}.

(** The control plane, the watch manager and the pipeline; what the rules asked for at
    each pass of the watch manager, and the interests reported started. *)
Record system := mkSystem {
  sy_rules : ruleWorld;
  sy_watch : manager;
  sy_pipe : pstate;
  sy_past : list desires;
  sy_begun : list scopeInterest;
}.

Definition newSystem : system := mkSystem newRuleWorld new_manager newPipeline [] [].

(** What the pipeline asks the bound plane. *)
Definition live_env (s : system) (clusterID : string) (router : string -> option Writer) (clock : nat -> Z) : env :=
  plane_env (mkPlane true true true) clusterID (table (sy_watch s)) (m_pool (sy_watch s)) router clock.

Inductive sysLabel :=
| LRule (p : pass)
| LWatch (resolve : GroupVersionKind -> result (GroupVersionResource * bool)) (start : informerKey -> GroupVersionKind -> result informer)
| LItem (clusterID : string) (router : string -> option Writer) (clock : nat -> Z) (key : Key)
| LCommit (n : nat) (ok : bool)
| LRemoveSink (name : string)
| LEvict (name : string) (scope : ScopeKey)
| LMarkWarm (name : string) (scope : ScopeKey)
| LSeed (name okey : string) (entry : CacheEntry)
| LSweep (clusterID : string) (router : string -> option Writer) (clock : nat -> Z) (ref : scopeRef) (writer : Writer) (target : gcTarget)
| LCloseOut (we : warmEnv) (ref : scopeRef) (writer : Writer) (prior : reincarnation).

Definition started_of (e : effect) : option scopeInterest := match e with ScopeStarted i => Some i | _ => None end.

Definition on_pipeline {A} (m : M A) (s : system) : system :=
  mkSystem (sy_rules s) (sy_watch s) (m (sy_pipe s)).1 (sy_past s) (sy_begun s).

(** A warm-up closes out incarnations of a scope the recorder was told of, found in
    that scope's history. *)
Definition warming (s : system) (ref : scopeRef) (prior : reincarnation) : bool :=
  existsb (fun i => String.eqb (in_sink i) (sr_sink ref) && bool_decide (in_scope i = sr_scope ref)) (sy_begun s) &&
  (String.eqb (s_Namespace (sr_scope ref)) "" || String.eqb (s_Namespace (sr_scope ref)) (ri_namespace prior)).

Definition system_step (l : sysLabel) (s : system) : option system :=
  match l with
  | LRule p => Some (mkSystem (RuleProps.run_pass p (sy_rules s)) (sy_watch s) (sy_pipe s) (sy_past s) (sy_begun s))
  | LWatch resolve start =>
      let reg := rw_registry (sy_rules s) in
      let '(m, effects) := reconcilePool resolve start (Snapshot reg) (sy_watch s) in
      Some (mkSystem (sy_rules s) m (sy_pipe s) (sy_past s ++ [rules reg]) (sy_begun s ++ omap started_of effects))
  | LItem clusterID router clock key => Some (on_pipeline (processNext (live_env s clusterID router clock) key) s)
  | LCommit n ok =>
      match sent (sy_pipe s) !! n with Some (_, job) => Some (on_pipeline (run_commit (j_Commit job) ok) s) | None => None end
  | LRemoveSink name => Some (on_pipeline (Pipeline.RemoveSink name) s)
  | LEvict name scope => Some (on_pipeline (EvictScope name scope) s)
  | LMarkWarm name scope => Some (on_pipeline (MarkScopeWarm name scope) s)
  | LSeed name okey entry => Some (on_pipeline (loc ← registry_get name; on_cache loc (fun c => (StoreIfAbsent okey entry c, tt))) s)
  | LSweep clusterID router clock ref writer target =>
      Some (on_pipeline (loc ← registry_get (sr_sink ref); gc_target (live_env s clusterID router clock) ref loc writer target) s)
  | LCloseOut we ref writer prior =>
      if warming s ref prior then Some (on_pipeline (loc ← registry_get (sr_sink ref); closeOut_priors we ref loc writer 0 [prior]) s)
      else None
  end.

Fixpoint system_run (ls : list sysLabel) (s : system) : option system :=
  match ls with
  | [] => Some s
  | l :: rest => s' ← system_step l s; system_run rest s'
  end.

(** What the API server promises of each rule pass. *)
Definition label_ok (l : sysLabel) : Prop :=
  match l with LRule p => pass_ok (pa_kind p) (pa_req p) (pa_env p) | _ => True end.

(** ** Authority *)

(** A rule asked, at some pass of the watch manager, for this kind there. *)
Definition asked (past : list desires) (group kind ns : string) : Prop :=
  exists A rk t, A ∈ past /\ wants A rk t /\ g_Group (t_GVK t) = group /\ g_Kind (t_GVK t) = kind /\ (t_Namespace t = "" \/ t_Namespace t = ns).

Definition authorised (past : list desires) (r : Record_) : Prop := asked past (r_APIGroup r) (r_Kind r) (r_Namespace r).

(** An interest stands for a target some rule asked for. *)
Definition backed (past : list desires) (i : scopeInterest) : Prop :=
  exists A rk t, A ∈ past /\ wants A rk t /\ in_gvk i = t_GVK t /\
    in_scope i = mkScopeKey (g_Group (t_GVK t)) (g_Kind (t_GVK t)) (t_Namespace t) /\ ik_Namespace (in_informer i) = t_Namespace t.

Lemma asked_later past A g k ns : asked past g k ns -> asked (past ++ [A]) g k ns.
Proof. intros (A' & rk & t & Hin & H). exists A', rk, t. split; [set_solver|done]. Qed.

Lemma backed_later past A i : backed past i -> backed (past ++ [A]) i.
Proof. intros (A' & rk & t & Hin & H). exists A', rk, t. split; [set_solver|done]. Qed.

Lemma sat_mono (P Q : Record_ -> Prop) s : (forall r, P r -> Q r) -> rows_sat P s -> rows_sat Q s.
Proof.
  intros HPQ [H1 H2]. split.
  - eapply Forall_impl; [exact H1|]. intros [n j] [Hr Hc]. cbn [snd] in *. split; [by apply HPQ|]. destruct (j_Commit j); auto.
  - intros loc k. eapply Forall_impl; [exact (H2 loc k)|]. auto.
Qed.

Record system_inv (s : system) : Prop := {
  si_confined : confined (rules (rw_registry (sy_rules s)));
  si_consistent : consistent (rw_registry (sy_rules s));
  si_past : Forall confined (sy_past s);
  si_table : indexed (table (sy_watch s)) /\ forall id i, current (table (sy_watch s)) !! id = Some i -> backed (sy_past s) i;
  si_begun : Forall (backed (sy_past s)) (sy_begun s);
  si_rows : rows_sat (authorised (sy_past s)) (sy_pipe s);
}.

(** What the watch manager installs is backed. *)
Lemma translate_backed resolve reg id i :
  consistent reg -> (translate resolve (Snapshot reg)).1 !! id = Some i -> backed [rules reg] i.
Proof.
  intros Hc Hi. apply translate_lookup in Hi as (_ & key & st & Hst & Ht). apply translate_target_inv in Ht as (gvr & ns & _ & Hn).
  apply newScopeInterest_inv in Hn as (Hinf & Hg & _ & Hs & _).
  pose proof (consistent_merged reg key Hc) as Hm. rewrite Hst in Hm. destruct Hm as (_ & (rk & t & Hw & Hk) & _).
  exists (rules reg), rk, t. rewrite <- Hk in *. cbn in *. rewrite Hinf. split; [by left|]. done.
Qed.

(** An active scope was asked for. *)
Lemma active_asked s clusterID router clock key obj :
  system_inv s -> lister (live_env s clusterID router clock) key = Ok (obj, true) -> asked (sy_past s) (k_Group key) (k_Kind key) (k_Namespace key).
Proof.
  intros [_ _ _ [Hix Ht] _ _] Hl. cbn in Hl. unfold plane_Get, Get in Hl. cbn [dp_watches] in Hl.
  destruct (lookupIdentity key (table (sy_watch s))) as [|i others] eqn:El; [done|].
  assert (Hi : i ∈ lookupIdentity key (table (sy_watch s))) by (rewrite El; by left).
  apply (elem_of_lookupIdentity _ _ _ Hix) in Hi as [[id Hid] (Hg & Hk & _ & Hns)].
  destruct (Ht id i Hid) as (A & rk & t & HA & Hw & Hgvk & _ & Hik). exists A, rk, t. rewrite Hgvk in *. rewrite Hik in Hns.
  split_and!; try done. destruct Hns; auto.
Qed.

Lemma inv_pipeline {A} (m : M A) s : system_inv s -> keeps (rows_sat (authorised (sy_past s))) m -> system_inv (on_pipeline m s).
Proof. intros [H1 H2 H3 H4 H5 H6] Hm. split; cbn [on_pipeline sy_rules sy_watch sy_pipe sy_past sy_begun]; try done. by apply Hm. Qed.

Lemma row_asked past key r :
  asked past (k_Group key) (k_Kind key) (k_Namespace key) ->
  r_APIGroup r = k_Group key -> r_Kind r = k_Kind key -> r_Namespace r = k_Namespace key -> authorised past r.
Proof. unfold authorised. intros H -> -> ->. exact H. Qed.

Lemma inv_watch resolve start s s' : system_inv s -> system_step (LWatch resolve start) s = Some s' -> system_inv s'.
Proof.
  intros [H1 H2 H3 [Hix Ht] H5 H6] E. cbn [system_step] in E. unfold reconcilePool in E.
  destruct (translate resolve (Snapshot (rw_registry (sy_rules s)))) as [desired wanted] eqn:Etr.
  assert (Hd : forall id i, desired !! id = Some i -> backed (sy_past s ++ [rules (rw_registry (sy_rules s))]) i).
  { intros id i Hi. assert (Hi' : (translate resolve (Snapshot (rw_registry (sy_rules s)))).1 !! id = Some i) by (by rewrite Etr).
    apply (translate_backed _ _ _ _ H2) in Hi' as (A & rk & t & HA & H). exists A, rk, t. split; [set_solver|done]. }
  destruct (replace_indexed desired (table (sy_watch s))) as [Hix' Hcur].
  destruct (replace desired (table (sy_watch s))) as [table' removed] eqn:Er. cbv zeta in E. injection E as <-.
  split; cbn [sy_rules sy_watch sy_pipe sy_past sy_begun table]; try done.
  - apply Forall_app. split; [done|]. by apply Forall_singleton.
  - split; [done|]. cbn in Hcur. rewrite Hcur. exact Hd.
  - apply Forall_app. split; [eapply Forall_impl; [exact H5|]; intros; by apply backed_later|].
    apply Forall_forall. intros i Hi. apply list_elem_of_omap in Hi as (ef & Hin & Hef). apply elem_of_app in Hin as [Hin|Hin].
    + apply list_elem_of_join in Hin as (l & Hin & Hl). apply list_elem_of_fmap in Hl as (j & -> & _).
      rewrite !elem_of_cons in Hin. by destruct Hin as [->|[->|?%not_elem_of_nil]].
    + apply list_elem_of_fmap in Hin as (j & -> & Hin). injection Hef as ->. apply elem_of_serving in Hin as (id & Hj & _). by eapply Hd.
  - eapply sat_mono; [|exact H6]. intros r. apply asked_later.
Qed.

Lemma system_inv_step l s s' : system_inv s -> label_ok l -> system_step l s = Some s' -> system_inv s'.
Proof.
  intros Hi Hok E. destruct l as [p|resolve start|cid router clock key|n ok|name|name scope|name scope|name okey entry|cid router clock ref writer target|we ref writer prior];
    try (by eapply inv_watch); cbn [system_step] in E; try (injection E as <-).
  - destruct Hi as [H1 H2 H3 H4 H5 H6]. destruct (pass_confined p (sy_rules s) Hok H1 H2) as [G1 G2]. by split.
  - apply inv_pipeline; [done|]. unfold processNext. apply keeps_bind; [|intros err; destruct err; apply keeps_bind; intros; apply rows_inv_queue].
    apply sat_Process. intros obj Hl r. apply row_asked. by eapply active_asked.
  - destruct (sent (sy_pipe s) !! n) as [[name job]|] eqn:Hn; [|done]. injection E as <-. apply inv_pipeline; [done|]. apply sat_run_commit.
    destruct (si_rows _ Hi) as [Hs _]. rewrite Forall_forall in Hs. apply (Hs (name, job)). by eapply list_elem_of_lookup_2.
  - apply inv_pipeline; [done|]. apply rows_inv_RemoveSink.
  - apply inv_pipeline; [done|]. apply rows_inv_EvictScope.
  - apply inv_pipeline; [done|]. apply rows_inv_MarkScopeWarm.
  - apply inv_pipeline; [done|]. apply keeps_bind; [apply rows_inv_get|]. intros loc. apply rows_inv_on_cache.
  - apply inv_pipeline; [done|]. apply keeps_bind; [apply rows_inv_get|]. intros loc. apply sat_gc_target. intros obj Hl r.
    apply (row_asked _ (ref_key ref (gt_namespace target) (gt_name target))). by eapply active_asked.
  - destruct (warming s ref prior) eqn:Hw; [|done]. injection E as <-. apply inv_pipeline; [done|].
    apply keeps_bind; [apply rows_inv_get|]. intros loc. apply sat_closeOut. intros r Eg Ek En. unfold authorised. rewrite Eg, Ek, En.
    unfold warming in Hw. apply andb_true_iff in Hw as [Hb Hn]. apply existsb_exists in Hb as (i & Hin%list_elem_of_In & Hsc).
    apply andb_true_iff in Hsc as [_ Hsc%bool_decide_eq_true]. pose proof (si_begun _ Hi) as Hb. rewrite Forall_forall in Hb.
    destruct (Hb i Hin) as (A & rk & t & HA & Hwt & _ & Hs & _). rewrite Hs in Hsc. exists A, rk, t. rewrite <- Hsc in *. cbn in *.
    split_and!; try done. apply orb_true_iff in Hn as [Hn|Hn]; apply String.eqb_eq in Hn; auto.
Qed.

Lemma inv_run ls s s' : system_inv s -> Forall label_ok ls -> system_run ls s = Some s' -> system_inv s'.
Proof.
  intros Hi HF. revert s Hi. induction HF as [|l ls Hl HF IH]; intros s Hi E; [by injection E as <-|].
  cbn [system_run] in E. apply bind_Some in E as (s1 & E1 & E). apply (IH s1); [|done]. by eapply system_inv_step.
Qed.

Lemma new_inv : system_inv newSystem.
Proof.
  split; cbn [newSystem sy_rules sy_watch sy_pipe sy_past sy_begun]; try done.
  apply New_consistent.
Qed.

(** C4. Every row goes back to a rule. Over any interleaving of rule reconcile passes,
    passes of the watch manager, work items, commit callbacks, sink removals, scope
    evictions and the warm-up's seeds, sweeps and close-outs, under any answers of the
    API server, the caches and the sinks: each row a sink was ever handed is of a
    kind, and of a namespace, that some rule's target asked for when the watch manager
    last looked or before; no row is of the core group's Secret kind; and if that rule
    is a StreamRule of a namespace, the row is of the same namespace. *)
Theorem rows_authorised ls s name job :
  Forall label_ok ls -> system_run ls newSystem = Some s -> (name, job) ∈ sent (sy_pipe s) ->
  let r := j_Record job in
  exists A rk t, A ∈ sy_past s /\ wants A rk t /\
    g_Group (t_GVK t) = r_APIGroup r /\ g_Kind (t_GVK t) = r_Kind r /\ (t_Namespace t = "" \/ t_Namespace t = r_Namespace r) /\
    ~ (r_APIGroup r = "" /\ r_Kind r = "Secret") /\
    forall ns rule, has_char "/" ns = false -> ns <> "" -> rk = RuleKey kindStreamRule ns rule -> r_Namespace r = ns.
Proof.
  intros Hok Hr Hin r. destruct (inv_run ls newSystem s new_inv Hok Hr) as [_ _ Hp _ _ [Hs _]].
  rewrite Forall_forall in Hs. destruct (Hs _ Hin) as [(A & rk & t & HA & Hw & Hg & Hk & Hns) _]. cbn [snd] in *. fold r in Hg, Hk, Hns.
  rewrite Forall_forall in Hp. destruct (Hp A HA rk t Hw) as [Hsec Hrule]. exists A, rk, t. split_and!; try done.
  - intros [E1 E2]. rewrite Hg, Hk, E1, E2 in Hsec. done.
  - intros ns rule Hslash Hne Hrk. specialize (Hrule ns rule Hslash Hrk). destruct Hns as [Hns|Hns]; congruence.
Qed.
End system.

(** ** Witness *)

Module SystemSamples.
#[local] Instance selectors : LabelSelectors := WatchManager.Samples.existence_selectors.

(** A pod of the cache the informers share. *)
Definition web_pod : object :=
  list_to_map [("apiVersion", JStr "v1"); ("kind", JStr "Pod"); ("metadata", JObj {[ "uid" := JStr "u1" ]}); ("spec", JObj {[ "image" := JStr "nginx" ]})].
Definition pod_cache (_ : informerKey) (_ : GroupVersionKind) : result informer :=
  Ok (mkInformer (fun k => Ok (if String.eqb k "prod/web" then Some (Unstructured web_pod) else None)) true).

Definition writer_of (name : string) : option Writer := if String.eqb name "main" then Some (mkWriter None (fun _ _ => None)) else None.
Definition pod_key : Key := mkKey "main" "" "Pod" "prod" "web".
Definition secret_key : Key := mkKey "main" "" "Secret" "prod" "db".

(** Rules arrive, informers start, an object and a Secret are worked on. *)
Definition story : list sysLabel :=
  map LRule RuleSamples.passes ++
  [LWatch WatchManager.Samples.discover pod_cache; LItem "c1" writer_of Z.of_nat pod_key; LItem "c1" writer_of Z.of_nat secret_key; LCommit 0 true].

Definition told : system := default newSystem (system_run story newSystem).

Lemma story_runs : system_run story newSystem = Some told.
Proof.
  assert (H : bool_decide (is_Some (system_run story newSystem)) = true) by (vm_compute; reflexivity).
  unfold told. apply bool_decide_eq_true in H. destruct (system_run story newSystem); [done|]. by destruct H.
Qed.

Definition told_job : string * Job :=
  default ("", mkJob (deletedRecord (live_env told "" writer_of Z.of_nat) 0 pod_key zeroEntry) (CommitDelete pod_key 0 "" 0)) (sent (sy_pipe told) !! 0%nat).

Lemma rows_authorised_witness :
  length (sent (sy_pipe told)) = 1%nat /\ r_Kind (j_Record told_job.2) = "Pod" /\
  ~ (r_APIGroup (j_Record told_job.2) = "" /\ r_Kind (j_Record told_job.2) = "Secret").
Proof.
  split; [vm_compute; reflexivity|]. split; [vm_compute; reflexivity|].
  destruct (rows_authorised story told told_job.1 told_job.2) as (A & rk & t & _ & _ & _ & _ & _ & Hs & _).
  - unfold story. apply Forall_app. split; [|do 4 (constructor; [exact I|]); constructor].
    apply Forall_fmap. eapply Forall_impl; [exact RuleSamples.passes_are_ok|]. done.
  - exact story_runs.
  - apply (list_elem_of_lookup_2 _ 0%nat). vm_compute. reflexivity.
  - exact Hs.
Defined.
End SystemSamples.
